(* ===== verification/_CoqProject ===== *)
-Q . S2P
Prelude.v
CLib.v
Util.v
Reply.v
Resp.v
RespProps.v
Mem.v
SepLogic.v
RespMem.v
RespMemProps.v
Chain.v
FieldHash.v
DList.v
Dbl.v
DblText.v
DblTextProps.v
DblArith.v
DblReal.v
ZSet.v
Stream.v
Store.v
StoreInv.v
StoreSpec.v
StoreRefine.v
StoreProps.v
StoreTypes.v
StoreHeap.v
HeapLists.v
StoreRep.v
KeyHeap.v
ValueHeap.v
ZSetHeap.v
LoadHeap.v
StoreHeapProps.v
ValueProps.v
Geo.v
GeoCoord.v
GeoProps.v
EmbeddedGeo.v
Rdb.v
RdbProps.v
Config.v
ConfigMem.v
Txn.v
Cmd.v
Actions.v
CmdString.v
CmdList.v
CmdHash.v
CmdZset.v
CmdStream.v
CmdServer.v
CmdProps.v
HandlerProps.v
Commands.v
CommandsProps.v
Handlers.v
Server.v
ServerProps.v
ServerOut.v
OneReply.v
EventLoop.v
EventLoopProps.v
Requests.v
RequestsProps.v
Liveness.v
Sockets.v
SocketsProps.v
Boot.v
Cli.v
CliProps.v
EndToEnd.v
Bench.v
BenchProps.v
BenchProc.v
