(* ===== verification/Prelude.v ===== *)
(** * PulseDB: a verification development

    PulseDB is a single-threaded in-memory database server that speaks the
    Redis protocol.  Bytes read from a connection are cut into requests
    ([src/src/resp.c]), a request is checked against the command table and
    dispatched ([commands.c]) to a handler ([cmd_string.c], [cmd_list.c],
    [cmd_hash.c], [cmd_zset.c], [cmd_stream.c]), the handler works on the
    keyspace ([store.c]) and writes its answer ([reply.c]) to the output buffer
    of the connection ([util.c]); MULTI and EXEC queue requests per connection
    ([txn.c]), and the event loop ([server.c]) polls the connections, reads,
    retries parked requests, sends and closes.  At start-up the options are read
    ([config.c]) and a snapshot is loaded ([rdb.c], [main.c]); [tools/cli.c] is
    a client, [bench/bench.c] a benchmark of the store and of a server, and
    [examples/embedded_geo.c] uses the store as a library.  This library
    models these parts in Rocq and proves what makes them correct.

    ** Conventions

    - A C buffer or the characters of a C string before its NUL are a list of
      [ascii] ([bytes]); sizes and indices are [nat]; integers that can be
      negative, wrap or overflow are [Z] with the width written out ([u32],
      [u64], [i64]).
    - Undefined behaviour is a value: [res] has a case [Undef] for an access out
      of bounds, a NULL or dangling dereference, a signed overflow or a bad
      conversion.  "Safe" below means that this case is not reached.
    - Memory never runs out: the allocation wrappers abort the process.  The
      store, the parser, the requests of a connection and the configuration are
      modelled twice: on Rocq values, which the parts that use them work with,
      and on an explicit heap of blocks ([Mem]) with every pointer, allocation
      and [free] of the source.
      Theorems relate the two: the code on the heap computes what the model on
      values does, without undefined behaviour, and owns exactly its memory.
    - The clock is an input: a store operation takes the values its calls of
      [now_ms()] return, a handler reads them from the world.
    - What the operating system answers - which sockets are ready, the result
      of each [read], [write] and [accept], the bytes of a file or of the
      terminal - is an argument, so theorems quantify over its behaviour.
    - Doubles are the IEEE 754 numbers of the standard library's [SpecFloat],
      with one correctly rounded operation for each operation of the code.
    - [fnmatch] and the functions of [math.h] are not in the repository and are
      parameters (classes [CmdString.Fnmatch] and [GeoCoord.Libm]); no theorem
      assumes anything about them.
    - Recursion that is not structural has fuel, with the reason why it is
      enough beside it: [Util.double_until] (the capacity needed), [Resp]
      (bytes left, nesting depth left), [ZSet.lower_bound_loop] (the length of
      the array halves), [Commands.probe] (the number of slots),
      [CmdString.set_options] (the number of arguments), [Rdb.rdb_loop] (every
      opcode consumes a byte of the file), [Server.process_loop] (every request
      consumes a byte), [Cli.split_loop] (every word consumes a byte),
      [RespMem.value_clear] (nesting depth), [StoreHeap.walk], [while_node],
      [collect] and [scan_slots] (the number of blocks of the heap, as a chain
      has no more nodes; a loop that runs out of it is undefined),
      [StoreHeap.lower_bound_loop] (as [ZSet]), [Bench.port_loop] (every line consumes a byte),
      [Bench.pipeline_loop] (every batch has a command).

    ** Files

    - [Prelude]: bytes, machine integers, undefined behaviour, tactics, hint
      databases and generic lemmas on lists.
    - [CLib]: what the code uses of the C library on strings: [strcmp],
      [strcasecmp], [strtoll], decimal printing.
    - [Util]: [parse_int64], the clocks and [Buffer] of [util.c].
    - [Reply]: the writers of [reply.c] and the text each of them appends.
    - [Resp]: the parser of [resp.c]; [RespProps]: it stays inside the buffer,
      is restartable, rejects for good, and reads back what [reply.c] writes.
    - [Mem]: heaps of blocks, programs on them, ownership of a part and freeing
      exactly a part.  [RespMem]: the parser of [resp.c] on a heap;
      [RespMemProps]: it computes what [Resp] does and neither leaks nor frees
      twice.
    - [Chain]: the theory of chained hash tables (interface [Keyed]) that
      keyspace, field hash and member index share.
    - [FieldHash], [DList], [ZSet] (on [Dbl]), [Stream]: the value types of
      [store.c], each with its invariant and the abstract value it represents:
      a finite map, a list, a sorted list without duplicates, a list in
      increasing ID order.  [ValueProps] states what they promise.
    - [Store]: the keyspace and every [store_*] operation.  [StoreInv]: its
      invariant; [StoreSpec]: the abstract keyspace, a finite map from keys to
      expiry and abstract value, and its operations; [StoreRefine]: the
      simulation of each operation; [StoreProps]: the theorems, those on
      [store_count] and [store_scan], which have no key and are not part of the
      refinement, included; [StoreTypes]: operations and the types of keys.
    - [SepLogic]: a linear separation logic for programs on a heap, an instance
      of Iris's interface, with total weakest preconditions.  [StoreHeap]: every
      function of [store.c] on a heap.  [HeapLists]: proof rules for links,
      chains, walks and arrays of chains (interfaces [Linked], [SlotArray]);
      [StoreRep]: the memory of values, entries and a store, and what frees it;
      [KeyHeap], [ValueHeap], [ZSetHeap], [LoadHeap]: lookup, creation and
      deletion of keys (interface [Kind] of a type of values), changes of values,
      the sorted set with its borrowed strings, and reading; [StoreHeapProps]:
      each call does on its memory what the call of [Store] does, and from
      [store_create] to [store_destroy] nothing leaks, is freed twice or used
      after it was freed.
    - [DblText]: [strtod], the printing of doubles, [parse_double] and
      [reply_double]; [DblTextProps]: every double that is printed is read back.
      [DblArith]: the arithmetic of doubles; [DblReal]: its rounding error in the
      real numbers.
    - [Geo]: the bit interleaving of [geo.c]; [GeoCoord]: the rest of it;
      [GeoProps]: hashes and positions survive encoding and decoding.
      [EmbeddedGeo]: the example program and what it prints.
    - [Rdb]: the snapshot decoder of [rdb.c];
      [RdbProps]: it loads what a file says, refuses one that is cut short before
      its end marker, and always stops.  [Config]: the options of [config.c] against their grammar;
      [ConfigMem]: the memory of the configuration.
    - [Txn]: the queue of [txn.c].
    - [Cmd]: the context of a handler ([cmd.h]), a state monad over store,
      connection and clocks; [Actions]: predicates that every handler keeps;
      [CmdString], [CmdList], [CmdHash], [CmdZset], [CmdStream], [CmdServer]:
      the handlers; [CmdProps], [HandlerProps]: their theorems.
    - [Commands]: table, name index, validation and dispatch of [commands.c],
      for any record of handlers; [CommandsProps]: the index is the linear scan,
      validation is total, transactions are all or nothing and in order.
      [Handlers]: the record of all handlers of the table.
    - [Server]: reading, running requests, sending and closing for one
      connection of [server.c], for every behaviour of the socket;
      [ServerProps]: for handlers that leave the input buffer alone (interface
      [LocalHandlers]) the way bytes are split over reads makes no difference;
      [ServerOut]: for handlers that only append to the output (interface
      [AppendHandlers]) replies arrive complete and in order however sending is
      interleaved.  The modelled handlers discharge both interfaces.
    - [OneReply]: every request is answered by exactly one complete value
      (interface [AnsweringHandlers], discharged for all handlers), so the bytes
      of a connection are always a sequence of complete replies.
    - [EventLoop]: the clients of a server and the iterations of the loop of
      [server.c]; [EventLoopProps]: the invariant of the client list and that
      connections do not disturb each other; [Liveness]: a parked client whose
      time is up is answered, and one whose peer has finished sending is answered
      and closed.  [Requests]: the functions that pass a request on,
      with the requests in memory; [RequestsProps]: each is freed exactly once.
      [Sockets]: the loop with file descriptors, stop
      requests and the set up of the listening socket, and the connection of the
      client; [SocketsProps]: no descriptor leaks or is closed twice, and the
      loop refines [EventLoop].
    - [Boot]: the program of [main.c] from its options to its exit status.
    - [Cli]: the client of [tools/cli.c]; [CliProps]: its word splitter against
      the grammar, and exchanges with the server.  [EndToEnd]: client, network
      and server together.
    - [Bench]: the benchmark of [bench/bench.c]; [BenchProps]: its runs of the
      store and of the network, and that it finds the port of the server;
      [BenchProc]: the connection, the calls on the server process and the whole
      program; what the operating system and the server do is an input.

    ** Findings

    The model shows undefined behaviour in a few places, stated next to the
    other theorems: an overflow in the number headers of requests
    ([RespProps.header_overflow]) and in the text of the least integer, which the
    reply writer does write ([RespProps.resp_parse_reply_roundtrip]), a null bulk string accepted in a request
    ([RespProps.null_bulk_accepted]) and dereferenced by the dispatcher
    ([CommandsProps.null_bulk_crash]), and an overflow of the expiry time of SET
    with PX ([CmdProps.cmd_set_px_overflow]), and conversions of a double out of
    range in BLPOP and the geo commands ([HandlerProps.blpop_timeout_cast],
    [HandlerProps.geo_score_cast]).  The benchmark uses an uninitialised pointer
    when it is asked for no operations ([BenchProps.bench_store_outcome]), and
    neither ends nor waits for the server it started where it cannot find its
    port, connect or finish a run ([BenchProc.bench_network_leaves]).  TTL rounds to the
    nearest second and not up ([CmdProps.ttl_rounds_to_nearest]).

    ** Not modelled

    - The memory of the byte buffers and of the client structures: these are
      values.
    - The operating system: which calls succeed and what they deliver is an
      input.  The messages of [perror] are left out.
    - [die_oom]: a process that runs out of memory is gone. *)

From stdpp Require Export base gmap list strings numbers sorting.
From Stdlib Require Export ZArith Ascii Lia.
From Stdlib Require String.

(** ** Bytes and byte strings *)

(** A byte of a C buffer is an [ascii]; a buffer or the characters of a C
    string before its NUL are a list of them. *)
Abbreviation bytes := (list ascii).

Declare Scope pulse_scope.
Delimit Scope pulse_scope with pulse.
Global Open Scope pulse_scope.

(** [#"GET"] is the byte string of a C string literal. *)
Definition lit (s : String.string) : bytes := String.list_ascii_of_string s.
Notation "# s" := (lit s%string) (at level 8, format "# s") : pulse_scope.

Definition NUL : ascii := "000"%char.
Definition CR : ascii := "013"%char.
Definition LF : ascii := "010"%char.
Definition TAB : ascii := "009"%char.
Definition SP : ascii := " "%char.
Definition CRLF : bytes := [CR; LF].

(** The value of a byte read as an [unsigned char], and back. *)
Definition code (c : ascii) : Z := Z.of_N (N_of_ascii c).
Definition chr (z : Z) : ascii := ascii_of_N (Z.to_N z).

Lemma code_range c : (0 ≤ code c < 256)%Z.
Proof. unfold code. pose proof (N_ascii_bounded c). lia. Qed.

Lemma chr_code c : chr (code c) = c.
Proof. unfold chr, code. by rewrite N2Z.id, ascii_N_embedding. Qed.

Lemma code_chr z : (0 ≤ z < 256)%Z → code (chr z) = z.
Proof.
  intros. unfold chr, code. rewrite N_ascii_embedding by lia. by rewrite Z2N.id by lia.
Qed.

Lemma code_inj c d : code c = code d → c = d.
Proof. intros H. by rewrite <- (chr_code c), H, chr_code. Qed.

(** ** Undefined behaviour as a value

    Where the C code could read outside an object, dereference NULL, overflow
    a signed integer, convert an out-of-range double, read a variable that was
    never set or use memory that is not allocated, the model returns the kind of undefined behaviour instead of a value, so that its absence is a
    theorem and its presence a finding. *)
Inductive ub :=
| UB_out_of_bounds
| UB_null_deref
| UB_signed_overflow
| UB_float_cast
| UB_uninitialised
| UB_dangling.

Inductive res (A : Type) :=
| Ret (a : A)
| Undef (u : ub).
Arguments Ret {A} _.
Arguments Undef {A} _.

Global Instance ub_eq_dec : EqDecision ub.
Proof. solve_decision. Defined.
Global Instance res_ret : MRet res := @Ret.
Global Instance res_bind : MBind res := λ A B f m,
  match m with Ret a => f a | Undef u => Undef u end.

Lemma res_bind_ret {A B} (a : A) (f : A → res B) : (Ret a ≫= f) = f a.
Proof. done. Qed.

Lemma res_bind_inv {A B} (m : res A) (f : A → res B) b :
  (m ≫= f) = Ret b → ∃ a, m = Ret a ∧ f a = Ret b.
Proof. destruct m; simpl; [eauto | discriminate]. Qed.

(** A defined outcome. *)
Definition defined {A} (m : res A) : Prop := ∃ a, m = Ret a.

(** ** Machine integers

    Integers are [Z]; unsigned arithmetic wraps and signed arithmetic that
    leaves the type is undefined. *)
Section widths.
Local Open Scope Z_scope.

Definition INT64_MAX : Z := 9223372036854775807.
Definition INT64_MIN : Z := -9223372036854775808.
Definition UINT64_MAX : Z := 18446744073709551615.

Definition u32 (z : Z) : Z := z mod 4294967296.
Definition u64 (z : Z) : Z := z mod 18446744073709551616.

Definition in_i64 (z : Z) : bool := (INT64_MIN <=? z) && (z <=? INT64_MAX).
Definition in_u64 (z : Z) : bool := (0 <=? z) && (z <=? UINT64_MAX).

(** Signed 64-bit arithmetic: the exact result, or undefined behaviour. *)
Definition i64 (z : Z) : res Z :=
  if in_i64 z then Ret z else Undef UB_signed_overflow.

Lemma u64_range z : 0 ≤ u64 z < 2 ^ 64.
Proof. unfold u64. apply Z.mod_pos_bound. lia. Qed.

Lemma u32_range z : 0 ≤ u32 z < 2 ^ 32.
Proof. unfold u32. apply Z.mod_pos_bound. lia. Qed.

Lemma in_i64_spec z : in_i64 z = true ↔ INT64_MIN ≤ z ≤ INT64_MAX.
Proof. unfold in_i64. lia. Qed.

Lemma in_u64_spec z : in_u64 z = true ↔ 0 ≤ z ≤ UINT64_MAX.
Proof. unfold in_u64. lia. Qed.

Lemma i64_ok z : INT64_MIN ≤ z ≤ INT64_MAX → i64 z = Ret z.
Proof. intros H. unfold i64. by rewrite (proj2 (in_i64_spec z) H). Qed.
End widths.

(** ** Automation *)

Create HintDb pulse discriminated.
Create Rewrite HintDb pulse.
#[export] Hint Resolve code_range u64_range u32_range : pulse.
#[export] Hint Rewrite @res_bind_ret chr_code : pulse.

(** Case analysis on the scrutinee of a [match] or [if] of the goal or of a
    hypothesis, keeping the equation. *)
Ltac split_match :=
  match goal with
  | |- context [match ?x with _ => _ end] => destruct x eqn:?
  | H : context [match ?x with _ => _ end] |- _ => destruct x eqn:?
  end.

(** Turn the boolean tests of the code into propositions. *)
Ltac bools :=
  repeat match goal with
  | H : (_ && _) = true |- _ => apply andb_true_iff in H as [? ?]
  | H : (_ || _) = false |- _ => apply orb_false_iff in H as [? ?]
  | H : negb _ = true |- _ => apply negb_true_iff in H
  | H : negb _ = false |- _ => apply negb_false_iff in H
  | H : Z.eqb _ _ = true |- _ => apply Z.eqb_eq in H
  | H : Z.eqb _ _ = false |- _ => apply Z.eqb_neq in H
  | H : Z.ltb _ _ = true |- _ => apply Z.ltb_lt in H
  | H : Z.ltb _ _ = false |- _ => apply Z.ltb_ge in H
  | H : Z.leb _ _ = true |- _ => apply Z.leb_le in H
  | H : Z.leb _ _ = false |- _ => apply Z.leb_gt in H
  | H : Nat.eqb _ _ = true |- _ => apply Nat.eqb_eq in H
  | H : Nat.eqb _ _ = false |- _ => apply Nat.eqb_neq in H
  | H : Nat.ltb _ _ = true |- _ => apply Nat.ltb_lt in H
  | H : Nat.ltb _ _ = false |- _ => apply Nat.ltb_ge in H
  | H : Nat.leb _ _ = true |- _ => apply Nat.leb_le in H
  | H : Nat.leb _ _ = false |- _ => apply Nat.leb_gt in H
  end.

(** ** Lists *)

Lemma insert_middle {A} (l : list A) i x y :
  l !! i = Some x →
  ∃ l1 l2, l = l1 ++ x :: l2 ∧ length l1 = i ∧ <[i := y]> l = l1 ++ y :: l2.
Proof.
  intros Hi. exists (take i l), (drop (S i) l).
  assert (length (take i l) = i) as Hl
    by (rewrite length_take; apply lookup_lt_Some in Hi; lia).
  split_and!; [by rewrite take_drop_middle | done |].
  rewrite <- (take_drop_middle l i x Hi) at 1.
  rewrite insert_app_r_alt by lia.
  by replace (i - length (take i l)) with 0 by lia.
Qed.

Lemma concat_insert {A} (l : list (list A)) i c :
  i < length l →
  ∃ rest, concat l ≡ₚ (l !!! i) ++ rest ∧ concat (<[i := c]> l) ≡ₚ c ++ rest.
Proof.
  intros Hi. destruct (lookup_lt_is_Some_2 l i Hi) as [x Hx].
  destruct (insert_middle l i x c Hx) as (l1 & l2 & Hl & _ & Hins).
  exists (concat l1 ++ concat l2). rewrite (list_lookup_total_correct _ _ _ Hx).
  rewrite Hins, Hl, !concat_app. simpl. split; solve_Permutation.
Qed.

Lemma elem_of_concat {A} (x : A) (l : list (list A)) :
  x ∈ concat l ↔ ∃ c, x ∈ c ∧ c ∈ l.
Proof.
  rewrite list_elem_of_In, in_concat. split; intros (c & H1 & H2); exists c;
    rewrite !list_elem_of_In in *; done.
Qed.

Lemma filter_all {A} (P : A → Prop) `{∀ x, Decision (P x)} (l : list A) :
  (∀ x, x ∈ l → P x) → filter P l = l.
Proof.
  induction l as [|x l IH]; intros HP; [done|]. rewrite filter_cons, decide_True by (apply HP; by left).
  f_equal. apply IH. intros y Hy. apply HP. by right.
Qed.

Lemma filter_none {A} (P : A → Prop) `{∀ x, Decision (P x)} (l : list A) :
  (∀ x, x ∈ l → ¬ P x) → filter P l = [].
Proof.
  induction l as [|x l IH]; intros HP; [done|]. rewrite filter_cons, decide_False by (apply HP; by left).
  apply IH. intros y Hy. apply HP. by right.
Qed.

Lemma NoDup_fmap_filter {A B} (f : A → B) (P : A → Prop) `{∀ x, Decision (P x)} (l : list A) :
  NoDup (f <$> l) → NoDup (f <$> filter P l).
Proof.
  induction l as [|x l IH]; [done|]. intros [Hx Hl]%NoDup_cons. rewrite filter_cons.
  destruct (decide (P x)); [|by apply IH]. apply NoDup_cons. split; [|by apply IH].
  intros (y & Hy & [_ Hin]%list_elem_of_filter)%list_elem_of_fmap. apply Hx. rewrite Hy. by apply list_elem_of_fmap_2.
Qed.
