(* ===== verification/CLib.v ===== *)
(** * The C standard library functions the sources use

    C strings are the bytes before their terminating NUL.  [strcmp],
    [strcasecmp], [strtoll] (base 10) and the [%lld]/[%zu]/[PRIu64] conversions
    of [snprintf] are modelled here from their specification in the C standard
    (C locale); the decimal lemmas are shared by every parser and printer of
    the development. *)

From S2P Require Import Prelude.
Local Open Scope Z_scope.

(** ** Character classes (C locale) *)

Definition is_digit (c : ascii) : bool := (48 <=? code c) && (code c <=? 57).

Definition is_space (c : ascii) : bool :=
  (code c =? 32) || ((9 <=? code c) && (code c <=? 13)).

Definition tolower (c : ascii) : ascii :=
  if (65 <=? code c) && (code c <=? 90) then chr (code c + 32) else c.

(** ** String comparison *)

(** [strcmp] compares as [unsigned char]; only the sign of its result is
    specified, so the model returns the sign. *)
Fixpoint strcmp (a b : bytes) : Z :=
  match a, b with
  | [], [] => 0
  | [], _ :: _ => -1
  | _ :: _, [] => 1
  | x :: a', y :: b' =>
      if code x <? code y then -1 else if code y <? code x then 1 else strcmp a' b'
  end.

Definition strcasecmp (a b : bytes) : Z := strcmp (tolower <$> a) (tolower <$> b).

(** Test for [strcmp(a, b) == 0]. *)
Definition streq (a b : bytes) : bool := strcmp a b =? 0.

Lemma strcmp_refl a : strcmp a a = 0.
Proof. induction a as [|x a IH]; simpl; [done|]. by rewrite Z.ltb_irrefl. Qed.

Lemma strcmp_eq a b : strcmp a b = 0 ↔ a = b.
Proof.
  split; [|intros ->; apply strcmp_refl].
  revert b; induction a as [|x a IH]; intros [|y b]; simpl; try done.
  repeat case_match; bools; try done. intros ?%IH. subst. f_equal.
  apply code_inj. lia.
Qed.

Lemma streq_true a b : streq a b = true ↔ a = b.
Proof. unfold streq. rewrite Z.eqb_eq. apply strcmp_eq. Qed.

Lemma streq_refl a : streq a a = true.
Proof. by apply streq_true. Qed.

Lemma streq_decide a b : streq a b = bool_decide (a = b).
Proof. apply eq_bool_prop_intro. rewrite !Is_true_true, bool_decide_eq_true. apply streq_true. Qed.

Lemma strcmp_antisym a b : strcmp b a = - strcmp a b.
Proof.
  revert b; induction a as [|x a IH]; intros [|y b]; simpl; try done.
  repeat case_match; bools; try lia. apply IH.
Qed.

Lemma strcmp_lt_trans a b c : strcmp a b < 0 → strcmp b c < 0 → strcmp a c < 0.
Proof.
  revert b c; induction a as [|x a IH]; intros [|y b] [|z c]; simpl; try lia.
  repeat case_match; bools; try lia. apply IH.
Qed.

(** ** Decimal numbers *)

Definition digit_val (c : ascii) : Z := code c - 48.
Definition digit_chr (d : Z) : ascii := chr (48 + d).

(** The value of a run of decimal digits, continuing from [acc]. *)
Fixpoint dec_acc (acc : Z) (s : bytes) : Z :=
  match s with
  | [] => acc
  | c :: s' => dec_acc (acc * 10 + digit_val c) s'
  end.

(** Decimal digits of [n >= 0], most significant first, as [snprintf] prints
    them.  [dec_go] peels the last digit; [log2 n + 1] rounds are enough because
    every round divides by ten. *)
Fixpoint dec_go (fuel : nat) (n : Z) : bytes :=
  match fuel with
  | O => []
  | S f => (if n <? 10 then [] else dec_go f (n / 10)) ++ [digit_chr (n mod 10)]
  end.

Definition dec_of (n : Z) : bytes := dec_go (S (Z.to_nat (Z.log2 n))) n.

(** [snprintf(buf, n, "%lld", z)] with a large enough buffer. *)
Definition fmt_d (z : Z) : bytes :=
  if z <? 0 then "-"%char :: dec_of (- z) else dec_of z.

Lemma digit_val_chr d : 0 ≤ d < 10 → digit_val (digit_chr d) = d.
Proof. intros. unfold digit_val, digit_chr. rewrite code_chr by lia. lia. Qed.

Lemma is_digit_chr d : 0 ≤ d < 10 → is_digit (digit_chr d) = true.
Proof. intros. unfold is_digit, digit_chr. rewrite code_chr by lia. lia. Qed.

Lemma is_digit_val c : is_digit c = true → 0 ≤ digit_val c < 10.
Proof. unfold is_digit, digit_val. lia. Qed.

Lemma dec_acc_app a s t : dec_acc a (s ++ t) = dec_acc (dec_acc a s) t.
Proof. revert a; induction s; intros; simpl; auto. Qed.

Lemma dec_acc_mono a s :
  0 ≤ a → Forall (λ c, is_digit c = true) s → a ≤ dec_acc a s.
Proof.
  intros Ha Hs; revert a Ha.
  induction Hs as [|c s Hc Hs IH]; intros a Ha; simpl; [lia|].
  apply is_digit_val in Hc. specialize (IH (a * 10 + digit_val c)). lia.
Qed.

Lemma dec_acc_bound a s :
  0 ≤ a → Forall (λ c, is_digit c = true) s →
  dec_acc a s < (a + 1) * 10 ^ Z.of_nat (length s).
Proof.
  intros Ha Hs; revert a Ha.
  induction Hs as [|c s Hc Hs IH]; intros a Ha; simpl; [lia|].
  apply is_digit_val in Hc. specialize (IH (a * 10 + digit_val c)).
  rewrite Nat2Z.inj_succ, Z.pow_succ_r by lia. nia.
Qed.

Lemma dec_go_digits f n :
  0 ≤ n → Forall (λ c, is_digit c = true) (dec_go f n).
Proof.
  revert n; induction f as [|f IH]; intros n Hn; simpl; [constructor|].
  apply Forall_app; split.
  - case_match; [constructor|]. apply IH. apply Z.div_pos; lia.
  - constructor; [|constructor]. apply is_digit_chr. apply Z.mod_pos_bound. lia.
Qed.

Lemma dec_go_value f n :
  0 ≤ n < 10 ^ Z.of_nat f → dec_acc 0 (dec_go f n) = n.
Proof.
  revert n; induction f as [|f IH]; intros n Hn.
  - change (10 ^ Z.of_nat 0) with 1 in Hn. simpl. lia.
  - simpl. rewrite dec_acc_app. rewrite Nat2Z.inj_succ, Z.pow_succ_r in Hn by lia.
    pose proof (Z.mod_pos_bound n 10 ltac:(lia)).
    pose proof (Z.div_mod n 10 ltac:(lia)).
    case_match; bools; simpl; rewrite digit_val_chr by lia.
    + rewrite Z.mod_small by lia. lia.
    + rewrite IH; [lia|]. split; [apply Z.div_pos; lia|].
      apply Z.div_lt_upper_bound; lia.
Qed.

Lemma dec_go_length f n k :
  0 ≤ n < 10 ^ Z.of_nat k → (1 ≤ k)%nat → (length (dec_go f n) ≤ k)%nat.
Proof.
  revert n k; induction f as [|f IH]; intros n k Hn Hk; simpl; [lia|].
  rewrite length_app; simpl. case_match; bools; simpl; [lia|].
  destruct k as [|[|k]]; [lia| change (10 ^ Z.of_nat 1) with 10 in Hn; lia |].
  rewrite Nat2Z.inj_succ, Z.pow_succ_r in Hn by lia.
  enough (length (dec_go f (n / 10)) ≤ S k)%nat by lia.
  apply IH; [|lia]. split; [apply Z.div_pos; lia|]. apply Z.div_lt_upper_bound; lia.
Qed.

Lemma log2_lt_pow10 n : 0 ≤ n → n < 10 ^ Z.of_nat (S (Z.to_nat (Z.log2 n))).
Proof.
  intros Hn. rewrite Nat2Z.inj_succ, Z2Nat.id by apply Z.log2_nonneg.
  destruct (decide (n = 0)) as [->|]; [done|].
  apply Z.lt_le_trans with (2 ^ Z.succ (Z.log2 n)).
  - apply Z.log2_spec. lia.
  - apply Z.pow_le_mono_l. pose proof (Z.log2_nonneg n). lia.
Qed.

Lemma dec_of_digits n : 0 ≤ n → Forall (λ c, is_digit c = true) (dec_of n).
Proof. apply dec_go_digits. Qed.

Lemma dec_of_value n : 0 ≤ n → dec_acc 0 (dec_of n) = n.
Proof. intros. apply dec_go_value. split; [done | by apply log2_lt_pow10]. Qed.

Lemma dec_of_length n k :
  0 ≤ n < 10 ^ Z.of_nat k → (1 ≤ k)%nat → (length (dec_of n) ≤ k)%nat.
Proof. apply dec_go_length. Qed.

Lemma dec_of_length_pos n : (1 ≤ length (dec_of n))%nat.
Proof. unfold dec_of. simpl. rewrite length_app. simpl. lia. Qed.

(** ** [strtoll] in base 10 *)

Fixpoint take_digits (s : bytes) : bytes :=
  match s with c :: s' => if is_digit c then c :: take_digits s' else [] | [] => [] end.

Fixpoint drop_digits (s : bytes) : bytes :=
  match s with c :: s' => if is_digit c then drop_digits s' else s | [] => [] end.

Fixpoint skip_space (s : bytes) : bytes :=
  match s with c :: s' => if is_space c then skip_space s' else s | [] => [] end.

(** An optional sign: whether it is a minus, and the rest. *)
Definition take_sign (s : bytes) : bool * bytes :=
  match s with
  | c :: s' => if code c =? 45 then (true, s') else if code c =? 43 then (false, s') else (false, s)
  | [] => (false, [])
  end.

(** [strtoll(s, &end, 10)]: the value, what is left at [end], and whether
    [errno] was set to [ERANGE].  With no digits nothing is consumed. *)
Definition strtoll (s : bytes) : Z * bytes * bool :=
  let '(neg, s1) := take_sign (skip_space s) in
  match take_digits s1 with
  | [] => (0, s, false)
  | ds =>
      let v := dec_acc 0 ds in
      let v := if neg : bool then - v else v in
      if v <? INT64_MIN then (INT64_MIN, drop_digits s1, true)
      else if INT64_MAX <? v then (INT64_MAX, drop_digits s1, true)
      else (v, drop_digits s1, false)
  end.

Lemma take_digits_all s : Forall (λ c, is_digit c = true) s → take_digits s = s.
Proof. induction 1 as [|c s Hc _ IH]; simpl; [done|]. by rewrite Hc, IH. Qed.

Lemma drop_digits_all s : Forall (λ c, is_digit c = true) s → drop_digits s = [].
Proof. induction 1 as [|c s Hc _ IH]; simpl; [done|]. by rewrite Hc. Qed.

Lemma take_digits_Forall s : Forall (λ c, is_digit c = true) (take_digits s).
Proof. induction s as [|c s IH]; simpl; [constructor|]. case_match; constructor; auto. Qed.

Lemma take_drop_digits s : take_digits s ++ drop_digits s = s.
Proof. induction s as [|c s IH]; simpl; [done|]. case_match; simpl; congruence. Qed.

Lemma digit_not_space c : is_digit c = true → is_space c = false.
Proof. unfold is_digit, is_space. lia. Qed.

Lemma digit_not_sign c : is_digit c = true → (code c =? 45) = false ∧ (code c =? 43) = false.
Proof. unfold is_digit. lia. Qed.

(** A digit string with no sign or leading space, as [fmt_d] prints a
    non-negative number. *)
Lemma digits_no_prefix ds :
  Forall (λ c, is_digit c = true) ds → ds ≠ [] →
  skip_space ds = ds ∧ take_sign ds = (false, ds).
Proof.
  intros Hds Hne. destruct Hds as [|c ds Hc Hds]; [done|].
  simpl. rewrite (digit_not_space c Hc). destruct (digit_not_sign c Hc) as [-> ->]. done.
Qed.

(** [strtoll] reads back what [%lld] printed. *)
Lemma strtoll_fmt_d z : INT64_MIN ≤ z ≤ INT64_MAX → strtoll (fmt_d z) = (z, [], false).
Proof.
  intros Hz. unfold strtoll, fmt_d.
  assert (∀ n, 0 ≤ n → dec_of n ≠ []) as Hne
    by (intros n _ H; pose proof (dec_of_length_pos n); rewrite H in *; simpl in *; lia).
  destruct (Z.ltb_spec z 0).
  - change (skip_space ("-"%char :: dec_of (- z))) with ("-"%char :: dec_of (- z)).
    cbn [take_sign]. change (code "-"%char =? 45) with true. cbv iota beta.
    rewrite take_digits_all, drop_digits_all by (apply dec_of_digits; lia).
    destruct (dec_of (- z)) eqn:E; [by destruct (Hne (- z)); [lia|]|].
    rewrite <- E, dec_of_value by lia. rewrite Z.opp_involutive.
    repeat case_match; bools; try lia; done.
  - destruct (digits_no_prefix (dec_of z)) as [-> ->]; [apply dec_of_digits; lia | by apply Hne |].
    rewrite take_digits_all, drop_digits_all by (apply dec_of_digits; lia).
    destruct (dec_of z) eqn:E; [by destruct (Hne z); [lia|]|].
    rewrite <- E, dec_of_value by lia.
    repeat case_match; bools; try lia; done.
Qed.

#[export] Hint Resolve dec_of_digits : pulse.
#[export] Hint Rewrite streq_refl strcmp_refl : pulse.

(** The C string at the start of a byte array: what precedes the first NUL. *)
Fixpoint cstr (s : bytes) : bytes :=
  match s with
  | [] => []
  | c :: s' => if bool_decide (c = NUL) then [] else c :: cstr s'
  end.

Lemma cstr_length_le s : (length (cstr s) ≤ length s)%nat.
Proof. induction s as [|c s IH]; simpl; [lia|]. case_bool_decide; simpl; lia. Qed.

Lemma cstr_length s : (length (cstr s) = length s ↔ NUL ∉ s)%nat.
Proof.
  induction s as [|c s IH]; simpl; [split; [intros _ H; inversion H|done]|].
  rewrite not_elem_of_cons. case_bool_decide as Hc; simpl.
  - split; [lia|]. intros [Hn _]. by destruct Hn.
  - pose proof (cstr_length_le s). rewrite Nat.succ_inj_wd, IH. naive_solver.
Qed.

Lemma cstr_no_nul s : NUL ∉ s → cstr s = s.
Proof.
  induction s as [|c s IH]; simpl; [done|]. rewrite not_elem_of_cons. intros [Hc Hs].
  rewrite bool_decide_eq_false_2 by congruence. by rewrite IH.
Qed.
