(* ===== verification/Util.v ===== *)
(** * util.c: strict number parsing, clocks and the growable byte buffer

    [parse_int64], the clocks and the [Buffer] operations of [src/util.c].  The allocation
    wrappers ([xmalloc] and friends) abort the process when memory runs out,
    so a model without allocation failure is exact for every run that goes on. *)

From S2P Require Import Prelude CLib.

Module Util.

(** [parse_int64]: the value, or [None] where the C function returns -1. *)
Definition parse_int64 (s : bytes) : option Z :=
  match s with
  | [] => None
  | _ =>
      let '(v, rest, erange) := strtoll s in
      if erange then None
      else match rest with [] => Some v | _ :: _ => None end
  end.

(** *** Clocks *)

(** [struct timespec], as [clock_gettime] stores it. *)
Record timespec := mkTimespec { tv_sec : Z; tv_nsec : Z }.

(** [now_ms] and [mono_ms], from what the clock reads. *)
Definition ms_of (ts : timespec) : res Z := sec ← i64 (tv_sec ts * 1000); i64 (sec + Z.quot (tv_nsec ts) 1000000).
Definition now_ms (realtime : timespec) : res Z := ms_of realtime.
Definition mono_ms (monotonic : timespec) : res Z := ms_of monotonic.

(** [Buffer]: the bytes [data[0..len)] and the capacity of the allocation. *)
Record Buffer := mkBuffer { data : bytes; cap : nat }.

Definition blen (b : Buffer) : nat := length (data b).

Definition buffer_init : Buffer := {| data := []; cap := 0 |}.

Definition buffer_free (b : Buffer) : Buffer := buffer_init.

(** [while (cap < need) cap *= 2;] *)
Fixpoint double_until (fuel cap need : nat) : nat :=
  match fuel with
  | O => cap
  | S f => if cap <? need then double_until f (cap * 2) need else cap
  end.

(** The fuel is [need]: [cap] starts positive and at least grows by one each
    time round, see [double_until_enough]. *)
Definition buffer_append (b : Buffer) (src : bytes) : Buffer :=
  let need := blen b + length src in
  let cap' :=
    if cap b <? need
    then double_until need (if cap b =? 0 then 256 else cap b) need
    else cap b in
  {| data := data b ++ src; cap := cap' |}.

Definition buffer_append_str (b : Buffer) (s : bytes) : Buffer := buffer_append b s.

Definition buffer_consume (b : Buffer) (n : nat) : Buffer :=
  if blen b <=? n then {| data := []; cap := cap b |}
  else {| data := drop n (data b); cap := cap b |}.

(** The bytes in use always fit the allocation, and a non-empty allocation is
    256 bytes doubled some number of times. *)
Definition buffer_wf (b : Buffer) : Prop :=
  blen b ≤ cap b ∧ (cap b = 0 ∨ ∃ k, cap b = 256 * 2 ^ k).

(** ** Lemmas *)

Lemma double_until_enough fuel c need :
  0 < c → need ≤ c + fuel → need ≤ double_until fuel c need.
Proof.
  revert c; induction fuel as [|f IH]; intros c Hc Hn; cbn [double_until]; [lia|].
  destruct (Nat.ltb_spec c need); [apply IH; lia | lia].
Qed.

Lemma double_until_pow2 fuel c need k :
  c = 256 * 2 ^ k → ∃ k', double_until fuel c need = 256 * 2 ^ k'.
Proof.
  revert c k; induction fuel as [|f IH]; intros c k Hc; cbn [double_until]; [eauto|].
  case_match; [|eauto]. apply (IH _ (S k)). rewrite Nat.pow_succ_r'. lia.
Qed.

Lemma buffer_append_data b src : data (buffer_append b src) = data b ++ src.
Proof. done. Qed.

Lemma buffer_append_wf b src : buffer_wf b → buffer_wf (buffer_append b src).
Proof.
  intros [Hl Hc]. unfold buffer_wf, buffer_append, blen in *; simpl.
  rewrite length_app. destruct (Nat.ltb_spec (cap b) (length (data b) + length src)); [|by split; [lia|]].
  assert (∃ k, (if cap b =? 0 then 256 else cap b) = 256 * 2 ^ k) as [k Hk].
  { destruct (Nat.eqb_spec (cap b) 0); [by exists 0|].
    destruct Hc as [|[k Hk]]; [done | by exists k]. }
  assert (0 < 2 ^ k) by (clear; induction k; simpl; lia).
  split.
  - apply double_until_enough; lia.
  - right. by eapply double_until_pow2.
Qed.

Lemma buffer_consume_data b n : data (buffer_consume b n) = drop n (data b).
Proof.
  unfold buffer_consume, blen. destruct (Nat.leb_spec (length (data b)) n); [|done].
  by rewrite drop_ge.
Qed.

Lemma buffer_consume_wf b n : buffer_wf b → buffer_wf (buffer_consume b n).
Proof.
  intros [Hl Hc]. unfold buffer_wf, buffer_consume, blen in *.
  case_match; simpl; [split; [lia|done]|]. rewrite length_drop. split; [lia|done].
Qed.

Lemma buffer_init_wf : buffer_wf buffer_init.
Proof. split; [done | by left]. Qed.

Lemma parse_int64_range s v : parse_int64 s = Some v → (INT64_MIN ≤ v ≤ INT64_MAX)%Z.
Proof.
  unfold parse_int64, strtoll. intros H.
  repeat case_match; simplify_eq; bools; unfold INT64_MIN, INT64_MAX in *; lia.
Qed.

Lemma parse_int64_fmt_d z : (INT64_MIN ≤ z ≤ INT64_MAX)%Z → parse_int64 (fmt_d z) = Some z.
Proof.
  intros Hz. unfold parse_int64. rewrite strtoll_fmt_d by done.
  destruct (fmt_d z) eqn:E; [|done]. exfalso. revert E. unfold fmt_d.
  case_match; [done|]. intros E. pose proof (dec_of_length_pos z).
  rewrite E in *. simpl in *. lia.
Qed.

(** A reading of the clock is exact to the millisecond until the seconds exceed
    292 million years, and readings are ordered like the times. *)
Definition valid_time (ts : timespec) : Prop :=
  (0 ≤ tv_nsec ts < 1000000000 ∧ -9223372036854775 ≤ tv_sec ts < 9223372036854775)%Z.

Lemma ms_of_exact ts : valid_time ts → ∃ ms, ms_of ts = Ret ms ∧
  (ms * 1000000 ≤ tv_sec ts * 1000000000 + tv_nsec ts < (ms + 1) * 1000000)%Z.
Proof.
  intros [Hn Hs]. unfold ms_of, i64. rewrite (proj2 (in_i64_spec _)) by (unfold INT64_MIN, INT64_MAX; lia). cbn.
  rewrite Z.quot_div_nonneg by lia. pose proof (Z.div_mod (tv_nsec ts) 1000000 ltac:(done)).
  pose proof (Z.mod_pos_bound (tv_nsec ts) 1000000 ltac:(done)).
  rewrite (proj2 (in_i64_spec _)) by (unfold INT64_MIN, INT64_MAX; lia). eexists. split; [done|]. lia.
Qed.

Lemma ms_of_mono ts ts' ms ms' : valid_time ts → valid_time ts' →
  (tv_sec ts * 1000000000 + tv_nsec ts ≤ tv_sec ts' * 1000000000 + tv_nsec ts')%Z →
  ms_of ts = Ret ms → ms_of ts' = Ret ms' → (ms ≤ ms')%Z.
Proof.
  intros (m & -> & Hm)%ms_of_exact (m' & -> & Hm')%ms_of_exact Hle [= <-] [= <-]. lia.
Qed.

#[export] Hint Resolve buffer_append_wf buffer_consume_wf buffer_init_wf : pulse.
#[export] Hint Rewrite buffer_append_data buffer_consume_data : pulse.

End Util.
