(* ===== verification/Reply.v ===== *)
(** * reply.c: RESP reply encoders

    Every encoder of [src/reply.c] that does not print a double appends to an
    output [Buffer]; [reply_errorf] formats into a 512-byte array first, which
    truncates.  [reply_double] is in the file on doubles. *)

From S2P Require Import Prelude CLib Util.
Import Util.

Module Reply.

Definition reply_simple (out : Buffer) (msg : bytes) : Buffer :=
  let out := buffer_append out #"+" in
  let out := buffer_append_str out msg in
  buffer_append out CRLF.

(** CR and LF become a space, since error lines cannot contain them. *)
Definition error_char (c : ascii) : ascii :=
  if bool_decide (c = CR) || bool_decide (c = LF) then SP else c.

(** The loop of [reply_error], one byte at a time. *)
Fixpoint reply_error_loop (out : Buffer) (msg : bytes) : Buffer :=
  match msg with
  | [] => out
  | c :: msg' => reply_error_loop (buffer_append out [error_char c]) msg'
  end.

Definition reply_error (out : Buffer) (msg : bytes) : Buffer :=
  let out := buffer_append out #"-" in
  let out := reply_error_loop out msg in
  buffer_append out CRLF.

(** [vsnprintf(buf, 512, ...)] keeps at most 511 bytes of the formatted text. *)
Definition reply_errorf (out : Buffer) (formatted : bytes) : Buffer :=
  reply_error out (take 511 formatted).

Definition reply_integer (out : Buffer) (val : Z) : Buffer :=
  buffer_append out (#":" ++ fmt_d val ++ CRLF).

Definition reply_bulk (out : Buffer) (d : bytes) (len : nat) : Buffer :=
  let out := buffer_append out (#"$" ++ dec_of (Z.of_nat len) ++ CRLF) in
  let out := buffer_append out (take len d) in
  buffer_append out CRLF.

Definition reply_bulk_cstr (out : Buffer) (s : bytes) : Buffer :=
  reply_bulk out s (length s).

Definition reply_null (out : Buffer) : Buffer := buffer_append out (#"$-1" ++ CRLF).

Definition reply_null_array (out : Buffer) : Buffer := buffer_append out (#"*-1" ++ CRLF).

Definition reply_array (out : Buffer) (count : nat) : Buffer :=
  buffer_append out (#"*" ++ dec_of (Z.of_nat count) ++ CRLF).

(** ** What the encoders append *)

(** The RESP text of each kind of reply. *)
Definition enc_simple (msg : bytes) : bytes := #"+" ++ msg ++ CRLF.
Definition enc_error (msg : bytes) : bytes := #"-" ++ (error_char <$> msg) ++ CRLF.
Definition enc_integer (z : Z) : bytes := #":" ++ fmt_d z ++ CRLF.
Definition enc_bulk (s : bytes) : bytes :=
  #"$" ++ dec_of (Z.of_nat (length s)) ++ CRLF ++ s ++ CRLF.
Definition enc_null : bytes := #"$-1" ++ CRLF.
Definition enc_null_array : bytes := #"*-1" ++ CRLF.
Definition enc_array_header (n : nat) : bytes := #"*" ++ dec_of (Z.of_nat n) ++ CRLF.

Lemma reply_simple_data out msg : data (reply_simple out msg) = data out ++ enc_simple msg.
Proof. unfold reply_simple, buffer_append_str, enc_simple. by rewrite !buffer_append_data, <- !app_assoc. Qed.

Lemma reply_error_loop_data out msg :
  data (reply_error_loop out msg) = data out ++ (error_char <$> msg).
Proof.
  revert out; induction msg as [|c msg IH]; intros out; simpl; [by rewrite app_nil_r|].
  rewrite IH, buffer_append_data. by rewrite <- app_assoc.
Qed.

Lemma reply_error_data out msg : data (reply_error out msg) = data out ++ enc_error msg.
Proof.
  unfold reply_error, enc_error.
  by rewrite buffer_append_data, reply_error_loop_data, buffer_append_data, <- !app_assoc.
Qed.

Lemma reply_integer_data out z : data (reply_integer out z) = data out ++ enc_integer z.
Proof. done. Qed.

Lemma reply_bulk_cstr_data out s : data (reply_bulk_cstr out s) = data out ++ enc_bulk s.
Proof.
  unfold reply_bulk_cstr, reply_bulk, enc_bulk.
  by rewrite !buffer_append_data, take_ge, <- !app_assoc by done.
Qed.

Lemma reply_null_data out : data (reply_null out) = data out ++ enc_null.
Proof. done. Qed.

Lemma reply_null_array_data out : data (reply_null_array out) = data out ++ enc_null_array.
Proof. done. Qed.

Lemma reply_array_data out n : data (reply_array out n) = data out ++ enc_array_header n.
Proof. done. Qed.

#[export] Hint Rewrite reply_simple_data reply_error_data reply_integer_data
  reply_bulk_cstr_data reply_null_data reply_null_array_data reply_array_data : pulse.

(** An error line contains no CR or LF before its terminator, whatever the
    message. *)
Lemma error_char_no_crlf c : error_char c ≠ CR ∧ error_char c ≠ LF.
Proof.
  unfold error_char. case_bool_decide; simpl; [done|]. case_bool_decide; simpl; [done|done].
Qed.

End Reply.
