(* ===== verification/Resp.v ===== *)
(** * resp.c: the RESP parser

    A buffer is a list of bytes and its length; positions are indices.  Each
    function of [src/resp.c] returns a [parsed] value: the parse statuses of
    [resp.h], plus the undefined behaviour the C code would have.  Reads are
    checked against the buffer, so a read past the end would show up as
    [RESP_UNDEF UB_out_of_bounds]; number headers use signed 64-bit
    arithmetic, whose overflow shows up as [RESP_UNDEF UB_signed_overflow].
    Growing the element block and freeing values are in [RespMem]: they do not
    change what is returned. *)

From S2P Require Import Prelude CLib.

Module Resp.

(** [RespValue]: the type tag with the fields that tag uses. *)
#[warnings="-register-all"]
Inductive RespValue :=
| RESP_SIMPLE_STRING (str : bytes)
| RESP_ERROR (str : bytes)
| RESP_INTEGER (integer : Z)
| RESP_BULK_STRING (str : bytes)
| RESP_ARRAY (elements : list RespValue)
| RESP_NULL.

(** The [str] pointer of a value: NULL unless the value is a string. *)
Definition value_str (v : RespValue) : option bytes :=
  match v with
  | RESP_SIMPLE_STRING s | RESP_ERROR s | RESP_BULK_STRING s => Some s
  | RESP_INTEGER _ | RESP_ARRAY _ | RESP_NULL => None
  end.

(** [RespParseStatus] with the value an OK result carries. *)
Inductive parsed (A : Type) :=
| RESP_PARSE_OK (a : A)
| RESP_PARSE_INCOMPLETE
| RESP_PARSE_ERROR
| RESP_UNDEF (u : ub).
Arguments RESP_PARSE_OK {A} _.
Arguments RESP_PARSE_INCOMPLETE {A}.
Arguments RESP_PARSE_ERROR {A}.
Arguments RESP_UNDEF {A} _.

(** [if (st != RESP_PARSE_OK) return st;] *)
Global Instance parsed_bind : MBind parsed := λ A B f m,
  match m with
  | RESP_PARSE_OK a => f a
  | RESP_PARSE_INCOMPLETE => RESP_PARSE_INCOMPLETE
  | RESP_PARSE_ERROR => RESP_PARSE_ERROR
  | RESP_UNDEF u => RESP_UNDEF u
  end.

Definition RESP_MAX_BULK_LEN : Z := 64 * 1024 * 1024.
Definition RESP_MAX_ARRAY_LEN : Z := 1024 * 1024.
Definition RESP_MAX_INLINE_LEN : Z := 64 * 1024.
Definition RESP_MAX_DEPTH : nat := 16.

(** The loop of [find_line_end], [k] bytes before the end of the buffer. *)
Fixpoint find_line_loop (k : nat) (buf : bytes) (pos i : nat) (max_line : Z) : parsed nat :=
  match k with
  | O =>
      if (max_line <? Z.of_nat (length buf - pos))%Z then RESP_PARSE_ERROR
      else RESP_PARSE_INCOMPLETE
  | S k' =>
      match buf !! i with
      | None => RESP_UNDEF UB_out_of_bounds
      | Some c =>
          if bool_decide (c = CR) then
            if length buf <=? i + 1 then RESP_PARSE_INCOMPLETE
            else match buf !! (i + 1) with
                 | None => RESP_UNDEF UB_out_of_bounds
                 | Some d => if bool_decide (d = LF) then RESP_PARSE_OK i else RESP_PARSE_ERROR
                 end
          else if (max_line <? Z.of_nat (i - pos))%Z then RESP_PARSE_ERROR
          else find_line_loop k' buf pos (S i) max_line
      end
  end.

Definition find_line_end (buf : bytes) (pos : nat) (max_line : Z) : parsed nat :=
  find_line_loop (length buf - pos) buf pos pos max_line.

(** The digit loop of [parse_number] over [k] bytes from [i]; [Ret None] is
    the -1 return. *)
Fixpoint number_loop (k : nat) (buf : bytes) (i : nat) (v : Z) : res (option Z) :=
  match k with
  | O => Ret (Some v)
  | S k' =>
      match buf !! i with
      | None => Undef UB_out_of_bounds
      | Some c =>
          if is_digit c then
            t ← i64 (v * 10)%Z;
            w ← i64 (t + digit_val c)%Z;
            number_loop k' buf (S i) w
          else Ret None
      end
  end.

Definition parse_number (buf : bytes) (start stop : nat) : res (option Z) :=
  if (stop <=? start) || (20 <? stop - start) then Ret None
  else match buf !! start with
       | None => Undef UB_out_of_bounds
       | Some c =>
           let neg := bool_decide (c = "-"%char) in
           let i := if neg then S start else start in
           if stop <=? i then Ret None
           else
             o ← number_loop (stop - i) buf i 0;
             match o with
             | None => Ret None
             | Some v => if neg then w ← i64 (- v)%Z; Ret (Some w) else Ret (Some v)
             end
       end.

(** A failed [parse_number] is a protocol error. *)
Definition number_or_error (r : res (option Z)) : parsed Z :=
  match r with
  | Ret (Some v) => RESP_PARSE_OK v
  | Ret None => RESP_PARSE_ERROR
  | Undef u => RESP_UNDEF u
  end.

Definition read_number_line (buf : bytes) (pos : nat) : parsed (Z * nat) :=
  cr ← find_line_end buf pos 32;
  num ← number_or_error (parse_number buf pos cr);
  RESP_PARSE_OK (num, cr + 2).

Definition parse_bulk (buf : bytes) (pos : nat) : parsed (RespValue * nat) :=
  '(blen, p) ← read_number_line buf pos;
  if (blen =? -1)%Z then RESP_PARSE_OK (RESP_NULL, p)
  else if (blen <? 0)%Z || (RESP_MAX_BULK_LEN <? blen)%Z then RESP_PARSE_ERROR
  else if (Z.of_nat (length buf - p) <? blen + 2)%Z then RESP_PARSE_INCOMPLETE
  else
    let n := Z.to_nat blen in
    match buf !! (p + n), buf !! (p + n + 1) with
    | Some c, Some d =>
        if bool_decide (c = CR) && bool_decide (d = LF)
        then RESP_PARSE_OK (RESP_BULK_STRING (take n (drop p buf)), p + n + 2)
        else RESP_PARSE_ERROR
    | _, _ => RESP_UNDEF UB_out_of_bounds
    end.

(** The element loop of [parse_array]; [pv] is [parse_value] one level deeper. *)
Fixpoint array_loop (pv : nat → parsed (RespValue * nat)) (count p : nat)
    : parsed (list RespValue * nat) :=
  match count with
  | O => RESP_PARSE_OK ([], p)
  | S n =>
      '(child, p1) ← pv p;
      '(rest, p2) ← array_loop pv n p1;
      RESP_PARSE_OK (child :: rest, p2)
  end.

Definition parse_array (pv : nat → parsed (RespValue * nat)) (buf : bytes) (pos : nat)
    : parsed (RespValue * nat) :=
  '(count, p) ← read_number_line buf pos;
  if (count =? -1)%Z then RESP_PARSE_OK (RESP_NULL, p)
  else if (count <? 0)%Z || (RESP_MAX_ARRAY_LEN <? count)%Z then RESP_PARSE_ERROR
  else
    '(elements, q) ← array_loop pv (Z.to_nat count) p;
    RESP_PARSE_OK (RESP_ARRAY elements, q).

(** [parse_value]; [left] is [RESP_MAX_DEPTH + 1 - depth], so it is zero
    exactly when [depth > RESP_MAX_DEPTH]. *)
Fixpoint parse_value (left : nat) (buf : bytes) (bulk_only : bool) (pos : nat)
    : parsed (RespValue * nat) :=
  match left with
  | O => RESP_PARSE_ERROR
  | S left' =>
      if length buf <=? pos then RESP_PARSE_INCOMPLETE
      else match buf !! pos with
           | None => RESP_UNDEF UB_out_of_bounds
           | Some type =>
               let p := S pos in
               if bulk_only && negb (bool_decide (type = "$"%char)) then RESP_PARSE_ERROR
               else if bool_decide (type = "$"%char) then parse_bulk buf p
               else if bool_decide (type = "*"%char) then
                 parse_array (parse_value left' buf bulk_only) buf p
               else if bool_decide (type = "+"%char) || bool_decide (type = "-"%char) then
                 cr ← find_line_end buf p RESP_MAX_INLINE_LEN;
                 let s := take (cr - p) (drop p buf) in
                 RESP_PARSE_OK
                   (if bool_decide (type = "+"%char) then RESP_SIMPLE_STRING s else RESP_ERROR s,
                    cr + 2)
               else if bool_decide (type = ":"%char) then
                 '(v, next) ← read_number_line buf p;
                 RESP_PARSE_OK (RESP_INTEGER v, next)
               else RESP_PARSE_ERROR
           end
  end.

(** [memchr(buf, '\n', len)] as an index. *)
Fixpoint find_nl (buf : bytes) : option nat :=
  match buf with
  | [] => None
  | c :: buf' => if bool_decide (c = LF) then Some 0 else S <$> find_nl buf'
  end.

Definition is_blank (c : ascii) : bool := bool_decide (c = SP) || bool_decide (c = TAB).

Fixpoint skip_blanks (s : bytes) : bytes :=
  match s with c :: s' => if is_blank c then skip_blanks s' else s | [] => [] end.

Fixpoint take_word (s : bytes) : bytes :=
  match s with c :: s' => if is_blank c then [] else c :: take_word s' | [] => [] end.

Fixpoint drop_word (s : bytes) : bytes :=
  match s with c :: s' => if is_blank c then s else drop_word s' | [] => [] end.

(** The word loop of [parse_inline] on the rest of the line; each round
    consumes a non-empty word, so the length of the line is enough fuel. *)
Fixpoint inline_words (fuel : nat) (s : bytes) : list bytes :=
  match fuel with
  | O => []
  | S f =>
      match skip_blanks s with
      | [] => []
      | s' => take_word s' :: inline_words f (drop_word s')
      end
  end.

(** [if (line_len > 0 && buf[line_len - 1] == '\r') line_len--;] *)
Definition strip_cr (line : bytes) : bytes :=
  match last line with
  | Some c => if bool_decide (c = CR) then take (length line - 1) line else line
  | None => line
  end.

Definition parse_inline (buf : bytes) : parsed (RespValue * nat) :=
  match find_nl buf with
  | None =>
      if (RESP_MAX_INLINE_LEN <? Z.of_nat (length buf))%Z then RESP_PARSE_ERROR
      else RESP_PARSE_INCOMPLETE
  | Some nl =>
      if (RESP_MAX_INLINE_LEN <? Z.of_nat nl)%Z then RESP_PARSE_ERROR
      else
        let line := strip_cr (take nl buf) in
        RESP_PARSE_OK (RESP_ARRAY (RESP_BULK_STRING <$> inline_words (length line) line), nl + 1)
  end.

(** [parse_array(buf, len, 1, 0, 1, v, &next)]: the elements are at depth 1. *)
Definition resp_parse_command (buf : bytes) : parsed (RespValue * nat) :=
  match buf with
  | [] => RESP_PARSE_INCOMPLETE
  | c :: _ =>
      if bool_decide (c ≠ "*"%char) then parse_inline buf
      else
        '(count, p) ← read_number_line buf 1;
        if (count <? 0)%Z then RESP_PARSE_ERROR
        else parse_array (parse_value RESP_MAX_DEPTH buf true) buf 1
  end.

Definition resp_parse_reply (buf : bytes) : parsed (RespValue * nat) :=
  parse_value (S RESP_MAX_DEPTH) buf false 0.

(** ** Tests of the repository, evaluated *)

Example parse_multibulk :
  resp_parse_command (#"*2" ++ CRLF ++ #"$3" ++ CRLF ++ #"GET" ++ CRLF ++ #"$3" ++ CRLF ++ #"key" ++ CRLF)
  = RESP_PARSE_OK (RESP_ARRAY [RESP_BULK_STRING #"GET"; RESP_BULK_STRING #"key"], 22).
Proof. vm_compute. reflexivity. Qed.

Example parse_inline_words :
  resp_parse_command (#"SET  key   value" ++ CRLF)
  = RESP_PARSE_OK (RESP_ARRAY [RESP_BULK_STRING #"SET"; RESP_BULK_STRING #"key"; RESP_BULK_STRING #"value"], 18).
Proof. vm_compute. reflexivity. Qed.

End Resp.
