(* ===== verification/RespProps.v ===== *)
(** * Properties of the RESP parser

    Bounds (no read outside the buffer, what is consumed is in the buffer),
    restartability (what an accepted request means does not depend on what
    follows it, and a truncated request is never accepted or rejected), and
    the round trips with the encoders of [reply.c]. *)

From S2P Require Import Prelude CLib Util Reply Resp.
Import Util Reply Resp.

Module RespProps.

(** ** Lines *)

Lemma find_line_loop_ok k buf pos i m j :
  i + k = length buf →
  find_line_loop k buf pos i m = RESP_PARSE_OK j →
  i ≤ j ∧ j + 2 ≤ length buf ∧ buf !! j = Some CR ∧ buf !! (j + 1) = Some LF.
Proof.
  revert i; induction k as [|k IH]; intros i Hk; simpl; [by case_match|].
  destruct (buf !! i) as [c|] eqn:Hi; [|done].
  repeat case_bool_decide; subst; [|case_match; [done|]; intros [??]%IH; [split; [lia|done]|lia]].
  case_match eqn:Hl; [done|]. apply Nat.leb_gt in Hl.
  destruct (buf !! (i + 1)) as [d|] eqn:Hd; [|done]. case_bool_decide; [|done].
  intros [= ->]. subst. split_and!; auto with lia.
Qed.

Lemma find_line_loop_undef k buf pos i m u :
  i + k = length buf → find_line_loop k buf pos i m ≠ RESP_UNDEF u.
Proof.
  revert i; induction k as [|k IH]; intros i Hk; simpl; [by case_match|].
  destruct (lookup_lt_is_Some_2 buf i) as [c ->]; [lia|].
  case_bool_decide; [|case_match; [done|]; apply IH; lia].
  case_match eqn:Hl; [done|]. apply Nat.leb_gt in Hl.
  destruct (lookup_lt_is_Some_2 buf (i + 1)) as [d ->]; [lia|]. by case_bool_decide.
Qed.

Lemma find_line_end_ok buf pos m j :
  pos ≤ length buf → find_line_end buf pos m = RESP_PARSE_OK j →
  pos ≤ j ∧ j + 2 ≤ length buf ∧ buf !! j = Some CR ∧ buf !! (j + 1) = Some LF.
Proof. intros ?. apply find_line_loop_ok. lia. Qed.

Lemma find_line_end_undef buf pos m u :
  pos ≤ length buf → find_line_end buf pos m ≠ RESP_UNDEF u.
Proof. intros ?. apply find_line_loop_undef. lia. Qed.

(** An accepted line stays accepted when bytes are appended. *)
Lemma find_line_loop_app_ok k buf more pos i m j :
  i + k = length buf →
  find_line_loop k buf pos i m = RESP_PARSE_OK j →
  find_line_loop (k + length more) (buf ++ more) pos i m = RESP_PARSE_OK j.
Proof.
  revert i; induction k as [|k IH]; intros i Hk; simpl; [by case_match|].
  destruct (buf !! i) as [c|] eqn:Hi; [|done]. rewrite (lookup_app_l_Some _ _ _ _ Hi).
  case_bool_decide; [|case_match; [done|]; apply IH; lia].
  case_match eqn:Hl; [done|]. apply Nat.leb_gt in Hl. rewrite length_app.
  destruct (Nat.leb_spec (length buf + length more) (i + 1)); [lia|].
  destruct (buf !! (i + 1)) as [d|] eqn:Hd; [|done].
  by rewrite (lookup_app_l_Some _ _ _ _ Hd).
Qed.

(** A rejected line is never accepted later, except one that is over-long. *)
Lemma find_line_loop_app_error k buf more pos i m :
  i + k = length buf → pos ≤ i →
  find_line_loop k buf pos i m = RESP_PARSE_ERROR →
  match find_line_loop (k + length more) (buf ++ more) pos i m with
  | RESP_PARSE_OK j => (m < Z.of_nat (j - pos))%Z
  | RESP_UNDEF _ => False
  | _ => True
  end.
Proof.
  revert i; induction k as [|k IH]; intros i Hk Hpos; simpl.
  - destruct (Z.ltb_spec m (Z.of_nat (length buf - pos))); [|done]. intros _.
    destruct (find_line_loop (length more) (buf ++ more) pos i m) eqn:E; try done.
    + apply find_line_loop_ok in E; [|rewrite length_app; lia]. lia.
    + apply find_line_loop_undef in E; [done|rewrite length_app; lia].
  - destruct (buf !! i) as [c|] eqn:Hi; [|done]. rewrite (lookup_app_l_Some _ _ _ _ Hi).
    case_bool_decide; [|case_match; [done|]; apply IH; lia].
    case_match eqn:Hl; [done|]. apply Nat.leb_gt in Hl. rewrite length_app.
    destruct (Nat.leb_spec (length buf + length more) (i + 1)); [lia|].
    destruct (buf !! (i + 1)) as [d|] eqn:Hd; [|done].
    rewrite (lookup_app_l_Some _ _ _ _ Hd). by case_bool_decide.
Qed.

(** ** Numbers *)

(** [parse_number] only looks at [buf[start, stop)]. *)
Lemma number_loop_app k buf more i v :
  i + k ≤ length buf → number_loop k (buf ++ more) i v = number_loop k buf i v.
Proof.
  revert i v; induction k as [|k IH]; intros i v Hk; simpl; [done|].
  rewrite lookup_app_l by lia. destruct (buf !! i) as [c|]; [|done]. case_match; [|done].
  destruct (i64 (v * 10)); simpl; [|done]. destruct (i64 _); simpl; [|done]. apply IH. lia.
Qed.

Lemma parse_number_app buf more start stop :
  stop ≤ length buf → parse_number (buf ++ more) start stop = parse_number buf start stop.
Proof.
  intros H. unfold parse_number. destruct (Nat.leb_spec stop start); simpl; [done|].
  case_match; [done|]. rewrite lookup_app_l by lia. destruct (buf !! start) as [c|]; [|done].
  destruct (Nat.leb_spec stop (if bool_decide (c = "-"%char) then S start else start)); [done|].
  rewrite number_loop_app; [done|]. case_match; lia.
Qed.

Lemma number_loop_undef k buf i v u :
  i + k ≤ length buf → number_loop k buf i v = Undef u → u = UB_signed_overflow.
Proof.
  revert i v; induction k as [|k IH]; intros i v Hk; simpl; [done|].
  destruct (lookup_lt_is_Some_2 buf i) as [c ->]; [lia|]. case_match; [|done].
  unfold i64. repeat (case_match; simpl; [|congruence]). apply IH. lia.
Qed.

Lemma parse_number_undef buf start stop u :
  stop ≤ length buf → parse_number buf start stop = Undef u → u = UB_signed_overflow.
Proof.
  intros H. unfold parse_number. destruct (Nat.leb_spec stop start); simpl; [done|].
  case_match; [done|]. destruct (lookup_lt_is_Some_2 buf start) as [c ->]; [lia|].
  destruct (Nat.leb_spec stop (if bool_decide (c = "-"%char) then S start else start)); [done|].
  destruct (number_loop _ _ _ _) as [[v|]|u'] eqn:E; simpl; [|done|].
  - unfold i64. repeat (case_match; simpl); congruence.
  - intros [= ->]. eapply number_loop_undef, E. case_match; lia.
Qed.

(** A header of more than 20 characters is malformed. *)
Lemma parse_number_long buf start stop :
  20 < stop - start → parse_number buf start stop = Ret None.
Proof.
  intros. unfold parse_number. destruct (Nat.ltb_spec 20 (stop - start)); [|lia].
  by rewrite orb_true_r.
Qed.

(** The digits of a number that fits read back without overflow. *)
Lemma number_loop_digits pre ds post v :
  Forall (λ c, is_digit c = true) ds → (0 ≤ v)%Z → (dec_acc v ds ≤ INT64_MAX)%Z →
  number_loop (length ds) (pre ++ ds ++ post) (length pre) v = Ret (Some (dec_acc v ds)).
Proof.
  intros Hds. revert pre v. induction Hds as [|c ds Hc Hds IH]; intros pre v Hv Hb; simpl; [done|].
  rewrite list_lookup_middle by done. rewrite Hc.
  pose proof (is_digit_val c Hc). simpl in Hb.
  pose proof (dec_acc_mono (v * 10 + digit_val c) ds ltac:(lia) Hds).
  unfold INT64_MAX in *. rewrite i64_ok by (unfold INT64_MIN, INT64_MAX; lia). simpl.
  rewrite i64_ok by (unfold INT64_MIN, INT64_MAX; lia). simpl.
  specialize (IH (pre ++ [c]) (v * 10 + digit_val c)%Z).
  rewrite length_app, <- app_assoc in IH. simpl in IH. rewrite Nat.add_1_r in IH.
  apply IH; lia.
Qed.

Lemma parse_number_fmt_d pre z post :
  (INT64_MIN < z ≤ INT64_MAX)%Z →
  parse_number (pre ++ fmt_d z ++ post) (length pre) (length pre + length (fmt_d z)) = Ret (Some z).
Proof.
  intros Hz. unfold INT64_MIN, INT64_MAX in Hz.
  assert (∀ n, (0 ≤ n ≤ INT64_MAX)%Z → 1 ≤ length (dec_of n) ≤ 19) as Hlen.
  { intros n Hn. split; [apply dec_of_length_pos|]. apply dec_of_length; [|lia].
    change (10 ^ Z.of_nat 19)%Z with 10000000000000000000%Z. unfold INT64_MAX in Hn. lia. }
  unfold parse_number, fmt_d. destruct (Z.ltb_spec z 0).
  - destruct (Hlen (- z)%Z) as [Hl1 Hl2]; [unfold INT64_MAX; lia|].
    simpl length. destruct (Nat.leb_spec (length pre + S (length (dec_of (- z)))) (length pre)); [lia|].
    destruct (Nat.ltb_spec 20 (length pre + S (length (dec_of (- z))) - length pre)); [lia|]. simpl.
    rewrite list_lookup_middle by done. simpl.
    destruct (Nat.leb_spec (length pre + S (length (dec_of (- z)))) (S (length pre))); [lia|].
    replace (length pre + S (length (dec_of (- z))) - S (length pre)) with (length (dec_of (- z))) by lia.
    pose proof (number_loop_digits (pre ++ ["-"%char]) (dec_of (- z)) post 0) as HN.
    rewrite length_app, <- app_assoc, Nat.add_1_r in HN. simpl in HN.
    rewrite HN; [|apply dec_of_digits; lia|lia|rewrite dec_of_value; unfold INT64_MAX; lia].
    rewrite dec_of_value by lia. simpl. rewrite i64_ok by (unfold INT64_MIN, INT64_MAX; lia).
    simpl. by rewrite Z.opp_involutive.
  - destruct (Hlen z) as [Hl1 Hl2]; [unfold INT64_MAX; lia|].
    destruct (Nat.leb_spec (length pre + length (dec_of z)) (length pre)); [lia|].
    destruct (Nat.ltb_spec 20 (length pre + length (dec_of z) - length pre)); [lia|]. simpl.
    pose proof (dec_of_digits z ltac:(lia)) as Hds.
    destruct (dec_of z) as [|c ds] eqn:E; [simpl in Hl1; lia|]. rewrite <- app_comm_cons.
    rewrite list_lookup_middle by done.
    rewrite bool_decide_eq_false_2 by (intros ->; by apply Forall_cons in Hds as [? _]).
    destruct (Nat.leb_spec (length pre + length (c :: ds)) (length pre)); [simpl in *; lia|].
    replace (length pre + length (c :: ds) - length pre) with (length (c :: ds)) by lia.
    rewrite app_comm_cons, number_loop_digits; [|done|lia|rewrite <- E, dec_of_value; unfold INT64_MAX; lia].
    rewrite <- E, dec_of_value by lia. done.
Qed.

(** ** Bounds and definedness

    A result is [safe] for a parse that starts at [pos] when what it consumed
    is a non-empty part of the buffer, and when undefined behaviour can only
    be a signed overflow. *)

Definition safe {A} (buf : bytes) (pos : nat) (r : parsed (A * nat)) : Prop :=
  match r with
  | RESP_PARSE_OK (_, n) => pos < n ≤ length buf
  | RESP_UNDEF u => u = UB_signed_overflow
  | _ => True
  end.

Lemma safe_bind {A B} buf pos (r : parsed (A * nat)) (f : A * nat → parsed (B * nat)) :
  safe buf pos r →
  (∀ a n, pos < n ≤ length buf → safe buf pos (f (a, n))) →
  safe buf pos (r ≫= f).
Proof. destruct r as [[a n]| | |u]; simpl; auto. Qed.

Lemma safe_weaken {A} buf pos pos' (r : parsed (A * nat)) :
  pos ≤ pos' → safe buf pos' r → safe buf pos r.
Proof. destruct r as [[a n]| | |u]; simpl; auto with lia. Qed.

Lemma read_number_line_safe buf pos :
  pos ≤ length buf → safe buf pos (read_number_line buf pos).
Proof.
  intros Hpos. unfold read_number_line.
  destruct (find_line_end buf pos 32) as [cr| | |u] eqn:E; simpl; try done.
  - apply find_line_end_ok in E as (?&?&_&_); [|done].
    destruct (parse_number buf pos cr) as [[v|]|u] eqn:E'; simpl; try done; [lia|].
    eapply parse_number_undef, E'. lia.
  - by apply find_line_end_undef in E.
Qed.

Lemma parse_bulk_safe buf pos : pos ≤ length buf → safe buf pos (parse_bulk buf pos).
Proof.
  intros Hpos. unfold parse_bulk. apply safe_bind; [by apply read_number_line_safe|].
  intros blen p Hp. cbv beta iota. case_match; [simpl; lia|]. case_match; [done|].
  destruct (Z.ltb_spec (Z.of_nat (length buf - p)) (blen + 2)); [done|].
  bools. destruct (lookup_lt_is_Some_2 buf (p + Z.to_nat blen)) as [c ->]; [lia|].
  destruct (lookup_lt_is_Some_2 buf (p + Z.to_nat blen + 1)) as [d ->]; [lia|].
  case_match; simpl; [lia|done].
Qed.

Lemma array_loop_safe buf pv n p pos :
  (∀ q, q ≤ length buf → safe buf q (pv q)) → pos < p ≤ length buf →
  safe buf pos (array_loop pv n p).
Proof.
  intros Hpv. revert p. induction n as [|n IH]; intros p Hp; simpl; [lia|].
  apply safe_bind; [eapply safe_weaken, Hpv; lia|]. intros v q Hq.
  apply safe_bind; [apply IH; lia|]. intros vs q' Hq'. simpl. lia.
Qed.

Lemma parse_array_safe buf pv pos :
  (∀ q, q ≤ length buf → safe buf q (pv q)) → pos ≤ length buf →
  safe buf pos (parse_array pv buf pos).
Proof.
  intros Hpv Hpos. unfold parse_array. apply safe_bind; [by apply read_number_line_safe|].
  intros count p Hp. cbv beta iota. case_match; [simpl; lia|]. case_match; [done|].
  apply safe_bind; [by apply array_loop_safe|]. intros vs q Hq. simpl. lia.
Qed.

Lemma line_safe {A} buf pos m (f : nat → A) :
  pos ≤ length buf →
  safe buf pos (find_line_end buf pos m ≫= λ cr, RESP_PARSE_OK (f cr, cr + 2)).
Proof.
  intros Hpos. destruct (find_line_end buf pos m) eqn:E; simpl; try done.
  - apply find_line_end_ok in E; lia.
  - by apply find_line_end_undef in E.
Qed.

Lemma parse_value_safe left buf bo pos :
  pos ≤ length buf → safe buf pos (parse_value left buf bo pos).
Proof.
  revert pos; induction left as [|left IH]; intros pos Hpos; cbn [parse_value]; [done|].
  destruct (Nat.leb_spec (length buf) pos); [done|].
  destruct (lookup_lt_is_Some_2 buf pos) as [c ->]; [lia|].
  case_match; [done|].
  case_bool_decide; [eapply safe_weaken, parse_bulk_safe; lia|].
  case_bool_decide; [eapply safe_weaken, parse_array_safe; [lia|auto|lia]|].
  destruct (bool_decide _ || bool_decide _); [eapply safe_weaken, line_safe; lia|].
  case_bool_decide; [|done].
  apply safe_bind; [eapply safe_weaken, read_number_line_safe; lia|]. intros v n Hn. simpl. lia.
Qed.

Lemma find_nl_lt buf n : find_nl buf = Some n → n < length buf.
Proof.
  revert n; induction buf as [|c buf IH]; intros n; simpl; [done|].
  case_bool_decide; [intros [= <-]; lia|].
  destruct (find_nl buf); simpl; [|done]. intros [= <-]. specialize (IH _ eq_refl). lia.
Qed.

Lemma parse_inline_safe buf : safe buf 0 (parse_inline buf).
Proof.
  unfold parse_inline. destruct (find_nl buf) as [n|] eqn:E; [|by case_match].
  apply find_nl_lt in E. case_match; simpl; [done|lia].
Qed.

Lemma resp_parse_command_safe_aux buf : safe buf 0 (resp_parse_command buf).
Proof.
  unfold resp_parse_command. destruct buf as [|c buf]; [done|].
  case_bool_decide; [apply parse_inline_safe|].
  apply safe_bind; [eapply safe_weaken, read_number_line_safe; simpl; lia|].
  intros count p Hp. cbv beta iota. case_match; [done|].
  eapply safe_weaken, parse_array_safe; [|auto using parse_value_safe|simpl]; lia.
Qed.

(** ** Restartability

    [extends r r'] relates the result on the bytes that have arrived to the
    result once more bytes have: acceptance is final, a rejection is never
    turned into an acceptance. *)

Definition extends {A} (r r' : parsed A) : Prop :=
  match r with
  | RESP_PARSE_OK a => r' = RESP_PARSE_OK a
  | RESP_PARSE_INCOMPLETE => True
  | RESP_PARSE_ERROR => r' = RESP_PARSE_ERROR ∨ r' = RESP_PARSE_INCOMPLETE
  | RESP_UNDEF u => r' = RESP_UNDEF u
  end.

Lemma extends_refl {A} (r : parsed A) : extends r r.
Proof. destruct r; simpl; auto. Qed.

Lemma extends_bind {A B} (r r' : parsed A) (f g : A → parsed B) :
  extends r r' → (∀ a, r = RESP_PARSE_OK a → extends (f a) (g a)) →
  extends (r ≫= f) (r' ≫= g).
Proof.
  destruct r; simpl.
  - intros -> H. by apply H.
  - done.
  - intros [->| ->] _; simpl; auto.
  - by intros ->.
Qed.

Lemma read_number_line_extends buf more pos :
  pos ≤ length buf → extends (read_number_line buf pos) (read_number_line (buf ++ more) pos).
Proof.
  intros Hpos. unfold read_number_line, find_line_end.
  rewrite length_app. replace (length buf + length more - pos) with (length buf - pos + length more) by lia.
  destruct (find_line_loop (length buf - pos) buf pos pos 32) as [cr| | |u] eqn:E; simpl; [|done| |].
  - rewrite (find_line_loop_app_ok (length buf - pos) buf more pos pos 32 cr) by (done || lia). simpl.
    apply find_line_loop_ok in E as (_&?&_); [|lia].
    rewrite parse_number_app by lia. apply extends_refl.
  - pose proof (find_line_loop_app_error (length buf - pos) buf more pos pos 32 ltac:(lia) ltac:(lia) E) as H.
    destruct (find_line_loop _ (buf ++ more) pos pos 32) as [j| | |u]; simpl; auto; [|done].
    rewrite parse_number_long by lia. simpl. auto.
  - by apply find_line_loop_undef in E; [|lia].
Qed.

Lemma parse_bulk_extends buf more pos :
  pos ≤ length buf → extends (parse_bulk buf pos) (parse_bulk (buf ++ more) pos).
Proof.
  intros Hpos. unfold parse_bulk. apply extends_bind; [by apply read_number_line_extends|].
  intros [blen p] E. pose proof (read_number_line_safe buf pos Hpos) as Hs. rewrite E in Hs.
  cbv beta iota in Hs |- *. case_match; [apply extends_refl|]. case_match; [apply extends_refl|].
  bools. rewrite length_app.
  destruct (Z.ltb_spec (Z.of_nat (length buf - p)) (blen + 2)); [done|].
  destruct (Z.ltb_spec (Z.of_nat (length buf + length more - p)) (blen + 2)); [lia|].
  rewrite !lookup_app_l by lia.
  rewrite drop_app_le by lia. rewrite take_app_le by (rewrite length_drop; lia). apply extends_refl.
Qed.

Lemma array_loop_extends buf pv pv' n p :
  (∀ q, q ≤ length buf → safe buf q (pv q)) →
  (∀ q, q ≤ length buf → extends (pv q) (pv' q)) → p ≤ length buf →
  extends (array_loop pv n p) (array_loop pv' n p).
Proof.
  intros Hs He. revert p. induction n as [|n IH]; intros p Hp; [done|]. cbn [array_loop].
  apply extends_bind; [auto|]. intros [v q] E. specialize (Hs p Hp). rewrite E in Hs. simpl in Hs.
  apply extends_bind; [apply IH; lia|]. intros [vs q'] _. apply extends_refl.
Qed.

Lemma parse_value_extends left buf more pos :
  pos ≤ length buf → extends (parse_value left buf true pos) (parse_value left (buf ++ more) true pos).
Proof.
  destruct left as [|left]; intros Hpos; cbn [parse_value]; [simpl; auto|].
  destruct (Nat.leb_spec (length buf) pos); [done|]. rewrite length_app.
  destruct (Nat.leb_spec (length buf + length more) pos); [lia|].
  rewrite lookup_app_l by lia. destruct (buf !! pos) as [c|]; [|apply extends_refl].
  case_bool_decide; simpl; [by apply parse_bulk_extends|auto].
Qed.

Lemma find_nl_app buf more :
  find_nl (buf ++ more) =
  match find_nl buf with Some n => Some n | None => Nat.add (length buf) <$> find_nl more end.
Proof.
  induction buf as [|c buf IH]; simpl; [by destruct (find_nl more)|].
  case_bool_decide; [done|]. rewrite IH. destruct (find_nl buf); simpl; [done|].
  by destruct (find_nl more).
Qed.

Lemma parse_inline_extends buf more :
  extends (parse_inline buf) (parse_inline (buf ++ more)).
Proof.
  unfold parse_inline. rewrite find_nl_app. destruct (find_nl buf) as [n|] eqn:E.
  - apply find_nl_lt in E. rewrite take_app_le by lia. apply extends_refl.
  - destruct (Z.ltb_spec RESP_MAX_INLINE_LEN (Z.of_nat (length buf))); [|done]. left.
    destruct (find_nl more) as [m|]; simpl; rewrite ?length_app;
      match goal with |- context [Z.ltb ?a ?b] => destruct (Z.ltb_spec a b) end; by (try lia).
Qed.

Lemma resp_parse_command_extends buf more :
  extends (resp_parse_command buf) (resp_parse_command (buf ++ more)).
Proof.
  unfold resp_parse_command. destruct buf as [|c buf]; [done|]. rewrite <- app_comm_cons.
  case_bool_decide; [apply (parse_inline_extends (c :: buf))|].
  assert (1 ≤ length (c :: buf)) by (simpl; lia).
  apply extends_bind; [by apply (read_number_line_extends (c :: buf))|].
  intros [count p] _. cbv beta iota. case_match; [apply extends_refl|].
  apply extends_bind; [by apply (read_number_line_extends (c :: buf))|].
  intros [count' p'] E. pose proof (read_number_line_safe (c :: buf) 1 H0) as Hs. rewrite E in Hs.
  change (1 < p' ≤ length (c :: buf)) in Hs. cbv beta iota. case_match; [apply extends_refl|]. case_match; [apply extends_refl|].
  apply extends_bind; [|intros [??] _; apply extends_refl].
  eapply (array_loop_extends (c :: buf)); [auto using parse_value_safe| |lia].
  intros q Hq. by apply (parse_value_extends _ (c :: buf)).
Qed.

(** ** Round trips

    The lemmas say what the parser does at a position where the text of a
    value starts: [drop pos buf] is the text followed by anything. *)

Lemma drop_split (buf x rest : bytes) pos :
  drop pos buf = x ++ rest → x ≠ [] →
  ∃ pre, buf = pre ++ x ++ rest ∧ pos = length pre.
Proof.
  intros Hd Hx. exists (take pos buf). rewrite <- Hd, take_drop. split; [done|].
  rewrite length_take. apply (f_equal length) in Hd. rewrite length_drop, length_app in Hd.
  destruct x; [done|]. simpl in Hd. lia.
Qed.

Lemma drop_after (buf x rest : bytes) pos :
  drop pos buf = x ++ rest → drop (pos + length x) buf = rest.
Proof. intros Hd. by rewrite <- drop_drop, Hd, drop_app_length. Qed.

Lemma find_line_end_here s buf pos m rest :
  drop pos buf = s ++ CRLF ++ rest → CR ∉ s → (Z.of_nat (length s) ≤ m)%Z →
  find_line_end buf pos m = RESP_PARSE_OK (pos + length s).
Proof.
  intros Hd Hs Hm. unfold find_line_end.
  assert (∀ i k s, i + k = length buf → pos ≤ i → drop i buf = s ++ CRLF ++ rest → CR ∉ s →
    (Z.of_nat (i + length s - pos) ≤ m)%Z →
    find_line_loop k buf pos i m = RESP_PARSE_OK (i + length s)) as H.
  { clear. intros i k s; revert i k. induction s as [|c s IH]; intros i k Hk Hpos Hd Hs Hm.
    all: assert (Hl := f_equal length Hd); rewrite length_drop, !length_app in Hl; simpl in Hl.
    all: destruct k as [|k]; [lia|]; cbn [find_line_loop].
    all: assert (H0 := f_equal (lookup 0) Hd); rewrite lookup_drop, Nat.add_0_r in H0; simpl in H0; rewrite H0.
    - destruct (Nat.leb_spec (length buf) (i + 1)); [lia|].
      assert (H1 := f_equal (lookup 1) Hd). rewrite lookup_drop in H1. simpl in H1.
      by rewrite H1, Nat.add_0_r.
    - rewrite bool_decide_eq_false_2 by set_solver. simpl in Hm.
      destruct (Z.ltb_spec m (Z.of_nat (i - pos))); [lia|].
      rewrite (IH (S i) k); [f_equal; simpl; lia|lia|lia| |set_solver|lia].
      apply (drop_after buf [c]) in Hd. by rewrite Nat.add_1_r in Hd. }
  apply H; auto; [|lia]. apply (f_equal length) in Hd.
  rewrite length_drop, !length_app in Hd. simpl in Hd. lia.
Qed.

Lemma fmt_d_length z : (INT64_MIN ≤ z ≤ INT64_MAX)%Z → 1 ≤ length (fmt_d z) ≤ 20.
Proof.
  unfold INT64_MIN, INT64_MAX, fmt_d. intros Hz.
  destruct (Z.ltb_spec z 0); simpl.
  - pose proof (dec_of_length (- z) 19 ltac:(change (10 ^ Z.of_nat 19)%Z with 10000000000000000000%Z; lia)). lia.
  - pose proof (dec_of_length_pos z).
    pose proof (dec_of_length z 19 ltac:(change (10 ^ Z.of_nat 19)%Z with 10000000000000000000%Z; lia)). lia.
Qed.

Lemma digits_no_cr ds : Forall (λ c, is_digit c = true) ds → CR ∉ ds.
Proof. intros H Hin. rewrite Forall_forall in H. by specialize (H _ Hin). Qed.

Lemma fmt_d_no_cr z : CR ∉ fmt_d z.
Proof.
  unfold fmt_d. destruct (Z.ltb_spec z 0).
  - apply not_elem_of_cons. split; [done|]. apply digits_no_cr, dec_of_digits. lia.
  - apply digits_no_cr, dec_of_digits. lia.
Qed.

Lemma read_number_line_here z buf pos rest :
  (INT64_MIN < z ≤ INT64_MAX)%Z → drop pos buf = fmt_d z ++ CRLF ++ rest →
  read_number_line buf pos = RESP_PARSE_OK (z, pos + length (fmt_d z) + 2).
Proof.
  intros Hz Hd. pose proof (fmt_d_length z ltac:(lia)). unfold read_number_line.
  rewrite (find_line_end_here _ _ _ _ _ Hd) by (apply fmt_d_no_cr || lia). simpl.
  destruct (drop_split _ _ _ _ Hd) as (pre & -> & ->); [by intros E; rewrite E in *; simpl in *; lia|].
  by rewrite parse_number_fmt_d.
Qed.

Lemma fmt_d_nat n : fmt_d (Z.of_nat n) = dec_of (Z.of_nat n).
Proof. unfold fmt_d. destruct (Z.ltb_spec (Z.of_nat n) 0); [lia|done]. Qed.

Lemma read_count_here n buf pos rest :
  (Z.of_nat n ≤ INT64_MAX)%Z → drop pos buf = dec_of (Z.of_nat n) ++ CRLF ++ rest →
  read_number_line buf pos = RESP_PARSE_OK (Z.of_nat n, pos + length (dec_of (Z.of_nat n)) + 2) ∧
  drop (pos + length (dec_of (Z.of_nat n)) + 2) buf = rest.
Proof.
  intros Hn Hd. rewrite <- fmt_d_nat in *. split.
  - apply (read_number_line_here _ _ _ rest); [unfold INT64_MIN; lia|done].
  - apply drop_after in Hd. by apply (drop_after _ CRLF) in Hd.
Qed.

Lemma parse_bulk_here s buf pos rest :
  (Z.of_nat (length s) ≤ RESP_MAX_BULK_LEN)%Z →
  drop pos buf = dec_of (Z.of_nat (length s)) ++ CRLF ++ s ++ CRLF ++ rest →
  parse_bulk buf pos =
    RESP_PARSE_OK (RESP_BULK_STRING s, pos + length (dec_of (Z.of_nat (length s)) ++ CRLF ++ s ++ CRLF)).
Proof.
  unfold RESP_MAX_BULK_LEN. intros Hs Hd. unfold parse_bulk.
  destruct (read_count_here (length s) buf pos _ ltac:(unfold INT64_MAX; lia) Hd) as [-> Hp].
  set (p := pos + length (dec_of (Z.of_nat (length s))) + 2) in *. simpl.
  destruct (Z.eqb_spec (Z.of_nat (length s)) (-1)); [lia|].
  destruct (Z.ltb_spec (Z.of_nat (length s)) 0); [lia|].
  unfold RESP_MAX_BULK_LEN. destruct (Z.ltb_spec (64 * 1024 * 1024) (Z.of_nat (length s))); [lia|]. simpl.
  assert (Hl := f_equal length Hp). rewrite length_drop, !length_app in Hl. simpl in Hl.
  destruct (Z.ltb_spec (Z.of_nat (length buf - p)) (Z.of_nat (length s) + 2)); [lia|].
  assert (∀ i, buf !! (p + (length s + i)) = (CRLF ++ rest) !! i) as Hat.
  { intros i. rewrite <- lookup_drop, Hp, lookup_app_r by lia. f_equal. lia. }
  rewrite Nat2Z.id. rewrite <- (Nat.add_0_r (length s)) at 1. rewrite <- (Nat.add_assoc p), !Hat. simpl.
  rewrite Hp, take_app_length. do 2 f_equal. rewrite !length_app. unfold p. simpl. rewrite length_app. simpl. lia.
Qed.

(** The RESP text of a value, as the encoders of [reply.c] write it. *)
Fixpoint enc_value (v : RespValue) : bytes :=
  match v with
  | RESP_SIMPLE_STRING s => enc_simple s
  | RESP_ERROR s => #"-" ++ s ++ CRLF
  | RESP_INTEGER z => enc_integer z
  | RESP_BULK_STRING s => enc_bulk s
  | RESP_ARRAY vs => enc_array_header (length vs) ++ concat (enc_value <$> vs)
  | RESP_NULL => enc_null
  end.

(** The values within the limits of resp.h, [left] levels of nesting deep. *)
Fixpoint resp_limits (left : nat) (v : RespValue) : Prop :=
  match left with
  | O => False
  | S left' =>
      match v with
      | RESP_SIMPLE_STRING s | RESP_ERROR s =>
          (CR ∉ s) ∧ (Z.of_nat (length s) ≤ RESP_MAX_INLINE_LEN)%Z
      | RESP_INTEGER z => (INT64_MIN ≤ z ≤ INT64_MAX)%Z
      | RESP_BULK_STRING s => (Z.of_nat (length s) ≤ RESP_MAX_BULK_LEN)%Z
      | RESP_ARRAY vs =>
          (Z.of_nat (length vs) ≤ RESP_MAX_ARRAY_LEN)%Z ∧ Forall (resp_limits left') vs
      | RESP_NULL => True
      end
  end.

(** Whether the integer with the least value is somewhere in [v]. *)
Fixpoint has_min (v : RespValue) : bool :=
  match v with
  | RESP_INTEGER z => (z =? INT64_MIN)%Z
  | RESP_ARRAY vs => existsb has_min vs
  | _ => false
  end.

(** The values within the limits that can be read back: [INT64_MIN] is not one
    of them, since reading its magnitude overflows. *)
Fixpoint sendable (left : nat) (v : RespValue) : Prop :=
  match left with
  | O => False
  | S left' =>
      match v with
      | RESP_SIMPLE_STRING s | RESP_ERROR s =>
          (CR ∉ s) ∧ (Z.of_nat (length s) ≤ RESP_MAX_INLINE_LEN)%Z
      | RESP_INTEGER z => (INT64_MIN < z ≤ INT64_MAX)%Z
      | RESP_BULK_STRING s => (Z.of_nat (length s) ≤ RESP_MAX_BULK_LEN)%Z
      | RESP_ARRAY vs =>
          (Z.of_nat (length vs) ≤ RESP_MAX_ARRAY_LEN)%Z ∧ Forall (sendable left') vs
      | RESP_NULL => True
      end
  end.

(** Step over the type byte of the text at [pos]. *)
Ltac skip_tag Hd :=
  cbn [enc_value] in Hd; unfold enc_array_header, enc_integer, enc_bulk, enc_null in Hd;
  rewrite <- ?app_assoc in Hd; apply drop_after in Hd;
  change (length #"*") with 1 in Hd; change (length #":") with 1 in Hd;
  change (length #"$") with 1 in Hd; rewrite Nat.add_1_r in Hd.

Lemma array_loop_here (buf : bytes) pv vs rest pos :
  (∀ v q r, v ∈ vs → drop q buf = enc_value v ++ r →
     pv q = RESP_PARSE_OK (v, q + length (enc_value v))) →
  drop pos buf = concat (enc_value <$> vs) ++ rest →
  array_loop pv (length vs) pos = RESP_PARSE_OK (vs, pos + length (concat (enc_value <$> vs))).
Proof.
  revert pos. induction vs as [|v vs IH]; intros pos Hpv Hd; simpl; [by rewrite Nat.add_0_r|].
  simpl in Hd. rewrite <- app_assoc in Hd.
  rewrite (Hpv v pos _ ltac:(set_solver) Hd). simpl.
  rewrite IH; [|intros; eapply Hpv; [set_solver|done]|by apply drop_after in Hd].
  simpl. by rewrite length_app, Nat.add_assoc.
Qed.

Lemma parse_array_here (buf : bytes) pv vs rest pos :
  (∀ v q r, v ∈ vs → drop q buf = enc_value v ++ r →
     pv q = RESP_PARSE_OK (v, q + length (enc_value v))) →
  (Z.of_nat (length vs) ≤ RESP_MAX_ARRAY_LEN)%Z →
  drop pos buf = enc_value (RESP_ARRAY vs) ++ rest →
  parse_array pv buf (S pos) =
    RESP_PARSE_OK (RESP_ARRAY vs, pos + length (enc_value (RESP_ARRAY vs))).
Proof.
  unfold RESP_MAX_ARRAY_LEN. intros Hpv Hn Hd. unfold parse_array.
  assert (Hd' := Hd). skip_tag Hd'.
  destruct (read_count_here (length vs) buf (S pos) _ ltac:(unfold INT64_MAX; lia) Hd') as [-> Hp].
  set (p := S pos + length (dec_of (Z.of_nat (length vs))) + 2) in *. simpl. destruct (Z.eqb_spec (Z.of_nat (length vs)) (-1)); [lia|].
  destruct (Z.ltb_spec (Z.of_nat (length vs)) 0); [lia|].
  unfold RESP_MAX_ARRAY_LEN. destruct (Z.ltb_spec (1024 * 1024) (Z.of_nat (length vs))); [lia|]. simpl.
  rewrite Nat2Z.id, (array_loop_here buf pv vs rest _ Hpv Hp). simpl.
  do 2 f_equal. unfold enc_array_header, p. rewrite !length_app. simpl. lia.
Qed.

Lemma line_here {A} (f : nat → A) (t : ascii) s buf pos rest :
  CR ∉ s → (Z.of_nat (length s) ≤ RESP_MAX_INLINE_LEN)%Z →
  drop pos buf = ([t] ++ s ++ CRLF) ++ rest →
  (find_line_end buf (S pos) RESP_MAX_INLINE_LEN ≫= λ cr, RESP_PARSE_OK (f cr, cr + 2)) =
    RESP_PARSE_OK (f (S pos + length s), pos + length ([t] ++ s ++ CRLF)) ∧
  take (S pos + length s - S pos) (drop (S pos) buf) = s.
Proof.
  intros Hcr Hl Hd. rewrite <- app_assoc in Hd. apply drop_after in Hd. simpl in Hd.
  rewrite Nat.add_1_r, <- app_assoc in Hd.
  rewrite (find_line_end_here _ _ _ _ _ Hd) by done. split.
  - simpl. rewrite length_app. simpl. do 2 f_equal. lia.
  - rewrite Hd. replace (S pos + length s - S pos) with (length s) by lia. apply take_app_length.
Qed.

(** The elements of a request: bulk strings, null or not. *)
Definition is_bulk (v : RespValue) : bool := match v with RESP_BULK_STRING _ | RESP_NULL => true | _ => false end.

Lemma parse_value_here left v bo (buf : bytes) pos rest :
  sendable left v → (bo = true → is_bulk v = true) →
  drop pos buf = enc_value v ++ rest →
  parse_value left buf bo pos = RESP_PARSE_OK (v, pos + length (enc_value v)).
Proof.
  revert v bo pos rest. induction left as [|left IH]; intros v bo pos rest Hv Hbo Hd; [done|].
  assert (∃ t tl, enc_value v = t :: tl) as (t & tl & Ht) by (destruct v; simpl; eauto).
  assert (buf !! pos = Some t) as Hpos.
  { assert (H := f_equal (lookup 0) Hd). rewrite Ht, lookup_drop, Nat.add_0_r in H. done. }
  cbn [parse_value]. destruct (Nat.leb_spec (length buf) pos); [by apply lookup_lt_Some in Hpos; lia|].
  rewrite Hpos. destruct v; simpl in Ht; injection Ht as <- _; simpl; rewrite ?andb_false_r;
    try (destruct bo; [by discriminate (Hbo eq_refl)|]; simpl).
  - destruct Hv as [Hcr Hl].
    destruct (line_here (λ cr, RESP_SIMPLE_STRING (take (cr - S pos) (drop (S pos) buf))) "+" str buf pos rest)
      as [-> ->]; done.
  - destruct Hv as [Hcr Hl].
    destruct (line_here (λ cr, RESP_ERROR (take (cr - S pos) (drop (S pos) buf))) "-" str buf pos rest)
      as [-> ->]; done.
  - skip_tag Hd.
    rewrite (read_number_line_here _ _ _ _ Hv Hd). simpl. rewrite length_app. simpl. do 2 f_equal. lia.
  - skip_tag Hd.
    rewrite (parse_bulk_here _ _ _ _ Hv Hd). do 2 f_equal. simpl. lia.
  - destruct Hv as [Hl Hvs]. eapply parse_array_here; [|done|done].
    intros v q r Hin. rewrite Forall_forall in Hvs. apply IH; [by apply Hvs|done].
  - apply (drop_after _ #"$" (#"-1" ++ CRLF ++ rest)) in Hd. rewrite Nat.add_1_r in Hd. unfold parse_bulk.
    rewrite (read_number_line_here (-1) buf (S pos) rest); [|done|done]. simpl. do 2 f_equal. lia.
Qed.

(** The text of an array of bulk strings, null or not, is parsed as a request. *)
Lemma parse_request_here vs rest :
  (Z.of_nat (length vs) ≤ RESP_MAX_ARRAY_LEN)%Z → Forall (λ v, is_bulk v = true ∧ sendable RESP_MAX_DEPTH v) vs →
  resp_parse_command (enc_value (RESP_ARRAY vs) ++ rest) =
    RESP_PARSE_OK (RESP_ARRAY vs, length (enc_value (RESP_ARRAY vs))).
Proof.
  intros Hn Hvs. unfold resp_parse_command. destruct (enc_value (RESP_ARRAY vs) ++ rest) as [|c buf] eqn:Hbuf; [done|].
  assert (c = "*"%char) as -> by (cbn in Hbuf; by injection Hbuf as <- _). rewrite bool_decide_false by naive_solver.
  rewrite <- Hbuf. set (b := enc_value (RESP_ARRAY vs) ++ rest) in *.
  assert (drop 0 b = enc_value (RESP_ARRAY vs) ++ rest) as Hd by done.
  assert (Hd' := Hd). skip_tag Hd'. unfold RESP_MAX_ARRAY_LEN in Hn.
  destruct (read_count_here (length vs) b 1 _ ltac:(unfold INT64_MAX; lia) Hd') as [-> _]. cbn [mbind parsed_bind].
  destruct (Z.ltb_spec (Z.of_nat (length vs)) 0); [lia|].
  rewrite (parse_array_here b _ vs rest 0); [done| |done|done].
  intros v q r Hin Hq. rewrite Forall_forall in Hvs. destruct (Hvs v Hin). by eapply parse_value_here.
Qed.

(** ** Values with INT64_MIN *)

Lemma sendable_limits left v : resp_limits left v → has_min v = false → sendable left v.
Proof.
  revert v. induction left as [|left IH]; intros v Hv Hm; [done|]. destruct v as [| |z| |vs|]; try done; cbn in *.
  - apply Z.eqb_neq in Hm. lia.
  - destruct Hv as [Hl Hv]. split; [done|]. rewrite Forall_forall in Hv. apply Forall_forall. intros v Hin.
    apply IH; [by apply Hv|]. destruct (has_min v) eqn:E; [|done].
    rewrite <- not_true_iff_false, existsb_exists in Hm. destruct Hm. exists v. by rewrite <- list_elem_of_In.
Qed.

Lemma number_loop_skip k (pre s : bytes) i v : number_loop k (pre ++ s) (length pre + i) v = number_loop k s i v.
Proof.
  revert i v. induction k as [|k IH]; intros i v; cbn [number_loop]; [done|].
  rewrite lookup_app_r by lia. replace (length pre + i - length pre) with i by lia.
  destruct (s !! i); [|done]. destruct (is_digit _); [|done]. destruct (i64 _) as [t|]; [|done]. cbn.
  destruct (i64 _); [|done]. cbn. rewrite <- Nat.add_succ_r. apply IH.
Qed.

Lemma read_number_line_min (buf : bytes) pos rest :
  drop pos buf = fmt_d INT64_MIN ++ CRLF ++ rest → read_number_line buf pos = RESP_UNDEF UB_signed_overflow.
Proof.
  intros Hd. unfold read_number_line.
  rewrite (find_line_end_here _ _ _ _ _ Hd) by (apply fmt_d_no_cr || (vm_compute; congruence)). simpl.
  destruct (drop_split _ _ _ _ Hd) as (pre & -> & ->); [by vm_compute|].
  unfold parse_number. change (length (fmt_d INT64_MIN)) with 20.
  destruct (Nat.leb_spec (length pre + 20) (length pre)); [lia|].
  destruct (Nat.ltb_spec 20 (length pre + 20 - length pre)); [lia|]. cbn [orb].
  rewrite lookup_app_r, Nat.sub_diag by lia. change ((fmt_d INT64_MIN ++ CRLF ++ rest) !! 0) with (Some "-"%char).
  cbv iota. change (bool_decide ("-"%char = "-"%char)) with true. cbv iota zeta.
  destruct (Nat.leb_spec (length pre + 20) (S (length pre))); [lia|].
  replace (length pre + 20 - S (length pre)) with 19 by lia. replace (S (length pre)) with (length pre + 1) by lia.
  rewrite number_loop_skip. reflexivity.
Qed.

(** Both cases at once: the elements before the first that overflows are read,
    those behind it are not. *)
Lemma array_loop_limits (buf : bytes) pv vs rest pos :
  (∀ v q r, v ∈ vs → drop q buf = enc_value v ++ r →
     pv q = if has_min v then RESP_UNDEF UB_signed_overflow else RESP_PARSE_OK (v, q + length (enc_value v))) →
  drop pos buf = concat (enc_value <$> vs) ++ rest → existsb has_min vs = true →
  array_loop pv (length vs) pos = RESP_UNDEF UB_signed_overflow.
Proof.
  revert pos. induction vs as [|v vs IH]; intros pos Hpv Hd Hm; [done|]. cbn [length array_loop].
  cbn [fmap list_fmap concat] in Hd. rewrite <- app_assoc in Hd. rewrite (Hpv v pos _ ltac:(set_solver) Hd).
  cbn in Hm. destruct (has_min v); [done|]. cbn. rewrite IH; [done| |by apply drop_after in Hd|done].
  intros; eapply Hpv; [set_solver|done].
Qed.

Lemma parse_value_limits left v (buf : bytes) pos rest :
  resp_limits left v → drop pos buf = enc_value v ++ rest →
  parse_value left buf false pos =
    if has_min v then RESP_UNDEF UB_signed_overflow else RESP_PARSE_OK (v, pos + length (enc_value v)).
Proof.
  revert v pos rest. induction left as [|left IH]; intros v pos rest Hv Hd; [done|].
  destruct (has_min v) eqn:Hm; [|by eapply parse_value_here; [by apply sendable_limits| |]].
  assert (∃ t tl, enc_value v = t :: tl) as (t & tl & Ht) by (destruct v; simpl; eauto).
  assert (buf !! pos = Some t) as Hpos.
  { assert (H := f_equal (lookup 0) Hd). rewrite Ht, lookup_drop, Nat.add_0_r in H. done. }
  cbn [parse_value]. destruct (Nat.leb_spec (length buf) pos); [by apply lookup_lt_Some in Hpos; lia|].
  rewrite Hpos. destruct v as [| |z| |vs|]; try done; simpl in Ht; injection Ht as <- _; simpl.
  - apply Z.eqb_eq in Hm as ->. skip_tag Hd. by rewrite (read_number_line_min _ _ _ Hd).
  - destruct Hv as [Hl Hvs]. unfold parse_array. skip_tag Hd.
    destruct (read_count_here (length vs) buf (S pos) _ ltac:(unfold INT64_MAX, RESP_MAX_ARRAY_LEN in *; lia) Hd) as [-> Hp].
    cbn. destruct (Z.eqb_spec (Z.of_nat (length vs)) (-1)); [lia|]. destruct (Z.ltb_spec (Z.of_nat (length vs)) 0); [lia|].
    destruct (Z.ltb_spec RESP_MAX_ARRAY_LEN (Z.of_nat (length vs))); [lia|]. cbn.
    rewrite Nat2Z.id, (array_loop_limits buf _ vs rest); [done| |done|exact Hm].
    intros v q r Hin. rewrite Forall_forall in Hvs. by apply IH, Hvs.
Qed.

Lemma enc_value_bulk vs :
  Forall (λ s, (Z.of_nat (length s) ≤ RESP_MAX_BULK_LEN)%Z) vs →
  Forall (sendable RESP_MAX_DEPTH) (RESP_BULK_STRING <$> vs).
Proof. intros H. apply Forall_fmap. eapply Forall_impl; [done|]. done. Qed.

(** ** Inline commands *)

(** [spaced s ws]: [s] is the words [ws], none empty and none containing a
    blank, separated by blanks, with any blanks around them. *)
Inductive spaced : bytes → list bytes → Prop :=
| spaced_end b : Forall (λ c, is_blank c = true) b → spaced b []
| spaced_word b w s ws :
    Forall (λ c, is_blank c = true) b →
    w ≠ [] → Forall (λ c, is_blank c = false) w →
    (∀ c s', s = c :: s' → is_blank c = true) →
    spaced s ws → spaced (b ++ w ++ s) (w :: ws).

Lemma skip_blanks_split s :
  ∃ b, s = b ++ skip_blanks s ∧ Forall (λ c, is_blank c = true) b.
Proof.
  induction s as [|c s (b & Hs & Hb)]; simpl; [by exists []|].
  destruct (is_blank c) eqn:E; [|by exists []].
  exists (c :: b). split; [by simpl; f_equal | by constructor].
Qed.

Lemma skip_blanks_head s c s' : skip_blanks s = c :: s' → is_blank c = false.
Proof.
  induction s as [|d s IH]; simpl; [done|]. destruct (is_blank d) eqn:E; [done|].
  by intros [= <- <-].
Qed.

Lemma word_split s :
  s = take_word s ++ drop_word s ∧ Forall (λ c, is_blank c = false) (take_word s) ∧
  (∀ c s', drop_word s = c :: s' → is_blank c = true).
Proof.
  induction s as [|c s (Hs & Hw & Hd)]; simpl; [done|].
  destruct (is_blank c) eqn:E; simpl.
  - split_and!; [done|constructor|]. by intros ?? [= <- <-].
  - split_and!; [by f_equal|by constructor|done].
Qed.

Lemma inline_words_spaced fuel s : length s ≤ fuel → spaced s (inline_words fuel s).
Proof.
  revert s; induction fuel as [|fuel IH]; intros s Hl; cbn [inline_words].
  { destruct s; [constructor; constructor | simpl in Hl; lia]. }
  destruct (skip_blanks_split s) as (b & Hs & Hb).
  destruct (skip_blanks s) as [|c s'] eqn:E.
  { rewrite Hs, app_nil_r. by constructor. }
  pose proof (skip_blanks_head _ _ _ E) as Hc.
  destruct (word_split (c :: s')) as (Hw & Hnb & Hd).
  assert (take_word (c :: s') ≠ []) by (simpl; by rewrite Hc).
  rewrite Hs. rewrite Hw at 1. constructor; auto.
  apply IH. apply (f_equal length) in Hs. rewrite length_app in Hs.
  apply (f_equal length) in Hw. rewrite length_app in Hw.
  destruct (take_word (c :: s')); [done|]. simpl length in *. lia.
Qed.

Lemma find_nl_lookup buf n : find_nl buf = Some n → buf !! n = Some LF.
Proof.
  revert n; induction buf as [|c buf IH]; intros n; simpl; [done|].
  case_bool_decide; [by intros [= <-]; subst|].
  destruct (find_nl buf); simpl; [|done]. intros [= <-]. by apply IH.
Qed.

(** ** The properties *)

(** C37: For every input the parser consumes a non-empty part of the buffer it
    was given and never more, never reads outside it, and its only possible
    undefined behaviour is a signed overflow in a number header; this holds
    for requests and for replies. *)
Theorem resp_parse_bounds buf :
  safe buf 0 (resp_parse_command buf) ∧ safe buf 0 (resp_parse_reply buf).
Proof. split; [apply resp_parse_command_safe_aux | apply parse_value_safe; lia]. Qed.

(** C8: Parsing is restartable: an accepted request is accepted with the same
    value and length whatever bytes follow, and every strict prefix of it is
    reported as incomplete, never accepted and never rejected. *)
Theorem resp_parse_command_restartable buf more v n :
  resp_parse_command buf = RESP_PARSE_OK (v, n) →
  resp_parse_command (buf ++ more) = RESP_PARSE_OK (v, n) ∧
  ∀ k, k < n → resp_parse_command (take k buf) = RESP_PARSE_INCOMPLETE.
Proof.
  intros H. split.
  { pose proof (resp_parse_command_extends buf more) as He. by rewrite H in He. }
  intros k Hk. pose proof (resp_parse_command_extends (take k buf) (drop k buf)) as He.
  rewrite take_drop, H in He. pose proof (resp_parse_command_safe_aux (take k buf)) as Hs.
  destruct (resp_parse_command (take k buf)) as [[v' n']| | |u]; simpl in *; [|done| |done].
  - simplify_eq. rewrite length_take in Hs. lia.
  - by destruct He.
Qed.

Lemma resp_parse_command_restartable_witness :
  resp_parse_command (take 9 (#"*1" ++ CRLF ++ #"$4" ++ CRLF ++ #"PING" ++ CRLF)) = RESP_PARSE_INCOMPLETE.
Proof.
  apply (resp_parse_command_restartable (#"*1" ++ CRLF ++ #"$4" ++ CRLF ++ #"PING" ++ CRLF) []
           (RESP_ARRAY [RESP_BULK_STRING #"PING"]) 14); [vm_compute; reflexivity | lia].
Defined.

(** A rejected input stays rejected: no continuation of bytes that were a
    protocol error is ever parsed as a request. *)
Lemma resp_parse_command_reject_final buf more v n :
  resp_parse_command buf = RESP_PARSE_ERROR →
  resp_parse_command (buf ++ more) ≠ RESP_PARSE_OK (v, n).
Proof.
  intros H. pose proof (resp_parse_command_extends buf more) as He. rewrite H in He.
  destruct He as [->| ->]; done.
Qed.

Lemma resp_parse_command_reject_final_witness :
  resp_parse_command (#"*1x" ++ CRLF ++ #"$4") ≠ RESP_PARSE_OK (RESP_NULL, 3).
Proof.
  apply (resp_parse_command_reject_final (#"*1x" ++ CRLF) #"$4"). vm_compute. reflexivity.
Defined.



(** An accepted inline command is the line up to its newline (and its
    optional carriage return) cut into exactly its blank-separated words. *)
Lemma parse_inline_words_correct buf v n :
  parse_inline buf = RESP_PARSE_OK (v, n) →
  ∃ ws, v = RESP_ARRAY (RESP_BULK_STRING <$> ws) ∧
        spaced (strip_cr (take (n - 1) buf)) ws ∧ buf !! (n - 1) = Some LF.
Proof.
  unfold parse_inline. destruct (find_nl buf) as [nl|] eqn:E; [|by case_match].
  case_match; [done|]. intros [= <- <-]. rewrite Nat.add_sub.
  eexists. split_and!; [done|by apply inline_words_spaced|by apply find_nl_lookup].
Qed.

Lemma parse_inline_words_correct_witness :
  ∃ ws, RESP_ARRAY [RESP_BULK_STRING #"GET"; RESP_BULK_STRING #"k"] = RESP_ARRAY (RESP_BULK_STRING <$> ws) ∧
        spaced (strip_cr (take (9 - 1) (#" GET  k" ++ CRLF))) ws ∧ (#" GET  k" ++ CRLF) !! (9 - 1) = Some LF.
Proof. apply (parse_inline_words_correct (#" GET  k" ++ CRLF) _ 9). vm_compute. reflexivity. Defined.

(** A 20-digit header overflows [long long]: the parser multiplies and adds
    without a range check, and accepts up to 20 characters. *)
Example header_overflow :
  resp_parse_command (#"*18446744073709551620" ++ CRLF) = RESP_UNDEF UB_signed_overflow.
Proof. vm_compute. reflexivity. Qed.

(** A null bulk string is accepted as an element of a request, with a NULL
    [str]. *)
Example null_bulk_accepted :
  resp_parse_command (#"*1" ++ CRLF ++ #"$-1" ++ CRLF) = RESP_PARSE_OK (RESP_ARRAY [RESP_NULL], 9).
Proof. vm_compute. reflexivity. Qed.

End RespProps.
