(* ===== verification/Mem.v ===== *)
(** * Memory

    A heap maps the addresses of the blocks that are allocated to what they
    hold; a program is a function on heaps that may be undefined.  [malloc]
    picks an address that is not in use; freeing NULL does nothing, freeing
    anything that is not allocated - a block that was freed already - is
    undefined, and so is any access to it.  The wrappers of [util.c] never
    return NULL: they abort the process when there is no memory. *)

From S2P Require Import Prelude.

Module Mem.

Abbreviation loc := positive.

Section heap.
Context {B : Type}.

Local Abbreviation Heap := (gmap loc B).

Definition malloc (b : B) (h : Heap) : loc * Heap :=
  let l := fresh (dom h) in (l, <[l := b]> h).

Definition free (p : option loc) (h : Heap) : res Heap :=
  match p with
  | None => Ret h
  | Some l => match h !! l with Some _ => Ret (delete l h) | None => Undef UB_dangling end
  end.

(** A fresh block is not part of what is there. *)
Lemma malloc_run b h : ∃ l, malloc b h = (l, <[l := b]> h) ∧ h !! l = None.
Proof. exists (fresh (dom h)). split; [done|]. apply not_elem_of_dom, is_fresh. Qed.

Lemma free_some l h b : h !! l = Some b → free (Some l) h = Ret (delete l h).
Proof. intros Hl. cbn. by rewrite Hl. Qed.

(** A block on top of a disjoint heap. *)
Lemma free_insert l b h : h !! l = None → free (Some l) (<[l := b]> h) = Ret h.
Proof. intros Hl. rewrite (free_some _ _ b) by apply lookup_insert_eq. by rewrite delete_insert_id. Qed.

Lemma disjoint_insert (h1 h2 : Heap) l b b' : h1 ##ₘ h2 → h2 !! l = Some b → h1 ##ₘ <[l := b']> h2.
Proof. intros Hd Hl. apply map_disjoint_insert_r_2; [|done]. by eapply map_disjoint_Some_l. Qed.

(** ** Programs on a heap *)

Definition Prog (A : Type) : Type := Heap → res (A * Heap).

Definition free_block (p : option loc) : Prog () := λ h,
  match free p h with Ret h' => Ret (tt, h') | Undef u => Undef u end.

Lemma free_block_own l b (h : Heap) : h !! l = None → free_block (Some l) (<[l := b]> h) = Ret (tt, h).
Proof. intros Hl. unfold free_block. by rewrite free_insert. Qed.

(** ** Ownership of a sequence

    [owns_list P xs cs h]: each [x] belongs to its [c] with its own part of the
    heap, and [h] is all of them. *)
Inductive owns_list {X C : Type} (P : X → C → Heap → Prop) : list X → list C → Heap → Prop :=
| owns_nil : owns_list P [] [] ∅
| owns_cons x c h xs cs hs :
    P x c h → owns_list P xs cs hs → h ##ₘ hs → owns_list P (x :: xs) (c :: cs) (h ∪ hs).

Lemma owns_list_length {X C} (P : X → C → Heap → Prop) xs cs hs : owns_list P xs cs hs → length xs = length cs.
Proof. induction 1; cbn; congruence. Qed.

Lemma owns_list_snoc {X C} (P : X → C → Heap → Prop) xs cs hs x c h :
  owns_list P xs cs hs → P x c h → hs ##ₘ h → owns_list P (xs ++ [x]) (cs ++ [c]) (hs ∪ h).
Proof.
  intros Hl Hx. induction Hl as [|x' c' h' xs cs hs Hx' _ IH Hd]; intros Hdis; cbn [app].
  - rewrite (left_id_L ∅ (∪)). rewrite <- (right_id_L ∅ (∪) h). apply owns_cons; [done|constructor|apply map_disjoint_empty_r].
  - apply map_disjoint_union_l in Hdis as [H1 H2]. rewrite <- (assoc_L (∪)). apply owns_cons; [done|by apply IH|].
    by apply map_disjoint_union_r.
Qed.

End heap.

Arguments Prog : clear implicits.

Global Instance Prog_ret {B} : MRet (Prog B) := λ A a h, Ret (a, h).
Global Instance Prog_bind {B} : MBind (Prog B) := λ A A' f m h,
  match m h with Ret (a, h') => f a h' | Undef u => Undef u end.

Lemma bind_mem {B A A'} (m : Prog B A) (f : A → Prog B A') h a h' : m h = Ret (a, h') → (m ≫= f) h = f a h'.
Proof. intros Hm. unfold mbind, Prog_bind. by rewrite Hm. Qed.

(** A loop along pointers takes the number of blocks as its fuel: a list that
    is not circular has no more nodes than that. *)
Definition with_size {B A} (f : nat → Prog B A) : Prog B A := λ h, f (size h) h.

(** [malloc] as a program. *)
Definition alloc {B} (b : B) : Prog B loc := λ h, Ret (malloc b h).

(** [undefined u]: the program has undefined behaviour here. *)
Definition undefined {B A} (u : ub) : Prog B A := λ _, Undef u.

Section freeing.
Context {B : Type}.

Local Abbreviation Heap := (gmap loc B).

(** ** Freeing exactly a part

    [frees m a hv]: [m] removes the part [hv], whatever else is in the heap,
    and returns [a]. *)
Definition frees {A} (m : Prog B A) (a : A) (hv : Heap) : Prop := ∀ h, hv ##ₘ h → m (hv ∪ h) = Ret (a, h).

Lemma frees_ret {A} (a : A) : frees (mret a) a ∅.
Proof. intros h _. by rewrite (left_id_L ∅ (∪)). Qed.

Lemma frees_bind {A A'} (m : Prog B A) (f : A → Prog B A') a b h1 h2 :
  frees m a h1 → frees (f a) b h2 → h1 ##ₘ h2 → frees (m ≫= f) b (h1 ∪ h2).
Proof.
  intros Hm Hf Hd h [Hd1 Hd2]%map_disjoint_union_l. rewrite <- (assoc_L (∪)).
  rewrite (bind_mem _ _ _ a (h2 ∪ h)); [by apply Hf|]. apply Hm. by apply map_disjoint_union_r.
Qed.

Lemma frees_block l b : frees (free_block (Some l)) tt {[l := b]}.
Proof. intros h Hd%map_disjoint_singleton_l. rewrite <- insert_union_singleton_l. by apply free_block_own. Qed.

(** A block [b] at [l] on top of the parts it points to. *)
Definition over (l : loc) (b : B) (inner h : Heap) : Prop := inner !! l = None ∧ h = <[l := b]> inner.

Lemma over_union l b inner hv h : over l b inner hv → hv ##ₘ h → hv ∪ h = inner ∪ <[l := b]> h.
Proof.
  intros [Hl ->] [Hlh Hd]%map_disjoint_insert_l. by rewrite <- insert_union_l, insert_union_r.
Qed.

Lemma frees_over {A} l b inner hv (m : Prog B ()) (m' : Prog B A) a :
  over l b inner hv → frees m tt inner → frees m' a {[l := b]} → frees (m;; m') a hv.
Proof.
  intros Ho Hm Hm' h Hd. rewrite (over_union _ _ _ _ _ Ho Hd). destruct Ho as [Hl ->].
  apply map_disjoint_insert_l in Hd as [Hlh Hd]. rewrite (bind_mem _ _ _ tt (<[l := b]> h)).
  - rewrite insert_union_singleton_l. apply Hm'. by apply map_disjoint_singleton_l.
  - apply Hm. by apply map_disjoint_insert_r_2.
Qed.

Lemma size_part (h1 h2 : Heap) : h1 ##ₘ h2 → size (h1 ∪ h2) = size h1 + size h2.
Proof. intros. by apply map_size_disj_union. Qed.

End freeing.

End Mem.
