(* ===== verification/SepLogic.v ===== *)
(** * A separation logic for programs on a heap

    [heapProp B] are the predicates on heaps of blocks of type [B] ([Mem]),
    with the connectives of separation logic, as an instance of Iris's
    interface for logics of bunched implications, so that its proof mode can be
    used.  The logic is linear: a predicate describes a part of the heap
    exactly, nothing of it can be dropped, and so a memory leak cannot be
    proved away.  [wp m Φ] holds of a part of the heap from which the program
    [m] returns, whatever else is in the heap, without undefined behaviour and
    without touching anything else; it is total correctness. *)

From iris.proofmode Require Import proofmode.
From S2P Require Import Prelude Mem.
Import Mem.

(** ** Predicates on heaps *)

Record heapProp (B : Type) := HeapProp { holds_in : gmap loc B → Prop }.
Arguments HeapProp {B} _.
Arguments holds_in {B} _ _.

Section connectives.
Context {B : Type}.
Implicit Types (P Q : heapProp B) (h : gmap loc B).

Local Instance heapProp_equiv : Equiv (heapProp B) := λ P Q, ∀ h, holds_in P h ↔ holds_in Q h.
Local Instance heapProp_equivalence : Equivalence (≡@{heapProp B}).
Proof.
  split; [by intros P h|intros P Q H h; symmetry; apply H|]. intros P Q R H1 H2 h. etrans; [apply H1|apply H2].
Qed.
Local Instance heapProp_dist : Dist (heapProp B) := discrete_dist.
Definition heapProp_ofe_mixin : OfeMixin (heapProp B) := discrete_ofe_mixin heapProp_equivalence.

Record hp_entails P Q : Prop := hp_intro { hp_at : ∀ h, holds_in P h → holds_in Q h }.
Definition hp_emp : heapProp B := HeapProp (λ h, h = ∅).
Definition hp_pure (φ : Prop) : heapProp B := HeapProp (λ _, φ).
Definition hp_and P Q : heapProp B := HeapProp (λ h, holds_in P h ∧ holds_in Q h).
Definition hp_or P Q : heapProp B := HeapProp (λ h, holds_in P h ∨ holds_in Q h).
Definition hp_impl P Q : heapProp B := HeapProp (λ h, holds_in P h → holds_in Q h).
Definition hp_forall A (Φ : A → heapProp B) : heapProp B := HeapProp (λ h, ∀ a, holds_in (Φ a) h).
Definition hp_exist A (Φ : A → heapProp B) : heapProp B := HeapProp (λ h, ∃ a, holds_in (Φ a) h).
Definition hp_sep P Q : heapProp B :=
  HeapProp (λ h, ∃ h1 h2, h = h1 ∪ h2 ∧ h1 ##ₘ h2 ∧ holds_in P h1 ∧ holds_in Q h2).
Definition hp_wand P Q : heapProp B :=
  HeapProp (λ h, ∀ h', h ##ₘ h' → holds_in P h' → holds_in Q (h ∪ h')).
Definition hp_persistently P : heapProp B := HeapProp (λ _, holds_in P ∅).

(** Entailment is pointwise, so every law is one about disjoint unions. *)
Lemma hp_bi_mixin :
  BiMixin hp_entails hp_emp hp_pure hp_and hp_or hp_impl hp_forall hp_exist hp_sep hp_wand.
Proof.
  split.
  - split; [by split|]. intros P Q R [H1] [H2]. split. auto.
  - intros P Q. split; [intros H; split; split; apply H|]. intros [[H1] [H2]] h. by split; [apply H1|apply H2].
  - intros n φ φ' Hφ h. apply Hφ.
  - intros n P P' HP Q Q' HQ h. cbn. by rw (HP h) (HQ h).
  - intros n P P' HP Q Q' HQ h. cbn. by rw (HP h) (HQ h).
  - intros n P P' HP Q Q' HQ h. cbn. by rw (HP h) (HQ h).
  - intros A n Φ Φ' H h. split; intros Ha a; by apply H.
  - intros A n Φ Φ' H h. split; intros [a Ha]; exists a; by apply H.
  - intros n P P' HP Q Q' HQ h. split; intros (h1 & h2 & Hh & Hd & H1 & H2); exists h1, h2;
      (split; [done|]); (split; [done|]); split; by (apply HP || apply HQ).
  - intros n P P' HP Q Q' HQ h. split; intros Hw h' Hd Hp; apply HQ, Hw; try done; by apply HP.
  - intros φ P Hφ. by split.
  - intros φ P H. split. intros h Hφ. by apply (H Hφ).
  - intros P Q. by split; intros h [H _].
  - intros P Q. by split; intros h [_ H].
  - intros P Q R [H1] [H2]. split. intros h Hp. split; auto.
  - intros P Q. split. by left.
  - intros P Q. split. by right.
  - intros P Q R [H1] [H2]. split. intros h [H|H]; auto.
  - intros P Q R [H]. split. intros h Hp Hq. apply H. by split.
  - intros P Q R [H]. split. intros h [Hp Hq]. by apply (H h Hp).
  - intros A P Φ H. split. intros h Hp a. by apply H.
  - intros A Φ a. split. intros h H. apply H.
  - intros A Φ a. split. intros h H. by exists a.
  - intros A Φ Q H. split. intros h [a Ha]. by apply (H a).
  - intros P P' Q Q' [H1] [H2]. split. intros h (h1 & h2 & Hh & Hd & Hp & Hq). exists h1, h2. auto.
  - intros P. split. intros h Hp. exists ∅, h. rw left_id_L. split; [done|]. split; [apply map_disjoint_empty_l|done].
  - intros P. split. intros h (h1 & h2 & -> & Hd & -> & Hp). by rw left_id_L.
  - intros P Q. split. intros h (h1 & h2 & -> & Hd & Hp & Hq). exists h2, h1. split; [by apply map_union_comm|done].
  - intros P Q R. split. intros h (h12 & h3 & -> & Hd & (h1 & h2 & -> & Hd' & Hp & Hq) & Hr).
    apply map_disjoint_union_l in Hd as [Hd1 Hd2]. exists h1, (h2 ∪ h3). rw assoc_L.
    split; [done|]. split; [by apply map_disjoint_union_r|]. split; [done|]. by exists h2, h3.
  - intros P Q R [H]. split. intros h Hp h' Hd Hq. apply H. by exists h, h'.
  - intros P Q R [H]. split. intros h (h1 & h2 & -> & Hd & Hp & Hq). by apply (H h1 Hp h2 Hd).
Qed.

Lemma hp_persistently_mixin :
  BiPersistentlyMixin hp_entails hp_emp hp_and hp_exist hp_sep hp_persistently.
Proof.
  split.
  - intros n P Q H h. apply (H ∅).
  - intros P Q [H]. split. intros h. apply H.
  - by split.
  - by split.
  - by split.
  - by split.
  - intros P Q. by split; intros h (h1 & h2 & _ & _ & Hp & _).
  - intros P Q. split. intros h [Hp Hq]. exists ∅, h. rw left_id_L. split; [done|]. split; [apply map_disjoint_empty_l|done].
Qed.

Lemma hp_later_mixin :
  BiLaterMixin hp_entails hp_pure hp_or hp_impl hp_forall hp_exist hp_sep hp_persistently id.
Proof. exact (bi_later_mixin_id _ _ _ _ _ _ _ _ _ _ _ _ (λ _, eq_refl) hp_bi_mixin). Qed.

End connectives.

Canonical Structure heapPropI (B : Type) : bi :=
  {| bi_ofe_mixin := heapProp_ofe_mixin (B := B); bi_cofe_aux := discrete_cofe heapProp_equivalence; bi_bi_mixin := hp_bi_mixin;
     bi_bi_persistently_mixin := hp_persistently_mixin; bi_bi_later_mixin := hp_later_mixin |}.

(** A fact that takes no memory. *)
Notation "⌈ φ ⌉" := (<affine> ⌜ φ ⌝)%I (format "⌈ φ ⌉") : bi_scope.

(** ** Points-to and counting *)

Section assertions.
Context {B : Type}.
Implicit Types (P Q : heapProp B) (l : loc) (b : B).

Definition pointsto l b : heapProp B := HeapProp (λ h, h = {[l := b]}).

(** At least [n] blocks. *)
Definition cells (n : nat) : heapProp B := HeapProp (λ h, n ≤ size h).

End assertions.

Notation "l ↦ b" := (pointsto l b) (at level 20, format "l  ↦  b") : bi_scope.

Section laws.
Context {B : Type}.
Implicit Types (P Q : heapProp B) (l : loc) (b : B).

Lemma entails_holds P Q h : (P ⊢ Q) → holds_in P h → holds_in Q h.
Proof. intros [H]. apply H. Qed.

#[global] Instance cells_absorbing n : Absorbing (cells (B := B) n).
Proof.
  split. intros h (h1 & h2 & -> & Hd & _ & Hn). cbn in *. rw (size_part _ _ Hd). lia.
Qed.

Lemma cells_0 P : P ⊢ cells 0.
Proof. split. intros h _. cbn. lia. Qed.

Lemma cells_step l b n : l ↦ b ⊢ cells n -∗ cells (S n).
Proof.
  apply bi.wand_intro_r. split. intros h (h1 & h2 & -> & Hd & -> & Hn). cbn in *. rw (size_part _ _ Hd). rw map_size_singleton. lia.
Qed.

End laws.

(** ** Programs *)

Section wp.
Context {B : Type}.
Implicit Types (P Q : heapProp B) (l : loc) (b : B) (h : gmap loc B).

Definition wp {A} (m : Prog B A) (Φ : A → heapProp B) : heapProp B :=
  HeapProp (λ h, ∀ hf, h ##ₘ hf → ∃ a h', m (h ∪ hf) = Ret (a, h' ∪ hf) ∧ h' ##ₘ hf ∧ holds_in (Φ a) h').

(** What a proof in the logic says of the program. *)
Lemma wp_run {A} P (m : Prog B A) Φ h hf :
  (P ⊢ wp m Φ) → holds_in P h → h ##ₘ hf →
  ∃ a h', m (h ∪ hf) = Ret (a, h' ∪ hf) ∧ h' ##ₘ hf ∧ holds_in (Φ a) h'.
Proof. intros [Hw] Hp. by apply Hw. Qed.

(** What is known of a program on heaps, in the logic. *)
Lemma wp_intro {A} P (m : Prog B A) Φ :
  (∀ h hf, holds_in P h → h ##ₘ hf → ∃ a h', m (h ∪ hf) = Ret (a, h' ∪ hf) ∧ h' ##ₘ hf ∧ holds_in (Φ a) h') → P ⊢ wp m Φ.
Proof. intros Hm. split. intros h Hp hf Hd. by apply Hm. Qed.

Lemma wp_ret {A} (a : A) Φ : Φ a ⊢ wp (mret a) Φ.
Proof. split. intros h Ha hf Hd. by exists a, h. Qed.

Lemma wp_bind {A A'} (m : Prog B A) (f : A → Prog B A') Φ : wp m (λ a, wp (f a) Φ) ⊢ wp (m ≫= f) Φ.
Proof.
  split. intros h Hw hf Hd. destruct (Hw hf Hd) as (a & h' & Hm & Hd' & Ha).
  rw (bind_mem _ _ _ _ _ Hm). by apply Ha.
Qed.

(** The frame rule and the rule of consequence in one. *)
Lemma wp_wand {A} (m : Prog B A) Φ Ψ : wp m Φ ⊢ (∀ a, Φ a -∗ Ψ a) -∗ wp m Ψ.
Proof.
  apply bi.wand_intro_r. split. intros h (h1 & h2 & -> & Hd & Hw & Hf) hf Hdf.
  apply map_disjoint_union_l in Hdf as [Hd1 Hd2].
  destruct (Hw (h2 ∪ hf)) as (a & h' & Hm & Hd' & Ha); [by apply map_disjoint_union_r|].
  apply map_disjoint_union_r in Hd' as [Hd3 Hd4]. exists a, (h2 ∪ h').
  rw -(assoc_L (∪)) Hm. split.
  - rw (assoc_L (∪) h') (map_union_comm h' h2) ?(assoc_L (∪)) //.
  - split; [by apply map_disjoint_union_l|]. by apply (Hf a).
Qed.

Lemma wp_alloc b Φ : (∀ l, l ↦ b -∗ Φ l) ⊢ wp (alloc b) Φ.
Proof.
  split. intros h Hw hf Hd. unfold alloc. destruct (malloc_run b (h ∪ hf)) as (l & -> & Hl). apply lookup_union_None in Hl as [Hl Hlf].
  exists l, (h ∪ {[l := b]}). rw -insert_union_singleton_r //. split; [by rw insert_union_l|].
  split; [by apply map_disjoint_insert_l_2|]. rw insert_union_singleton_r //. apply (Hw l); [|done].
  by apply map_disjoint_singleton_r.
Qed.

Lemma wp_free l b Φ : l ↦ b ⊢ Φ tt -∗ wp (free_block (Some l)) Φ.
Proof.
  apply bi.wand_intro_r. split. intros h (h1 & h2 & -> & Hd & -> & Hw) hf Hdf.
  apply map_disjoint_union_l in Hdf as [Hd1 Hd2]. apply map_disjoint_singleton_l in Hd, Hd1.
  exists tt, h2. split; [|done]. rw -(assoc_L (∪)) -insert_union_singleton_l. apply free_block_own. by apply lookup_union_None.
Qed.

Lemma wp_free_null Φ : Φ tt ⊢ wp (free_block None) Φ.
Proof. split. intros h Ha hf Hd. by exists tt, h. Qed.

(** A step that depends on one block only and may replace it. *)
Lemma wp_step {A} l b b' a (m : Prog B A) Φ :
  (∀ h, h !! l = Some b → m h = Ret (a, <[l := b']> h)) → l ↦ b ⊢ (l ↦ b' -∗ Φ a) -∗ wp m Φ.
Proof.
  intros Hm. apply bi.wand_intro_r. split. intros h (h1 & h2 & -> & Hd & -> & Hw) hf Hdf.
  apply map_disjoint_union_l in Hdf as [Hd1 Hd2].
  exists a, (h2 ∪ {[l := b']}). apply map_disjoint_singleton_l in Hd, Hd1. rw -(assoc_L (∪)) -insert_union_singleton_l.
  rw Hm; [|apply lookup_insert_eq]. rw -(insert_union_singleton_r h2) //. split.
  - by rw insert_insert_eq insert_union_l.
  - split; [by apply map_disjoint_insert_l_2|]. rw insert_union_singleton_r //. apply Hw; [|done].
    by apply map_disjoint_singleton_r.
Qed.

Lemma wp_with_size {A} k (f : nat → Prog B A) Φ :
  cells k ∧ (∀ n, ⌈k ≤ n⌉ -∗ wp (f n) Φ) ⊢ wp (with_size f) Φ.
Proof.
  split. intros h [Hk Hw] hf Hd. unfold with_size.
  specialize (Hw (size (h ∪ hf)) ∅ (map_disjoint_empty_r _)). rw (right_id_L ∅ (∪)) in Hw. apply Hw; [|done].
  split; [done|]. change (k ≤ size (h ∪ hf)). change (k ≤ size h) in Hk. rw (size_part _ _ Hd). lia.
Qed.

End wp.
