(* ===== verification/RespMem.v ===== *)
(** * resp.c: the memory of parsed values

    The parser of [resp.c] again, this time with the blocks it allocates: a
    [RespValue] is a structure with pointers, strings are blocks of characters
    and arrays blocks of structures that grow while values arrive, the result
    is written through the pointer [out], and a value that turns out to be
    incomplete or malformed is cleared again.  [Resp] is what this computes;
    here the question is what it allocates and frees. *)

From S2P Require Import Prelude CLib Resp Mem.
Import Resp Mem.

Module RespMem.

(** ** Structures *)

(** [RespType]; zero is the first one. *)
Inductive RespType :=
  | T_SIMPLE_STRING | T_ERROR | T_INTEGER | T_BULK_STRING | T_ARRAY | T_NULL.

(** [struct RespValue] *)
Record RawValue := mkRaw {
  rv_type : RespType;
  rv_str : option loc;
  rv_len : nat;
  rv_integer : Z;
  rv_elements : option loc;
  rv_count : nat;
}.

(** [memset(v, 0, sizeof( *v))] *)
Definition zeroed : RawValue :=
  {| rv_type := T_SIMPLE_STRING; rv_str := None; rv_len := 0; rv_integer := 0; rv_elements := None; rv_count := 0 |}.

(** A block of characters, or of structures of which some are not initialised. *)
Inductive Block :=
  | Chars (s : bytes)
  | Cells (cs : list (option RawValue)).

Abbreviation Heap := (gmap loc Block).

Abbreviation Mem := (Prog Block).

(** [&elements[i]] of a block of structures. *)
Definition Ptr : Type := loc * nat.

Definition load (p : Ptr) : Mem RawValue := λ h,
  match h !! p.1 with
  | Some (Cells cs) =>
      match cs !! p.2 with
      | Some (Some c) => Ret (c, h)
      | Some None => Undef UB_uninitialised
      | None => Undef UB_out_of_bounds
      end
  | _ => Undef UB_dangling
  end.

Definition store (p : Ptr) (c : RawValue) : Mem () := λ h,
  match h !! p.1 with
  | Some (Cells cs) =>
      if p.2 <? length cs then Ret (tt, <[p.1 := Cells (<[p.2 := Some c]> cs)]> h) else Undef UB_out_of_bounds
  | _ => Undef UB_dangling
  end.

(** [xcalloc(1, sizeof(RespValue))] *)
Definition xcalloc_value : Mem Ptr := λ h,
  let '(l, h') := malloc (Cells [Some zeroed]) h in Ret ((l, 0), h').

(** [xstrndup(buf + p, n)]: a copy with a terminator. *)
Definition xstrndup (s : bytes) : Mem loc := λ h, Ret (malloc (Chars (s ++ [NUL])) h).

(** [xrealloc(elements, cap * sizeof(RespValue))]: the structures move. *)
Definition xrealloc_cells (p : option loc) (cap : nat) : Mem loc := λ h,
  match p with
  | None => Ret (malloc (Cells (replicate cap None)) h)
  | Some l =>
      match h !! l with
      | Some (Cells cs) => 
          let '(l', h') := malloc (Cells (take cap cs ++ replicate (cap - length cs) None)) h in Ret (l', delete l h')
      | _ => Undef UB_dangling
      end
  end.

(** ** Freeing *)

(** [for (i = i; i < i + n; i++) clear(&e[i]);] *)
Fixpoint clear_cells (clear : Ptr → Mem ()) (e : loc) (n i : nat) : Mem () :=
  match n with
  | O => mret tt
  | S n' => clear (e, i);; clear_cells clear e n' (S i)
  end.

(** The recursion of [value_clear] follows the nesting, which [fuel] bounds;
    too little of it counts as undefined. *)
Fixpoint value_clear (fuel : nat) (v : Ptr) : Mem () :=
  match fuel with
  | O => λ _, Undef UB_uninitialised
  | S fuel' =>
      c ← load v;
      free_block (rv_str c);;
      match rv_elements c with
      | None => mret tt
      | Some e => clear_cells (value_clear fuel') e (rv_count c) 0;; free_block (Some e)
      end;;
      store v zeroed
  end.

(** One level more than the nesting the parser accepts. *)
Definition CLEAR_DEPTH : nat := S (S RESP_MAX_DEPTH).

Definition resp_free (val : option Ptr) : Mem () :=
  match val with
  | None => mret tt
  | Some p => value_clear CLEAR_DEPTH p;; free_block (Some p.1)
  end.

(** ** Parsing *)

(** The status, with the position [*next] of an OK result. *)
Inductive status :=
  | OK (next : nat)
  | INCOMPLETE
  | ERROR.

(** A part of the parser that only reads the buffer. *)
Definition pure {A} (r : parsed A) (f : A → Mem status) : Mem status :=
  match r with
  | RESP_PARSE_OK a => f a
  | RESP_PARSE_INCOMPLETE => mret INCOMPLETE
  | RESP_PARSE_ERROR => mret ERROR
  | RESP_UNDEF u => λ _, Undef u
  end.

Definition with_type (t : RespType) (c : RawValue) : RawValue :=
  {| rv_type := t; rv_str := rv_str c; rv_len := rv_len c; rv_integer := rv_integer c; rv_elements := rv_elements c;
     rv_count := rv_count c |}.
Definition with_string (l : loc) (len : nat) (c : RawValue) : RawValue :=
  {| rv_type := rv_type c; rv_str := Some l; rv_len := len; rv_integer := rv_integer c; rv_elements := rv_elements c;
     rv_count := rv_count c |}.
Definition with_integer (z : Z) (c : RawValue) : RawValue :=
  {| rv_type := rv_type c; rv_str := rv_str c; rv_len := rv_len c; rv_integer := z; rv_elements := rv_elements c;
     rv_count := rv_count c |}.
Definition with_elements (e : loc) (c : RawValue) : RawValue :=
  {| rv_type := rv_type c; rv_str := rv_str c; rv_len := rv_len c; rv_integer := rv_integer c; rv_elements := Some e;
     rv_count := rv_count c |}.
Definition with_count (n : nat) (c : RawValue) : RawValue :=
  {| rv_type := rv_type c; rv_str := rv_str c; rv_len := rv_len c; rv_integer := rv_integer c;
     rv_elements := rv_elements c; rv_count := n |}.

(** [out->type = t; out->str = xstrndup(...); out->len = ...;] *)
Definition put_string (out : Ptr) (t : RespType) (s : bytes) : Mem () :=
  c ← load out; store out (with_type t c);;
  l ← xstrndup s;
  c ← load out; store out (with_string l (length s) c).

Definition put_type (out : Ptr) (t : RespType) : Mem () := c ← load out; store out (with_type t c).

Definition parse_bulk (buf : bytes) (pos : nat) (out : Ptr) : Mem status :=
  pure (read_number_line buf pos) (λ '(blen, p),
    if (blen =? -1)%Z then put_type out T_NULL;; mret (OK p)
    else if (blen <? 0)%Z || (RESP_MAX_BULK_LEN <? blen)%Z then mret ERROR
    else if (Z.of_nat (length buf - p) <? blen + 2)%Z then mret INCOMPLETE
    else
      let n := Z.to_nat blen in
      match buf !! (p + n), buf !! (p + n + 1) with
      | Some c, Some d =>
          if bool_decide (c = CR) && bool_decide (d = LF) then
            put_string out T_BULK_STRING (take n (drop p buf));; mret (OK (p + n + 2))
          else mret ERROR
      | _, _ => λ _, Undef UB_out_of_bounds
      end).

(** [if (out->count == cap) { grow } child = &out->elements[out->count];
    memset(child, 0, ...)]: the new capacity and the child.  The first
    capacity is 4, then it doubles; [limit] bounds it if there is one. *)
Definition new_child (out : Ptr) (cap : nat) (limit : option nat) : Mem (nat * Ptr) :=
  c ← load out;
  cap ← (if rv_count c =? cap then
           let cap := if 0 <? cap then cap * 2 else 4 in
           let cap := match limit with Some n => cap `min` n | None => cap end in
           e ← xrealloc_cells (rv_elements c) cap;
           c ← load out; store out (with_elements e c);; mret cap
         else mret cap);
  c ← load out;
  match rv_elements c with
  | None => λ _, Undef UB_null_deref
  | Some e => store (e, rv_count c) zeroed;; mret (cap, (e, rv_count c))
  end.

(** [out->count++] *)
Definition keep_child (out : Ptr) : Mem () := c ← load out; store out (with_count (S (rv_count c)) c).

(** The element loop with [n] of [count] values to go. *)
Fixpoint array_loop (pv : nat → Ptr → Mem status) (count n cap p : nat) (out : Ptr) : Mem status :=
  match n with
  | O => mret (OK p)
  | S n' =>
      r ← new_child out cap (Some count);
      let '(cap, child) := r in
      st ← pv p child;
      match st with
      | OK p => keep_child out;; array_loop pv count n' cap p out
      | _ => value_clear CLEAR_DEPTH out;; mret st
      end
  end.

Definition parse_array (pv : nat → Ptr → Mem status) (buf : bytes) (pos : nat) (out : Ptr) : Mem status :=
  pure (read_number_line buf pos) (λ '(count, p),
    if (count =? -1)%Z then put_type out T_NULL;; mret (OK p)
    else if (count <? 0)%Z || (RESP_MAX_ARRAY_LEN <? count)%Z then mret ERROR
    else put_type out T_ARRAY;; array_loop pv (Z.to_nat count) (Z.to_nat count) 0 p out).

Fixpoint parse_value (left : nat) (buf : bytes) (bulk_only : bool) (pos : nat) (out : Ptr) : Mem status :=
  match left with
  | O => mret ERROR
  | S left' =>
      if length buf <=? pos then mret INCOMPLETE
      else match buf !! pos with
           | None => λ _, Undef UB_out_of_bounds
           | Some type =>
               let p := S pos in
               if bulk_only && negb (bool_decide (type = "$"%char)) then mret ERROR
               else if bool_decide (type = "$"%char) then parse_bulk buf p out
               else if bool_decide (type = "*"%char) then parse_array (parse_value left' buf bulk_only) buf p out
               else if bool_decide (type = "+"%char) || bool_decide (type = "-"%char) then
                 pure (find_line_end buf p RESP_MAX_INLINE_LEN) (λ cr,
                   put_string out (if bool_decide (type = "+"%char) then T_SIMPLE_STRING else T_ERROR)
                     (take (cr - p) (drop p buf));;
                   mret (OK (cr + 2)))
               else if bool_decide (type = ":"%char) then
                 pure (read_number_line buf p) (λ '(v, next),
                   put_type out T_INTEGER;; c ← load out; store out (with_integer v c);; mret (OK next))
               else mret ERROR
           end
  end.

(** The words of an inline command, appended one by one. *)
Fixpoint inline_loop (words : list bytes) (cap : nat) (arr : Ptr) : Mem () :=
  match words with
  | [] => mret tt
  | w :: words' =>
      r ← new_child arr cap None;
      let '(cap, child) := r in
      keep_child arr;;
      put_string child T_BULK_STRING w;;
      inline_loop words' cap arr
  end.

(** The results of the parsers: the value and the bytes it took. *)
Inductive outcome :=
  | Parsed (v : Ptr) (consumed : nat)
  | Unparsed (st : status).

Definition parse_inline (buf : bytes) : Mem outcome :=
  match find_nl buf with
  | None => mret (Unparsed (if (RESP_MAX_INLINE_LEN <? Z.of_nat (length buf))%Z then ERROR else INCOMPLETE))
  | Some nl =>
      if (RESP_MAX_INLINE_LEN <? Z.of_nat nl)%Z then mret (Unparsed ERROR)
      else
        let line := strip_cr (take nl buf) in
        arr ← xcalloc_value;
        put_type arr T_ARRAY;;
        inline_loop (inline_words (length line) line) 0 arr;;
        mret (Parsed arr (nl + 1))
  end.

(** [if (st != RESP_PARSE_OK) { resp_free(v); return st; }] *)
Definition finish (v : Ptr) (st : status) : Mem outcome :=
  match st with
  | OK next => mret (Parsed v next)
  | _ => resp_free (Some v);; mret (Unparsed st)
  end.

Definition resp_parse_command (buf : bytes) : Mem outcome :=
  match buf with
  | [] => mret (Unparsed INCOMPLETE)
  | c :: _ =>
      if bool_decide (c ≠ "*"%char) then parse_inline buf
      else
        v ← xcalloc_value;
        st ← pure (read_number_line buf 1) (λ '(count, _),
               if (count <? 0)%Z then mret ERROR else parse_array (parse_value RESP_MAX_DEPTH buf true) buf 1 v);
        finish v st
  end.

Definition resp_parse_reply (buf : bytes) : Mem outcome :=
  v ← xcalloc_value;
  st ← parse_value (S RESP_MAX_DEPTH) buf false 0 v;
  finish v st.

(** ** Reading a value back *)

(** [str] with [len] *)
Definition read_text (c : RawValue) : Mem bytes := λ h,
  match rv_str c with
  | None => Undef UB_null_deref
  | Some l => match h !! l with Some (Chars s) => Ret (take (rv_len c) s, h) | _ => Undef UB_dangling end
  end.

Fixpoint read_cells (read : Ptr → Mem RespValue) (e : option loc) (n i : nat) : Mem (list RespValue) :=
  match n with
  | O => mret []
  | S n' =>
      match e with
      | None => λ _, Undef UB_null_deref
      | Some l => v ← read (l, i); vs ← read_cells read e n' (S i); mret (v :: vs)
      end
  end.

(** The value a structure stands for, following its pointers. *)
Fixpoint read_value (fuel : nat) (v : Ptr) : Mem RespValue :=
  match fuel with
  | O => λ _, Undef UB_uninitialised
  | S fuel' =>
      c ← load v;
      match rv_type c with
      | T_SIMPLE_STRING => s ← read_text c; mret (RESP_SIMPLE_STRING s)
      | T_ERROR => s ← read_text c; mret (RESP_ERROR s)
      | T_BULK_STRING => s ← read_text c; mret (RESP_BULK_STRING s)
      | T_INTEGER => mret (RESP_INTEGER (rv_integer c))
      | T_NULL => mret RESP_NULL
      | T_ARRAY => vs ← read_cells (read_value fuel') (rv_elements c) (rv_count c) 0; mret (RESP_ARRAY vs)
      end
  end.

(** ** Evaluated *)

Example mem_parse_free :
  match resp_parse_command (#"*2" ++ CRLF ++ #"$3" ++ CRLF ++ #"GET" ++ CRLF ++ #"$1" ++ CRLF ++ #"k" ++ CRLF) ∅ with
  | Ret (Parsed v _, h) =>
      size h = 4 ∧ (resp_free (Some v) h = Ret (tt, ∅)) ∧
      match read_value CLEAR_DEPTH v h with
      | Ret (x, _) => x = RESP_ARRAY [RESP_BULK_STRING #"GET"; RESP_BULK_STRING #"k"]
      | Undef _ => False
      end
  | _ => False
  end.
Proof. vm_compute. done. Qed.

End RespMem.
