(* ===== verification/RespMemProps.v ===== *)
(** * resp.c: nothing leaks, nothing is freed twice

    [owns left v c h]: the structure [c] stands for the value [v], nested at
    most [left] deep, and [h] is exactly the part of the heap that belongs to
    it.  Parsing a value adds such a part to the heap and changes nothing else;
    a parse that fails leaves the heap as it was; clearing removes exactly the
    part again. *)

From S2P Require Import Prelude CLib Resp Mem RespMem.
Import Resp Mem RespMem.

Module RespMemProps.

(** ** Structures in the heap *)

Definition cell_at (h : Heap) (p : Ptr) (c : RawValue) : Prop :=
  ∃ cs, h !! p.1 = Some (Cells cs) ∧ cs !! p.2 = Some (Some c).

(** The heap with another structure at [p]. *)
Definition put_cell (p : Ptr) (c : RawValue) (h : Heap) : Heap :=
  match h !! p.1 with Some (Cells cs) => <[p.1 := Cells (<[p.2 := Some c]> cs)]> h | _ => h end.

Lemma load_at h p c : cell_at h p c → load p h = Ret (c, h).
Proof. intros (cs & Hl & Hi). unfold load. by rewrite Hl, Hi. Qed.

Lemma store_at h p c c' : cell_at h p c → store p c' h = Ret (tt, put_cell p c' h).
Proof.
  intros (cs & Hl & Hi). unfold store, put_cell. rewrite Hl. apply lookup_lt_Some in Hi.
  by destruct (Nat.ltb_spec p.2 (length cs)); [|lia].
Qed.

Lemma put_cell_at h p c c' : cell_at h p c → cell_at (put_cell p c' h) p c'.
Proof.
  intros (cs & Hl & Hi). exists (<[p.2 := Some c']> cs). unfold put_cell. rewrite Hl. split; [apply lookup_insert_eq|].
  apply list_lookup_insert_eq. by eapply lookup_lt_Some.
Qed.

Lemma put_cell_twice h p c c' c'' : cell_at h p c → put_cell p c'' (put_cell p c' h) = put_cell p c'' h.
Proof.
  intros (cs & Hl & Hi). unfold put_cell. rewrite Hl, lookup_insert_eq, insert_insert_eq. by rewrite list_insert_insert_eq.
Qed.

Lemma put_cell_id h p c : cell_at h p c → put_cell p c h = h.
Proof. intros (cs & Hl & Hi). unfold put_cell. rewrite Hl, list_insert_id by done. by rewrite insert_id. Qed.

Lemma put_cell_dom p c h : dom (put_cell p c h) = dom h.
Proof.
  unfold put_cell. destruct (h !! p.1) as [[]|] eqn:Hl; [done| |done]. apply dom_insert_lookup_L. eauto.
Qed.

Lemma put_cell_disjoint p c (h1 h2 : Heap) : h1 ##ₘ h2 → h1 ##ₘ put_cell p c h2.
Proof. rewrite !map_disjoint_dom. by rewrite put_cell_dom. Qed.

Lemma put_cell_lookup_ne p c h l : l ≠ p.1 → put_cell p c h !! l = h !! l.
Proof. intros Hl. unfold put_cell. destruct (h !! p.1) as [[]|]; [done| |done]. by rewrite lookup_insert_ne. Qed.

(** A part of the heap beside the structure. *)
Lemma cell_at_union (h1 h2 : Heap) p c : h1 ##ₘ h2 → cell_at h2 p c → cell_at (h1 ∪ h2) p c.
Proof. intros Hd (cs & Hl & Hi). exists cs. split; [by apply lookup_union_Some_r|done]. Qed.

Lemma put_cell_union (h1 h2 : Heap) p c c' :
  h1 ##ₘ h2 → cell_at h2 p c → put_cell p c' (h1 ∪ h2) = h1 ∪ put_cell p c' h2.
Proof.
  intros Hd (cs & Hl & Hi). unfold put_cell. rewrite Hl, (lookup_union_Some_r _ _ _ _ Hd Hl).
  rewrite insert_union_r; [done|]. by eapply map_disjoint_Some_r.
Qed.

(** ** Ownership *)

(** The structure of an array whose element block is at [e]. *)
Definition array_cell (e : option loc) (n : nat) : RawValue := mkRaw T_ARRAY None 0 0 e n.

(** The element block, which may have room for more, and what its structures
    own. *)
Definition array_own (e : option loc) (cells : list RawValue) (rest : list (option RawValue)) (hs own : Heap) : Prop :=
  match e with
  | None => cells = [] ∧ rest = [] ∧ hs = ∅ ∧ own = ∅
  | Some l => hs !! l = None ∧ own = <[l := Cells ((Some <$> cells) ++ rest)]> hs
  end.

Definition string_cell (t : RespType) (l : loc) (s : bytes) : RawValue := mkRaw t (Some l) (length s) 0 None 0.

Fixpoint owns (left : nat) (v : RespValue) (c : RawValue) (h : Heap) : Prop :=
  match left with
  | O => False
  | S left' =>
      let string t s := ∃ l, c = string_cell t l s ∧ h = {[l := Chars (s ++ [NUL])]} in
      match v with
      | RESP_SIMPLE_STRING s => string T_SIMPLE_STRING s
      | RESP_ERROR s => string T_ERROR s
      | RESP_BULK_STRING s => string T_BULK_STRING s
      | RESP_INTEGER z => c = mkRaw T_INTEGER None 0 z None 0 ∧ h = ∅
      | RESP_NULL => c = mkRaw T_NULL None 0 0 None 0 ∧ h = ∅
      | RESP_ARRAY vs =>
          ∃ e cells rest hs, c = array_cell e (length cells) ∧ owns_list (owns left') vs cells hs ∧
            array_own e cells rest hs h
      end
  end.

(** ** Clearing *)

Lemma clear_cells_run (clear : Ptr → Mem ()) (P : RespValue → RawValue → Heap → Prop) l cells vs hs front rest (h : Heap) :
  (∀ v c hv p h, P v c hv → hv ##ₘ h → cell_at h p c → clear p (hv ∪ h) = Ret (tt, put_cell p zeroed h)) →
  owns_list P vs cells hs → hs ##ₘ h → h !! l = Some (Cells (front ++ (Some <$> cells) ++ rest)) →
  clear_cells clear l (length cells) (length front) (hs ∪ h) =
    Ret (tt, <[l := Cells (front ++ replicate (length cells) (Some zeroed) ++ rest)]> h).
Proof.
  intros Hclear Hl. revert front h. induction Hl as [|v c hv vs cells hs Hv _ IH Hd]; intros front h Hdis Hh.
  - cbn. rewrite (left_id_L ∅ (∪)). by rewrite insert_id.
  - apply map_disjoint_union_l in Hdis as [H1 H2]. cbn [length clear_cells]. rewrite <- (assoc_L (∪)).
    assert (cell_at h (l, length front) c) as Hc.
    { eexists. split; [exact Hh|]. cbn. by rewrite lookup_app_r, Nat.sub_diag by lia. }
    erewrite bind_mem; [|apply (Hclear v c); [done|by apply map_disjoint_union_r|by apply cell_at_union]].
    rewrite (put_cell_union _ _ _ c) by done. replace (S (length front)) with (length (front ++ [Some zeroed])) by (rewrite length_app; cbn; lia).
    unfold put_cell. cbn [fst snd]. rewrite Hh.
    rewrite (IH (front ++ [Some zeroed])).
    + rewrite insert_insert_eq. do 3 f_equal. rewrite <- app_assoc. done.
    + by eapply disjoint_insert.
    + rewrite lookup_insert_eq. do 2 f_equal. rewrite insert_app_r_alt, Nat.sub_diag by lia. cbn. by rewrite <- app_assoc.
Qed.

Lemma value_clear_run fuel left v c hv p (h : Heap) :
  owns left v c hv → left ≤ fuel → hv ##ₘ h → cell_at h p c →
  value_clear fuel p (hv ∪ h) = Ret (tt, put_cell p zeroed h).
Proof.
  revert left v c hv p h. induction fuel as [|fuel IH]; intros [|left] v c hv p h Hv Hf Hd Hc; try done; [lia|].
  cbn [value_clear]. rewrite (bind_mem _ _ _ _ _ (load_at _ _ _ (cell_at_union _ _ _ _ Hd Hc))).
  assert (∀ t l s, c = string_cell t l s → hv = {[l := Chars (s ++ [NUL])]} →
    (free_block (rv_str c);; (match rv_elements c with
       | None => mret tt
       | Some e => clear_cells (value_clear fuel) e (rv_count c) 0;; free_block (Some e) end);; store p zeroed) (hv ∪ h) =
    Ret (tt, put_cell p zeroed h)) as Hstr.
  { intros t l s -> ->. apply map_disjoint_singleton_l in Hd. cbn [rv_str rv_elements string_cell].
    rewrite <- insert_union_singleton_l, (bind_mem _ _ _ _ _ (free_block_own _ _ _ Hd)). cbn. by apply (store_at _ _ _ _ Hc). }
  destruct v; cbn in Hv.
  - destruct Hv as (l & Hcl & Hhv). by eapply Hstr.
  - destruct Hv as (l & Hcl & Hhv). by eapply Hstr.
  - destruct Hv as [-> ->]. rewrite (left_id_L ∅ (∪)). by apply (store_at _ _ _ _ Hc).
  - destruct Hv as (l & Hcl & Hhv). by eapply Hstr.
  - destruct Hv as (e & cells & rest & hs & -> & Hl & Ho). cbn [rv_str rv_elements rv_count array_cell].
    erewrite bind_mem by reflexivity. destruct e as [e|].
    2: { destruct Ho as (-> & -> & -> & ->). rewrite (left_id_L ∅ (∪)). by apply (store_at _ _ _ _ Hc). }
    destruct Ho as [He ->]. apply map_disjoint_insert_l in Hd as [Hhe Hd].
    assert (clear_cells (value_clear fuel) e (length cells) 0 (<[e := Cells ((Some <$> cells) ++ rest)]> hs ∪ h) =
      Ret (tt, <[e := Cells (replicate (length cells) (Some zeroed) ++ rest)]> h)) as Hclear.
    { rewrite <- insert_union_l, insert_union_r by done.
      rewrite (clear_cells_run _ (owns left) e cells elements hs [] rest); [by rewrite insert_insert_eq| |done| |].
      - intros v c hv p' h' Hv Hd' Hc'. apply (IH left v c); [done|lia|done..].
      - by apply map_disjoint_insert_r_2.
      - by rewrite lookup_insert_eq. }
    erewrite bind_mem; [|erewrite bind_mem by exact Hclear; by apply free_block_own]. by apply (store_at _ _ _ _ Hc).
  - destruct Hv as [-> ->]. rewrite (left_id_L ∅ (∪)). by apply (store_at _ _ _ _ Hc).
Qed.

(** ** Reading *)

Lemma read_cells_run (read : Ptr → Mem RespValue) (P : RespValue → RawValue → Heap → Prop) l cells vs hs front rest (h : Heap) :
  (∀ v c hv p h, P v c hv → hv ⊆ h → cell_at h p c → read p h = Ret (v, h)) →
  owns_list P vs cells hs → hs ⊆ h → h !! l = Some (Cells (front ++ (Some <$> cells) ++ rest)) →
  read_cells read (Some l) (length cells) (length front) h = Ret (vs, h).
Proof.
  intros Hread Hl. revert front. induction Hl as [|v c hv vs cells hs Hv _ IH Hd]; intros front Hsub Hh; [done|].
  cbn [length read_cells]. erewrite bind_mem; [|apply (Hread v c hv); [done| |]].
  2: { etrans; [by apply map_union_subseteq_l|done]. }
  2: { eexists. split; [exact Hh|]. cbn. by rewrite lookup_app_r, Nat.sub_diag by lia. }
  replace (S (length front)) with (length (front ++ [Some c])) by (rewrite length_app; cbn; lia).
  erewrite bind_mem; [done|]. apply IH; [|by rewrite <- app_assoc].
  etrans; [by apply map_union_subseteq_r|done].
Qed.

Lemma read_value_run fuel left v c hv p (h : Heap) :
  owns left v c hv → left ≤ fuel → hv ⊆ h → cell_at h p c → read_value fuel p h = Ret (v, h).
Proof.
  revert left v c hv p h. induction fuel as [|fuel IH]; intros [|left] v c hv p h Hv Hf Hsub Hc; try done; [lia|].
  cbn [read_value]. rewrite (bind_mem _ _ _ _ _ (load_at _ _ _ Hc)).
  assert (∀ t l s, c = string_cell t l s → hv = {[l := Chars (s ++ [NUL])]} → read_text c h = Ret (s, h)) as Hstr.
  { intros t l s -> ->. unfold read_text. cbn [rv_str rv_len string_cell].
    rewrite (lookup_weaken _ _ _ _ (lookup_singleton_eq l (Chars (s ++ [NUL]))) Hsub). by rewrite take_app_length. }
  destruct v; cbn in Hv.
  - destruct Hv as (l & Hcl & Hhv). specialize (Hstr _ _ _ Hcl Hhv). subst c. cbn [rv_type string_cell].
    by rewrite (bind_mem _ _ _ _ _ Hstr).
  - destruct Hv as (l & Hcl & Hhv). specialize (Hstr _ _ _ Hcl Hhv). subst c. cbn [rv_type string_cell].
    by rewrite (bind_mem _ _ _ _ _ Hstr).
  - by destruct Hv as [-> ->].
  - destruct Hv as (l & Hcl & Hhv). specialize (Hstr _ _ _ Hcl Hhv). subst c. cbn [rv_type string_cell].
    by rewrite (bind_mem _ _ _ _ _ Hstr).
  - destruct Hv as (e & cells & rest & hs & -> & Hl & Ho). cbn [rv_type array_cell rv_elements rv_count].
    destruct e as [e|]; [|by destruct Ho as (-> & -> & -> & ->); inversion Hl].
    destruct Ho as [He ->]. erewrite bind_mem; [done|].
    apply (read_cells_run _ (owns left) e cells elements hs [] rest); [|done| |].
    + intros v c hv p' h' Hv. apply (IH left); [done|lia].
    + etrans; [|exact Hsub]. by apply insert_subseteq.
    + eapply lookup_weaken; [apply lookup_insert_eq|exact Hsub].
  - by destruct Hv as [-> ->].
Qed.

(** ** Growing an array *)

(** The heap while an array is being filled: its element block and what the
    elements own, beside the structure [out]. *)
Definition filling (left : nat) (out : Ptr) (h : Heap) (e : option loc) (vs : list RespValue) (cells : list RawValue)
    (rest : list (option RawValue)) (H : Heap) : Prop :=
  ∃ hs own, cell_at h out zeroed ∧ owns_list (owns left) vs cells hs ∧ array_own e cells rest hs own ∧ own ##ₘ h ∧
    H = own ∪ put_cell out (array_cell e (length cells)) h.

Lemma filling_cell left out h e vs cells rest H :
  filling left out h e vs cells rest H → cell_at H out (array_cell e (length cells)).
Proof.
  intros (hs & own & Ho & _ & _ & Hd & ->). apply cell_at_union; [by apply put_cell_disjoint|]. by eapply put_cell_at.
Qed.

(** Storing into the structure keeps the rest. *)
Lemma filling_put left out h e vs cells rest H e' n own :
  filling left out h e vs cells rest H → own ##ₘ h → H = own ∪ put_cell out (array_cell e (length cells)) h →
  put_cell out (array_cell e' n) H = own ∪ put_cell out (array_cell e' n) h.
Proof.
  intros (hs & own' & Ho & _ & _ & _ & _) Hd ->. rewrite (put_cell_union _ _ _ (array_cell e (length cells))).
  - by rewrite (put_cell_twice _ _ zeroed).
  - by apply put_cell_disjoint.
  - by eapply put_cell_at.
Qed.

Lemma grow_run left out h e vs cells H cap :
  filling left out h e vs cells [] H → length cells < cap →
  ∃ l H1, xrealloc_cells e cap H = Ret (l, H1) ∧ cell_at H1 out (array_cell e (length cells)) ∧
    filling left out h (Some l) vs cells (replicate (cap - length cells) None)
      (put_cell out (array_cell (Some l) (length cells)) H1).
Proof.
  intros HF Hcap. pose proof HF as (hs & own & Ho & Hl & Hown & Hd & ->).
  assert (cell_at (put_cell out (array_cell e (length cells)) h) out (array_cell e (length cells))) as Hout by by eapply put_cell_at.
  assert (∀ l (hs' : Heap), hs' ##ₘ h → hs' !! l = None → h !! l = None →
    cell_at (<[l := Cells ((Some <$> cells) ++ replicate (cap - length cells) None)]> hs' ∪
             put_cell out (array_cell e (length cells)) h) out (array_cell e (length cells)) ∧
    put_cell out (array_cell (Some l) (length cells))
      (<[l := Cells ((Some <$> cells) ++ replicate (cap - length cells) None)]> hs' ∪
       put_cell out (array_cell e (length cells)) h) =
    <[l := Cells ((Some <$> cells) ++ replicate (cap - length cells) None)]> hs' ∪
       put_cell out (array_cell (Some l) (length cells)) h) as Hput.
  { intros l hs' Hd' Hl1 Hl2.
    assert (<[l := Cells ((Some <$> cells) ++ replicate (cap - length cells) None)]> hs' ##ₘ
      put_cell out (array_cell e (length cells)) h) as Hdis.
    { apply put_cell_disjoint. by apply map_disjoint_insert_l_2. }
    split; [by apply cell_at_union|]. rewrite (put_cell_union _ _ _ (array_cell e (length cells))) by done.
    by rewrite (put_cell_twice _ _ zeroed). }
  destruct e as [l0|]; cbn in Hown.
  - destruct Hown as [Hl0 ->]. rewrite app_nil_r in *. apply map_disjoint_insert_l in Hd as [Hhl0 Hd].
    set (H := <[l0 := Cells (Some <$> cells)]> hs ∪ put_cell out (array_cell (Some l0) (length cells)) h) in *.
    assert (H !! l0 = Some (Cells (Some <$> cells))) as HH by (unfold H; by rewrite <- insert_union_l, lookup_insert_eq).
    destruct (malloc_run (Cells (take cap (Some <$> cells) ++ replicate (cap - length (Some <$> cells)) None)) H)
      as (l & Hm & Hfresh). rewrite take_ge, length_fmap in Hm by (rewrite length_fmap; lia).
    assert (l ≠ l0) as Hne by congruence. unfold H in Hfresh. apply lookup_union_None in Hfresh as [Hf1 Hf2].
    rewrite lookup_insert_ne in Hf1 by done.
    assert (h !! l = None) as Hf3 by (apply not_elem_of_dom; apply not_elem_of_dom in Hf2; by rewrite put_cell_dom in Hf2).
    eexists l, _. split.
    { unfold xrealloc_cells. rewrite HH, take_ge, length_fmap by (rewrite length_fmap; lia). by rewrite Hm. }
    assert (delete l0 (<[l := Cells ((Some <$> cells) ++ replicate (cap - length cells) None)]> H) =
      <[l := Cells ((Some <$> cells) ++ replicate (cap - length cells) None)]> hs ∪
      put_cell out (array_cell (Some l0) (length cells)) h) as ->.
    { rewrite delete_insert_ne by done. unfold H. rewrite <- !insert_union_l. f_equal. rewrite delete_insert_id; [done|].
      apply lookup_union_None. split; [done|]. apply not_elem_of_dom. rewrite put_cell_dom. by apply not_elem_of_dom. }
    destruct (Hput l hs Hd Hf1 Hf3) as [Hc ->]. split; [exact Hc|]. exists hs. eexists. split_and!; [done|done|by split| |done].
    by apply map_disjoint_insert_l_2.
  - destruct Hown as (-> & _ & -> & ->). rewrite (left_id_L ∅ (∪)). cbn [length] in *.
    set (H := put_cell out (array_cell None 0) h) in *.
    destruct (malloc_run (Cells (replicate cap None)) H) as (l & Hm & Hfresh).
    assert (h !! l = None) as Hf3 by (apply not_elem_of_dom; apply not_elem_of_dom in Hfresh; unfold H in Hfresh; by rewrite put_cell_dom in Hfresh).
    exists l, (<[l := Cells (replicate cap None)]> H). split; [unfold xrealloc_cells; by rewrite Hm|].
    destruct (Hput l ∅ (map_disjoint_empty_l _) (lookup_empty _) Hf3) as [Hc Hp]. cbn [fmap list_fmap app] in Hc, Hp.
    rewrite Nat.sub_0_r in Hc, Hp |- *. rewrite <- insert_union_l, (left_id_L ∅ (∪)) in Hc, Hp. fold H in Hc, Hp.
    split; [exact Hc|]. rewrite Hp. exists ∅. eexists. split_and!; [done|done|by split| |done].
    apply map_disjoint_insert_l_2; [done|apply map_disjoint_empty_l].
Qed.

(** Making room: the next free structure of the element block is zeroed. *)
Lemma zero_next left out h l vs cells x rest H :
  filling left out h (Some l) vs cells (x :: rest) H →
  ∃ H', store (l, length cells) zeroed H = Ret (tt, H') ∧ filling left out h (Some l) vs cells (Some zeroed :: rest) H'.
Proof.
  intros (hs & own & Ho & Hl & [Hhs ->] & Hd & ->). unfold store. cbn [fst snd].
  rewrite <- insert_union_l, lookup_insert_eq, length_app, length_fmap. cbn [length].
  destruct (Nat.ltb_spec (length cells) (length cells + S (length rest))); [|lia]. eexists. split; [reflexivity|].
  exists hs. eexists. split_and!; [done|done|by split| |].
  - apply map_disjoint_insert_l in Hd as [? ?]. by apply map_disjoint_insert_l_2.
  - rewrite insert_insert_eq, <- insert_union_l. do 2 f_equal. rewrite insert_app_r_alt by (by rewrite length_fmap).
    by rewrite length_fmap, Nat.sub_diag.
Qed.

Lemma new_child_run left out h e vs cells rest H limit :
  filling left out h e vs cells rest H → match limit with Some n => length cells < n | None => True end →
  ∃ l rest' H', new_child out (length cells + length rest) limit H =
      Ret ((length cells + S (length rest'), (l, length cells)), H') ∧
    filling left out h (Some l) vs cells (Some zeroed :: rest') H'.
Proof.
  intros HF Hlim. unfold new_child. rewrite (bind_mem _ _ _ _ _ (load_at _ _ _ (filling_cell _ _ _ _ _ _ _ _ HF))).
  cbn [rv_count array_cell rv_elements]. destruct rest as [|x rest].
  - cbn [length]. rewrite Nat.add_0_r, Nat.eqb_refl. cbv zeta.
    set (cap := match limit with Some n => (if 0 <? length cells then length cells * 2 else 4) `min` n
                | None => if 0 <? length cells then length cells * 2 else 4 end).
    assert (length cells < cap) as Hcap.
    { unfold cap. destruct (Nat.ltb_spec 0 (length cells)); destruct limit; lia. }
    destruct (grow_run _ _ _ _ _ _ _ cap HF Hcap) as (l & H1 & Hre & Hc & HF1).
    destruct (cap - length cells) as [|k] eqn:Hk; [lia|]. cbn [replicate] in HF1.
    destruct (zero_next _ _ _ _ _ _ _ _ _ HF1) as (H2 & Hst & HF2).
    erewrite bind_mem.
    2: { erewrite bind_mem by exact Hre. erewrite bind_mem by (by apply load_at).
         erewrite bind_mem by (by eapply store_at). reflexivity. }
    erewrite bind_mem by (apply load_at; exact (filling_cell _ _ _ _ _ _ _ _ HF1)).
    cbn [rv_count array_cell rv_elements]. erewrite bind_mem by exact Hst.
    exists l, (replicate k None), H2. rewrite length_replicate. split; [|exact HF2].
    by replace (length cells + S k) with cap by lia.
  - cbn [length]. destruct (Nat.eqb_spec (length cells) (length cells + S (length rest))); [lia|].
    destruct e as [l|]; [|by destruct HF as (? & ? & _ & _ & (_ & ? & _) & _)].
    destruct (zero_next _ _ _ _ _ _ _ _ _ HF) as (H2 & Hst & HF2).
    erewrite bind_mem by reflexivity.
    erewrite bind_mem by (apply load_at; exact (filling_cell _ _ _ _ _ _ _ _ HF)).
    cbn [rv_count array_cell rv_elements]. erewrite bind_mem by exact Hst. by exists l, rest, H2.
Qed.

(** The child that was made room for. *)
Lemma filling_child left out h l vs cells x rest H :
  filling left out h (Some l) vs cells (Some x :: rest) H → cell_at H (l, length cells) x.
Proof.
  intros (hs & own & _ & _ & [_ ->] & _ & ->). eexists. split; [cbn [fst]; by rewrite <- insert_union_l, lookup_insert_eq|].
  cbn [snd]. rewrite lookup_app_r, length_fmap, Nat.sub_diag by (by rewrite length_fmap). done.
Qed.

(** A child with its value becomes an element. *)
Lemma filling_keep left out h l vs cells x rest H v c hv :
  filling left out h (Some l) vs cells (Some x :: rest) H → owns left v c hv → hv ##ₘ H →
  filling left out h (Some l) (vs ++ [v]) (cells ++ [c]) rest
    (put_cell out (array_cell (Some l) (S (length cells))) (hv ∪ put_cell (l, length cells) c H)).
Proof.
  intros HF Hv Hdv. pose proof (filling_child _ _ _ _ _ _ _ _ _ HF) as Hchild.
  destruct HF as (hs & own & Ho & Hl & [Hhs ->] & Hd & ->).
  set (h1 := put_cell out (array_cell (Some l) (length cells)) h) in *.
  apply map_disjoint_union_r in Hdv as [Hdv1 Hdv2]. apply map_disjoint_insert_r in Hdv1 as [Hvl Hdv1].
  apply map_disjoint_insert_l in Hd as [Hhl Hd].
  assert (hv ##ₘ h) as Hdv3 by (revert Hdv2; unfold h1; rewrite !map_disjoint_dom; by rewrite put_cell_dom).
  assert (hv ∪ put_cell (l, length cells) c (<[l := Cells ((Some <$> cells) ++ Some x :: rest)]> hs ∪ h1) =
    <[l := Cells ((Some <$> cells ++ [c]) ++ rest)]> (hs ∪ hv) ∪ h1) as ->.
  { unfold put_cell at 1. cbn [fst snd]. rewrite <- insert_union_l, lookup_insert_eq, insert_insert_eq, insert_union_l.
    rewrite insert_app_r_alt by (by rewrite length_fmap). rewrite length_fmap, Nat.sub_diag. cbn [insert list_insert].
    rewrite fmap_app, <- app_assoc. cbn [fmap list_fmap app].
    rewrite <- !insert_union_l, <- (insert_union_r hv) by done. f_equal. rewrite (assoc_L (∪)). f_equal. by apply map_union_comm. }
  assert (<[l := Cells ((Some <$> cells ++ [c]) ++ rest)]> (hs ∪ hv) ##ₘ h) as Hd'.
  { apply map_disjoint_insert_l_2; [done|]. by apply map_disjoint_union_l. }
  exists (hs ∪ hv). eexists. split_and!; [done|by apply owns_list_snoc|split; [|reflexivity]| |].
  - by apply lookup_union_None.
  - exact Hd'.
  - rewrite length_app, Nat.add_1_r. unfold h1.
    rewrite (put_cell_union _ _ _ (array_cell (Some l) (length cells))).
    + by rewrite (put_cell_twice _ _ zeroed).
    + by apply put_cell_disjoint.
    + by eapply put_cell_at.
Qed.

(** A filled array, and one that is given up. *)
Lemma filling_done left out h e vs cells rest H :
  filling left out h e vs cells rest H →
  ∃ hv, owns (S left) (RESP_ARRAY vs) (array_cell e (length cells)) hv ∧ hv ##ₘ h ∧
    H = hv ∪ put_cell out (array_cell e (length cells)) h.
Proof. intros (hs & own & Ho & Hl & Hown & Hd & ->). exists own. split; [|done]. by exists e, cells, rest, hs. Qed.

Lemma filling_clear left out h e vs cells rest H :
  filling left out h e vs cells rest H → S left ≤ CLEAR_DEPTH → value_clear CLEAR_DEPTH out H = Ret (tt, h).
Proof.
  intros HF Hl. pose proof HF as (_ & _ & Ho & _). apply filling_done in HF as (hv & Hv & Hd & ->).
  rewrite (value_clear_run _ (S left) (RESP_ARRAY vs) (array_cell e (length cells)) hv); [|done|done|by apply put_cell_disjoint|by eapply put_cell_at].
  by rewrite (put_cell_twice _ _ zeroed), put_cell_id.
Qed.

Lemma filling_start left out h :
  cell_at h out zeroed → filling left out h None [] [] [] (put_cell out (array_cell None 0) h).
Proof.
  intros Ho. exists ∅, ∅. split_and!; [done|constructor|done|apply map_disjoint_empty_l|]. by rewrite (left_id_L ∅ (∪)).
Qed.

(** ** The parsers *)

(** [m] parses like [r]: where [r] is a value, the structure it is given gets
    it and the heap the blocks of the value; otherwise nothing changes. *)
Definition meets (left : nat) (r : parsed (RespValue * nat)) (m : Ptr → Mem status) : Prop := ∀ out h,
  cell_at h out zeroed →
  match r with
  | RESP_PARSE_OK (v, next) =>
      ∃ c hv, owns left v c hv ∧ hv ##ₘ h ∧ m out h = Ret (OK next, hv ∪ put_cell out c h)
  | RESP_PARSE_INCOMPLETE => m out h = Ret (INCOMPLETE, h)
  | RESP_PARSE_ERROR => m out h = Ret (ERROR, h)
  | RESP_UNDEF u => m out h = Undef u
  end.

Lemma meets_bind {A} left (r : parsed A) f g :
  (∀ a, meets left (f a) (λ out, g a out)) → meets left (r ≫= f) (λ out, pure r (λ a, g a out)).
Proof. intros Hf out h Ho. destruct r; [by apply Hf|done..]. Qed.

Lemma put_type_run out h t : cell_at h out zeroed → put_type out t h = Ret (tt, put_cell out (with_type t zeroed) h).
Proof. intros Ho. unfold put_type. rewrite (bind_mem _ _ _ _ _ (load_at _ _ _ Ho)). by eapply store_at. Qed.

Lemma put_string_run out h t s :
  cell_at h out zeroed →
  ∃ l, h !! l = None ∧
    put_string out t s h = Ret (tt, {[l := Chars (s ++ [NUL])]} ∪ put_cell out (string_cell t l s) h).
Proof.
  intros Ho. unfold put_string. rewrite (bind_mem _ _ _ _ _ (load_at _ _ _ Ho)).
  rewrite (bind_mem _ _ _ _ _ (store_at _ _ _ _ Ho)). set (h1 := put_cell out _ h).
  destruct (malloc_run (Chars (s ++ [NUL])) h1) as (l & Hm & Hl). exists l.
  assert (h !! l = None) as Hl' by (apply not_elem_of_dom; apply not_elem_of_dom in Hl; unfold h1 in Hl; by rewrite put_cell_dom in Hl).
  split; [done|]. rewrite (bind_mem _ _ _ l ({[l := Chars (s ++ [NUL])]} ∪ h1))
    by (unfold xstrndup; rewrite Hm; by rewrite insert_union_singleton_l).
  assert (cell_at h1 out (with_type t zeroed)) as Hc1 by by eapply put_cell_at.
  assert ({[l := Chars (s ++ [NUL])]} ##ₘ h1) as Hd by (by apply map_disjoint_singleton_l).
  rewrite (bind_mem _ _ _ _ _ (load_at _ _ _ (cell_at_union _ _ _ _ Hd Hc1))).
  rewrite (store_at _ _ _ _ (cell_at_union _ _ _ _ Hd Hc1)), (put_cell_union _ _ _ _ _ Hd Hc1). unfold h1.
  by rewrite (put_cell_twice _ _ zeroed).
Qed.

Lemma meets_string left t v s next :
  (∀ c h, owns (S left) (v s) c h ↔ ∃ l, c = string_cell t l s ∧ h = {[l := Chars (s ++ [NUL])]}) →
  meets (S left) (RESP_PARSE_OK (v s, next)) (λ out, put_string out t s;; mret (OK next)).
Proof.
  intros Hv out h Ho. destruct (put_string_run out h t s Ho) as (l & Hl & Hr).
  exists (string_cell t l s), {[l := Chars (s ++ [NUL])]}. split; [apply Hv; by exists l|].
  split; [by apply map_disjoint_singleton_l|]. by rewrite (bind_mem _ _ _ _ _ Hr).
Qed.

Lemma meets_null left next : meets (S left) (RESP_PARSE_OK (RESP_NULL, next)) (λ out, put_type out T_NULL;; mret (OK next)).
Proof.
  intros out h Ho. exists (mkRaw T_NULL None 0 0 None 0), ∅. split; [done|]. split; [apply map_disjoint_empty_l|].
  rewrite (bind_mem _ _ _ _ _ (put_type_run _ _ _ Ho)). by rewrite (left_id_L ∅ (∪)).
Qed.

Lemma parse_bulk_meets left buf pos : meets (S left) (Resp.parse_bulk buf pos) (parse_bulk buf pos).
Proof.
  apply meets_bind. intros [blen p]. destruct (blen =? -1)%Z; [apply meets_null|].
  destruct (_ || _); [by intros out h Ho|]. destruct (_ <? _)%Z; [by intros out h Ho|]. cbv zeta.
  destruct (buf !! (p + Z.to_nat blen)) as [c|], (buf !! (p + Z.to_nat blen + 1)) as [d|]; try by intros out h Ho.
  destruct (_ && _); [|by intros out h Ho]. by apply meets_string.
Qed.

Lemma array_loop_meets left (r : nat → parsed (RespValue * nat)) pv count n p out h e vs cells rest H :
  (∀ p, meets left (r p) (pv p)) → S left ≤ CLEAR_DEPTH → count = length cells + n →
  filling left out h e vs cells rest H →
  match Resp.array_loop r n p with
  | RESP_PARSE_OK (ws, q) =>
      ∃ c hv, owns (S left) (RESP_ARRAY (vs ++ ws)) c hv ∧ hv ##ₘ h ∧
        array_loop pv count n (length cells + length rest) p out H = Ret (OK q, hv ∪ put_cell out c h)
  | RESP_PARSE_INCOMPLETE => array_loop pv count n (length cells + length rest) p out H = Ret (INCOMPLETE, h)
  | RESP_PARSE_ERROR => array_loop pv count n (length cells + length rest) p out H = Ret (ERROR, h)
  | RESP_UNDEF u => array_loop pv count n (length cells + length rest) p out H = Undef u
  end.
Proof.
  intros Hpv Hleft. revert p e vs cells rest H.
  induction n as [|n IH]; intros p e vs cells rest H Hcount HF; cbn [Resp.array_loop array_loop].
  { rewrite app_nil_r. apply filling_done in HF as (hv & Hv & Hd & ->). eexists _, hv. split; [exact Hv|]. done. }
  destruct (new_child_run left out h e vs cells rest H (Some count) HF ltac:(cbn; lia)) as (l & rest' & H1 & Hnew & HF1).
  rewrite (bind_mem _ _ _ _ _ Hnew). pose proof (filling_child _ _ _ _ _ _ _ _ _ HF1) as Hchild.
  pose proof (Hpv p (l, length cells) H1 Hchild) as Hp.
  pose proof (filling_clear _ _ _ _ _ _ _ _ HF1 Hleft) as Hclear.
  destruct (r p) as [[v p1]| | |u]; cbn [mbind parsed_bind].
  - destruct Hp as (c & hv & Hv & Hd & Hp). rewrite (bind_mem _ _ _ _ _ Hp).
    pose proof (filling_keep _ _ _ _ _ _ _ _ _ _ _ _ HF1 Hv Hd) as HF2.
    assert (cell_at (hv ∪ put_cell (l, length cells) c H1) out (array_cell (Some l) (length cells))) as Hout.
    { apply cell_at_union; [by apply put_cell_disjoint|].
      pose proof HF1 as (hs & own & Ho & _ & [_ ->] & Hdown & ->). apply map_disjoint_insert_l in Hdown as [Hlh _].
      assert (out.1 ≠ l) as Hne by (intros Heq; destruct Ho as (cs & Hcs & _); congruence).
      destruct (filling_cell _ _ _ _ _ _ _ _ HF1) as (cs & Hcs & Hi). exists cs. split; [|done].
      by rewrite put_cell_lookup_ne. }
    rewrite (bind_mem _ _ _ tt _) by (unfold keep_child; rewrite (bind_mem _ _ _ _ _ (load_at _ _ _ Hout)); by eapply store_at).
    cbn [array_cell rv_count with_count rv_type rv_str rv_len rv_integer rv_elements] in *.
    replace (length cells + S (length rest')) with (length (cells ++ [c]) + length rest') by (rewrite length_app; cbn; lia).
    specialize (IH p1 (Some l) (vs ++ [v]) (cells ++ [c]) rest' _ ltac:(rewrite length_app; cbn; lia) HF2).
    change (with_count _ (array_cell _ _)) with (array_cell (Some l) (S (length cells))) in *.
    destruct (Resp.array_loop r n p1) as [[ws q]| | |u]; [|exact IH..]. cbn. by rewrite <- app_assoc in IH.
  - rewrite (bind_mem _ _ _ _ _ Hp), (bind_mem _ _ _ _ _ Hclear). done.
  - rewrite (bind_mem _ _ _ _ _ Hp), (bind_mem _ _ _ _ _ Hclear). done.
  - unfold mbind, Prog_bind. by rewrite Hp.
Qed.

Lemma parse_array_meets left (r : nat → parsed (RespValue * nat)) pv buf pos :
  (∀ p, meets left (r p) (pv p)) → S left ≤ CLEAR_DEPTH →
  meets (S left) (Resp.parse_array r buf pos) (parse_array pv buf pos).
Proof.
  intros Hpv Hleft. apply meets_bind. intros [count p]. destruct (count =? -1)%Z; [apply meets_null|].
  destruct (_ || _); [by intros out h Ho|]. intros out h Ho.
  pose proof (array_loop_meets left r pv (Z.to_nat count) (Z.to_nat count) p out h None [] [] [] _ Hpv Hleft eq_refl
    (filling_start left out h Ho)) as Hl. cbn [length Nat.add app] in Hl.
  assert (∀ X, (put_type out T_ARRAY;; X) h = (X : Mem status) (put_cell out (array_cell None 0) h)) as Hput
    by (intros X; by rewrite (bind_mem _ _ _ _ _ (put_type_run _ _ _ Ho))).
  destruct (Resp.array_loop r (Z.to_nat count) p) as [[vs q]| | |u]; cbn [mbind parsed_bind].
  - destruct Hl as (c & hv & Hv & Hd & Hr). exists c, hv. split; [done|]. split; [done|]. by rewrite Hput.
  - by rewrite Hput.
  - by rewrite Hput.
  - by rewrite Hput.
Qed.

Lemma parse_value_meets left buf bulk_only pos :
  left ≤ CLEAR_DEPTH → meets left (Resp.parse_value left buf bulk_only pos) (parse_value left buf bulk_only pos).
Proof.
  revert pos. induction left as [|left IH]; intros pos Hleft; cbn [Resp.parse_value parse_value]; [by intros out h Ho|].
  destruct (_ <=? _); [by intros out h Ho|]. destruct (buf !! pos) as [type|]; [|by intros out h Ho]. cbv zeta.
  destruct (_ && _); [by intros out h Ho|]. destruct (bool_decide (type = "$"%char)); [apply parse_bulk_meets|].
  destruct (bool_decide (type = "*"%char)); [apply parse_array_meets; [intros p; apply IH; lia|done]|].
  destruct (bool_decide (type = "+"%char)) eqn:Hplus; cbn [orb].
  { apply meets_bind. intros cr. by apply (meets_string left T_SIMPLE_STRING RESP_SIMPLE_STRING). }
  destruct (bool_decide (type = "-"%char)).
  { apply meets_bind. intros cr. by apply (meets_string left T_ERROR RESP_ERROR). }
  destruct (bool_decide (type = ":"%char)); [|by intros out h Ho].
  apply meets_bind. intros [v next] out h Ho. exists (mkRaw T_INTEGER None 0 v None 0), ∅. split; [done|].
  split; [apply map_disjoint_empty_l|]. rewrite (left_id_L ∅ (∪)), (bind_mem _ _ _ _ _ (put_type_run _ _ _ Ho)).
  assert (cell_at (put_cell out (with_type T_INTEGER zeroed) h) out (with_type T_INTEGER zeroed)) as Hc by by eapply put_cell_at.
  rewrite (bind_mem _ _ _ _ _ (load_at _ _ _ Hc)), (bind_mem _ _ _ _ _ (store_at _ _ _ _ Hc)).
  by rewrite (put_cell_twice _ _ zeroed).
Qed.

(** *** Inline commands *)

Lemma put_cell_comm p q c d h : p.1 ≠ q.1 → put_cell p c (put_cell q d h) = put_cell q d (put_cell p c h).
Proof.
  intros Hne. unfold put_cell at 1 3. rewrite !put_cell_lookup_ne by done.
  unfold put_cell. destruct (h !! p.1) as [[]|] eqn:Hp, (h !! q.1) as [[]|] eqn:Hq; try done. by rewrite insert_insert_ne.
Qed.

Lemma inline_loop_run words left out h e vs cells rest H :
  filling (S left) out h e vs cells rest H →
  ∃ e' cells' rest' H', inline_loop words (length cells + length rest) out H = Ret (tt, H') ∧
    filling (S left) out h e' (vs ++ (RESP_BULK_STRING <$> words)) cells' rest' H'.
Proof.
  revert e vs cells rest H. induction words as [|w words IH]; intros e vs cells rest H HF; cbn [inline_loop].
  { exists e, cells, rest, H. cbn. by rewrite app_nil_r. }
  destruct (new_child_run (S left) out h e vs cells rest H None HF I) as (l & rest' & H1 & Hnew & HF1).
  rewrite (bind_mem _ _ _ _ _ Hnew). pose proof (filling_child _ _ _ _ _ _ _ _ _ HF1) as Hchild.
  pose proof (filling_cell _ _ _ _ _ _ _ _ HF1) as Hout.
  rewrite (bind_mem _ _ _ tt (put_cell out (array_cell (Some l) (S (length cells))) H1))
    by (unfold keep_child; rewrite (bind_mem _ _ _ _ _ (load_at _ _ _ Hout)); by eapply store_at).
  assert (out.1 ≠ l) as Hne.
  { destruct HF1 as (hs & own & (cs & Hcs & _) & _ & [_ ->] & Hd & _). apply map_disjoint_insert_l in Hd as [Hd _]. congruence. }
  set (H2 := put_cell out (array_cell (Some l) (S (length cells))) H1).
  assert (cell_at H2 (l, length cells) zeroed) as Hchild2.
  { destruct Hchild as (cs & Hcs & Hi). exists cs. split; [|done]. unfold H2. cbn [fst]. by rewrite put_cell_lookup_ne. }
  destruct (put_string_run _ _ T_BULK_STRING w Hchild2) as (lw & Hlw & Hput). rewrite (bind_mem _ _ _ _ _ Hput).
  assert (H1 !! lw = None) as Hlw1 by (apply not_elem_of_dom; apply not_elem_of_dom in Hlw; unfold H2 in Hlw; by rewrite put_cell_dom in Hlw).
  assert ({[lw := Chars (w ++ [NUL])]} ##ₘ H1) as Hd1 by (by apply map_disjoint_singleton_l).
  pose proof (filling_keep _ _ _ _ _ _ _ _ _ (RESP_BULK_STRING w) (string_cell T_BULK_STRING lw w) _ HF1
    ltac:(by exists lw) Hd1) as HF2.
  rewrite (put_cell_union _ _ _ (array_cell (Some l) (length cells))) in HF2.
  2: { by apply put_cell_disjoint. }
  2: { destruct Hout as (cs & Hcs & Hi). exists cs. split; [|done]. by rewrite put_cell_lookup_ne. }
  rewrite put_cell_comm in HF2 by done. fold H2 in HF2.
  replace (length cells + S (length rest')) with (length (cells ++ [string_cell T_BULK_STRING lw w]) + length rest')
    by (rewrite length_app; cbn; lia).
  destruct (IH _ _ _ _ _ HF2) as (e' & cells' & rest2 & H' & Hr & HF'). exists e', cells', rest2, H'.
  split; [exact Hr|]. rewrite fmap_cons. by rewrite <- app_assoc in HF'.
Qed.

(** ** The entry points *)

Lemma value_clear_zeroed fuel p h : cell_at h p zeroed → value_clear (S fuel) p h = Ret (tt, h).
Proof.
  intros Hp. cbn [value_clear]. rewrite (bind_mem _ _ _ _ _ (load_at _ _ _ Hp)). erewrite bind_mem by reflexivity.
  erewrite bind_mem by reflexivity. by rewrite (store_at _ _ _ _ Hp), (put_cell_id _ _ _ Hp).
Qed.

(** A fresh structure, and a heap that gives it and its value back. *)
Lemma xcalloc_run (h : Heap) : ∃ l, h !! l = None ∧ xcalloc_value h = Ret ((l, 0), <[l := Cells [Some zeroed]]> h) ∧
  cell_at (<[l := Cells [Some zeroed]]> h) (l, 0) zeroed.
Proof.
  unfold xcalloc_value. destruct (malloc_run (Cells [Some zeroed]) h) as (l & -> & Hl). exists l. split; [done|].
  split; [done|]. exists [Some zeroed]. split; [apply lookup_insert_eq|done].
Qed.

(** [value_own v p hv]: [hv] is exactly the memory of the value [v] at [p]. *)
Definition value_own (v : RespValue) (p : Ptr) (hv : Heap) : Prop := ∃ left c inner l,
  p = (l, 0) ∧ left ≤ CLEAR_DEPTH ∧ owns left v c inner ∧ over l (Cells [Some c]) inner hv.

Lemma value_own_cell l c inner hv (h : Heap) :
  over l (Cells [Some c]) inner hv → hv ##ₘ h →
  hv ∪ h = inner ∪ <[l := Cells [Some c]]> h ∧ inner ##ₘ <[l := Cells [Some c]]> h ∧
  cell_at (<[l := Cells [Some c]]> h) (l, 0) c ∧ h !! l = None.
Proof.
  intros Ho Hd. split; [by apply over_union|]. destruct Ho as [Hl ->]. apply map_disjoint_insert_l in Hd as [Hlh Hd].
  split; [by apply map_disjoint_insert_r_2|]. split; [|done]. exists [Some c]. split; [apply lookup_insert_eq|done].
Qed.

Lemma value_own_read v p hv (h : Heap) :
  value_own v p hv → hv ##ₘ h → read_value CLEAR_DEPTH p (hv ∪ h) = Ret (v, hv ∪ h).
Proof.
  intros (left & c & inner & l & -> & Hleft & Hv & Ho) Hd. destruct (value_own_cell _ _ _ _ _ Ho Hd) as (-> & Hd' & Hc & _).
  eapply read_value_run; [done|done|by apply map_union_subseteq_l|by apply cell_at_union].
Qed.

Lemma value_own_free v p hv : value_own v p hv → frees (resp_free (Some p)) tt hv.
Proof.
  intros (left & c & inner & l & -> & Hleft & Hv & Ho) h Hd. destruct (value_own_cell _ _ _ _ _ Ho Hd) as (-> & Hd' & Hc & Hl).
  unfold resp_free. rewrite (bind_mem _ _ _ _ _ (value_clear_run _ _ _ _ _ _ _ Hv Hleft Hd' Hc)).
  unfold put_cell. cbn [fst snd]. rewrite lookup_insert_eq, insert_insert_eq. by apply free_block_own.
Qed.

(** The structure [xcalloc_value] made, once it is set. *)
Lemma parsed_own left v c hv l (h : Heap) :
  let h1 := <[l := Cells [Some zeroed]]> h in
  owns left v c hv → left ≤ CLEAR_DEPTH → h !! l = None → hv ##ₘ h1 →
  ∃ own, value_own v (l, 0) own ∧ own ##ₘ h ∧ hv ∪ put_cell (l, 0) c h1 = own ∪ h.
Proof.
  intros h1 Hv Hleft Hl [Hlv Hd]%map_disjoint_insert_r. exists (<[l := Cells [Some c]]> hv).
  split; [by exists left, c, hv, l|]. split; [by apply map_disjoint_insert_l_2|].
  unfold put_cell, h1. cbn [fst snd]. rewrite lookup_insert_eq, insert_insert_eq. cbn [list_insert insert].
  by rewrite <- insert_union_l, insert_union_r.
Qed.

(** What an entry point does to the heap: it allocates exactly its result. *)
Definition allocates (r : parsed (RespValue * nat)) (m : Mem RespMem.outcome) : Prop := ∀ h,
  match r with
  | RESP_PARSE_OK (v, n) => ∃ p own, value_own v p own ∧ own ##ₘ h ∧ m h = Ret (Parsed p n, own ∪ h)
  | RESP_PARSE_INCOMPLETE => m h = Ret (Unparsed INCOMPLETE, h)
  | RESP_PARSE_ERROR => m h = Ret (Unparsed ERROR, h)
  | RESP_UNDEF u => m h = Undef u
  end.

(** What it promises about its result and the heap. *)
Definition leak_free (r : parsed (RespValue * nat)) (m : Mem RespMem.outcome) : Prop := ∀ h,
  match r with
  | RESP_PARSE_OK (v, n) => ∃ p h', m h = Ret (Parsed p n, h') ∧ h ⊆ h' ∧ read_value CLEAR_DEPTH p h' = Ret (v, h') ∧
      resp_free (Some p) h' = Ret (tt, h)
  | RESP_PARSE_INCOMPLETE => m h = Ret (Unparsed INCOMPLETE, h)
  | RESP_PARSE_ERROR => m h = Ret (Unparsed ERROR, h)
  | RESP_UNDEF u => m h = Undef u
  end.

Lemma allocates_leak_free r m : allocates r m → leak_free r m.
Proof.
  intros Hm h. specialize (Hm h). destruct r as [[v n]| | |u]; [|done..]. destruct Hm as (p & own & Ho & Hd & Hm).
  exists p, (own ∪ h). split; [done|]. split; [by apply map_union_subseteq_r|].
  split; [by apply value_own_read|by apply (value_own_free v)].
Qed.

Lemma finish_allocates left r m :
  meets left r m → left ≤ CLEAR_DEPTH → allocates r (v ← xcalloc_value; st ← m v; finish v st).
Proof.
  intros Hm Hleft h. destruct (xcalloc_run h) as (l & Hl & Hx & Hc). pose proof (Hm (l, 0) _ Hc) as Hr.
  assert (∀ st, resp_free (Some (l, 0)) (<[l := Cells [Some zeroed]]> h) = Ret (tt, h) →
    (resp_free (Some (l, 0));; mret (Unparsed st)) (<[l := Cells [Some zeroed]]> h) = Ret (Unparsed st, h)) as Hun
    by (intros st Hf; by rewrite (bind_mem _ _ _ _ _ Hf)).
  assert (resp_free (Some (l, 0)) (<[l := Cells [Some zeroed]]> h) = Ret (tt, h)) as Hf.
  { unfold resp_free, CLEAR_DEPTH. rewrite (bind_mem _ _ _ _ _ (value_clear_zeroed _ _ _ Hc)). by apply free_block_own. }
  destruct r as [[v n]| | |u].
  - destruct Hr as (c & hv & Hv & Hd & Hr). destruct (parsed_own left v c hv l h) as (own & Ho & Hdo & He); [done..|].
    rewrite He in Hr. exists (l, 0), own. by rewrite (bind_mem _ _ _ _ _ Hx), (bind_mem _ _ _ _ _ Hr).
  - rewrite (bind_mem _ _ _ _ _ Hx), (bind_mem _ _ _ _ _ Hr). by apply Hun.
  - rewrite (bind_mem _ _ _ _ _ Hx), (bind_mem _ _ _ _ _ Hr). by apply Hun.
  - rewrite (bind_mem _ _ _ _ _ Hx). unfold mbind, Prog_bind. by rewrite Hr.
Qed.

Lemma parse_inline_allocates buf : allocates (Resp.parse_inline buf) (parse_inline buf).
Proof.
  unfold Resp.parse_inline, parse_inline. destruct (find_nl buf) as [nl|]; [|by destruct (_ <? _)%Z].
  destruct (_ <? _)%Z; [done|]. intros h. cbv zeta. set (words := inline_words _ _).
  destruct (xcalloc_run h) as (l & Hl & Hx & Hc). rewrite (bind_mem _ _ _ _ _ Hx).
  rewrite (bind_mem _ _ _ _ _ (put_type_run _ _ T_ARRAY Hc)).
  destruct (inline_loop_run words 0 _ _ _ _ _ _ _ (filling_start 1 _ _ Hc)) as (e & cells & rest & H' & Hr & HF).
  cbn [length Nat.add app] in Hr, HF. rewrite (bind_mem _ _ _ _ _ Hr).
  apply filling_done in HF as (hv & Hv & Hd & ->).
  destruct (parsed_own 2 _ _ hv l h Hv) as (own & Ho & Hdo & He); [unfold CLEAR_DEPTH; lia|done..|].
  rewrite He. by exists (l, 0), own.
Qed.

Lemma command_allocates buf : allocates (Resp.resp_parse_command buf) (resp_parse_command buf).
Proof.
  unfold Resp.resp_parse_command, resp_parse_command. destruct buf as [|c buf]; [done|].
  destruct (bool_decide (c ≠ "*"%char)); [apply parse_inline_allocates|].
  apply (finish_allocates (S RESP_MAX_DEPTH)); [|unfold CLEAR_DEPTH; lia].
  apply meets_bind. intros [count p]. destruct (_ <? _)%Z; [by intros out h Ho|].
  apply parse_array_meets; [|unfold CLEAR_DEPTH; lia]. intros q. apply parse_value_meets. unfold CLEAR_DEPTH. lia.
Qed.

(** C11: the parsers neither leak nor free anything twice, on any input and any
    heap.  They return exactly what [Resp] computes.  With a value, the heap has
    only grown, by blocks from which exactly this value is read back, and
    [resp_free] on the result returns exactly the heap from before; without one
    the heap is unchanged, whatever had been allocated for the part that was
    parsed.  No pointer is dangling, no structure is read before it is set, and
    no write leaves a block. *)
Theorem resp_memory_exact (buf : bytes) :
  leak_free (Resp.resp_parse_command buf) (resp_parse_command buf) ∧
  leak_free (Resp.resp_parse_reply buf) (resp_parse_reply buf).
Proof.
  split; apply allocates_leak_free; [apply command_allocates|]. apply (finish_allocates (S RESP_MAX_DEPTH)); [|unfold CLEAR_DEPTH; lia].
  apply parse_value_meets. unfold CLEAR_DEPTH. lia.
Qed.

End RespMemProps.
