(* ===== verification/Chain.v ===== *)
(** * Chained hash tables

    [store.c] has three chained hash tables: the keyspace, the fields of a
    hash and the member index of a sorted set.  The loops that walk and change
    a chain are modelled in each component's file; this file has their common
    theory.  A table is a list of chains, an interface ([Keyed]) says what an
    entry's key and value are, and a well-formed table represents a finite
    map. *)

From S2P Require Import Prelude CLib.

(** What a chained table needs to know of its entries. *)
Class Keyed (E V : Type) := {
  ekey : E → bytes;
  evalue : E → V;
}.

Section chain.
Context {E V : Type} {KE : Keyed E V}.
Implicit Types (c : list E) (bs : list (list E)) (k : bytes).

(** The first entry of a chain with key [k], the chain without it, and the
    chain with it changed in place. *)
Fixpoint chain_find k c : option E :=
  match c with
  | [] => None
  | e :: c' => if streq (ekey e) k then Some e else chain_find k c'
  end.

Fixpoint chain_remove k c : list E :=
  match c with
  | [] => []
  | e :: c' => if streq (ekey e) k then c' else e :: chain_remove k c'
  end.

Fixpoint chain_update k (f : E → E) c : list E :=
  match c with
  | [] => []
  | e :: c' => if streq (ekey e) k then f e :: c' else e :: chain_update k f c'
  end.

(** The finite map a collection of entries stands for. *)
Definition entry_map c : gmap bytes V := list_to_map ((λ e, (ekey e, evalue e)) <$> c).

Definition tbl_map bs : gmap bytes V := entry_map (concat bs).

(** Every key has a slot, every entry is in the slot of its key, and no key
    occurs twice. *)
Record tbl_wf (slot : bytes → nat) bs : Prop := {
  tbl_slot_range k : slot k < length bs;
  tbl_slot i c e : bs !! i = Some c → e ∈ c → slot (ekey e) = i;
  tbl_nodup : NoDup (ekey <$> concat bs);
}.

(** ** Chains *)

Lemma chain_find_Some k c e : chain_find k c = Some e → e ∈ c ∧ ekey e = k.
Proof.
  induction c as [|x c IH]; simpl; [done|].
  destruct (streq (ekey x) k) eqn:Hx.
  - intros [= ->]. split; [constructor | by apply streq_true].
  - intros [? ?]%IH. split; [by constructor | done].
Qed.

Lemma chain_find_None k c : chain_find k c = None → ∀ e, e ∈ c → ekey e ≠ k.
Proof.
  induction c as [|x c IH]; simpl; [by inversion 2|].
  destruct (streq (ekey x) k) eqn:Hx; [done|].
  intros Hf e [->|He]%elem_of_cons; [|by apply IH].
  intros <-. by rewrite streq_refl in Hx.
Qed.

Lemma chain_find_perm k c e : chain_find k c = Some e → c ≡ₚ e :: chain_remove k c.
Proof.
  induction c as [|x c IH]; simpl; [done|].
  destruct (streq (ekey x) k); [by intros [= ->]|].
  intros H%IH. rewrite H at 1. apply Permutation_swap.
Qed.

Lemma chain_update_perm k f c e :
  chain_find k c = Some e → chain_update k f c ≡ₚ f e :: chain_remove k c.
Proof.
  induction c as [|x c IH]; simpl; [done|].
  destruct (streq (ekey x) k); [by intros [= ->]|].
  intros H%IH. rewrite H at 1. apply Permutation_swap.
Qed.

Lemma chain_remove_subset k c e : e ∈ chain_remove k c → e ∈ c.
Proof.
  induction c as [|x c IH]; simpl; [done|]. case_match; [by constructor|].
  intros [->|?]%elem_of_cons; constructor; auto.
Qed.

Lemma chain_remove_None k c : chain_find k c = None → chain_remove k c = c.
Proof. induction c as [|x c IH]; simpl; [done|]. case_match; [done|]. intros Hn. by rewrite IH. Qed.

(** ** Maps of entries *)

Lemma keys_fst c : ((λ e, (ekey e, evalue e)) <$> c).*1 = ekey <$> c.
Proof. rewrite <- list_fmap_compose. by apply list_fmap_ext. Qed.

Lemma entry_map_perm c c' : NoDup (ekey <$> c) → c ≡ₚ c' → entry_map c = entry_map c'.
Proof.
  intros Hnd Hp. apply list_to_map_proper; [by rewrite keys_fst|]. by apply fmap_Permutation.
Qed.

Lemma entry_map_cons e c : entry_map (e :: c) = <[ekey e := evalue e]> (entry_map c).
Proof. done. Qed.

Lemma entry_map_None k c : (∀ e, e ∈ c → ekey e ≠ k) → entry_map c !! k = None.
Proof.
  intros H. apply not_elem_of_list_to_map_1. rewrite keys_fst.
  intros (e & -> & He)%list_elem_of_fmap. by eapply H.
Qed.

Lemma entry_map_delete e c :
  NoDup (ekey <$> e :: c) → entry_map c = delete (ekey e) (entry_map (e :: c)).
Proof.
  intros [Hn _]%NoDup_cons. rewrite entry_map_cons, delete_insert_id; [done|].
  apply entry_map_None. intros e' He' Heq. apply Hn. rewrite <- Heq. by apply list_elem_of_fmap_2.
Qed.

Lemma entry_map_size c : NoDup (ekey <$> c) → size (entry_map c) = length c.
Proof.
  intros Hnd. unfold entry_map. rewrite <- length_map_to_list.
  rewrite map_to_list_to_map by by rewrite keys_fst. apply length_fmap.
Qed.

Lemma entry_map_lookup c k v :
  NoDup (ekey <$> c) → entry_map c !! k = Some v ↔ ∃ e, e ∈ c ∧ ekey e = k ∧ evalue e = v.
Proof.
  intros Hnd. unfold entry_map. rewrite <- elem_of_list_to_map by by rewrite keys_fst.
  rewrite list_elem_of_fmap. split.
  - intros (e & [= -> ->] & He). eauto.
  - intros (e & He & <- & <-). eauto.
Qed.

(** ** Tables *)

Context (slot : bytes → nat).

Lemma tbl_chain bs k : tbl_wf slot bs → bs !! slot k = Some (bs !!! slot k).
Proof. intros Hwf. apply list_lookup_lookup_total_lt, (tbl_slot_range _ _ Hwf). Qed.

Lemma tbl_elem bs e : tbl_wf slot bs → e ∈ concat bs ↔ e ∈ bs !!! slot (ekey e).
Proof.
  intros Hwf. rewrite elem_of_concat. split.
  - intros (c & He & Hc). apply list_elem_of_lookup in Hc as [i Hi].
    rewrite (tbl_slot _ _ Hwf _ _ _ Hi He). by rewrite (list_lookup_total_correct _ _ _ Hi).
  - intros He. exists (bs !!! slot (ekey e)). split; [done|].
    apply list_elem_of_lookup. eexists. by apply tbl_chain.
Qed.

(** Looking a key up in its chain is looking it up in the map. *)
Lemma tbl_lookup bs k :
  tbl_wf slot bs → tbl_map bs !! k = evalue <$> chain_find k (bs !!! slot k).
Proof.
  intros Hwf. destruct (chain_find k _) as [e|] eqn:Hf; simpl.
  - apply chain_find_Some in Hf as [He <-]. apply entry_map_lookup; [apply (tbl_nodup _ _ Hwf)|].
    exists e. split_and!; [by apply tbl_elem|done|done].
  - apply entry_map_None. intros e He Hk. subst k. apply tbl_elem in He; [|done].
    by eapply chain_find_None in Hf.
Qed.

Lemma tbl_size bs : tbl_wf slot bs → size (tbl_map bs) = length (concat bs).
Proof. intros Hwf. apply entry_map_size, (tbl_nodup _ _ Hwf). Qed.

(** Replacing one chain: the other entries stay. *)
Lemma tbl_set_wf bs k c' :
  tbl_wf slot bs → (∀ e, e ∈ c' → slot (ekey e) = slot k) →
  NoDup (ekey <$> concat (<[slot k := c']> bs)) → tbl_wf slot (<[slot k := c']> bs).
Proof.
  intros Hwf Hc' Hnd. split; [|intros i c e|done].
  - intros k'. rewrite length_insert. apply (tbl_slot_range _ _ Hwf).
  - rewrite list_lookup_insert_Some. intros [(<- & <- & _)|[_ Hi]] He; [by apply Hc'|].
    by eapply (tbl_slot _ _ Hwf).
Qed.

Lemma tbl_chain_slot bs k e : tbl_wf slot bs → e ∈ bs !!! slot k → slot (ekey e) = slot k.
Proof. intros Hwf He. eapply (tbl_slot _ _ Hwf); [by apply tbl_chain|done]. Qed.

Lemma tbl_insert bs e :
  tbl_wf slot bs → chain_find (ekey e) (bs !!! slot (ekey e)) = None →
  let bs' := <[slot (ekey e) := e :: bs !!! slot (ekey e)]> bs in
  tbl_wf slot bs' ∧ tbl_map bs' = <[ekey e := evalue e]> (tbl_map bs) ∧
  concat bs' ≡ₚ e :: concat bs.
Proof.
  intros Hwf Hn bs'. set (k := ekey e) in *.
  assert (concat bs' ≡ₚ e :: concat bs) as Hp.
  { destruct (concat_insert bs (slot k) (e :: bs !!! slot k) (tbl_slot_range _ _ Hwf k)) as (r & H1 & H2).
    unfold bs'. rewrite H2, H1. done. }
  assert (NoDup (ekey <$> concat bs')) as Hnd.
  { rewrite Hp. simpl. apply NoDup_cons. split; [|apply (tbl_nodup _ _ Hwf)].
    intros (e' & Hk & He')%list_elem_of_fmap. apply tbl_elem in He'; [|done].
    rewrite <- Hk in He'. by apply (chain_find_None _ _ Hn e' He'). }
  split_and!; [|by apply (entry_map_perm _ _ Hnd Hp)|done].
  apply tbl_set_wf; [done| |done]. intros e' [->|He']%elem_of_cons; [done|].
  by eapply tbl_chain_slot.
Qed.

Lemma tbl_remove bs k e :
  tbl_wf slot bs → chain_find k (bs !!! slot k) = Some e →
  let bs' := <[slot k := chain_remove k (bs !!! slot k)]> bs in
  tbl_wf slot bs' ∧ tbl_map bs' = delete k (tbl_map bs) ∧ concat bs ≡ₚ e :: concat bs'.
Proof.
  intros Hwf Hf bs'.
  assert (concat bs ≡ₚ e :: concat bs') as Hp.
  { destruct (concat_insert bs (slot k) (chain_remove k (bs !!! slot k)) (tbl_slot_range _ _ Hwf k)) as (r & H1 & H2).
    unfold bs'. rewrite H2, H1. by rewrite (chain_find_perm _ _ _ Hf) at 1. }
  pose proof (tbl_nodup _ _ Hwf) as Hnd. rewrite Hp in Hnd.
  split_and!; [| |done].
  - apply tbl_set_wf; [done| |by apply NoDup_cons in Hnd as [_ ?]].
    intros e' He'%chain_remove_subset. by eapply tbl_chain_slot.
  - apply chain_find_Some in Hf as [_ <-]. unfold tbl_map. rewrite (entry_map_delete e) by done.
    f_equal. symmetry. apply entry_map_perm; [apply (tbl_nodup _ _ Hwf)|done].
Qed.

Lemma tbl_update bs k e f :
  tbl_wf slot bs → chain_find k (bs !!! slot k) = Some e → ekey (f e) = ekey e →
  let bs' := <[slot k := chain_update k f (bs !!! slot k)]> bs in
  tbl_wf slot bs' ∧ tbl_map bs' = <[k := evalue (f e)]> (tbl_map bs) ∧
  ∃ l, concat bs ≡ₚ e :: l ∧ concat bs' ≡ₚ f e :: l.
Proof.
  intros Hwf Hf Hk bs'. pose proof (chain_find_Some _ _ _ Hf) as [Hin He].
  destruct (concat_insert bs (slot k) (chain_update k f (bs !!! slot k)) (tbl_slot_range _ _ Hwf k)) as (r & H1 & H2).
  fold bs' in H2. rewrite (chain_find_perm _ _ _ Hf) in H1. rewrite (chain_update_perm _ _ _ _ Hf) in H2.
  pose proof (tbl_nodup _ _ Hwf) as Hnd. rewrite H1 in Hnd. simpl in Hnd.
  assert (NoDup (ekey <$> concat bs')) as Hnd' by (rewrite H2; simpl; by rewrite Hk).
  split_and!; [| |by eexists].
  - apply tbl_set_wf; [done| |done]. intros e' He'.
    rewrite (chain_update_perm _ _ _ _ Hf) in He'. apply elem_of_cons in He' as [->|He'].
    + by rewrite Hk, He.
    + apply chain_remove_subset in He'. by eapply tbl_chain_slot.
  - unfold tbl_map. rewrite (entry_map_perm _ _ Hnd' H2).
    rewrite (entry_map_perm _ _ (tbl_nodup _ _ Hwf) H1). simpl. rewrite !entry_map_cons, Hk, He.
    by rewrite insert_insert_eq.
Qed.

Lemma tbl_empty n : (∀ k, slot k < n) → tbl_wf slot (replicate n []) ∧ tbl_map (replicate n []) = ∅.
Proof.
  intros Hs. assert (concat (replicate n ([] : list E)) = []) as Hc by (clear; induction n; done).
  split; [split|].
  - intros k. rewrite length_replicate. apply Hs.
  - intros i c e [-> _]%lookup_replicate. by inversion 1.
  - rewrite Hc. constructor.
  - unfold tbl_map. by rewrite Hc.
Qed.

End chain.

(** ** Rehashing

    [store_grow] and [zindex_add] push every entry of the old chains, in
    order, to the front of its chain in a new array. *)
Section rehash.
Context {E V : Type} {KE : Keyed E V}.
Context (slot_of : E → nat).

Definition rehash_entry (nb : list (list E)) (e : E) : list (list E) :=
  <[slot_of e := e :: nb !!! slot_of e]> nb.

Definition rehash (bs : list (list E)) (n : nat) : list (list E) :=
  foldl rehash_entry (replicate n []) (concat bs).

Lemma rehash_spec slot bs n :
  (∀ k, slot k < n) → (∀ e, e ∈ concat bs → slot_of e = slot (ekey e)) →
  NoDup (ekey <$> concat bs) →
  tbl_wf slot (rehash bs n) ∧ length (rehash bs n) = n ∧ concat (rehash bs n) ≡ₚ concat bs.
Proof.
  intros Hr Hs Hnd. unfold rehash.
  assert (∀ l nb, (∀ e, e ∈ l → slot_of e = slot (ekey e)) → NoDup (ekey <$> (l ++ concat nb)) →
    tbl_wf slot nb → length nb = n →
    let nb' := foldl rehash_entry nb l in
    tbl_wf slot nb' ∧ length nb' = n ∧ concat nb' ≡ₚ l ++ concat nb) as H.
  { clear bs Hs Hnd. induction l as [|e l IH]; intros nb Hs Hnd Hwf Hl; simpl; [done|].
    assert (chain_find (ekey e) (nb !!! slot (ekey e)) = None) as Hn.
    { destruct (chain_find _ _) as [e'|] eqn:Hf; [|done]. exfalso.
      apply chain_find_Some in Hf as [Hin Hk]. simpl in Hnd. apply NoDup_cons in Hnd as [Hnd _].
      apply Hnd. rewrite <- Hk. apply list_elem_of_fmap_2, elem_of_app. right.
      apply (tbl_elem slot); [done|]. by rewrite Hk. }
    destruct (tbl_insert slot nb e Hwf Hn) as (Hwf' & _ & Hp).
    assert (rehash_entry nb e = <[slot (ekey e) := e :: nb !!! slot (ekey e)]> nb) as Hre
      by (unfold rehash_entry; by rewrite (Hs e ltac:(by left))).
    rewrite Hre.
    destruct (IH (<[slot (ekey e) := e :: nb !!! slot (ekey e)]> nb)) as (? & ? & Hp'); [|  |done| |].
    - intros e' He'. apply Hs. by right.
    - rewrite Hp. simpl in Hnd. by rewrite <- Permutation_middle.
    - by rewrite length_insert.
    - split_and!; [done|done|]. rewrite Hp', Hp. symmetry. apply Permutation_middle. }
  destruct (tbl_empty (E := E) slot n Hr) as [Hwf0 _].
  assert (concat (replicate n ([] : list E)) = []) as Hc by (clear; induction n; done).
  specialize (H (concat bs) (replicate n []) Hs). rewrite Hc, app_nil_r in H.
  apply H; [done|done|apply length_replicate].
Qed.
End rehash.

(** ** Slots by masking

    [h & (size - 1)] with [size] a power of two. *)
Definition mask_slot (size : nat) (h : Z) : nat := Z.to_nat (Z.land h (Z.of_nat size - 1)).

Lemma mask_slot_lt j h : mask_slot (2 ^ j) h < 2 ^ j.
Proof.
  unfold mask_slot. rewrite Nat2Z.inj_pow. change (Z.of_nat 2) with 2%Z.
  replace (2 ^ Z.of_nat j - 1)%Z with (Z.ones (Z.of_nat j)) by (rewrite Z.ones_equiv; lia).
  rewrite Z.land_ones by lia. pose proof (Z.mod_pos_bound h (2 ^ Z.of_nat j) ltac:(lia)).
  apply Nat2Z.inj_lt. rewrite Z2Nat.id by lia. rewrite Nat2Z.inj_pow. change (Z.of_nat 2) with 2%Z. lia.
Qed.
