(* ===== verification/FieldHash.v ===== *)
(** * Hash values and the hash type of store.c

    [hash_key] (djb2 on 32 bits) and [hash64] (FNV-1a on 64 bits), and the
    [Hash] structure: 64 chains of fields.  The parts of [store_hash_set],
    [store_hash_get] and [store_hash_del] that work on the [Hash] itself are
    here; the keyspace around them is in [Store]. *)

From S2P Require Import Prelude CLib Chain.

Module FieldHash.

(** ** Hash functions *)

(** [h = ((h << 5) + h) + (unsigned char)*key] on [unsigned int]. *)
Definition hash_key_step (h : Z) (c : ascii) : Z :=
  u32 (u32 (u32 (Z.shiftl h 5) + h) + code c).

Definition hash_key (key : bytes) (num_buckets : nat) : nat :=
  Z.to_nat (foldl hash_key_step 5381%Z key `mod` Z.of_nat num_buckets)%Z.

(** [h ^= (unsigned char)*key++; h *= 1099511628211ULL;] on [uint64_t]. *)
Definition hash64_step (h : Z) (c : ascii) : Z :=
  u64 (Z.lxor h (code c) * 1099511628211).

Definition hash64 (key : bytes) : Z := foldl hash64_step 1469598103934665603%Z key.

Lemma hash_key_lt key n : 0 < n → hash_key key n < n.
Proof.
  intros Hn. unfold hash_key.
  pose proof (Z.mod_pos_bound (foldl hash_key_step 5381%Z key) (Z.of_nat n) ltac:(lia)). lia.
Qed.

Lemma hash64_range key : (0 ≤ hash64 key < 2 ^ 64)%Z.
Proof.
  unfold hash64. destruct key as [|c key _] using rev_ind; [done|].
  rewrite foldl_app. simpl. apply u64_range.
Qed.

(** ** The structure *)

Definition HASH_NUM_BUCKETS : nat := 64.

Record HashField := mkHashField { hf_field : bytes; hf_value : bytes }.

Record Hash := mkHash { hash_buckets : list (list HashField); hash_len : nat }.

#[export] Instance hash_field_keyed : Keyed HashField bytes :=
  {| ekey := hf_field; evalue := hf_value |}.

Definition hash_slot (field : bytes) : nat := hash_key field HASH_NUM_BUCKETS.

(** [xcalloc(1, sizeof(Hash))] *)
Definition hash_empty : Hash :=
  {| hash_buckets := replicate HASH_NUM_BUCKETS []; hash_len := 0 |}.

(** The overwrite loop of [store_hash_set]: the chain with the field's value
    replaced, if the field is there. *)
Fixpoint hset_loop (c : list HashField) (field value : bytes) : option (list HashField) :=
  match c with
  | [] => None
  | hf :: c' =>
      if streq (hf_field hf) field
      then Some ({| hf_field := hf_field hf; hf_value := value |} :: c')
      else cons hf <$> hset_loop c' field value
  end.

(** [store_hash_set] on the hash: the new hash and [*created]. *)
Definition hash_put (h : Hash) (field value : bytes) : Hash * Z :=
  let slot := hash_slot field in
  match hset_loop (hash_buckets h !!! slot) field value with
  | Some c' => ({| hash_buckets := <[slot := c']> (hash_buckets h); hash_len := hash_len h |}, 0%Z)
  | None =>
      ({| hash_buckets :=
            <[slot := {| hf_field := field; hf_value := value |} :: hash_buckets h !!! slot]>
              (hash_buckets h);
          hash_len := S (hash_len h) |}, 1%Z)
  end.

Fixpoint hget_loop (c : list HashField) (field : bytes) : option bytes :=
  match c with
  | [] => None
  | hf :: c' => if streq (hf_field hf) field then Some (hf_value hf) else hget_loop c' field
  end.

(** [store_hash_get] on the hash. *)
Definition hash_get (h : Hash) (field : bytes) : option bytes :=
  hget_loop (hash_buckets h !!! hash_slot field) field.

(** The unlink loop of [store_hash_del]: the chain without the field, if it
    was there. *)
Fixpoint hdel_loop (c : list HashField) (field : bytes) : option (list HashField) :=
  match c with
  | [] => None
  | hf :: c' => if streq (hf_field hf) field then Some c' else cons hf <$> hdel_loop c' field
  end.

(** [store_hash_del] on the hash: the new hash and [*deleted]. *)
Definition hash_del (h : Hash) (field : bytes) : Hash * Z :=
  let slot := hash_slot field in
  match hdel_loop (hash_buckets h !!! slot) field with
  | Some c' =>
      ({| hash_buckets := <[slot := c']> (hash_buckets h); hash_len := hash_len h - 1 |}, 1%Z)
  | None => (h, 0%Z)
  end.

(** The fields in the order HGETALL visits them. *)
Definition hash_fields (h : Hash) : list HashField := concat (hash_buckets h).

(** ** Invariant and abstraction *)

Record hash_wf (h : Hash) : Prop := {
  hash_tbl : tbl_wf hash_slot (hash_buckets h);
  hash_size : length (hash_buckets h) = HASH_NUM_BUCKETS;
  hash_count : hash_len h = length (concat (hash_buckets h));
}.

Definition hash_map (h : Hash) : gmap bytes bytes := tbl_map (hash_buckets h).

(** ** The loops are the generic chain operations *)

Lemma hset_loop_chain c field value :
  hset_loop c field value =
  match chain_find field c with
  | Some _ => Some (chain_update field (λ hf, {| hf_field := hf_field hf; hf_value := value |}) c)
  | None => None
  end.
Proof.
  induction c as [|hf c IH]; simpl; [done|]. change (ekey hf) with (hf_field hf). destruct (streq (hf_field hf) field); [done|].
  rewrite IH. by destruct (chain_find field c).
Qed.

Lemma hget_loop_chain c field : hget_loop c field = hf_value <$> chain_find field c.
Proof. induction c as [|hf c IH]; simpl; [done|]. change (ekey hf) with (hf_field hf). by destruct (streq (hf_field hf) field). Qed.

Lemma hdel_loop_chain c field :
  hdel_loop c field =
  match chain_find field c with Some _ => Some (chain_remove field c) | None => None end.
Proof.
  induction c as [|hf c IH]; simpl; [done|]. change (ekey hf) with (hf_field hf). destruct (streq (hf_field hf) field); [done|].
  rewrite IH. by destruct (chain_find field c).
Qed.

Lemma hash_slot_lt field : hash_slot field < HASH_NUM_BUCKETS.
Proof. apply hash_key_lt. unfold HASH_NUM_BUCKETS. lia. Qed.

(** ** Operations refine the finite map *)

Lemma hash_empty_spec : hash_wf hash_empty ∧ hash_map hash_empty = ∅.
Proof.
  destruct (tbl_empty (E := HashField) hash_slot HASH_NUM_BUCKETS hash_slot_lt) as [H1 H2].
  split; [|exact H2]. by split.
Qed.

Lemma hash_get_spec h field : hash_wf h → hash_get h field = hash_map h !! field.
Proof. intros Hwf. unfold hash_get, hash_map. by rewrite hget_loop_chain, (tbl_lookup hash_slot _ _ (hash_tbl _ Hwf)). Qed.

Lemma hash_put_spec h field value :
  hash_wf h →
  let '(h', created) := hash_put h field value in
  hash_wf h' ∧ hash_map h' = <[field := value]> (hash_map h) ∧
  created = (match hash_map h !! field with Some _ => 0 | None => 1 end)%Z.
Proof.
  intros Hwf. unfold hash_put. rewrite hset_loop_chain. pose proof (hash_tbl _ Hwf) as Ht.
  assert (hash_map h !! field = hf_value <$> chain_find field (hash_buckets h !!! hash_slot field)) as ->
    by apply (tbl_lookup hash_slot _ field Ht).
  destruct (chain_find field _) as [hf|] eqn:Hf; simpl.
  - destruct (tbl_update hash_slot _ _ _ (λ hf, {| hf_field := hf_field hf; hf_value := value |}) Ht Hf eq_refl)
      as (Hwf' & Hm & l & Hp & Hp').
    split_and!; [split; simpl|exact Hm|done]; [done|by rewrite length_insert, (hash_size _ Hwf)|].
    by rewrite (hash_count _ Hwf), (Permutation_length Hp), (Permutation_length Hp').
  - destruct (tbl_insert hash_slot _ {| hf_field := field; hf_value := value |} Ht Hf) as (Hwf' & Hm & Hp).
    split_and!; [split; simpl|exact Hm|done]; [done|by rewrite length_insert, (hash_size _ Hwf)|].
    rewrite (hash_count _ Hwf). symmetry. apply (Permutation_length Hp).
Qed.

Lemma hash_del_spec h field :
  hash_wf h →
  let '(h', deleted) := hash_del h field in
  hash_wf h' ∧ hash_map h' = delete field (hash_map h) ∧
  deleted = (match hash_map h !! field with Some _ => 1 | None => 0 end)%Z.
Proof.
  intros Hwf. unfold hash_del. rewrite hdel_loop_chain. pose proof (hash_tbl _ Hwf) as Ht.
  assert (hash_map h !! field = hf_value <$> chain_find field (hash_buckets h !!! hash_slot field)) as ->
    by apply (tbl_lookup hash_slot _ field Ht).
  destruct (chain_find field _) as [hf|] eqn:Hf; simpl.
  - destruct (tbl_remove hash_slot _ _ _ Ht Hf) as (Hwf' & Hm & Hp).
    split_and!; [split; simpl|exact Hm|done]; [done|by rewrite length_insert, (hash_size _ Hwf)|].
    rewrite (hash_count _ Hwf), (Permutation_length Hp). simpl. lia.
  - split_and!; [done| |done]. rewrite delete_id; [done|].
    unfold hash_map. by rewrite (tbl_lookup hash_slot _ field Ht), Hf.
Qed.

Lemma hash_len_spec h : hash_wf h → hash_len h = size (hash_map h).
Proof.
  intros Hwf. rewrite (hash_count _ Hwf). symmetry. apply (tbl_size hash_slot _ (hash_tbl _ Hwf)).
Qed.

#[export] Hint Resolve hash64_range hash_slot_lt : pulse.

End FieldHash.
