(* ===== verification/DList.v ===== *)
(** * The list type of store.c: a doubly linked list on a heap

    [ListNode]s live in a heap of their own, addressed by [loc]; the [List]
    header has the head and tail pointers and the length.  [list_push] and
    [list_pop] are the pointer manipulations of [store_list_push] and
    [store_list_pop]; dereferencing an address that holds no node (NULL or
    freed) is undefined behaviour.  Allocation hands out addresses never used
    before. *)

From S2P Require Import Prelude.

Module DList.

Abbreviation loc := positive.

Record ListNode := mkListNode {
  ln_value : bytes;
  ln_prev : option loc;
  ln_next : option loc;
}.

Record List := mkList {
  l_head : option loc;
  l_tail : option loc;
  l_len : nat;
  l_nodes : gmap loc ListNode;
  l_brk : loc;
}.

(** [xcalloc(1, sizeof(List))] *)
Definition list_empty : List :=
  {| l_head := None; l_tail := None; l_len := 0; l_nodes := ∅; l_brk := 1%positive |}.

Definition deref (nodes : gmap loc ListNode) (p : loc) : res ListNode :=
  match nodes !! p with Some n => Ret n | None => Undef UB_out_of_bounds end.

Definition set_prev (n : ListNode) (p : option loc) : ListNode :=
  {| ln_value := ln_value n; ln_prev := p; ln_next := ln_next n |}.

Definition set_next (n : ListNode) (p : option loc) : ListNode :=
  {| ln_value := ln_value n; ln_prev := ln_prev n; ln_next := p |}.

(** The pointer part of [store_list_push]. *)
Definition list_push (l : List) (value : bytes) (at_head : bool) : res List :=
  let node := l_brk l in
  let brk := Pos.succ (l_brk l) in
  if at_head then
    let nodes := <[node := {| ln_value := value; ln_prev := None; ln_next := l_head l |}]> (l_nodes l) in
    match l_head l with
    | Some h =>
        hn ← deref nodes h;
        Ret {| l_head := Some node; l_tail := l_tail l; l_len := S (l_len l);
               l_nodes := <[h := set_prev hn (Some node)]> nodes; l_brk := brk |}
    | None =>
        Ret {| l_head := Some node; l_tail := Some node; l_len := S (l_len l);
               l_nodes := nodes; l_brk := brk |}
    end
  else
    let nodes := <[node := {| ln_value := value; ln_prev := l_tail l; ln_next := None |}]> (l_nodes l) in
    match l_tail l with
    | Some t =>
        tn ← deref nodes t;
        Ret {| l_head := l_head l; l_tail := Some node; l_len := S (l_len l);
               l_nodes := <[t := set_next tn (Some node)]> nodes; l_brk := brk |}
    | None =>
        Ret {| l_head := Some node; l_tail := Some node; l_len := S (l_len l);
               l_nodes := nodes; l_brk := brk |}
    end.

(** The pointer part of [store_list_pop]: the value unlinked and the list
    left, or [None] when there is no node. *)
Definition list_pop (l : List) (at_head : bool) : res (option (bytes * List)) :=
  match (if at_head then l_head l else l_tail l) with
  | None => Ret None
  | Some p =>
      node ← deref (l_nodes l) p;
      if at_head then
        match ln_next node with
        | Some h =>
            hn ← deref (l_nodes l) h;
            Ret (Some (ln_value node,
              {| l_head := Some h; l_tail := l_tail l; l_len := l_len l - 1;
                 l_nodes := delete p (<[h := set_prev hn None]> (l_nodes l)); l_brk := l_brk l |}))
        | None =>
            Ret (Some (ln_value node,
              {| l_head := None; l_tail := None; l_len := l_len l - 1;
                 l_nodes := delete p (l_nodes l); l_brk := l_brk l |}))
        end
      else
        match ln_prev node with
        | Some t =>
            tn ← deref (l_nodes l) t;
            Ret (Some (ln_value node,
              {| l_head := l_head l; l_tail := Some t; l_len := l_len l - 1;
                 l_nodes := delete p (<[t := set_next tn None]> (l_nodes l)); l_brk := l_brk l |}))
        | None =>
            Ret (Some (ln_value node,
              {| l_head := None; l_tail := None; l_len := l_len l - 1;
                 l_nodes := delete p (l_nodes l); l_brk := l_brk l |}))
        end
  end.

(** [for (i = 0; i < n; i++) node = node->next;] *)
Fixpoint skip_nodes (l : List) (p : option loc) (n : nat) : res (option loc) :=
  match n with
  | O => Ret p
  | S n' =>
      match p with
      | None => Undef UB_null_deref
      | Some q => node ← deref (l_nodes l) q; skip_nodes l (ln_next node) n'
      end
  end.

(** The values of [n] nodes from [p] on, following [next]. *)
Fixpoint read_nodes (l : List) (p : option loc) (n : nat) : res (list bytes) :=
  match n with
  | O => Ret []
  | S n' =>
      match p with
      | None => Undef UB_null_deref
      | Some q =>
          node ← deref (l_nodes l) q;
          rest ← read_nodes l (ln_next node) n';
          Ret (ln_value node :: rest)
      end
  end.

(** ** Representation *)

(** [l] is the list [xs] held in the nodes at addresses [ps]. *)
Record list_rep (l : List) (ps : list loc) (xs : list bytes) : Prop := {
  rep_length : length ps = length xs;
  rep_len : l_len l = length xs;
  rep_nodup : NoDup ps;
  rep_head : l_head l = head ps;
  rep_tail : l_tail l = last ps;
  rep_node i p x : ps !! i = Some p → xs !! i = Some x →
    l_nodes l !! p = Some {| ln_value := x;
                             ln_prev := match i with O => None | S j => ps !! j end;
                             ln_next := ps !! S i |};
  rep_fresh p : is_Some (l_nodes l !! p) → (p < l_brk l)%positive;
}.

Definition list_wf (l : List) : Prop := ∃ ps xs, list_rep l ps xs.

(** The contents of a list, by walking it from the head. *)
Definition list_elems (l : List) : list bytes :=
  match read_nodes l (l_head l) (l_len l) with Ret xs => xs | Undef _ => [] end.

Lemma list_empty_rep : list_rep list_empty [] [].
Proof. split; try done; [constructor|]. intros p [? H]. simpl in H. by rewrite lookup_empty in H. Qed.

Lemma rep_lookup l ps xs i p :
  list_rep l ps xs → ps !! i = Some p → ∃ x, xs !! i = Some x.
Proof.
  intros Hr Hp. apply lookup_lt_is_Some_2. rewrite <- (rep_length _ _ _ Hr). by eapply lookup_lt_Some.
Qed.

Lemma rep_below l ps xs i p : list_rep l ps xs → ps !! i = Some p → (p < l_brk l)%positive.
Proof.
  intros Hr Hp. destruct (rep_lookup _ _ _ _ _ Hr Hp) as [x Hx].
  apply (rep_fresh _ _ _ Hr). by rewrite (rep_node _ _ _ Hr _ _ _ Hp Hx).
Qed.

Lemma rep_not_fresh l ps xs : list_rep l ps xs → l_brk l ∉ ps.
Proof.
  intros Hr [i Hi]%list_elem_of_lookup. pose proof (rep_below _ _ _ _ _ Hr Hi). lia.
Qed.

(** Following [next] from the [i]-th node reads the list from there. *)
Lemma read_nodes_rep l ps xs i n :
  list_rep l ps xs → i + n ≤ length xs → read_nodes l (ps !! i) n = Ret (take n (drop i xs)).
Proof.
  intros Hr. revert i; induction n as [|n IH]; intros i Hi; simpl; [done|].
  destruct (lookup_lt_is_Some_2 xs i) as [x Hx]; [lia|].
  destruct (lookup_lt_is_Some_2 ps i) as [p Hp]; [rewrite (rep_length _ _ _ Hr); lia|].
  rewrite Hp. unfold deref. rewrite (rep_node _ _ _ Hr _ _ _ Hp Hx). simpl.
  rewrite IH by lia. simpl. by rewrite (drop_S _ _ _ Hx).
Qed.

Lemma skip_nodes_rep l ps xs i n :
  list_rep l ps xs → i + n ≤ length xs → skip_nodes l (ps !! i) n = Ret (ps !! (i + n)).
Proof.
  intros Hr. revert i; induction n as [|n IH]; intros i Hi; simpl; [by rewrite Nat.add_0_r|].
  destruct (lookup_lt_is_Some_2 xs i) as [x Hx]; [lia|].
  destruct (lookup_lt_is_Some_2 ps i) as [p Hp]; [rewrite (rep_length _ _ _ Hr); lia|].
  rewrite Hp. unfold deref. rewrite (rep_node _ _ _ Hr _ _ _ Hp Hx). simpl.
  rewrite IH by lia. f_equal. f_equal. lia.
Qed.

Lemma head_lookup {A} (l : list A) : head l = l !! 0.
Proof. by destruct l. Qed.

Lemma list_elems_rep l ps xs : list_rep l ps xs → list_elems l = xs.
Proof.
  intros Hr. unfold list_elems. rewrite (rep_head _ _ _ Hr), (rep_len _ _ _ Hr), head_lookup.
  rewrite (read_nodes_rep _ _ _ _ _ Hr) by lia. by rewrite drop_0, take_ge.
Qed.

Lemma list_wf_elems l : list_wf l → ∃ ps, list_rep l ps (list_elems l).
Proof. intros (ps & xs & Hr). exists ps. by rewrite (list_elems_rep _ _ _ Hr). Qed.

(** ** Push and pop *)

Lemma list_push_head l ps xs v :
  list_rep l ps xs → ∃ l', list_push l v true = Ret l' ∧ list_rep l' (l_brk l :: ps) (v :: xs).
Proof.
  intros Hr. pose proof (rep_not_fresh _ _ _ Hr) as Hf. unfold list_push.
  rewrite (rep_head _ _ _ Hr). destruct ps as [|h ps]; simpl.
  - destruct xs; [|by pose proof (rep_length _ _ _ Hr)]. eexists. split; [done|].
    split; simpl; auto using NoDup_singleton.
    + by rewrite (rep_len _ _ _ Hr).
    + intros [|i] p x; [|done]. intros [= <-] [= <-]. by rewrite lookup_insert_eq.
    + intros p. rewrite lookup_insert. case_decide; [lia|].
      intros Hs%(rep_fresh _ _ _ Hr). lia.
  - destruct (rep_lookup _ _ _ 0 h Hr eq_refl) as [x0 Hx0].
    pose proof (rep_node _ _ _ Hr 0 h x0 eq_refl Hx0) as Hh. simpl in Hh.
    assert (h ≠ l_brk l) by set_solver.
    unfold deref. rewrite lookup_insert_ne, Hh by done. simpl. eexists. split; [done|].
    split; simpl.
    + by rewrite <- (rep_length _ _ _ Hr).
    + by rewrite (rep_len _ _ _ Hr).
    + constructor; [done|apply (rep_nodup _ _ _ Hr)].
    + done.
    + apply (rep_tail _ _ _ Hr).
    + intros [|[|i]] p x; simpl; intros Hp Hx.
      * simplify_eq. by rewrite lookup_insert_ne, lookup_insert_eq.
      * simplify_eq. by rewrite lookup_insert_eq.
      * assert (p ∈ ps) by (by eapply list_elem_of_lookup_2).
        pose proof (rep_nodup _ _ _ Hr) as [Hnd _]%NoDup_cons.
        rewrite !lookup_insert_ne by set_solver. by rewrite (rep_node _ _ _ Hr (S i) p x Hp Hx).
    + intros p. rewrite !lookup_insert. repeat case_decide; subst; try lia.
      * intros _. pose proof (rep_below _ _ _ 0 p Hr eq_refl). lia.
      * intros Hs%(rep_fresh _ _ _ Hr). lia.
Qed.

(** ** Mirror images

    Swapping [head] with [tail] and [prev] with [next] turns an operation at
    one end into the same operation at the other, so the proofs are done at
    the head only. *)

Definition mirror_node (n : ListNode) : ListNode :=
  {| ln_value := ln_value n; ln_prev := ln_next n; ln_next := ln_prev n |}.

Definition mirror (l : List) : List :=
  {| l_head := l_tail l; l_tail := l_head l; l_len := l_len l;
     l_nodes := mirror_node <$> l_nodes l; l_brk := l_brk l |}.

Lemma mirror_nodes_nodes (m : gmap loc ListNode) : mirror_node <$> (mirror_node <$> m) = m.
Proof.
  rewrite <- map_fmap_compose. rewrite <- (map_fmap_id m) at 2. apply map_fmap_ext. by intros ? [] ?.
Qed.

Lemma mirror_mirror l : mirror (mirror l) = l.
Proof. destruct l. unfold mirror; simpl. by rewrite mirror_nodes_nodes. Qed.

Lemma deref_mirror (m : gmap loc ListNode) p :
  deref (mirror_node <$> m) p = (n ← deref m p; Ret (mirror_node n)).
Proof. unfold deref. rewrite lookup_fmap. by destruct (m !! p). Qed.

Lemma list_push_mirror l v b :
  list_push (mirror l) v b = (l' ← list_push l v (negb b); Ret (mirror l')).
Proof.
  assert (∀ n prev next, <[n := {| ln_value := v; ln_prev := prev; ln_next := next |}]> (mirror_node <$> l_nodes l)
    = mirror_node <$> <[n := {| ln_value := v; ln_prev := next; ln_next := prev |}]> (l_nodes l)) as Hins
    by (intros; by rewrite fmap_insert).
  unfold list_push. destruct b; simpl; rewrite Hins.
  - destruct (l_tail l) as [t|]; [|done]. rewrite deref_mirror.
    destruct (deref _ t) as [tn|u]; simpl; [|done]. unfold mirror; simpl. by rewrite !fmap_insert.
  - destruct (l_head l) as [h|]; [|done]. rewrite deref_mirror.
    destruct (deref _ h) as [hn|u]; simpl; [|done]. unfold mirror; simpl. by rewrite !fmap_insert.
Qed.

Lemma list_pop_mirror l b :
  list_pop (mirror l) b =
  (o ← list_pop l (negb b);
   Ret (match o with Some (x, l') => Some (x, mirror l') | None => None end)).
Proof.
  unfold list_pop. destruct b; simpl.
  - destruct (l_tail l) as [p|]; [|done]. rewrite deref_mirror.
    destruct (deref _ p) as [n|u]; simpl; [|done]. destruct (ln_prev n) as [t|]; simpl.
    + rewrite deref_mirror. destruct (deref _ t) as [tn|u]; simpl; [|done].
      unfold mirror; simpl. by rewrite fmap_delete, fmap_insert.
    + unfold mirror; simpl. by rewrite fmap_delete.
  - destruct (l_head l) as [p|]; [|done]. rewrite deref_mirror.
    destruct (deref _ p) as [n|u]; simpl; [|done]. destruct (ln_next n) as [t|]; simpl.
    + rewrite deref_mirror. destruct (deref _ t) as [tn|u]; simpl; [|done].
      unfold mirror; simpl. by rewrite fmap_delete, fmap_insert.
    + unfold mirror; simpl. by rewrite fmap_delete.
Qed.

Lemma mirror_rep l ps xs :
  list_rep l ps xs → list_rep (mirror l) (reverse ps) (reverse xs).
Proof.
  intros Hr. pose proof (rep_length _ _ _ Hr) as Hl. split; simpl.
  - by rewrite !length_reverse.
  - by rewrite length_reverse, (rep_len _ _ _ Hr).
  - rewrite reverse_Permutation. apply (rep_nodup _ _ _ Hr).
  - by rewrite (rep_tail _ _ _ Hr), head_reverse.
  - by rewrite (rep_head _ _ _ Hr), last_reverse.
  - intros i p x Hp Hx. rewrite lookup_fmap.
    assert (i < length ps) by (apply lookup_lt_Some in Hp; by rewrite length_reverse in Hp).
    rewrite reverse_lookup in Hp by done. rewrite reverse_lookup in Hx by lia.
    rewrite <- Hl in Hx. rewrite (rep_node _ _ _ Hr _ _ _ Hp Hx). unfold mirror_node; simpl. do 2 f_equal.
    + destruct i as [|i].
      * apply lookup_ge_None_2. lia.
      * rewrite reverse_lookup by lia. f_equal. lia.
    + destruct (length ps - S i) as [|j] eqn:Hj.
      * symmetry. apply lookup_ge_None_2. rewrite length_reverse. lia.
      * rewrite reverse_lookup by lia. f_equal. lia.
  - intros p [n Hn]. rewrite lookup_fmap in Hn. apply (rep_fresh _ _ _ Hr).
    destruct (l_nodes l !! p); [by eexists|done].
Qed.

Lemma list_push_tail l ps xs v :
  list_rep l ps xs → ∃ l', list_push l v false = Ret l' ∧ list_rep l' (ps ++ [l_brk l]) (xs ++ [v]).
Proof.
  intros Hr. destruct (list_push_head _ _ _ v (mirror_rep _ _ _ Hr)) as (l' & Hp & Hr').
  exists (mirror l'). split.
  - rewrite <- (mirror_mirror l), list_push_mirror. cbn [negb]. by rewrite Hp.
  - apply mirror_rep in Hr'. by rewrite !reverse_cons, !reverse_involutive in Hr'.
Qed.

Lemma list_pop_head l ps x xs :
  list_rep l ps (x :: xs) →
  ∃ l' ps', list_pop l true = Ret (Some (x, l')) ∧ list_rep l' ps' xs.
Proof.
  intros Hr. pose proof (rep_length _ _ _ Hr) as Hl. destruct ps as [|p ps]; [done|].
  unfold list_pop, deref. rewrite (rep_head _ _ _ Hr). simpl.
  rewrite (rep_node _ _ _ Hr 0 p x eq_refl eq_refl). simpl.
  pose proof (rep_nodup _ _ _ Hr) as [Hnin Hnd]%NoDup_cons.
  pose proof (rep_fresh _ _ _ Hr) as Hfr. injection Hl as Hl.
  destruct ps as [|h ps]; simpl.
  - destruct xs; [|done]. eexists _, []. split; [done|].
    split; simpl; try done; [by rewrite (rep_len _ _ _ Hr)|].
    intros q [n Hn]. apply Hfr. rewrite lookup_delete in Hn. case_decide; [done|by eexists].
  - destruct xs as [|y xs]; [done|].
    rewrite (rep_node _ _ _ Hr 1 h y eq_refl eq_refl). simpl.
    eexists _, (h :: ps). split; [done|]. split; simpl; try done.
    + rewrite (rep_len _ _ _ Hr). simpl. lia.
    + apply (rep_tail _ _ _ Hr).
    + intros i q z Hq Hz. assert (q ≠ p) by (intros ->; apply Hnin; by eapply list_elem_of_lookup_2).
      rewrite lookup_delete_ne by done. destruct i as [|i].
      * simplify_eq/=. by rewrite lookup_insert_eq.
      * apply NoDup_cons in Hnd as [Hh _]. simpl in Hq, Hz.
        rewrite lookup_insert_ne by (intros ->; apply Hh; by eapply list_elem_of_lookup_2).
        by rewrite (rep_node _ _ _ Hr (S (S i)) q z Hq Hz).
    + intros q [n Hn]. rewrite lookup_delete, lookup_insert in Hn. repeat case_decide; [done| |].
      * subst. apply (rep_below _ _ _ 1 q Hr eq_refl).
      * apply Hfr. by eexists.
Qed.

Lemma list_pop_tail l ps x xs :
  list_rep l ps (xs ++ [x]) →
  ∃ l' ps', list_pop l false = Ret (Some (x, l')) ∧ list_rep l' ps' xs.
Proof.
  intros Hr. apply mirror_rep in Hr. rewrite reverse_snoc in Hr.
  destruct (list_pop_head _ _ _ _ Hr) as (l' & ps' & Hp & Hr').
  exists (mirror l'), (reverse ps'). split.
  - rewrite <- (mirror_mirror l), list_pop_mirror. cbn [negb]. by rewrite Hp.
  - apply mirror_rep in Hr'. by rewrite reverse_involutive in Hr'.
Qed.

Lemma list_pop_nil l ps b : list_rep l ps [] → list_pop l b = Ret None.
Proof.
  intros Hr. pose proof (rep_length _ _ _ Hr). destruct ps; [|done]. unfold list_pop.
  by rewrite (rep_head _ _ _ Hr), (rep_tail _ _ _ Hr); destruct b.
Qed.

(** ** The operations on the contents *)

Definition push_list (xs : list bytes) (v : bytes) (at_head : bool) : list bytes :=
  if at_head then v :: xs else xs ++ [v].

(** The element at one end and the rest. *)
Definition pop_list (xs : list bytes) (at_head : bool) : option (bytes * list bytes) :=
  if at_head then match xs with x :: xs' => Some (x, xs') | [] => None end
  else match last xs with Some x => Some (x, removelast xs) | None => None end.

Lemma list_push_spec l v b :
  list_wf l → ∃ l', list_push l v b = Ret l' ∧ list_wf l' ∧ list_elems l' = push_list (list_elems l) v b.
Proof.
  intros [ps Hr]%list_wf_elems. destruct b.
  - destruct (list_push_head _ _ _ v Hr) as (l' & Hp & Hr').
    exists l'. split_and!; [done|by eexists _, _|by apply list_elems_rep in Hr'].
  - destruct (list_push_tail _ _ _ v Hr) as (l' & Hp & Hr').
    exists l'. split_and!; [done|by eexists _, _|by apply list_elems_rep in Hr'].
Qed.

Lemma list_pop_spec l b :
  list_wf l →
  match pop_list (list_elems l) b with
  | None => list_pop l b = Ret None
  | Some (x, xs) => ∃ l', list_pop l b = Ret (Some (x, l')) ∧ list_wf l' ∧ list_elems l' = xs
  end.
Proof.
  intros [ps Hr]%list_wf_elems. unfold pop_list. destruct b.
  - destruct (list_elems l) as [|x xs]; [by eapply list_pop_nil|].
    destruct (list_pop_head _ _ _ _ Hr) as (l' & ps' & Hp & Hr').
    exists l'. split_and!; [done|by eexists _, _|by apply list_elems_rep in Hr'].
  - destruct (list_elems l) as [|x xs _] using rev_ind; [by eapply list_pop_nil|].
    rewrite last_snoc, removelast_last. destruct (list_pop_tail _ _ _ _ Hr) as (l' & ps' & Hp & Hr').
    exists l'. split_and!; [done|by eexists _, _|by apply list_elems_rep in Hr'].
Qed.

Lemma list_len_spec l : list_wf l → l_len l = length (list_elems l).
Proof. intros [ps Hr]%list_wf_elems. apply (rep_len _ _ _ Hr). Qed.

Lemma list_empty_spec : list_wf list_empty ∧ list_elems list_empty = [].
Proof. split; [eexists _, _; apply list_empty_rep|done]. Qed.

(** A traversal from the head reads the contents and meets no bad pointer. *)
Lemma list_range_spec l first n :
  list_wf l → first + n ≤ l_len l →
  (p ← skip_nodes l (l_head l) first; read_nodes l p n) = Ret (take n (drop first (list_elems l))).
Proof.
  intros Hwf Hn. destruct (list_wf_elems l Hwf) as [ps Hr].
  rewrite (rep_len _ _ _ Hr) in Hn. rewrite (rep_head _ _ _ Hr), head_lookup.
  rewrite (skip_nodes_rep _ _ _ 0 first Hr) by lia. simpl. by rewrite (read_nodes_rep _ _ _ _ _ Hr).
Qed.

End DList.
