(* ===== verification/Dbl.v ===== *)
(** * Doubles

    A C [double] is an IEEE 754 binary64 number, modelled by the executable
    [spec_float] of the standard library with 53 bits of precision and maximal
    exponent 1024.  This file fixes the format and proves the order facts the
    sorted sets rely on: apart from NaN, [<] and [==] form a total preorder. *)

From Stdlib Require Export SpecFloat.
From S2P Require Import Prelude.
Local Open Scope Z_scope.

Module Dbl.

Abbreviation dbl := spec_float.

Definition prec : Z := 53.
Definition emax : Z := 1024.

(** C's comparisons: all false when an operand is NaN. *)
Definition dlt (a b : dbl) : bool := SFltb a b.
Definition dle (a b : dbl) : bool := SFleb a b.
Definition deq (a b : dbl) : bool := SFeqb a b.

Definition is_nan (a : dbl) : bool := match a with S754_nan => true | _ => false end.

(** The double nearest to an integer, [(double)z] in C. *)
Definition dbl_of_Z (z : Z) : dbl := binary_normalize prec emax z 0 false.

(** A number is ordered like this triple of integers, lexicographically:
    first its class (negative infinity to positive infinity), then the
    exponent, then the mantissa. *)
Definition dkey (a : dbl) : Z * Z * Z :=
  match a with
  | S754_infinity true => (-2, 0, 0)
  | S754_finite true m e => (-1, - e, - Zpos m)
  | S754_zero _ | S754_nan => (0, 0, 0)
  | S754_finite false m e => (1, e, Zpos m)
  | S754_infinity false => (2, 0, 0)
  end.

Definition klt (a b : Z * Z * Z) : Prop :=
  a.1.1 < b.1.1 ∨ a.1.1 = b.1.1 ∧ (a.1.2 < b.1.2 ∨ a.1.2 = b.1.2 ∧ a.2 < b.2).

Lemma SFcompare_key a b :
  is_nan a = false → is_nan b = false →
  match SFcompare a b with
  | Some Lt => klt (dkey a) (dkey b)
  | Some Eq => dkey a = dkey b
  | Some Gt => klt (dkey b) (dkey a)
  | None => False
  end.
Proof.
  unfold klt. intros Ha Hb.
  destruct a as [[]|[]| |[] ma ea], b as [[]|[]| |[] mb eb]; try done; simpl; try lia.
  - destruct (Z.compare_spec ea eb) as [He|He|He]; simpl; [|lia|lia].
    fold (Pos.compare ma mb). destruct (Pos.compare_spec ma mb); simpl; subst; auto; lia.
  - destruct (Z.compare_spec ea eb) as [He|He|He]; simpl; [|lia|lia].
    fold (Pos.compare ma mb). destruct (Pos.compare_spec ma mb); simpl; subst; auto; lia.
Qed.

Lemma klt_trans a b c : klt a b → klt b c → klt a c.
Proof. unfold klt. lia. Qed.

Lemma klt_irrefl a : ¬ klt a a.
Proof. unfold klt. lia. Qed.

Lemma key_total a b : klt a b ∨ a = b ∨ klt b a.
Proof.
  destruct a as [[a1 a2] a3], b as [[b1 b2] b3]. unfold klt; simpl.
  destruct (decide (a1 = b1)); [|lia]. destruct (decide (a2 = b2)); [|lia].
  destruct (decide (a3 = b3)); [|lia]. subst. auto.
Qed.

Lemma dlt_key a b : is_nan a = false → is_nan b = false → dlt a b = true ↔ klt (dkey a) (dkey b).
Proof.
  intros Ha Hb. pose proof (SFcompare_key a b Ha Hb) as H. unfold dlt, SFltb.
  destruct (SFcompare a b) as [[]|]; [|done| |done].
  - split; [done|]. rewrite H. intros ?%klt_irrefl. done.
  - split; [done|]. intros ?. destruct (klt_irrefl (dkey a)). by eapply klt_trans.
Qed.

Lemma deq_key a b : is_nan a = false → is_nan b = false → deq a b = true ↔ dkey a = dkey b.
Proof.
  intros Ha Hb. pose proof (SFcompare_key a b Ha Hb) as H. unfold deq, SFeqb.
  destruct (SFcompare a b) as [[]|]; [done| | |done].
  - split; [done|]. intros He. rewrite He in H. by apply klt_irrefl in H.
  - split; [done|]. intros He. rewrite He in H. by apply klt_irrefl in H.
Qed.

Lemma dle_key a b :
  is_nan a = false → is_nan b = false → dle a b = true ↔ ¬ klt (dkey b) (dkey a).
Proof.
  intros Ha Hb. pose proof (SFcompare_key a b Ha Hb) as H. unfold dle, SFleb.
  destruct (SFcompare a b) as [[]|]; [| | |done].
  - split; [|done]. rewrite H. intros _. apply klt_irrefl.
  - split; [|done]. intros _ ?. destruct (klt_irrefl (dkey a)). by eapply klt_trans.
  - split; [done|]. intros []. done.
Qed.

End Dbl.
