(* ===== verification/DblText.v ===== *)
(** * Doubles as text: [strtod], [printf] and what the sources build on them

    [strtod] and the [%.Pg] and [%.Pf] conversions are modelled from the C
    standard (C locale) with the correct rounding, to nearest and ties to even,
    that the C library provides; a number is an exact ratio of integers until
    its one rounding.  [errno] is set to [ERANGE] on overflow, and on underflow
    when the result is not exact.  [parse_double] is the one of [util.c],
    [reply_double] the one of [reply.c]. *)

From S2P Require Import Prelude CLib Util Reply Dbl.
Import Util Reply Dbl.
Local Open Scope Z_scope.

Module DblText.

(** ** Rounding *)

(** The integer nearest to [n / d], ties to even. *)
Definition div_half_even (n d : Z) : Z :=
  let q := n / d in
  match 2 * (n mod d) ?= d with
  | Lt => q
  | Gt => q + 1
  | Eq => if Z.even q then q else q + 1
  end.

(** The least exponent and the first one too large of a binary64 number whose
    significand is an integer of 53 bits. *)
Definition EMIN : Z := -1074.
Definition ETOP : Z := 972.

(** [n * 2^k] over [d] as a ratio of integers. *)
Definition scale (n d k : Z) : Z * Z := (n * 2 ^ Z.max 0 k, d * 2 ^ Z.max 0 (- k)).

(** The greatest [k] with [2^k <= n / d], for positive [n] and [d]. *)
Definition log2_ratio (n d : Z) : Z :=
  let k := Z.log2 n - Z.log2 d in
  let '(a, b) := scale n d (- k) in
  if a <? b then k - 1 else k.

(** The double nearest to [n / d], for positive [n] and [d]. *)
Definition round_ratio (neg : bool) (n d : Z) : dbl :=
  let e := Z.max (log2_ratio n d - 52) EMIN in
  let '(a, b) := scale n d (- e) in
  let q := div_half_even a b in
  let '(q, e) := if q =? 2 ^ 53 then (2 ^ 52, e + 1) else (q, e) in
  match q with
  | Zpos m => if ETOP <=? e then S754_infinity neg else S754_finite neg m e
  | _ => S754_zero neg
  end.

(** Whether converting [n / d] to [v] sets [ERANGE]. *)
Definition erange (v : dbl) (n d : Z) : bool :=
  match v with
  | S754_infinity _ | S754_zero _ => true
  | S754_finite _ m e =>
      let '(a, b) := scale n d (- e) in (Zpos m <? 2 ^ 52) && negb (a =? Zpos m * b)
  | S754_nan => false
  end.

Definition convert (neg : bool) (n d : Z) : dbl * bool :=
  let v := round_ratio neg n d in (v, erange v n d).

(** ** [strtod] *)

Definition hex_val (c : ascii) : option Z :=
  if is_digit c then Some (digit_val c)
  else let l := code (tolower c) in if (97 <=? l) && (l <=? 102) then Some (l - 87) else None.

(** The longest run of hexadecimal digits: their values, and the rest. *)
Fixpoint hex_digits (s : bytes) : list Z * bytes :=
  match s with
  | [] => ([], [])
  | c :: s' => match hex_val c with
               | None => ([], s)
               | Some v => let '(ds, r) := hex_digits s' in (v :: ds, r)
               end
  end.

(** The rest of [s] after the word [w], letter case ignored. *)
Fixpoint after_word (w s : bytes) : option bytes :=
  match w, s with
  | [], _ => Some s
  | _ :: _, [] => None
  | x :: w', y :: s' => if bool_decide (tolower x = tolower y) then after_word w' s' else None
  end.

(** [e], then an optional sign and at least one digit, or nothing. *)
Definition scan_exponent (letter : bytes) (s : bytes) : Z * bytes :=
  match after_word letter s with
  | None => (0, s)
  | Some s1 =>
      let '(neg, s2) := take_sign s1 in
      match take_digits s2 with
      | [] => (0, s)
      | ds => ((if neg : bool then - dec_acc 0 ds else dec_acc 0 ds), drop_digits s2)
      end
  end.

Definition after_point (s : bytes) : option bytes :=
  match s with c :: s' => if bool_decide (c = "."%char) then Some s' else None | [] => None end.

(** Digits with an optional point: significand, exponent of ten and the rest. *)
Definition scan_decimal (s : bytes) : option (Z * Z * bytes) :=
  let ip := take_digits s in
  let '(fp, r) := match after_point (drop_digits s) with
                  | Some r => (take_digits r, drop_digits r)
                  | None => ([], drop_digits s)
                  end in
  match ip ++ fp with
  | [] => None
  | ds => let '(x, r) := scan_exponent #"e" r in
          Some (dec_acc 0 ds, x - Z.of_nat (length fp), r)
  end.

(** [0x] and hexadecimal digits: significand, exponent of two and the rest. *)
Definition scan_hex (s : bytes) : option (Z * Z * bytes) :=
  match after_word #"0x" s with
  | None => None
  | Some s1 =>
      let '(ip, r) := hex_digits s1 in
      let '(fp, r) := match after_point r with Some r' => hex_digits r' | None => ([], r) end in
      match ip ++ fp with
      | [] => None
      | ds => let '(x, r) := scan_exponent #"p" r in
              Some (foldl (λ a v, a * 16 + v) 0 ds, x - 4 * Z.of_nat (length fp), r)
      end
  end.

Definition nan_char (c : ascii) : bool :=
  is_digit c || (let l := code (tolower c) in (97 <=? l) && (l <=? 122)) || (code c =? 95).

Fixpoint nan_chars (s : bytes) : option bytes :=
  match s with
  | [] => None
  | c :: s' => if bool_decide (c = ")"%char) then Some s' else if nan_char c then nan_chars s' else None
  end.

(** [nan] may be followed by characters in parentheses. *)
Definition after_nan (s : bytes) : bytes :=
  match s with
  | c :: s' => if bool_decide (c = "("%char) then default s (nan_chars s') else s
  | [] => s
  end.

(** The value of [m * 10^x].  Outside of the two bounds the result is known
    without computing the power: at least [10^310], or below [10^-330]. *)
Definition scale10 (neg : bool) (m x : Z) : dbl * bool :=
  if m =? 0 then (S754_zero neg, false)
  else
    let size := x + Z.of_nat (length (dec_of m)) in
    if 310 <? size then (S754_infinity neg, true)
    else if size <? -330 then (S754_zero neg, true)
    else convert neg (m * 10 ^ Z.max 0 x) (10 ^ Z.max 0 (- x)).

(** The value of [m * 2^x], with bounds [2^1025] and [2^-1100]. *)
Definition scale2 (neg : bool) (m x : Z) : dbl * bool :=
  if m =? 0 then (S754_zero neg, false)
  else
    let size := x + Z.log2 m in
    if 1024 <? size then (S754_infinity neg, true)
    else if size <? -1100 then (S754_zero neg, true)
    else let '(n, d) := scale m 1 x in convert neg n d.

(** [strtod(s, &end)]: the value, what is left at [end], and [errno == ERANGE]. *)
Definition strtod (s : bytes) : dbl * bytes * bool :=
  let '(neg, s1) := take_sign (skip_space s) in
  match after_word #"inf" s1 with
  | Some r => (S754_infinity neg, default r (after_word #"inity" r), false)
  | None =>
      match after_word #"nan" s1 with
      | Some r => (S754_nan, after_nan r, false)
      | None =>
          match scan_hex s1 with
          | Some (m, x, r) => let '(v, range) := scale2 neg m x in (v, r, range)
          | None =>
              match scan_decimal s1 with
              | Some (m, x, r) => let '(v, range) := scale10 neg m x in (v, r, range)
              | None => (S754_zero false, s, false)
              end
          end
      end
  end.

(** ** [util.c] *)

(** [parse_double]: the value, or [None] where the C function returns -1. *)
Definition parse_double (s : bytes) : option dbl :=
  match s with
  | [] => None
  | _ =>
      let '(v, rest, range) := strtod s in
      if range && negb (deq v (S754_zero false)) then None
      else match rest with
           | _ :: _ => None
           | [] => if is_nan v then None else Some v
           end
  end.

(** ** [printf] *)

(** The greatest [x] with [10^x <= n / d], for positive [n] and [d]. *)
Definition log10_ratio (n d : Z) : Z :=
  if d <=? n then Z.of_nat (length (dec_of (n / d))) - 1
  else - Z.of_nat (length (dec_of ((d - 1) / n))).

(** [n * 10^k] over [d] rounded to an integer. *)
Definition round10 (n d k : Z) : Z := div_half_even (n * 10 ^ Z.max 0 k) (d * 10 ^ Z.max 0 (- k)).

(** [P] significant digits of [n / d] as an integer, and the exponent of ten of
    the first one. *)
Definition sig_digits (P : Z) (n d : Z) : Z * Z :=
  let x := log10_ratio n d in
  let q := round10 n d (P - 1 - x) in
  if q =? 10 ^ P then (10 ^ (P - 1), x + 1) else (q, x).

Definition zeros (n : Z) : bytes := repeat "0"%char (Z.to_nat n).

(** Trailing zeros removed. *)
Fixpoint strip_zeros (s : bytes) : bytes :=
  match s with
  | [] => []
  | c :: s' => match strip_zeros s' with
               | [] => if bool_decide (c = "0"%char) then [] else [c]
               | t => c :: t
               end
  end.

(** A point and the fraction, nothing when the fraction is empty. *)
Definition with_point (fp : bytes) : bytes := match fp with [] => [] | _ => "."%char :: fp end.

Definition fmt_exponent (x : Z) : bytes :=
  let d := dec_of (Z.abs x) in
  (if x <? 0 then #"e-" else #"e+") ++ (if (length d <? 2)%nat then "0"%char :: d else d).

(** [%.Pg] of [n / d]. *)
Definition fmt_g_ratio (P : Z) (n d : Z) : bytes :=
  let '(q, x) := sig_digits P n d in
  let ds := dec_of q in
  if (x <? -4) || (P <=? x) then
    take 1 ds ++ with_point (strip_zeros (drop 1 ds)) ++ fmt_exponent x
  else if x <? 0 then #"0" ++ with_point (zeros (- x - 1) ++ strip_zeros ds)
  else take (Z.to_nat (x + 1)) ds ++ with_point (strip_zeros (drop (Z.to_nat (x + 1)) ds)).

Definition sign_text (neg : bool) : bytes := if neg then #"-" else [].

(** The sign and the absolute value of a finite number as a ratio. *)
Definition ratio_of (m : positive) (e : Z) : Z * Z := scale (Zpos m) 1 e.

(** [%.Pg]. *)
Definition fmt_g (P : Z) (v : dbl) : bytes :=
  match v with
  | S754_zero neg => sign_text neg ++ #"0"
  | S754_infinity neg => sign_text neg ++ #"inf"
  | S754_nan => #"nan"
  | S754_finite neg m e => let '(n, d) := ratio_of m e in sign_text neg ++ fmt_g_ratio P n d
  end.

(** [%.Pf] for positive [P]. *)
Definition fmt_f_ratio (P : Z) (n d : Z) : bytes :=
  let q := round10 n d P in
  let fp := dec_of (q mod 10 ^ P) in
  dec_of (q / 10 ^ P) ++ #"." ++ zeros (P - Z.of_nat (length fp)) ++ fp.

Definition fmt_f (P : Z) (v : dbl) : bytes :=
  match v with
  | S754_zero neg => sign_text neg ++ #"0." ++ zeros P
  | S754_infinity neg => sign_text neg ++ #"inf"
  | S754_nan => #"nan"
  | S754_finite neg m e => let '(n, d) := ratio_of m e in sign_text neg ++ fmt_f_ratio P n d
  end.

(** [%-Ns] and [%Ns] *)
Definition pad_right (n : nat) (s : bytes) : bytes := s ++ replicate (n - length s) SP.
Definition pad_left (n : nat) (s : bytes) : bytes := replicate (n - length s) SP ++ s.

(** ** [reply.c] *)

(** The text [reply_double] chooses.  The longest one has 24 characters, so the
    64 bytes of [buf] never truncate it. *)
Definition double_text (val : dbl) : bytes :=
  let buf := fmt_g 15 val in
  if negb (deq (strtod buf).1.1 val) then fmt_g 17 val else buf.

Definition reply_double (out : Buffer) (val : dbl) : Buffer := reply_bulk_cstr out (double_text val).

End DblText.
