(* ===== verification/DblTextProps.v ===== *)
(** * Printed doubles are read back

    The text [reply_double] sends for a double is read by [strtod] as the same
    double.  The proof is the classical one: 17 significant digits determine a
    binary64 number, because the relative distance of the printed number from
    the exact one is at most half of [10^-16], and [2^53 < 10^16]. *)

From S2P Require Import Prelude CLib Util Reply Dbl DblText.
Import Util Reply Dbl DblText.
Local Open Scope Z_scope.

Module DblTextProps.

(** The finite numbers of the format: 53 bits, or fewer at the least exponent. *)
Definition canonical (m : positive) (e : Z) : Prop :=
  Zpos m < 2 ^ 53 ∧ EMIN ≤ e < ETOP ∧ (2 ^ 52 ≤ Zpos m ∨ e = EMIN).

(** ** Rounding to an integer *)

Lemma div_half_even_near n d : 0 < d → 2 * Z.abs (div_half_even n d * d - n) ≤ d.
Proof.
  intros Hd. unfold div_half_even. pose proof (Z.div_mod n d ltac:(lia)). pose proof (Z.mod_pos_bound n d Hd).
  destruct (Z.compare_spec (2 * (n mod d)) d); [destruct (Z.even _)|..]; nia.
Qed.

Lemma div_half_even_unique n d m : 0 < d → 2 * Z.abs (n - m * d) < d → div_half_even n d = m.
Proof.
  intros Hd Hm. pose proof (div_half_even_near n d Hd) as Hn. set (q := div_half_even n d) in *.
  assert (Z.abs (q - m) * d < d) as Hlt by (rewrite <- (Z.abs_eq d) at 1 by lia; rewrite <- Z.abs_mul; lia).
  assert (Z.abs (q - m) < 1) by nia. lia.
Qed.

(** ** Powers *)

Lemma pow_pos b k : 0 < b → 0 < b ^ Z.max 0 k.
Proof. intros. apply Z.pow_pos_nonneg; lia. Qed.

(** [2^j <= n / d], with a common factor to make the exponents positive. *)
Lemma scale_le n d j K :
  0 ≤ K → 0 ≤ j + K →
  ((scale n d (- j)).2 ≤ (scale n d (- j)).1 ↔ d * 2 ^ (j + K) ≤ n * 2 ^ K).
Proof.
  intros HK HjK. unfold scale. cbn [fst snd]. rewrite Z.opp_involutive.
  assert (2 ^ (j + K) = 2 ^ Z.max 0 j * 2 ^ (K - Z.max 0 (- j))) as -> by (rewrite <- Z.pow_add_r by lia; f_equal; lia).
  assert (2 ^ K = 2 ^ Z.max 0 (- j) * 2 ^ (K - Z.max 0 (- j))) as -> by (rewrite <- Z.pow_add_r by lia; f_equal; lia).
  pose proof (Z.pow_pos_nonneg 2 (K - Z.max 0 (- j)) ltac:(lia) ltac:(lia)). rewrite !Z.mul_assoc. split; nia.
Qed.

(** [log2_ratio n d] is the greatest [j] with [2^j <= n / d]. *)
Lemma log2_ratio_spec n d j :
  0 < n → 0 < d → (j ≤ log2_ratio n d ↔ (scale n d (- j)).2 ≤ (scale n d (- j)).1).
Proof.
  intros Hn Hd. unfold log2_ratio. set (k := Z.log2 n - Z.log2 d).
  pose proof (Z.log2_spec n Hn) as Hln. pose proof (Z.log2_spec d Hd) as Hld.
  pose proof (Z.log2_nonneg n). pose proof (Z.log2_nonneg d).
  set (K := Z.abs j + Z.log2 d + 2). rewrite (scale_le n d j K) by lia.
  destruct (scale n d (- k)) as [a b] eqn:Hab.
  pose proof (scale_le n d k K ltac:(lia) ltac:(lia)) as Hk. rewrite Hab in Hk. cbn [fst snd] in Hk.
  assert (∀ i, 0 ≤ i + K → d * 2 ^ (i + K) ≤ n * 2 ^ K → j ≤ i → d * 2 ^ (j + K) ≤ n * 2 ^ K) as Hdown.
  { intros i Hi Hle Hji. pose proof (Z.pow_le_mono_r 2 (j + K) (i + K) ltac:(lia) ltac:(lia)). nia. }
  assert (∀ i, 0 ≤ i + K → n * 2 ^ K < d * 2 ^ (i + K) → d * 2 ^ (j + K) ≤ n * 2 ^ K → j < i) as Hup.
  { intros i Hi Hlt Hle. destruct (Z.lt_ge_cases j i) as [|Hge]; [done|].
    pose proof (Z.pow_le_mono_r 2 (i + K) (j + K) ltac:(lia) ltac:(lia)). nia. }
  assert (d * 2 ^ (k - 1 + K) ≤ n * 2 ^ K) as Hlo.
  { assert (2 ^ Z.succ (Z.log2 d) * 2 ^ (k - 1 + K) = 2 ^ Z.log2 n * 2 ^ K) as He
      by (rewrite <- !Z.pow_add_r by lia; f_equal; lia).
    pose proof (Z.pow_pos_nonneg 2 (k - 1 + K) ltac:(lia) ltac:(lia)).
    pose proof (Z.pow_pos_nonneg 2 K ltac:(lia) ltac:(lia)). nia. }
  assert (n * 2 ^ K < d * 2 ^ (k + 1 + K)) as Hhi.
  { assert (2 ^ Z.log2 d * 2 ^ (k + 1 + K) = 2 ^ Z.succ (Z.log2 n) * 2 ^ K) as He
      by (rewrite <- !Z.pow_add_r by lia; f_equal; lia).
    pose proof (Z.pow_pos_nonneg 2 (k + 1 + K) ltac:(lia) ltac:(lia)).
    pose proof (Z.pow_pos_nonneg 2 K ltac:(lia) ltac:(lia)). nia. }
  destruct (Z.ltb_spec a b).
  - split; [intros; apply (Hdown (k - 1)); [lia|done|lia]|]. intros Hj%(Hup k); [lia|lia|lia].
  - split; [intros; apply (Hdown k); [lia|tauto|lia]|]. intros Hj%(Hup (k + 1)); [lia|lia|done].
Qed.

(** The same relative to another exponent. *)
Lemma log2_ratio_scaled n d e i a b :
  0 < n → 0 < d → 0 ≤ i → scale n d (- e) = (a, b) → (e + i ≤ log2_ratio n d ↔ 2 ^ i * b ≤ a).
Proof.
  intros Hn Hd Hi [= <- <-]. rewrite Z.opp_involutive, log2_ratio_spec by done.
  set (K := Z.abs e). rewrite (scale_le n d (e + i) K) by lia.
  assert (2 ^ (e + i + K) = 2 ^ i * 2 ^ Z.max 0 e * 2 ^ (K - Z.max 0 (- e))) as ->
    by (rewrite <- !Z.pow_add_r by lia; f_equal; lia).
  assert (2 ^ K = 2 ^ Z.max 0 (- e) * 2 ^ (K - Z.max 0 (- e))) as -> by (rewrite <- Z.pow_add_r by lia; f_equal; lia).
  pose proof (Z.pow_pos_nonneg 2 (K - Z.max 0 (- e)) ltac:(lia) ltac:(lia)).
  set (X := 2 ^ i). set (Y := 2 ^ Z.max 0 e). set (U := 2 ^ Z.max 0 (- e)). set (V := 2 ^ (K - _)) in *.
  replace (d * (X * Y * V)) with (X * (d * Y) * V) by ring. replace (n * (U * V)) with (n * U * V) by ring.
  split; nia.
Qed.

Lemma scale_pos n d k : 0 < n → 0 < d → 0 < (scale n d k).1 ∧ 0 < (scale n d k).2.
Proof. intros. pose proof (pow_pos 2 k). pose proof (pow_pos 2 (- k)). cbn. nia. Qed.

Lemma scale_step n d e a b :
  scale n d (- e) = (a, b) →
  ∃ a' b', scale n d (- (e - 1)) = (a', b') ∧ ((a' = 2 * a ∧ b' = b) ∨ (a' = a ∧ b = 2 * b')).
Proof.
  intros [= <- <-]. eexists _, _. split; [reflexivity|]. rewrite !Z.opp_involutive. destruct (Z.le_gt_cases e 0).
  - left. rewrite (Z.max_r 0 (- (e - 1))), (Z.max_r 0 (- e)), (Z.max_l 0 e), (Z.max_l 0 (e - 1)) by lia. split; [|done].
    replace (- (e - 1)) with (Z.succ (- e)) by lia. rewrite Z.pow_succ_r by lia. ring.
  - right. rewrite (Z.max_l 0 (- (e - 1))), (Z.max_l 0 (- e)), (Z.max_r 0 e), (Z.max_r 0 (e - 1)) by lia. split; [done|].
    replace e with (Z.succ (e - 1)) at 1 by lia. rewrite Z.pow_succ_r by lia. ring.
Qed.

(** A ratio within half of [10^-16] of a number of the format is rounded to it. *)
Lemma round_ratio_near neg n d m e a b :
  0 < n → 0 < d → canonical m e → scale n d (- e) = (a, b) →
  2 * Z.abs (a - Zpos m * b) * 10 ^ 16 ≤ Zpos m * b → round_ratio neg n d = S754_finite neg m e.
Proof.
  intros Hn Hd (Hm & He & Hmin) Hs Hnear. pose proof (scale_pos n d (- e) Hn Hd) as [_ Hb]. rewrite Hs in Hb. cbn in Hb.
  pose proof (log2_ratio_scaled n d e 53 a b Hn Hd ltac:(lia) Hs) as H53.
  pose proof (log2_ratio_scaled n d e 52 a b Hn Hd ltac:(lia) Hs) as H52.
  pose proof (log2_ratio_scaled n d e 51 a b Hn Hd ltac:(lia) Hs) as H51.
  change (2 ^ 53) with 9007199254740992 in *. change (2 ^ 52) with 4503599627370496 in *.
  change (2 ^ 51) with 2251799813685248 in *. change (10 ^ 16) with 10000000000000000 in *.
  assert (log2_ratio n d < e + 53) as Htop by (apply Z.lt_nge; rewrite H53; nia).
  assert ((ETOP <=? e) = false) as Hinf by lia. unfold round_ratio.
  destruct (Z.le_gt_cases (e + 52) (log2_ratio n d)) as [Hle|Hgt]; [|destruct (Z.eq_dec e EMIN) as [->|Hne]].
  - assert (Z.max (log2_ratio n d - 52) EMIN = e) as -> by lia. rewrite Hs, (div_half_even_unique a b (Zpos m)) by nia.
    destruct (Z.eqb_spec (Zpos m) (2 ^ 53)) as [Heq|_]; [change (2 ^ 53) with 9007199254740992 in Heq; lia|].
    by rewrite Hinf.
  - assert (Z.max (log2_ratio n d - 52) EMIN = EMIN) as -> by lia. rewrite Hs, (div_half_even_unique a b (Zpos m)) by nia.
    destruct (Z.eqb_spec (Zpos m) (2 ^ 53)) as [Heq|_]; [change (2 ^ 53) with 9007199254740992 in Heq; lia|].
    by rewrite Hinf.
  - destruct Hmin as [Hmin|]; [|done].
    assert (¬ 4503599627370496 * b ≤ a) as Hlt by (rewrite <- H52; lia).
    assert (Zpos m = 4503599627370496) as Hm52 by nia.
    assert (e + 51 ≤ log2_ratio n d) by (apply H51; nia).
    assert (Z.max (log2_ratio n d - 52) EMIN = e - 1) as -> by lia.
    destruct (scale_step n d e a b Hs) as (a' & b' & -> & Hab).
    rewrite (div_half_even_unique a' b' (2 ^ 53)) by (change (2 ^ 53) with 9007199254740992; nia).
    rewrite Z.eqb_refl. change (2 ^ 52) with (Zpos 4503599627370496). injection Hm52 as ->.
    replace (e - 1 + 1) with e by lia. by rewrite Hinf.
Qed.

(** ** Significant digits *)

Lemma dec_of_lt_pow n : 0 ≤ n → n < 10 ^ Z.of_nat (length (dec_of n)).
Proof.
  intros Hn. pose proof (dec_acc_bound 0 (dec_of n) ltac:(lia) (dec_of_digits n Hn)) as Hb.
  rewrite dec_of_value in Hb by done. lia.
Qed.

Lemma dec_of_length_exact n k : 10 ^ (k - 1) ≤ n < 10 ^ k → 0 < k → Z.of_nat (length (dec_of n)) = k.
Proof.
  intros Hn Hk. assert (0 < n) by (pose proof (Z.pow_pos_nonneg 10 (k - 1)); lia).
  pose proof (dec_of_length n (Z.to_nat k)) as Hle. rewrite Z2Nat.id in Hle by lia. specialize (Hle ltac:(lia) ltac:(lia)).
  pose proof (dec_of_lt_pow n ltac:(lia)) as Hlt.
  destruct (Z.lt_ge_cases (Z.of_nat (length (dec_of n))) k) as [Hl|]; [|lia].
  pose proof (Z.pow_le_mono_r 10 (Z.of_nat (length (dec_of n))) (k - 1)). lia.
Qed.

Lemma dec_of_ge_pow n : 0 < n → 10 ^ (Z.of_nat (length (dec_of n)) - 1) ≤ n.
Proof.
  intros Hn. pose proof (dec_of_length_pos n) as Hp. set (l := length (dec_of n)) in *.
  destruct (Nat.eq_dec l 1) as [->|Hne]; [change (10 ^ (Z.of_nat 1 - 1)) with 1; lia|].
  destruct (Z.le_gt_cases (10 ^ (Z.of_nat l - 1)) n) as [|Hlt]; [done|].
  pose proof (dec_of_length n (l - 1)) as Hle. fold l in Hle.
  replace (Z.of_nat (l - 1)) with (Z.of_nat l - 1) in Hle by lia. lia.
Qed.

Lemma log10_ratio_spec n d (x := log10_ratio n d) :
  0 < n → 0 < d →
  d * 10 ^ Z.max 0 x ≤ n * 10 ^ Z.max 0 (- x) ∧ n * 10 ^ Z.max 0 (- x) < 10 * (d * 10 ^ Z.max 0 x).
Proof.
  intros Hn Hd. unfold x, log10_ratio. destruct (Z.leb_spec d n) as [Hle|Hlt].
  - set (t := n / d). pose proof (Z.div_mod n d ltac:(lia)). pose proof (Z.mod_pos_bound n d Hd).
    assert (0 < t) as Ht by (apply Z.div_str_pos; lia). fold t in H.
    pose proof (dec_of_ge_pow t Ht) as Hlo. pose proof (dec_of_lt_pow t ltac:(lia)) as Hhi.
    pose proof (dec_of_length_pos t). set (l := Z.of_nat (length (dec_of t))) in *.
    rewrite (Z.max_r 0 (l - 1)), (Z.max_l 0 (- (l - 1))) by lia. change (10 ^ 0) with 1.
    assert (10 ^ l = 10 * 10 ^ (l - 1)) as Hl by (rewrite <- Z.pow_succ_r by lia; f_equal; lia). nia.
  - set (c := (d - 1) / n). pose proof (Z.div_mod (d - 1) n ltac:(lia)). pose proof (Z.mod_pos_bound (d - 1) n Hn).
    assert (0 < c) as Hc by (apply Z.div_str_pos; lia). fold c in H.
    pose proof (dec_of_ge_pow c Hc) as Hlo. pose proof (dec_of_lt_pow c ltac:(lia)) as Hhi.
    pose proof (dec_of_length_pos c). set (l := Z.of_nat (length (dec_of c))) in *.
    rewrite (Z.max_l 0 (- l)), (Z.max_r 0 (- - l)), Z.opp_involutive by lia. change (10 ^ 0) with 1.
    assert (10 ^ l = 10 * 10 ^ (l - 1)) as Hl by (rewrite <- Z.pow_succ_r by lia; f_equal; lia). nia.
Qed.

Lemma near_bounds q A B T :
  0 < B → 0 < T → 2 * Z.abs (q * B - A) ≤ B → T * B ≤ A → A < 10 * T * B →
  T ≤ q ≤ 10 * T ∧ 2 * Z.abs (q * B - A) * T ≤ A.
Proof.
  intros HB HT Hq Hlo Hhi. split; [|nia]. split; apply Z.nlt_ge; intros Hc.
  - assert (q * B ≤ (T - 1) * B) by (apply Z.mul_le_mono_nonneg_r; lia). lia.
  - assert ((10 * T + 1) * B ≤ q * B) by (apply Z.mul_le_mono_nonneg_r; lia). lia.
Qed.

(** The rounded quotient has [P] digits, or is [10^P]. *)
Lemma round10_spec P n d (y := P - 1 - log10_ratio n d)
    (A := n * 10 ^ Z.max 0 y) (B := d * 10 ^ Z.max 0 (- y)) :
  0 < P → 0 < n → 0 < d →
  10 ^ (P - 1) ≤ round10 n d y ≤ 10 ^ P ∧
  2 * Z.abs (round10 n d y * B - A) * 10 ^ (P - 1) ≤ A ∧ 0 < B.
Proof.
  intros HP Hn Hd. destruct (log10_ratio_spec n d Hn Hd) as [Hlo Hhi]. set (x := log10_ratio n d) in *.
  assert (0 < B) as HB by (unfold B; pose proof (pow_pos 10 (- y)); nia).
  pose proof (div_half_even_near A B HB) as Hq. fold (round10 n d y) in Hq.
  assert (10 ^ P = 10 * 10 ^ (P - 1)) as HPP by (rewrite <- Z.pow_succ_r by lia; f_equal; lia).
  assert (10 ^ (P - 1) * B ≤ A ∧ A < 10 * 10 ^ (P - 1) * B) as [HA1 HA2].
  { set (T := 10 ^ (Z.max 0 y - Z.max 0 (- x) + Z.max 0 (Z.max 0 (- x) - Z.max 0 y))).
    set (K := Z.max 0 (Z.max 0 (- x) - Z.max 0 y)).
    assert (0 < 10 ^ K) by (apply Z.pow_pos_nonneg; lia).
    assert (A * 10 ^ K = n * 10 ^ Z.max 0 (- x) * T) as HA.
    { unfold A, T. rewrite <- !Z.mul_assoc, <- !Z.pow_add_r by lia. do 2 f_equal. lia. }
    assert (10 ^ (P - 1) * B * 10 ^ K = d * 10 ^ Z.max 0 x * T) as HB'.
    { unfold B, T. replace (10 ^ (P - 1) * (d * 10 ^ Z.max 0 (- y)) * 10 ^ K)
        with (d * (10 ^ (P - 1) * 10 ^ Z.max 0 (- y) * 10 ^ K)) by ring.
      rewrite <- !Z.mul_assoc, <- !Z.pow_add_r by lia. do 2 f_equal. lia. }
    assert (0 < T) by (apply Z.pow_pos_nonneg; lia). split.
    - apply (Z.mul_le_mono_pos_r _ _ (10 ^ K)); [done|]. rewrite HA, HB'. by apply Z.mul_le_mono_pos_r.
    - apply (Z.mul_lt_mono_pos_r (10 ^ K)); [done|].
      replace (10 * 10 ^ (P - 1) * B * 10 ^ K) with (10 * (10 ^ (P - 1) * B * 10 ^ K)) by ring.
      rewrite HA, HB', Z.mul_assoc. by apply Z.mul_lt_mono_pos_r. }
  pose proof (Z.pow_pos_nonneg 10 (P - 1) ltac:(lia) ltac:(lia)).
  rewrite HPP. destruct (near_bounds (round10 n d y) A B (10 ^ (P - 1))) as [Hb Hr]; done.
Qed.

(** ** Scanning what was printed *)

Abbreviation digits := (Forall (λ c, is_digit c = true)).

(** Nothing, or an exponent. *)
Definition exp_text (x : Z) (ex : bytes) : Prop := ex = [] ∧ x = 0 ∨ ex = fmt_exponent x.

Definition stops (r : bytes) : bool := match r with [] => true | c :: _ => negb (is_digit c) end.

Lemma digits_stop ds r : digits ds → stops r = true → take_digits (ds ++ r) = ds ∧ drop_digits (ds ++ r) = r.
Proof.
  intros Hds Hr. induction Hds as [|c ds Hc _ [IH1 IH2]]; cbn [app take_digits drop_digits].
  - destruct r as [|c r]; [done|]. cbn in Hr. apply negb_true_iff in Hr. cbn. by rewrite Hr.
  - rewrite Hc. by rewrite IH1, IH2.
Qed.

Lemma digit_zero : is_digit "0"%char = true.
Proof. done. Qed.

Lemma exp_digits x : digits (if (length (dec_of (Z.abs x)) <? 2)%nat then "0"%char :: dec_of (Z.abs x) else dec_of (Z.abs x)).
Proof. destruct (_ <? _)%nat; [constructor; [done|]|]; apply dec_of_digits; lia. Qed.

Lemma scan_fmt_exponent x : scan_exponent #"e" (fmt_exponent x) = (x, []).
Proof.
  unfold fmt_exponent. pose proof (exp_digits x) as Hd. pose proof (dec_of_value (Z.abs x) ltac:(lia)) as Hv.
  pose proof (dec_of_length_pos (Z.abs x)) as Hl.
  set (ds := if (_ <? _)%nat then _ else _) in *.
  assert (dec_acc 0 ds = Z.abs x) as Hds by (unfold ds; by destruct (_ <? _)%nat).
  assert (∃ c t, ds = c :: t) as (c & t & Hct)
    by (unfold ds; destruct (_ <? _)%nat; [eauto|]; destruct (dec_of (Z.abs x)); [cbn in Hl; lia|eauto]).
  assert (∀ neg : bool, match take_digits ds with
            | [] => (0, #"e" ++ (if neg then #"-" else #"+") ++ ds)
            | ds' => ((if neg then - dec_acc 0 ds' else dec_acc 0 ds'), drop_digits ds)
            end = (if neg then - Z.abs x else Z.abs x, [])) as Hscan.
  { intros neg. rewrite take_digits_all, drop_digits_all by done. clearbody ds. subst ds. cbv iota zeta. by rewrite Hds. }
  destruct (Z.ltb_spec x 0).
  - etransitivity; [exact (Hscan true)|f_equal; lia].
  - etransitivity; [exact (Hscan false)|f_equal; lia].
Qed.

Lemma scan_exp_text x ex : exp_text x ex → scan_exponent #"e" ex = (x, []).
Proof. intros [[-> ->]| ->]; [done|apply scan_fmt_exponent]. Qed.

Lemma exp_text_start x ex : exp_text x ex → stops ex = true ∧ after_point ex = None ∧ ∀ c r, ex = c :: r → c = "e"%char.
Proof.
  intros [[-> _]| ->]; [done|]. unfold fmt_exponent. destruct (x <? 0); (split; [done|split; [done|]]); by intros c r [= <- _].
Qed.

Lemma scan_decimal_text ip fp x ex :
  ip ≠ [] → digits ip → digits fp → exp_text x ex →
  scan_decimal (ip ++ with_point fp ++ ex) = Some (dec_acc 0 (ip ++ fp), x - Z.of_nat (length fp), []).
Proof.
  intros Hip Hi Hf Hex. destruct (exp_text_start x ex Hex) as (Hst & Hpt & _).
  assert (stops (with_point fp ++ ex) = true) as Hs by (by destruct fp).
  destruct (digits_stop ip _ Hi Hs) as [Ht Hd]. unfold scan_decimal. rewrite Ht, Hd.
  assert (match after_point (with_point fp ++ ex) with
          | Some r => (take_digits r, drop_digits r) | None => ([], with_point fp ++ ex) end = (fp, ex)) as ->.
  { destruct fp as [|c fp]; [cbn [with_point app]; by rewrite Hpt|].
    change (after_point (with_point (c :: fp) ++ ex)) with (Some ((c :: fp) ++ ex)). cbv iota.
    by destruct (digits_stop (c :: fp) ex Hf Hst) as [-> ->]. }
  rewrite (scan_exp_text x ex Hex). destruct ip as [|c ip]; [done|]. reflexivity.
Qed.

Lemma tolower_digit c : is_digit c = true → tolower c = c.
Proof. unfold is_digit, tolower. intros H. destruct (Z.leb_spec 65 (code c)); [lia|done]. Qed.

Lemma after_word_digit w c s : is_digit c = true → is_digit (tolower w) = false → after_word [w] (c :: s) = None.
Proof.
  intros Hc Hw. cbn. rewrite (tolower_digit c Hc). destruct (bool_decide_reflect (tolower w = c)) as [<-|]; [congruence|done].
Qed.

Lemma text_not_hex ip fp x ex : ip ≠ [] → digits ip → exp_text x ex → after_word #"0x" (ip ++ with_point fp ++ ex) = None.
Proof.
  intros Hip Hi Hex. destruct (exp_text_start x ex Hex) as (_ & _ & He). destruct ip as [|c ip]; [done|].
  change (after_word #"0x" ((c :: ip) ++ with_point fp ++ ex)) with
    (if bool_decide (tolower "0" = tolower c) then after_word #"x" (ip ++ with_point fp ++ ex) else None).
  destruct (bool_decide _); [|done]. destruct ip as [|c2 ip].
  - destruct fp as [|f fp]; [|done]. cbn [with_point app]. destruct ex as [|e ex]; [done|]. by rewrite (He e ex eq_refl).
  - apply Forall_inv_tail, Forall_inv in Hi. by apply after_word_digit.
Qed.

(** [strtod] on a sign, digits, a fraction and an exponent. *)
Lemma strtod_text neg ip fp x ex :
  ip ≠ [] → digits ip → digits fp → exp_text x ex →
  strtod (sign_text neg ++ ip ++ with_point fp ++ ex) =
  let '(v, range) := scale10 neg (dec_acc 0 (ip ++ fp)) (x - Z.of_nat (length fp)) in (v, [], range).
Proof.
  intros Hip Hi Hf Hex. set (s1 := ip ++ with_point fp ++ ex).
  assert (take_sign (skip_space (sign_text neg ++ s1)) = (neg, s1)) as Hs.
  { destruct neg; [done|]. unfold s1. destruct ip as [|c ip]; [done|]. apply Forall_inv in Hi. cbn.
    rewrite (digit_not_space c Hi). cbn. by destruct (digit_not_sign c Hi) as [-> ->]. }
  unfold strtod. rewrite Hs.
  assert (∃ c r, s1 = c :: r ∧ is_digit c = true) as (c & r & Hs1 & Hc)
    by (unfold s1; destruct ip as [|c ip]; [done|]; apply Forall_inv in Hi; by eexists _, _).
  assert (∀ w ws, is_digit (tolower w) = false → after_word (w :: ws) s1 = None) as Hw.
  { intros w ws Hw. pose proof (after_word_digit w c r Hc Hw) as Hn. rewrite Hs1. cbn in Hn |- *. by destruct (bool_decide _). }
  change #"inf" with ("i"%char :: #"nf"). change #"nan" with ("n"%char :: #"an"). rewrite !Hw by done.
  unfold scan_hex. unfold s1. rewrite (text_not_hex ip fp x ex) by done. by rewrite (scan_decimal_text ip fp x ex).
Qed.

(** ** The digits that are printed *)

Lemma strip_zeros_spec s : ∃ k, s = strip_zeros s ++ repeat "0"%char k.
Proof.
  induction s as [|c s [k IH]]; [by exists 0%nat|]. cbn [strip_zeros]. destruct (strip_zeros s) as [|c' t] eqn:Hs.
  - destruct (bool_decide_reflect (c = "0"%char)) as [->|Hc]; [exists (S k)|exists k]; cbn in *; by rewrite IH at 1.
  - exists k. cbn in *. by rewrite IH at 1.
Qed.

Lemma dec_acc_zeros a k : dec_acc a (repeat "0"%char k) = a * 10 ^ Z.of_nat k.
Proof.
  revert a. induction k as [|k IH]; intros a; [cbn; lia|].
  rewrite Nat2Z.inj_succ, Z.pow_succ_r by lia. cbn [repeat dec_acc]. rewrite IH. change (digit_val "0") with 0. ring.
Qed.

Lemma dec_acc_leading_zeros n s : dec_acc 0 (zeros n ++ s) = dec_acc 0 s.
Proof. by rewrite dec_acc_app; unfold zeros; rewrite dec_acc_zeros. Qed.

Lemma sig_digits_spec P n d q x (x0 := log10_ratio n d) :
  0 < P → 0 < n → 0 < d → sig_digits P n d = (q, x) →
  10 ^ (P - 1) ≤ q < 10 ^ P ∧ x0 ≤ x ≤ x0 + 1 ∧ q * 10 ^ (x - x0) = round10 n d (P - 1 - x0).
Proof.
  intros HP Hn Hd Hs. destruct (round10_spec P n d HP Hn Hd) as [Hq _]. fold x0 in Hq. unfold sig_digits in Hs. fold x0 in Hs.
  assert (10 ^ P = 10 * 10 ^ (P - 1)) as HPP by (rewrite <- Z.pow_succ_r by lia; f_equal; lia).
  pose proof (Z.pow_pos_nonneg 10 (P - 1) ltac:(lia) ltac:(lia)).
  destruct (Z.eqb_spec (round10 n d (P - 1 - x0)) (10 ^ P)) as [He|He]; injection Hs as <- <-.
  - replace (x0 + 1 - x0) with 1 by lia. rewrite He, HPP. change (10 ^ 1) with 10. lia.
  - rewrite Z.sub_diag. change (10 ^ 0) with 1. lia.
Qed.

(** What reading the digits back gives: the significand [m] and the exponent
    [y] stand for the rounded number, and the bounds of [scale10] hold. *)
Record printed (P n d m y : Z) : Prop := mk_printed {
  printed_pos : 0 < m;
  printed_exp : 0 ≤ y + P - 1 - log10_ratio n d;
  printed_val : m * 10 ^ (y + P - 1 - log10_ratio n d) = round10 n d (P - 1 - log10_ratio n d);
  printed_size : log10_ratio n d < y + Z.of_nat (length (dec_of m)) ≤ log10_ratio n d + 2;
}.

Lemma printed_intro P n d q x m k :
  0 < P → 0 < n → 0 < d → sig_digits P n d = (q, x) → 0 ≤ k → m * 10 ^ k = q → printed P n d m (x - (P - 1) + k).
Proof.
  intros HP Hn Hd Hs Hk Hm. destruct (sig_digits_spec P n d q x HP Hn Hd Hs) as (Hq & Hx & Hv).
  set (x0 := log10_ratio n d) in *. pose proof (Z.pow_pos_nonneg 10 k ltac:(lia) Hk).
  pose proof (Z.pow_pos_nonneg 10 (P - 1) ltac:(lia) ltac:(lia)).
  assert (0 < m) as Hm0 by nia.
  assert (k < P) as HkP.
  { apply Z.nle_gt. intros Hle. pose proof (Z.pow_le_mono_r 10 P k ltac:(lia) Hle). nia. }
  assert (Z.of_nat (length (dec_of m)) = P - k) as Hl.
  { apply dec_of_length_exact; [|lia].
    assert (10 ^ (P - 1) = 10 ^ (P - k - 1) * 10 ^ k) as H1 by (rewrite <- Z.pow_add_r by lia; f_equal; lia).
    assert (10 ^ P = 10 ^ (P - k) * 10 ^ k) as H2 by (rewrite <- Z.pow_add_r by lia; f_equal; lia).
    split; [apply (Z.mul_le_mono_pos_r _ _ (10 ^ k))|apply (Z.mul_lt_mono_pos_r (10 ^ k))]; lia. }
  split; [done|fold x0; lia|..]; fold x0; [|lia].
  rewrite <- Hv, <- Hm, <- Z.mul_assoc, <- Z.pow_add_r by lia. do 2 f_equal. lia.
Qed.

Lemma strip_zeros_digits s : digits s → digits (strip_zeros s).
Proof. intros Hs. destruct (strip_zeros_spec s) as [k Hk]. rewrite Hk in Hs. by apply Forall_app in Hs as [? _]. Qed.

Lemma zeros_digits n : digits (zeros n).
Proof. apply Forall_forall. intros c Hc%list_elem_of_In%repeat_spec. by subst. Qed.

Lemma length_zeros n : length (zeros n) = Z.to_nat n.
Proof. apply repeat_length. Qed.

Lemma fmt_g_ratio_scan P n d :
  0 < P → 0 < n → 0 < d →
  ∃ ip fp x ex, fmt_g_ratio P n d = ip ++ with_point fp ++ ex ∧ ip ≠ [] ∧ digits ip ∧ digits fp ∧ exp_text x ex ∧
    printed P n d (dec_acc 0 (ip ++ fp)) (x - Z.of_nat (length fp)).
Proof.
  intros HP Hn Hd. unfold fmt_g_ratio. destruct (sig_digits P n d) as [q x] eqn:Hs.
  destruct (sig_digits_spec P n d q x HP Hn Hd Hs) as (Hq & Hx & _).
  pose proof (Z.pow_pos_nonneg 10 (P - 1) ltac:(lia) ltac:(lia)).
  pose proof (dec_of_length_exact q P Hq HP) as Hlen. pose proof (dec_of_digits q ltac:(lia)) as Hds.
  pose proof (dec_of_value q ltac:(lia)) as Hval. set (ds := dec_of q) in *. clearbody ds.
  assert (∀ i : nat, (0 < i)%nat → Z.of_nat i ≤ P → ∃ k, 0 ≤ k ∧
      dec_acc 0 (take i ds ++ strip_zeros (drop i ds)) * 10 ^ k = q ∧
      Z.of_nat i + Z.of_nat (length (strip_zeros (drop i ds))) + k = P ∧ take i ds ≠ [] ∧ digits (take i ds)) as Hcut.
  { intros i Hi Hi2. destruct (strip_zeros_spec (drop i ds)) as [k Hk]. exists (Z.of_nat k).
    assert (length (take i ds) = i) as Hti by (rewrite length_take; lia). split_and!; [lia| | | |by apply Forall_take].
    - rewrite <- dec_acc_zeros, <- dec_acc_app, <- app_assoc, <- Hk, take_drop. done.
    - apply (f_equal length) in Hk. rewrite length_app, repeat_length, length_drop in Hk. lia.
    - intros Ht. rewrite Ht in Hti. cbn in Hti. lia. }
  destruct ((x <? -4) || (P <=? x)) eqn:Hstyle; [|destruct (Z.ltb_spec x 0)].
  - destruct (Hcut 1%nat) as (k & Hk & Hm & Hl & Hne & Hti); [lia..|].
    exists (take 1 ds), (strip_zeros (drop 1 ds)), x, (fmt_exponent x). split_and!; [done..| |by right|].
    + by apply strip_zeros_digits, Forall_drop.
    + pose proof (printed_intro _ _ _ _ _ _ _ HP Hn Hd Hs Hk Hm) as Hp.
      by replace (x - Z.of_nat (length (strip_zeros (drop 1 ds)))) with (x - (P - 1) + k) by lia.
  - destruct (strip_zeros_spec ds) as [k Hk]. exists #"0", (zeros (- x - 1) ++ strip_zeros ds), 0, [].
    split_and!; [by rewrite app_nil_r|done|by repeat constructor| |by left|].
    + apply Forall_app. split; [apply zeros_digits|by apply strip_zeros_digits].
    + assert (dec_acc 0 (strip_zeros ds) * 10 ^ Z.of_nat k = q) as Hm by (by rewrite <- dec_acc_zeros, <- dec_acc_app, <- Hk).
      pose proof (printed_intro _ _ _ _ _ _ _ HP Hn Hd Hs (Nat2Z.is_nonneg k) Hm) as Hp.
      change (#"0" ++ zeros (- x - 1) ++ strip_zeros ds) with (zeros 1 ++ zeros (- x - 1) ++ strip_zeros ds).
      rewrite !dec_acc_leading_zeros, length_app, length_zeros.
      apply (f_equal length) in Hk. rewrite length_app, repeat_length in Hk.
      by replace (0 - Z.of_nat (Z.to_nat (- x - 1) + length (strip_zeros ds))) with (x - (P - 1) + Z.of_nat k) by lia.
  - destruct (Hcut (Z.to_nat (x + 1))) as (k & Hk & Hm & Hl & Hne & Hti); [lia..|].
    exists (take (Z.to_nat (x + 1)) ds), (strip_zeros (drop (Z.to_nat (x + 1)) ds)), 0, [].
    split_and!; [by rewrite app_nil_r|done..| |by left|].
    + by apply strip_zeros_digits, Forall_drop.
    + pose proof (printed_intro _ _ _ _ _ _ _ HP Hn Hd Hs Hk Hm) as Hp.
      by replace (0 - Z.of_nat (length (strip_zeros (drop (Z.to_nat (x + 1)) ds)))) with (x - (P - 1) + k) by lia.
Qed.

(** ** Reading back a finite number *)

Lemma ratio_pos m e : 0 < (ratio_of m e).1 ∧ 0 < (ratio_of m e).2.
Proof. by apply scale_pos. Qed.

(** The decimal exponents of the format. *)
Lemma log10_ratio_range m e n d :
  canonical m e → ratio_of m e = (n, d) → -325 < log10_ratio n d < 309.
Proof.
  intros (Hm & He & _) Hr. pose proof (ratio_pos m e) as Hp. rewrite Hr in Hp. destruct Hp as [Hn Hd].
  cbn [fst snd] in Hn, Hd. destruct (log10_ratio_spec n d Hn Hd) as [Hlo Hhi]. set (x := log10_ratio n d) in *.
  injection Hr as Hnr Hdr. unfold EMIN, ETOP in He.
  assert (n < 10 ^ 309) as Hn309.
  { rewrite <- Hnr. assert (2 ^ Z.max 0 e ≤ 2 ^ 971) as Hle by (apply Z.pow_le_mono_r; lia).
    apply Z.lt_trans with (2 ^ 53 * 2 ^ 971); [|vm_compute; reflexivity].
    pose proof (pow_pos 2 e ltac:(lia)). apply Z.lt_le_trans with (2 ^ 53 * 2 ^ Z.max 0 e);
      [by apply Z.mul_lt_mono_pos_r|by apply Z.mul_le_mono_nonneg_l]. }
  assert (10 * d < 10 ^ 325) as Hd325.
  { rewrite <- Hdr, Z.mul_1_l. assert (2 ^ Z.max 0 (- e) ≤ 2 ^ 1074) as Hle by (apply Z.pow_le_mono_r; lia).
    apply Z.le_lt_trans with (10 * 2 ^ 1074); [by apply Z.mul_le_mono_nonneg_l|vm_compute; reflexivity]. }
  pose proof (pow_pos 10 x ltac:(lia)) as Hpx. pose proof (pow_pos 10 (- x) ltac:(lia)) as Hpnx.
  set (u := 10 ^ 309) in *. set (v := 10 ^ 325) in *. destruct (Z.le_gt_cases 0 x) as [Hx|Hx].
  - split; [lia|]. rewrite (Z.max_l 0 (- x)), Z.mul_1_r in Hlo by lia.
    apply (Z.pow_lt_mono_r_iff 10); [lia|lia|]. fold u. rewrite (Z.max_r 0 x) in * by lia. nia.
  - split; [|lia]. rewrite (Z.max_l 0 x) in Hhi by lia. change (10 ^ 0) with 1 in Hhi.
    assert (10 ^ (- x) < v) as Hlt by (rewrite (Z.max_r 0 (- x)) in * by lia; nia).
    apply (Z.pow_lt_mono_r_iff 10) in Hlt; lia.
Qed.

(** The number that is read is near to the one that was printed. *)
Lemma printed_near P n d M Y :
  17 ≤ P → 0 < n → 0 < d → printed P n d M Y →
  2 * Z.abs (M * 10 ^ Z.max 0 Y * d - n * 10 ^ Z.max 0 (- Y)) * 10 ^ 16 ≤ n * 10 ^ Z.max 0 (- Y).
Proof.
  intros HP Hn Hd [HM Hj Hv _]. destruct (round10_spec P n d ltac:(lia) Hn Hd) as (_ & Hnear & HB).
  set (x0 := log10_ratio n d) in *. set (y := P - 1 - x0) in *. set (q0 := round10 n d y) in *.
  set (U := 10 ^ Z.max 0 y) in *. set (V := 10 ^ Z.max 0 (- y)) in *.
  set (S := 10 ^ Z.max 0 Y). set (T := 10 ^ Z.max 0 (- Y)).
  assert (0 < U) as HU by (by apply pow_pos). assert (0 < T) as HT by (by apply pow_pos).
  assert (M * S * U = q0 * V * T) as Heq.
  { rewrite <- Hv. unfold S, U, V, T. rewrite <- !Z.mul_assoc, <- !Z.pow_add_r by lia. do 2 f_equal. lia. }
  assert (U * (M * S * d - n * T) = T * (q0 * (d * V) - n * U)) as Hd2.
  { replace (U * (M * S * d - n * T)) with (M * S * U * d - n * T * U) by ring. rewrite Heq. ring. }
  apply (f_equal Z.abs) in Hd2. rewrite !Z.abs_mul, (Z.abs_eq U), (Z.abs_eq T) in Hd2 by lia.
  apply (Z.mul_le_mono_pos_l _ _ U); [done|].
  replace (U * (2 * Z.abs (M * S * d - n * T) * 10 ^ 16)) with (2 * (U * Z.abs (M * S * d - n * T)) * 10 ^ 16) by ring.
  rewrite Hd2. apply Z.le_trans with (T * (2 * Z.abs (q0 * (d * V) - n * U) * 10 ^ (P - 1))).
  - pose proof (Z.pow_le_mono_r 10 16 (P - 1) ltac:(lia) ltac:(lia)) as Hpow. pose proof (Z.abs_nonneg (q0 * (d * V) - n * U)).
    replace (2 * (T * Z.abs (q0 * (d * V) - n * U)) * 10 ^ 16) with (2 * T * Z.abs (q0 * (d * V) - n * U) * 10 ^ 16) by ring.
    replace (T * (2 * Z.abs (q0 * (d * V) - n * U) * 10 ^ (P - 1)))
      with (2 * T * Z.abs (q0 * (d * V) - n * U) * 10 ^ (P - 1)) by ring.
    apply Z.mul_le_mono_nonneg_l; [nia|done].
  - replace (U * (n * T)) with (T * (n * U)) by ring. apply Z.mul_le_mono_nonneg_l; [lia|done].
Qed.

(** The value [strtod] computes from the digits. *)
Lemma scale10_in_range neg P m e n d M Y :
  canonical m e → ratio_of m e = (n, d) → printed P n d M Y →
  scale10 neg M Y = convert neg (M * 10 ^ Z.max 0 Y) (10 ^ Z.max 0 (- Y)).
Proof.
  intros Hc Hr [HM _ _ Hs]. pose proof (log10_ratio_range m e n d Hc Hr). unfold scale10.
  destruct (Z.eqb_spec M 0); [lia|]. destruct (Z.ltb_spec 310 (Y + Z.of_nat (length (dec_of M)))); [lia|].
  destruct (Z.ltb_spec (Y + Z.of_nat (length (dec_of M))) (-330)); [lia|done].
Qed.

Lemma scale10_exact neg P m e n d M Y :
  17 ≤ P → canonical m e → ratio_of m e = (n, d) → printed P n d M Y →
  (scale10 neg M Y).1 = S754_finite neg m e.
Proof.
  intros HP Hc Hr Hpr. rewrite (scale10_in_range neg P m e n d M Y Hc Hr Hpr). cbn [convert fst].
  pose proof (ratio_pos m e) as Hp. rewrite Hr in Hp. destruct Hp as [Hn Hd]. cbn [fst snd] in Hn, Hd.
  pose proof (printed_near P n d M Y HP Hn Hd Hpr) as Hnear. pose proof (printed_pos _ _ _ _ _ Hpr) as HM.
  pose proof (pow_pos 10 Y ltac:(lia)). pose proof (pow_pos 10 (- Y) ltac:(lia)).
  injection Hr as Hnr Hdr. rewrite Z.mul_1_l in Hdr.
  apply (round_ratio_near neg _ _ m e (M * 10 ^ Z.max 0 Y * d) (10 ^ Z.max 0 (- Y) * 2 ^ Z.max 0 e)); [nia|done|done|..].
  - unfold scale. rewrite Z.opp_involutive. by rewrite Hdr.
  - replace (Zpos m * (10 ^ Z.max 0 (- Y) * 2 ^ Z.max 0 e)) with (n * 10 ^ Z.max 0 (- Y)) by (rewrite <- Hnr; ring).
    exact Hnear.
Qed.

(** [%.Pg] of a finite number is read completely, as a number converted from
    its digits; with at least 17 digits that number is the printed one. *)
Lemma strtod_fmt_g neg P m e :
  0 < P → canonical m e →
  ∃ n d, 0 < n ∧ 0 < d ∧ strtod (fmt_g P (S754_finite neg m e)) = (round_ratio neg n d, [], erange (round_ratio neg n d) n d) ∧
    (17 ≤ P → round_ratio neg n d = S754_finite neg m e).
Proof.
  intros HP Hc. destruct (ratio_of m e) as [n d] eqn:Hr. cbn [fmt_g]. rewrite Hr.
  pose proof (ratio_pos m e) as Hp. rewrite Hr in Hp. destruct Hp as [Hn Hd]. cbn [fst snd] in Hn, Hd.
  destruct (fmt_g_ratio_scan P n d HP Hn Hd) as (ip & fp & x & ex & -> & Hip & Hi & Hf & Hex & Hpr).
  rewrite (strtod_text neg ip fp x ex Hip Hi Hf Hex).
  set (M := dec_acc 0 (ip ++ fp)) in *. set (Y := x - Z.of_nat (length fp)) in *.
  pose proof (printed_pos _ _ _ _ _ Hpr) as HM. pose proof (pow_pos 10 Y ltac:(lia)). pose proof (pow_pos 10 (- Y) ltac:(lia)).
  exists (M * 10 ^ Z.max 0 Y), (10 ^ Z.max 0 (- Y)). split; [nia|]. split; [done|].
  pose proof (scale10_in_range neg P m e n d M Y Hc Hr Hpr) as Hs. split; [by rewrite Hs|].
  intros H17. pose proof (scale10_exact neg P m e n d M Y H17 Hc Hr Hpr) as He. by rewrite Hs in He.
Qed.

(** ** The values that occur *)

(** A number of the format, not NaN. *)
Definition valid_dbl (v : dbl) : Prop :=
  match v with S754_finite _ m e => canonical m e | S754_nan => False | _ => True end.

(** Too small for 53 bits of precision. *)
Definition subnormal (v : dbl) : bool := match v with S754_finite _ m _ => Zpos m <? 2 ^ 52 | _ => false end.

Lemma div_half_even_le n d T : 0 < d → T * d ≤ n → T ≤ div_half_even n d.
Proof.
  intros Hd Hle. pose proof (div_half_even_near n d Hd). apply Z.nlt_ge. intros Hc.
  assert (div_half_even n d * d ≤ (T - 1) * d) by (apply Z.mul_le_mono_nonneg_r; lia). lia.
Qed.

Lemma div_half_even_ge n d T : 0 < d → n < T * d → div_half_even n d ≤ T.
Proof.
  intros Hd Hlt. pose proof (div_half_even_near n d Hd). apply Z.nlt_ge. intros Hc.
  assert ((T + 1) * d ≤ div_half_even n d * d) by (apply Z.mul_le_mono_nonneg_r; lia). lia.
Qed.

Lemma round_ratio_valid neg n d : 0 < n → 0 < d → valid_dbl (round_ratio neg n d).
Proof.
  intros Hn Hd. unfold round_ratio. set (e := Z.max (log2_ratio n d - 52) EMIN).
  destruct (scale n d (- e)) as [a b] eqn:Hs. pose proof (scale_pos n d (- e) Hn Hd) as [_ Hb]. rewrite Hs in Hb. cbn in Hb.
  pose proof (log2_ratio_scaled n d e 53 a b Hn Hd ltac:(lia) Hs) as H53.
  pose proof (log2_ratio_scaled n d e 52 a b Hn Hd ltac:(lia) Hs) as H52.
  assert (div_half_even a b ≤ 2 ^ 53) as Hhi
    by (apply div_half_even_ge; [done|]; apply Z.nle_gt; rewrite <- H53; unfold e; lia).
  assert (e ≠ EMIN → 2 ^ 52 ≤ div_half_even a b) as Hlo
    by (intros Hne; apply div_half_even_le; [done|]; apply H52; unfold e in *; lia).
  assert (EMIN ≤ e) as He by (unfold e; lia). set (q := div_half_even a b) in *.
  destruct (Z.eqb_spec q (2 ^ 53)) as [Hq|Hq].
  - change (2 ^ 52) with (Zpos 4503599627370496). cbv iota. destruct (Z.leb_spec ETOP (e + 1)); [done|].
    split; [by vm_compute|]. split; [lia|]. left. by vm_compute.
  - destruct q as [|m|m]; [done| |done]. destruct (Z.leb_spec ETOP e); [done|].
    split; [lia|]. split; [lia|]. destruct (Z.eq_dec e EMIN); [by right|left; auto].
Qed.

Lemma convert_valid neg n d : 0 < n → 0 < d → valid_dbl (convert neg n d).1.
Proof. apply round_ratio_valid. Qed.

Lemma scale10_valid neg m x : 0 ≤ m → valid_dbl (scale10 neg m x).1.
Proof.
  intros Hm. unfold scale10. destruct (Z.eqb_spec m 0); [done|]. destruct (_ <? _); [done|]. destruct (_ <? _); [done|].
  pose proof (pow_pos 10 x ltac:(lia)). apply convert_valid; [nia|by apply pow_pos].
Qed.

Lemma scale2_valid neg m x : 0 ≤ m → valid_dbl (scale2 neg m x).1.
Proof.
  intros Hm. unfold scale2. destruct (Z.eqb_spec m 0); [done|]. destruct (_ <? _); [done|]. destruct (_ <? _); [done|].
  pose proof (scale_pos m 1 x ltac:(lia) ltac:(lia)) as [H1 H2]. destruct (scale m 1 x). by apply convert_valid.
Qed.

Lemma hex_val_nonneg c v : hex_val c = Some v → 0 ≤ v.
Proof.
  unfold hex_val, is_digit, digit_val. intros H. repeat case_match; bools; simplify_eq; lia.
Qed.

Lemma hex_digits_nonneg s : Forall (λ v, 0 ≤ v) (hex_digits s).1.
Proof.
  induction s as [|c s IH]; cbn [hex_digits]; [constructor|]. destruct (hex_val c) as [v|] eqn:Hv; [|constructor].
  apply hex_val_nonneg in Hv. destruct (hex_digits s). by constructor.
Qed.

Lemma hex_value_nonneg l a : 0 ≤ a → Forall (λ v, 0 ≤ v) l → 0 ≤ foldl (λ a v, a * 16 + v) a l.
Proof. intros Ha Hl. revert a Ha. induction Hl; intros; cbn; [done|]. auto with lia. Qed.

Lemma scan_hex_nonneg s m x r : scan_hex s = Some (m, x, r) → 0 ≤ m.
Proof.
  unfold scan_hex. destruct (after_word _ s) as [s1|]; [|done].
  pose proof (hex_digits_nonneg s1) as Hi. destruct (hex_digits s1) as [ip r1].
  assert (∃ fp r2, match after_point r1 with Some r' => hex_digits r' | None => ([], r1) end = (fp, r2) ∧
    Forall (λ v, 0 ≤ v) fp) as (fp & r2 & -> & Hf).
  { destruct (after_point r1) as [r'|]; [|by exists [], r1].
    pose proof (hex_digits_nonneg r'). destruct (hex_digits r') as [fp r2]. by exists fp, r2. }
  pose proof (hex_value_nonneg (ip ++ fp) 0 ltac:(lia) ltac:(by apply Forall_app)) as Hv.
  destruct (ip ++ fp); [done|]. destruct (scan_exponent _ r2). by intros [= <- _ _].
Qed.

Lemma scan_decimal_nonneg s m x r : scan_decimal s = Some (m, x, r) → 0 ≤ m.
Proof.
  unfold scan_decimal. pose proof (take_digits_Forall s) as Hi.
  assert (∃ fp r2, match after_point (drop_digits s) with
      | Some r' => (take_digits r', drop_digits r') | None => ([], drop_digits s) end = (fp, r2) ∧ digits fp)
    as (fp & r2 & -> & Hf).
  { destruct (after_point (drop_digits s)) as [r'|]; eexists _, _; (split; [done|]); [apply take_digits_Forall|constructor]. }
  pose proof (dec_acc_mono 0 (take_digits s ++ fp) ltac:(lia) ltac:(by apply Forall_app)) as Hv.
  destruct (take_digits s ++ fp); [done|]. destruct (scan_exponent _ r2). by intros [= <- _ _].
Qed.

Lemma strtod_valid s : is_nan (strtod s).1.1 = true ∨ valid_dbl (strtod s).1.1.
Proof.
  unfold strtod. destruct (take_sign (skip_space s)) as [neg s1].
  destruct (after_word #"inf" s1); [by right|]. destruct (after_word #"nan" s1); [by left|]. right.
  destruct (scan_hex s1) as [[[m x] r]|] eqn:Hh.
  - apply scan_hex_nonneg in Hh. pose proof (scale2_valid neg m x Hh) as Hv. by destruct (scale2 neg m x).
  - destruct (scan_decimal s1) as [[[m x] r]|] eqn:Hd; [|done].
    apply scan_decimal_nonneg in Hd. pose proof (scale10_valid neg m x Hd) as Hv. by destruct (scale10 neg m x).
Qed.

Lemma parse_double_valid s v : parse_double s = Some v → valid_dbl v.
Proof.
  unfold parse_double. destruct s as [|c s]; [done|]. pose proof (strtod_valid (c :: s)) as Hv.
  destruct (strtod (c :: s)) as [[u rest] range]. cbn [fst] in Hv. destruct (range && _); [done|].
  destruct rest; [|done]. destruct (is_nan u); [done|]. intros [= <-]. by destruct Hv.
Qed.

(** ** The reply of a double *)

Lemma deq_finite v neg m e : deq v (S754_finite neg m e) = true → v = S754_finite neg m e.
Proof.
  intros H. assert (is_nan v = false) as Hv by (by destruct v as [| | |]).
  apply deq_key in H; [|done..]. destruct v as [[]|[]| |[] m' e'], neg; try done; cbn in H; injection H; intros; f_equal; lia.
Qed.

Lemma erange_normal v n d : subnormal v = false → (∃ neg m e, v = S754_finite neg m e) → erange v n d = false.
Proof. intros Hs (neg & m & e & ->). cbn in *. by rewrite Hs. Qed.

Lemma parse_double_of_strtod s v r :
  strtod s = (v, [], r) → s ≠ [] → is_nan v = false → r = false → parse_double s = Some v.
Proof. intros Hs Hne Hn ->. unfold parse_double. destruct s; [done|]. by rewrite Hs, Hn. Qed.

Lemma strtod_double_text v :
  valid_dbl v → ∃ r, strtod (double_text v) = (v, [], r) ∧ (subnormal v = false → r = false).
Proof.
  intros Hv. destruct v as [neg|neg| |neg m e]; [destruct neg; by eexists|destruct neg; by eexists|done|].
  unfold double_text. destruct (strtod_fmt_g neg 15 m e ltac:(lia) Hv) as (n & d & Hn & Hd & H15 & _). rewrite H15. cbn [fst].
  destruct (deq (round_ratio neg n d) (S754_finite neg m e)) eqn:Hq; cbn [negb].
  - apply deq_finite in Hq. rewrite H15, Hq. eexists. split; [done|]. intros. apply erange_normal; eauto.
  - destruct (strtod_fmt_g neg 17 m e ltac:(lia) Hv) as (n' & d' & Hn' & Hd' & -> & H17). rewrite H17 by lia.
    eexists. split; [done|]. intros. apply erange_normal; eauto.
Qed.

(** C22: a double that is not NaN is sent as a bulk string that reads back as
    the same double: [strtod] consumes the whole text and returns exactly the
    number (sign of zero and infinities included), and [parse_double] accepts it
    as an argument unless it is subnormal. *)
Theorem reply_double_roundtrip (out : Buffer) (v : dbl) :
  valid_dbl v →
  data (reply_double out v) = data out ++ enc_bulk (double_text v) ∧
  (∃ range, strtod (double_text v) = (v, [], range)) ∧
  (subnormal v = false → parse_double (double_text v) = Some v).
Proof.
  intros Hv. destruct (strtod_double_text v Hv) as (r & Hr & Hs). split; [apply reply_bulk_cstr_data|].
  split; [by exists r|]. intros Hn. apply (parse_double_of_strtod _ v r); [done| | |auto].
  - intros He. rewrite He in Hr. vm_compute in Hr. injection Hr as Hr _. subst v. by vm_compute in He.
  - by destruct v.
Qed.

Lemma reply_double_roundtrip_witness :
  let v := round_ratio true 1 10 in
  valid_dbl v ∧ double_text v = #"-0.1" ∧ parse_double (double_text v) = Some v.
Proof.
  cbv zeta. split; [apply round_ratio_valid; lia|]. split; [vm_compute; reflexivity|].
  apply (reply_double_roundtrip buffer_init (round_ratio true 1 10)); [apply round_ratio_valid; lia|vm_compute; reflexivity].
Defined.

End DblTextProps.
