(* ===== verification/DblArith.v ===== *)
(** * Arithmetic of doubles

    [+], [-], [*], [/] and the conversions between doubles and integers, as
    IEEE 754 defines them: the exact result, rounded once to nearest with ties
    to even ([round_ratio]), with the special cases for zeros, infinities and
    NaN.  An expression of the sources is evaluated operation by operation in
    this format. *)

From S2P Require Import Prelude CLib Dbl DblText DblTextProps.
Import Dbl DblText DblTextProps.
Local Open Scope Z_scope.

Module DblArith.

Definition dneg (v : dbl) : dbl :=
  match v with
  | S754_zero s => S754_zero (negb s)
  | S754_infinity s => S754_infinity (negb s)
  | S754_finite s m e => S754_finite (negb s) m e
  | S754_nan => S754_nan
  end.

(** The double nearest to [n / d] for positive [d]; an exact zero is [zero]. *)
Definition round_quotient (zero : dbl) (n d : Z) : dbl :=
  match n with
  | Z0 => zero
  | Zpos p => round_ratio false (Zpos p) d
  | Zneg p => round_ratio true (Zpos p) d
  end.

Definition signed (s : bool) (m : positive) : Z := if s then Zneg m else Zpos m.

Definition dadd (a b : dbl) : dbl :=
  match a, b with
  | S754_nan, _ | _, S754_nan => S754_nan
  | S754_infinity s, S754_infinity t => if Bool.eqb s t then a else S754_nan
  | S754_infinity _, _ => a
  | _, S754_infinity _ => b
  | S754_zero s, S754_zero t => S754_zero (s && t)
  | S754_zero _, _ => b
  | _, S754_zero _ => a
  | S754_finite s m e, S754_finite t n f =>
      let k := Z.min e f in
      let sum := signed s m * 2 ^ (e - k) + signed t n * 2 ^ (f - k) in
      let '(p, q) := scale sum 1 k in
      round_quotient (S754_zero false) p q
  end.

Definition dsub (a b : dbl) : dbl := dadd a (dneg b).

Definition dmul (a b : dbl) : dbl :=
  match a, b with
  | S754_nan, _ | _, S754_nan => S754_nan
  | S754_infinity s, S754_infinity t => S754_infinity (xorb s t)
  | S754_infinity s, S754_finite t _ _ | S754_finite s _ _, S754_infinity t => S754_infinity (xorb s t)
  | S754_infinity _, S754_zero _ | S754_zero _, S754_infinity _ => S754_nan
  | S754_zero s, S754_zero t | S754_zero s, S754_finite t _ _ | S754_finite s _ _, S754_zero t =>
      S754_zero (xorb s t)
  | S754_finite s m e, S754_finite t n f =>
      let '(p, q) := scale (Zpos m * Zpos n) 1 (e + f) in round_ratio (xorb s t) p q
  end.

Definition ddiv (a b : dbl) : dbl :=
  match a, b with
  | S754_nan, _ | _, S754_nan => S754_nan
  | S754_infinity _, S754_infinity _ | S754_zero _, S754_zero _ => S754_nan
  | S754_infinity s, (S754_zero t | S754_finite t _ _) => S754_infinity (xorb s t)
  | S754_finite s _ _, S754_zero t => S754_infinity (xorb s t)
  | (S754_zero s | S754_finite s _ _), S754_infinity t => S754_zero (xorb s t)
  | S754_zero s, S754_finite t _ _ => S754_zero (xorb s t)
  | S754_finite s m e, S754_finite t n f =>
      let '(p, q) := scale (Zpos m) (Zpos n) (e - f) in round_ratio (xorb s t) p q
  end.

(** [(double)z] and a decimal constant [n / d] of the sources. *)
Definition of_int (z : Z) : dbl := round_quotient (S754_zero false) z 1.
Definition constant (n d : Z) : dbl := round_quotient (S754_zero false) n d.

(** The integer part of a finite number, truncated towards zero. *)
Definition trunc (v : dbl) : option Z :=
  match v with
  | S754_zero _ => Some 0
  | S754_finite s m e =>
      let '(n, d) := scale (Zpos m) 1 e in Some (if s : bool then - (n / d) else n / d)
  | S754_infinity _ | S754_nan => None
  end.

(** Conversion to an integer type with the values [lo..hi]: out of range it is
    undefined. *)
Definition to_int (lo hi : Z) (v : dbl) : res Z :=
  match trunc v with
  | Some z => if (lo <=? z) && (z <=? hi) then Ret z else Undef UB_float_cast
  | None => Undef UB_float_cast
  end.

(** The executable specification of the standard library computes the same. *)
Definition samples : list dbl :=
  [constant 1 10; constant (-2) 10; constant 3 10; of_int 0; dneg (of_int 0); of_int 360; constant 1 (2 ^ 1074);
   constant (2 ^ 60 + 1) 3; S754_infinity true; S754_nan; constant (2 ^ 1023) 1; constant (-7) (2 ^ 1060)].

Example arithmetic_agrees :
  (a ← samples; b ← samples; [dadd a b; dsub a b; dmul a b; ddiv a b]) =
  (a ← samples; b ← samples; [SFadd prec emax a b; SFsub prec emax a b; SFmul prec emax a b; SFdiv prec emax a b]).
Proof. vm_compute. reflexivity. Qed.

(** ** Results are numbers of the format *)

Lemma round_quotient_valid zero n d : valid_dbl zero → 0 < d → valid_dbl (round_quotient zero n d).
Proof. intros Hz Hd. destruct n; [done|..]; by apply round_ratio_valid. Qed.

Lemma of_int_valid z : valid_dbl (of_int z).
Proof. by apply round_quotient_valid. Qed.

Lemma constant_valid n d : 0 < d → valid_dbl (constant n d).
Proof. by apply round_quotient_valid. Qed.

Lemma dneg_valid v : valid_dbl v → valid_dbl (dneg v).
Proof. by destruct v. Qed.

Definition is_finite (v : dbl) : bool := match v with S754_zero _ | S754_finite _ _ _ => true | _ => false end.

Lemma dadd_valid a b : valid_dbl a → valid_dbl b → is_finite a || is_finite b = true → valid_dbl (dadd a b).
Proof.
  intros Ha Hb Hf. destruct a as [s|s| |s m e], b as [t|t| |t n f]; try done. cbn [dadd].
  destruct (scale _ 1 (Z.min e f)) as [p q] eqn:Hs. injection Hs as _ <-. apply round_quotient_valid; [done|].
  rewrite Z.mul_1_l. by apply pow_pos.
Qed.

Lemma ddiv_valid a s m e : valid_dbl a → valid_dbl (ddiv a (S754_finite s m e)).
Proof.
  intros Ha. destruct a as [t|t| |t n f]; try done. cbn [ddiv].
  pose proof (scale_pos (Zpos n) (Zpos m) (f - e) eq_refl eq_refl) as [H1 H2]. destruct (scale _ _ _). by apply round_ratio_valid.
Qed.

Lemma dmul_valid a s m e : valid_dbl a → valid_dbl (dmul a (S754_finite s m e)).
Proof.
  intros Ha. destruct a as [t|t| |t n f]; try done. cbn [dmul].
  pose proof (scale_pos (Zpos n * Zpos m) 1 (f + e) eq_refl eq_refl) as [H1 H2]. destruct (scale _ _ _). by apply round_ratio_valid.
Qed.

Lemma valid_not_nan v : valid_dbl v → is_nan v = false.
Proof. by destruct v. Qed.

End DblArith.
