(* ===== verification/DblReal.v ===== *)
(** * The rounding error of double arithmetic

    [val] is the real number a double stands for.  Every operation returns the
    exact result up to half a unit in the last place: a relative error of
    [2^-53], and [2^-1075] where numbers become subnormal ([near]).  Comparison
    and truncation are those of the real numbers. *)

From Stdlib Require Import Reals Lra.
From S2P Require Import Prelude Dbl DblText DblTextProps DblArith.
Import Dbl DblText DblTextProps DblArith.

Module DblReal.

Local Open Scope R_scope.

Lemma Rabs_between x b : Rabs x <= b ↔ - b <= x <= b.
Proof. unfold Rabs. destruct (Rcase_abs x); lra. Qed.

(** ** Powers of two *)

Definition pow2 (e : Z) : R := powerRZ 2 e.

Lemma pow2_gt0 e : 0 < pow2 e.
Proof. apply powerRZ_lt. lra. Qed.

Lemma pow2_add e f : pow2 (e + f) = pow2 e * pow2 f.
Proof. apply powerRZ_add. lra. Qed.

Lemma pow2_nonneg e : (0 ≤ e)%Z → pow2 e = IZR (2 ^ e).
Proof. intros He. unfold pow2. symmetry. rewrite <- (Z2Nat.id e He), <- pow_powerRZ, <- pow_IZR. done. Qed.

Lemma pow2_0 : pow2 0 = 1.
Proof. done. Qed.

Lemma pow2_opp e : pow2 (- e) * pow2 e = 1.
Proof. rewrite <- pow2_add, Z.add_opp_diag_l. done. Qed.

Lemma pow2_inv e : pow2 (- e) = / pow2 e.
Proof. pose proof (pow2_gt0 e). apply (Rmult_eq_reg_r (pow2 e)); [|lra]. rewrite pow2_opp, Rinv_l; lra. Qed.

Lemma pow2_le e f : (e ≤ f)%Z → pow2 e <= pow2 f.
Proof.
  intros H. replace f with (e + (f - e))%Z by lia. rewrite pow2_add, (pow2_nonneg (f - e)) by lia.
  assert (1 <= IZR (2 ^ (f - e))) by (apply IZR_le; pose proof (Z.pow_pos_nonneg 2 (f - e)); lia).
  pose proof (pow2_gt0 e). nra.
Qed.

(** ** Values *)

Definition val (v : dbl) : R :=
  match v with
  | S754_finite s m e => IZR (signed s m) * pow2 e
  | S754_zero _ | S754_infinity _ | S754_nan => 0
  end.

(** [v] is a finite number of the format. *)
Definition number (v : dbl) : Prop := valid_dbl v ∧ is_finite v = true.

Lemma val_dneg v : val (dneg v) = - val v.
Proof.
  destruct v as [| | |s m e]; cbn [val dneg]; [lra..|]. rewrite Ropp_mult_distr_l. f_equal.
  rewrite <- opp_IZR. f_equal. by destruct s.
Qed.

(** A ratio of integers scaled by a power of two. *)
Lemma scale_val n d k a b :
  (0 < d)%Z → scale n d k = (a, b) → (0 < b)%Z ∧ IZR a / IZR b = IZR n / IZR d * pow2 k.
Proof.
  intros Hd [= <- <-]. split; [pose proof (pow_pos 2 (- k)); nia|]. rewrite !mult_IZR, <- !pow2_nonneg by lia.
  assert (pow2 k = pow2 (Z.max 0 k) * / pow2 (Z.max 0 (- k))) as ->
    by (rewrite <- pow2_inv, <- pow2_add; f_equal; lia).
  pose proof (pow2_gt0 (Z.max 0 (- k))). assert (IZR d ≠ 0) by (apply not_0_IZR; lia). field. lra.
Qed.

(** ** Rounding *)

(** The error bound of one rounding. *)
Definition ulp (x : R) : R := Rabs x * pow2 (-53) + pow2 (-1075).

Definition near (v : dbl) (x : R) : Prop := number v ∧ Rabs (val v - x) <= ulp x.

(** The nearest integer, in the real numbers. *)
Lemma div_half_even_real n d : (0 < d)%Z → Rabs (IZR (div_half_even n d) - IZR n / IZR d) <= / 2.
Proof.
  intros Hd. pose proof (div_half_even_near n d Hd) as H. apply IZR_le in H. rewrite mult_IZR, abs_IZR, minus_IZR, mult_IZR in H.
  assert (0 < IZR d) by (by apply IZR_lt).
  replace (IZR (div_half_even n d) - IZR n / IZR d) with ((IZR (div_half_even n d) * IZR d - IZR n) / IZR d) by (field; lra).
  unfold Rdiv. rewrite Rabs_mult, (Rabs_right (/ IZR d)) by (apply Rle_ge, Rlt_le, Rinv_0_lt_compat; lra).
  apply (Rmult_le_reg_r (IZR d)); [lra|]. rewrite Rmult_assoc, Rinv_l by lra. lra.
Qed.

Lemma log2_ratio_real n d j : (0 < n)%Z → (0 < d)%Z → (j ≤ log2_ratio n d)%Z ↔ pow2 j <= IZR n / IZR d.
Proof.
  intros Hn Hd. rewrite log2_ratio_spec by done. destruct (scale n d (- j)) as [a b] eqn:Hs.
  destruct (scale_val n d (- j) a b Hd Hs) as [Hb Hv]. cbn [fst snd]. rewrite pow2_inv in Hv.
  assert (0 < IZR b) by (by apply IZR_lt). pose proof (pow2_gt0 j).
  assert (IZR n / IZR d = IZR a / IZR b * pow2 j) as -> by (rewrite Hv; field; split; [lra|apply not_0_IZR; lia]).
  split; intros H1.
  - apply IZR_le in H1. assert (1 <= IZR a / IZR b); [|nra]. apply (Rmult_le_reg_r (IZR b)); [lra|].
    unfold Rdiv. rewrite Rmult_assoc, Rinv_l by lra. lra.
  - apply le_IZR. assert (1 <= IZR a / IZR b) by nra.
    replace (IZR a) with (IZR a / IZR b * IZR b) by (field; lra). nra.
Qed.

Lemma round_ratio_error neg n d :
  (0 < n)%Z → (0 < d)%Z → IZR n / IZR d <= pow2 1000 →
  near (round_ratio neg n d) (if neg then - (IZR n / IZR d) else IZR n / IZR d).
Proof.
  intros Hn Hd Hmax. set (x := IZR n / IZR d) in *.
  pose proof (round_ratio_valid neg n d Hn Hd) as Hvalid. revert Hvalid. unfold round_ratio.
  set (e := Z.max (log2_ratio n d - 52) EMIN). destruct (scale n d (- e)) as [a b] eqn:Hs.
  destruct (scale_val n d (- e) a b Hd Hs) as [Hb Hv]. fold x in Hv.
  pose proof (div_half_even_real a b Hb) as Hq. rewrite Hv in Hq. set (q := div_half_even a b) in *.
  assert (0 < x) as Hx by (apply Rdiv_lt_0_compat; by apply IZR_lt).
  assert (Rabs (IZR q * pow2 e - x) <= pow2 (e - 1)) as Herr.
  { replace (IZR q * pow2 e - x) with ((IZR q - x * pow2 (- e)) * pow2 e)
      by (rewrite Rmult_minus_distr_r, Rmult_assoc, pow2_opp; lra).
    rewrite Rabs_mult, (Rabs_right (pow2 e)) by (apply Rle_ge, Rlt_le, pow2_gt0).
    replace (e - 1)%Z with (-1 + e)%Z by lia. rewrite pow2_add. change (pow2 (-1)) with (/ (2 * 1)).
    pose proof (pow2_gt0 e). nra. }
  assert (pow2 (e - 1) <= ulp x) as Hulp.
  { unfold ulp. rewrite (Rabs_right x) by lra. pose proof (pow2_gt0 (-1075)). pose proof (pow2_gt0 (-53)).
    destruct (Z.le_gt_cases (log2_ratio n d - 52) EMIN) as [Hle|Hgt].
    - assert (e = EMIN) as -> by (unfold e; lia). unfold EMIN. change (-1074 - 1)%Z with (-1075)%Z. nra.
    - assert (pow2 (log2_ratio n d) <= x) by (by apply log2_ratio_real).
      replace (e - 1)%Z with (log2_ratio n d + -53)%Z by (unfold e; lia). rewrite pow2_add. nra. }
  assert (e ≤ 948)%Z as He.
  { assert (log2_ratio n d ≤ 1000)%Z; [|unfold e, EMIN; lia]. apply Z.nlt_ge. intros Hc.
    assert (pow2 1001 <= x) by (apply log2_ratio_real; [done..|lia]).
    pose proof (pow2_gt0 1000). change 1001%Z with (1 + 1000)%Z in *. rewrite pow2_add in *.
    change (pow2 1) with (2 * 1) in *. lra. }
  assert (0 ≤ q)%Z as Hq0.
  { apply Z.nlt_ge. intros Hc. assert (IZR q <= -1) by (apply IZR_le; lia). pose proof (pow2_gt0 (- e)).
    assert (0 < x * pow2 (- e)) by nra. apply Rabs_between in Hq. lra. }
  assert (∃ q' e', (if (q =? 2 ^ 53)%Z then (2 ^ 52, e + 1)%Z else (q, e)) = (q', e') ∧
    IZR q' * pow2 e' = IZR q * pow2 e ∧ (0 ≤ q')%Z ∧ (e' < ETOP)%Z) as (q' & e' & -> & Hqe & Hq' & He').
  { destruct (Z.eqb_spec q (2 ^ 53)) as [->|]; [|exists q, e; unfold ETOP; auto with lia].
    exists (2 ^ 52)%Z, (e + 1)%Z. split; [done|]. split; [|unfold ETOP; lia].
    replace (e + 1)%Z with (1 + e)%Z by lia. rewrite pow2_add. change (pow2 1) with (2 * 1).
    change (2 ^ 53)%Z with (2 * 2 ^ 52)%Z. rewrite mult_IZR. lra. }
  assert (ulp (if neg then - x else x) = ulp x) as Hsign by (unfold ulp; destruct neg; by rewrite ?Rabs_Ropp).
  unfold near. rewrite Hsign. rewrite <- Hqe in Herr. rewrite Rabs_between in Herr.
  destruct q' as [|m|]; [| |lia]; intros Hvalid; (split; [split; [done|]|apply Rabs_between]).
  - done.
  - cbn [val]. destruct neg; lra.
  - by destruct (Z.leb_spec ETOP e'); [lia|].
  - destruct (Z.leb_spec ETOP e'); [lia|]. cbn [val]. destruct neg; cbn [signed]; [|lra].
    change (Zneg m) with (- Zpos m)%Z. rewrite opp_IZR. lra.
Qed.

Lemma ulp_pos x : 0 < ulp x.
Proof. unfold ulp. pose proof (pow2_gt0 (-53)). pose proof (pow2_gt0 (-1075)). pose proof (Rabs_pos x). nra. Qed.

Lemma near_exact v x : number v → val v = x → near v x.
Proof. intros Hv <-. split; [done|]. rewrite Rminus_diag, Rabs_R0. apply Rlt_le, ulp_pos. Qed.

Lemma round_quotient_error zero n d :
  number zero → val zero = 0 → (0 < d)%Z → Rabs (IZR n / IZR d) <= pow2 1000 →
  near (round_quotient zero n d) (IZR n / IZR d).
Proof.
  intros Hz Hv Hd Hmax. assert (IZR d ≠ 0) by (apply not_0_IZR; lia). destruct n as [|m|m]; cbn [round_quotient].
  - apply near_exact; [done|]. rewrite Hv. field. done.
  - apply (round_ratio_error false (Zpos m) d); [done..|]. apply Rabs_between in Hmax; lra.
  - change (Zneg m) with (- Zpos m)%Z in *. rewrite opp_IZR in *.
    replace (- IZR (Zpos m) / IZR d) with (- (IZR (Zpos m) / IZR d)) in * by (field; done).
    apply (round_ratio_error true (Zpos m) d); [done..|]. apply Rabs_between in Hmax. lra.
Qed.

(** ** Operations *)

Lemma of_int_near z : Rabs (IZR z) <= pow2 1000 → near (of_int z) (IZR z).
Proof.
  intros Hz. unfold of_int. replace (IZR z) with (IZR z / IZR 1) in * by (cbn; field).
  by apply round_quotient_error.
Qed.

Lemma dneg_number v : number v → number (dneg v).
Proof. intros [Hv Hf]. split; [by apply dneg_valid|]. by destruct v. Qed.

Lemma signed_val s m e f k : (f ≤ e)%Z → k = f → IZR (signed s m * 2 ^ (e - k)) * pow2 k = IZR (signed s m) * pow2 e.
Proof.
  intros Hf ->. rewrite mult_IZR, <- pow2_nonneg, Rmult_assoc, <- pow2_add by lia. do 2 f_equal. lia.
Qed.

Lemma dadd_near a b :
  number a → number b → Rabs (val a + val b) <= pow2 1000 → near (dadd a b) (val a + val b).
Proof.
  intros Ha Hb Hmax.
  destruct a as [s|s| |s m e]; [|by destruct Ha|by destruct Ha|]; (destruct b as [t|t| |t n f]; [|by destruct Hb|by destruct Hb|]);
    cbn [dadd].
  - apply near_exact; [done|cbn; lra].
  - apply near_exact; [done|cbn; lra].
  - apply near_exact; [done|cbn; lra].
  - set (k := Z.min e f) in *. set (sum := (signed s m * 2 ^ (e - k) + signed t n * 2 ^ (f - k))%Z).
    destruct (scale sum 1 k) as [p q] eqn:Hs. destruct (scale_val sum 1 k p q ltac:(done) Hs) as [Hq Hv].
    assert (IZR p / IZR q = val (S754_finite s m e) + val (S754_finite t n f)) as Heq.
    { rewrite Hv. unfold sum. cbn [val]. rewrite plus_IZR. replace (IZR 1) with 1 by done. rewrite Rdiv_1_r, Rmult_plus_distr_r.
      f_equal; apply (signed_val _ _ _ k); [unfold k; lia|done|unfold k; lia|done]. }
    rewrite <- Heq in *. by apply round_quotient_error.
Qed.

Lemma dsub_near a b :
  number a → number b → Rabs (val a - val b) <= pow2 1000 → near (dsub a b) (val a - val b).
Proof.
  intros Ha Hb. unfold dsub, Rminus. rewrite <- val_dneg. apply dadd_near; [done|by apply dneg_number].
Qed.

Lemma sign_product s t m n k :
  (if xorb s t then - (IZR (Zpos m) * IZR (Zpos n) * pow2 k) else IZR (Zpos m) * IZR (Zpos n) * pow2 k) =
  IZR (signed s m) * IZR (signed t n) * pow2 k.
Proof.
  destruct s, t; cbn [xorb signed]; change (Zneg m) with (- Zpos m)%Z; change (Zneg n) with (- Zpos n)%Z; rewrite ?opp_IZR; lra.
Qed.

Lemma dmul_near a b :
  number a → number b → Rabs (val a * val b) <= pow2 1000 → near (dmul a b) (val a * val b).
Proof.
  intros Ha Hb Hmax.
  destruct a as [s|s| |s m e]; [|by destruct Ha|by destruct Ha|]; (destruct b as [t|t| |t n f]; [|by destruct Hb|by destruct Hb|]);
    cbn [dmul].
  - apply near_exact; [done|cbn; lra].
  - apply near_exact; [done|cbn; lra].
  - apply near_exact; [done|cbn; lra].
  - destruct (scale _ 1 (e + f)) as [p q] eqn:Hs.
    destruct (scale_val (Zpos m * Zpos n) 1 (e + f) p q ltac:(done) Hs) as [Hq Hv].
    rewrite mult_IZR in Hv. unfold Rdiv in Hv at 2. rewrite Rinv_1, Rmult_1_r in Hv.
    assert (0 < p)%Z as Hp by (pose proof (scale_pos (Zpos m * Zpos n) 1 (e + f)) as H'; rewrite Hs in H'; cbn in H'; lia).
    assert (val (S754_finite s m e) * val (S754_finite t n f) =
      if xorb s t then - (IZR p / IZR q) else IZR p / IZR q) as Heq.
    { rewrite Hv, (sign_product s t m n). cbn [val]. rewrite pow2_add. lra. }
    rewrite Heq in *. apply round_ratio_error; [done..|]. destruct (xorb s t); apply Rabs_between in Hmax; lra.
Qed.

Lemma ddiv_near a b :
  number a → number b → val b ≠ 0 → Rabs (val a / val b) <= pow2 1000 → near (ddiv a b) (val a / val b).
Proof.
  intros Ha Hb Hb0 Hmax.
  destruct b as [t|t| |t n f]; [by destruct Hb0|by destruct Hb|by destruct Hb|].
  destruct a as [s|s| |s m e]; [|by destruct Ha|by destruct Ha|]; cbn [ddiv].
  { apply near_exact; [done|]. cbn [val]. unfold Rdiv. lra. }
  destruct (scale _ _ (e - f)) as [p q] eqn:Hs.
  destruct (scale_val (Zpos m) (Zpos n) (e - f) p q ltac:(done) Hs) as [Hq Hv].
  assert (0 < p)%Z as Hp by (pose proof (scale_pos (Zpos m) (Zpos n) (e - f)) as H'; rewrite Hs in H'; cbn in H'; lia).
  assert (IZR (Zpos n) ≠ 0) by (by apply not_0_IZR). pose proof (pow2_gt0 f).
  assert (val (S754_finite s m e) / val (S754_finite t n f) = if xorb s t then - (IZR p / IZR q) else IZR p / IZR q) as Heq.
  { rewrite Hv. unfold Z.sub. rewrite pow2_add, pow2_inv. cbn [val].
    destruct s, t; cbn [xorb signed]; change (Zneg m) with (- Zpos m)%Z; change (Zneg n) with (- Zpos n)%Z; rewrite ?opp_IZR;
      field; lra. }
  rewrite Heq in *. apply round_ratio_error; [done..|]. destruct (xorb s t); apply Rabs_between in Hmax; lra.
Qed.

(** ** Comparison and truncation *)

Lemma signed_pos_val m e : 0 < IZR (Zpos m) * pow2 e.
Proof. pose proof (pow2_gt0 e). assert (0 < IZR (Zpos m)) by (by apply IZR_lt). nra. Qed.

Lemma finite_lt m e n f :
  canonical m e → canonical n f → (e < f ∨ e = f ∧ Zpos m < Zpos n)%Z → IZR (Zpos m) * pow2 e < IZR (Zpos n) * pow2 f.
Proof.
  intros (Hm & He & _) (_ & _ & Hn) [Hef|[-> Hmn]].
  - destruct Hn as [Hn|Hn]; [|lia]. apply IZR_lt in Hm. apply IZR_le in Hn. pose proof (pow2_gt0 e).
    assert (pow2 (e + 1) <= pow2 f) by (apply pow2_le; lia). rewrite pow2_add in *. change (pow2 1) with (2 * 1) in *.
    change (2 ^ 53)%Z with (2 ^ 52 * 2)%Z in Hm. rewrite mult_IZR in Hm.
    assert (0 < IZR (2 ^ 52)) by (by apply IZR_lt). pose proof (pow2_gt0 f). nra.
  - apply IZR_lt in Hmn. pose proof (pow2_gt0 f). nra.
Qed.

Lemma key_val a b : number a → number b → klt (dkey a) (dkey b) → val a < val b.
Proof.
  intros [Ha Fa] [Hb Fb]. unfold klt.
  destruct a as [s|s| |[] m e]; try done; destruct b as [t|t| |[] n f]; try done; cbn [dkey fst snd val signed]; intros H; try lia;
    change (Zneg ?m) with (- Zpos m)%Z; rewrite ?opp_IZR; try (pose proof (signed_pos_val m e)); try (pose proof (signed_pos_val n f));
    try lra.
  - assert (IZR (Zpos n) * pow2 f < IZR (Zpos m) * pow2 e) by (apply finite_lt; [done..|lia]). lra.
  - apply finite_lt; [done..|lia].
Qed.

Lemma dlt_val a b : number a → number b → dlt a b = true ↔ val a < val b.
Proof.
  intros Ha Hb. rewrite dlt_key by (apply valid_not_nan; apply Ha || apply Hb). split; [by apply key_val|].
  intros H. destruct (key_total (dkey a) (dkey b)) as [|[Heq|Hgt]]; [done| |].
  - exfalso. destruct Ha as [_ Ha], Hb as [_ Hb].
    destruct a as [s|s| |[] m e]; try done; destruct b as [t|t| |[] n f]; try done; cbn in Heq; simplify_eq; cbn in H; try lra.
    + replace e with f in H by lia. lra.
  - apply (key_val b a) in Hgt; [lra|done..].
Qed.

Lemma dle_val a b : number a → number b → dle a b = true ↔ val a <= val b.
Proof.
  intros Ha Hb. pose proof (valid_not_nan a (proj1 Ha)). pose proof (valid_not_nan b (proj1 Hb)).
  rewrite dle_key, <- dlt_key, dlt_val by done. lra.
Qed.

Lemma trunc_val v c : number v → IZR c <= val v < IZR c + 1 → (0 ≤ c)%Z → trunc v = Some c.
Proof.
  intros [Hv Hf] Hc Hc0. destruct v as [s|s| |[] m e]; try done; cbn [trunc val signed] in *.
  - f_equal. assert (c < 1)%Z by (apply lt_IZR; lra). lia.
  - apply IZR_le in Hc0. pose proof (signed_pos_val m e). change (Zneg m) with (- Zpos m)%Z in Hc. rewrite opp_IZR in Hc. lra.
  - destruct (scale (Zpos m) 1 e) as [n d] eqn:Hs. destruct (scale_val (Zpos m) 1 e n d ltac:(done) Hs) as [Hd Hval].
    f_equal. symmetry. apply (Zdiv_unique n d c (n - c * d)); [|lia].
    assert (0 < IZR d) by (by apply IZR_lt). unfold Rdiv in Hval at 2. rewrite Rinv_1, Rmult_1_r in Hval. rewrite <- Hval in Hc.
    assert (IZR n = IZR n / IZR d * IZR d) as Hn by (field; lra).
    split; [apply Z.le_0_sub, le_IZR|apply (Z.add_lt_mono_r _ _ (c * d)), lt_IZR]; rewrite ?plus_IZR, ?minus_IZR, ?mult_IZR.
    + rewrite Hn. nra.
    + replace (n - c * d + c * d)%Z with n by lia. rewrite ?plus_IZR, ?mult_IZR. rewrite Hn. nra.
Qed.

End DblReal.
