(* ===== verification/ZSet.v ===== *)
(** * The sorted-set type of store.c

    An array of entries ordered by (score, member) and a chained hash index
    from member to score.  The operations on the [ZSet] itself are here:
    comparison, the index, the binary search, insertion, and the parts of
    [store_zset_add], [store_zset_score] and [store_zset_rank] below the
    keyspace.  Array reads are checked, so a binary search that left the array
    would be undefined behaviour. *)

From S2P Require Import Prelude CLib Chain FieldHash Dbl.
Import FieldHash Dbl.

Module ZSet.

Record ZSetEntry := mkZSetEntry { ze_member : bytes; ze_score : dbl }.

Record ZIndexNode := mkZIndexNode { zn_member : bytes; zn_hash : Z; zn_score : dbl }.

(** [entries[0..len)] with the capacity of the array, and the index buckets. *)
Record ZSet := mkZSet {
  z_entries : list ZSetEntry;
  z_cap : nat;
  z_index : list (list ZIndexNode);
  z_index_size : nat;
}.

Definition z_len (z : ZSet) : nat := length (z_entries z).

(** [xcalloc(1, sizeof(ZSet))] *)
Definition zset_empty : ZSet := {| z_entries := []; z_cap := 0; z_index := []; z_index_size := 0 |}.

Definition zset_cmp (score : dbl) (member : bytes) (e : ZSetEntry) : Z :=
  if dlt score (ze_score e) then -1
  else if dlt (ze_score e) score then 1
  else strcmp member (ze_member e).

(** The chain walk of [zindex_find]. *)
Fixpoint zfind_loop (c : list ZIndexNode) (member : bytes) (h : Z) : option ZIndexNode :=
  match c with
  | [] => None
  | n :: c' =>
      if (zn_hash n =? h)%Z && streq (zn_member n) member then Some n else zfind_loop c' member h
  end.

Definition zindex_find (z : ZSet) (member : bytes) (h : Z) : option ZIndexNode :=
  if z_index_size z =? 0 then None
  else zfind_loop (z_index z !!! mask_slot (z_index_size z) h) member h.

(** [node->score = score], where [node] is what [zindex_find] returned. *)
Fixpoint zset_score_loop (c : list ZIndexNode) (member : bytes) (h : Z) (score : dbl) : list ZIndexNode :=
  match c with
  | [] => []
  | n :: c' =>
      if (zn_hash n =? h)%Z && streq (zn_member n) member
      then {| zn_member := zn_member n; zn_hash := zn_hash n; zn_score := score |} :: c'
      else n :: zset_score_loop c' member h score
  end.

Definition zindex_set_score (z : ZSet) (member : bytes) (h : Z) (score : dbl) : ZSet :=
  let slot := mask_slot (z_index_size z) h in
  {| z_entries := z_entries z; z_cap := z_cap z;
     z_index := <[slot := zset_score_loop (z_index z !!! slot) member h score]> (z_index z);
     z_index_size := z_index_size z |}.

(** Growing the index: every node to the front of its new chain. *)
Definition zindex_grow (z : ZSet) : ZSet :=
  let size := if z_index_size z =? 0 then 8 else z_index_size z * 2 in
  {| z_entries := z_entries z; z_cap := z_cap z;
     z_index := rehash (λ n, mask_slot size (zn_hash n)) (z_index z) size;
     z_index_size := size |}.

Definition zindex_add (z : ZSet) (member : bytes) (h : Z) (score : dbl) : ZSet :=
  let z := if z_index_size z <=? z_len z then zindex_grow z else z in
  let slot := mask_slot (z_index_size z) h in
  {| z_entries := z_entries z; z_cap := z_cap z;
     z_index := <[slot := {| zn_member := member; zn_hash := h; zn_score := score |}
                            :: z_index z !!! slot]> (z_index z);
     z_index_size := z_index_size z |}.

(** The loop of [zset_lower_bound]; it ends because [hi - lo] shrinks, so the
    length of the array is enough fuel ([lower_bound_loop_spec]). *)
Fixpoint lower_bound_loop (fuel : nat) (es : list ZSetEntry) (score : dbl) (member : bytes)
    (lo hi : nat) : res nat :=
  match fuel with
  | O => Ret lo
  | S f =>
      if lo <? hi then
        let mid := lo + (hi - lo) / 2 in
        match es !! mid with
        | None => Undef UB_out_of_bounds
        | Some e =>
            if (0 <? zset_cmp score member e)%Z
            then lower_bound_loop f es score member (mid + 1) hi
            else lower_bound_loop f es score member lo mid
        end
      else Ret lo
  end.

Definition zset_lower_bound (z : ZSet) (score : dbl) (member : bytes) : res nat :=
  lower_bound_loop (z_len z) (z_entries z) score member 0 (z_len z).

(** Growing the array when it is full, and the [memmove] that opens slot [lo]. *)
Definition zset_insert (z : ZSet) (score : dbl) (member : bytes) : res ZSet :=
  let cap := if z_len z =? z_cap z then (if z_cap z =? 0 then 8 else z_cap z * 2) else z_cap z in
  lo ← zset_lower_bound z score member;
  Ret {| z_entries := take lo (z_entries z)
                        ++ {| ze_member := member; ze_score := score |} :: drop lo (z_entries z);
         z_cap := cap; z_index := z_index z; z_index_size := z_index_size z |}.

(** [store_zset_add] on the set: the new set and [*added]. *)
Definition zset_add (z : ZSet) (score : dbl) (member : bytes) : res (ZSet * Z) :=
  let h := hash64 member in
  match zindex_find z member h with
  | Some node =>
      if deq (zn_score node) score then Ret (z, 0%Z)
      else
        i ← zset_lower_bound z (zn_score node) member;
        match z_entries z !! i with
        | None => Undef UB_out_of_bounds
        | Some old =>
            z' ← zset_insert
                   {| z_entries := take i (z_entries z) ++ drop (S i) (z_entries z);
                      z_cap := z_cap z; z_index := z_index z; z_index_size := z_index_size z |}
                   score (ze_member old);
            Ret (zindex_set_score z' member h score, 0%Z)
        end
  | None =>
      z' ← zset_insert (zindex_add z member h score) score member;
      Ret (z', 1%Z)
  end.

(** [store_zset_score] on the set. *)
Definition zset_score (z : ZSet) (member : bytes) : option dbl :=
  zn_score <$> zindex_find z member (hash64 member).

(** [store_zset_rank] on the set. *)
Definition zset_rank (z : ZSet) (member : bytes) : res (option nat) :=
  match zindex_find z member (hash64 member) with
  | None => Ret None
  | Some node => r ← zset_lower_bound z (zn_score node) member; Ret (Some r)
  end.

(** ** Order *)

(** [a] comes strictly before [b]: by score, then by member. *)
Definition zless (a b : ZSetEntry) : Prop :=
  klt (dkey (ze_score a)) (dkey (ze_score b)) ∨
  dkey (ze_score a) = dkey (ze_score b) ∧ (strcmp (ze_member a) (ze_member b) < 0)%Z.

#[export] Instance zless_trans : Transitive zless.
Proof.
  intros a b c [H1|[H1 H1']] [H2|[H2 H2']]; unfold zless in *.
  - left. by eapply klt_trans.
  - left. by rewrite <- H2.
  - left. by rewrite H1.
  - right. split; [congruence|]. by eapply strcmp_lt_trans.
Qed.

Lemma zless_irrefl a : ¬ zless a a.
Proof. intros [H|[_ H]]; [by apply klt_irrefl in H|]. rewrite strcmp_refl in H. lia. Qed.

Lemma zless_total a b :
  ze_member a ≠ ze_member b → zless a b ∨ zless b a.
Proof.
  intros Hm. unfold zless. destruct (key_total (dkey (ze_score a)) (dkey (ze_score b))) as [?|[He|?]]; auto.
  rewrite (strcmp_antisym (ze_member a)).
  assert (strcmp (ze_member a) (ze_member b) ≠ 0)%Z by (by rewrite strcmp_eq).
  destruct (Z.lt_ge_cases (strcmp (ze_member a) (ze_member b)) 0).
  - left. right. by split.
  - right. right. split; [done|lia].
Qed.

Definition numeric (e : ZSetEntry) : Prop := is_nan (ze_score e) = false.

(** [zset_cmp] decides the order on entries that are numbers. *)
Lemma zset_cmp_pos a e :
  numeric a → numeric e → (0 < zset_cmp (ze_score a) (ze_member a) e)%Z ↔ zless e a.
Proof.
  unfold numeric. intros Ha He. unfold zset_cmp, zless.
  pose proof (dlt_key _ _ Ha He) as H1. pose proof (dlt_key _ _ He Ha) as H2.
  destruct (dlt (ze_score a) (ze_score e)).
  { assert (klt (dkey (ze_score a)) (dkey (ze_score e))) as Hlt by by apply H1.
    split; [lia|]. intros [Hgt|[Heq _]]; exfalso; eapply (klt_irrefl (dkey (ze_score a))).
    - by eapply klt_trans.
    - by rewrite Heq in Hlt. }
  destruct (dlt (ze_score e) (ze_score a)).
  { split; [|lia]. intros _. left. by apply H2. }
  assert (dkey (ze_score e) = dkey (ze_score a)) as Heq.
  { destruct (key_total (dkey (ze_score e)) (dkey (ze_score a))) as [Hk|[Hk|Hk]]; [|done|].
    - apply H2 in Hk. done.
    - apply H1 in Hk. done. }
  rewrite (strcmp_antisym (ze_member e)). split.
  - intros. right. split; [done|lia].
  - intros [Hlt|[_ ?]]; [|lia]. rewrite Heq in Hlt. by apply klt_irrefl in Hlt.
Qed.

(** ** The binary search *)

Lemma sorted_lookup (l : list ZSetEntry) i j a b :
  StronglySorted zless l → l !! i = Some a → l !! j = Some b → i < j → zless a b.
Proof.
  intros Hs Ha Hb Hij. rewrite <- (take_drop j l) in Hs.
  eapply StronglySorted_app_1_elem_of; [exact Hs| |].
  - eapply list_elem_of_lookup_2. rewrite lookup_take_lt by done. exact Ha.
  - eapply (list_elem_of_lookup_2 _ 0). by rewrite lookup_drop, Nat.add_0_r.
Qed.

Lemma lower_bound_loop_spec fuel es x lo hi :
  StronglySorted zless es → Forall numeric es → numeric x →
  lo ≤ hi ≤ length es → hi - lo ≤ fuel →
  (∀ j e, es !! j = Some e → j < lo → zless e x) →
  (∀ j e, es !! j = Some e → hi ≤ j → ¬ zless e x) →
  ∃ i, lower_bound_loop fuel es (ze_score x) (ze_member x) lo hi = Ret i ∧ i ≤ length es ∧
    (∀ j e, es !! j = Some e → j < i → zless e x) ∧
    (∀ j e, es !! j = Some e → i ≤ j → ¬ zless e x).
Proof.
  intros Hs Hn Hx. revert lo hi. induction fuel as [|f IH]; intros lo hi Hb Hf Hlo Hhi; cbn [lower_bound_loop].
  { assert (lo = hi) as -> by lia. exists hi. split_and!; auto; lia. }
  destruct (Nat.ltb_spec lo hi); cycle 1.
  { assert (lo = hi) as -> by lia. exists hi. split_and!; auto; lia. }
  pose proof (Nat.div_mod_eq (hi - lo) 2). pose proof (Nat.mod_upper_bound (hi - lo) 2 ltac:(lia)).
  set (mid := lo + (hi - lo) / 2). assert (lo ≤ mid < hi) by lia.
  destruct (lookup_lt_is_Some_2 es mid) as [e He]; [lia|]. rewrite He.
  assert (numeric e) as Hne by (rewrite Forall_lookup in Hn; eauto).
  pose proof (zset_cmp_pos x e Hx Hne) as Hc.
  destruct (Z.ltb_spec 0 (zset_cmp (ze_score x) (ze_member x) e)) as [Hpos|Hneg].
  - apply IH; [lia|lia| |done]. intros j e' He' Hj. apply Hc in Hpos.
    destruct (decide (j = mid)) as [->|]; [by simplify_eq|].
    transitivity e; [|done]. eapply sorted_lookup; [done|done|done|lia].
  - apply IH; [lia|lia|done|]. intros j e' He' Hj Hz.
    assert (¬ zless e x) as Hnl by (rewrite <- Hc; lia). apply Hnl.
    destruct (decide (j = mid)) as [->|]; [by simplify_eq|].
    transitivity e'; [|done]. eapply sorted_lookup; [done|done|done|lia].
Qed.

Lemma zset_lower_bound_spec z x :
  StronglySorted zless (z_entries z) → Forall numeric (z_entries z) → numeric x →
  ∃ l1 l2, z_entries z = l1 ++ l2 ∧
    zset_lower_bound z (ze_score x) (ze_member x) = Ret (length l1) ∧
    Forall (λ e, zless e x) l1 ∧ Forall (λ e, ¬ zless e x) l2.
Proof.
  intros Hs Hn Hx. unfold zset_lower_bound, z_len.
  destruct (lower_bound_loop_spec (length (z_entries z)) (z_entries z) x 0 (length (z_entries z)))
    as (i & Hi & Hl & H1 & H2); try done; try lia.
  { intros j e He Hj. apply lookup_lt_Some in He. lia. }
  exists (take i (z_entries z)), (drop i (z_entries z)).
  rewrite take_drop, length_take, Nat.min_l by done. split_and!; [done|done| |].
  - apply Forall_lookup. intros j e [He Hj]%lookup_take_Some. by eapply H1.
  - apply Forall_lookup. intros j e He. rewrite lookup_drop in He. eapply H2; [done|lia].
Qed.

Lemma zset_insert_spec z x :
  StronglySorted zless (z_entries z) → Forall numeric (z_entries z) → numeric x →
  ze_member x ∉ ze_member <$> z_entries z → z_len z ≤ z_cap z →
  ∃ z', zset_insert z (ze_score x) (ze_member x) = Ret z' ∧
    StronglySorted zless (z_entries z') ∧ z_entries z' ≡ₚ x :: z_entries z ∧
    z_len z' ≤ z_cap z' ∧ z_index z' = z_index z ∧ z_index_size z' = z_index_size z.
Proof.
  intros Hs Hn Hx Hm Hcap. unfold zset_insert.
  destruct (zset_lower_bound_spec z x Hs Hn Hx) as (l1 & l2 & He & -> & H1 & H2). simpl.
  rewrite He, take_app_length, drop_app_length. eexists. split; [done|]. simpl.
  replace {| ze_member := ze_member x; ze_score := ze_score x |} with x by (by destruct x).
  split_and!; [| |unfold z_len in *; simpl|done|done].
  - rewrite He in Hs. apply StronglySorted_app in Hs as (H12 & Hs1 & Hs2).
    apply StronglySorted_app. split_and!; [|done|].
    + intros a b Ha Hb. apply elem_of_cons in Hb as [->|Hb]; [|by apply H12].
      rewrite Forall_forall in H1. by apply H1.
    + apply StronglySorted_cons. split; [|done]. rewrite Forall_forall in *.
      intros e Hin. destruct (zless_total x e) as [?|Hlt]; [|done|by apply H2 in Hlt].
      intros Heq. apply Hm. rewrite Heq, He. apply list_elem_of_fmap_2, elem_of_app. auto.
  - symmetry. apply Permutation_middle.
  - rewrite He, !length_app in *. simpl.
    destruct (Nat.eqb_spec (length l1 + length l2) (z_cap z)); [|lia].
    destruct (Nat.eqb_spec (z_cap z) 0); lia.
Qed.

(** ** The index *)

#[export] Instance zset_entry_keyed : Keyed ZSetEntry dbl :=
  {| ekey := ze_member; evalue := ze_score |}.
#[export] Instance zindex_node_keyed : Keyed ZIndexNode dbl :=
  {| ekey := zn_member; evalue := zn_score |}.

Definition zslot (size : nat) (member : bytes) : nat := mask_slot size (hash64 member).

Definition cached (n : ZIndexNode) : Prop := zn_hash n = hash64 (zn_member n).

(** The index represents [m]: nothing allocated, or a power of two of chains
    that hold exactly the members with their scores, hashes cached. *)
Definition index_wf (z : ZSet) (m : gmap bytes dbl) : Prop :=
  (z_index_size z = 0 ∧ z_index z = [] ∧ m = ∅) ∨
  (∃ j, z_index_size z = 2 ^ j ∧ length (z_index z) = 2 ^ j ∧
        tbl_wf (zslot (2 ^ j)) (z_index z) ∧ Forall cached (concat (z_index z)) ∧
        tbl_map (z_index z) = m).

Lemma zfind_loop_chain c member :
  Forall cached c → zfind_loop c member (hash64 member) = chain_find member c.
Proof.
  induction 1 as [|n c Hn _ IH]; simpl; [done|]. change (ekey n) with (zn_member n).
  destruct (streq (zn_member n) member) eqn:Hs; rewrite ?andb_false_r; [|done].
  apply streq_true in Hs as <-. by rewrite Hn, Z.eqb_refl.
Qed.

Lemma zset_score_loop_chain c member score :
  Forall cached c →
  zset_score_loop c member (hash64 member) score =
  chain_update member (λ n, {| zn_member := zn_member n; zn_hash := zn_hash n; zn_score := score |}) c.
Proof.
  induction 1 as [|n c Hn _ IH]; simpl; [done|]. change (ekey n) with (zn_member n).
  destruct (streq (zn_member n) member) eqn:Hs; rewrite ?andb_false_r; [|by rewrite IH].
  apply streq_true in Hs as <-. by rewrite Hn, Z.eqb_refl.
Qed.

Lemma pow2_pos j : 0 < 2 ^ j.
Proof. induction j; simpl; lia. Qed.

Lemma cached_chain size (bs : list (list ZIndexNode)) k :
  tbl_wf (zslot size) bs → Forall cached (concat bs) → Forall cached (bs !!! zslot size k).
Proof.
  intros Hwf Hc. rewrite Forall_forall in *. intros n Hn. apply Hc.
  apply elem_of_concat. eexists. split; [exact Hn|].
  eapply list_elem_of_lookup_2, tbl_chain, Hwf.
Qed.

(** Looking up, with the node itself. *)
Lemma zindex_find_chain z m member :
  index_wf z m →
  match zindex_find z member (hash64 member) with
  | None => m !! member = None
  | Some n => m !! member = Some (zn_score n) ∧
              chain_find member (z_index z !!! zslot (z_index_size z) member) = Some n
  end.
Proof.
  unfold zindex_find. intros [(-> & _ & ->)|(j & Hsz & Hl & Hwf & Hc & <-)]; [done|].
  rewrite Hsz. pose proof (pow2_pos j). destruct (Nat.eqb_spec (2 ^ j) 0); [lia|].
  change (mask_slot (2 ^ j) (hash64 member)) with (zslot (2 ^ j) member).
  rewrite zfind_loop_chain by by apply cached_chain.
  rewrite (tbl_lookup (zslot (2 ^ j)) _ member Hwf).
  by destruct (chain_find member (z_index z !!! zslot (2 ^ j) member)).
Qed.

Lemma zindex_set_score_spec z m member score n :
  index_wf z m → zindex_find z member (hash64 member) = Some n →
  index_wf (zindex_set_score z member (hash64 member) score) (<[member := score]> m).
Proof.
  intros Hi Hf. pose proof (zindex_find_chain z m member Hi) as Hfc. rewrite Hf in Hfc.
  destruct Hfc as [_ Hfc]. destruct Hi as [(Hsz & _)|(j & Hsz & Hl & Hwf & Hc & <-)].
  { unfold zindex_find in Hf. by rewrite Hsz in Hf. }
  right. exists j. unfold zindex_set_score; simpl. rewrite Hsz in *.
  change (mask_slot (2 ^ j) (hash64 member)) with (zslot (2 ^ j) member).
  rewrite zset_score_loop_chain by by apply cached_chain.
  destruct (tbl_update (zslot (2 ^ j)) _ _ _
    (λ n, {| zn_member := zn_member n; zn_hash := zn_hash n; zn_score := score |}) Hwf Hfc eq_refl)
    as (Hwf' & Hm' & l & Hp & Hp').
  split_and!; [done|by rewrite length_insert|done| |done].
  rewrite Hp' . rewrite Hp in Hc. by apply Forall_cons in Hc as [? ?]; constructor.
Qed.

Lemma zindex_grow_spec z m :
  index_wf z m → NoDup (ekey <$> concat (z_index z)) →
  ∃ j, z_index_size (zindex_grow z) = 2 ^ j ∧ z_index_size z < 2 ^ j ∧ length (z_index (zindex_grow z)) = 2 ^ j ∧
    tbl_wf (zslot (2 ^ j)) (z_index (zindex_grow z)) ∧
    Forall cached (concat (z_index (zindex_grow z))) ∧ tbl_map (z_index (zindex_grow z)) = m.
Proof.
  intros Hi Hnd.
  assert (∃ j, (if z_index_size z =? 0 then 8 else z_index_size z * 2) = 2 ^ j ∧
               z_index_size z < 2 ^ j ∧ Forall cached (concat (z_index z)) ∧ tbl_map (z_index z) = m)
    as (j & Hj & Hlt & Hc & Hm).
  { destruct Hi as [(Hsz & Hix & Hm)|(j & Hsz & _ & _ & Hc & Hm)].
    - exists 3. rewrite Hsz, Hix, Hm. split_and!; [done|simpl; lia|constructor|done].
    - pose proof (pow2_pos j). exists (S j). rewrite Hsz. destruct (Nat.eqb_spec (2 ^ j) 0); [lia|].
      split_and!; [rewrite Nat.pow_succ_r'; lia|rewrite Nat.pow_succ_r'; lia|done|done]. }
  exists j. unfold zindex_grow; simpl. rewrite Hj.
  destruct (rehash_spec (λ n, mask_slot (2 ^ j) (zn_hash n)) (zslot (2 ^ j)) (z_index z) (2 ^ j))
    as (Hwf & Hl & Hp); [intros; apply mask_slot_lt| |done|].
  { intros n Hn. rewrite Forall_forall in Hc. unfold zslot. f_equal. apply (Hc n Hn). }
  split_and!; [done|done|done|done|by rewrite Hp|].
  rewrite <- Hm. unfold tbl_map. symmetry. by apply entry_map_perm.
Qed.

Lemma index_nodup z m : index_wf z m → NoDup (ekey <$> concat (z_index z)).
Proof.
  intros [(_ & -> & _)|(j & _ & _ & Hwf & _)]; [constructor|apply (tbl_nodup _ _ Hwf)].
Qed.

Lemma zindex_add_spec z m member score :
  index_wf z m → m !! member = None →
  let z' := zindex_add z member (hash64 member) score in
  index_wf z' (<[member := score]> m) ∧ z_entries z' = z_entries z ∧ z_cap z' = z_cap z ∧
  (z_len z ≤ z_index_size z → S (z_len z) ≤ z_index_size z').
Proof.
  intros Hi Hm z'. set (z1 := if z_index_size z <=? z_len z then zindex_grow z else z).
  assert (∃ j, z_index_size z1 = 2 ^ j ∧ length (z_index z1) = 2 ^ j ∧
    tbl_wf (zslot (2 ^ j)) (z_index z1) ∧ Forall cached (concat (z_index z1)) ∧ tbl_map (z_index z1) = m ∧
    (z_len z ≤ z_index_size z → S (z_len z) ≤ 2 ^ j) ∧ z_entries z1 = z_entries z ∧ z_cap z1 = z_cap z)
    as (j & Hsz & Hl & Hwf & Hc & Hmap & Hload & He & Hcap).
  { unfold z1. destruct (Nat.leb_spec (z_index_size z) (z_len z)) as [Hle|Hgt].
    - destruct (zindex_grow_spec z m Hi (index_nodup _ _ Hi)) as (j & ? & ? & ? & ? & ? & ?).
      exists j. split_and!; try done. lia.
    - destruct Hi as [(Hsz & _)|(j & Hsz & ? & ? & ? & ?)]; [lia|].
      exists j. split_and!; try done. lia. }
  unfold z', zindex_add. fold z1. rewrite Hsz.
  change (mask_slot (2 ^ j) (hash64 member)) with (zslot (2 ^ j) member).
  destruct (tbl_insert (zslot (2 ^ j)) (z_index z1)
    {| zn_member := member; zn_hash := hash64 member; zn_score := score |} Hwf) as (Hwf' & Hm' & Hp).
  { rewrite <- Hmap, (tbl_lookup (zslot (2 ^ j)) _ member Hwf) in Hm. simpl.
    by destruct (chain_find member (z_index z1 !!! zslot (2 ^ j) member)). }
  split_and!; [|done|done|done]. right. exists j. simpl.
  split_and!; [done|by rewrite length_insert|done| |by rewrite <- Hmap].
  eapply Permutation_Forall; [symmetry; exact Hp|]. by constructor.
Qed.

(** ** Invariant and abstraction *)

Definition zset_map (z : ZSet) : gmap bytes dbl := entry_map (z_entries z).

Record zset_wf (z : ZSet) : Prop := {
  zw_sorted : StronglySorted zless (z_entries z);
  zw_numeric : Forall numeric (z_entries z);
  zw_nodup : NoDup (ze_member <$> z_entries z);
  zw_cap : z_len z ≤ z_cap z;
  zw_index : index_wf z (zset_map z);
  zw_load : z_len z ≤ z_index_size z;
}.

Lemma zset_empty_spec : zset_wf zset_empty ∧ zset_map zset_empty = ∅.
Proof. split; [|done]. split; try constructor; done. Qed.

Lemma zset_score_spec z member : zset_wf z → zset_score z member = zset_map z !! member.
Proof.
  intros Hwf. unfold zset_score. pose proof (zindex_find_chain z _ member (zw_index _ Hwf)) as H.
  destruct (zindex_find z member (hash64 member)); simpl; [by destruct H as [-> _]|done].
Qed.

(** An indexed member is found by the binary search at its own entry. *)
Lemma zset_find_entry z member s :
  zset_wf z → zset_map z !! member = Some s →
  ∃ l1 e l2, z_entries z = l1 ++ e :: l2 ∧ e = {| ze_member := member; ze_score := s |} ∧
    zset_lower_bound z s member = Ret (length l1).
Proof.
  intros Hwf Hm. apply entry_map_lookup in Hm as (e & He & Hek & Hev); [|apply (zw_nodup _ Hwf)].
  assert (e = {| ze_member := member; ze_score := s |}) as Hee by (destruct e; simpl in *; congruence).
  assert (numeric e) as Hn by (pose proof (zw_numeric _ Hwf) as H; rewrite Forall_forall in H; auto).
  destruct (zset_lower_bound_spec z e (zw_sorted _ Hwf) (zw_numeric _ Hwf) Hn) as (l1 & l2 & Hl & Hlb & H1 & H2).
  rewrite Hee in Hlb. simpl in Hlb. rewrite Hl in He.
  apply elem_of_app in He as [He|He].
  { rewrite Forall_forall in H1. by apply H1, zless_irrefl in He. }
  destruct l2 as [|e' l2]; [by inversion He|]. exists l1, e', l2. split_and!; [done| |done].
  apply elem_of_cons in He as [<-|He]; [done|]. exfalso.
  pose proof (zw_sorted _ Hwf) as Hs. rewrite Hl in Hs.
  apply StronglySorted_app in Hs as (_ & _ & Hs). apply StronglySorted_cons in Hs as [Hs _].
  rewrite Forall_forall in Hs. apply Hs in He. apply Forall_cons in H2 as [H2 _]. done.
Qed.

Lemma zset_rank_spec z member :
  zset_wf z →
  match zset_map z !! member with
  | None => zset_rank z member = Ret None
  | Some s => ∃ l1 l2, z_entries z = l1 ++ {| ze_member := member; ze_score := s |} :: l2 ∧
                       zset_rank z member = Ret (Some (length l1))
  end.
Proof.
  intros Hwf. unfold zset_rank. pose proof (zindex_find_chain z _ member (zw_index _ Hwf)) as H.
  destruct (zindex_find z member (hash64 member)) as [n|]; [|by rewrite H].
  destruct H as [H _]. rewrite H.
  destruct (zset_find_entry z member _ Hwf H) as (l1 & e & l2 & He & -> & Hlb).
  exists l1, l2. by rewrite Hlb.
Qed.

Lemma index_wf_ext z z' m :
  z_index z' = z_index z → z_index_size z' = z_index_size z → index_wf z m → index_wf z' m.
Proof. unfold index_wf. intros -> ->. done. Qed.

Lemma entry_not_in (l : list ZSetEntry) k :
  NoDup (ze_member <$> l) → entry_map l !! k = None → k ∉ ze_member <$> l.
Proof.
  intros Hnd Hn (e & -> & He)%list_elem_of_fmap.
  assert (entry_map l !! ze_member e = Some (ze_score e)) as H by (apply entry_map_lookup; eauto).
  rewrite H in Hn. done.
Qed.

(** A set whose array gained the entry [x] and whose index maps its member
    accordingly is well formed. *)
Lemma zset_wf_intro z' x (l : list ZSetEntry) :
  StronglySorted zless (z_entries z') → z_entries z' ≡ₚ x :: l →
  Forall numeric (x :: l) → NoDup (ze_member <$> x :: l) →
  z_len z' ≤ z_cap z' → index_wf z' (<[ze_member x := ze_score x]> (entry_map l)) →
  z_len z' ≤ z_index_size z' →
  zset_wf z' ∧ zset_map z' = <[ze_member x := ze_score x]> (entry_map l).
Proof.
  intros Hs Hp Hn Hnd Hcap Hi Hload.
  assert (NoDup (ze_member <$> z_entries z')) as Hnd' by by rewrite Hp.
  assert (zset_map z' = <[ze_member x := ze_score x]> (entry_map l)) as Hm
    by (unfold zset_map; by rewrite (entry_map_perm (KE := zset_entry_keyed) _ _ Hnd' Hp)).
  split; [|done]. split; try done; [by rewrite Hp|by rewrite Hm].
Qed.

Lemma zset_add_new z score member :
  zset_wf z → is_nan score = false → zset_map z !! member = None →
  ∃ z', zset_insert (zindex_add z member (hash64 member) score) score member = Ret z' ∧
    zset_wf z' ∧ zset_map z' = <[member := score]> (zset_map z).
Proof.
  intros Hwf Hnan Hm. set (x := {| ze_member := member; ze_score := score |}).
  destruct (zindex_add_spec z _ member score (zw_index _ Hwf) Hm) as (Hi & He & Hc & Hld).
  set (z1 := zindex_add z member (hash64 member) score) in *.
  assert (z_len z1 = z_len z) as Hlen by (unfold z_len; by rewrite He).
  assert (member ∉ ze_member <$> z_entries z) as Hnin by (by apply entry_not_in; [apply (zw_nodup _ Hwf)|]).
  destruct (zset_insert_spec z1 x) as (z' & Hz' & Hs & Hp & Hcap & Hix & Hsz);
    rewrite ?He, ?Hlen, ?Hc; try apply Hwf; try done.
  exists z'. split; [done|].
  apply (zset_wf_intro z' x (z_entries z)); try done.
  - by rewrite <- He.
  - constructor; [done|apply Hwf].
  - constructor; [done|apply Hwf].
  - by eapply index_wf_ext, Hi.
  - rewrite Hsz. unfold z_len at 1. rewrite (Permutation_length Hp), He. apply Hld, Hwf.
Qed.

Lemma zset_add_move z score member s n :
  zset_wf z → is_nan score = false → zset_map z !! member = Some s →
  zindex_find z member (hash64 member) = Some n →
  ∃ i old z', zset_lower_bound z s member = Ret i ∧ z_entries z !! i = Some old ∧
    zset_insert {| z_entries := take i (z_entries z) ++ drop (S i) (z_entries z);
                   z_cap := z_cap z; z_index := z_index z; z_index_size := z_index_size z |}
                score (ze_member old) = Ret z' ∧
    let z'' := zindex_set_score z' member (hash64 member) score in
    zset_wf z'' ∧ zset_map z'' = <[member := score]> (zset_map z).
Proof.
  intros Hwf Hnan Hm Hf. set (x := {| ze_member := member; ze_score := score |}).
  destruct (zset_find_entry z member s Hwf Hm) as (l1 & e & l2 & He & Hee & Hlb).
  pose proof (zw_sorted _ Hwf) as Hs. pose proof (zw_numeric _ Hwf) as Hn.
  pose proof (zw_nodup _ Hwf) as Hnd. pose proof (zw_cap _ Hwf) as Hcap. pose proof (zw_load _ Hwf) as Hload.
  unfold z_len in Hcap, Hload. rewrite He in Hs, Hn, Hnd, Hcap, Hload.
  rewrite length_app in Hcap, Hload. simpl in Hcap, Hload.
  rewrite <- Permutation_middle in Hn. rewrite <- Permutation_middle in Hnd.
  apply Forall_cons in Hn as [_ Hn]. simpl in Hnd. apply NoDup_cons in Hnd as [Hnin Hnd].
  rewrite Hee in Hnin. simpl in Hnin.
  exists (length l1), e. rewrite He, list_lookup_middle, take_app_length by done.
  replace (drop (S (length l1)) (l1 ++ e :: l2)) with l2
    by (rewrite drop_app_ge by lia; by replace (S (length l1) - length l1) with 1 by lia).
  destruct (zset_insert_spec {| z_entries := l1 ++ l2; z_cap := z_cap z; z_index := z_index z;
    z_index_size := z_index_size z |} x) as (z' & Hz' & Hs' & Hp & Hc' & Hix & Hsz); simpl; try done.
  { apply StronglySorted_app in Hs as (H12 & Hs1 & Hs2). apply StronglySorted_cons in Hs2 as [_ Hs2].
    apply StronglySorted_app. split_and!; [|done|done]. intros a b Ha Hb. apply H12; [done|by right]. }
  { unfold z_len; simpl. rewrite length_app. lia. }
  exists z'. rewrite Hee. do 3 (split; [done|]).
  assert (zset_map z = <[member := s]> (entry_map (l1 ++ l2))) as Hzm.
  { unfold zset_map. rewrite (entry_map_perm _ (e :: l1 ++ l2)); [by rewrite Hee|apply Hwf|].
    rewrite He. symmetry. apply Permutation_middle. }
  assert (index_wf (zindex_set_score z' member (hash64 member) score) (<[member := score]> (zset_map z))) as Hi.
  { eapply zindex_set_score_spec; [by eapply index_wf_ext, (zw_index _ Hwf)|].
    unfold zindex_find in *. rewrite Hix, Hsz. exact Hf. }
  rewrite Hzm, insert_insert_eq in Hi. rewrite Hzm, insert_insert_eq.
  apply (zset_wf_intro _ x (l1 ++ l2)); simpl; try done.
  - by constructor.
  - by constructor.
  - simpl in Hsz. unfold z_len; simpl. rewrite Hsz, (Permutation_length Hp). simpl. rewrite length_app. lia.
Qed.

(** What [zset_add] does: a new member is added, a member whose score compares
    equal is left alone, any other member is moved. *)
Lemma zset_add_spec z score member :
  zset_wf z → is_nan score = false →
  ∃ z' added, zset_add z score member = Ret (z', added) ∧ zset_wf z' ∧
    zset_map z' = (match zset_map z !! member with
                   | Some s => if deq s score then zset_map z else <[member := score]> (zset_map z)
                   | None => <[member := score]> (zset_map z)
                   end) ∧
    added = (match zset_map z !! member with Some _ => 0 | None => 1 end)%Z.
Proof.
  intros Hwf Hnan. unfold zset_add. pose proof (zindex_find_chain z _ member (zw_index _ Hwf)) as Hf.
  destruct (zindex_find z member (hash64 member)) as [n|] eqn:Hzf.
  - destruct Hf as [Hm _]. rewrite Hm. destruct (deq (zn_score n) score); [by eauto 6|].
    destruct (zset_add_move z score member (zn_score n) n Hwf Hnan Hm Hzf)
      as (i & old & z' & -> & Hold & Hz' & Hwf' & Hm').
    simpl. rewrite Hold, Hz'. simpl. eauto 6.
  - rewrite Hf. destruct (zset_add_new z score member Hwf Hnan Hf) as (z' & -> & Hwf' & Hm').
    simpl. eauto 6.
Qed.

End ZSet.
