(* ===== verification/Stream.v ===== *)
(** * The stream type of store.c

    Stream IDs, their parser and order, the choice of the ID of a new entry,
    and the append-only list of entries.  The linked list with its tail
    pointer is a Rocq list appended to at the end.  [StoreStatus] and
    [StoreType], the enumerations of [store.h], are here as well because ID
    resolution returns a status. *)

From S2P Require Import Prelude CLib.

Module Stream.

Inductive StoreType :=
| STORE_TYPE_NONE
| STORE_TYPE_STRING
| STORE_TYPE_LIST
| STORE_TYPE_HASH
| STORE_TYPE_ZSET
| STORE_TYPE_STREAM.

#[export] Instance StoreType_eq_dec : EqDecision StoreType.
Proof. solve_decision. Defined.

Inductive StoreStatus :=
| STORE_OK
| STORE_NOT_FOUND
| STORE_WRONG_TYPE
| STORE_NOT_INTEGER
| STORE_OVERFLOW
| STORE_INVALID_ID
| STORE_ID_ZERO
| STORE_ID_TOO_SMALL.

#[export] Instance StoreStatus_eq_dec : EqDecision StoreStatus.
Proof. solve_decision. Defined.

Record StreamId := mkId { id_ms : Z; id_seq : Z }.

#[export] Instance StreamId_eq_dec : EqDecision StreamId.
Proof. solve_decision. Defined.

Record StreamEntry := mkStreamEntry {
  se_id : StreamId;
  se_fields : list (bytes * bytes);
  se_num_fields : nat;
}.

Record Stream := mkStream {
  st_entries : list StreamEntry;
  st_len : nat;
  st_last_id : StreamId;
}.

(** [xcalloc(1, sizeof(Stream))] *)
Definition stream_empty : Stream :=
  {| st_entries := []; st_len := 0; st_last_id := mkId 0 0 |}.

Section ids.
Local Open Scope Z_scope.

Definition stream_id_cmp (a b : StreamId) : Z :=
  if negb (id_ms a =? id_ms b) then (if id_ms a <? id_ms b then -1 else 1)
  else if negb (id_seq a =? id_seq b) then (if id_seq a <? id_seq b then -1 else 1)
  else 0.

(** The digit loop of [parse_u64], with its overflow test. *)
Fixpoint parse_u64_loop (s : bytes) (v : Z) : option Z :=
  match s with
  | [] => Some v
  | c :: s' =>
      if is_digit c then
        let d := digit_val c in
        if (UINT64_MAX - d) / 10 <? v then None
        else parse_u64_loop s' (v * 10 + d)
      else None
  end.

(** [parse_u64(s, n, &out)]: [s] is the [n] bytes to read. *)
Definition parse_u64 (s : bytes) : option Z :=
  if (length s =? 0)%nat || (20 <? length s)%nat then None else parse_u64_loop s 0.

(** [strchr(s, '-')]: what is before the first dash, and after it. *)
Fixpoint split_dash (s : bytes) : option (bytes * bytes) :=
  match s with
  | [] => None
  | c :: s' =>
      if bool_decide (c = "-"%char) then Some ([], s')
      else match split_dash s' with Some (a, b) => Some (c :: a, b) | None => None end
  end.

Definition stream_id_parse (s : bytes) (default_seq : Z) : option StreamId :=
  match split_dash s with
  | None => match parse_u64 s with Some ms => Some (mkId ms default_seq) | None => None end
  | Some (a, b) =>
      match parse_u64 a with
      | None => None
      | Some ms => match parse_u64 b with Some seq => Some (mkId ms seq) | None => None end
      end
  end.

(** [n >= 2 && spec[n - 2] == '-' && spec[n - 1] == '*'] *)
Definition ends_dash_star (spec : bytes) : bool :=
  (2 <=? length spec)%nat &&
  bool_decide (spec !! (length spec - 2)%nat = Some "-"%char) &&
  bool_decide (spec !! (length spec - 1)%nat = Some "*"%char).

(** [resolve_new_id]: [inl] is an error status, [inr] the ID of a STORE_OK
    return.  [now] is what [now_ms()] returned. *)
Definition resolve_new_id (stream : option Stream) (spec : bytes) (now : Z) : StoreStatus + StreamId :=
  let last := match stream with Some st => st_last_id st | None => mkId 0 0 end in
  if streq spec #"*" then
    let ms := u64 now in
    if id_ms last <? ms then inr (mkId ms 0)
    else if id_seq last =? UINT64_MAX then inl STORE_ID_TOO_SMALL
    else inr (mkId (id_ms last) (id_seq last + 1))
  else if ends_dash_star spec then
    match parse_u64 (take (length spec - 2) spec) with
    | None => inl STORE_INVALID_ID
    | Some ms =>
        if ms <? id_ms last then inl STORE_ID_TOO_SMALL
        else if (ms =? id_ms last) && match stream with Some st => (0 <? st_len st)%nat | None => false end then
          if id_seq last =? UINT64_MAX then inl STORE_ID_TOO_SMALL
          else inr (mkId ms (id_seq last + 1))
        else inr (mkId ms (if ms =? 0 then 1 else 0))
    end
  else
    match stream_id_parse spec 0 with
    | None => inl STORE_INVALID_ID
    | Some id =>
        if (id_ms id =? 0) && (id_seq id =? 0) then inl STORE_ID_ZERO
        else if stream_id_cmp id last <=? 0 then inl STORE_ID_TOO_SMALL
        else inr id
    end.
End ids.

(** Linking the new entry at the tail. *)
Definition stream_append (st : Stream) (id : StreamId) (fields : list (bytes * bytes)) : Stream :=
  {| st_entries := st_entries st ++
       [{| se_id := id; se_fields := fields; se_num_fields := length fields |}];
     st_len := S (st_len st);
     st_last_id := id |}.

(** ** Parsing of IDs *)

(** [parse_u64] accepts exactly the runs of 1 to 20 digits whose value fits
    in 64 bits, and returns that value. *)
Lemma parse_u64_loop_spec s v :
  (0 ≤ v ≤ UINT64_MAX)%Z →
  parse_u64_loop s v =
  if bool_decide (Forall (λ c, is_digit c = true) s) && (dec_acc v s <=? UINT64_MAX)%Z
  then Some (dec_acc v s) else None.
Proof.
  unfold UINT64_MAX. revert v; induction s as [|c s IH]; intros v Hv; cbn [parse_u64_loop dec_acc].
  { rewrite bool_decide_eq_true_2 by constructor. by destruct (Z.leb_spec v 18446744073709551615); [|lia]. }
  destruct (is_digit c) eqn:Hc; cycle 1.
  { rewrite bool_decide_eq_false_2; [done|]. intros [? _]%Forall_cons. congruence. }
  pose proof (is_digit_val c Hc) as Hd. unfold UINT64_MAX.
  pose proof (Z.div_mod (18446744073709551615 - digit_val c) 10 ltac:(lia)).
  pose proof (Z.mod_pos_bound (18446744073709551615 - digit_val c) 10 ltac:(lia)).
  destruct (Z.ltb_spec ((18446744073709551615 - digit_val c) / 10) v) as [Hlt|Hge].
  - clear IH. case_bool_decide as Hf; cbn [andb]; [|done]. apply Forall_cons in Hf as [_ Hf].
    pose proof (dec_acc_mono (v * 10 + digit_val c) s ltac:(lia) Hf).
    by destruct (Z.leb_spec (dec_acc (v * 10 + digit_val c) s) 18446744073709551615); [lia|].
  - rewrite IH by lia.
    by rewrite (bool_decide_ext (Forall _ (c :: s)) (Forall (λ c, is_digit c = true) s))
      by (rewrite Forall_cons; tauto).
Qed.

Lemma parse_u64_spec s :
  parse_u64 s =
  if (1 <=? length s) && (length s <=? 20) &&
     bool_decide (Forall (λ c, is_digit c = true) s) && (dec_acc 0 s <=? UINT64_MAX)%Z
  then Some (dec_acc 0 s) else None.
Proof.
  unfold parse_u64. rewrite parse_u64_loop_spec by (unfold UINT64_MAX; lia).
  destruct (Nat.eqb_spec (length s) 0), (Nat.ltb_spec 20 (length s)),
    (Nat.leb_spec 1 (length s)), (Nat.leb_spec (length s) 20); simpl; try lia; done.
Qed.

Lemma parse_u64_range s v : parse_u64 s = Some v → (0 ≤ v ≤ UINT64_MAX)%Z.
Proof.
  rewrite parse_u64_spec. case_match eqn:E; [|done]. intros [= <-]. bools.
  match goal with Hf : bool_decide _ = true |- _ => apply bool_decide_eq_true in Hf;
    pose proof (dec_acc_mono 0 s ltac:(lia) Hf) end. lia.
Qed.

Lemma parse_u64_dec_of n : (0 ≤ n ≤ UINT64_MAX)%Z → parse_u64 (dec_of n) = Some n.
Proof.
  intros Hn. rewrite parse_u64_spec, dec_of_value by lia.
  rewrite bool_decide_eq_true_2 by (apply dec_of_digits; lia).
  pose proof (dec_of_length_pos n). unfold UINT64_MAX in *.
  pose proof (dec_of_length n 20 ltac:(change (10 ^ Z.of_nat 20)%Z with 100000000000000000000%Z; lia) ltac:(lia)).
  destruct (Nat.leb_spec 1 (length (dec_of n))), (Nat.leb_spec (length (dec_of n)) 20); try lia.
  simpl. by destruct (Z.leb_spec n 18446744073709551615); [|lia].
Qed.

Lemma split_dash_app a b : "-"%char ∉ a → split_dash (a ++ "-"%char :: b) = Some (a, b).
Proof.
  induction a as [|c a IH]; simpl; intros Ha; [done|].
  rewrite bool_decide_eq_false_2 by set_solver. by rewrite IH by set_solver.
Qed.

Lemma digits_no_dash ds : Forall (λ c, is_digit c = true) ds → "-"%char ∉ ds.
Proof. intros H Hin. rewrite Forall_forall in H. by specialize (H _ Hin). Qed.

(** What [reply_stream_id] prints for an ID. *)
Definition fmt_id (id : StreamId) : bytes := dec_of (id_ms id) ++ "-"%char :: dec_of (id_seq id).

Definition id_wf (id : StreamId) : Prop :=
  (0 ≤ id_ms id ≤ UINT64_MAX)%Z ∧ (0 ≤ id_seq id ≤ UINT64_MAX)%Z.

Lemma stream_id_parse_fmt id d : id_wf id → stream_id_parse (fmt_id id) d = Some id.
Proof.
  intros [Hm Hs]. unfold stream_id_parse, fmt_id.
  rewrite split_dash_app by (apply digits_no_dash, dec_of_digits; lia).
  rewrite !parse_u64_dec_of by done. by destruct id.
Qed.

Lemma stream_id_parse_wf s d id :
  (0 ≤ d ≤ UINT64_MAX)%Z → stream_id_parse s d = Some id → id_wf id.
Proof.
  intros Hd. unfold stream_id_parse, id_wf. intros H.
  repeat case_match; simplify_eq/=; eauto using parse_u64_range.
Qed.

(** ** Order of IDs *)

Definition id_lt (a b : StreamId) : Prop :=
  (id_ms a < id_ms b ∨ id_ms a = id_ms b ∧ id_seq a < id_seq b)%Z.

#[export] Instance id_lt_dec a b : Decision (id_lt a b).
Proof. unfold id_lt. apply _. Defined.

#[export] Instance id_lt_trans : Transitive id_lt.
Proof. unfold id_lt. intros ???. lia. Qed.

Lemma id_lt_irrefl a : ¬ id_lt a a.
Proof. unfold id_lt. lia. Qed.

Lemma stream_id_cmp_lt a b : (stream_id_cmp a b < 0)%Z ↔ id_lt a b.
Proof.
  unfold stream_id_cmp, id_lt. destruct (Z.eqb_spec (id_ms a) (id_ms b)); simpl.
  - destruct (Z.eqb_spec (id_seq a) (id_seq b)); simpl; [lia|].
    destruct (Z.ltb_spec (id_seq a) (id_seq b)); lia.
  - destruct (Z.ltb_spec (id_ms a) (id_ms b)); lia.
Qed.

Lemma stream_id_cmp_gt a b : (0 < stream_id_cmp a b)%Z ↔ id_lt b a.
Proof.
  unfold stream_id_cmp, id_lt. destruct (Z.eqb_spec (id_ms a) (id_ms b)); simpl.
  - destruct (Z.eqb_spec (id_seq a) (id_seq b)); simpl; [lia|].
    destruct (Z.ltb_spec (id_seq a) (id_seq b)); lia.
  - destruct (Z.ltb_spec (id_ms a) (id_ms b)); lia.
Qed.

(** ** Invariant *)

Record stream_wf (st : Stream) : Prop := {
  sw_sorted : StronglySorted id_lt (se_id <$> st_entries st);
  sw_ids : Forall id_wf (se_id <$> st_entries st);
  sw_len : st_len st = length (st_entries st);
  sw_last : last (se_id <$> st_entries st) = Some (st_last_id st);
  sw_nf : Forall (λ e, se_num_fields e = length (se_fields e)) (st_entries st);
}.

(** The ID before which a new entry may not go. *)
Definition top_id (stream : option Stream) : StreamId :=
  match stream with Some st => st_last_id st | None => mkId 0 0 end.

Lemma stream_last_wf st : stream_wf st → id_wf (st_last_id st).
Proof.
  intros Hwf. pose proof (sw_ids _ Hwf) as H. rewrite Forall_forall in H. apply H.
  pose proof (sw_last _ Hwf) as Hl. apply last_Some in Hl as [l' ->]. set_solver.
Qed.

Lemma stream_len_pos st : stream_wf st → 0 < st_len st.
Proof.
  intros Hwf. rewrite (sw_len _ Hwf). pose proof (sw_last _ Hwf). by destruct (st_entries st); simpl in *; [|lia].
Qed.

(** A resolved ID is a 64-bit ID strictly after every entry of the stream. *)
Lemma resolve_new_id_ok stream spec now id :
  (∀ st, stream = Some st → stream_wf st) →
  resolve_new_id stream spec now = inr id → id_wf id ∧ id_lt (top_id stream) id.
Proof.
  intros Hwf. unfold resolve_new_id. fold (top_id stream).
  assert (id_wf (top_id stream)) as Hl.
  { destruct stream; [by apply stream_last_wf, Hwf|done]. }
  pose proof (u64_range now). unfold id_wf, id_lt, UINT64_MAX in *.
  destruct (streq spec #"*").
  { destruct (Z.ltb_spec (id_ms (top_id stream)) (u64 now)); [intros [= <-]; simpl; lia|].
    destruct (Z.eqb_spec (id_seq (top_id stream)) 18446744073709551615); [done|].
    intros [= <-]; simpl. lia. }
  destruct (ends_dash_star spec).
  { destruct (parse_u64 _) as [ms|] eqn:Hp; [|done]. apply parse_u64_range in Hp. unfold UINT64_MAX in Hp.
    destruct (Z.ltb_spec ms (id_ms (top_id stream))); [done|].
    destruct (Z.eqb_spec ms (id_ms (top_id stream))) as [->|Hne]; simpl.
    - destruct stream as [st|]; simpl in *.
      + pose proof (stream_len_pos st (Hwf st eq_refl)).
        destruct (Nat.ltb_spec 0 (st_len st)); [|lia].
        destruct (Z.eqb_spec (id_seq (st_last_id st)) 18446744073709551615); [done|].
        intros [= <-]; simpl. lia.
      + intros [= <-]; simpl. lia.
    - destruct (Z.eqb_spec ms 0); intros [= <-]; simpl; lia. }
  destruct (stream_id_parse spec 0) as [id'|] eqn:Hp; [|done].
  apply stream_id_parse_wf in Hp; [|unfold UINT64_MAX; lia]. unfold id_wf, UINT64_MAX in Hp.
  destruct (_ && _); [done|].
  destruct (Z.leb_spec (stream_id_cmp id' (top_id stream)) 0) as [|Hgt]; [done|].
  apply stream_id_cmp_gt in Hgt. unfold id_lt in Hgt. intros [= <-]. lia.
Qed.

(** An ID after the last one is after all of them. *)
Lemma stream_all_before st id :
  stream_wf st → id_lt (st_last_id st) id → Forall (λ e, id_lt (se_id e) id) (st_entries st).
Proof.
  intros Hwf Hlt. apply Forall_forall. intros e He. pose proof (sw_last _ Hwf) as Hl.
  apply last_Some in Hl as [l' Hl]. pose proof (sw_sorted _ Hwf) as Hs. rewrite Hl in Hs.
  apply (list_elem_of_fmap_2 se_id) in He. rewrite Hl in He.
  apply elem_of_app in He as [He| ->%list_elem_of_singleton]; [|done].
  transitivity (st_last_id st); [|done]. eapply StronglySorted_app_1_elem_of; [exact Hs|done|by left].
Qed.

(** Appending an entry with a resolved ID keeps the stream well formed; the
    first entry makes an empty stream well formed. *)
Lemma stream_append_wf stream id fields :
  (∀ st, stream = Some st → stream_wf st) → id_wf id → id_lt (top_id stream) id →
  stream_wf (stream_append (default stream_empty stream) id fields).
Proof.
  intros Hwf Hid Hlt. destruct stream as [st|]; simpl in *.
  - specialize (Hwf st eq_refl). split; simpl; rewrite ?fmap_app.
    + apply StronglySorted_app. split_and!; [|apply Hwf|repeat constructor].
      intros a b (e & -> & He)%list_elem_of_fmap ->%list_elem_of_singleton.
      pose proof (stream_all_before st id Hwf Hlt) as Hb. rewrite Forall_forall in Hb. by apply Hb.
    + apply Forall_app. split; [apply Hwf|by constructor].
    + rewrite (sw_len _ Hwf), length_app. simpl. lia.
    + simpl. by rewrite last_snoc.
    + apply Forall_app. split; [apply Hwf|by constructor].
  - split; simpl; [do 2 constructor|by constructor|done|done|by constructor].
Qed.

(** ** Ranges

    XRANGE skips entries while they are before the start and stops at the
    first one past the end; on a sorted stream that is selecting by ID. *)
Fixpoint skip_while (p : StreamId → bool) (es : list StreamEntry) : list StreamEntry :=
  match es with
  | [] => []
  | e :: es' => if p (se_id e) then skip_while p es' else es
  end.

Fixpoint take_while (p : StreamId → bool) (es : list StreamEntry) : list StreamEntry :=
  match es with
  | [] => []
  | e :: es' => if p (se_id e) then e :: take_while p es' else []
  end.

Lemma skip_while_filter (p : StreamId → bool) es :
  StronglySorted id_lt (se_id <$> es) →
  (∀ a b, id_lt a b → p b = true → p a = true) →
  skip_while p es = filter (λ e, p (se_id e) = false) es.
Proof.
  intros Hs Hp. induction es as [|e es IH]; simpl; [done|].
  apply StronglySorted_cons in Hs as [Hall Hs]. rewrite filter_cons.
  destruct (p (se_id e)) eqn:E; [by rewrite decide_False by done; apply IH|].
  rewrite decide_True by done. f_equal. symmetry. rewrite filter_all; [done|].
  intros e' He'. rewrite Forall_forall in Hall.
  destruct (p (se_id e')) eqn:E'; [|done]. rewrite <- E. symmetry. eapply Hp, E'.
  apply Hall. by apply list_elem_of_fmap_2.
Qed.

Lemma sorted_entries_filter (P : StreamEntry → Prop) `{∀ e, Decision (P e)} es :
  StronglySorted id_lt (se_id <$> es) → StronglySorted id_lt (se_id <$> filter P es).
Proof.
  induction es as [|e es IH]; [done|]. intros [Hall Hs]%StronglySorted_cons. rewrite filter_cons.
  destruct (decide (P e)); [|by apply IH]. constructor; [by apply IH|]. rewrite Forall_forall in *.
  intros i (e' & -> & [_ He']%list_elem_of_filter)%list_elem_of_fmap. apply Hall. by apply list_elem_of_fmap_2.
Qed.

Lemma take_while_filter (p : StreamId → bool) es :
  StronglySorted id_lt (se_id <$> es) →
  (∀ a b, id_lt a b → p b = true → p a = true) →
  take_while p es = filter (λ e, p (se_id e) = true) es.
Proof.
  intros Hs Hp. induction es as [|e es IH]; simpl; [done|].
  apply StronglySorted_cons in Hs as [Hall Hs]. rewrite filter_cons.
  destruct (p (se_id e)) eqn:E; [rewrite decide_True by done; by rewrite IH|].
  rewrite decide_False by done. symmetry. apply filter_none.
  intros e' He' E'. rewrite Forall_forall in Hall.
  assert (p (se_id e) = true) as E2; [|congruence]. eapply Hp, E'.
  apply Hall. by apply list_elem_of_fmap_2.
Qed.

End Stream.
