(* ===== verification/Store.v ===== *)
(** * store.c: the keyspace

    The keyspace is a chained hash table of entries with an expiry time and a
    typed value.  [Value] is the [type] tag of a [StoreEntry] together with the
    member of its union that the tag selects.  A pointer to an entry, which the
    C code keeps between a lookup and a change, is the entry's key: a chain
    never has a key twice ([store_wf]), so writing through the pointer is
    updating that entry in its chain.

    [now_ms()] is an argument of the operations that read the clock; an
    operation that reads it twice has two arguments, in the order of the reads.
    Values are Rocq values; the same functions on a heap are in [StoreHeap]. *)

From S2P Require Import Prelude CLib Util Chain FieldHash DList Dbl ZSet Stream.
Import Util FieldHash DList Dbl ZSet Stream.

Module Store.

Inductive Value :=
| V_str (s : bytes)
| V_list (l : List)
| V_hash (h : Hash)
| V_zset (z : ZSet)
| V_stream (st : Stream).

Record StoreEntry := mkEntry {
  e_key : bytes;
  e_hash : Z;
  e_expires_at : Z;
  e_v : Value;
}.

Record Store := mkStore {
  buckets : list (list StoreEntry);
  st_size : nat;
  st_count : nat;
}.

Definition type_of (v : Value) : StoreType :=
  match v with
  | V_str _ => STORE_TYPE_STRING
  | V_list _ => STORE_TYPE_LIST
  | V_hash _ => STORE_TYPE_HASH
  | V_zset _ => STORE_TYPE_ZSET
  | V_stream _ => STORE_TYPE_STREAM
  end.

(** The test [e->type == type] together with the access to the union member
    it permits. *)
Definition as_str (v : Value) : option bytes := match v with V_str s => Some s | _ => None end.
Definition as_list (v : Value) : option List := match v with V_list l => Some l | _ => None end.
Definition as_hash (v : Value) : option Hash := match v with V_hash h => Some h | _ => None end.
Definition as_zset (v : Value) : option ZSet := match v with V_zset z => Some z | _ => None end.
Definition as_stream (v : Value) : option Stream := match v with V_stream st => Some st | _ => None end.

Definition STORE_INITIAL_BUCKETS : nat := 16.

Definition store_create : Store :=
  {| buckets := replicate STORE_INITIAL_BUCKETS []; st_size := STORE_INITIAL_BUCKETS; st_count := 0 |}.

Definition store_grow (s : Store) : Store :=
  let new_size := st_size s * 2 in
  {| buckets := rehash (λ e, mask_slot new_size (e_hash e)) (buckets s) new_size;
     st_size := new_size; st_count := st_count s |}.

Definition entry_is_expired (e : StoreEntry) (now : Z) : bool :=
  negb (e_expires_at e =? 0)%Z && (e_expires_at e <? now)%Z.

(** ** Lookup *)

(** How the walk of [lookup] along a chain ends: at the end of the chain, at
    an expired entry (with the chain it leaves behind) or at a live one. *)
Inductive walk :=
| W_none
| W_expired (c : list StoreEntry)
| W_live (e : StoreEntry).

Fixpoint lookup_loop (c : list StoreEntry) (key : bytes) (h now : Z) : walk :=
  match c with
  | [] => W_none
  | e :: c' =>
      if (e_hash e =? h)%Z && streq (e_key e) key then
        if negb (e_expires_at e =? 0)%Z && entry_is_expired e now then W_expired c' else W_live e
      else
        match lookup_loop c' key h now with
        | W_expired r => W_expired (e :: r)
        | w => w
        end
  end.

Definition lookup (s : Store) (key : bytes) (now : Z) : Store * option StoreEntry :=
  let h := hash64 key in
  let slot := mask_slot (st_size s) h in
  match lookup_loop (buckets s !!! slot) key h now with
  | W_none => (s, None)
  | W_expired c =>
      ({| buckets := <[slot := c]> (buckets s); st_size := st_size s; st_count := st_count s - 1 |}, None)
  | W_live e => (s, Some e)
  end.

(** [create_entry] for a value whose tag is [type]; the expiry is zero, as
    [xcalloc] leaves it. *)
Definition create_entry (s : Store) (key : bytes) (v : Value) : Store :=
  let s := if st_size s <=? st_count s then store_grow s else s in
  let e := {| e_key := key; e_hash := hash64 key; e_expires_at := 0; e_v := v |} in
  let slot := mask_slot (st_size s) (e_hash e) in
  {| buckets := <[slot := e :: buckets s !!! slot]> (buckets s);
     st_size := st_size s; st_count := S (st_count s) |}.

#[export] Instance entry_keyed : Keyed StoreEntry StoreEntry := {| ekey := e_key; evalue := id |}.

(** A write through a pointer to the entry of [key]. *)
Definition write_entry (s : Store) (key : bytes) (f : StoreEntry → StoreEntry) : Store :=
  let slot := mask_slot (st_size s) (hash64 key) in
  {| buckets := <[slot := chain_update key f (buckets s !!! slot)]> (buckets s);
     st_size := st_size s; st_count := st_count s |}.

Definition with_v (v : Value) (e : StoreEntry) : StoreEntry :=
  {| e_key := e_key e; e_hash := e_hash e; e_expires_at := e_expires_at e; e_v := v |}.

Definition with_v_expiry (v : Value) (x : Z) (e : StoreEntry) : StoreEntry :=
  {| e_key := e_key e; e_hash := e_hash e; e_expires_at := x; e_v := v |}.

(** [lookup_typed]: [inl] is an error status, [inr] the value of a STORE_OK
    return. *)
Definition lookup_typed {A} (s : Store) (key : bytes) (proj : Value → option A) (now : Z)
    : Store * (StoreStatus + A) :=
  match lookup s key now with
  | (s, None) => (s, inl STORE_NOT_FOUND)
  | (s, Some e) =>
      match proj (e_v e) with
      | None => (s, inl STORE_WRONG_TYPE)
      | Some a => (s, inr a)
      end
  end.

(** ** Keys *)

Fixpoint del_loop (c : list StoreEntry) (key : bytes) (h now : Z) : option (list StoreEntry * bool) :=
  match c with
  | [] => None
  | e :: c' =>
      if (e_hash e =? h)%Z && streq (e_key e) key then Some (c', negb (entry_is_expired e now))
      else match del_loop c' key h now with
           | Some (r, live) => Some (e :: r, live)
           | None => None
           end
  end.

Definition store_del (s : Store) (key : bytes) (now : Z) : Store * bool :=
  let h := hash64 key in
  let slot := mask_slot (st_size s) h in
  match del_loop (buckets s !!! slot) key h now with
  | None => (s, false)
  | Some (c, live) =>
      ({| buckets := <[slot := c]> (buckets s); st_size := st_size s; st_count := st_count s - 1 |}, live)
  end.

Definition store_exists (s : Store) (key : bytes) (now : Z) : Store * bool :=
  let '(s, e) := lookup s key now in (s, bool_decide (is_Some e)).

Definition store_type (s : Store) (key : bytes) (now : Z) : Store * StoreType :=
  let '(s, e) := lookup s key now in
  (s, match e with Some e => type_of (e_v e) | None => STORE_TYPE_NONE end).

Definition store_count (s : Store) : nat := st_count s.

Definition store_get_expiry (s : Store) (key : bytes) (now : Z) : Store * Z :=
  let '(s, e) := lookup s key now in
  (s, match e with
      | None => -2
      | Some e => if e_expires_at e =? 0 then -1 else e_expires_at e
      end)%Z.

Definition store_scan {A} (s : Store) (now : Z) (visit : A → StoreEntry → A) (ctx : A) : A :=
  foldl (foldl (λ ctx e, if negb (entry_is_expired e now) then visit ctx e else ctx)) ctx (buckets s).

(** ** Strings *)

Definition store_set (s : Store) (key value : bytes) (expires_at_ms now : Z) : Store :=
  let '(s, e) := lookup s key now in
  let s := match e with Some _ => s | None => create_entry s key (V_str []) end in
  write_entry s key (with_v_expiry (V_str value) expires_at_ms).

Definition store_get (s : Store) (key : bytes) (now : Z) : Store * (StoreStatus + bytes) :=
  lookup_typed s key as_str now.

(** The guard evaluates [INT64_MAX - delta] or [INT64_MIN - delta], and the
    sum is computed after it: both are signed 64-bit operations. *)
Definition incr_checked (val delta : Z) : res (option Z) :=
  over ← (if (0 <? delta)%Z then m ← i64 (INT64_MAX - delta); Ret (m <? val)%Z else Ret false);
  if over : bool then Ret None else
  under ← (if (delta <? 0)%Z then m ← i64 (INT64_MIN - delta); Ret (val <? m)%Z else Ret false);
  if under : bool then Ret None else
  val ← i64 (val + delta); Ret (Some val).

Definition store_incrby (s : Store) (key : bytes) (delta now now' : Z)
    : res (Store * (StoreStatus + Z)) :=
  let '(s, st) := lookup_typed s key as_str now in
  match st with
  | inr str =>
      match parse_int64 str with
      | None => Ret (s, inl STORE_NOT_INTEGER)
      | Some val =>
          r ← incr_checked val delta;
          match r with
          | None => Ret (s, inl STORE_OVERFLOW)
          | Some val => Ret (write_entry s key (with_v (V_str (fmt_d val))), inr val)
          end
      end
  | inl STORE_WRONG_TYPE => Ret (s, inl STORE_WRONG_TYPE)
  | inl _ =>
      r ← incr_checked 0 delta;
      match r with
      | None => Ret (s, inl STORE_OVERFLOW)
      | Some val => Ret (store_set s key (fmt_d val) 0 now', inr val)
      end
  end.

(** ** Lists *)

Definition store_list_push (s : Store) (key value : bytes) (at_head : bool) (now : Z)
    : res (Store * (StoreStatus + nat)) :=
  let '(s, st) := lookup_typed s key as_list now in
  match st with
  | inl STORE_WRONG_TYPE => Ret (s, inl STORE_WRONG_TYPE)
  | _ =>
      let '(s, l) := match st with
                     | inr l => (s, l)
                     | inl _ => (create_entry s key (V_list list_empty), list_empty)
                     end in
      l ← list_push l value at_head;
      Ret (write_entry s key (with_v (V_list l)), inr (l_len l))
  end.

Definition store_list_pop (s : Store) (key : bytes) (at_head : bool) (now now' : Z)
    : res (Store * (StoreStatus + bytes)) :=
  let '(s, st) := lookup_typed s key as_list now in
  match st with
  | inl e => Ret (s, inl e)
  | inr l =>
      r ← list_pop l at_head;
      match r with
      | None => Ret (s, inl STORE_NOT_FOUND)
      | Some (value, l) =>
          let s := write_entry s key (with_v (V_list l)) in
          Ret (if l_len l =? 0 then (store_del s key now').1 else s, inr value)
      end
  end.

Definition store_get_list (s : Store) (key : bytes) (now : Z) : Store * (StoreStatus + List) :=
  lookup_typed s key as_list now.

(** ** Hashes *)

Definition store_hash_set (s : Store) (key field value : bytes) (now : Z) : Store * (StoreStatus + Z) :=
  let '(s, st) := lookup_typed s key as_hash now in
  match st with
  | inl STORE_WRONG_TYPE => (s, inl STORE_WRONG_TYPE)
  | _ =>
      let '(s, h) := match st with
                     | inr h => (s, h)
                     | inl _ => (create_entry s key (V_hash hash_empty), hash_empty)
                     end in
      let '(h, created) := hash_put h field value in
      (write_entry s key (with_v (V_hash h)), inr created)
  end.

Definition store_hash_get (s : Store) (key field : bytes) (now : Z) : Store * (StoreStatus + bytes) :=
  let '(s, st) := lookup_typed s key as_hash now in
  match st with
  | inl e => (s, inl e)
  | inr h => (s, match hash_get h field with Some v => inr v | None => inl STORE_NOT_FOUND end)
  end.

Definition store_hash_del (s : Store) (key field : bytes) (now now' : Z) : Store * (StoreStatus + Z) :=
  let '(s, st) := lookup_typed s key as_hash now in
  match st with
  | inl STORE_NOT_FOUND => (s, inr 0%Z)
  | inl e => (s, inl e)
  | inr h =>
      let '(h, deleted) := hash_del h field in
      let s := write_entry s key (with_v (V_hash h)) in
      (if hash_len h =? 0 then (store_del s key now').1 else s, inr deleted)
  end.

Definition store_get_hash (s : Store) (key : bytes) (now : Z) : Store * (StoreStatus + Hash) :=
  lookup_typed s key as_hash now.

(** ** Sorted sets *)

Definition store_zset_add (s : Store) (key : bytes) (score : dbl) (member : bytes) (now : Z)
    : res (Store * (StoreStatus + Z)) :=
  let '(s, st) := lookup_typed s key as_zset now in
  match st with
  | inl STORE_WRONG_TYPE => Ret (s, inl STORE_WRONG_TYPE)
  | _ =>
      let '(s, z) := match st with
                     | inr z => (s, z)
                     | inl _ => (create_entry s key (V_zset zset_empty), zset_empty)
                     end in
      r ← zset_add z score member;
      Ret (write_entry s key (with_v (V_zset r.1)), inr r.2)
  end.

Definition store_zset_score (s : Store) (key member : bytes) (now : Z) : Store * (StoreStatus + dbl) :=
  let '(s, st) := lookup_typed s key as_zset now in
  match st with
  | inl e => (s, inl e)
  | inr z => (s, match zset_score z member with Some v => inr v | None => inl STORE_NOT_FOUND end)
  end.

Definition store_zset_rank (s : Store) (key member : bytes) (now : Z) : res (Store * (StoreStatus + nat)) :=
  let '(s, st) := lookup_typed s key as_zset now in
  match st with
  | inl e => Ret (s, inl e)
  | inr z =>
      r ← zset_rank z member;
      Ret (s, match r with Some n => inr n | None => inl STORE_NOT_FOUND end)
  end.

Definition store_get_zset (s : Store) (key : bytes) (now : Z) : Store * (StoreStatus + ZSet) :=
  lookup_typed s key as_zset now.

(** ** Streams *)

(** [fields] are the [num_fields] pairs of [fields[i]] and [values[i]]. *)
Definition store_stream_add (s : Store) (key id_spec : bytes) (fields : list (bytes * bytes))
    (now now' : Z) : Store * (StoreStatus + StreamId) :=
  let '(s, st) := lookup_typed s key as_stream now in
  match st with
  | inl STORE_WRONG_TYPE => (s, inl STORE_WRONG_TYPE)
  | _ =>
      match resolve_new_id (match st with inr x => Some x | inl _ => None end) id_spec now' with
      | inl idst => (s, inl idst)
      | inr id =>
          let '(s, x) := match st with
                         | inr x => (s, x)
                         | inl _ => (create_entry s key (V_stream stream_empty), stream_empty)
                         end in
          (write_entry s key (with_v (V_stream (stream_append x id fields))), inr id)
      end
  end.

Definition store_get_stream (s : Store) (key : bytes) (now : Z) : Store * (StoreStatus + Stream) :=
  lookup_typed s key as_stream now.

End Store.
