(* ===== verification/StoreInv.v ===== *)
(** * The keyspace represents a finite map

    The representation invariant of [store.c] and its preservation: the number
    of buckets is a power of two and at least the number of keys, every entry
    is in the bucket of its cached hash, no key occurs twice, and every value
    is well formed and, for the container types, not empty.  [key_map] is the
    finite map a store stands for; each low-level operation is an update of
    that map. *)

From S2P Require Import Prelude CLib Util Chain FieldHash DList Dbl ZSet Stream Store.
Import Util FieldHash DList Dbl ZSet Stream Store.

Module StoreInv.

Definition slot_of (size : nat) (key : bytes) : nat := mask_slot size (hash64 key).

Definition key_map (s : Store) : gmap bytes StoreEntry := tbl_map (buckets s).

Definition cached (e : StoreEntry) : Prop := e_hash e = hash64 (e_key e).

(** The shape of the table, whatever the values are. *)
Record store_shape (s : Store) : Prop := {
  sh_size : ∃ j, st_size s = 2 ^ j;
  sh_tbl : tbl_wf (slot_of (st_size s)) (buckets s);
  sh_len : length (buckets s) = st_size s;
  sh_count : st_count s = length (concat (buckets s));
  sh_load : st_count s ≤ st_size s;
  sh_cached : Forall cached (concat (buckets s));
}.

(** A key never holds an empty container. *)
Definition value_wf (v : Value) : Prop :=
  match v with
  | V_str _ => True
  | V_list l => list_wf l ∧ list_elems l ≠ []
  | V_hash h => hash_wf h ∧ hash_map h ≠ ∅
  | V_zset z => zset_wf z ∧ z_entries z ≠ []
  | V_stream st => stream_wf st
  end.

Definition store_wf (s : Store) : Prop :=
  store_shape s ∧ map_Forall (λ _ e, value_wf (e_v e)) (key_map s).

(** ** The loops of [lookup] and [store_del] are chain operations *)

Lemma cached_test e key : cached e → (e_hash e =? hash64 key)%Z && streq (e_key e) key = streq (e_key e) key.
Proof.
  intros He. destruct (streq (e_key e) key) eqn:Hk; [|by rewrite andb_false_r].
  apply streq_true in Hk. rewrite He, Hk, Z.eqb_refl. done.
Qed.

Lemma lookup_loop_chain c key now :
  Forall cached c →
  lookup_loop c key (hash64 key) now =
  match chain_find key c with
  | None => W_none
  | Some e => if entry_is_expired e now then W_expired (chain_remove key c) else W_live e
  end.
Proof.
  induction 1 as [|e c He Hc IH]; [done|]. cbn [lookup_loop chain_find chain_remove].
  rewrite cached_test by done. change (ekey e) with (e_key e).
  destruct (streq (e_key e) key).
  - unfold entry_is_expired. by destruct (e_expires_at e =? 0)%Z.
  - rewrite IH. destruct (chain_find key c) as [e'|]; [|done]. by destruct (entry_is_expired e' now).
Qed.

Lemma del_loop_chain c key now :
  Forall cached c →
  del_loop c key (hash64 key) now =
  match chain_find key c with
  | None => None
  | Some e => Some (chain_remove key c, negb (entry_is_expired e now))
  end.
Proof.
  induction 1 as [|e c He Hc IH]; [done|]. cbn [del_loop chain_find chain_remove].
  rewrite cached_test by done. change (ekey e) with (e_key e).
  destruct (streq (e_key e) key); [done|]. rewrite IH. by destruct (chain_find key c).
Qed.

Lemma shape_chain_cached s key :
  store_shape s → Forall cached (buckets s !!! slot_of (st_size s) key).
Proof.
  intros Hs. apply Forall_forall. intros e He. pose proof (sh_cached _ Hs) as Hc.
  rewrite Forall_forall in Hc. apply Hc, elem_of_concat. eexists. split; [exact He|].
  apply list_elem_of_lookup. eexists. apply (tbl_chain _ _ _ (sh_tbl _ Hs)).
Qed.

Lemma key_map_find s key :
  store_shape s → key_map s !! key = chain_find key (buckets s !!! slot_of (st_size s) key).
Proof.
  intros Hs. unfold key_map. rewrite (tbl_lookup _ _ key (sh_tbl _ Hs)).
  by destruct (chain_find key _).
Qed.

Lemma key_map_key s key e : store_shape s → key_map s !! key = Some e → e_key e = key.
Proof. intros Hs. rewrite key_map_find by done. by intros [_ ?]%chain_find_Some. Qed.

(** ** Creation and growth *)

Lemma store_create_spec : store_wf store_create ∧ key_map store_create = ∅.
Proof.
  destruct (tbl_empty (E := StoreEntry) (slot_of STORE_INITIAL_BUCKETS) STORE_INITIAL_BUCKETS) as [H1 H2].
  { intros k. apply (mask_slot_lt 4). }
  change (key_map store_create = ∅) in H2.
  split; [|exact H2]. split; [split|rewrite H2; apply map_Forall_empty];
    simpl; [by exists 4|done|done|done|lia|constructor].
Qed.

Lemma store_grow_spec s :
  store_shape s →
  let s' := store_grow s in
  store_shape s' ∧ key_map s' = key_map s ∧ st_size s' = 2 * st_size s.
Proof.
  intros Hs s'. destruct (sh_size _ Hs) as [j Hj].
  assert (st_size s * 2 = 2 ^ S j) as Hn by (rewrite Hj; simpl; lia).
  destruct (rehash_spec (λ e, mask_slot (st_size s * 2) (e_hash e)) (slot_of (st_size s * 2))
              (buckets s) (st_size s * 2)) as (H1 & H2 & H3).
  - intros k. unfold slot_of. rewrite Hn. apply mask_slot_lt.
  - intros e He. pose proof (sh_cached _ Hs) as Hc. rewrite Forall_forall in Hc.
    unfold slot_of. change (ekey e) with (e_key e). by rewrite (Hc e He).
  - apply (tbl_nodup _ _ (sh_tbl _ Hs)).
  - split_and!; [split; simpl|symmetry; apply (entry_map_perm (KE := entry_keyed))|simpl; lia].
    + by exists (S j).
    + exact H1.
    + exact H2.
    + rewrite (sh_count _ Hs). symmetry. by apply Permutation_length.
    + pose proof (sh_load _ Hs). lia.
    + eapply Permutation_Forall; [symmetry; exact H3|apply (sh_cached _ Hs)].
    + apply (tbl_nodup _ _ (sh_tbl _ Hs)).
    + by symmetry.
Qed.

Definition grown (s : Store) : Store := if st_size s <=? st_count s then store_grow s else s.

Lemma grown_spec s :
  store_shape s → store_shape (grown s) ∧ key_map (grown s) = key_map s ∧ S (st_count s) ≤ st_size (grown s) ∧
  st_count (grown s) = st_count s.
Proof.
  intros Hs. unfold grown. destruct (Nat.leb_spec (st_size s) (st_count s)) as [Hle|Hlt].
  - destruct (store_grow_spec s Hs) as (H1 & H2 & H3). destruct (sh_size _ Hs) as [j Hj].
    pose proof (sh_load _ Hs). pose proof (pow2_pos j). split_and!; [done|done|lia|done].
  - split_and!; [done|done|lia|done].
Qed.

(** ** Changing the table *)

Lemma remove_shape s key e :
  store_shape s → key_map s !! key = Some e →
  let slot := slot_of (st_size s) key in
  let s' := {| buckets := <[slot := chain_remove key (buckets s !!! slot)]> (buckets s);
               st_size := st_size s; st_count := st_count s - 1 |} in
  store_shape s' ∧ key_map s' = delete key (key_map s).
Proof.
  intros Hs Hk slot s'. rewrite key_map_find in Hk by done.
  destruct (tbl_remove _ _ _ _ (sh_tbl _ Hs) Hk) as (H1 & H2 & H3).
  pose proof (Permutation_length H3) as Hl. simpl in Hl. pose proof (sh_count _ Hs).
  split; [|exact H2]. split; simpl.
  - apply Hs.
  - exact H1.
  - rewrite length_insert. apply Hs.
  - unfold slot. lia.
  - pose proof (sh_load _ Hs). lia.
  - pose proof (sh_cached _ Hs) as Hc. rewrite H3 in Hc. by apply Forall_cons in Hc as [_ ?].
Qed.

Lemma create_shape s key v :
  store_shape s → key_map s !! key = None →
  store_shape (create_entry s key v) ∧
  key_map (create_entry s key v) =
    <[key := {| e_key := key; e_hash := hash64 key; e_expires_at := 0; e_v := v |}]> (key_map s).
Proof.
  intros Hs Hk. destruct (grown_spec s Hs) as (Hg & Hm & Hload & Hcount). unfold create_entry. fold (grown s).
  set (e := {| e_key := key; e_hash := hash64 key; e_expires_at := 0; e_v := v |}).
  rewrite <- Hm, key_map_find in Hk by done.
  destruct (tbl_insert _ _ e (sh_tbl _ Hg) Hk) as (H1 & H2 & H3).
  pose proof (Permutation_length H3) as Hl. simpl in Hl. rewrite <- Hm.
  split; [|exact H2]. split; simpl.
  - apply Hg.
  - exact H1.
  - rewrite length_insert. apply Hg.
  - rewrite (sh_count _ Hg). symmetry. exact Hl.
  - lia.
  - eapply Permutation_Forall; [symmetry; exact H3|]. by constructor; [|apply Hg].
Qed.

Lemma write_shape s key e f :
  store_shape s → key_map s !! key = Some e → e_key (f e) = e_key e → e_hash (f e) = e_hash e →
  store_shape (write_entry s key f) ∧ key_map (write_entry s key f) = <[key := f e]> (key_map s).
Proof.
  intros Hs Hk Hfk Hfh. rewrite key_map_find in Hk by done.
  destruct (tbl_update _ _ _ _ f (sh_tbl _ Hs) Hk Hfk) as (H1 & H2 & l & H3 & H4).
  pose proof (Permutation_length H3) as Hl. pose proof (Permutation_length H4) as Hl'. simpl in *.
  split; [|exact H2]. split; simpl.
  - apply Hs.
  - exact H1.
  - rewrite length_insert. apply Hs.
  - rewrite (sh_count _ Hs). unfold slot_of in *. lia.
  - apply Hs.
  - pose proof (sh_cached _ Hs) as Hc. rewrite H3 in Hc. apply Forall_cons in Hc as [Hc1 Hc2].
    eapply Permutation_Forall; [symmetry; exact H4|]. constructor; [|done].
    unfold cached in *. by rewrite Hfk, Hfh.
Qed.

(** A value stored through a pointer to an entry, new or old. *)
Lemma write_wf s key e f :
  store_shape s → map_Forall (λ k e, k ≠ key → value_wf (e_v e)) (key_map s) →
  key_map s !! key = Some e → e_key (f e) = e_key e → e_hash (f e) = e_hash e → value_wf (e_v (f e)) →
  store_wf (write_entry s key f) ∧ key_map (write_entry s key f) = <[key := f e]> (key_map s).
Proof.
  intros Hs Hv Hk Hfk Hfh Hf. destruct (write_shape s key e f Hs Hk Hfk Hfh) as [Hs' Hm].
  split; [|done]. split; [done|]. rewrite Hm. intros k e' [[<- <-]|[Hne He']]%lookup_insert_Some; [done|].
  by eapply Hv.
Qed.

Lemma write_entry_spec s key e f :
  store_wf s → key_map s !! key = Some e → e_key (f e) = e_key e → e_hash (f e) = e_hash e →
  value_wf (e_v (f e)) →
  store_wf (write_entry s key f) ∧ key_map (write_entry s key f) = <[key := f e]> (key_map s).
Proof.
  intros [Hs Hv] Hk Hfk Hfh Hf. apply write_wf; [done| |done..]. intros k e' He' _. by eapply Hv.
Qed.

Lemma create_write_spec s key v f :
  let e := {| e_key := key; e_hash := hash64 key; e_expires_at := 0; e_v := v |} in
  store_wf s → key_map s !! key = None → e_key (f e) = key → e_hash (f e) = hash64 key →
  value_wf (e_v (f e)) →
  store_wf (write_entry (create_entry s key v) key f) ∧
  key_map (write_entry (create_entry s key v) key f) = <[key := f e]> (key_map s).
Proof.
  intros e [Hs Hv] Hk Hfk Hfh Hf. destruct (create_shape s key v Hs Hk) as [Hs' Hm].
  destruct (write_wf (create_entry s key v) key e f) as [H1 H2]; [done| | |done..|].
  - rewrite Hm. intros k e' [[<- <-]|[Hne He']]%lookup_insert_Some; [done|]. intros _. by eapply Hv.
  - by rewrite Hm, lookup_insert_eq.
  - split; [done|]. by rewrite H2, Hm, insert_insert_eq.
Qed.

(** ** Lookup and deletion *)

Lemma lookup_spec s key now :
  store_wf s →
  match key_map s !! key with
  | None => lookup s key now = (s, None)
  | Some e =>
      if entry_is_expired e now
      then ∃ s', lookup s key now = (s', None) ∧ store_wf s' ∧ key_map s' = delete key (key_map s)
      else lookup s key now = (s, Some e)
  end.
Proof.
  intros [Hs Hv]. unfold lookup. fold (slot_of (st_size s) key).
  rewrite lookup_loop_chain by by apply shape_chain_cached. rewrite <- key_map_find by done.
  destruct (key_map s !! key) as [e|] eqn:Hk; [|done].
  destruct (entry_is_expired e now); [|done]. destruct (remove_shape s key e Hs Hk) as [H1 H2].
  eexists. split_and!; [done|split; [done|]|done]. rewrite H2. by apply map_Forall_delete.
Qed.

Lemma store_del_shape s key now :
  store_shape s →
  ∃ s', store_del s key now =
          (s', match key_map s !! key with Some e => negb (entry_is_expired e now) | None => false end) ∧
        store_shape s' ∧ key_map s' = delete key (key_map s).
Proof.
  intros Hs. unfold store_del. fold (slot_of (st_size s) key).
  rewrite del_loop_chain by by apply shape_chain_cached. rewrite <- key_map_find by done.
  destruct (key_map s !! key) as [e|] eqn:Hk.
  - destruct (remove_shape s key e Hs Hk) as [H1 H2]. by eexists.
  - exists s. split_and!; [done|done|by rewrite delete_id].
Qed.

Lemma store_del_spec s key now :
  store_wf s →
  ∃ s', store_del s key now =
          (s', match key_map s !! key with Some e => negb (entry_is_expired e now) | None => false end) ∧
        store_wf s' ∧ key_map s' = delete key (key_map s).
Proof.
  intros [Hs Hv]. destruct (store_del_shape s key now Hs) as (s' & Hd & Hs' & Hm).
  exists s'. split_and!; [done|split; [done|]|done]. rewrite Hm. by apply map_Forall_delete.
Qed.

(** Emptying a container and then deleting its key. *)
Lemma write_del_spec s key e f now :
  store_wf s → key_map s !! key = Some e → e_key (f e) = e_key e → e_hash (f e) = e_hash e →
  let s' := (store_del (write_entry s key f) key now).1 in
  store_wf s' ∧ key_map s' = delete key (key_map s).
Proof.
  intros [Hs Hv] Hk Hfk Hfh. destruct (write_shape s key e f Hs Hk Hfk Hfh) as [Hs' Hm].
  destruct (store_del_shape _ key now Hs') as (s2 & -> & Hs2 & Hm2). simpl.
  rewrite Hm, delete_insert_eq in Hm2. split; [split|]; [done| |done]. rewrite Hm2. by apply map_Forall_delete.
Qed.

Lemma store_count_spec s : store_wf s → store_count s = size (key_map s).
Proof.
  intros [Hs _]. unfold store_count. rewrite (sh_count _ Hs). symmetry.
  apply (tbl_size (slot_of (st_size s)) _ (sh_tbl _ Hs)).
Qed.

End StoreInv.
