(* ===== verification/StoreSpec.v ===== *)
(** * The keyspace refines an abstract specification

    The promise of [store.h], stated on a plain finite map from keys to an
    expiry and a value: strings, lists, finite maps, sorted lists of members
    and lists of stream entries.  There are no buckets, pointers, indexes or
    caches in it, and a key past its expiry does not exist.  [exec_refines]
    shows that each operation of [store.c] answers like the specification and
    keeps the relation [refines] between the two; [trace_refines] lifts it to
    any sequence of operations from [store_create]. *)

From S2P Require Import Prelude CLib Util Chain FieldHash DList Dbl ZSet Stream Store StoreInv.
Import Util FieldHash DList Dbl ZSet Stream Store StoreInv.

Module StoreSpec.

(** ** Abstract values and keyspaces *)

Inductive AValue :=
| A_str (s : bytes)
| A_list (xs : list bytes)
| A_hash (m : gmap bytes bytes)
| A_zset (l : list ZSetEntry)
| A_stream (es : list StreamEntry).

Definition aval (v : Value) : AValue :=
  match v with
  | V_str s => A_str s
  | V_list l => A_list (list_elems l)
  | V_hash h => A_hash (hash_map h)
  | V_zset z => A_zset (z_entries z)
  | V_stream st => A_stream (st_entries st)
  end.

Abbreviation keyspace := (gmap bytes (Z * AValue)).

Definition expired (x now : Z) : bool := negb (x =? 0)%Z && (x <? now)%Z.

(** The keys that exist at time [now]. *)
Definition live (now : Z) (ks : keyspace) : keyspace :=
  filter (λ kv, expired kv.2.1 now = false) ks.

Definition absE (e : StoreEntry) : Z * AValue := (e_expires_at e, aval (e_v e)).

Definition abs (s : Store) : keyspace := absE <$> key_map s.

(** ** Operations and their answers *)

Inductive op :=
| OP_del (k : bytes)
| OP_exists (k : bytes)
| OP_type (k : bytes)
| OP_expiry (k : bytes)
| OP_set (k v : bytes) (expires_at : Z)
| OP_get (k : bytes)
| OP_incrby (k : bytes) (delta : Z)
| OP_push (k v : bytes) (at_head : bool)
| OP_pop (k : bytes) (at_head : bool)
| OP_get_list (k : bytes)
| OP_hset (k f v : bytes)
| OP_hget (k f : bytes)
| OP_hdel (k f : bytes)
| OP_get_hash (k : bytes)
| OP_zadd (k : bytes) (score : dbl) (m : bytes)
| OP_zscore (k m : bytes)
| OP_zrank (k m : bytes)
| OP_get_zset (k : bytes)
| OP_xadd (k spec : bytes) (fields : list (bytes * bytes))
| OP_get_stream (k : bytes).

Inductive answer :=
| R_unit
| R_err (st : StoreStatus)
| R_bool (b : bool)
| R_type (t : StoreType)
| R_int (z : Z)
| R_bytes (s : bytes)
| R_dbl (d : dbl)
| R_id (id : StreamId)
| R_value (v : AValue).

Definition out {A} (f : A → answer) (r : StoreStatus + A) : answer :=
  match r with inl e => R_err e | inr a => f a end.

Definition outp {S A} (f : A → answer) (r : S * (StoreStatus + A)) : S * answer := (r.1, out f r.2).

(** What a client of [store.h] sees of each call. *)
Definition exec (s : Store) (o : op) (now now' : Z) : res (Store * answer) :=
  match o with
  | OP_del k => let '(s, b) := store_del s k now in Ret (s, R_bool b)
  | OP_exists k => let '(s, b) := store_exists s k now in Ret (s, R_bool b)
  | OP_type k => let '(s, t) := store_type s k now in Ret (s, R_type t)
  | OP_expiry k => let '(s, z) := store_get_expiry s k now in Ret (s, R_int z)
  | OP_set k v x => Ret (store_set s k v x now, R_unit)
  | OP_get k => Ret (outp R_bytes (store_get s k now))
  | OP_incrby k d => r ← store_incrby s k d now now'; Ret (outp R_int r)
  | OP_push k v b => r ← store_list_push s k v b now; Ret (outp (λ n, R_int (Z.of_nat n)) r)
  | OP_pop k b => r ← store_list_pop s k b now now'; Ret (outp R_bytes r)
  | OP_get_list k => Ret (outp (λ l, R_value (A_list (list_elems l))) (store_get_list s k now))
  | OP_hset k f v => Ret (outp R_int (store_hash_set s k f v now))
  | OP_hget k f => Ret (outp R_bytes (store_hash_get s k f now))
  | OP_hdel k f => Ret (outp R_int (store_hash_del s k f now now'))
  | OP_get_hash k => Ret (outp (λ h, R_value (A_hash (hash_map h))) (store_get_hash s k now))
  | OP_zadd k sc m => r ← store_zset_add s k sc m now; Ret (outp R_int r)
  | OP_zscore k m => Ret (outp R_dbl (store_zset_score s k m now))
  | OP_zrank k m => r ← store_zset_rank s k m now; Ret (outp (λ n, R_int (Z.of_nat n)) r)
  | OP_get_zset k => Ret (outp (λ z, R_value (A_zset (z_entries z))) (store_get_zset s k now))
  | OP_xadd k spec fs => Ret (outp R_id (store_stream_add s k spec fs now now'))
  | OP_get_stream k => Ret (outp (λ x, R_value (A_stream (st_entries x))) (store_get_stream s k now))
  end.

(** ** The specification *)

Definition a_str (v : AValue) := match v with A_str s => Some s | _ => None end.
Definition a_list (v : AValue) := match v with A_list xs => Some xs | _ => None end.
Definition a_hash (v : AValue) := match v with A_hash m => Some m | _ => None end.
Definition a_zset (v : AValue) := match v with A_zset l => Some l | _ => None end.
Definition a_stream (v : AValue) := match v with A_stream es => Some es | _ => None end.

Definition atype (v : AValue) : StoreType :=
  match v with
  | A_str _ => STORE_TYPE_STRING
  | A_list _ => STORE_TYPE_LIST
  | A_hash _ => STORE_TYPE_HASH
  | A_zset _ => STORE_TYPE_ZSET
  | A_stream _ => STORE_TYPE_STREAM
  end.

(** The typed contents of a key: a wrong type is an error, and so is a missing
    key unless the operation has a value to start from. *)
Definition typed {A : Type} (ks : keyspace) (k : bytes) (proj : AValue → option A) (init : option A)
    : StoreStatus + A :=
  match ks !! k with
  | None => match init with Some a => inr a | None => inl STORE_NOT_FOUND end
  | Some (_, v) => match proj v with Some a => inr a | None => inl STORE_WRONG_TYPE end
  end.

(** A new value under a key, which keeps its expiry. *)
Definition put (ks : keyspace) (k : bytes) (v : AValue) : keyspace :=
  <[k := (match ks !! k with Some (x, _) => x | None => 0%Z end, v)]> ks.

Definition zbefore (a b : ZSetEntry) : bool :=
  dlt (ze_score a) (ze_score b) ||
  deq (ze_score a) (ze_score b) && (strcmp (ze_member a) (ze_member b) <? 0)%Z.

Definition zscore_of (l : list ZSetEntry) (m : bytes) : option dbl :=
  ze_score <$> chain_find m l.

(** Adding a member to a sorted list: in front of the first one not before it. *)
Definition zput (l : list ZSetEntry) (x : ZSetEntry) : list ZSetEntry :=
  filter (λ e, zbefore e x = true) l ++ x :: filter (λ e, zbefore e x = false) l.

Definition zadd_list (l : list ZSetEntry) (score : dbl) (m : bytes) : list ZSetEntry * Z :=
  let x := {| ze_member := m; ze_score := score |} in
  match zscore_of l m with
  | Some old => if deq old score then (l, 0%Z) else (zput (filter (λ e, ze_member e ≠ m) l) x, 0%Z)
  | None => (zput l x, 1%Z)
  end.

(** The stream with these entries. *)
Definition stream_of (es : list StreamEntry) : option Stream :=
  match last es with
  | None => None
  | Some e => Some {| st_entries := es; st_len := length es; st_last_id := se_id e |}
  end.

Definition spec (ks : keyspace) (o : op) (now now' : Z) : keyspace * answer :=
  match o with
  | OP_del k => (delete k ks, R_bool (bool_decide (is_Some (ks !! k))))
  | OP_exists k => (ks, R_bool (bool_decide (is_Some (ks !! k))))
  | OP_type k => (ks, R_type (match ks !! k with Some (_, v) => atype v | None => STORE_TYPE_NONE end))
  | OP_expiry k => (ks, R_int (match ks !! k with Some (x, _) => if x =? 0 then -1 else x | None => -2 end)%Z)
  | OP_set k v x => (live now (<[k := (x, A_str v)]> ks), R_unit)
  | OP_get k => (ks, out R_bytes (typed ks k a_str None))
  | OP_incrby k d =>
      match typed ks k a_str (Some #"0") with
      | inl e => (ks, R_err e)
      | inr str =>
          match parse_int64 str with
          | None => (ks, R_err STORE_NOT_INTEGER)
          | Some n =>
              if in_i64 (n + d) then (put ks k (A_str (fmt_d (n + d))), R_int (n + d))
              else (ks, R_err STORE_OVERFLOW)
          end
      end
  | OP_push k v b =>
      match typed ks k a_list (Some []) with
      | inl e => (ks, R_err e)
      | inr xs => (put ks k (A_list (push_list xs v b)), R_int (Z.of_nat (S (length xs))))
      end
  | OP_pop k b =>
      match typed ks k a_list None with
      | inl e => (ks, R_err e)
      | inr xs =>
          match pop_list xs b with
          | None => (ks, R_err STORE_NOT_FOUND)
          | Some (x, xs') =>
              (if decide (xs' = []) then delete k ks else put ks k (A_list xs'), R_bytes x)
          end
      end
  | OP_get_list k => (ks, out (λ xs, R_value (A_list xs)) (typed ks k a_list None))
  | OP_hset k f v =>
      match typed ks k a_hash (Some ∅) with
      | inl e => (ks, R_err e)
      | inr m => (put ks k (A_hash (<[f := v]> m)), R_int (match m !! f with Some _ => 0 | None => 1 end))
      end
  | OP_hget k f =>
      (ks, match typed ks k a_hash None with
           | inl e => R_err e
           | inr m => match m !! f with Some v => R_bytes v | None => R_err STORE_NOT_FOUND end
           end)
  | OP_hdel k f =>
      match typed ks k a_hash (Some ∅) with
      | inl e => (ks, R_err e)
      | inr m =>
          (if decide (delete f m = ∅) then delete k ks else put ks k (A_hash (delete f m)),
           R_int (match m !! f with Some _ => 1 | None => 0 end))
      end
  | OP_get_hash k => (ks, out (λ m, R_value (A_hash m)) (typed ks k a_hash None))
  | OP_zadd k sc m =>
      match typed ks k a_zset (Some []) with
      | inl e => (ks, R_err e)
      | inr l => let '(l', added) := zadd_list l sc m in (put ks k (A_zset l'), R_int added)
      end
  | OP_zscore k m =>
      (ks, match typed ks k a_zset None with
           | inl e => R_err e
           | inr l => match zscore_of l m with Some d => R_dbl d | None => R_err STORE_NOT_FOUND end
           end)
  | OP_zrank k m =>
      (ks, match typed ks k a_zset None with
           | inl e => R_err e
           | inr l => match list_find (λ e, ze_member e = m) l with
                      | Some (i, _) => R_int (Z.of_nat i)
                      | None => R_err STORE_NOT_FOUND
                      end
           end)
  | OP_get_zset k => (ks, out (λ l, R_value (A_zset l)) (typed ks k a_zset None))
  | OP_xadd k sp fs =>
      match typed ks k a_stream (Some []) with
      | inl e => (ks, R_err e)
      | inr es =>
          match resolve_new_id (stream_of es) sp now' with
          | inl e => (ks, R_err e)
          | inr id =>
              (put ks k (A_stream (es ++ [{| se_id := id; se_fields := fs; se_num_fields := length fs |}])),
               R_id id)
          end
      end
  | OP_get_stream k => (ks, out (λ es, R_value (A_stream es)) (typed ks k a_stream None))
  end.

(** Scores are never NaN ([parse_double] rejects it) and increments are 64-bit. *)
Definition op_ok (o : op) : Prop :=
  match o with
  | OP_zadd _ sc _ => is_nan sc = false
  | OP_incrby _ d => in_i64 d = true
  | _ => True
  end.

(** ** The relation *)

Definition refines (now : Z) (s : Store) (ks : keyspace) : Prop :=
  store_wf s ∧ live now (abs s) = ks.

(** ** Time *)

Lemma live_lookup now ks k :
  live now ks !! k = match ks !! k with
                     | Some (x, v) => if expired x now then None else Some (x, v)
                     | None => None
                     end.
Proof.
  unfold live. destruct (ks !! k) as [[x v]|] eqn:Hk.
  - destruct (expired x now) eqn:Hx.
    + apply map_lookup_filter_None. right. intros [x' v'] [= <- <-]%(eq_trans (eq_sym Hk)). simpl. by rewrite Hx.
    + by apply map_lookup_filter_Some.
  - apply map_lookup_filter_None. by left.
Qed.

Lemma live_idem now ks : live now (live now ks) = live now ks.
Proof.
  apply map_eq. intros k. rewrite !live_lookup. destruct (ks !! k) as [[x v]|]; [|done].
  destruct (expired x now) eqn:Hx; [done|]. by rewrite Hx.
Qed.

(** An expired key stays expired. *)
Lemma live_mono now t ks : (now ≤ t)%Z → live t (live now ks) = live t ks.
Proof.
  intros Ht. apply map_eq. intros k. rewrite !live_lookup. destruct (ks !! k) as [[x v]|]; [|done].
  destruct (expired x now) eqn:Hx; [|done]. unfold expired in *.
  by destruct (Z.eqb_spec x 0), (Z.ltb_spec x now), (Z.ltb_spec x t); simpl in *; try lia.
Qed.

Lemma live_insert now ks k xv :
  expired xv.1 now = false → live now (<[k := xv]> ks) = <[k := xv]> (live now ks).
Proof. intros Hx. unfold live. by rewrite map_filter_insert_True. Qed.

Lemma live_delete now ks k : live now (delete k ks) = delete k (live now ks).
Proof. apply map_filter_delete. Qed.

Lemma live_insert_any now ks k xv : live now (<[k := xv]> ks) = live now (<[k := xv]> (live now ks)).
Proof.
  apply map_eq. intros k'. rewrite !live_lookup. destruct (decide (k = k')) as [->|Hne].
  - by rewrite !lookup_insert_eq.
  - rewrite !lookup_insert_ne, live_lookup by done. destruct (ks !! k') as [[x v]|]; [|done].
    destruct (expired x now) eqn:Hx; [done|]. by rewrite Hx.
Qed.

(** Time passes: what was hidden stays hidden, and more keys may disappear. *)
Lemma refines_tick now t s ks : (now ≤ t)%Z → refines now s ks → refines t s (live t ks).
Proof. intros Ht [Hwf <-]. split; [done|]. by rewrite live_mono. Qed.

(** ** Primitives *)

Lemma refines_live now s ks : refines now s ks → live now ks = ks.
Proof. intros [_ <-]. apply live_idem. Qed.

Lemma abs_lookup s k : abs s !! k = absE <$> key_map s !! k.
Proof. apply lookup_fmap. Qed.

(** What a lookup answers; dropping an expired key is not visible. *)
Lemma refines_lookup now s ks k :
  refines now s ks →
  ∃ s' o, lookup s k now = (s', o) ∧ refines now s' ks ∧ key_map s' !! k = o ∧
    ks !! k = absE <$> o ∧ (∀ e, o = Some e → expired (e_expires_at e) now = false ∧ value_wf (e_v e)).
Proof.
  intros [Hwf Hks]. pose proof (lookup_spec s k now Hwf) as Hl.
  pose proof (f_equal (.!! k) Hks) as Hkk. rewrite live_lookup, abs_lookup in Hkk.
  destruct (key_map s !! k) as [e|] eqn:Hk; simpl in Hkk.
  - change (entry_is_expired e now) with (expired (e_expires_at e) now) in Hl.
    destruct (expired (e_expires_at e) now) eqn:Hx.
    + destruct Hl as (s' & Hl & Hwf' & Hm). exists s', None. split_and!; [done| |by rewrite Hm, lookup_delete_eq|done|done].
      split; [done|]. unfold abs. rewrite Hm, fmap_delete, live_delete. fold (abs s). rewrite Hks.
      by apply delete_id.
    + exists s, (Some e). split_and!; [done|done|done|done|]. intros ? [= <-]. split; [done|].
      destruct Hwf as [_ Hv]. by eapply Hv.
  - exists s, None. by split_and!.
Qed.

(** A value stored under a key that has a live entry, which keeps its expiry. *)
Lemma refines_write now s ks k e v :
  refines now s ks → key_map s !! k = Some e → expired (e_expires_at e) now = false → value_wf v →
  refines now (write_entry s k (with_v v)) (put ks k (aval v)).
Proof.
  intros [Hwf Hks] Hk Hx Hv. destruct (write_entry_spec s k e (with_v v) Hwf Hk) as [Hwf' Hm]; [done..|].
  split; [done|]. unfold abs. rewrite Hm, fmap_insert, live_insert by done. fold (abs s). rewrite Hks.
  unfold put. pose proof (f_equal (.!! k) Hks) as Hkk. rewrite live_lookup, abs_lookup, Hk in Hkk.
  simpl in Hkk. rewrite Hx in Hkk. by rewrite <- Hkk.
Qed.

(** A value stored under a new key, which has no expiry. *)
Lemma refines_create now s ks k v0 v :
  refines now s ks → key_map s !! k = None → value_wf v →
  refines now (write_entry (create_entry s k v0) k (with_v v)) (put ks k (aval v)).
Proof.
  intros [Hwf Hks] Hk Hv. destruct (create_write_spec s k v0 (with_v v)) as [Hwf' Hm]; [done..|].
  split; [done|]. unfold abs. rewrite Hm, fmap_insert, live_insert by done. fold (abs s). rewrite Hks.
  unfold put. pose proof (f_equal (.!! k) Hks) as Hkk. rewrite live_lookup, abs_lookup, Hk in Hkk.
  by rewrite <- Hkk.
Qed.

Lemma refines_del now s ks k t :
  refines now s ks →
  refines now (store_del s k t).1 (delete k ks).
Proof.
  intros [Hwf Hks]. destruct (store_del_spec s k t Hwf) as (s' & -> & Hwf' & Hm).
  split; [done|]. unfold abs. simpl. rewrite Hm, fmap_delete, live_delete. fold (abs s). by rewrite Hks.
Qed.

(** The last element of a container goes: the key goes with it. *)
Lemma refines_write_del now s ks k e v t :
  refines now s ks → key_map s !! k = Some e →
  refines now (store_del (write_entry s k (with_v v)) k t).1 (delete k ks).
Proof.
  intros [Hwf Hks] Hk. destruct (write_del_spec s k e (with_v v) t Hwf Hk) as [Hwf' Hm]; [done..|].
  split; [done|]. unfold abs. rewrite Hm, fmap_delete, live_delete. fold (abs s). by rewrite Hks.
Qed.

(** [lookup_typed] for a type whose contents the specification sees as [g]. *)
Lemma refines_typed {A B : Type} (proj : Value → option A) (aproj : AValue → option B) (g : A → B) now s ks k :
  (∀ v, aproj (aval v) = g <$> proj v) →
  refines now s ks →
  ∃ s' r, lookup_typed s k proj now = (s', r) ∧ refines now s' ks ∧
  match r with
  | inl STORE_NOT_FOUND => ks !! k = None ∧ key_map s' !! k = None
  | inl STORE_WRONG_TYPE => ∃ x v, ks !! k = Some (x, v) ∧ aproj v = None
  | inl _ => False
  | inr a => ∃ e, key_map s' !! k = Some e ∧ proj (e_v e) = Some a ∧ ks !! k = Some (absE e) ∧
               aproj (aval (e_v e)) = Some (g a) ∧ expired (e_expires_at e) now = false ∧ value_wf (e_v e)
  end.
Proof.
  intros Hp HR. destruct (refines_lookup now s ks k HR) as (s' & o & Hl & HR' & Hm & Hk & Ho).
  unfold lookup_typed. rewrite Hl. destruct o as [e|]; [|by eexists _, _].
  destruct (Ho e eq_refl) as [Hx Hv]. destruct (proj (e_v e)) as [a|] eqn:Hpe; eexists _, _; split_and!; try done.
  - exists e. by rewrite Hp, Hpe.
  - exists (e_expires_at e), (aval (e_v e)). by rewrite Hp, Hpe.
Qed.

(** ** Sorted sets as sorted lists *)

Lemma zbefore_zless a b : numeric a → numeric b → zbefore a b = true ↔ zless a b.
Proof.
  unfold numeric. intros Ha Hb. unfold zbefore, zless.
  rewrite orb_true_iff, andb_true_iff, dlt_key, deq_key, Z.ltb_lt by done. done.
Qed.

Lemma zput_perm l x : zput l x ≡ₚ x :: l.
Proof.
  unfold zput. rewrite <- Permutation_middle. apply perm_skip.
  induction l as [|e l IH]; [done|]. rewrite !filter_cons.
  destruct (zbefore e x) eqn:He; simpl; [by rewrite IH|]. by rewrite <- Permutation_middle, IH.
Qed.

Lemma sorted_filter (P : ZSetEntry → Prop) `{∀ x, Decision (P x)} l :
  StronglySorted zless l → StronglySorted zless (filter P l).
Proof.
  induction 1 as [|e l Hs IH Hall]; [constructor|]. rewrite filter_cons. destruct (decide (P e)); [|done].
  constructor; [done|]. rewrite Forall_forall in *. intros y [_ Hy]%list_elem_of_filter. by apply Hall.
Qed.

Lemma zput_sorted l x :
  StronglySorted zless l → Forall numeric l → numeric x → (∀ e, e ∈ l → ze_member e ≠ ze_member x) →
  StronglySorted zless (zput l x).
Proof.
  intros Hs Hn Hx Hm. rewrite Forall_forall in Hn. unfold zput.
  assert (∀ e, e ∈ filter (λ e, zbefore e x = true) l → zless e x) as H1.
  { intros e [Hb He]%list_elem_of_filter. apply zbefore_zless in Hb; auto. }
  assert (∀ e, e ∈ filter (λ e, zbefore e x = false) l → zless x e) as H2.
  { intros e [Hb He]%list_elem_of_filter. destruct (zless_total e x (Hm e He)) as [Hlt|?]; [|done].
    apply zbefore_zless in Hlt; [congruence|auto|auto]. }
  apply StronglySorted_app. split_and!; [|by apply sorted_filter|constructor; [by apply sorted_filter|]].
  - intros a b Ha [->|Hb]%elem_of_cons; [by apply H1|]. transitivity x; auto.
  - rewrite Forall_forall. auto.
Qed.

Lemma zless_unique l1 l2 : StronglySorted zless l1 → StronglySorted zless l2 → l1 ≡ₚ l2 → l1 = l2.
Proof.
  intros H1 H2 Hp. eapply StronglySorted_unique_strong; [|done..].
  intros a b _ _ Hab Hba. destruct (zless_irrefl a). by transitivity b.
Qed.

Lemma zentry_map_perm (l1 l2 : list ZSetEntry) :
  NoDup (ze_member <$> l1) → NoDup (ze_member <$> l2) → entry_map l1 = entry_map l2 → l1 ≡ₚ l2.
Proof.
  intros Hn1 Hn2 He. unfold entry_map in He. apply (f_equal map_to_list) in He.
  assert (map_to_list (list_to_map ((λ e, (ze_member e, ze_score e)) <$> l1) : gmap bytes dbl)
            ≡ₚ map_to_list (list_to_map ((λ e, (ze_member e, ze_score e)) <$> l2) : gmap bytes dbl)) as Hp
    by exact (eq_ind _ (λ l, _ ≡ₚ l) (reflexivity _) _ He).
  rewrite !map_to_list_to_map in Hp by (rewrite <- list_fmap_compose; done).
  apply (fmap_Permutation (λ p, {| ze_member := p.1; ze_score := p.2 |})) in Hp.
  assert (∀ l : list ZSetEntry, (λ p, {| ze_member := p.1; ze_score := p.2 |}) <$>
                 ((λ e, (ze_member e, ze_score e)) <$> l) = l) as Hid
    by (induction l as [|[] l IH]; [done|]; simpl; by f_equal).
  by rewrite !Hid in Hp.
Qed.

Lemma entry_map_find (l : list ZSetEntry) k : entry_map l !! k = zscore_of l k.
Proof.
  unfold zscore_of. induction l as [|e l IH]; [done|]. rewrite entry_map_cons. cbn [chain_find].
  destruct (streq (ekey e) k) eqn:Hk.
  - apply streq_true in Hk. rewrite Hk. by rewrite lookup_insert_eq.
  - rewrite lookup_insert_ne, IH; [done|]. intros <-. by rewrite streq_refl in Hk.
Qed.

Lemma entry_map_filter (l : list ZSetEntry) k :
  entry_map (filter (λ e, ze_member e ≠ k) l) = delete k (entry_map l).
Proof.
  induction l as [|e l IH]; [symmetry; apply (delete_empty k)|]. rewrite filter_cons, entry_map_cons.
  destruct (decide (ze_member e ≠ k)) as [Hne|He%dec_stable].
  - by rewrite entry_map_cons, IH, delete_insert_ne.
  - change (ekey e) with (ze_member e). by rewrite He, delete_insert_eq.
Qed.

(** [zset_add] is the insertion into the sorted list. *)
Lemma zset_add_list z score m :
  zset_wf z → is_nan score = false →
  ∃ z', zset_add z score m = Ret (z', (zadd_list (z_entries z) score m).2) ∧
    zset_wf z' ∧ z_entries z' = (zadd_list (z_entries z) score m).1.
Proof.
  intros Hwf Hn. destruct (zset_add_spec z score m Hwf Hn) as (z' & added & Hadd & Hwf' & Hm & ->).
  exists z'. unfold zset_map in *. rewrite entry_map_find in *.
  set (x := {| ze_member := m; ze_score := score |}).
  assert (∀ l, StronglySorted zless l → Forall numeric l → NoDup (ze_member <$> l) →
    (∀ e, e ∈ l → ze_member e ≠ m) → entry_map (z_entries z') = <[m := score]> (entry_map l) →
    z_entries z' = zput l x) as Hput.
  { intros l Hs Hnum Hnd Hne He. apply zless_unique; [apply Hwf'|by apply zput_sorted|].
    rewrite zput_perm. apply zentry_map_perm; [apply Hwf'| |done].
    apply NoDup_cons. split; [|done]. intros (e & He1 & He2)%list_elem_of_fmap. by apply (Hne e). }
  unfold zadd_list. fold x. destruct (zscore_of (z_entries z) m) as [old|] eqn:Hold.
  - destruct (deq old score); simpl; split_and!; try done.
    + apply zless_unique; [apply Hwf'|apply Hwf|]. apply zentry_map_perm; [apply Hwf'|apply Hwf|done].
    + apply Hput.
      * apply sorted_filter, Hwf.
      * pose proof (zw_numeric _ Hwf) as Hnum. rewrite Forall_forall in *.
        intros e [_ He]%list_elem_of_filter. auto.
      * apply NoDup_fmap_filter, Hwf.
      * by intros e [? _]%list_elem_of_filter.
      * by rewrite entry_map_filter, insert_delete_eq.
  - simpl. split_and!; try done. apply Hput; [apply Hwf..| |done].
    intros e He Hem. unfold zscore_of in Hold. destruct (chain_find m (z_entries z)) eqn:Hf; [done|].
    by eapply (chain_find_None m (z_entries z)).
Qed.

Lemma zset_rank_list z m :
  zset_wf z →
  zset_rank z m = Ret (fst <$> list_find (λ e, ze_member e = m) (z_entries z)).
Proof.
  intros Hwf. pose proof (zset_rank_spec z m Hwf) as Hr.
  destruct (zset_map z !! m) as [sc|] eqn:Hm.
  - destruct Hr as (l1 & l2 & Hl & ->). pose proof (zw_nodup _ Hwf) as Hnd. rewrite Hl in Hnd |- *.
    rewrite fmap_app in Hnd. apply NoDup_app in Hnd as (_ & Hnd & _).
    erewrite (proj2 (list_find_Some _ _ (length l1) {| ze_member := m; ze_score := sc |})); [done|].
    split_and!; [by apply list_lookup_middle|done|].
    intros j y Hj Hlt Hy. rewrite lookup_app_l in Hj by done.
    apply (Hnd (ze_member y)); [by eapply list_elem_of_fmap_2, list_elem_of_lookup_2|]. rewrite Hy. by left.
  - rewrite Hr. destruct (list_find _ _) as [[i e]|] eqn:Hf; [|done]. exfalso.
    apply list_find_Some in Hf as (Hi & He & _). apply list_elem_of_lookup_2 in Hi.
    unfold zset_map in Hm. rewrite entry_map_find in Hm. unfold zscore_of in Hm.
    destruct (chain_find m (z_entries z)) eqn:Hcf; [done|]. by eapply (chain_find_None m (z_entries z)).
Qed.

End StoreSpec.
