(* ===== verification/StoreRefine.v ===== *)
(** * Refinement of the keyspace, operation by operation

    Each operation of [store.c] simulates the specification of [StoreSpec]: it
    has no undefined behaviour, gives the specified answer and ends in a state
    that stands for the specified keyspace.  The file closes with the theorem
    on sequences of operations. *)

From S2P Require Import Prelude CLib Util Chain FieldHash DList Dbl ZSet Stream Store StoreInv StoreSpec.
Import Util FieldHash DList Dbl ZSet Stream Store StoreInv StoreSpec.

Module StoreRefine.

Definition sim (now now' : Z) (s : Store) (ks : keyspace) (o : op) : Prop :=
  ∃ s', exec s o now now' = Ret (s', (spec ks o now now').2) ∧
        refines now s' (spec ks o now now').1.

(** ** Arithmetic of INCRBY *)

(** The guards of [store_incrby] detect exactly the sums that do not fit, and
    no intermediate result overflows. *)
Lemma incr_checked_spec val delta :
  in_i64 val = true → in_i64 delta = true →
  incr_checked val delta = Ret (if in_i64 (val + delta) then Some (val + delta)%Z else None).
Proof.
  rewrite !in_i64_spec. unfold incr_checked, i64, in_i64, INT64_MIN, INT64_MAX. intros Hv Hd.
  repeat (case_match; simpl in *; bools; try lia); try done; repeat (case_match; simpl in *; bools; try lia); done.
Qed.

Section ops.
Context (now now' : Z) (s : Store) (ks : keyspace) (HR : refines now s ks).

(** Reads of a whole value: GET and the [store_get_*] family. *)
Lemma read_sim {A B : Type} (proj : Value → option A) (aproj : AValue → option B) (g : A → B)
    (f : A → answer) (f' : B → answer) k :
  (∀ v, aproj (aval v) = g <$> proj v) → (∀ a, f a = f' (g a)) →
  ∃ s', outp f (lookup_typed s k proj now) = (s', out f' (typed ks k aproj None)) ∧ refines now s' ks.
Proof.
  intros Hp Hf. destruct (refines_typed proj aproj g now s ks k Hp HR) as (s' & r & -> & HR' & Hr).
  exists s'. split; [|done]. unfold outp, typed. simpl. f_equal.
  destruct r as [[]|a]; try done.
  - by destruct Hr as [-> _].
  - destruct Hr as (x & v & -> & Hv). by rewrite Hv.
  - destruct Hr as (e & _ & _ & -> & Ha & _). unfold absE. rewrite Ha. apply Hf.
Qed.

Lemma del_sim k : sim now now' s ks (OP_del k).
Proof.
  pose proof (refines_del now s ks k now HR) as Hd. destruct HR as [Hwf Hks].
  destruct (store_del_spec s k now Hwf) as (s' & Hdel & _). exists s'. simpl. rewrite Hdel in *.
  split; [|exact Hd]. repeat f_equal.
  pose proof (f_equal (.!! k) Hks) as Hk. simpl in Hk. rewrite live_lookup, abs_lookup in Hk.
  rewrite <- Hk. destruct (key_map s !! k) as [e|]; [|done]. simpl.
  change (entry_is_expired e now) with (expired (e_expires_at e) now).
  by destruct (expired (e_expires_at e) now).
Qed.

(** EXISTS, TYPE and the expiry: whatever is read off the looked-up entry. *)
Lemma lookup_sim {A} (f : option StoreEntry → A) (f' : option (Z * AValue) → A) k :
  (∀ o, f o = f' (absE <$> o)) →
  ∃ s', (let '(s', o) := lookup s k now in (s', f o)) = (s', f' (ks !! k)) ∧ refines now s' ks.
Proof.
  intros Hf. destruct (refines_lookup now s ks k HR) as (s' & o & -> & HR' & _ & Hk & _).
  exists s'. by rewrite Hf, Hk.
Qed.

Lemma exists_sim k : sim now now' s ks (OP_exists k).
Proof.
  destruct (lookup_sim (λ o, bool_decide (is_Some o)) (λ o, bool_decide (is_Some o)) k) as (s' & Hs & HR').
  { intros o. apply bool_decide_ext. by rewrite fmap_is_Some. }
  exists s'. split; [|done]. simpl. unfold store_exists. by rewrite Hs.
Qed.

Lemma type_sim k : sim now now' s ks (OP_type k).
Proof.
  destruct (lookup_sim (λ o, match o with Some e => type_of (e_v e) | None => STORE_TYPE_NONE end)
              (λ o, match o with Some (_, v) => atype v | None => STORE_TYPE_NONE end) k) as (s' & Hs & HR').
  { intros [e|]; [|done]. simpl. by destruct (e_v e). }
  exists s'. split; [|done]. simpl. unfold store_type. by rewrite Hs.
Qed.

Lemma expiry_sim k : sim now now' s ks (OP_expiry k).
Proof.
  destruct (lookup_sim (λ o, match o with None => -2
              | Some e => if e_expires_at e =? 0 then -1 else e_expires_at e end)%Z
              (λ o, match o with Some (x, _) => if x =? 0 then -1 else x | None => -2 end)%Z k) as (s' & Hs & HR').
  { by intros [e|]. }
  exists s'. split; [|done]. simpl. unfold store_get_expiry. by rewrite Hs.
Qed.

Lemma set_refines k v x :
  refines now (store_set s k v x now) (live now (<[k := (x, A_str v)]> ks)).
Proof.
  unfold store_set. destruct (refines_lookup now s ks k HR) as (s' & o & -> & [Hwf Hks] & Hm & _ & _).
  destruct o as [e|].
  - destruct (write_entry_spec s' k e (with_v_expiry (V_str v) x) Hwf Hm) as [Hwf' Hm']; [done..|].
    split; [done|]. unfold abs. rewrite Hm', fmap_insert, live_insert_any. fold (abs s'). by rewrite Hks.
  - destruct (create_write_spec s' k (V_str []) (with_v_expiry (V_str v) x)) as [Hwf' Hm']; [done..|].
    split; [done|]. unfold abs. rewrite Hm', fmap_insert, live_insert_any. fold (abs s'). by rewrite Hks.
Qed.

Lemma set_sim k v x : sim now now' s ks (OP_set k v x).
Proof. eexists. split; [done|]. simpl. by apply set_refines. Qed.

Lemma set_absent k v t :
  key_map s !! k = None → refines now (store_set s k v 0 t) (put ks k (A_str v)).
Proof.
  intros Hk. destruct HR as [Hwf Hks]. unfold store_set.
  pose proof (lookup_spec s k t Hwf) as Hl. rewrite Hk in Hl. rewrite Hl.
  destruct (create_write_spec s k (V_str []) (with_v_expiry (V_str v) 0)) as [Hwf' Hm']; [done..|].
  split; [done|]. unfold abs. rewrite Hm', fmap_insert, live_insert by done. fold (abs s). rewrite Hks.
  unfold put. pose proof (f_equal (.!! k) Hks) as Hkk. simpl in Hkk. rewrite live_lookup, abs_lookup, Hk in Hkk.
  by rewrite <- Hkk.
Qed.

End ops.

(** ** Operations on typed values *)

Section typed_ops.
Context (now now' : Z) (s : Store) (ks : keyspace) (HR : refines now s ks).

(** A typed lookup, on the three ways it can go. *)
Ltac typed_cases proj aproj g k :=
  let s1 := fresh "s1" in
  destruct (refines_typed proj aproj g now s ks k ltac:(by intros []) HR) as (s1 & r & Hl & HR1 & Hr);
  destruct r as [[]|a]; try done; rewrite Hl;
  [ destruct Hr as [Hks Hkm]; unfold typed; rewrite Hks
  | destruct Hr as (x0 & v0 & Hks & Hv); unfold typed; rewrite Hks, Hv; exists s1; done
  | destruct Hr as (e & Hkm & Hpe & Hks & Hav & Hx & Hwf); unfold typed; rewrite Hks; unfold absE; rewrite Hav;
    destruct (e_v e); try discriminate Hpe; injection Hpe as -> ].

Lemma incrby_sim k d : in_i64 d = true → sim now now' s ks (OP_incrby k d).
Proof.
  intros Hd. unfold sim, exec, spec, store_incrby. typed_cases as_str a_str (@id bytes) k.
  - change (parse_int64 #"0") with (Some 0%Z). simpl. rewrite incr_checked_spec by done. rewrite Z.add_0_l. simpl.
    rewrite Hd. eexists. split; [done|]. simpl. by apply set_absent.
  - simpl. destruct (parse_int64 a) as [n|] eqn:Hn; [|by eexists].
    apply parse_int64_range, in_i64_spec in Hn. rewrite incr_checked_spec by done. simpl.
    destruct (in_i64 (n + d)); [|by eexists]. eexists. split; [done|].
    by apply (refines_write now s1 ks k e (V_str _)).
Qed.

Lemma push_list_not_nil xs v b : push_list xs v b ≠ [].
Proof. destruct b; simpl; [done|]. by destruct xs. Qed.

Lemma push_list_length xs v b : length (push_list xs v b) = S (length xs).
Proof. destruct b; simpl; [done|]. rewrite length_app. simpl. lia. Qed.

Lemma push_sim k v b : sim now now' s ks (OP_push k v b).
Proof.
  unfold sim, exec, spec, store_list_push. typed_cases as_list a_list list_elems k.
  - destruct list_empty_spec as [Hle Hel].
    destruct (list_push_spec list_empty v b Hle) as (l' & Hp & Hwf' & He'). cbn -[list_push list_empty]. rewrite Hp.
    rewrite Hel in He'. simpl. eexists. split.
    { unfold outp, out. simpl. by rewrite (list_len_spec l' Hwf'), He', push_list_length. }
    simpl. rewrite <- He'. apply (refines_create now s1 ks k _ (V_list l')); [done|done|].
    split; [done|]. rewrite He'. apply push_list_not_nil.
  - destruct Hwf as [Hwf Hne]. destruct (list_push_spec a v b Hwf) as (l' & Hp & Hwf' & He').
    cbn -[list_push]. rewrite Hp. simpl. eexists. split.
    { unfold outp, out. simpl. by rewrite (list_len_spec l' Hwf'), He', push_list_length. }
    simpl. rewrite <- He'. apply (refines_write now s1 ks k e (V_list l')); [done|done|done|].
    split; [done|]. rewrite He'. apply push_list_not_nil.
Qed.

Lemma pop_sim k b : sim now now' s ks (OP_pop k b).
Proof.
  unfold sim, exec, spec, store_list_pop. typed_cases as_list a_list list_elems k; [by eexists|].
  destruct Hwf as [Hwf Hne]. pose proof (list_pop_spec a b Hwf) as Hp. simpl.
  destruct (pop_list (list_elems a) b) as [[x xs]|]; [|by rewrite Hp; eexists].
  destruct Hp as (l' & -> & Hwf' & He'). simpl. rewrite (list_len_spec l' Hwf'), He'.
  destruct (decide (xs = [])) as [->|Hxs]; simpl.
  - eexists. split; [done|]. by eapply refines_write_del.
  - destruct xs as [|y xs]; [done|]. eexists. split; [done|]. simpl. rewrite <- He'.
    apply (refines_write now s1 ks k e (V_list l')); [done|done|done|]. split; [done|]. by rewrite He'.
Qed.

Lemma hset_sim k f v : sim now now' s ks (OP_hset k f v).
Proof.
  assert (∀ m : gmap bytes bytes, <[f := v]> m ≠ ∅) as Hne by (intros m; apply insert_non_empty).
  unfold sim, exec, spec, store_hash_set. typed_cases as_hash a_hash hash_map k.
  - destruct hash_empty_spec as [Hle Hel]. pose proof (hash_put_spec hash_empty f v Hle) as Hp.
    cbn -[hash_put hash_empty]. destruct (hash_put hash_empty f v) as [h' c]. destruct Hp as (Hwf' & Hm & ->).
    rewrite Hel in *. eexists. split; [done|]. simpl. rewrite <- Hm.
    apply (refines_create now s1 ks k _ (V_hash h')); [done|done|]. split; [done|]. by rewrite Hm.
  - destruct Hwf as [Hwf _]. pose proof (hash_put_spec a f v Hwf) as Hp. cbn -[hash_put].
    destruct (hash_put a f v) as [h' c]. destruct Hp as (Hwf' & Hm & ->).
    eexists. split; [done|]. simpl. rewrite <- Hm.
    apply (refines_write now s1 ks k e (V_hash h')); [done|done|done|]. split; [done|]. by rewrite Hm.
Qed.

Lemma hget_sim k f : sim now now' s ks (OP_hget k f).
Proof.
  unfold sim, exec, spec, store_hash_get. typed_cases as_hash a_hash hash_map k; [by eexists|].
  destruct Hwf as [Hwf _]. rewrite (hash_get_spec a f Hwf). exists s1. split; [|done].
  simpl. unfold outp. simpl. by destruct (hash_map a !! f).
Qed.

Lemma hdel_sim k f : sim now now' s ks (OP_hdel k f).
Proof.
  unfold sim, exec, spec, store_hash_del. typed_cases as_hash a_hash hash_map k.
  - exists s1. rewrite decide_True by apply delete_empty. split; [done|]. simpl. by rewrite delete_id.
  - destruct Hwf as [Hwf _]. pose proof (hash_del_spec a f Hwf) as Hp. cbn -[hash_del].
    destruct (hash_del a f) as [h' c]. destruct Hp as (Hwf' & Hm & ->).
    rewrite (hash_len_spec h' Hwf'), <- Hm. eexists. split; [done|]. simpl.
    destruct (decide (hash_map h' = ∅)) as [He|He].
    + rewrite He, map_size_empty. by eapply refines_write_del.
    + destruct (Nat.eqb_spec (size (hash_map h')) 0) as [H0|_]; [by apply map_size_empty_iff in H0|].
      by apply (refines_write now s1 ks k e (V_hash h')).
Qed.

Lemma zadd_sim k sc m : is_nan sc = false → sim now now' s ks (OP_zadd k sc m).
Proof.
  intros Hn. assert (∀ l z', zset_add l sc m = z' → (zadd_list (z_entries l) sc m).1 ≠ []) as Hne.
  { intros l _ _. unfold zadd_list. set (x := mkZSetEntry m sc).
    assert (∀ l', zput l' x ≠ []) as Hz by (intros l' H%app_nil; by destruct H).
    destruct (zscore_of (z_entries l) m) eqn:Hs; [|apply Hz]. destruct (deq _ _); [|apply Hz].
    simpl. intros Hnil. by rewrite Hnil in Hs. }
  unfold sim, exec, spec, store_zset_add. typed_cases as_zset a_zset z_entries k.
  - destruct zset_empty_spec as [Hle _]. destruct (zset_add_list zset_empty sc m Hle Hn) as (z' & Hz & Hwf' & He).
    cbn -[zset_add zset_empty zadd_list]. rewrite Hz. specialize (Hne _ _ Hz).
    change (z_entries zset_empty) with (@nil ZSetEntry) in *. destruct (zadd_list [] sc m) as [l' added]. simpl in *.
    eexists. split; [done|]. simpl. rewrite <- He.
    apply (refines_create now s1 ks k _ (V_zset z')); [done|done|]. split; [done|]. by rewrite He.
  - destruct Hwf as [Hwf _]. destruct (zset_add_list a sc m Hwf Hn) as (z' & Hz & Hwf' & He).
    cbn -[zset_add zadd_list]. rewrite Hz. specialize (Hne _ _ Hz).
    destruct (zadd_list (z_entries a) sc m) as [l' added]. simpl in *.
    eexists. split; [done|]. simpl. rewrite <- He.
    apply (refines_write now s1 ks k e (V_zset z')); [done|done|done|]. split; [done|]. by rewrite He.
Qed.

Lemma zscore_sim k m : sim now now' s ks (OP_zscore k m).
Proof.
  unfold sim, exec, spec, store_zset_score. typed_cases as_zset a_zset z_entries k; [by eexists|].
  destruct Hwf as [Hwf _]. rewrite (zset_score_spec a m Hwf). exists s1. split; [|done].
  unfold zset_map. rewrite entry_map_find. simpl. unfold outp. simpl. by destruct (zscore_of (z_entries a) m).
Qed.

Lemma zrank_sim k m : sim now now' s ks (OP_zrank k m).
Proof.
  unfold sim, exec, spec, store_zset_rank. typed_cases as_zset a_zset z_entries k; [by eexists|].
  destruct Hwf as [Hwf _]. rewrite (zset_rank_list a m Hwf). exists s1. split; [|done].
  cbn -[list_find]. by destruct (list_find _ (z_entries a)) as [[]|].
Qed.

Lemma stream_of_entries st : stream_wf st → stream_of (st_entries st) = Some st.
Proof.
  intros Hwf. pose proof (sw_last _ Hwf) as Hl. rewrite fmap_last in Hl. unfold stream_of.
  destruct (last (st_entries st)) as [e|]; [|done]. simpl in Hl. injection Hl as ->.
  rewrite <- (sw_len _ Hwf). by destruct st.
Qed.

Lemma xadd_sim k sp fs : sim now now' s ks (OP_xadd k sp fs).
Proof.
  unfold sim, exec, spec, store_stream_add. typed_cases as_stream a_stream st_entries k.
  - change (stream_of []) with (@None Stream). cbn -[resolve_new_id].
    destruct (resolve_new_id None sp now') as [err|id] eqn:Hid; [by eexists|].
    apply resolve_new_id_ok in Hid as [Hid Hlt]; [|done]. eexists. split; [done|].
    apply (refines_create now s1 ks k _ (V_stream (stream_append stream_empty id fs))); [done|done|].
    by apply (stream_append_wf None).
  - rewrite (stream_of_entries a Hwf). cbn -[resolve_new_id].
    destruct (resolve_new_id (Some a) sp now') as [err|id] eqn:Hid; [by eexists|].
    apply resolve_new_id_ok in Hid as [Hid Hlt]; [|by intros ? [= <-]]. eexists. split; [done|].
    apply (refines_write now s1 ks k e (V_stream (stream_append a id fs))); [done|done|done|].
    apply (stream_append_wf (Some a)); [by intros ? [= <-]|done|done].
Qed.

End typed_ops.

(** ** Any operation, any sequence of operations *)

Lemma exec_sim now now' s ks o : refines now s ks → op_ok o → sim now now' s ks o.
Proof.
  intros HR Hok. destruct o.
  - by apply del_sim.
  - by apply exists_sim.
  - by apply type_sim.
  - by apply expiry_sim.
  - by apply set_sim.
  - destruct (read_sim now s ks HR as_str a_str id R_bytes R_bytes k) as (s' & Hs & HR'); [by intros []|done|].
    exists s'. simpl. unfold store_get. by rewrite Hs.
  - by apply incrby_sim.
  - by apply push_sim.
  - by apply pop_sim.
  - destruct (read_sim now s ks HR as_list a_list list_elems (λ l, R_value (A_list (list_elems l)))
      (λ xs, R_value (A_list xs)) k) as (s' & Hs & HR'); [by intros []|done|].
    exists s'. simpl. unfold store_get_list. by rewrite Hs.
  - by apply hset_sim.
  - by apply hget_sim.
  - by apply hdel_sim.
  - destruct (read_sim now s ks HR as_hash a_hash hash_map (λ h, R_value (A_hash (hash_map h)))
      (λ m, R_value (A_hash m)) k) as (s' & Hs & HR'); [by intros []|done|].
    exists s'. simpl. unfold store_get_hash. by rewrite Hs.
  - by apply zadd_sim.
  - by apply zscore_sim.
  - by apply zrank_sim.
  - destruct (read_sim now s ks HR as_zset a_zset z_entries (λ z, R_value (A_zset (z_entries z)))
      (λ l, R_value (A_zset l)) k) as (s' & Hs & HR'); [by intros []|done|].
    exists s'. simpl. unfold store_get_zset. by rewrite Hs.
  - by apply xadd_sim.
  - destruct (read_sim now s ks HR as_stream a_stream st_entries (λ x, R_value (A_stream (st_entries x)))
      (λ es, R_value (A_stream es)) k) as (s' & Hs & HR'); [by intros []|done|].
    exists s'. simpl. unfold store_get_stream. by rewrite Hs.
Qed.

(** An operation with its two readings of the clock. *)
Record call := mkCall { c_op : op; c_now : Z; c_now' : Z }.

Fixpoint run (s : Store) (cs : list call) : res (Store * list answer) :=
  match cs with
  | [] => Ret (s, [])
  | c :: cs' =>
      r ← exec s (c_op c) (c_now c) (c_now' c);
      r' ← run r.1 cs';
      Ret (r'.1, r.2 :: r'.2)
  end.

Fixpoint spec_run (ks : keyspace) (cs : list call) : keyspace * list answer :=
  match cs with
  | [] => (ks, [])
  | c :: cs' =>
      let '(ks, a) := spec (live (c_now c) ks) (c_op c) (c_now c) (c_now' c) in
      let '(ks, answers) := spec_run ks cs' in
      (ks, a :: answers)
  end.

(** Admissible calls at a clock that does not go back before [t]. *)
Fixpoint calls_ok (t : Z) (cs : list call) : Prop :=
  match cs with
  | [] => True
  | c :: cs' => (t ≤ c_now c)%Z ∧ op_ok (c_op c) ∧ calls_ok (c_now c) cs'
  end.

Definition end_time (t : Z) (cs : list call) : Z :=
  match last cs with Some c => c_now c | None => t end.

Lemma run_sim t s ks cs :
  refines t s ks → calls_ok t cs →
  ∃ s', run s cs = Ret (s', (spec_run ks cs).2) ∧ refines (end_time t cs) s' (spec_run ks cs).1.
Proof.
  revert t s ks. induction cs as [|c cs IH]; intros t s ks HR; simpl; [by exists s|].
  intros (Ht & Hok & Hcs). apply (refines_tick _ _ _ _ Ht) in HR.
  destruct (exec_sim (c_now c) (c_now' c) s _ (c_op c) HR Hok) as (s1 & -> & HR1). simpl.
  destruct (spec (live (c_now c) ks) (c_op c) (c_now c) (c_now' c)) as [ks1 a]. simpl in *.
  destruct (IH _ _ _ HR1 Hcs) as (s2 & -> & HR2). destruct (spec_run ks1 cs) as [ks2 answers]. simpl in *.
  exists s2. split; [done|]. unfold end_time in *. rewrite last_cons. by destruct (last cs).
Qed.

Lemma refines_create_store t : refines t store_create ∅.
Proof.
  destruct store_create_spec as [Hwf Hm]. split; [done|]. unfold abs, live. rewrite Hm, fmap_empty.
  apply map_filter_empty.
Qed.

End StoreRefine.
