(* ===== verification/StoreProps.v ===== *)
(** * What the keyspace promises

    The theorems on [store.c] as a whole: agreement with the specification on
    every sequence of operations, safety and invariant preservation whatever
    the clock does, and the functional promises of individual operations. *)

From S2P Require Import Prelude CLib Util Chain FieldHash DList Dbl ZSet Stream Store StoreInv StoreSpec StoreRefine.
Import Util FieldHash DList Dbl ZSet Stream Store StoreInv StoreSpec StoreRefine.

Module StoreProps.

(** C1: from an empty store, any sequence of calls of [store.h] on keys
    ([op]: every call but [store_count], which counts expired keys too, and
    [store_scan]) with scores that are not NaN and 64-bit increments, at
    non-decreasing times, runs without undefined behaviour and returns exactly
    the answers of the abstract keyspace (a finite map in which expired keys do
    not exist); the final store stands for the final keyspace. *)
Theorem store_trace_refines (t : Z) (cs : list call) :
  calls_ok t cs →
  ∃ s, run store_create cs = Ret (s, (spec_run ∅ cs).2) ∧
       store_wf s ∧ live (end_time t cs) (abs s) = (spec_run ∅ cs).1.
Proof.
  intros Hcs. destruct (run_sim t store_create ∅ cs (refines_create_store t) Hcs) as (s & Hr & Hwf & Hl). eauto.
Qed.

Definition demo_calls : list call :=
  [mkCall (OP_set #"k" #"41" 1000) 10 10; mkCall (OP_incrby #"k" 1) 20 20;
   mkCall (OP_push #"l" #"a" true) 30 30; mkCall (OP_get #"k") 1001 1001;
   mkCall (OP_pop #"l" false) 1002 1002; mkCall (OP_exists #"l") 1002 1002].

Lemma store_trace_refines_witness :
  calls_ok 0 demo_calls ∧
  (∃ s, run store_create demo_calls = Ret (s, (spec_run ∅ demo_calls).2) ∧
        store_wf s ∧ live (end_time 0 demo_calls) (abs s) = (spec_run ∅ demo_calls).1) ∧
  (spec_run ∅ demo_calls).2 =
    [R_unit; R_int 42; R_int 1; R_err STORE_NOT_FOUND; R_bytes #"a"; R_bool false].
Proof.
  assert (calls_ok 0 demo_calls) as Hok by (vm_compute; intuition congruence).
  split; [exact Hok|]. split; [exact (store_trace_refines 0 demo_calls Hok)|]. vm_compute. reflexivity.
Defined.

(** One call on a well-formed store, at any readings of the clock (which
    may even go backwards), has no undefined behaviour - no bad pointer, no
    out-of-bounds index, no signed overflow - and leaves a well-formed store. *)
Lemma store_exec_safe (s : Store) (o : op) (now now' : Z) :
  store_wf s → op_ok o → ∃ s' a, exec s o now now' = Ret (s', a) ∧ store_wf s'.
Proof.
  intros Hwf Hok. destruct (exec_sim now now' s _ o (conj Hwf eq_refl) Hok) as (s' & Hs & Hwf' & _). eauto.
Qed.

Lemma store_exec_safe_witness :
  store_wf store_create ∧ op_ok (OP_incrby #"n" INT64_MIN) ∧
  ∃ s' a, exec store_create (OP_incrby #"n" INT64_MIN) 5 4 = Ret (s', a) ∧ store_wf s'.
Proof.
  assert (store_wf store_create) as Hwf by apply store_create_spec.
  split; [exact Hwf|]. split; [reflexivity|].
  exact (store_exec_safe store_create (OP_incrby #"n" INT64_MIN) 5 4 Hwf eq_refl).
Defined.

(** Readings of a store that stands for [ks]. *)
Lemma get_typed now s ks k : refines now s ks → (store_get s k now).2 = typed ks k a_str None.
Proof.
  intros HR. unfold store_get, typed.
  destruct (refines_typed as_str a_str id now s ks k ltac:(by intros []) HR) as (s' & r & -> & _ & Hr). simpl.
  destruct r as [[]|a]; try done.
  - by destruct Hr as [-> _].
  - destruct Hr as (x & v & -> & Hv). by rewrite Hv.
  - destruct Hr as (e & _ & _ & -> & Ha & _). unfold absE. by rewrite Ha.
Qed.

Lemma expiry_typed now s ks k :
  refines now s ks →
  (store_get_expiry s k now).2 =
    (match ks !! k with Some (x, _) => if x =? 0 then -1 else x | None => -2 end)%Z.
Proof.
  intros HR. destruct (expiry_sim now now s ks HR k) as (s2 & Hs & _). simpl in Hs.
  destruct (store_get_expiry s k now). by injection Hs as _ ->.
Qed.

Lemma exec_incrby now now' s ks k d :
  refines now s ks → in_i64 d = true →
  ∃ s' r, store_incrby s k d now now' = Ret (s', r) ∧
    out R_int r = (spec ks (OP_incrby k d) now now').2 ∧ refines now s' (spec ks (OP_incrby k d) now now').1.
Proof.
  intros HR Hd. destruct (incrby_sim now now' s ks HR k d Hd) as (s' & Hs & HR'). cbn [exec] in Hs.
  destruct (store_incrby s k d now now') as [[s1 r]|]; [|done]. simpl in Hs. unfold outp in Hs. simpl in Hs.
  injection Hs as -> Hr. eauto.
Qed.

(** On a well-formed store INCRBY either reports an error and changes
    nothing, with an overflow error exactly when the sum leaves 64 bits, or it
    stores the decimal text of [old + delta] and keeps the expiry of the key (a
    new key has none); a later GET parses back to the sum. *)
Lemma store_incrby_keeps_ttl (s : Store) (k : bytes) (d now now' : Z) :
  store_wf s → in_i64 d = true →
  ∃ s' r, store_incrby s k d now now' = Ret (s', r) ∧
  let old := match (store_get s k now).2 with inr v => parse_int64 v | inl _ => Some 0%Z end in
  match r with
  | inl err => live now (abs s') = live now (abs s) ∧
      (err = STORE_OVERFLOW ↔ (store_get s k now).2 ≠ inl STORE_WRONG_TYPE ∧
         ∃ n, old = Some n ∧ in_i64 (n + d) = false)
  | inr n =>
      old = Some (n - d)%Z ∧
      live now (abs s') =
        <[k := (match live now (abs s) !! k with Some (x, _) => x | None => 0%Z end, A_str (fmt_d n))]>
          (live now (abs s)) ∧
      ∃ v, (store_get s' k now).2 = inr v ∧ parse_int64 v = Some n
  end.
Proof.
  intros Hwf Hd. set (ks := live now (abs s)). assert (refines now s ks) as HR by done.
  destruct (exec_incrby now now' s ks k d HR Hd) as (s' & r & Hs & Hr & HR'). exists s', r. split; [done|].
  rewrite (get_typed now s ks k HR). cbn [spec] in Hr, HR'.
  unfold typed in *. destruct (ks !! k) as [[x v]|] eqn:Hk.
  - destruct (a_str v) as [str|]; simpl in *.
    + destruct (parse_int64 str) as [n|]; simpl in *.
      * destruct (in_i64 (n + d)) eqn:Hin; simpl in *.
        { destruct r; simplify_eq/=. split_and!; [f_equal; lia| |].
          - destruct HR' as [_ ->]. unfold put. by rewrite Hk.
          - exists (fmt_d (n + d)). rewrite (get_typed now s' _ k HR'). unfold typed, put. rewrite Hk, lookup_insert_eq.
            simpl. split; [done|]. apply parse_int64_fmt_d. by apply in_i64_spec. }
        destruct r; simplify_eq/=. split; [apply HR'|]. split; [eauto|done].
      * destruct r; simplify_eq/=. split; [apply HR'|]. split; [done|]. by intros (_ & ? & ? & _).
    + destruct r; simplify_eq/=. split; [apply HR'|]. split; [done|]. by intros [[] _].
  - change (parse_int64 #"0") with (Some 0%Z) in *. cbv iota beta in Hr, HR'. rewrite Z.add_0_l, Hd in Hr, HR'. simpl in *.
    destruct r; simplify_eq/=. split_and!; [f_equal; lia| |].
    + destruct HR' as [_ ->]. unfold put. by rewrite Hk.
    + exists (fmt_d d). rewrite (get_typed now s' _ k HR'). unfold typed, put. rewrite lookup_insert_eq.
      simpl. split; [done|]. apply parse_int64_fmt_d. by apply in_i64_spec.
Qed.

Lemma store_incrby_keeps_ttl_witness :
  let s := store_set store_create #"k" #"41" 1000 5 in
  store_wf s ∧ in_i64 1 = true ∧
  ∃ s' r, store_incrby s #"k" 1 10 11 = Ret (s', r) ∧
  let old := match (store_get s #"k" 10).2 with inr v => parse_int64 v | inl _ => Some 0%Z end in
  match r with
  | inl err => live 10 (abs s') = live 10 (abs s) ∧
      (err = STORE_OVERFLOW ↔ (store_get s #"k" 10).2 ≠ inl STORE_WRONG_TYPE ∧
         ∃ n, old = Some n ∧ in_i64 (n + 1) = false)
  | inr n =>
      old = Some (n - 1)%Z ∧
      live 10 (abs s') =
        <[#"k" := (match live 10 (abs s) !! #"k" with Some (x, _) => x | None => 0%Z end, A_str (fmt_d n))]>
          (live 10 (abs s)) ∧
      ∃ v, (store_get s' #"k" 10).2 = inr v ∧ parse_int64 v = Some n
  end.
Proof.
  assert (store_wf (store_set store_create #"k" #"41" 1000 5)) as Hwf
    by apply (set_refines 5 store_create ∅ (refines_create_store 5)).
  split; [exact Hwf|]. split; [reflexivity|].
  exact (store_incrby_keeps_ttl (store_set store_create #"k" #"41" 1000 5) #"k" 1 10 11 Hwf eq_refl).
Defined.

Lemma refines_value now s ks k x v :
  refines now s ks → ks !! k = Some (x, v) → ∃ w, v = aval w ∧ value_wf w.
Proof.
  intros HR Hk. destruct (refines_lookup now s ks k HR) as (_ & o & _ & _ & _ & Ho & Hwf).
  rewrite Hk in Ho. destruct o as [e|]; [|done]. injection Ho as _ ->. exists (e_v e). split; [done|]. by apply Hwf.
Qed.

(** C20: an entry XADD accepts gets an ID of two 64-bit parts that is strictly
    greater than the ID of every entry already in the stream, is appended at
    the end with the given fields, and leaves the key's expiry alone; so the
    entries of a stream are always in strictly increasing ID order. *)
Theorem store_stream_add_increasing (s : Store) (k sp : bytes) (fs : list (bytes * bytes)) (now now' : Z)
    (s' : Store) (id : StreamId) :
  store_wf s → store_stream_add s k sp fs now now' = (s', inr id) →
  ∃ es x,
    match live now (abs s) !! k with
    | Some (x', A_stream es') => x' = x ∧ es' = es
    | Some _ => False
    | None => x = 0%Z ∧ es = []
    end ∧
    id_wf id ∧ Forall (λ e, id_lt (se_id e) id) es ∧
    live now (abs s') =
      <[k := (x, A_stream (es ++ [{| se_id := id; se_fields := fs; se_num_fields := length fs |}]))]>
        (live now (abs s)).
Proof.
  intros Hwf Hs. set (ks := live now (abs s)). assert (refines now s ks) as HR by done.
  destruct (xadd_sim now now' s ks HR k sp fs) as (s1 & Hx & HR1). cbn [exec] in Hx. rewrite Hs in Hx.
  unfold outp in Hx. simpl in Hx. injection Hx as <- Hans. cbn [spec] in Hans, HR1.
  unfold typed in *. destruct (ks !! k) as [[x v]|] eqn:Hk; cbn [a_stream] in *.
  - destruct (refines_value now s ks k x v HR Hk) as (w & -> & Hw).
    destruct w as [| | | |st]; simpl in Hw, Hans, HR1; try discriminate Hans.
    rewrite (stream_of_entries st Hw) in *.
    destruct (resolve_new_id (Some st) sp now') as [|id'] eqn:Hid; [discriminate Hans|].
    injection Hans as <-. apply resolve_new_id_ok in Hid as [Hid Hlt]; [|by intros ? [= <-]].
    exists (st_entries st), x. split; [done|]. split_and!; [apply Hid..|by apply stream_all_before|].
    destruct HR1 as [_ ->]. unfold put. by rewrite Hk.
  - change (stream_of []) with (@None Stream) in *.
    destruct (resolve_new_id None sp now') as [|id'] eqn:Hid; [discriminate Hans|].
    injection Hans as <-. apply resolve_new_id_ok in Hid as [Hid Hlt]; [|done].
    exists [], 0%Z. split; [done|]. split_and!; [apply Hid..|constructor|].
    destruct HR1 as [_ ->]. unfold put. by rewrite Hk.
Qed.

Lemma store_stream_add_increasing_witness :
  let s := (store_stream_add store_create #"s" #"5-3" [(#"f", #"v")] 1 1).1 in
  ∃ s', store_wf s ∧ store_stream_add s #"s" #"5-*" [(#"g", #"w")] 2 2 = (s', inr (mkId 5 4)) ∧
  ∃ es x,
    match live 2 (abs s) !! #"s" with
    | Some (x', A_stream es') => x' = x ∧ es' = es
    | Some _ => False
    | None => x = 0%Z ∧ es = []
    end ∧
    id_wf (mkId 5 4) ∧ Forall (λ e, id_lt (se_id e) (mkId 5 4)) es ∧
    live 2 (abs s') =
      <[#"s" := (x, A_stream (es ++ [{| se_id := mkId 5 4; se_fields := [(#"g", #"w")];
                                        se_num_fields := length [(#"g", #"w")] |}]))]>
        (live 2 (abs s)).
Proof.
  assert (store_wf (store_stream_add store_create #"s" #"5-3" [(#"f", #"v")] 1 1).1) as Hwf.
  { destruct (xadd_sim 1 1 store_create ∅ (refines_create_store 1) #"s" #"5-3" [(#"f", #"v")]) as (s1 & Hx & HR).
    assert (s1 = (store_stream_add store_create #"s" #"5-3" [(#"f", #"v")] 1 1).1) as <-
      by (unfold exec, outp in Hx; congruence). apply HR. }
  eexists. split; [exact Hwf|]. split; [vm_compute; reflexivity|].
  apply (store_stream_add_increasing (store_stream_add store_create #"s" #"5-3" [(#"f", #"v")] 1 1).1
           #"s" #"5-*" [(#"g", #"w")] 2 2 _ (mkId 5 4) Hwf). vm_compute. reflexivity.
Defined.

(** After any sequence of calls the bucket array has a power of two of
    buckets, at least one per key; DBSIZE's count is the number of keys
    physically present, hence at least the number of keys that exist. *)
Lemma store_count_bounds (t : Z) (cs : list call) :
  calls_ok t cs →
  ∃ s answers, run store_create cs = Ret (s, answers) ∧
    (∃ j, st_size s = 2 ^ j) ∧ length (buckets s) = st_size s ∧
    store_count s = size (abs s) ∧ store_count s ≤ st_size s ∧
    ∀ now, size (live now (abs s)) ≤ store_count s.
Proof.
  intros Hcs. destruct (run_sim t store_create ∅ cs (refines_create_store t) Hcs) as (s & Hr & Hwf & _).
  eexists _, _. split; [exact Hr|]. pose proof (store_count_spec s Hwf) as Hc.
  assert (store_count s = size (abs s)) as Hc' by (unfold abs; by rewrite map_size_fmap).
  destruct Hwf as [Hs _]. split_and!; [apply Hs..|done|apply Hs|]. intros now. rewrite Hc'.
  apply map_subseteq_size, map_filter_subseteq.
Qed.

Lemma store_count_bounds_witness :
  calls_ok 0 demo_calls ∧
  ∃ s answers, run store_create demo_calls = Ret (s, answers) ∧
    (∃ j, st_size s = 2 ^ j) ∧ length (buckets s) = st_size s ∧
    store_count s = size (abs s) ∧ store_count s ≤ st_size s ∧
    ∀ now, size (live now (abs s)) ≤ store_count s.
Proof.
  assert (calls_ok 0 demo_calls) as Hok by (vm_compute; intuition congruence).
  split; [exact Hok|]. exact (store_count_bounds 0 demo_calls Hok).
Defined.

Lemma foldl_concat {A B} (f : A → B → A) a (ls : list (list B)) :
  foldl (foldl f) a ls = foldl f a (concat ls).
Proof. revert a. induction ls as [|l ls IH]; intros a; simpl; [done|]. by rewrite foldl_app, IH. Qed.

Lemma foldl_if_filter {A B} (f : A → B → A) (p : B → bool) a l :
  foldl (λ a x, if negb (p x) then f a x else a) a l = foldl f a (filter (λ x, p x = false) l).
Proof.
  revert a. induction l as [|x l IH]; intros a; simpl; [done|]. rewrite filter_cons.
  destruct (p x) eqn:Hp; simpl; [by rewrite IH|]. by rewrite IH.
Qed.

(** [store_scan] calls the visitor exactly once on every key that exists at
    the time of the scan, with its expiry and value, and on nothing else. *)
Lemma store_scan_live (s : Store) (now : Z) :
  store_wf s →
  ∃ es : list StoreEntry,
    (∀ A (visit : A → StoreEntry → A) ctx, store_scan s now visit ctx = foldl visit ctx es) ∧
    ((λ e, (e_key e, absE e)) <$> es) ≡ₚ map_to_list (live now (abs s)).
Proof.
  intros [Hs _]. exists (filter (λ e, entry_is_expired e now = false) (concat (buckets s))). split.
  - intros A visit ctx. unfold store_scan. by rewrite foldl_concat, foldl_if_filter.
  - pose proof (tbl_nodup _ _ (sh_tbl _ Hs)) as Hnd. change (NoDup (e_key <$> concat (buckets s))) in Hnd.
    apply NoDup_Permutation.
    + apply (NoDup_fmap_1 fst). rewrite <- list_fmap_compose. by apply NoDup_fmap_filter.
    + apply NoDup_map_to_list.
    + intros [k [x v]]. rewrite elem_of_map_to_list, live_lookup, abs_lookup, list_elem_of_fmap. split.
      * intros (e & [= -> -> ->] & [He Hin]%list_elem_of_filter).
        assert (key_map s !! e_key e = Some e) as ->.
        { unfold key_map, tbl_map. apply (entry_map_lookup (KE := entry_keyed)); [done|]. by exists e. }
        simpl. change (entry_is_expired e now) with (expired (e_expires_at e) now) in He. by rewrite He.
      * destruct (key_map s !! k) as [e|] eqn:Hk; [|done]. simpl. unfold absE.
        destruct (expired (e_expires_at e) now) eqn:Hx; [done|]. intros [= <- <-].
        apply (entry_map_lookup (KE := entry_keyed)) in Hk as (e' & Hin & Hke & Hev); [|done].
        change (e' = e) in Hev. subst e'. change (e_key e = k) in Hke.
        exists e. split; [by rewrite <- Hke|]. by apply list_elem_of_filter.
Qed.

Lemma store_scan_live_witness :
  let s := store_set (store_set store_create #"a" #"1" 100 5) #"b" #"2" 0 5 in
  store_wf s ∧ store_scan s 101 (λ ks e, e_key e :: ks) [] = [ #"b" ] ∧
  ∃ es : list StoreEntry,
    (∀ A (visit : A → StoreEntry → A) ctx, store_scan s 101 visit ctx = foldl visit ctx es) ∧
    ((λ e, (e_key e, absE e)) <$> es) ≡ₚ map_to_list (live 101 (abs s)).
Proof.
  assert (store_wf (store_set (store_set store_create #"a" #"1" 100 5) #"b" #"2" 0 5)) as Hwf.
  { pose proof (set_refines 5 _ _ (refines_create_store 5) #"a" #"1" 100) as H1.
    pose proof (set_refines 5 _ _ H1 #"b" #"2" 0) as H2. apply H2. }
  split; [exact Hwf|]. split; [vm_compute; reflexivity|].
  exact (store_scan_live (store_set (store_set store_create #"a" #"1" 100 5) #"b" #"2" 0 5) 101 Hwf).
Defined.

(** Doubling the bucket array loses and duplicates nothing: every key is
    found exactly as before, and the array stays at least half empty. *)
Lemma store_grow_preserves (s : Store) :
  store_wf s →
  store_wf (store_grow s) ∧ store_count (store_grow s) = store_count s ∧
  2 * store_count (store_grow s) ≤ st_size (store_grow s) ∧
  ∀ k now, (lookup (store_grow s) k now).2 = (lookup s k now).2.
Proof.
  intros Hwf. destruct Hwf as [Hs Hv]. destruct (store_grow_spec s Hs) as (Hs' & Hm & Hsz).
  assert (store_wf (store_grow s)) as Hwf' by (split; [done|]; by rewrite Hm).
  split_and!; [apply Hwf'..|done|rewrite Hsz; unfold store_count; simpl; pose proof (sh_load _ Hs); lia|].
  intros k now. pose proof (lookup_spec s k now (conj Hs Hv)) as H1.
  pose proof (lookup_spec (store_grow s) k now Hwf') as H2. rewrite Hm in H2.
  destruct (key_map s !! k) as [e|]; [|by rewrite H1, H2].
  destruct (entry_is_expired e now); [|by rewrite H1, H2].
  destruct H1 as (? & -> & _), H2 as (? & -> & _). done.
Qed.

Lemma store_grow_preserves_witness :
  let s := store_set store_create #"a" #"1" 0 5 in
  store_wf s ∧
  store_wf (store_grow s) ∧ store_count (store_grow s) = store_count s ∧
  2 * store_count (store_grow s) ≤ st_size (store_grow s) ∧
  ∀ k now, (lookup (store_grow s) k now).2 = (lookup s k now).2.
Proof.
  assert (store_wf (store_set store_create #"a" #"1" 0 5)) as Hwf
    by apply (set_refines 5 store_create ∅ (refines_create_store 5)).
  split; [exact Hwf|]. exact (store_grow_preserves (store_set store_create #"a" #"1" 0 5) Hwf).
Defined.

(** Pushing a value on a key that holds a list or nothing, and popping at
    the same end, gives the value back and restores the keyspace; in particular
    a key that the push created is gone again. *)
Lemma store_push_pop (s : Store) (k v : bytes) (b : bool) (now t : Z) :
  store_wf s →
  match live now (abs s) !! k with Some (_, A_list _) | None => True | _ => False end →
  ∃ s1 n s2, store_list_push s k v b now = Ret (s1, inr n) ∧
    store_list_pop s1 k b now t = Ret (s2, inr v) ∧ live now (abs s2) = live now (abs s).
Proof.
  intros Hwf Hty. set (ks := live now (abs s)) in *. assert (refines now s ks) as HR by done.
  destruct (push_sim now t s ks HR k v b) as (s1 & Hs1 & HR1).
  destruct (pop_sim now t s1 _ HR1 k b) as (s2 & Hs2 & HR2). cbn [exec] in Hs1, Hs2.
  destruct (store_list_push s k v b now) as [[s1' r1]|]; [|done]. simpl in Hs1. injection Hs1 as -> Hr1.
  destruct (store_list_pop s1 k b now t) as [[s2' r2]|] eqn:Hpop; [|done]. simpl in Hs2. injection Hs2 as -> Hr2.
  assert (∃ xs, typed ks k a_list (Some []) = inr xs ∧
    ks = if decide (xs = []) then delete k ks else put ks k (A_list xs)) as (xs & Htyped & Hxs).
  { unfold typed, put. destruct (ks !! k) as [[x w]|] eqn:Hk.
    - destruct (refines_value now s ks k x w HR Hk) as ([] & -> & Hw); try done. destruct Hw as [_ Hne].
      eexists. split; [done|]. rewrite decide_False by done. by rewrite insert_id.
    - exists []. split; [done|]. simpl. by rewrite delete_id. }
  cbn [spec] in Hr1, HR1, Hr2, HR2. rewrite Htyped in *. simpl in Hr1, Hr2, HR2.
  assert (typed (put ks k (A_list (push_list xs v b))) k a_list None = inr (push_list xs v b)) as Ht
    by (unfold typed, put; by rewrite lookup_insert_eq).
  rewrite Ht in *.
  assert (pop_list (push_list xs v b) b = Some (v, xs)) as Hpp.
  { destruct b; simpl; [done|]. by rewrite last_snoc, removelast_last. }
  rewrite Hpp in *. simpl in *. destruct r1 as [|n]; [done|]. destruct r2 as [|v']; [done|].
  injection Hr2 as ->. exists s1, n, s2. split_and!; [done..|]. destruct HR2 as [_ ->].
  etransitivity; [|symmetry; exact Hxs].
  destruct (decide (xs = [])); unfold put; [by rewrite delete_insert_eq|].
  rewrite lookup_insert_eq, insert_insert_eq. by destruct (ks !! k) as [[]|].
Qed.

Lemma store_push_pop_witness :
  store_wf store_create ∧
  match live 5 (abs store_create) !! #"l" with Some (_, A_list _) | None => True | _ => False end ∧
  ∃ s1 n s2, store_list_push store_create #"l" #"x" true 5 = Ret (s1, inr n) ∧
    store_list_pop s1 #"l" true 5 6 = Ret (s2, inr #"x") ∧ live 5 (abs s2) = live 5 (abs store_create).
Proof.
  assert (store_wf store_create) as Hwf by apply store_create_spec.
  assert (match live 5 (abs store_create) !! #"l" with Some (_, A_list _) | None => True | _ => False end) as Hty
    by (vm_compute; exact I).
  split; [exact Hwf|]. split; [exact Hty|].
  exact (store_push_pop store_create #"l" #"x" true 5 6 Hwf Hty).
Defined.

End StoreProps.
