(* ===== verification/StoreTypes.v ===== *)
(** * Types of keys

    Every typed operation of [store.h] works on keys of its own type only: on a
    key of another type it answers WRONG_TYPE and changes nothing, on any other
    key it never does, and it leaves a key of its type or none.  No operation
    touches a key it is not called with. *)

From S2P Require Import Prelude CLib Util FieldHash DList Dbl ZSet Stream Store StoreInv StoreSpec StoreRefine.
Import Util FieldHash DList Dbl ZSet Stream Store StoreInv StoreSpec StoreRefine.

Module StoreTypes.

(** The key of an operation. *)
Definition op_key (o : op) : bytes :=
  match o with
  | OP_del k | OP_exists k | OP_type k | OP_expiry k | OP_set k _ _ | OP_get k | OP_incrby k _ | OP_push k _ _
  | OP_pop k _ | OP_get_list k | OP_hset k _ _ | OP_hget k _ | OP_hdel k _ | OP_get_hash k | OP_zadd k _ _
  | OP_zscore k _ | OP_zrank k _ | OP_get_zset k | OP_xadd k _ _ | OP_get_stream k => k
  end.

(** The type an operation works on; SET and the operations on keys work on
    any. *)
Definition op_type (o : op) : option StoreType :=
  match o with
  | OP_get _ | OP_incrby _ _ => Some STORE_TYPE_STRING
  | OP_push _ _ _ | OP_pop _ _ | OP_get_list _ => Some STORE_TYPE_LIST
  | OP_hset _ _ _ | OP_hget _ _ | OP_hdel _ _ | OP_get_hash _ => Some STORE_TYPE_HASH
  | OP_zadd _ _ _ | OP_zscore _ _ | OP_zrank _ _ | OP_get_zset _ => Some STORE_TYPE_ZSET
  | OP_xadd _ _ _ | OP_get_stream _ => Some STORE_TYPE_STREAM
  | _ => None
  end.

Definition type_at (ks : keyspace) (k : bytes) : StoreType :=
  match ks !! k with Some (_, v) => atype v | None => STORE_TYPE_NONE end.

Lemma store_type_at now s ks k : refines now s ks → (store_type s k now).2 = type_at ks k.
Proof.
  intros HR. destruct (type_sim now now s ks HR k) as (s' & Hs & _). cbn in Hs. destruct (store_type s k now) as [s1 t].
  by injection Hs as _ ->.
Qed.

(** What [typed] answers, by the type at the key. *)
Lemma typed_cases {A} ks k (proj : AValue → option A) init T :
  (∀ v, is_Some (proj v) ↔ atype v = T) →
  (type_at ks k ≠ STORE_TYPE_NONE ∧ type_at ks k ≠ T ∧ typed ks k proj init = inl STORE_WRONG_TYPE) ∨
  ((type_at ks k = STORE_TYPE_NONE ∨ type_at ks k = T) ∧
   (init = None ∧ typed ks k proj init = inl STORE_NOT_FOUND ∨ ∃ a, typed ks k proj init = inr a)).
Proof.
  intros Hp. unfold typed, type_at. destruct (ks !! k) as [[x v]|].
  - specialize (Hp v). destruct (proj v) as [a|].
    + right. split; [right; apply Hp; eauto|]. right. by exists a.
    + left. split; [by destruct v|]. split; [|done]. intros HT. apply Hp in HT as [? HT]. done.
  - right. split; [by left|]. destruct init; [right; eauto|by left].
Qed.

(** Changing one key. *)
Lemma put_frame ks k v k' : k' ≠ k → put ks k v !! k' = ks !! k'.
Proof. intros Hk. unfold put. by rewrite lookup_insert_ne. Qed.

Lemma delete_frame (ks : keyspace) k k' : k' ≠ k → delete k ks !! k' = ks !! k'.
Proof. intros Hk. by rewrite lookup_delete_ne. Qed.

Lemma put_type ks k v : type_at (put ks k v) k = atype v.
Proof. unfold type_at, put. by rewrite lookup_insert_eq. Qed.

Lemma delete_type ks k : type_at (delete k ks) k = STORE_TYPE_NONE.
Proof. unfold type_at. by rewrite lookup_delete_eq. Qed.

(** The errors an operation may answer with on a key of its type, or on none. *)
Definition op_errors (o : op) : list StoreStatus :=
  match o with
  | OP_get _ | OP_pop _ _ | OP_get_list _ | OP_hget _ _ | OP_get_hash _ | OP_zscore _ _ | OP_zrank _ _
  | OP_get_zset _ | OP_get_stream _ => [STORE_NOT_FOUND]
  | OP_incrby _ _ => [STORE_NOT_INTEGER; STORE_OVERFLOW]
  | OP_xadd _ _ _ => [STORE_INVALID_ID; STORE_ID_ZERO; STORE_ID_TOO_SMALL]
  | _ => []
  end.

(** An answer of the kind of the operation, or one of its errors. *)
Definition answer_fits (o : op) (a : answer) : Prop :=
  match o, a with
  | _, R_err e => e ∈ op_errors o
  | (OP_get _ | OP_pop _ _ | OP_hget _ _), R_bytes _ => True
  | (OP_incrby _ _ | OP_push _ _ _ | OP_hset _ _ _ | OP_hdel _ _ | OP_zadd _ _ _ | OP_zrank _ _), R_int _ => True
  | OP_get_list _, R_value (A_list _) => True
  | OP_get_hash _, R_value (A_hash _) => True
  | OP_get_zset _, R_value (A_zset _) => True
  | OP_get_stream _, R_value (A_stream _) => True
  | OP_zscore _ _, R_dbl _ => True
  | OP_xadd _ _ _, R_id _ => True
  | _, _ => False
  end.

(** An outcome that fits the operation and its type [T]. *)
Definition fits (o : op) (T : StoreType) (ks ks' : keyspace) (k : bytes) (a : answer) : Prop :=
  answer_fits o a ∧ (type_at ks' k = STORE_TYPE_NONE ∨ type_at ks' k = T) ∧ ∀ k', k' ≠ k → ks' !! k' = ks !! k'.

Lemma fits_same o T ks k a :
  answer_fits o a → type_at ks k = STORE_TYPE_NONE ∨ type_at ks k = T → fits o T ks ks k a.
Proof. done. Qed.

Lemma fits_put o T ks k v a : answer_fits o a → atype v = T → fits o T ks (put ks k v) k a.
Proof. intros Ha Hv. split; [done|]. split; [right; by rewrite put_type|]. intros k'. apply put_frame. Qed.

Lemma fits_delete o T ks k a : answer_fits o a → fits o T ks (delete k ks) k a.
Proof. intros Ha. split; [done|]. split; [left; apply delete_type|]. intros k'. apply delete_frame. Qed.

Lemma resolve_errors stream sp now e :
  resolve_new_id stream sp now = inl e → e ∈ [STORE_INVALID_ID; STORE_ID_ZERO; STORE_ID_TOO_SMALL].
Proof. unfold resolve_new_id. repeat case_match; intros [= <-]; apply list_elem_of_In; cbn; tauto. Qed.

Lemma answer_not_wrong o T a : op_type o = Some T → answer_fits o a → a ≠ R_err STORE_WRONG_TYPE.
Proof. intros HT Ha ->. destruct o; try discriminate HT; cbn in Ha; rewrite list_elem_of_In in Ha; cbn in Ha; intuition discriminate. Qed.

Lemma spec_typed ks o now now' T :
  op_type o = Some T →
  (type_at ks (op_key o) ≠ STORE_TYPE_NONE ∧ type_at ks (op_key o) ≠ T ∧ spec ks o now now' = (ks, R_err STORE_WRONG_TYPE)) ∨
  ((type_at ks (op_key o) = STORE_TYPE_NONE ∨ type_at ks (op_key o) = T) ∧
   fits o T ks (spec ks o now now').1 (op_key o) (spec ks o now now').2).
Proof.
  intros HT. destruct o; try discriminate HT; injection HT as <-; cbn [op_key spec];
    lazymatch goal with
    | |- context [typed ?ks ?k ?proj ?init] =>
        lazymatch goal with |- context [fits _ ?T _ _ _ _] => destruct (typed_cases ks k proj init T ltac:(intros []; split; intros Hp; first [discriminate Hp|by destruct Hp|by eexists]))
          as [(H1 & H2 & ->)|[H1 [[Hi ->]|[a ->]]]] end; [by left|right; split; [exact H1|]; try discriminate Hi..]
    end.
  all: repeat case_match; simplify_eq/=; first [by apply fits_same|by apply fits_put|by apply fits_delete|idtac].
  all: apply fits_same; [cbn|done]; first [by eapply resolve_errors|apply list_elem_of_In; cbn; tauto].
Qed.

(** C15: the keyspace is typed.  Each operation on a type (all but SET and the
    operations on keys of any type) that is called with a key of another type
    answers WRONG_TYPE and leaves the keyspace as it was.  Called with a key of
    its type, or with none, it answers with a value of the operation's kind or
    with one of the operation's own errors, never WRONG_TYPE, and the key then
    holds a value of its type or does not exist.  In no case does it change any
    other key, and it has no undefined behaviour. *)
Theorem store_typed (s : Store) (o : op) (now now' : Z) (T : StoreType) :
  store_wf s → op_ok o → op_type o = Some T →
  let t := (store_type s (op_key o) now).2 in
  ∃ s' a, exec s o now now' = Ret (s', a) ∧ store_wf s' ∧
    (if decide (t = STORE_TYPE_NONE ∨ t = T) then
       answer_fits o a ∧ a ≠ R_err STORE_WRONG_TYPE ∧
       ((store_type s' (op_key o) now).2 = STORE_TYPE_NONE ∨ (store_type s' (op_key o) now).2 = T)
     else a = R_err STORE_WRONG_TYPE ∧ live now (abs s') = live now (abs s)) ∧
    ∀ k, k ≠ op_key o → live now (abs s') !! k = live now (abs s) !! k.
Proof.
  intros Hs Ho HT t. set (ks := live now (abs s)). assert (refines now s ks) as HR by done.
  destruct (exec_sim now now' s ks o HR Ho) as (s' & Hexec & HR'). exists s', (spec ks o now now').2.
  split; [done|]. split; [apply HR'|]. unfold t. rewrite (store_type_at _ _ _ _ HR), (store_type_at _ _ _ _ HR').
  destruct HR' as [_ ->]. destruct (spec_typed ks o now now' T HT) as [(H1 & H2 & ->)|(H1 & H2 & H3 & H4)].
  - rewrite decide_False by tauto. done.
  - rewrite decide_True by done. pose proof (answer_not_wrong o T _ HT H2). done.
Qed.

Lemma store_typed_witness :
  let s := store_set store_create #"k" #"v" 0 5 in
  ∃ s' a, exec s (OP_push #"k" #"x" true) 5 5 = Ret (s', a) ∧ a = R_err STORE_WRONG_TYPE ∧
    live 5 (abs s') = live 5 (abs s).
Proof.
  pose proof (proj1 (set_refines 5 store_create ∅ (refines_create_store 5) #"k" #"v" 0)) as Hwf.
  destruct (store_typed (store_set store_create #"k" #"v" 0 5) (OP_push #"k" #"x" true) 5 5 STORE_TYPE_LIST Hwf I eq_refl)
    as (s' & a & Hexec & _ & Ht & _).
  exists s', a. split; [exact Hexec|]. rewrite decide_False in Ht by (vm_compute; intros [? | ?]; discriminate). exact Ht.
Defined.

End StoreTypes.
