(* ===== verification/StoreHeap.v ===== *)
(** * store.c on a heap

    The functions of [store.c] once more, now with every structure, array and
    string in memory: what [Store] does on values is done here on blocks, with
    the allocations, the pointers and the calls of [free] of the source.  A
    pointer is an address or NULL; following one that is NULL, that points to a
    freed block or to a block of another type is undefined behaviour, as is an
    array index out of range.  Arguments of type [const char *] belong to the
    caller and are passed as values. *)

From S2P Require Import Prelude CLib Util Mem Chain FieldHash Dbl ZSet Stream Store StoreSpec.
Import Mem Util FieldHash Dbl ZSet Stream Store StoreSpec.

Module StoreHeap.

Abbreviation ptr := (option loc).

(** ** Blocks: the structures of [store.h] *)

Inductive Block :=
| B_chars (s : bytes)
| B_list_node (value prev next : ptr)
| B_list (head tail : ptr) (len : nat)
| B_hash_field (field value next : ptr)
| B_hash (buckets : list ptr) (len : nat)
| B_index_node (member : ptr) (hash : Z) (score : dbl) (next : ptr)
| B_index (buckets : list ptr)
| B_entries (cells : list (option (ptr * dbl)))
| B_zset (entries : ptr) (len cap : nat) (index : ptr) (index_size : nat)
| B_stream_field (field value next : ptr)
| B_stream_entry (id : StreamId) (fields : ptr) (num_fields : nat) (next : ptr)
| B_stream (head tail : ptr) (len : nat) (last_id : StreamId)
| B_entry (key : ptr) (hash : Z) (type : StoreType) (expires_at : Z) (next v : ptr)
| B_buckets (buckets : list ptr)
| B_store (buckets : ptr) (size count : nat).

Abbreviation Heap := (gmap loc Block).
Abbreviation Mem := (Prog Block).

(** The fields of each structure. *)
Definition chars_of b := match b with B_chars s => Some s | _ => None end.
Definition list_node_of b := match b with B_list_node value prev next => Some (value, prev, next) | _ => None end.
Definition list_of b := match b with B_list head tail len => Some (head, tail, len) | _ => None end.
Definition hash_field_of b := match b with B_hash_field field value next => Some (field, value, next) | _ => None end.
Definition hash_of b := match b with B_hash bs len => Some (bs, len) | _ => None end.
Definition index_node_of b := match b with B_index_node m h sc next => Some (m, h, sc, next) | _ => None end.
Definition entries_of b := match b with B_entries cells => Some cells | _ => None end.
Definition zset_of b := match b with B_zset es len cap ix size => Some (es, len, cap, ix, size) | _ => None end.
Definition stream_field_of b := match b with B_stream_field field value next => Some (field, value, next) | _ => None end.
Definition stream_entry_of b := match b with B_stream_entry id fs n next => Some (id, fs, n, next) | _ => None end.
Definition stream_of b := match b with B_stream head tail len last => Some (head, tail, len, last) | _ => None end.
Definition entry_of b := match b with B_entry k h t x next v => Some (k, h, t, x, next, v) | _ => None end.
Definition store_of b := match b with B_store bs size count => Some (bs, size, count) | _ => None end.

(** An array of pointers, and the [next] member of a node. *)
Definition slots_of b :=
  match b with B_hash bs _ => Some bs | B_index bs => Some bs | B_buckets bs => Some bs | _ => None end.

Definition with_slots (bs : list ptr) b :=
  match b with
  | B_hash _ len => Some (B_hash bs len)
  | B_index _ => Some (B_index bs)
  | B_buckets _ => Some (B_buckets bs)
  | _ => None
  end.

Definition next_of b :=
  match b with
  | B_hash_field _ _ next | B_index_node _ _ _ next | B_stream_field _ _ next
  | B_stream_entry _ _ _ next | B_entry _ _ _ _ next _ => Some next
  | _ => None
  end.

Definition with_next (next : ptr) b :=
  match b with
  | B_hash_field f v _ => Some (B_hash_field f v next)
  | B_index_node m h sc _ => Some (B_index_node m h sc next)
  | B_stream_field f v _ => Some (B_stream_field f v next)
  | B_stream_entry id fs n _ => Some (B_stream_entry id fs n next)
  | B_entry k h t x _ v => Some (B_entry k h t x next v)
  | _ => None
  end.

(** ** Access *)

(** [xmalloc], [xcalloc] with the initial contents. *)
Definition xalloc (b : Block) : Mem ptr := l ← alloc b; mret (Some l).

Definition read {A} (p : ptr) (f : Block → option A) : Mem A := λ h,
  match p with
  | None => Undef UB_null_deref
  | Some l =>
      match h !! l with
      | None => Undef UB_dangling
      | Some b => match f b with Some a => Ret (a, h) | None => Undef UB_dangling end
      end
  end.

(** Writing members of a structure, or elements of an array. *)
Definition modify (p : ptr) (f : Block → option Block) : Mem () := λ h,
  match p with
  | None => Undef UB_null_deref
  | Some l =>
      match h !! l with
      | None => Undef UB_dangling
      | Some b => match f b with Some b' => Ret (tt, <[l := b']> h) | None => Undef UB_dangling end
      end
  end.

Definition xstrdup (s : bytes) : Mem ptr := xalloc (B_chars s).

(** Reading a string to its end, as [strcmp] does. *)
Definition str_at (p : ptr) : Mem bytes := read p chars_of.

Definition slot (a : ptr) (i : nat) : Mem ptr :=
  bs ← read a slots_of;
  match bs !! i with Some p => mret p | None => undefined UB_out_of_bounds end.

Definition set_slot (a : ptr) (i : nat) (p : ptr) : Mem () :=
  bs ← read a slots_of;
  if i <? length bs then modify a (with_slots (<[i := p]> bs)) else undefined UB_out_of_bounds.

(** A pointer to a pointer: an element of an array, or the [next] of a node. *)
Inductive link := L_slot (a : ptr) (i : nat) | L_next (node : ptr).

Definition load_link (lk : link) : Mem ptr :=
  match lk with L_slot a i => slot a i | L_next node => read node next_of end.

Definition store_link (lk : link) (p : ptr) : Mem () :=
  match lk with L_slot a i => set_slot a i p | L_next node => modify node (with_next p) end.

(** ** Loops *)

(** [for (i = 0; i < n; i++)], with [i] at [i]: [n] turns. *)
Fixpoint for_loop (n i : nat) (body : nat → Mem ()) : Mem () :=
  match n with
  | O => mret tt
  | S n' => body i;; for_loop n' (S i) body
  end.

(** [while (p) { ...; p = next; }]: [step] is the body, whose result is the next
    pointer.  A loop that goes on for longer than there are nodes never ends. *)
Fixpoint while_loop (fuel : nat) (step : ptr → Mem ptr) (p : ptr) : Mem () :=
  match p with
  | None => mret tt
  | Some _ =>
      match fuel with
      | O => undefined UB_uninitialised
      | S fuel' => next ← step p; while_loop fuel' step next
      end
  end.

Definition while_node (step : ptr → Mem ptr) (p : ptr) : Mem () := with_size (λ fuel, while_loop fuel step p).

(** [while ( *curr) { e = *curr; if (test(e)) return e; curr = &e->next; }]: the
    first node that passes the test, with the link that points to it. *)
Fixpoint walk_loop (fuel : nat) (test : ptr → Mem bool) (curr : link) : Mem (option (link * ptr)) :=
  e ← load_link curr;
  match e with
  | None => mret None
  | Some _ =>
      match fuel with
      | O => undefined UB_uninitialised
      | S fuel' =>
          found ← test e;
          if found : bool then mret (Some (curr, e)) else walk_loop fuel' test (L_next e)
      end
  end.

Definition walk (test : ptr → Mem bool) (curr : link) : Mem (option (link * ptr)) :=
  with_size (λ fuel, walk_loop fuel test curr).

(** Moving every node of the [n] chains of [old] to the front of its chain in
    [nb], as [store_grow] and [zindex_add] do; [to] is the slot of a node. *)
Definition move_chains (n : nat) (old nb : ptr) (to : ptr → Mem nat) : Mem () :=
  for_loop n 0 (λ i,
    e ← slot old i;
    while_node (λ e,
      next ← read e next_of;
      s ← to e;
      first ← slot nb s;
      modify e (with_next first);;
      set_slot nb s e;;
      mret next) e).

(** ** Giving values back *)

Definition free_list (list : ptr) : Mem () :=
  r ← read list list_of;
  let '(head, _, _) := r in
  while_node (λ node,
    r ← read node list_node_of;
    let '(value, _, next) := r in
    free_block value;; free_block node;; mret next) head;;
  free_block list.

Definition free_hash (hash : ptr) : Mem () :=
  for_loop HASH_NUM_BUCKETS 0 (λ i,
    f ← slot hash i;
    while_node (λ f,
      r ← read f hash_field_of;
      let '(field, value, next) := r in
      free_block field;; free_block value;; free_block f;; mret next) f);;
  free_block hash.

(** [zset->entries[i]] *)
Definition entry_at (entries : ptr) (i : nat) : Mem (ptr * dbl) :=
  cells ← read entries entries_of;
  match cells !! i with
  | None => undefined UB_out_of_bounds
  | Some None => undefined UB_uninitialised
  | Some (Some e) => mret e
  end.

Definition free_zset (zset : ptr) : Mem () :=
  r ← read zset zset_of;
  let '(entries, len, _, index, index_size) := r in
  for_loop index_size 0 (λ i,
    n ← slot index i;
    while_node (λ n, next ← read n next_of; free_block n;; mret next) n);;
  free_block index;;
  for_loop len 0 (λ i, e ← entry_at entries i; free_block e.1);;
  free_block entries;;
  free_block zset.

Definition free_stream (stream : ptr) : Mem () :=
  r ← read stream stream_of;
  let '(head, _, _, _) := r in
  while_node (λ entry,
    r ← read entry stream_entry_of;
    let '(_, fields, _, next) := r in
    while_node (λ field,
      r ← read field stream_field_of;
      let '(f, v, fn) := r in
      free_block f;; free_block v;; free_block field;; mret fn) fields;;
    free_block entry;; mret next) head;;
  free_block stream.

Definition set_v (v : ptr) b := match b with B_entry k h t x next _ => Some (B_entry k h t x next v) | _ => None end.
Definition set_type (t : StoreType) b :=
  match b with B_entry k h _ x next v => Some (B_entry k h t x next v) | _ => None end.
Definition set_expires (x : Z) b :=
  match b with B_entry k h t _ next v => Some (B_entry k h t x next v) | _ => None end.

Definition entry_clear_value (e : ptr) : Mem () :=
  r ← read e entry_of;
  let '(_, _, type, _, _, v) := r in
  (match type with
   | STORE_TYPE_STRING => free_block v
   | STORE_TYPE_LIST => free_list v
   | STORE_TYPE_HASH => free_hash v
   | STORE_TYPE_ZSET => free_zset v
   | STORE_TYPE_STREAM => free_stream v
   | STORE_TYPE_NONE => mret tt
   end);;
  modify e (set_v None).

Definition entry_free (e : ptr) : Mem () :=
  entry_clear_value e;;
  r ← read e entry_of;
  let '(key, _, _, _, _, _) := r in
  free_block key;;
  free_block e.

(** ** The keyspace *)

Definition store_create : Mem ptr :=
  s ← xalloc (B_store None 0 0);
  let size := STORE_INITIAL_BUCKETS in
  bs ← xalloc (B_buckets (replicate size None));
  modify s (λ b, match b with B_store _ _ count => Some (B_store bs size count) | _ => None end);;
  mret s.

(** [e->hash & (new_size - 1)] *)
Definition entry_slot (new_size : nat) (e : ptr) : Mem nat :=
  r ← read e entry_of;
  let '(_, hash, _, _, _, _) := r in mret (mask_slot new_size hash).

Definition store_grow (store : ptr) : Mem () :=
  r ← read store store_of;
  let '(bs, size, _) := r in
  let new_size := size * 2 in
  nb ← xalloc (B_buckets (replicate new_size None));
  move_chains size bs nb (entry_slot new_size);;
  free_block bs;;
  modify store (λ b, match b with B_store _ _ count => Some (B_store nb new_size count) | _ => None end).

(** [e->hash == h && strcmp(e->key, key) == 0] *)
Definition entry_matches (key : bytes) (h : Z) (e : ptr) : Mem bool :=
  r ← read e entry_of;
  let '(k, hash, _, _, _, _) := r in
  if (hash =? h)%Z then s ← str_at k; mret (streq s key) else mret false.

Definition is_expired (expires_at now : Z) : bool := negb (expires_at =? 0)%Z && (expires_at <? now)%Z.

(** [store->count--] *)
Definition count_down (store : ptr) : Mem () :=
  modify store (λ b, match b with B_store bs size count => Some (B_store bs size (count - 1)) | _ => None end).

(** [*curr = e->next; entry_free(e); store->count--;] *)
Definition unlink (store : ptr) (curr : link) (e : ptr) : Mem () :=
  next ← read e next_of;
  store_link curr next;;
  entry_free e;;
  count_down store.

(** The walk along the chain of a key. *)
Definition find_entry (store : ptr) (key : bytes) : Mem (option (link * ptr)) :=
  r ← read store store_of;
  let '(bs, size, _) := r in
  let h := hash64 key in
  walk (entry_matches key h) (L_slot bs (mask_slot size h)).

Definition lookup (store : ptr) (key : bytes) (now : Z) : Mem ptr :=
  r ← find_entry store key;
  match r with
  | None => mret None
  | Some (curr, e) =>
      r ← read e entry_of;
      let '(_, _, _, expires_at, _, _) := r in
      if negb (expires_at =? 0)%Z && is_expired expires_at now then unlink store curr e;; mret None
      else mret e
  end.

Definition create_entry (store : ptr) (key : bytes) (type : StoreType) : Mem ptr :=
  r ← read store store_of;
  let '(_, size, count) := r in
  (if size <=? count then store_grow store else mret tt);;
  e ← xalloc (B_entry None 0 STORE_TYPE_STRING 0 None None);
  k ← xstrdup key;
  modify e (λ b, match b with B_entry _ _ _ x next v => Some (B_entry k (hash64 key) type x next v) | _ => None end);;
  r ← read store store_of;
  let '(bs, size, _) := r in
  let s := mask_slot size (hash64 key) in
  first ← slot bs s;
  modify e (with_next first);;
  set_slot bs s e;;
  modify store (λ b, match b with B_store bs size count => Some (B_store bs size (S count)) | _ => None end);;
  mret e.

Definition lookup_typed (store : ptr) (key : bytes) (type : StoreType) (now : Z) : Mem (StoreStatus + ptr) :=
  e ← lookup store key now;
  match e with
  | None => mret (inl STORE_NOT_FOUND)
  | Some _ =>
      r ← read e entry_of;
      let '(_, _, t, _, _, _) := r in
      if decide (t = type) then mret (inr e) else mret (inl STORE_WRONG_TYPE)
  end.

Definition value_of (e : ptr) : Mem ptr :=
  r ← read e entry_of;
  let '(_, _, _, _, _, v) := r in mret v.

(** The value to work on where a key that is not there gets a new one, which
    [xcalloc] leaves as [zeroed]. *)
Definition value_or_new (store : ptr) (key : bytes) (type : StoreType) (zeroed : Block) (st : StoreStatus + ptr) : Mem ptr :=
  match st with
  | inr e => value_of e
  | inl _ =>
      e ← create_entry store key type;
      v ← xalloc zeroed;
      modify e (set_v v);;
      mret v
  end.

Definition store_del (store : ptr) (key : bytes) (now : Z) : Mem bool :=
  r ← find_entry store key;
  match r with
  | None => mret false
  | Some (curr, e) =>
      r ← read e entry_of;
      let '(_, _, _, expires_at, _, _) := r in
      unlink store curr e;;
      mret (negb (is_expired expires_at now))
  end.

Definition store_exists (store : ptr) (key : bytes) (now : Z) : Mem bool :=
  e ← lookup store key now; mret (bool_decide (is_Some e)).

Definition store_type (store : ptr) (key : bytes) (now : Z) : Mem StoreType :=
  e ← lookup store key now;
  match e with
  | None => mret STORE_TYPE_NONE
  | Some _ => r ← read e entry_of; let '(_, _, type, _, _, _) := r in mret type
  end.

Definition store_get_expiry (store : ptr) (key : bytes) (now : Z) : Mem Z :=
  e ← lookup store key now;
  match e with
  | None => mret (-2)%Z
  | Some _ => r ← read e entry_of; let '(_, _, _, x, _, _) := r in mret (if (x =? 0)%Z then -1 else x)%Z
  end.

Definition store_count (store : ptr) : Mem nat :=
  r ← read store store_of; let '(_, _, count) := r in mret count.

(** [for (e = first; e; e = e->next) if (!entry_is_expired(e, now)) visit(e, ctx);] *)
Fixpoint scan_chain {A} (fuel : nat) (now : Z) (visit : A → ptr → Mem A) (ctx : A) (e : ptr) : Mem A :=
  match e with
  | None => mret ctx
  | Some _ =>
      match fuel with
      | O => undefined UB_uninitialised
      | S fuel' =>
          r ← read e entry_of;
          let '(_, _, _, expires_at, _, _) := r in
          ctx ← (if negb (is_expired expires_at now) then visit ctx e else mret ctx);
          next ← read e next_of;
          scan_chain fuel' now visit ctx next
      end
  end.

Fixpoint scan_slots {A} (n i : nat) (bs : ptr) (now : Z) (visit : A → ptr → Mem A) (ctx : A) : Mem A :=
  match n with
  | O => mret ctx
  | S n' =>
      e ← slot bs i;
      ctx ← with_size (λ fuel, scan_chain fuel now visit ctx e);
      scan_slots n' (S i) bs now visit ctx
  end.

(** What [visit] keeps behind [ctx] is passed from call to call. *)
Definition store_scan {A} (store : ptr) (now : Z) (visit : A → ptr → Mem A) (ctx : A) : Mem A :=
  r ← read store store_of;
  let '(bs, size, _) := r in scan_slots size 0 bs now visit ctx.

(** ** Strings *)

Definition store_set (store : ptr) (key value : bytes) (expires_at_ms now : Z) : Mem () :=
  e ← lookup store key now;
  e ← match e with
      | Some _ => entry_clear_value e;; modify e (set_type STORE_TYPE_STRING);; mret e
      | None => create_entry store key STORE_TYPE_STRING
      end;
  v ← xstrdup value;
  modify e (set_v v);;
  modify e (set_expires expires_at_ms).

Definition store_get (store : ptr) (key : bytes) (now : Z) : Mem (StoreStatus + ptr) :=
  st ← lookup_typed store key STORE_TYPE_STRING now;
  match st with inl err => mret (inl err) | inr e => v ← value_of e; mret (inr v) end.

(** A part that does not touch the heap. *)
Definition lift {A} (r : res A) : Mem A := match r with Ret a => mret a | Undef u => undefined u end.

Definition store_incrby (store : ptr) (key : bytes) (delta now now' : Z) : Mem (StoreStatus + Z) :=
  st ← lookup_typed store key STORE_TYPE_STRING now;
  match st with
  | inl STORE_WRONG_TYPE => mret (inl STORE_WRONG_TYPE)
  | inl _ =>
      r ← lift (incr_checked 0 delta);
      match r with
      | None => mret (inl STORE_OVERFLOW)
      | Some val => store_set store key (fmt_d val) 0 now';; mret (inr val)
      end
  | inr e =>
      v ← value_of e;
      s ← str_at v;
      match parse_int64 s with
      | None => mret (inl STORE_NOT_INTEGER)
      | Some val =>
          r ← lift (incr_checked val delta);
          match r with
          | None => mret (inl STORE_OVERFLOW)
          | Some val =>
              free_block v;;
              v ← xstrdup (fmt_d val);
              modify e (set_v v);;
              mret (inr val)
          end
      end
  end.

(** ** Lists *)

Definition set_node_prev (p : ptr) b := match b with B_list_node v _ next => Some (B_list_node v p next) | _ => None end.
Definition set_node_next (p : ptr) b := match b with B_list_node v prev _ => Some (B_list_node v prev p) | _ => None end.
Definition set_node_value (p : ptr) b := match b with B_list_node _ prev next => Some (B_list_node p prev next) | _ => None end.
Definition set_head (p : ptr) b := match b with B_list _ tail len => Some (B_list p tail len) | _ => None end.
Definition set_tail (p : ptr) b := match b with B_list head _ len => Some (B_list head p len) | _ => None end.
Definition set_len (f : nat → nat) b := match b with B_list head tail len => Some (B_list head tail (f len)) | _ => None end.

(** The part of [store_list_push] that works on the list. *)
Definition list_push (list : ptr) (value : bytes) (at_head : bool) : Mem nat :=
  node ← xalloc (B_list_node None None None);
  v ← xstrdup value;
  modify node (set_node_value v);;
  r ← read list list_of;
  let '(head, tail, _) := r in
  (if at_head then
     modify node (set_node_next head);;
     (match head with
      | Some _ => modify head (set_node_prev node)
      | None => modify list (set_tail node)
      end);;
     modify list (set_head node)
   else
     modify node (set_node_prev tail);;
     (match tail with
      | Some _ => modify tail (set_node_next node)
      | None => modify list (set_head node)
      end);;
     modify list (set_tail node));;
  modify list (set_len S);;
  r ← read list list_of;
  let '(_, _, len) := r in mret len.

Definition store_list_push (store : ptr) (key value : bytes) (at_head : bool) (now : Z) : Mem (StoreStatus + nat) :=
  st ← lookup_typed store key STORE_TYPE_LIST now;
  match st with
  | inl STORE_WRONG_TYPE => mret (inl STORE_WRONG_TYPE)
  | _ =>
      list ← value_or_new store key STORE_TYPE_LIST (B_list None None 0) st;
      len ← list_push list value at_head;
      mret (inr len)
  end.

(** The part of [store_list_pop] that works on the list: the string of the node
    that was taken off, or [None] where there is no node. *)
Definition list_pop (list : ptr) (at_head : bool) : Mem (option ptr) :=
  r ← read list list_of;
  let '(head, tail, _) := r in
  let node := if at_head then head else tail in
  match node with
  | None => mret None
  | Some _ =>
      r ← read node list_node_of;
      let '(value, prev, next) := r in
      (if at_head then
         modify list (set_head next);;
         match next with
         | Some _ => modify next (set_node_prev None)
         | None => modify list (set_tail None)
         end
       else
         modify list (set_tail prev);;
         match prev with
         | Some _ => modify prev (set_node_next None)
         | None => modify list (set_head None)
         end);;
      modify list (set_len pred);;
      free_block node;;
      mret (Some value)
  end.

(** The string is handed to the caller, who frees it. *)
Definition store_list_pop (store : ptr) (key : bytes) (at_head : bool) (now now' : Z) : Mem (StoreStatus + ptr) :=
  st ← lookup_typed store key STORE_TYPE_LIST now;
  match st with
  | inl err => mret (inl err)
  | inr e =>
      list ← value_of e;
      r ← list_pop list at_head;
      match r with
      | None => mret (inl STORE_NOT_FOUND)
      | Some value =>
          r ← read list list_of;
          let '(_, _, len) := r in
          (if len =? 0 then store_del store key now';; mret tt else mret tt);;
          mret (inr value)
      end
  end.

(** [store_get_list], [store_get_hash], [store_get_zset] and [store_get_stream] *)
Definition store_get_value (store : ptr) (key : bytes) (type : StoreType) (now : Z) : Mem (StoreStatus + ptr) :=
  st ← lookup_typed store key type now;
  match st with inl err => mret (inl err) | inr e => v ← value_of e; mret (inr v) end.

(** ** Hashes *)

(** [strcmp(hf->field, field) == 0] *)
Definition field_matches (field : bytes) (f : ptr) : Mem bool :=
  r ← read f hash_field_of;
  let '(p, _, _) := r in s ← str_at p; mret (streq s field).

Definition set_value (p : ptr) b := match b with B_hash_field f _ next => Some (B_hash_field f p next) | _ => None end.
Definition set_hash_len (f : nat → nat) b := match b with B_hash bs len => Some (B_hash bs (f len)) | _ => None end.

Definition hash_put (hash : ptr) (field value : bytes) : Mem Z :=
  let s := hash_key field HASH_NUM_BUCKETS in
  r ← walk (field_matches field) (L_slot hash s);
  match r with
  | Some (_, hf) =>
      r ← read hf hash_field_of;
      let '(_, old, _) := r in
      free_block old;;
      v ← xstrdup value;
      modify hf (set_value v);;
      mret 0%Z
  | None =>
      hf ← xalloc (B_hash_field None None None);
      f ← xstrdup field;
      v ← xstrdup value;
      modify hf (λ b, match b with B_hash_field _ _ next => Some (B_hash_field f v next) | _ => None end);;
      first ← slot hash s;
      modify hf (with_next first);;
      set_slot hash s hf;;
      modify hash (set_hash_len S);;
      mret 1%Z
  end.

Definition store_hash_set (store : ptr) (key field value : bytes) (now : Z) : Mem (StoreStatus + Z) :=
  st ← lookup_typed store key STORE_TYPE_HASH now;
  match st with
  | inl STORE_WRONG_TYPE => mret (inl STORE_WRONG_TYPE)
  | _ =>
      hash ← value_or_new store key STORE_TYPE_HASH (B_hash (replicate HASH_NUM_BUCKETS None) 0) st;
      created ← hash_put hash field value;
      mret (inr created)
  end.

Definition store_hash_get (store : ptr) (key field : bytes) (now : Z) : Mem (StoreStatus + ptr) :=
  st ← lookup_typed store key STORE_TYPE_HASH now;
  match st with
  | inl err => mret (inl err)
  | inr e =>
      hash ← value_of e;
      r ← walk (field_matches field) (L_slot hash (hash_key field HASH_NUM_BUCKETS));
      match r with
      | None => mret (inl STORE_NOT_FOUND)
      | Some (_, hf) => r ← read hf hash_field_of; let '(_, value, _) := r in mret (inr value)
      end
  end.

Definition hash_remove (hash : ptr) (field : bytes) : Mem Z :=
  r ← walk (field_matches field) (L_slot hash (hash_key field HASH_NUM_BUCKETS));
  match r with
  | None => mret 0%Z
  | Some (curr, hf) =>
      r ← read hf hash_field_of;
      let '(f, v, next) := r in
      store_link curr next;;
      free_block f;; free_block v;; free_block hf;;
      modify hash (set_hash_len pred);;
      mret 1%Z
  end.

Definition store_hash_del (store : ptr) (key field : bytes) (now now' : Z) : Mem (StoreStatus + Z) :=
  st ← lookup_typed store key STORE_TYPE_HASH now;
  match st with
  | inl STORE_NOT_FOUND => mret (inr 0%Z)
  | inl err => mret (inl err)
  | inr e =>
      hash ← value_of e;
      deleted ← hash_remove hash field;
      r ← read hash hash_of;
      let '(_, len) := r in
      (if len =? 0 then store_del store key now';; mret tt else mret tt);;
      mret (inr deleted)
  end.

(** ** Sorted sets *)

(** [n->hash == h && strcmp(n->member, member) == 0] *)
Definition node_matches (member : bytes) (h : Z) (n : ptr) : Mem bool :=
  r ← read n index_node_of;
  let '(m, hash, _, _) := r in
  if (hash =? h)%Z then s ← str_at m; mret (streq s member) else mret false.

Definition zindex_find (zset : ptr) (member : bytes) (h : Z) : Mem ptr :=
  r ← read zset zset_of;
  let '(_, _, _, index, index_size) := r in
  if index_size =? 0 then mret None
  else
    r ← walk (node_matches member h) (L_slot index (mask_slot index_size h));
    mret (match r with Some (_, n) => n | None => None end).

(** [n->hash & (size - 1)] *)
Definition node_slot (size : nat) (n : ptr) : Mem nat :=
  r ← read n index_node_of;
  let '(_, hash, _, _) := r in mret (mask_slot size hash).

Definition zindex_grow (zset : ptr) : Mem () :=
  r ← read zset zset_of;
  let '(_, _, _, index, index_size) := r in
  let size := if index_size =? 0 then 8 else index_size * 2 in
  nb ← xalloc (B_index (replicate size None));
  move_chains index_size index nb (node_slot size);;
  free_block index;;
  modify zset (λ b, match b with B_zset es len cap _ _ => Some (B_zset es len cap nb size) | _ => None end).

Definition zindex_add (zset : ptr) (member : ptr) (h : Z) (score : dbl) : Mem () :=
  r ← read zset zset_of;
  let '(_, len, _, _, index_size) := r in
  (if index_size <=? len then zindex_grow zset else mret tt);;
  r ← read zset zset_of;
  let '(_, _, _, index, index_size) := r in
  let s := mask_slot index_size h in
  first ← slot index s;
  n ← xalloc (B_index_node member h score first);
  set_slot index s n.

(** [zset_cmp(score, member, &zset->entries[i])] *)
Definition zset_cmp_at (entries : ptr) (i : nat) (score : dbl) (member : bytes) : Mem Z :=
  e ← entry_at entries i;
  let '(m, sc) := e in
  if dlt score sc then mret (-1)%Z
  else if dlt sc score then mret 1%Z
  else s ← str_at m; mret (strcmp member s).

(** The binary search; [len] turns are enough. *)
Fixpoint lower_bound_loop (fuel : nat) (entries : ptr) (score : dbl) (member : bytes) (lo hi : nat) : Mem nat :=
  match fuel with
  | O => mret lo
  | S f =>
      if lo <? hi then
        let mid := lo + (hi - lo) / 2 in
        c ← zset_cmp_at entries mid score member;
        if (0 <? c)%Z then lower_bound_loop f entries score member (mid + 1) hi
        else lower_bound_loop f entries score member lo mid
      else mret lo
  end.

Definition zset_lower_bound (zset : ptr) (score : dbl) (member : bytes) : Mem nat :=
  r ← read zset zset_of;
  let '(entries, len, _, _, _) := r in
  lower_bound_loop len entries score member 0 len.

(** [memmove(&cells[dst], &cells[src], n * sizeof(cell))] *)
Definition memmove {A} (dst src n : nat) (cells : list A) : option (list A) :=
  if (src + n <=? length cells) && (dst + n <=? length cells)
  then Some (take dst cells ++ take n (drop src cells) ++ drop (dst + n) cells) else None.

Definition move_entries (entries : ptr) (dst src n : nat) : Mem () :=
  cells ← read entries entries_of;
  match memmove dst src n cells with
  | Some cells => modify entries (λ _, Some (B_entries cells))
  | None => undefined UB_out_of_bounds
  end.

Definition set_entry (entries : ptr) (i : nat) (e : ptr * dbl) : Mem () :=
  cells ← read entries entries_of;
  if i <? length cells then modify entries (λ _, Some (B_entries (<[i := Some e]> cells))) else undefined UB_out_of_bounds.

(** [xrealloc]: a larger array with the old contents; NULL is an empty one. *)
Definition grow_entries (entries : ptr) (cap : nat) : Mem ptr :=
  cells ← match entries with None => mret [] | Some _ => read entries entries_of end;
  new ← xalloc (B_entries (take cap cells ++ replicate (cap - length cells) None));
  free_block entries;;
  mret new.

Definition set_zset_len (f : nat → nat) b :=
  match b with B_zset es len cap ix size => Some (B_zset es (f len) cap ix size) | _ => None end.

Definition zset_insert (zset : ptr) (score : dbl) (member : ptr) : Mem () :=
  r ← read zset zset_of;
  let '(entries, len, cap, _, _) := r in
  (if len =? cap then
     let cap := if cap =? 0 then 8 else cap * 2 in
     entries ← grow_entries entries cap;
     modify zset (λ b, match b with B_zset _ len _ ix size => Some (B_zset entries len cap ix size) | _ => None end)
   else mret tt);;
  m ← str_at member;
  lo ← zset_lower_bound zset score m;
  r ← read zset zset_of;
  let '(entries, len, _, _, _) := r in
  move_entries entries (lo + 1) lo (len - lo);;
  set_entry entries lo (member, score);;
  modify zset (set_zset_len S).

Definition zset_add (zset : ptr) (score : dbl) (member : bytes) : Mem Z :=
  let h := hash64 member in
  node ← zindex_find zset member h;
  match node with
  | Some _ =>
      r ← read node index_node_of;
      let '(_, _, old, _) := r in
      if deq old score then mret 0%Z
      else
        i ← zset_lower_bound zset old member;
        r ← read zset zset_of;
        let '(entries, len, _, _, _) := r in
        e ← entry_at entries i;
        move_entries entries i (i + 1) (len - i - 1);;
        modify zset (set_zset_len pred);;
        zset_insert zset score e.1;;
        modify node (λ b, match b with B_index_node m h _ next => Some (B_index_node m h score next) | _ => None end);;
        mret 0%Z
  | None =>
      owned ← xstrdup member;
      zindex_add zset owned h score;;
      zset_insert zset score owned;;
      mret 1%Z
  end.

Definition store_zset_add (store : ptr) (key : bytes) (score : dbl) (member : bytes) (now : Z) : Mem (StoreStatus + Z) :=
  st ← lookup_typed store key STORE_TYPE_ZSET now;
  match st with
  | inl STORE_WRONG_TYPE => mret (inl STORE_WRONG_TYPE)
  | _ =>
      zset ← value_or_new store key STORE_TYPE_ZSET (B_zset None 0 0 None 0) st;
      added ← zset_add zset score member;
      mret (inr added)
  end.

Definition score_of (n : ptr) : Mem dbl := r ← read n index_node_of; let '(_, _, sc, _) := r in mret sc.

Definition store_zset_score (store : ptr) (key member : bytes) (now : Z) : Mem (StoreStatus + dbl) :=
  st ← lookup_typed store key STORE_TYPE_ZSET now;
  match st with
  | inl err => mret (inl err)
  | inr e =>
      zset ← value_of e;
      n ← zindex_find zset member (hash64 member);
      match n with
      | None => mret (inl STORE_NOT_FOUND)
      | Some _ => sc ← score_of n; mret (inr sc)
      end
  end.

Definition store_zset_rank (store : ptr) (key member : bytes) (now : Z) : Mem (StoreStatus + nat) :=
  st ← lookup_typed store key STORE_TYPE_ZSET now;
  match st with
  | inl err => mret (inl err)
  | inr e =>
      zset ← value_of e;
      n ← zindex_find zset member (hash64 member);
      match n with
      | None => mret (inl STORE_NOT_FOUND)
      | Some _ => sc ← score_of n; r ← zset_lower_bound zset sc member; mret (inr r)
      end
  end.

(** ** Streams *)

(** The loop of [store_stream_add] that appends the fields at [*tail], which is
    [entry->fields] first and the [next] of the last field after that. *)
Definition set_fields (p : ptr) b :=
  match b with B_stream_entry id _ n next => Some (B_stream_entry id p n next) | _ => None end.

Fixpoint append_fields (fields : list (bytes * bytes)) (tail : ptr → Mem ()) : Mem () :=
  match fields with
  | [] => mret tt
  | (field, value) :: rest =>
      sf ← xalloc (B_stream_field None None None);
      f ← xstrdup field;
      v ← xstrdup value;
      modify sf (λ b, match b with B_stream_field _ _ next => Some (B_stream_field f v next) | _ => None end);;
      tail sf;;
      append_fields rest (λ p, modify sf (with_next p))
  end.

(** What ID resolution reads of a stream: its last ID and its length. *)
Definition stream_view (stream : ptr) : Mem (option Stream) :=
  match stream with
  | None => mret None
  | Some _ =>
      r ← read stream stream_of;
      let '(_, _, len, last) := r in
      mret (Some {| st_entries := []; st_len := len; st_last_id := last |})
  end.

Definition stream_append (stream : ptr) (id : StreamId) (fields : list (bytes * bytes)) : Mem () :=
  entry ← xalloc (B_stream_entry (mkId 0 0) None 0 None);
  modify entry (λ b, match b with B_stream_entry _ fs _ next => Some (B_stream_entry id fs (length fields) next) | _ => None end);;
  append_fields fields (λ p, modify entry (set_fields p));;
  r ← read stream stream_of;
  let '(_, tail, _, _) := r in
  (match tail with
   | Some _ => modify tail (with_next entry)
   | None => modify stream (λ b, match b with B_stream _ tl n last => Some (B_stream entry tl n last) | _ => None end)
   end);;
  modify stream (λ b, match b with B_stream hd _ n _ => Some (B_stream hd entry (S n) id) | _ => None end).

Definition store_stream_add (store : ptr) (key id_spec : bytes) (fields : list (bytes * bytes)) (now now' : Z)
    : Mem (StoreStatus + StreamId) :=
  st ← lookup_typed store key STORE_TYPE_STREAM now;
  match st with
  | inl STORE_WRONG_TYPE => mret (inl STORE_WRONG_TYPE)
  | _ =>
      stream ← match st with inr e => value_of e | inl _ => mret None end;
      view ← stream_view stream;
      match resolve_new_id view id_spec now' with
      | inl idst => mret (inl idst)
      | inr id =>
          stream ← value_or_new store key STORE_TYPE_STREAM (B_stream None None 0 (mkId 0 0)) st;
          stream_append stream id fields;;
          mret (inr id)
      end
  end.

(** ** The end *)

Definition store_destroy (store : ptr) : Mem () :=
  match store with
  | None => mret tt
  | Some _ =>
      r ← read store store_of;
      let '(bs, size, _) := r in
      for_loop size 0 (λ i,
        e ← slot bs i;
        while_node (λ e, next ← read e next_of; entry_free e;; mret next) e);;
      free_block bs;;
      free_block store
  end.

(** ** Reading what is there *)

(** The nodes from [p] on, with what [step] reads of each. *)
Fixpoint collect_loop {X} (fuel : nat) (step : ptr → Mem (X * ptr)) (p : ptr) : Mem (list X) :=
  match p with
  | None => mret []
  | Some _ =>
      match fuel with
      | O => undefined UB_uninitialised
      | S fuel' =>
          r ← step p;
          rest ← collect_loop fuel' step r.2;
          mret (r.1 :: rest)
      end
  end.

Definition collect {X} (step : ptr → Mem (X * ptr)) (p : ptr) : Mem (list X) :=
  with_size (λ fuel, collect_loop fuel step p).

(** [n] results in order. *)
Fixpoint gather {X} (n i : nat) (f : nat → Mem X) : Mem (list X) :=
  match n with
  | O => mret []
  | S n' => x ← f i; rest ← gather n' (S i) f; mret (x :: rest)
  end.

Definition load_list (l : ptr) : Mem (list bytes) :=
  r ← read l list_of;
  let '(head, _, _) := r in
  collect (λ node,
    r ← read node list_node_of;
    let '(value, _, next) := r in s ← str_at value; mret (s, next)) head.

Definition load_hash (hash : ptr) : Mem (list (bytes * bytes)) :=
  cs ← gather HASH_NUM_BUCKETS 0 (λ i,
    f ← slot hash i;
    collect (λ f,
      r ← read f hash_field_of;
      let '(field, value, next) := r in s ← str_at field; v ← str_at value; mret ((s, v), next)) f);
  mret (concat cs).

Definition load_zset (zset : ptr) : Mem (list ZSetEntry) :=
  r ← read zset zset_of;
  let '(entries, len, _, _, _) := r in
  gather len 0 (λ i, e ← entry_at entries i; m ← str_at e.1; mret {| ze_member := m; ze_score := e.2 |}).

Definition load_stream (stream : ptr) : Mem (list StreamEntry) :=
  r ← read stream stream_of;
  let '(head, _, _, _) := r in
  collect (λ entry,
    r ← read entry stream_entry_of;
    let '(id, fields, n, next) := r in
    fs ← collect (λ f,
      r ← read f stream_field_of;
      let '(field, value, next) := r in s ← str_at field; v ← str_at value; mret ((s, v), next)) fields;
    mret ({| se_id := id; se_fields := fs; se_num_fields := n |}, next)) head.

(** ** A call of the interface *)

Definition answered {A} (f : A → Mem answer) (r : StoreStatus + A) : Mem answer :=
  match r with inl e => mret (R_err e) | inr a => f a end.

(** The call with what its caller sees: a string or a value behind a pointer is
    read, and the string of a pop is freed. *)
Definition exec (p : ptr) (o : op) (now now' : Z) : Mem answer :=
  match o with
  | OP_del k => b ← store_del p k now; mret (R_bool b)
  | OP_exists k => b ← store_exists p k now; mret (R_bool b)
  | OP_type k => t ← store_type p k now; mret (R_type t)
  | OP_expiry k => z ← store_get_expiry p k now; mret (R_int z)
  | OP_set k v x => store_set p k v x now;; mret R_unit
  | OP_get k => r ← store_get p k now; answered (λ v, s ← str_at v; mret (R_bytes s)) r
  | OP_incrby k d => r ← store_incrby p k d now now'; answered (λ z, mret (R_int z)) r
  | OP_push k v b => r ← store_list_push p k v b now; answered (λ n, mret (R_int (Z.of_nat n))) r
  | OP_pop k b => r ← store_list_pop p k b now now'; answered (λ v, s ← str_at v; free_block v;; mret (R_bytes s)) r
  | OP_get_list k =>
      r ← store_get_value p k STORE_TYPE_LIST now; answered (λ v, xs ← load_list v; mret (R_value (A_list xs))) r
  | OP_hset k f v => r ← store_hash_set p k f v now; answered (λ z, mret (R_int z)) r
  | OP_hget k f => r ← store_hash_get p k f now; answered (λ v, s ← str_at v; mret (R_bytes s)) r
  | OP_hdel k f => r ← store_hash_del p k f now now'; answered (λ z, mret (R_int z)) r
  | OP_get_hash k =>
      r ← store_get_value p k STORE_TYPE_HASH now; answered (λ v, fs ← load_hash v; mret (R_value (A_hash (list_to_map fs)))) r
  | OP_zadd k sc m => r ← store_zset_add p k sc m now; answered (λ z, mret (R_int z)) r
  | OP_zscore k m => r ← store_zset_score p k m now; answered (λ d, mret (R_dbl d)) r
  | OP_zrank k m => r ← store_zset_rank p k m now; answered (λ n, mret (R_int (Z.of_nat n))) r
  | OP_get_zset k =>
      r ← store_get_value p k STORE_TYPE_ZSET now; answered (λ v, es ← load_zset v; mret (R_value (A_zset es))) r
  | OP_xadd k spec fs => r ← store_stream_add p k spec fs now now'; answered (λ id, mret (R_id id)) r
  | OP_get_stream k =>
      r ← store_get_value p k STORE_TYPE_STREAM now; answered (λ v, es ← load_stream v; mret (R_value (A_stream es))) r
  end.

End StoreHeap.
