(* ===== verification/HeapLists.v ===== *)
(** * Linked structures on a heap

    Proof rules for the accesses and loops of [StoreHeap]: reading and writing
    a block, links, walks along a chain, loops that free one, moving chains to
    another array, and loops over arrays.  [seg] is a linked list, for any kind
    of node (interface [Linked]). *)

From iris.proofmode Require Import proofmode.
From S2P Require Import Prelude CLib Mem SepLogic Chain StoreHeap.
Import Mem StoreHeap.

Abbreviation hProp := (heapProp Block).

(** ** Accesses *)

Lemma wp_xalloc b (Φ : ptr → hProp) : (∀ l, l ↦ b -∗ Φ (Some l)) ⊢ wp (xalloc b) Φ.
Proof. iIntros "H". iApply wp_bind. iApply wp_alloc. iIntros (l) "Hl". iApply wp_ret. by iApply "H". Qed.

Lemma wp_read {A} l b (f : Block → option A) a (Φ : A → hProp) :
  f b = Some a → l ↦ b ⊢ (l ↦ b -∗ Φ a) -∗ wp (read (Some l) f) Φ.
Proof. intros Hf. apply wp_step. intros h Hl. unfold read. by rw Hl Hf insert_id. Qed.

Lemma wp_modify l b (f : Block → option Block) b' (Φ : () → hProp) :
  f b = Some b' → l ↦ b ⊢ (l ↦ b' -∗ Φ tt) -∗ wp (modify (Some l) f) Φ.
Proof. intros Hf. apply wp_step. intros h Hl. unfold modify. by rw Hl Hf. Qed.

(** The next statement of a program. *)
Tactic Notation "hbind" := iApply wp_bind; cbv beta.
Tactic Notation "hret" := iApply wp_ret.
Tactic Notation "hread" constr(H) :=
  first [iApply (wp_read with H); [reflexivity|]|hbind; iApply (wp_read with H); [reflexivity|]];
  iIntros H; cbv beta iota zeta.
Tactic Notation "hset" constr(H) :=
  first [iApply (wp_modify with H); [reflexivity|]|hbind; iApply (wp_modify with H); [reflexivity|]];
  iIntros H; cbv beta iota zeta.
Tactic Notation "hfree" constr(H) :=
  first [iApply (wp_free with H)|hbind; iApply (wp_free with H)]; cbv beta iota zeta.
Tactic Notation "halloc" "(" simple_intropattern(l) ")" constr(H) :=
  first [iApply wp_xalloc|hbind; iApply wp_xalloc]; iIntros (l) H; cbv beta iota zeta.

(** Arrays of pointers. *)
Lemma wp_slot l b bs i q (Φ : ptr → hProp) :
  slots_of b = Some bs → bs !! i = Some q → l ↦ b ⊢ (l ↦ b -∗ Φ q) -∗ wp (slot (Some l) i) Φ.
Proof.
  iIntros (Hb Hi) "Hl HΦ". unfold slot. hbind. iApply (wp_read with "Hl"); [done|]. iIntros "Hl". rw Hi. hret. by iApply "HΦ".
Qed.

Lemma wp_set_slot l b bs i q b' (Φ : () → hProp) :
  slots_of b = Some bs → i < length bs → with_slots (<[i := q]> bs) b = Some b' →
  l ↦ b ⊢ (l ↦ b' -∗ Φ tt) -∗ wp (set_slot (Some l) i q) Φ.
Proof.
  iIntros (Hb Hi Hw) "Hl HΦ". unfold set_slot. hbind. iApply (wp_read with "Hl"); [done|]. iIntros "Hl".
  rw (proj2 (Nat.ltb_lt _ _) Hi). by iApply (wp_modify with "Hl").
Qed.

(** ** Links *)

(** [owns_link lk L]: with [L q] the link [lk] can be read, as [q], and written. *)
Definition owns_link (lk : link) (L : ptr → hProp) : Prop :=
  (∀ q Φ, L q ⊢ (L q -∗ Φ q) -∗ wp (load_link lk) Φ) ∧
  (∀ q q' Φ, L q ⊢ (L q' -∗ Φ tt) -∗ wp (store_link lk q') Φ).

(** A node that has a [next] pointer; the rest of it does not depend on that. *)
Class Linked {X} (node : X → ptr → loc → hProp) := {
  linked_acc x next l : node x next l ⊢ ∃ b, l ↦ b ∗ ⌈next_of b = Some next⌉ ∗
    (∀ b' next', ⌈with_next next' b = Some b'⌉ -∗ l ↦ b' -∗ node x next' l);
}.

Lemma with_next_id b q : next_of b = Some q → with_next q b = Some b.
Proof. destruct b; cbn; congruence. Qed.

Lemma with_next_some b q q' : next_of b = Some q → ∃ b', with_next q' b = Some b'.
Proof. destruct b; cbn; naive_solver. Qed.

Lemma wp_next {X} (node : X → ptr → loc → hProp) `{!Linked node} x next l Φ :
  node x next l ⊢ (node x next l -∗ Φ next) -∗ wp (read (Some l) next_of) Φ.
Proof.
  iIntros "Hn HΦ". iDestruct (linked_acc with "Hn") as (b) "(Hl & %Hb & Hc)".
  iApply (wp_read with "Hl"); [done|]. iIntros "Hl". iApply "HΦ". iApply ("Hc" with "[] Hl").
  iPureIntro. by apply with_next_id.
Qed.

Lemma wp_set_next {X} (node : X → ptr → loc → hProp) `{!Linked node} x next next' l Φ :
  node x next l ⊢ (node x next' l -∗ Φ tt) -∗ wp (modify (Some l) (with_next next')) Φ.
Proof.
  iIntros "Hn HΦ". iDestruct (linked_acc with "Hn") as (b) "(Hl & %Hb & Hc)".
  destruct (with_next_some b next next' Hb) as [b' Hb']. iApply (wp_modify with "Hl"); [done|]. iIntros "Hl".
  iApply "HΦ". by iApply ("Hc" with "[] Hl").
Qed.

Lemma owns_next {X} (node : X → ptr → loc → hProp) `{!Linked node} x l R :
  owns_link (L_next (Some l)) (λ q, R ∗ node x q l)%I.
Proof.
  split; cbn [load_link store_link].
  - iIntros (q Φ) "[HR Hn] HΦ". iApply (wp_next with "Hn"). iIntros "Hn". iApply "HΦ". iFrame.
  - iIntros (q q' Φ) "[HR Hn] HΦ". iApply (wp_set_next with "Hn"). iIntros "Hn". iApply "HΦ". iFrame.
Qed.

(** An element of an array, the others of which stay. *)
Lemma owns_slot l (mk : list ptr → Block) bs i :
  (∀ bs, slots_of (mk bs) = Some bs) → (∀ bs bs', with_slots bs' (mk bs) = Some (mk bs')) → i < length bs →
  owns_link (L_slot (Some l) i) (λ q, l ↦ mk (<[i := q]> bs))%I.
Proof.
  intros H1 H2 Hi. split; cbn [load_link store_link].
  - iIntros (q Φ) "Hl HΦ". iApply (wp_slot with "Hl"); [done|by apply list_lookup_insert_eq|done].
  - iIntros (q q' Φ) "Hl HΦ". iApply (wp_set_slot with "Hl"); [done|by rw length_insert| |done]. by rw H2 list_insert_insert_eq.
Qed.

(** ** Linked lists *)

Section seg.
Context {X : Type} (node : X → ptr → loc → hProp).

(** The nodes of [xs] from [p] up to [q]. *)
Fixpoint seg (xs : list X) (p q : ptr) : hProp :=
  match xs with
  | [] => ⌈p = q⌉
  | x :: xs' => ∃ l next, ⌈p = Some l⌉ ∗ node x next l ∗ seg xs' next q
  end%I.

Definition chain (xs : list X) (p : ptr) : hProp := seg xs p None.

Lemma seg_app xs ys p q : seg (xs ++ ys) p q ⊣⊢ ∃ r, seg xs p r ∗ seg ys r q.
Proof.
  revert p. induction xs as [|x xs IH]; intros p; cbn.
  - iSplit; [iIntros "H"; iExists p; by iFrame|]. by iIntros "(%r & -> & H)".
  - setoid_rewrite IH. iSplit.
    + iIntros "(%l & %next & -> & Hn & %r & H1 & H2)". iExists r. iFrame "H2". iExists l, next. by iFrame.
    + iIntros "(%r & (%l & %next & -> & Hn & H1) & H2)". iExists l, next. by iFrame.
Qed.

Context `{!Linked node}.

Lemma seg_cells xs p q : seg xs p q ⊢ cells (length xs).
Proof.
  revert p. induction xs as [|x xs IH]; intros p; cbn [seg length]; [apply cells_0|].
  iIntros "(%l & %next & _ & Hn & Hs)". iDestruct (linked_acc with "Hn") as (b) "(Hl & _ & Hc)".
  iDestruct (IH with "Hs") as "Hs". iApply (cells_step with "Hl"). iExact "Hs".
Qed.

(** ** Walks *)

(** How a walk from a link with [L] ends: at the end of the chain, or at the
    first node that passes the test, which can be taken out of the chain,
    changed or replaced. *)
Definition walked (t : X → bool) (L : ptr → hProp) (q : ptr) (xs : list X) (r : option (link * ptr)) : hProp :=
  match r with
  | None => ⌈Forall (λ x, t x = false) xs⌉ ∗ L q ∗ chain xs q
  | Some (lk, e) => ∃ pre x post l next F,
      ⌈xs = pre ++ x :: post ∧ Forall (λ x, t x = false) pre ∧ t x = true ∧ e = Some l ∧ owns_link lk F⌉ ∗
      F (Some l) ∗ node x next l ∗ chain post next ∗
      (∀ q' ys, F q' -∗ chain ys q' -∗ ∃ q0, L q0 ∗ chain (pre ++ ys) q0)
  end%I.

Section walk.
Context (test : ptr → Mem bool) (t : X → bool) (R : hProp).
Context (Htest : ∀ x next l Φ, node x next l ⊢ R -∗ (node x next l -∗ R -∗ Φ (t x)) -∗ wp (test (Some l)) Φ).

Lemma wp_walk_loop fuel lk L xs q Φ :
  owns_link lk L → length xs ≤ fuel →
  L q ⊢ chain xs q -∗ R -∗ (∀ r, walked t L q xs r -∗ R -∗ Φ r) -∗ wp (walk_loop fuel test lk) Φ.
Proof.
  revert fuel lk L q Φ. induction xs as [|x xs IH]; iIntros (fuel lk L q Φ Hlk Hf) "HL Hc HR HΦ".
  - iDestruct "Hc" as "->". destruct fuel; cbn [walk_loop]; hbind; iApply (proj1 Hlk with "HL"); iIntros "HL"; hret;
      iApply ("HΦ" with "[HL] HR"); cbn [walked]; by iFrame.
  - iDestruct "Hc" as (l next ->) "[Hn Hc]". destruct fuel as [|fuel]; cbn [length] in Hf; [lia|]. cbn [walk_loop].
    hbind. iApply (proj1 Hlk with "HL"). iIntros "HL". hbind. iApply (Htest with "Hn HR"). iIntros "Hn HR".
    destruct (t x) eqn:Ht.
    + hret. iApply ("HΦ" with "[HL Hn Hc] HR"). cbn [walked]. iExists [], x, xs, l, next, L. iFrame.
      iSplit; [done|]. iIntros (q' ys) "HL Hc". iExists q'. iFrame.
    + iApply (IH fuel (L_next (Some l)) (λ q, L (Some l) ∗ node x q l)%I with "[$HL $Hn] Hc HR");
        [by apply owns_next|lia|]. iIntros (r) "Hr HR". iApply ("HΦ" with "[Hr] HR"). destruct r as [[lk' e]|]; cbn [walked].
      * iDestruct "Hr" as (pre y post l' next' F (-> & Hpre & Hy & He & HF)) "(HF & Hn & Hp & Hclose)".
        iExists (x :: pre), y, post, l', next', F. iFrame. iSplit; [iPureIntro; split_and!; auto|].
        iIntros (q' ys) "HF Hc". iDestruct ("Hclose" with "HF Hc") as (q0) "[[HL Hn] Hc]". iExists (Some l). iFrame "HL".
        iExists l, q0. by iFrame.
      * iDestruct "Hr" as (Hall) "[[HL Hn] Hc]". iFrame "HL". iSplit; [by auto|]. iExists l, next. by iFrame.
Qed.

Lemma wp_walk lk L xs q Φ :
  owns_link lk L →
  L q ⊢ chain xs q -∗ R -∗ (∀ r, walked t L q xs r -∗ R -∗ Φ r) -∗ wp (walk test lk) Φ.
Proof.
  iIntros (Hlk) "HL Hc HR HΦ". iApply (wp_with_size (length xs)). iSplit; [by iApply (seg_cells with "Hc")|].
  iIntros (n Hn). by iApply (wp_walk_loop with "HL Hc HR").
Qed.

End walk.

(** ** Loops over all nodes *)

(** A loop that gives every node back. *)
Lemma wp_while_free (step : ptr → Mem ptr) xs p Φ :
  (∀ x next l Ψ, node x next l ⊢ Ψ next -∗ wp (step (Some l)) Ψ) →
  chain xs p ⊢ Φ tt -∗ wp (while_node step p) Φ.
Proof.
  iIntros (Hstep) "Hc HΦ". iApply (wp_with_size (length xs)). iSplit; [by iApply (seg_cells with "Hc")|]. iIntros (n Hn).
  iInduction xs as [|x xs IH] forall (n p Hn).
  - iDestruct "Hc" as "->". destruct n; by hret.
  - iDestruct "Hc" as (l next ->) "[Hn Hc]". destruct n as [|n]; cbn [length] in Hn; [lia|]. cbn [while_loop].
    hbind. iApply (Hstep with "Hn"). iApply ("IH" with "[] Hc HΦ"). iPureIntro. lia.
Qed.

End seg.

(** ** Arrays of chains *)

(** A structure whose array of pointers is [ps] when [mk ps] is its block. *)
Class SlotArray (mk : list ptr → Block) := {
  array_slots ps : slots_of (mk ps) = Some ps;
  array_with ps ps' : with_slots ps' (mk ps) = Some (mk ps');
}.

#[export] Instance buckets_array : SlotArray B_buckets.
Proof. by split. Qed.
#[export] Instance index_array : SlotArray B_index.
Proof. by split. Qed.
#[export] Instance hash_array len : SlotArray (λ ps, B_hash ps len).
Proof. by split. Qed.

Section table.
Context {X : Type} (node : X → ptr → loc → hProp) `{!Linked node}.
Context (mk : list ptr → Block) `{!SlotArray mk}.

Definition chains (cs : list (list X)) (ps : list ptr) : hProp := ([∗ list] c;p ∈ cs;ps, chain node c p)%I.

(** The array at [l] with its chains. *)
Definition table (cs : list (list X)) (l : loc) : hProp := (∃ ps, l ↦ mk ps ∗ chains cs ps)%I.

(** One chain of a table and the array element that points to it. *)
Lemma table_acc cs l i c :
  cs !! i = Some c →
  table cs l ⊢ ∃ q ps, ⌈owns_link (L_slot (Some l) i) (λ q, l ↦ mk (<[i := q]> ps))%I⌉ ∗
    l ↦ mk (<[i := q]> ps) ∗ chain node c q ∗
    (∀ q' c', l ↦ mk (<[i := q']> ps) -∗ chain node c' q' -∗ table (<[i := c']> cs) l).
Proof.
  iIntros (Hc) "(%ps & Hl & Hcs)". iDestruct (big_sepL2_length with "Hcs") as %Hlen.
  destruct (lookup_lt_is_Some_2 ps i) as [q Hq]; [rw -Hlen; by eapply lookup_lt_Some|].
  iDestruct (big_sepL2_insert_acc with "Hcs") as "[Hc Hcs]"; [done..|].
  iExists q, ps. rw (list_insert_id ps i q) //. iFrame "Hl Hc". iSplit.
  - iPureIntro. apply owns_slot; [apply array_slots|intros; apply array_with|by eapply lookup_lt_Some].
  - iIntros (q' c') "Hl Hc". iExists (<[i := q']> ps). iFrame "Hl". by iApply "Hcs".
Qed.

(** A new node at the front of a chain. *)
Lemma wp_slot_table cs l i c Φ :
  cs !! i = Some c →
  table cs l ⊢ (∀ q, chain node c q -∗ (∀ q' c' Ψ, chain node c' q' -∗ (table (<[i := c']> cs) l -∗ Ψ tt) -∗
      wp (set_slot (Some l) i q') Ψ) -∗ Φ q) -∗
    wp (slot (Some l) i) Φ.
Proof.
  iIntros (Hc) "Ht HΦ". iDestruct (table_acc with "Ht") as (q ps Hlk) "(Hl & Hc & Hclose)"; [done|].
  iApply (proj1 Hlk with "Hl"). iIntros "Hl". iApply ("HΦ" with "Hc"). iIntros (q' c' Ψ) "Hc HΨ".
  iApply (proj2 Hlk with "Hl"). iIntros "Hl". iApply "HΨ". by iApply ("Hclose" with "Hl Hc").
Qed.

(** An array as [xcalloc] leaves it. *)
Lemma table_empty l n : l ↦ mk (replicate n None) ⊢ table (replicate n []) l.
Proof.
  iIntros "Hl". iExists _. iFrame "Hl". unfold chains. iInduction n as [|n] "IH"; cbn; [done|]. by iFrame "IH".
Qed.

(** A loop over the array whose body takes the chain of each element. *)
Lemma wp_for_slots (J : list (list X) → hProp) l cs ps body Φ :
  (∀ before c p Ψ, chain node c p ⊢ J before -∗ (J (before ++ [c]) -∗ Ψ tt) -∗ wp (body p) Ψ) →
  l ↦ mk ps ⊢ chains cs ps -∗ J [] -∗ (l ↦ mk ps -∗ J cs -∗ Φ tt) -∗
    wp (for_loop (length cs) 0 (λ i, p ← slot (Some l) i; body p)) Φ.
Proof.
  intros Hbody.
  enough (∀ before pre, length pre = length before → ∀ cs ps,
    l ↦ mk (pre ++ ps) ⊢ chains cs ps -∗ J before -∗ (l ↦ mk (pre ++ ps) -∗ J (before ++ cs) -∗ Φ tt) -∗
    wp (for_loop (length cs) (length pre) (λ i, p ← slot (Some l) i; body p)) Φ) as H by exact (H [] [] eq_refl cs ps).
  clear cs ps. intros before pre Hpre cs ps. iIntros "Hl Hcs HJ HΦ".
  iInduction cs as [|c cs IH] forall (before pre ps Hpre).
  - iDestruct (big_sepL2_nil_inv_l with "Hcs") as %->. hret. rw !app_nil_r. by iApply ("HΦ" with "Hl HJ").
  - iDestruct (big_sepL2_cons_inv_l with "Hcs") as (p ps' ->) "[Hc Hcs]". cbn [length for_loop]. hbind. hbind.
    iApply (wp_slot with "Hl"); [apply array_slots|by apply list_lookup_middle|]. iIntros "Hl".
    iApply (Hbody with "Hc HJ"). iIntros "HJ".
    rw (cons_middle p pre ps') (cons_middle c before cs) !(assoc_L (++)).
    replace (S (length pre)) with (length (pre ++ [p])) by (rw length_app; cbn; lia).
    iApply ("IH" with "[] Hl Hcs HJ HΦ"). iPureIntro. rw !length_app. cbn. lia.
Qed.

End table.

(** ** Moving the chains of a table *)

Section move.
Context {X : Type} (node : X → ptr → loc → hProp) `{!Linked node}.
Context (mk : list ptr → Block) `{!SlotArray mk}.
Context (to : ptr → Mem nat) (slot_of : X → nat).
Context (Hto : ∀ x next l Φ, node x next l ⊢ (node x next l -∗ Φ (slot_of x)) -∗ wp (to (Some l)) Φ).

Lemma wp_move_nodes c p cs nb Φ :
  (∀ x, slot_of x < length cs) →
  chain node c p ⊢ table node mk cs nb -∗ (table node mk (foldl (rehash_entry slot_of) cs c) nb -∗ Φ tt) -∗
    wp (while_node (λ e,
      next ← read e next_of; s ← to e; first ← slot (Some nb) s;
      modify e (with_next first);; set_slot (Some nb) s e;; mret next) p) Φ.
Proof.
  iIntros (Hlen) "Hc Ht HΦ". iApply (wp_with_size (length c)). iSplit; [by iApply (seg_cells with "Hc")|]. iIntros (n Hn).
  iInduction c as [|x c IH] forall (n p cs Hn Hlen).
  - iDestruct "Hc" as "->". destruct n; hret; by iApply "HΦ".
  - iDestruct "Hc" as (l next ->) "[Hn Hc]". destruct n as [|n]; cbn [length] in Hn; [lia|]. cbn [while_loop].
    hbind. hbind. iApply (wp_next with "Hn"). iIntros "Hn". hbind. iApply (Hto with "Hn"). iIntros "Hn".
    destruct (lookup_lt_is_Some_2 cs (slot_of x) (Hlen x)) as [c' Hc'].
    hbind. iApply (wp_slot_table with "Ht"); [done|]. iIntros (q) "Hc' Hset".
    hbind. iApply (wp_set_next with "Hn"). iIntros "Hn". hbind.
    iApply ("Hset" $! (Some l) (x :: c') with "[Hn Hc']"); [iExists l, q; by iFrame|]. iIntros "Ht". hret.
    assert (<[slot_of x := x :: c']> cs = rehash_entry slot_of cs x) as ->
      by (unfold rehash_entry; by rw (list_lookup_total_correct _ _ _ Hc')).
    iApply ("IH" with "[] [] Hc Ht HΦ"); iPureIntro; [lia|]. intros. by rw length_insert.
Qed.

Lemma wp_move_chains n cs old new nb Φ :
  n = length cs → (∀ x, slot_of x < length new) →
  table node mk cs old ⊢ table node mk new nb -∗
    (∀ ps, old ↦ mk ps -∗ table node mk (foldl (rehash_entry slot_of) new (concat cs)) nb -∗ Φ tt) -∗
    wp (move_chains n (Some old) (Some nb) to) Φ.
Proof.
  iIntros (-> Hlen) "(%ps & Hl & Hcs) Ht HΦ". unfold move_chains.
  iApply (wp_for_slots node mk (λ before, table node mk (foldl (rehash_entry slot_of) new (concat before)) nb) with "Hl Hcs Ht").
  - intros before c p Ψ. iIntros "Hc Ht HΨ". iApply (wp_move_nodes with "Hc Ht").
    + intros x. enough (∀ ys zs, length (foldl (rehash_entry slot_of) zs ys) = length zs) as -> by done.
      induction ys as [|y ys IH]; intros zs; [done|]. cbn. by rw IH length_insert.
    + rw concat_app foldl_app. cbn [concat]. by rw app_nil_r.
  - iIntros "Hl Ht". by iApply ("HΦ" with "Hl Ht").
Qed.

End move.
