(* ===== verification/StoreRep.v ===== *)
(** * The memory of a store

    [value_at v p], [entry_node e next l] and [store_at s p]: the part of the
    heap that holds exactly the value [v], the entry [e] and the store [s] of
    the model [Store], with all strings, nodes, arrays and structures; and the
    functions of [store.c] that free them. *)

From iris.proofmode Require Import proofmode.
From S2P Require Import Prelude CLib Mem SepLogic Chain FieldHash DList Dbl ZSet Stream Store StoreHeap HeapLists.
Import Mem FieldHash DList Dbl ZSet Stream Store StoreHeap.

(** ** Strings *)

Definition str (s : bytes) (p : ptr) : hProp := (∃ l, ⌈p = Some l⌉ ∗ l ↦ B_chars s)%I.

Lemma wp_xstrdup s Φ : (∀ p, str s p -∗ Φ p) ⊢ wp (xstrdup s) Φ.
Proof. iIntros "HΦ". unfold xstrdup. halloc (l) "Hl". iApply "HΦ". iExists l. by iFrame. Qed.

Lemma wp_str_at s p Φ : str s p ⊢ (str s p -∗ Φ s) -∗ wp (str_at p) Φ.
Proof. iIntros "(%l & -> & Hl) HΦ". unfold str_at. hread "Hl". iApply "HΦ". iExists l. by iFrame. Qed.

Lemma wp_free_str s p Φ : str s p ⊢ Φ tt -∗ wp (free_block p) Φ.
Proof. iIntros "(%l & -> & Hl) HΦ". by iApply (wp_free with "Hl"). Qed.

(** ** Lists *)

(** The nodes of [xs] from [p] to [last], between [prev] and [next]. *)
Fixpoint dseg (prev : ptr) (xs : list bytes) (p last next : ptr) : hProp :=
  match xs with
  | [] => ⌈p = next⌉ ∗ ⌈last = prev⌉
  | x :: xs' => ∃ l v q, ⌈p = Some l⌉ ∗ l ↦ B_list_node v prev q ∗ str x v ∗ dseg (Some l) xs' q last next
  end%I.

Definition list_at (xs : list bytes) (p : ptr) : hProp :=
  (∃ l head tail, ⌈p = Some l⌉ ∗ l ↦ B_list head tail (length xs) ∗ dseg None xs head tail None)%I.

(** The last node. *)
Lemma dseg_snoc prev xs x p last next :
  dseg prev (xs ++ [x]) p last next ⊣⊢
  ∃ l v before, ⌈last = Some l⌉ ∗ dseg prev xs p before (Some l) ∗ l ↦ B_list_node v before next ∗ str x v.
Proof.
  revert prev p. induction xs as [|y xs IH]; intros prev p; cbn [dseg app].
  - iSplit.
    + iIntros "(%l & %v & %q & -> & Hl & Hv & -> & ->)". iExists l, v, prev. by iFrame.
    + iIntros "(%l & %v & %before & -> & [-> ->] & Hl & Hv)". iExists l, v, next. by iFrame.
  - setoid_rewrite IH. iSplit.
    + iIntros "(%l & %v & %q & -> & Hl & Hv & %l' & %v' & %before & -> & Hs & Hl' & Hv')".
      iExists l', v', before. iFrame "Hl' Hv'". iSplit; [done|]. iExists l, v, q. by iFrame.
    + iIntros "(%l' & %v' & %before & -> & (%l & %v & %q & -> & Hl & Hv & Hs) & Hl' & Hv')".
      iExists l, v, q. iFrame "Hl Hv". iSplit; [done|]. iExists l', v', before. by iFrame.
Qed.

Lemma dseg_cells prev xs p last next : dseg prev xs p last next ⊢ cells (length xs).
Proof.
  revert prev p. induction xs as [|x xs IH]; intros prev p; cbn [dseg length]; [apply cells_0|].
  iIntros "(%l & %v & %q & _ & Hl & Hv & Hs)". iDestruct (IH with "Hs") as "Hs". iApply (cells_step with "Hl"). iExact "Hs".
Qed.

Lemma wp_free_nodes prev xs p last Φ :
  dseg prev xs p last None ⊢ Φ tt -∗
  wp (while_node (λ node, r ← read node list_node_of; let '(value, _, next) := r in
    free_block value;; free_block node;; mret next) p) Φ.
Proof.
  iIntros "Hs HΦ". iApply (wp_with_size (length xs)). iSplit; [by iApply (dseg_cells with "Hs")|]. iIntros (n Hn).
  iInduction xs as [|x xs IH] forall (n prev p Hn).
  - iDestruct "Hs" as "[-> _]". by destruct n; hret.
  - iDestruct "Hs" as (l v q ->) "(Hl & Hv & Hs)". destruct n as [|n]; cbn [length] in Hn; [lia|]. cbn [while_loop].
    hbind. hread "Hl". hbind. iApply (wp_free_str with "Hv"). hfree "Hl". hret.
    iApply ("IH" with "[] Hs HΦ"). iPureIntro. lia.
Qed.

Lemma wp_free_list xs p Φ : list_at xs p ⊢ Φ tt -∗ wp (free_list p) Φ.
Proof.
  iIntros "(%l & %head & %tail & -> & Hl & Hs) HΦ". unfold free_list. hread "Hl". hbind.
  iApply (wp_free_nodes with "Hs"). by hfree "Hl".
Qed.

(** ** Hashes *)

Definition hash_node (x : HashField) (next : ptr) (l : loc) : hProp :=
  (∃ f v, l ↦ B_hash_field f v next ∗ str (hf_field x) f ∗ str (hf_value x) v)%I.

#[export] Instance hash_node_linked : Linked hash_node.
Proof.
  split. iIntros (x next l) "(%f & %v & Hl & Hf & Hv)". iExists _. iFrame "Hl". iSplit; [done|].
  iIntros (b' next' [= <-]) "Hl". iExists f, v. iFrame.
Qed.

Definition hash_at (h : Hash) (p : ptr) : hProp :=
  (∃ l ps, ⌈p = Some l⌉ ∗ ⌈length (hash_buckets h) = HASH_NUM_BUCKETS⌉ ∗ l ↦ B_hash ps (hash_len h) ∗
     chains hash_node (hash_buckets h) ps)%I.

Lemma wp_free_hash h p Φ : hash_at h p ⊢ Φ tt -∗ wp (free_hash p) Φ.
Proof.
  iIntros "(%l & %ps & -> & %Hlen & Hl & Hcs) HΦ". unfold free_hash. hbind. rw -Hlen.
  iApply (wp_for_slots hash_node (λ ps, B_hash ps (hash_len h)) (λ _, emp)%I with "Hl Hcs"); [|done|].
  - iIntros (_ c q Ψ) "Hc _ HΨ". iApply (wp_while_free with "Hc").
    + iIntros (x next l' Ψ') "(%f & %v & Hl & Hf & Hv) HΨ". hread "Hl". hbind. iApply (wp_free_str with "Hf").
      hbind. iApply (wp_free_str with "Hv"). hfree "Hl". by hret.
    + by iApply "HΨ".
  - iIntros "Hl _". by hfree "Hl".
Qed.

(** ** Sorted sets *)

(** The index nodes borrow the strings of the array: [ms] says where the string
    of a member is. *)
Definition index_node (ms : gmap bytes loc) (x : ZIndexNode) (next : ptr) (l : loc) : hProp :=
  (∃ m, ⌈ms !! zn_member x = Some m⌉ ∗ l ↦ B_index_node (Some m) (zn_hash x) (zn_score x) next)%I.

#[export] Instance index_node_linked ms : Linked (index_node ms).
Proof.
  split. iIntros (x next l) "(%m & %Hm & Hl)". iExists _. iFrame "Hl". iSplit; [done|].
  iIntros (b' next' [= <-]) "Hl". iExists m. by iFrame.
Qed.

(** The cells of the array: those of the entries, the others are not set. *)
Definition cell (ms : gmap bytes loc) (e : ZSetEntry) (c : option (ptr * dbl)) : Prop :=
  ∃ m, ms !! ze_member e = Some m ∧ c = Some (Some m, ze_score e).

Definition array_at (ms : gmap bytes loc) (es : list ZSetEntry) (cap : nat) (p : ptr) : hProp :=
  match p with
  | None => ⌈es = [] ∧ cap = 0⌉
  | Some l => ∃ cs rest, ⌈Forall2 (cell ms) es cs ∧ length (cs ++ rest) = cap⌉ ∗ l ↦ B_entries (cs ++ rest)
  end%I.

Definition index_at (ms : gmap bytes loc) (cs : list (list ZIndexNode)) (p : ptr) : hProp :=
  match p with
  | None => ⌈cs = []⌉
  | Some l => table (index_node ms) B_index cs l
  end%I.

Definition strings_at (ms : gmap bytes loc) : hProp := ([∗ map] s ↦ l ∈ ms, l ↦ B_chars s)%I.

Definition zset_at (z : ZSet) (p : ptr) : hProp :=
  (∃ l entries index ms,
     ⌈p = Some l⌉ ∗ l ↦ B_zset entries (z_len z) (z_cap z) index (z_index_size z) ∗
     ⌈length (z_index z) = z_index_size z ∧ NoDup (ze_member <$> z_entries z) ∧
       dom ms = list_to_set (ze_member <$> z_entries z)⌉ ∗
     array_at ms (z_entries z) (z_cap z) entries ∗ index_at ms (z_index z) index ∗ strings_at ms)%I.

(** [zset->entries[i]] for an entry. *)
Lemma wp_entry_at ms es cap p i e Φ :
  es !! i = Some e →
  array_at ms es cap p ⊢ (∀ m, ⌈ms !! ze_member e = Some m⌉ -∗ array_at ms es cap p -∗ Φ (Some m, ze_score e)) -∗
    wp (entry_at p i) Φ.
Proof.
  iIntros (Hi) "Ha HΦ". destruct p as [l|]; [|by iDestruct "Ha" as %[-> _]].
  iDestruct "Ha" as (cs rest [Hcs Hcap]) "Hl". unfold entry_at. hread "Hl".
  destruct (Forall2_lookup_l _ _ _ _ _ Hcs Hi) as (c & Hc & m & Hm & ->). rw (lookup_app_l_Some _ _ _ _ Hc). hret.
  iApply ("HΦ" with "[//]"). iExists cs, rest. by iFrame.
Qed.

(** A block, or none where the pointer is NULL. *)
Definition any_at (p : ptr) : hProp := match p with None => emp | Some l => ∃ b, l ↦ b end%I.

Lemma wp_free_any p Φ : any_at p ⊢ Φ tt -∗ wp (free_block p) Φ.
Proof.
  destruct p as [l|]; [iIntros "(%b & Hl) HΦ"; by iApply (wp_free with "Hl")|]. iIntros "_ HΦ". by iApply wp_free_null.
Qed.

Lemma array_any ms es cap p : array_at ms es cap p ⊢ any_at p.
Proof. destruct p as [l|]; [|by iIntros "_"]. iIntros "(%cs & %rest & _ & Hl)". by iExists _. Qed.

Lemma wp_free_index ms cs p Φ :
  index_at ms cs p ⊢ (any_at p -∗ Φ tt) -∗
  wp (for_loop (length cs) 0 (λ i, n ← slot p i; while_node (λ n, next ← read n next_of; free_block n;; mret next) n)) Φ.
Proof.
  iIntros "Hi HΦ". destruct p as [l|]; [|iDestruct "Hi" as %->; hret; by iApply "HΦ"].
  iDestruct "Hi" as (ps) "[Hl Hcs]".
  iApply (wp_for_slots (index_node ms) B_index (λ _, emp)%I with "Hl Hcs"); [|done|].
  - iIntros (_ c q Ψ) "Hc _ HΨ". iApply (wp_while_free with "Hc").
    + iIntros (x next l' Ψ') "(%m & %Hm & Hl) HΨ". hread "Hl". hfree "Hl". by hret.
    + by iApply "HΨ".
  - iIntros "Hl _". iApply "HΦ". by iExists _.
Qed.

(** Freeing the string of every entry. *)
Lemma wp_free_members ms es cap p Φ :
  NoDup (ze_member <$> es) → dom ms = list_to_set (ze_member <$> es) →
  array_at ms es cap p ⊢ strings_at ms -∗ (array_at ms es cap p -∗ Φ tt) -∗
  wp (for_loop (length es) 0 (λ i, e ← entry_at p i; free_block e.1)) Φ.
Proof.
  intros Hnd Hdom.
  enough (∀ pre suf ms', es = pre ++ suf → ms' ⊆ ms → dom ms' = list_to_set (ze_member <$> suf) →
    array_at ms es cap p ⊢ strings_at ms' -∗ (array_at ms es cap p -∗ Φ tt) -∗
    wp (for_loop (length suf) (length pre) (λ i, e ← entry_at p i; free_block e.1)) Φ) as H by exact (H [] es ms eq_refl (reflexivity _) Hdom).
  intros pre suf. revert pre. induction suf as [|e suf IH]; iIntros (pre ms' Hes Hsub Hd) "Ha Hs HΦ".
  - hret. apply dom_empty_inv_L in Hd. subst ms'. rw /strings_at big_sepM_empty. by iApply "HΦ".
  - cbn [length for_loop]. hbind. hbind. iApply (wp_entry_at with "Ha"); [subst es; by apply list_lookup_middle|].
    iIntros (m Hm) "Ha". cbn [fst].
    assert (ms' !! ze_member e = Some m) as Hm'.
    { assert (is_Some (ms' !! ze_member e)) as [m' Hm'] by (apply elem_of_dom; rw Hd; set_solver).
      rw Hm'. by rw -(lookup_weaken _ _ _ _ Hm' Hsub) Hm. }
    iDestruct (big_sepM_delete _ _ _ _ Hm' with "Hs") as "[He Hs]". iApply (wp_free with "He").
    replace (S (length pre)) with (length (pre ++ [e])) by (rw length_app; cbn; lia).
    iApply (IH (pre ++ [e]) (delete (ze_member e) ms') with "Ha Hs HΦ").
    + by rw -(assoc_L (++)).
    + etrans; [apply delete_subseteq|done].
    + rw dom_delete_L Hd. subst es. rw fmap_app in Hnd. apply NoDup_app in Hnd as (_ & _ & Hnd).
      cbn in Hnd. apply NoDup_cons in Hnd as [Hni _]. set_solver.
Qed.

Lemma wp_free_zset z p Φ : zset_at z p ⊢ Φ tt -∗ wp (free_zset p) Φ.
Proof.
  iIntros "(%l & %entries & %index & %ms & -> & Hl & (%Hlen & %Hnd & %Hdom) & Ha & Hi & Hs) HΦ".
  unfold free_zset. hread "Hl". rw -Hlen. hbind. iApply (wp_free_index with "Hi"). iIntros "Hi".
  hbind. iApply (wp_free_any with "Hi"). hbind. iApply (wp_free_members with "Ha Hs"); [done..|]. iIntros "Ha".
  hbind. iApply (wp_free_any with "[Ha]"); [by iApply array_any|]. by hfree "Hl".
Qed.

(** ** Streams *)

Definition field_node (x : bytes * bytes) (next : ptr) (l : loc) : hProp :=
  (∃ f v, l ↦ B_stream_field f v next ∗ str x.1 f ∗ str x.2 v)%I.

#[export] Instance field_node_linked : Linked field_node.
Proof.
  split. iIntros (x next l) "(%f & %v & Hl & Hf & Hv)". iExists _. iFrame "Hl". iSplit; [done|].
  iIntros (b' next' [= <-]) "Hl". iExists f, v. iFrame.
Qed.

Definition stream_node (x : StreamEntry) (next : ptr) (l : loc) : hProp :=
  (∃ fs, l ↦ B_stream_entry (se_id x) fs (se_num_fields x) next ∗ chain field_node (se_fields x) fs)%I.

#[export] Instance stream_node_linked : Linked stream_node.
Proof.
  split. iIntros (x next l) "(%fs & Hl & Hfs)". iExists _. iFrame "Hl". iSplit; [done|].
  iIntros (b' next' [= <-]) "Hl". iExists fs. iFrame.
Qed.

(** The entries from [head] on with a pointer to the last one. *)
Definition stream_nodes (es : list StreamEntry) (head tail : ptr) : hProp :=
  match tail with
  | None => ⌈es = [] ∧ head = None⌉
  | Some t => ∃ es' e, ⌈es = es' ++ [e]⌉ ∗ seg stream_node es' head (Some t) ∗ stream_node e None t
  end%I.

Definition stream_at (x : Stream) (p : ptr) : hProp :=
  (∃ l head tail, ⌈p = Some l⌉ ∗ l ↦ B_stream head tail (st_len x) (st_last_id x) ∗ stream_nodes (st_entries x) head tail)%I.

Lemma stream_nodes_chain es head tail : stream_nodes es head tail ⊢ chain stream_node es head.
Proof.
  destruct tail as [t|]; cbn [stream_nodes].
  - iIntros "(%es' & %e & -> & Hs & Hn)". rw /chain seg_app. iExists (Some t). iFrame "Hs". iExists t, None. by iFrame.
  - iIntros ([-> ->]). done.
Qed.

Lemma wp_free_stream x p Φ : stream_at x p ⊢ Φ tt -∗ wp (free_stream p) Φ.
Proof.
  iIntros "(%l & %head & %tail & -> & Hl & Hs) HΦ". rw stream_nodes_chain. unfold free_stream. hread "Hl". hbind.
  iApply (wp_while_free with "Hs"); [|by hfree "Hl"].
  iIntros (e next l' Ψ) "(%fs & Hl & Hfs) HΨ". hread "Hl". hbind. iApply (wp_while_free with "Hfs").
  - iIntros (y next' l'' Ψ') "(%f & %v & Hl & Hf & Hv) HΨ". hread "Hl". hbind. iApply (wp_free_str with "Hf").
    hbind. iApply (wp_free_str with "Hv"). hfree "Hl". by hret.
  - hfree "Hl". by hret.
Qed.

(** ** Entries and the store *)

Definition value_at (v : Value) (p : ptr) : hProp :=
  match v with
  | V_str s => str s p
  | V_list l => list_at (list_elems l) p
  | V_hash h => hash_at h p
  | V_zset z => zset_at z p
  | V_stream x => stream_at x p
  end.

Definition entry_node (e : StoreEntry) (next : ptr) (l : loc) : hProp :=
  (∃ k v, l ↦ B_entry k (e_hash e) (type_of (e_v e)) (e_expires_at e) next v ∗ str (e_key e) k ∗ value_at (e_v e) v)%I.

#[export] Instance entry_node_linked : Linked entry_node.
Proof.
  split. iIntros (e next l) "(%k & %v & Hl & Hk & Hv)". iExists _. iFrame "Hl". iSplit; [done|].
  iIntros (b' next' [= <-]) "Hl". iExists k, v. iFrame.
Qed.

Definition store_at (s : Store) (p : ptr) : hProp :=
  (∃ l bs, ⌈p = Some l⌉ ∗ ⌈length (buckets s) = st_size s⌉ ∗ l ↦ B_store (Some bs) (st_size s) (st_count s) ∗
     table entry_node B_buckets (buckets s) bs)%I.

(** [entry_clear_value] frees the value and leaves the entry without one. *)
Lemma wp_clear_value v l k h x next p Φ :
  l ↦ B_entry k h (type_of v) x next p ⊢ value_at v p -∗ (l ↦ B_entry k h (type_of v) x next None -∗ Φ tt) -∗
  wp (entry_clear_value (Some l)) Φ.
Proof.
  iIntros "Hl Hv HΦ". unfold entry_clear_value. hread "Hl".
  destruct v; cbn [type_of value_at]; hbind;
    [iApply (wp_free_str with "Hv")|iApply (wp_free_list with "Hv")|iApply (wp_free_hash with "Hv")
    |iApply (wp_free_zset with "Hv")|iApply (wp_free_stream with "Hv")];
    hset "Hl"; by iApply "HΦ".
Qed.

Lemma wp_entry_free e next l Φ : entry_node e next l ⊢ Φ tt -∗ wp (entry_free (Some l)) Φ.
Proof.
  iIntros "(%k & %v & Hl & Hk & Hv) HΦ". unfold entry_free. hbind. iApply (wp_clear_value with "Hl Hv"). iIntros "Hl".
  hread "Hl". hbind. iApply (wp_free_str with "Hk"). by hfree "Hl".
Qed.

Lemma wp_store_destroy s p Φ : store_at s p ⊢ Φ tt -∗ wp (store_destroy p) Φ.
Proof.
  iIntros "(%l & %bs & -> & %Hlen & Hl & %ps & Hbs & Hcs) HΦ". unfold store_destroy. hread "Hl". rw -Hlen. hbind.
  iApply (wp_for_slots entry_node B_buckets (λ _, emp)%I with "Hbs Hcs"); [|done|].
  - iIntros (_ c q Ψ) "Hc _ HΨ". iApply (wp_while_free with "Hc"); [|by iApply "HΨ"].
    iIntros (e next l' Ψ') "Hn HΨ". hbind. iApply (wp_next with "Hn"). iIntros "Hn". hbind.
    iApply (wp_entry_free with "Hn"). by hret.
  - iIntros "Hbs _". hfree "Hbs". by hfree "Hl".
Qed.

Lemma wp_store_create Φ : (∀ p, store_at Store.store_create p -∗ Φ p) ⊢ wp store_create Φ.
Proof.
  iIntros "HΦ". unfold store_create. halloc (l) "Hl". halloc (bs) "Hbs". hset "Hl". hret. iApply "HΦ".
  iExists l, bs. iFrame "Hl". do 2 (iSplit; [done|]). by iApply (table_empty with "Hbs").
Qed.
