(* ===== verification/KeyHeap.v ===== *)
(** * The keyspace on a heap

    [lookup], [store_del], [create_entry], [store_set] and the other functions
    of [store.c] that work on entries do on the memory of a store what those of
    [Store] do on the store.  [hole s p key l t x v] is the memory of a store
    whose entry of [key] is in use: the structure at [l], which may be written
    to, and what it takes to have a store again. *)

From iris.proofmode Require Import proofmode.
From S2P Require Import Prelude CLib Util Mem SepLogic Chain FieldHash DList Dbl ZSet Stream Store StoreInv StoreSpec StoreHeap HeapLists StoreRep.
Import Mem Util FieldHash DList Dbl ZSet Stream Store StoreInv StoreSpec StoreHeap.

(** ** The chain of a key *)

Definition matches (key : bytes) (e : StoreEntry) : bool := (e_hash e =? hash64 key)%Z && streq (e_key e) key.

Lemma chain_split (pre post : list StoreEntry) e key :
  Forall cached (pre ++ e :: post) → Forall (λ x, matches key x = false) pre → matches key e = true →
  e_key e = key ∧ chain_find key (pre ++ e :: post) = Some e ∧ chain_remove key (pre ++ e :: post) = pre ++ post ∧
  ∀ f, chain_update key f (pre ++ e :: post) = pre ++ f e :: post.
Proof.
  unfold matches. intros Hc Hpre He. induction pre as [|x pre IH]; cbn [app chain_find chain_remove chain_update] in *.
  - apply Forall_cons in Hc as [Hc _]. rw cached_test // in He. change (ekey e) with (e_key e). rw He.
    split_and!; [by apply streq_true|done..].
  - apply Forall_cons in Hc as [Hx Hc]. apply Forall_cons in Hpre as [Hx' Hpre]. rw cached_test // in Hx'.
    change (ekey x) with (e_key x). rw Hx'. destruct (IH Hc Hpre) as (H1 & H2 & H3 & H4).
    split_and!; [done|done|by rw H3|]. intros f. by rw H4.
Qed.

Lemma chain_absent (c : list StoreEntry) key :
  Forall cached c → Forall (λ x, matches key x = false) c → chain_find key c = None.
Proof.
  unfold matches. induction 1 as [|x c Hx Hc IH]; [done|]. intros [Hx' Hall]%Forall_cons. cbn [chain_find].
  rw cached_test // in Hx'. change (ekey x) with (e_key x). rw Hx'. by apply IH.
Qed.

(** How the search for a key ends. *)
Definition found (s : Store) (p : ptr) (key : bytes) (r : option (link * ptr)) : hProp :=
  match r with
  | None => ⌈key_map s !! key = None⌉ ∗ store_at s p
  | Some (lk, q) => ∃ l0 bs pre e post l next F,
      ⌈p = Some l0 ∧ q = Some l ∧ owns_link lk F ∧
        buckets s !!! slot_of (st_size s) key = pre ++ e :: post ∧
        Forall (λ x, matches key x = false) pre ∧ matches key e = true⌉ ∗
      l0 ↦ B_store (Some bs) (st_size s) (st_count s) ∗ F (Some l) ∗ entry_node e next l ∗ chain entry_node post next ∗
      (∀ q' ys, F q' -∗ chain entry_node ys q' -∗
         table entry_node B_buckets (<[slot_of (st_size s) key := pre ++ ys]> (buckets s)) bs)
  end%I.

Lemma wp_entry_matches key e next l Φ :
  entry_node e next l ⊢ emp -∗ (entry_node e next l -∗ emp -∗ Φ (matches key e)) -∗
  wp (entry_matches key (hash64 key) (Some l)) Φ.
Proof.
  iIntros "(%k & %v & Hl & Hk & Hv) _ HΦ". unfold entry_matches, matches. hread "Hl".
  destruct (e_hash e =? hash64 key)%Z; [hbind; iApply (wp_str_at with "Hk"); iIntros "Hk"|]; hret;
    iApply ("HΦ" with "[-] []"); [|done| |done]; iExists k, v; iFrame.
Qed.

Lemma wp_find_entry s p key Φ :
  store_shape s → store_at s p ⊢ (∀ r, found s p key r -∗ Φ r) -∗ wp (find_entry p key) Φ.
Proof.
  iIntros (Hs) "(%l0 & %bs & -> & %Hlen & Hl & Ht) HΦ". unfold find_entry. hread "Hl".
  fold (slot_of (st_size s) key). pose proof (tbl_chain _ _ key (sh_tbl _ Hs)) as Hc.
  pose proof (shape_chain_cached s key Hs) as Hcached.
  iDestruct (table_acc with "Ht") as (q ps Hlk) "(Hbs & Hc & Hclose)"; [exact Hc|].
  iApply (wp_walk entry_node (entry_matches key (hash64 key)) (matches key) emp%I (wp_entry_matches key) _ _ _ _ _ Hlk
    with "Hbs Hc [//]"). iIntros (r) "Hr _". iApply "HΦ". destruct r as [[lk e']|]; cbn [walked found].
  - iDestruct "Hr" as (pre e post l next F (Heq & Hpre & He & -> & HF)) "(HF & Hn & Hp & Hw)".
    iExists l0, bs, pre, e, post, l, next, F. iFrame. iSplit; [done|]. iIntros (q' ys) "HF Hc".
    iDestruct ("Hw" with "HF Hc") as (q0) "[Hbs Hc]". by iApply ("Hclose" with "Hbs Hc").
  - iDestruct "Hr" as (Hall) "[Hbs Hc]". iSplit; [iPureIntro; rw key_map_find //; by apply chain_absent|].
    iDestruct ("Hclose" with "Hbs Hc") as "Ht". rw (list_insert_id _ _ _ Hc). iExists l0, bs. by iFrame.
Qed.

(** The entry is taken out of its chain and freed. *)
Lemma wp_unlink s p key lk q Φ :
  store_shape s →
  found s p key (Some (lk, q)) ⊢
  (store_at {| buckets := <[slot_of (st_size s) key := chain_remove key (buckets s !!! slot_of (st_size s) key)]> (buckets s);
               st_size := st_size s; st_count := st_count s - 1 |} p -∗ Φ tt) -∗
  wp (unlink p lk q) Φ.
Proof.
  iIntros (Hs) "(%l0 & %bs & %pre & %e & %post & %l & %next & %F & %H & Hl & HF & Hn & Hp & Hclose) HΦ".
  destruct H as (-> & -> & HF & Hc & Hpre & He). pose proof (shape_chain_cached s key Hs) as Hcached. rw Hc in Hcached.
  destruct (chain_split _ _ _ _ Hcached Hpre He) as (_ & _ & Hrm & _). unfold unlink.
  hbind. iApply (wp_next with "Hn"). iIntros "Hn". hbind. iApply (proj2 HF with "HF"). iIntros "HF".
  hbind. iApply (wp_entry_free with "Hn"). unfold count_down. hset "Hl". iApply "HΦ".
  iExists l0, bs. iFrame "Hl". iSplit; [done|]. iSplit; [iPureIntro; cbn; rw length_insert; apply Hs|].
  rw Hc Hrm. by iApply ("Hclose" with "HF Hp").
Qed.

(** ** An entry in use *)

Definition hole (s : Store) (p : ptr) (key : bytes) (l : loc) (t : StoreType) (x : Z) (v : ptr) : hProp :=
  (∃ k next, l ↦ B_entry k (hash64 key) t x next v ∗ str key k ∗
     (∀ w x' v', l ↦ B_entry k (hash64 key) (type_of w) x' next v' -∗ str key k -∗ value_at w v' -∗
        store_at (write_entry s key (with_v_expiry w x')) p))%I.

Lemma found_hole s p key lk q :
  store_shape s →
  found s p key (Some (lk, q)) ⊢ ∃ l e v, ⌈q = Some l ∧ key_map s !! key = Some e⌉ ∗
    hole s p key l (type_of (e_v e)) (e_expires_at e) v ∗ value_at (e_v e) v.
Proof.
  iIntros (Hs) "(%l0 & %bs & %pre & %e & %post & %l & %next & %F & %H & Hl & HF & (%k & %v & Hn & Hk & Hv) & Hp & Hclose)".
  destruct H as (-> & -> & HF & Hc & Hpre & He). pose proof (shape_chain_cached s key Hs) as Hcached. rw Hc in Hcached.
  destruct (chain_split _ _ _ _ Hcached Hpre He) as (Hk & Hfind & _ & Hupd).
  assert (e_hash e = hash64 key) as Hh by (unfold matches in He; by apply andb_true_iff in He as [?%Z.eqb_eq _]).
  iExists l, e, v. iFrame "Hv". iSplit; [iPureIntro; split; [done|]; by rw key_map_find // Hc|].
  iExists k, next. rw Hh Hk. iFrame "Hn Hk". iIntros (w x' v') "Hn Hk Hv".
  iExists l0, bs. iFrame "Hl". iSplit; [done|]. iSplit; [iPureIntro; cbn; rw length_insert; apply Hs|].
  cbn [buckets write_entry]. fold (slot_of (st_size s) key). rw Hc Hupd. iApply ("Hclose" with "HF").
  iExists l, next. iFrame "Hp". iSplit; [done|]. iExists k, v'. cbn [with_v_expiry e_key e_hash e_v e_expires_at].
  rw Hh Hk. iFrame.
Qed.

(** Giving the entry back. *)
Lemma hole_close s p key l w x v :
  hole s p key l (type_of w) x v ⊢ value_at w v -∗ store_at (write_entry s key (with_v_expiry w x)) p.
Proof. iIntros "(%k & %next & Hl & Hk & Hclose) Hv". by iApply ("Hclose" with "Hl Hk Hv"). Qed.

Lemma write_same s key e : store_shape s → key_map s !! key = Some e →
  write_entry s key (with_v_expiry (e_v e) (e_expires_at e)) = s.
Proof.
  intros Hs Hk. rw key_map_find // in Hk. unfold write_entry. fold (slot_of (st_size s) key).
  pose proof (tbl_chain _ _ key (sh_tbl _ Hs)) as Hc. destruct s as [bs size count]. cbn in *. f_equal.
  rw (_ : chain_update key _ _ = bs !!! slot_of size key); [by apply list_insert_id|].
  clear Hc. revert Hk. generalize (bs !!! slot_of size key) as c. induction c as [|x c IH]; [done|]. cbn.
  destruct (streq (e_key x) key); [intros [= ->]; by destruct e|]. intros Hf. by rw (IH Hf).
Qed.

Lemma hole_same s p key l e v :
  store_shape s → key_map s !! key = Some e →
  hole s p key l (type_of (e_v e)) (e_expires_at e) v ⊢ value_at (e_v e) v -∗ store_at s p.
Proof. iIntros (Hs Hk) "Hh Hv". iDestruct (hole_close with "Hh Hv") as "H". by rw write_same. Qed.

(** Members of the entry. *)
Lemma wp_hole_entry s p key l t x v Φ :
  hole s p key l t x v ⊢ (∀ k next, hole s p key l t x v -∗ Φ (k, hash64 key, t, x, next, v)) -∗ wp (read (Some l) entry_of) Φ.
Proof.
  iIntros "(%k & %next & Hl & Hk & Hclose) HΦ". hread "Hl". iApply "HΦ". iExists k, next. iFrame.
Qed.

Lemma wp_hole_set s p key l t x v f t' x' v' Φ :
  (∀ k h next, f (B_entry k h t x next v) = Some (B_entry k h t' x' next v')) →
  hole s p key l t x v ⊢ (hole s p key l t' x' v' -∗ Φ tt) -∗ wp (modify (Some l) f) Φ.
Proof.
  iIntros (Hf) "(%k & %next & Hl & Hk & Hclose) HΦ". iApply (wp_modify with "Hl"); [apply Hf|]. iIntros "Hl".
  iApply "HΦ". iExists k, next. iFrame.
Qed.

Lemma wp_value_of s p key l t x v Φ :
  hole s p key l t x v ⊢ (hole s p key l t x v -∗ Φ v) -∗ wp (value_of (Some l)) Φ.
Proof.
  iIntros "Hh HΦ". unfold value_of. hbind. iApply (wp_hole_entry with "Hh"). iIntros (k next) "Hh". hret. by iApply "HΦ".
Qed.

(** ** Lookup and deletion *)

Lemma wp_found_entry s p key lk q Φ :
  store_shape s →
  found s p key (Some (lk, q)) ⊢
  (∀ k e next v, ⌈key_map s !! key = Some e⌉ -∗ found s p key (Some (lk, q)) -∗
     Φ (k, e_hash e, type_of (e_v e), e_expires_at e, next, v)) -∗
  wp (read q entry_of) Φ.
Proof.
  iIntros (Hs) "(%l0 & %bs & %pre & %e & %post & %l & %next & %F & %H & Hl & HF & (%k & %v & Hn & Hk & Hv) & Hp & Hclose) HΦ".
  destruct H as (-> & -> & HF & Hc & Hpre & He). pose proof (shape_chain_cached s key Hs) as Hcached. rw Hc in Hcached.
  destruct (chain_split _ _ _ _ Hcached Hpre He) as (_ & Hfind & _ & _). hread "Hn".
  iApply ("HΦ" $! k e next v with "[]"); [iPureIntro; by rw key_map_find // Hc|].
  iExists l0, bs, pre, e, post, l, next, F. by iFrame.
Qed.

(** What [lookup] returns: NULL with the store it leaves, or an entry in use. *)
Definition looked_up (s : Store) (p : ptr) (key : bytes) (now : Z) (r : ptr) : hProp :=
  match Store.lookup s key now with
  | (s', None) => ⌈r = None⌉ ∗ store_at s' p
  | (s', Some e) => ∃ l v, ⌈r = Some l ∧ s' = s ∧ key_map s !! key = Some e⌉ ∗
      hole s p key l (type_of (e_v e)) (e_expires_at e) v ∗ value_at (e_v e) v
  end%I.

Lemma lookup_find s key now e : store_shape s → key_map s !! key = Some e →
  Store.lookup s key now =
  if entry_is_expired e now
  then ({| buckets := <[slot_of (st_size s) key := chain_remove key (buckets s !!! slot_of (st_size s) key)]> (buckets s);
           st_size := st_size s; st_count := st_count s - 1 |}, None)
  else (s, Some e).
Proof.
  intros Hs Hk. unfold Store.lookup. fold (slot_of (st_size s) key). rw (lookup_loop_chain _ _ _ (shape_chain_cached s key Hs)).
  rw -key_map_find // Hk. by destruct (entry_is_expired e now).
Qed.

Lemma lookup_absent s key now : store_shape s → key_map s !! key = None → Store.lookup s key now = (s, None).
Proof.
  intros Hs Hk. unfold Store.lookup. fold (slot_of (st_size s) key). rw (lookup_loop_chain _ _ _ (shape_chain_cached s key Hs)).
  by rw -key_map_find // Hk.
Qed.

Lemma wp_lookup s p key now Φ :
  store_shape s → store_at s p ⊢ (∀ r, looked_up s p key now r -∗ Φ r) -∗ wp (lookup p key now) Φ.
Proof.
  iIntros (Hs) "Hs HΦ". unfold lookup. hbind. iApply (wp_find_entry with "Hs"); [done|]. iIntros (r) "Hr".
  destruct r as [[lk q]|].
  - hbind. iApply (wp_found_entry with "Hr"); [done|]. iIntros (k e next v Hk) "Hr".
    assert (negb (e_expires_at e =? 0)%Z && is_expired (e_expires_at e) now = entry_is_expired e now) as ->
      by (unfold is_expired, entry_is_expired; by destruct (e_expires_at e =? 0)%Z).
    destruct (entry_is_expired e now) eqn:Hx.
    + hbind. iApply (wp_unlink with "Hr"); [done|]. iIntros "Hs". hret. iApply "HΦ". unfold looked_up.
      rw (lookup_find _ _ _ _ Hs Hk) Hx. by iFrame.
    + hret. iApply "HΦ". unfold looked_up. rw (lookup_find _ _ _ _ Hs Hk) Hx.
      iDestruct (found_hole with "Hr") as (l e' v' [-> Hk']) "[Hh Hv]"; [done|].
      rw Hk in Hk'. injection Hk' as <-. iExists l, v'. by iFrame.
  - iDestruct "Hr" as (Hk) "Hs". hret. iApply "HΦ". unfold looked_up. rw lookup_absent //. by iFrame.
Qed.

Lemma wp_store_del s p key now Φ :
  store_shape s →
  store_at s p ⊢ (store_at (Store.store_del s key now).1 p -∗ Φ (Store.store_del s key now).2) -∗ wp (store_del p key now) Φ.
Proof.
  iIntros (Hs) "Hs HΦ". unfold store_del, Store.store_del. fold (slot_of (st_size s) key).
  rw (del_loop_chain _ _ _ (shape_chain_cached s key Hs)). rw -key_map_find //.
  hbind. iApply (wp_find_entry with "Hs"); [done|]. iIntros (r) "Hr". destruct r as [[lk q]|].
  - hbind. iApply (wp_found_entry with "Hr"); [done|]. iIntros (k e next v Hk) "Hr". rw Hk.
    hbind. iApply (wp_unlink with "Hr"); [done|]. iIntros "Hs". hret. by iApply "HΦ".
  - iDestruct "Hr" as (Hk) "Hs". rw Hk. hret. by iApply "HΦ".
Qed.

(** ** New entries *)

Lemma wp_entry_slot size e next l Φ :
  entry_node e next l ⊢ (entry_node e next l -∗ Φ (mask_slot size (e_hash e))) -∗
  wp (entry_slot size (Some l)) Φ.
Proof. iIntros "(%k & %v & Hn & Hk & Hv) HΦ". unfold entry_slot. hread "Hn". hret. iApply "HΦ". iExists k, v. iFrame. Qed.

Lemma wp_store_grow s p Φ :
  store_shape s → store_at s p ⊢ (store_at (Store.store_grow s) p -∗ Φ tt) -∗ wp (store_grow p) Φ.
Proof.
  iIntros (Hs) "(%l & %bs & -> & %Hlen & Hl & Ht) HΦ". unfold store_grow. hread "Hl". halloc (nb) "Hnb".
  destruct (sh_size _ Hs) as [j Hj]. assert (st_size s * 2 = 2 ^ S j) as Hn by (rw Hj; cbn; lia).
  hbind. iApply (wp_move_chains entry_node B_buckets (entry_slot (st_size s * 2)) (λ e, mask_slot (st_size s * 2) (e_hash e))
    (wp_entry_slot (st_size s * 2)) _ _ _ (replicate (st_size s * 2) []) with "Ht [Hnb]").
  - by rw Hlen.
  - intros e. rw length_replicate Hn. apply mask_slot_lt.
  - iApply (table_empty with "Hnb").
  - iIntros (ps) "Hbs Ht". hfree "Hbs". hset "Hl". iApply "HΦ". iExists l, nb. iFrame "Hl".
    iSplit; [done|]. iSplit; [|iExact "Ht"]. iPureIntro. apply (store_grow_spec s Hs).
Qed.

Lemma wp_create_entry s p key t v0 Φ :
  store_shape s →
  store_at s p ⊢ (∀ l, hole (Store.create_entry s key v0) p key l t 0 None -∗ Φ (Some l)) -∗ wp (create_entry p key t) Φ.
Proof.
  iIntros (Hs) "Hs HΦ". unfold create_entry.
  iAssert (∃ l bs, ⌈p = Some l⌉ ∗ l ↦ B_store bs (st_size s) (st_count s) ∗
    (l ↦ B_store bs (st_size s) (st_count s) -∗ store_at s p))%I with "[Hs]" as (l0 bs0 ->) "[Hl Hs]".
  { iDestruct "Hs" as (l bs -> Hlen) "[Hl Ht]". iExists l, (Some bs). iFrame "Hl". iSplit; [done|]. iIntros "Hl". iExists l, bs. by iFrame. }
  hread "Hl". iDestruct ("Hs" with "Hl") as "Hs". hbind. clear bs0.
  iAssert (wp (if st_size s <=? st_count s then store_grow (Some l0) else mret tt)
    (λ _, store_at (grown s) (Some l0)))%I with "[Hs]" as "Hg".
  { unfold grown. destruct (st_size s <=? st_count s); [|by hret]. iApply (wp_store_grow with "Hs"); [done|]. by iIntros. }
  iApply (wp_wand with "Hg"). iIntros ([]) "(%l & %bs & %Hl0 & %Hlen & Hl & Ht)". injection Hl0 as <-.
  destruct (grown_spec s Hs) as (Hg & _). halloc (e) "He". hbind. iApply wp_xstrdup. iIntros (k) "Hk". hset "He". hread "Hl".
  fold (slot_of (st_size (grown s)) key). pose proof (tbl_chain _ _ key (sh_tbl _ Hg)) as Hc.
  iDestruct (table_acc with "Ht") as (q ps Hlk) "(Hbs & Hc & Hclose)"; [exact Hc|].
  hbind. iApply (proj1 Hlk with "Hbs"). iIntros "Hbs". hset "He". hbind. iApply (proj2 Hlk with "Hbs"). iIntros "Hbs".
  hset "Hl". hret. iApply "HΦ". iExists k, q. iFrame "He Hk". iIntros (w x v') "He Hk Hv".
  unfold write_entry, Store.create_entry. fold (grown s). cbn [st_size st_count buckets e_hash].
  iExists l0, bs. iFrame "Hl". iSplit; [done|]. iSplit; [iPureIntro; cbn; by rw !length_insert|]. cbn [buckets].
  fold (slot_of (st_size (grown s)) key). rw (list_lookup_total_insert_eq _ _ _ (lookup_lt_Some _ _ _ Hc)). rw list_insert_insert_eq.
  cbn [chain_update]. change (ekey _) with key at 1. rw streq_refl. iApply ("Hclose" with "Hbs").
  iExists e, q. iFrame "Hc". iSplit; [done|]. iExists k, v'. cbn. iFrame.
Qed.

(** ** Keys *)

(** A key that is not found is not in the store that is left. *)
Lemma lookup_none s key now s' :
  store_wf s → Store.lookup s key now = (s', None) → store_wf s' ∧ key_map s' !! key = None.
Proof.
  intros Hwf Hl. pose proof (lookup_spec s key now Hwf) as Hs. destruct (key_map s !! key) as [e|] eqn:Hk.
  - destruct (entry_is_expired e now); [|congruence]. destruct Hs as (s'' & Hl' & Hwf' & Hm). rw Hl in Hl'. injection Hl' as <-.
    split; [done|]. rw Hm. apply lookup_delete_eq.
  - rw Hl in Hs. by injection Hs as ->.
Qed.

(** A function that only looks at the entry. *)
Lemma wp_peek {A} s p key now (a : A) (f : StoreEntry → A) (g : StoreType → Z → A) Φ :
  store_shape s → (∀ e, f e = g (type_of (e_v e)) (e_expires_at e)) →
  store_at s p ⊢
  (store_at (Store.lookup s key now).1 p -∗ Φ (match (Store.lookup s key now).2 with Some e => f e | None => a end)) -∗
  wp (e ← lookup p key now;
      match e with
      | None => mret a
      | Some _ => r ← read e entry_of; let '(_, _, t, x, _, _) := r in mret (g t x)
      end) Φ.
Proof.
  iIntros (Hs Hf) "Hs HΦ". hbind. iApply (wp_lookup with "Hs"); [done|]. iIntros (r) "Hr". unfold looked_up.
  destruct (Store.lookup s key now) as [s' [e|]]; cbn [fst snd].
  - iDestruct "Hr" as (l v (-> & -> & Hk)) "[Hh Hv]". hbind. iApply (wp_hole_entry with "Hh"). iIntros (k next) "Hh".
    hret. rw Hf. iApply "HΦ". by iApply (hole_same with "Hh Hv").
  - iDestruct "Hr" as "[-> Hs]". hret. by iApply "HΦ".
Qed.

Lemma wp_store_exists s p key now Φ :
  store_shape s →
  store_at s p ⊢ (store_at (Store.store_exists s key now).1 p -∗ Φ (Store.store_exists s key now).2) -∗
  wp (store_exists p key now) Φ.
Proof.
  iIntros (Hs) "Hs HΦ". unfold store_exists, Store.store_exists. hbind. iApply (wp_lookup with "Hs"); [done|].
  iIntros (r) "Hr". unfold looked_up. destruct (Store.lookup s key now) as [s' [e|]]; cbn [fst snd].
  - iDestruct "Hr" as (l v (-> & -> & Hk)) "[Hh Hv]". hret. rw !bool_decide_eq_true_2 //. iApply "HΦ".
    by iApply (hole_same with "Hh Hv").
  - iDestruct "Hr" as "[-> Hs]". hret. by iApply "HΦ".
Qed.

Lemma wp_store_type s p key now Φ :
  store_shape s →
  store_at s p ⊢ (store_at (Store.store_type s key now).1 p -∗ Φ (Store.store_type s key now).2) -∗
  wp (store_type p key now) Φ.
Proof.
  iIntros (Hs) "Hs HΦ". iApply (wp_peek s p key now STORE_TYPE_NONE (λ e, type_of (e_v e)) (λ t _, t) with "Hs"); [done..|].
  unfold Store.store_type. by destruct (Store.lookup s key now).
Qed.

Lemma wp_store_get_expiry s p key now Φ :
  store_shape s →
  store_at s p ⊢ (store_at (Store.store_get_expiry s key now).1 p -∗ Φ (Store.store_get_expiry s key now).2) -∗
  wp (store_get_expiry p key now) Φ.
Proof.
  iIntros (Hs) "Hs HΦ".
  iApply (wp_peek s p key now (-2)%Z (λ e, if e_expires_at e =? 0 then -1 else e_expires_at e)%Z
    (λ _ x, if x =? 0 then -1 else x)%Z with "Hs"); [done..|].
  unfold Store.store_get_expiry. by destruct (Store.lookup s key now).
Qed.

(** ** Strings *)

Lemma wp_store_set s p key value x now Φ :
  store_wf s →
  store_at s p ⊢ (store_at (Store.store_set s key value x now) p -∗ Φ tt) -∗ wp (store_set p key value x now) Φ.
Proof.
  iIntros (Hwf) "Hs HΦ". unfold store_set, Store.store_set. hbind. iApply (wp_lookup with "Hs"); [apply Hwf|].
  iIntros (r) "Hr". unfold looked_up. destruct (Store.lookup s key now) as [s' [e|]] eqn:Hl; cbv beta iota.
  - iDestruct "Hr" as (l v (-> & -> & Hk)) "[Hh Hv]". hbind. hbind.
    iDestruct "Hh" as (k next) "(Hl & Hk & Hclose)". iApply (wp_clear_value with "Hl Hv"). iIntros "Hl". hset "Hl". hret.
    hbind. iApply wp_xstrdup. iIntros (q) "Hv". hset "Hl". hset "Hl". iApply "HΦ".
    by iApply ("Hclose" $! (V_str value) with "Hl Hk Hv").
  - iDestruct "Hr" as "[-> Hs]". destruct (lookup_none _ _ _ _ Hwf Hl) as [[Hs' _] Hk]. hbind.
    iApply (wp_create_entry with "Hs"); [done|]. iIntros (l) "Hh".
    hbind. iApply wp_xstrdup. iIntros (q) "Hv". hbind. iApply (wp_hole_set with "Hh"); [done|]. iIntros "Hh".
    iApply (wp_hole_set with "Hh"); [done|]. iIntros "Hh". iApply "HΦ". by iApply (hole_close _ _ _ _ (V_str value) with "Hh Hv").
Qed.

(** ** Values of one type *)

(** A type of values: its constructor, its test, and its tag. *)
Class Kind {A} (mkv : A → Value) (proj : Value → option A) (t : StoreType) := {
  kind_proj w a : proj w = Some a → w = mkv a;
  kind_type a : type_of (mkv a) = t;
  kind_other w : proj w = None → type_of w ≠ t;
}.

#[export] Instance kind_str : Kind V_str as_str STORE_TYPE_STRING.
Proof. split; [|done|]; by intros [] *; cbn; intros; simplify_eq. Qed.
#[export] Instance kind_list : Kind V_list as_list STORE_TYPE_LIST.
Proof. split; [|done|]; by intros [] *; cbn; intros; simplify_eq. Qed.
#[export] Instance kind_hash : Kind V_hash as_hash STORE_TYPE_HASH.
Proof. split; [|done|]; by intros [] *; cbn; intros; simplify_eq. Qed.
#[export] Instance kind_zset : Kind V_zset as_zset STORE_TYPE_ZSET.
Proof. split; [|done|]; by intros [] *; cbn; intros; simplify_eq. Qed.
#[export] Instance kind_stream : Kind V_stream as_stream STORE_TYPE_STREAM.
Proof. split; [|done|]; by intros [] *; cbn; intros; simplify_eq. Qed.

Section kind.
Context {A : Type} (mkv : A → Value) (proj : Value → option A) (t : StoreType) `{!Kind mkv proj t}.

(** The value of a key in use, with the expiry of its entry. *)
Definition in_use (s : Store) (p : ptr) (key : bytes) (l : loc) (a : A) (v : ptr) : hProp :=
  (∃ e, ⌈store_shape s ∧ key_map s !! key = Some e ∧ e_v e = mkv a⌉ ∗ hole s p key l t (e_expires_at e) v)%I.

Lemma write_with_v s key e w : store_shape s → key_map s !! key = Some e →
  write_entry s key (with_v w) = write_entry s key (with_v_expiry w (e_expires_at e)).
Proof.
  intros Hs Hk. rw key_map_find // in Hk. unfold write_entry. fold (slot_of (st_size s) key). f_equal. f_equal.
  revert Hk. generalize (buckets s !!! slot_of (st_size s) key) as c. induction c as [|x c IH]; [done|]. cbn.
  destruct (streq (e_key x) key); [by intros [= ->]|]. intros Hf. by rw (IH Hf).
Qed.

Lemma in_use_close s p key l a a' v v' :
  in_use s p key l a v ⊢ ⌈v' = v⌉ -∗ value_at (mkv a') v' -∗ store_at (write_entry s key (with_v (mkv a'))) p.
Proof.
  iIntros "(%e & (%Hs & %Hk & %He) & Hh) -> Hv". rw (write_with_v _ _ _ _ Hs Hk). iApply (hole_close with "[Hh] Hv"). by rw kind_type.
Qed.

Lemma in_use_same s p key l a v : in_use s p key l a v ⊢ value_at (mkv a) v -∗ store_at s p.
Proof.
  iIntros "(%e & (%Hs & %Hk & %He) & Hh) Hv". iApply (hole_same with "[Hh]"); [done..| |by rw He]. by rw He kind_type.
Qed.

Lemma wp_in_use_value s p key l a v Φ :
  in_use s p key l a v ⊢ (in_use s p key l a v -∗ Φ v) -∗ wp (value_of (Some l)) Φ.
Proof.
  iIntros "(%e & %H & Hh) HΦ". iApply (wp_value_of with "Hh"). iIntros "Hh". iApply "HΦ". iExists e. by iFrame.
Qed.

(** What [lookup_typed] returns. *)
Definition typed_up (s : Store) (p : ptr) (key : bytes) (now : Z) (r : StoreStatus + ptr) : hProp :=
  match Store.lookup_typed s key proj now with
  | (s', inl st) => ⌈r = inl st⌉ ∗ store_at s' p
  | (s', inr a) => ∃ l v, ⌈r = inr (Some l) ∧ s' = s⌉ ∗ in_use s p key l a v ∗ value_at (mkv a) v
  end%I.

Lemma wp_lookup_typed s p key now Φ :
  store_shape s → store_at s p ⊢ (∀ r, typed_up s p key now r -∗ Φ r) -∗ wp (lookup_typed p key t now) Φ.
Proof.
  iIntros (Hs) "Hs HΦ". unfold lookup_typed. hbind. iApply (wp_lookup with "Hs"); [done|]. iIntros (r) "Hr".
  unfold looked_up, typed_up, Store.lookup_typed. destruct (Store.lookup s key now) as [s' [e|]]; cbv beta iota.
  - iDestruct "Hr" as (l v (-> & -> & Hk)) "[Hh Hv]". hbind. iApply (wp_hole_entry with "Hh"). iIntros (k next) "Hh".
    destruct (proj (e_v e)) as [a|] eqn:Hp.
    + pose proof (kind_proj _ _ Hp) as He. assert (type_of (e_v e) = t) as Ht by by rw He kind_type.
      rw (decide_True _ _ Ht). hret. iApply "HΦ". iExists l, v.
      iSplit; [done|]. rw He kind_type. iFrame "Hv". iExists e. by iFrame.
    + rw (decide_False _ _ (kind_other _ Hp)). hret. iApply "HΦ". iSplit; [done|]. by iApply (hole_same with "Hh Hv").
  - iDestruct "Hr" as "[-> Hs]". hret. iApply "HΦ". by iFrame.
Qed.

(** The value to work on: that of the key, or a new one. *)
Lemma wp_value_or_new s p key now a0 zeroed r Φ :
  store_wf s → (∀ l, l ↦ zeroed ⊢ value_at (mkv a0) (Some l)) → r ≠ inl STORE_WRONG_TYPE →
  typed_up s p key now r ⊢
  (∀ l v, let '(s', st) := Store.lookup_typed s key proj now in
     let '(s1, a) := match st with inr a => (s', a) | inl _ => (Store.create_entry s' key (mkv a0), a0) end in
     ⌈value_wf (mkv a) ∨ a = a0⌉ -∗ in_use s1 p key l a v -∗ value_at (mkv a) v -∗ Φ v) -∗
  wp (value_or_new p key t zeroed r) Φ.
Proof.
  iIntros (Hwf Hz Hr) "Hr HΦ". unfold typed_up. destruct (Store.lookup_typed s key proj now) as [s' [st|a]] eqn:Hl.
  - iDestruct "Hr" as "[-> Hs]". unfold Store.lookup_typed in Hl.
    destruct (Store.lookup s key now) as [s2 [e|]] eqn:Hlk; [by destruct (proj (e_v e)); simplify_eq|].
    injection Hl as -> <-. destruct (lookup_none _ _ _ _ Hwf Hlk) as [[Hs' _] Hk]. cbn [value_or_new].
    hbind. iApply (wp_create_entry _ _ _ _ (mkv a0) with "Hs"); [done|]. iIntros (l) "Hh". halloc (lv) "Hv". hbind.
    iApply (wp_hole_set with "Hh"); [done|]. iIntros "Hh". hret.
    iApply ("HΦ" $! l with "[] [Hh]"); [by iPureIntro; right| |by iApply Hz].
    destruct (create_shape s' key (mkv a0) Hs' Hk) as [H1 H2].
    iExists {| e_key := key; e_hash := hash64 key; e_expires_at := 0; e_v := mkv a0 |}. iFrame "Hh". iPureIntro.
    split_and!; [done|by rw H2 lookup_insert_eq|done].
  - iDestruct "Hr" as (l v [-> ->]) "[Hu Hv]". cbn [value_or_new].
    iAssert ⌜value_wf (mkv a)⌝%I as %Ha.
    { iDestruct "Hu" as (e (Hs & Hk & He)) "Hh". iPureIntro. rw -He. by apply (proj2 Hwf _ _ Hk). }
    iApply (wp_in_use_value with "Hu"). iIntros "Hu". iApply ("HΦ" with "[] Hu Hv"). by iPureIntro; left.
Qed.

End kind.
