(* ===== verification/ValueHeap.v ===== *)
(** * Lists, hashes and streams on a heap

    What the pointer manipulations of [store.c] do to the memory of a list, of
    a hash and of a stream: the same as the operations of [DList], [FieldHash]
    and [Stream] do to the value. *)

From iris.proofmode Require Import proofmode.
From S2P Require Import Prelude CLib Util Mem SepLogic Chain FieldHash DList Dbl ZSet Stream Store StoreHeap HeapLists StoreRep.
Import Mem Util FieldHash DList Dbl ZSet Stream Store StoreHeap.

(** ** Lists *)

Lemma wp_list_push xs p v b Φ :
  list_at xs p ⊢ (list_at (push_list xs v b) p -∗ Φ (S (length xs))) -∗ wp (list_push p v b) Φ.
Proof.
  iIntros "(%l & %head & %tail & -> & Hl & Hs) HΦ". unfold list_push. halloc (n) "Hn". hbind. iApply wp_xstrdup.
  iIntros (q) "Hq". hset "Hn". hread "Hl". destruct b; cbn [push_list].
  - hbind. hset "Hn". destruct xs as [|x xs]; cbn [dseg].
    + iDestruct "Hs" as "[-> ->]". hset "Hl". hset "Hl". hset "Hl". hread "Hl". hret. iApply "HΦ".
      iExists l, (Some n), (Some n). iFrame "Hl". iSplit; [done|]. iExists n, q, None. by iFrame.
    + iDestruct "Hs" as (h w r ->) "(Hh & Hw & Hs)". hset "Hh". hset "Hl". hset "Hl". hread "Hl". hret. iApply "HΦ".
      iExists l, (Some n), tail. iFrame "Hl". iSplit; [done|]. iExists n, q, (Some h). iFrame "Hn Hq". iSplit; [done|].
      iExists h, w, r. by iFrame.
  - hbind. hset "Hn". destruct xs as [|x xs _] using rev_ind.
    + iDestruct "Hs" as "[-> ->]". hset "Hl". hset "Hl". hset "Hl". hread "Hl". hret. iApply "HΦ".
      iExists l, (Some n), (Some n). iFrame "Hl". iSplit; [done|]. iExists n, q, None. by iFrame.
    + rw dseg_snoc. iDestruct "Hs" as (t w before ->) "(Hs & Ht & Hw)". hset "Ht". hset "Hl". hset "Hl". hread "Hl". hret.
      iApply "HΦ". iExists l, head, (Some n). rw (length_app (xs ++ [x]) [v]) Nat.add_1_r. iFrame "Hl". iSplit; [done|].
      rw dseg_snoc. iExists n, q, (Some t). iFrame "Hn Hq". iSplit; [done|]. rw dseg_snoc. iExists t, w, before. by iFrame.
Qed.

Lemma wp_list_pop xs p b Φ :
  list_at xs p ⊢
  (∀ r, match pop_list xs b with
        | None => ⌈r = None⌉ ∗ list_at xs p
        | Some (x, xs') => ∃ q, ⌈r = Some q⌉ ∗ str x q ∗ list_at xs' p
        end -∗ Φ r) -∗ wp (list_pop p b) Φ.
Proof.
  iIntros "(%l & %head & %tail & -> & Hl & Hs) HΦ". unfold list_pop. hread "Hl". destruct b; cbn [pop_list].
  - destruct xs as [|x xs].
    + iDestruct "Hs" as "[-> ->]". hret. iApply "HΦ". iSplit; [done|]. iExists l, None, None. by iFrame.
    + iDestruct "Hs" as (h w r ->) "(Hh & Hw & Hs)". hread "Hh". hbind. hset "Hl". destruct xs as [|y xs].
      * iDestruct "Hs" as "[-> ->]". hset "Hl". hset "Hl". hfree "Hh". hret. iApply "HΦ". iExists w. iFrame "Hw". iSplit; [done|].
        iExists l, None, None. by iFrame.
      * iDestruct "Hs" as (h' w' r' ->) "(Hh' & Hw' & Hs)". hset "Hh'". hset "Hl". hfree "Hh". hret. iApply "HΦ".
        iExists w. iFrame "Hw". iSplit; [done|]. iExists l, (Some h'), tail. iFrame "Hl". iSplit; [done|]. iExists h', w', r'. by iFrame.
  - destruct xs as [|x xs _] using rev_ind.
    + iDestruct "Hs" as "[-> ->]". hret. iApply "HΦ". iSplit; [done|]. iExists l, None, None. by iFrame.
    + rw last_snoc removelast_last dseg_snoc length_app Nat.add_1_r.
      iDestruct "Hs" as (t w before ->) "(Hs & Ht & Hw)". hread "Ht". hbind. hset "Hl".
      destruct xs as [|y xs _] using rev_ind.
      * iDestruct "Hs" as "[-> ->]". hset "Hl". hset "Hl". hfree "Ht". hret. iApply "HΦ". iExists w. iFrame "Hw". iSplit; [done|].
        iExists l, None, None. by iFrame.
      * rw dseg_snoc. iDestruct "Hs" as (t' w' before' ->) "(Hs & Ht' & Hw')". hset "Ht'". hset "Hl". hfree "Ht". hret. iApply "HΦ".
        iExists w. iFrame "Hw". iSplit; [done|]. iExists l, head, (Some t'). iFrame "Hl". iSplit; [done|].
        rw dseg_snoc. iExists t', w', before'. by iFrame.
Qed.

(** ** Hashes *)

Definition field_is (field : bytes) (x : HashField) : bool := streq (hf_field x) field.

Lemma wp_field_matches field x next l Φ :
  hash_node x next l ⊢ emp -∗ (hash_node x next l -∗ emp -∗ Φ (field_is field x)) -∗ wp (field_matches field (Some l)) Φ.
Proof.
  iIntros "(%f & %v & Hl & Hf & Hv) _ HΦ". unfold field_matches. hread "Hl". hbind. iApply (wp_str_at with "Hf"). iIntros "Hf".
  hret. iApply ("HΦ" with "[-] [//]"). iExists f, v. iFrame.
Qed.

Lemma field_split (pre post : list HashField) x field :
  Forall (λ y, field_is field y = false) pre → field_is field x = true →
  chain_find field (pre ++ x :: post) = Some x ∧ chain_remove field (pre ++ x :: post) = pre ++ post ∧
  ∀ f, chain_update field f (pre ++ x :: post) = pre ++ f x :: post.
Proof.
  unfold field_is. intros Hpre Hx. induction pre as [|y pre IH]; cbn [app chain_find chain_remove chain_update].
  - change (ekey x) with (hf_field x). by rw Hx.
  - apply Forall_cons in Hpre as [Hy Hpre]. change (ekey y) with (hf_field y). rw Hy. destruct (IH Hpre) as (H1 & H2 & H3).
    split_and!; [done|by rw H2|]. intros f. by rw H3.
Qed.

Lemma field_absent (c : list HashField) field : Forall (λ y, field_is field y = false) c → chain_find field c = None.
Proof.
  unfold field_is. induction 1 as [|y c Hy Hc IH]; [done|]. cbn [chain_find]. change (ekey y) with (hf_field y). by rw Hy.
Qed.

(** How the search for a field ends. *)
Definition field_found (h : Hash) (p : ptr) (field : bytes) (r : option (link * ptr)) : hProp :=
  match r with
  | None => ⌈chain_find field (hash_buckets h !!! hash_slot field) = None⌉ ∗ hash_at h p
  | Some (lk, q) => ∃ l0 pre x post l next F,
      ⌈p = Some l0 ∧ q = Some l ∧ owns_link lk F ∧ length (hash_buckets h) = HASH_NUM_BUCKETS ∧
        hash_buckets h !!! hash_slot field = pre ++ x :: post ∧
        Forall (λ y, field_is field y = false) pre ∧ field_is field x = true⌉ ∗
      F (Some l) ∗ hash_node x next l ∗ chain hash_node post next ∗
      (∀ q' ys, F q' -∗ chain hash_node ys q' -∗
         table hash_node (λ ps, B_hash ps (hash_len h)) (<[hash_slot field := pre ++ ys]> (hash_buckets h)) l0)
  end%I.

Lemma hash_chain h field : length (hash_buckets h) = HASH_NUM_BUCKETS →
  hash_buckets h !! hash_slot field = Some (hash_buckets h !!! hash_slot field).
Proof. intros Hlen. apply list_lookup_lookup_total_lt. rw Hlen. apply hash_slot_lt. Qed.

Lemma wp_find_field h p field Φ :
  hash_at h p ⊢ (∀ r, field_found h p field r -∗ Φ r) -∗
  wp (walk (field_matches field) (L_slot p (hash_key field HASH_NUM_BUCKETS))) Φ.
Proof.
  iIntros "(%l0 & %ps & -> & %Hlen & Hl & Hcs) HΦ". fold (hash_slot field). pose proof (hash_chain h field Hlen) as Hc.
  iDestruct (table_acc hash_node (λ ps, B_hash ps (hash_len h)) _ l0 with "[Hl Hcs]") as (q ps' Hlk) "(Hl & Hc & Hclose)";
    [exact Hc|iExists ps; by iFrame|].
  iApply (wp_walk hash_node (field_matches field) (field_is field) emp%I (wp_field_matches field) _ _ _ _ _ Hlk
    with "Hl Hc [//]"). iIntros (r) "Hr _". iApply "HΦ". destruct r as [[lk e]|]; cbn [walked field_found].
  - iDestruct "Hr" as (pre x post l next F (Heq & Hpre & He & -> & HF)) "(HF & Hn & Hp & Hw)".
    iExists l0, pre, x, post, l, next, F. iFrame "HF Hn Hp". iSplit; [done|]. iIntros (q' ys) "HF Hc".
    iDestruct ("Hw" with "HF Hc") as (q0) "[Hl Hc]". by iApply ("Hclose" with "Hl Hc").
  - iDestruct "Hr" as (Hall) "[Hl Hc]". iSplit; [iPureIntro; by apply field_absent|].
    iDestruct ("Hclose" with "Hl Hc") as (ps2) "[Hl Hcs]". rw (list_insert_id _ _ _ Hc). iExists l0, ps2. by iFrame.
Qed.

Lemma hash_table h p l0 : p = Some l0 → length (hash_buckets h) = HASH_NUM_BUCKETS →
  table hash_node (λ ps, B_hash ps (hash_len h)) (hash_buckets h) l0 ⊢ hash_at h p.
Proof. iIntros (-> Hlen) "(%ps & Hl & Hcs)". iExists l0, ps. by iFrame. Qed.

Lemma wp_hash_put h p field value Φ :
  hash_at h p ⊢ (hash_at (FieldHash.hash_put h field value).1 p -∗ Φ (FieldHash.hash_put h field value).2) -∗
  wp (hash_put p field value) Φ.
Proof.
  iIntros "Hh HΦ". unfold hash_put, FieldHash.hash_put. rw hset_loop_chain. hbind. iApply (wp_find_field with "Hh").
  iIntros (r) "Hr". destruct r as [[lk q]|].
  - iDestruct "Hr" as (l0 pre x post l next F (-> & -> & HF & Hlen & Hc & Hpre & Hx)) "(HF & (%f & %v & Hn & Hf & Hv) & Hp & Hclose)".
    destruct (field_split pre post x field Hpre Hx) as (Hfind & _ & Hupd). rw Hc Hfind Hupd.
    hread "Hn". hbind. iApply (wp_free_str with "Hv"). hbind. iApply wp_xstrdup. iIntros (v') "Hv". hset "Hn". hret.
    iApply "HΦ". iApply (hash_table _ _ l0); [done|cbn; by rw length_insert|]. iApply ("Hclose" with "HF").
    iExists l, next. iFrame "Hp". iSplit; [done|]. iExists f, v'. iFrame.
  - iDestruct "Hr" as (Hfind) "(%l0 & %ps & -> & %Hlen & Hl & Hcs)". rw Hfind. halloc (n) "Hn".
    hbind. iApply wp_xstrdup. iIntros (f) "Hf". hbind. iApply wp_xstrdup. iIntros (v) "Hv". hset "Hn".
    fold (hash_slot field). pose proof (hash_chain h field Hlen) as Hc.
    iDestruct (table_acc hash_node (λ ps, B_hash ps (hash_len h)) _ l0 with "[Hl Hcs]") as (q ps' Hlk) "(Hl & Hc & Hclose)";
      [exact Hc|iExists ps; by iFrame|].
    hbind. iApply (proj1 Hlk with "Hl"). iIntros "Hl". hset "Hn". hbind. iApply (proj2 Hlk with "Hl"). iIntros "Hl".
    iDestruct ("Hclose" $! (Some n) ({| hf_field := field; hf_value := value |} :: hash_buckets h !!! hash_slot field)
      with "Hl [Hn Hf Hv Hc]") as (ps2) "[Hl Hcs]".
    { iExists n, q. iFrame "Hc". iSplit; [done|]. iExists f, v. iFrame. }
    hset "Hl". hret. iApply "HΦ". iExists l0, ps2. cbn. rw length_insert. by iFrame.
Qed.

Lemma wp_hash_remove h p field Φ :
  hash_at h p ⊢ (hash_at (hash_del h field).1 p -∗ Φ (hash_del h field).2) -∗ wp (hash_remove p field) Φ.
Proof.
  iIntros "Hh HΦ". unfold hash_remove, hash_del. rw hdel_loop_chain. hbind. iApply (wp_find_field with "Hh").
  iIntros (r) "Hr". destruct r as [[lk q]|].
  - iDestruct "Hr" as (l0 pre x post l next F (-> & -> & HF & Hlen & Hc & Hpre & Hx)) "(HF & (%f & %v & Hn & Hf & Hv) & Hp & Hclose)".
    destruct (field_split pre post x field Hpre Hx) as (Hfind & Hrm & _). rw Hc Hfind Hrm.
    hread "Hn". hbind. iApply (proj2 HF with "HF"). iIntros "HF". hbind. iApply (wp_free_str with "Hf").
    hbind. iApply (wp_free_str with "Hv"). hfree "Hn". iDestruct ("Hclose" with "HF Hp") as (ps) "[Hl Hcs]". hset "Hl". hret.
    iApply "HΦ". iExists l0, ps. cbn. rw length_insert Nat.sub_1_r. by iFrame.
  - iDestruct "Hr" as (Hfind) "Hh". rw Hfind. hret. by iApply "HΦ".
Qed.

(** The value of a field, which stays where it is. *)
Lemma wp_hash_get h p field Φ :
  hash_at h p ⊢
  (∀ r, match hash_get h field with
        | None => ⌈r = None⌉ ∗ hash_at h p
        | Some v => ∃ lk q w, ⌈r = Some (lk, q)⌉ ∗ (∃ l f next, ⌈q = Some l⌉ ∗ l ↦ B_hash_field f w next ∗ str v w ∗
            (l ↦ B_hash_field f w next -∗ str v w -∗ hash_at h p))
        end -∗ Φ r) -∗
  wp (walk (field_matches field) (L_slot p (hash_key field HASH_NUM_BUCKETS))) Φ.
Proof.
  iIntros "Hh HΦ". unfold hash_get. rw hget_loop_chain. iApply (wp_find_field with "Hh").
  iIntros (r) "Hr". iApply "HΦ". destruct r as [[lk q]|].
  - iDestruct "Hr" as (l0 pre x post l next F (-> & -> & HF & Hlen & Hc & Hpre & Hx)) "(HF & (%f & %v & Hn & Hf & Hv) & Hp & Hclose)".
    destruct (field_split pre post x field Hpre Hx) as (Hfind & _ & _). rw Hc Hfind. cbn [fmap option_fmap option_map].
    iExists lk, (Some l), v. iSplit; [done|]. iExists l, f, next. iFrame "Hn Hv". iSplit; [done|]. iIntros "Hn Hv".
    iApply (hash_table _ _ l0); [done..|]. iDestruct ("Hclose" $! (Some l) (x :: post) with "HF [Hn Hf Hv Hp]") as "Ht".
    { iExists l, next. iFrame "Hp". iSplit; [done|]. iExists f, v. iFrame. }
    rw -Hc list_insert_id //. by apply hash_chain.
  - iDestruct "Hr" as (Hfind) "Hh". rw Hfind. by iFrame.
Qed.

(** ** Streams *)

Lemma wp_append_fields fs (tail : ptr → Mem ()) (L : ptr → hProp) Φ :
  (∀ q Φ, L None ⊢ (L q -∗ Φ tt) -∗ wp (tail q) Φ) →
  L None ⊢ (∀ q, L q -∗ chain field_node fs q -∗ Φ tt) -∗ wp (append_fields fs tail) Φ.
Proof.
  revert tail L Φ. induction fs as [|[f v] fs IH]; iIntros (tail L Φ Htail) "HL HΦ"; cbn [append_fields].
  - hret. by iApply ("HΦ" with "HL").
  - halloc (n) "Hn". hbind. iApply wp_xstrdup. iIntros (pf) "Hf". hbind. iApply wp_xstrdup. iIntros (pv) "Hv". hset "Hn".
    hbind. iApply (Htail with "HL"). iIntros "HL".
    iApply (IH (λ p, modify (Some n) (with_next p)) (λ q, field_node (f, v) q n) with "[Hn Hf Hv]").
    + iIntros (q Ψ) "Hn HΨ". by iApply (wp_set_next with "Hn").
    + iExists pf, pv. iFrame.
    + iIntros (q) "Hn Hc". iApply ("HΦ" with "HL"). iExists n, q. by iFrame.
Qed.

Lemma wp_stream_append x p id fs Φ :
  stream_at x p ⊢ (stream_at (Stream.stream_append x id fs) p -∗ Φ tt) -∗ wp (stream_append p id fs) Φ.
Proof.
  iIntros "(%l & %head & %tail & -> & Hl & Hs) HΦ". unfold stream_append. halloc (n) "Hn". hset "Hn".
  hbind. iApply (wp_append_fields _ _ (λ q, n ↦ B_stream_entry id q (length fs) None)%I with "Hn").
  { iIntros (q Ψ) "Hn HΨ". by iApply (wp_modify with "Hn"). }
  iIntros (q) "Hn Hfs".
  iAssert (stream_node {| se_id := id; se_fields := fs; se_num_fields := length fs |} None n) with "[Hn Hfs]" as "Hn";
    [iExists q; iFrame|].
  hread "Hl". destruct tail as [t|]; cbn [stream_nodes].
  - iDestruct "Hs" as (es e Hes) "[Hs He]". hbind. iApply (wp_set_next with "He"). iIntros "He". hset "Hl". iApply "HΦ".
    iExists l, head, (Some n). iFrame "Hl". iSplit; [done|]. iExists (es ++ [e]), _. iFrame "Hn". iSplit; [by rw -Hes|].
    rw seg_app. iExists (Some t). iFrame "Hs". iExists t, (Some n). by iFrame.
  - iDestruct "Hs" as %[Hes ->]. hset "Hl". hset "Hl". iApply "HΦ". iExists l, (Some n), (Some n). iFrame "Hl". iSplit; [done|].
    iExists [], _. iFrame "Hn". iSplit; [|done]. cbn. by rw Hes.
Qed.
