(* ===== verification/ZSetHeap.v ===== *)
(** * Sorted sets on a heap

    The member index, the binary search, and the array with its [memmove]s and
    [xrealloc]s do to the memory of a sorted set what the operations of [ZSet]
    do to the value.  The strings are owned by the array; the index borrows
    them, so a string must keep its address for as long as its member is in the
    set. *)

From iris.proofmode Require Import proofmode.
From S2P Require Import Prelude CLib Util Mem SepLogic Chain FieldHash DList Dbl ZSet Stream Store StoreHeap HeapLists StoreRep.
Import Mem Util FieldHash DList Dbl ZSet Stream Store StoreHeap.

(** ** More strings *)

Lemma cell_mono ms ms' e c : ms ⊆ ms' → cell ms e c → cell ms' e c.
Proof. intros Hsub (m & Hm & ->). exists m. split; [by eapply lookup_weaken|done]. Qed.

Lemma array_mono ms ms' es cap p : ms ⊆ ms' → array_at ms es cap p ⊢ array_at ms' es cap p.
Proof.
  intros Hsub. destruct p as [l|]; [|done]. iIntros "(%cs & %rest & [%Hcs %Hcap] & Hl)". iExists cs, rest. iFrame "Hl".
  iPureIntro. split; [|done]. eapply Forall2_impl; [done|]. intros. by eapply cell_mono.
Qed.

Lemma seg_mono {X} (node node' : X → ptr → loc → hProp) xs p q :
  (∀ x next l, node x next l ⊢ node' x next l) → seg node xs p q ⊢ seg node' xs p q.
Proof.
  intros Hn. revert p. induction xs as [|x xs IH]; intros p; cbn [seg]; [done|].
  iIntros "(%l & %next & -> & Hn & Hs)". iExists l, next. iSplit; [done|]. iSplitL "Hn"; [by iApply Hn|by iApply IH].
Qed.

Lemma index_mono ms ms' cs p : ms ⊆ ms' → index_at ms cs p ⊢ index_at ms' cs p.
Proof.
  intros Hsub. destruct p as [l|]; [|done]. iIntros "(%ps & Hl & Hcs)". iExists ps. iFrame "Hl".
  iApply (big_sepL2_mono with "Hcs"). intros i c q _ _. apply seg_mono. iIntros (x next l') "(%m & %Hm & Hl)".
  iExists m. iFrame "Hl". iPureIntro. by eapply lookup_weaken.
Qed.

Lemma wp_member ms s m Φ :
  ms !! s = Some m → strings_at ms ⊢ (strings_at ms -∗ Φ s) -∗ wp (str_at (Some m)) Φ.
Proof.
  iIntros (Hm) "Hs HΦ". iDestruct (big_sepM_lookup_acc _ _ _ _ Hm with "Hs") as "[Hm Hs]". unfold str_at. hread "Hm".
  iApply "HΦ". by iApply "Hs".
Qed.

(** ** The index *)

Definition node_is (member : bytes) (h : Z) (n : ZIndexNode) : bool := (zn_hash n =? h)%Z && streq (zn_member n) member.

Lemma wp_node_matches ms member h n next l Φ :
  index_node ms n next l ⊢ strings_at ms -∗ (index_node ms n next l -∗ strings_at ms -∗ Φ (node_is member h n)) -∗
  wp (node_matches member h (Some l)) Φ.
Proof.
  iIntros "(%m & %Hm & Hl) Hs HΦ". unfold node_matches, node_is. hread "Hl". destruct (zn_hash n =? h)%Z.
  - hbind. iApply (wp_member with "Hs"); [done|]. iIntros "Hs". hret. iApply ("HΦ" with "[Hl] Hs"). iExists m. by iFrame.
  - hret. iApply ("HΦ" with "[Hl] Hs"). iExists m. by iFrame.
Qed.

Lemma node_split (pre post : list ZIndexNode) n member h :
  Forall (λ x, node_is member h x = false) pre → node_is member h n = true →
  zfind_loop (pre ++ n :: post) member h = Some n ∧
  ∀ score, zset_score_loop (pre ++ n :: post) member h score =
    pre ++ {| zn_member := zn_member n; zn_hash := zn_hash n; zn_score := score |} :: post.
Proof.
  unfold node_is. intros Hpre Hn. induction pre as [|x pre IH]; cbn [app zfind_loop zset_score_loop].
  - by rw Hn.
  - apply Forall_cons in Hpre as [Hx Hpre]. rw Hx. destruct (IH Hpre) as [H1 H2]. split; [done|]. intros score. by rw H2.
Qed.

Lemma node_absent (c : list ZIndexNode) member h :
  Forall (λ x, node_is member h x = false) c → zfind_loop c member h = None.
Proof. unfold node_is. induction 1 as [|x c Hx Hc IH]; [done|]. cbn [zfind_loop]. by rw Hx. Qed.

(** The node that [zindex_find] returns can be given another score. *)
Definition node_found (ms : gmap bytes loc) (z : ZSet) (index : ptr) (member : bytes) (r : ptr) : hProp :=
  match ZSet.zindex_find z member (hash64 member) with
  | None => ⌈r = None⌉ ∗ index_at ms (z_index z) index
  | Some n => ∃ l m next, ⌈r = Some l⌉ ∗ l ↦ B_index_node m (zn_hash n) (zn_score n) next ∗
      ((l ↦ B_index_node m (zn_hash n) (zn_score n) next -∗ index_at ms (z_index z) index) ∧
       (∀ score, l ↦ B_index_node m (zn_hash n) score next -∗
          index_at ms (z_index (zindex_set_score z member (hash64 member) score)) index))
  end%I.

Lemma index_chain z m h : index_wf z m → z_index_size z ≠ 0 →
  z_index z !! mask_slot (z_index_size z) h = Some (z_index z !!! mask_slot (z_index_size z) h).
Proof.
  intros [(? & _)|(j & -> & Hl & _)] Hne; [done|]. apply list_lookup_lookup_total_lt. rw Hl. apply mask_slot_lt.
Qed.

Lemma wp_zindex_find ms z m l entries cap index member Φ :
  index_wf z m →
  l ↦ B_zset entries (z_len z) cap index (z_index_size z) ⊢ index_at ms (z_index z) index -∗ strings_at ms -∗
  (∀ r, l ↦ B_zset entries (z_len z) cap index (z_index_size z) -∗ node_found ms z index member r -∗ strings_at ms -∗ Φ r) -∗
  wp (zindex_find (Some l) member (hash64 member)) Φ.
Proof.
  iIntros (Hwf) "Hl Hi Hs HΦ". unfold zindex_find, node_found, ZSet.zindex_find. hread "Hl".
  destruct (Nat.eqb_spec (z_index_size z) 0) as [H0|Hne]; [hret; iApply ("HΦ" with "Hl [Hi] Hs"); by iFrame|].
  pose proof (index_chain _ _ (hash64 member) Hwf Hne) as Hc. destruct index as [ix|]; [|by iDestruct "Hi" as %H; rw H in Hc].
  iDestruct (table_acc with "Hi") as (q ps Hlk) "(Hix & Hc & Hclose)"; [exact Hc|].
  hbind. iApply (wp_walk (index_node ms) (node_matches member (hash64 member)) (node_is member (hash64 member)) (strings_at ms)
    (wp_node_matches ms member (hash64 member)) _ _ _ _ _ Hlk with "Hix Hc Hs").
  iIntros (r) "Hr Hs". hret. iApply ("HΦ" with "Hl [-Hs] Hs"). destruct r as [[lk e]|]; cbn [walked].
  - iDestruct "Hr" as (pre n post l' next F (Heq & Hpre & Hn & -> & HF)) "(HF & (%mp & %Hmp & Hn) & Hp & Hw)".
    destruct (node_split pre post n member (hash64 member) Hpre Hn) as [Hf Hset]. rw Heq Hf.
    iExists l', (Some mp), next. iFrame "Hn". iSplit; [done|]. iSplit.
    + iIntros "Hn". iDestruct ("Hw" $! (Some l') (n :: post) with "HF [Hn Hp]") as (q0) "[Hix Hc]".
      { iExists l', next. iFrame "Hp". iSplit; [done|]. iExists mp. by iFrame. }
      iDestruct ("Hclose" with "Hix Hc") as "Hi". rw -Heq (list_insert_id _ _ _ Hc). iExact "Hi".
    + iIntros (score) "Hn".
      iDestruct ("Hw" $! (Some l') ({| zn_member := zn_member n; zn_hash := zn_hash n; zn_score := score |} :: post) with "HF [Hn Hp]")
        as (q0) "[Hix Hc]". { iExists l', next. iFrame "Hp". iSplit; [done|]. iExists mp. by iFrame. }
      iDestruct ("Hclose" with "Hix Hc") as "Hi". cbn [zindex_set_score z_index]. rw Heq Hset. iExact "Hi".
  - iDestruct "Hr" as (Hall) "[Hix Hc]". rw (node_absent _ _ _ Hall). iSplit; [done|].
    iDestruct ("Hclose" with "Hix Hc") as "Hi". rw (list_insert_id _ _ _ Hc). iExact "Hi".
Qed.

Lemma wp_node_slot ms size n next l Φ :
  index_node ms n next l ⊢ (index_node ms n next l -∗ Φ (mask_slot size (zn_hash n))) -∗ wp (node_slot size (Some l)) Φ.
Proof. iIntros "(%m & %Hm & Hl) HΦ". unfold node_slot. hread "Hl". hret. iApply "HΦ". iExists m. by iFrame. Qed.

Lemma grown_size z m : index_wf z m → ∃ j, (if z_index_size z =? 0 then 8 else z_index_size z * 2) = 2 ^ j.
Proof.
  intros [(-> & _)|(j & -> & _)]; [by exists 3|]. exists (S j). pose proof (pow2_pos j).
  destruct (Nat.eqb_spec (2 ^ j) 0); [lia|]. rw Nat.pow_succ_r'. lia.
Qed.

Lemma index_length z m : index_wf z m → length (z_index z) = z_index_size z.
Proof. intros [(-> & -> & _)|(j & -> & -> & _)]; done. Qed.

Lemma wp_zindex_grow ms z m l entries cap index Φ :
  index_wf z m →
  l ↦ B_zset entries (z_len z) cap index (z_index_size z) ⊢ index_at ms (z_index z) index -∗
  (∀ index', l ↦ B_zset entries (z_len z) cap index' (z_index_size (ZSet.zindex_grow z)) -∗
     index_at ms (z_index (ZSet.zindex_grow z)) index' -∗ Φ tt) -∗
  wp (zindex_grow (Some l)) Φ.
Proof.
  iIntros (Hwf) "Hl Hi HΦ". unfold zindex_grow. hread "Hl". halloc (nb) "Hnb". hbind.
  destruct (grown_size z m Hwf) as [j Hj]. cbn [ZSet.zindex_grow z_index z_index_size]. unfold rehash. rw Hj.
  assert (∀ n : ZIndexNode, mask_slot (2 ^ j) (zn_hash n) < length (replicate (2 ^ j) ([] : list ZIndexNode))) as Hlt
    by (intros n; rw length_replicate; apply mask_slot_lt).
  iDestruct (table_empty (index_node ms) B_index with "Hnb") as "Hnb". destruct index as [ix|].
  - iApply (wp_move_chains (index_node ms) B_index (node_slot (2 ^ j)) (λ n, mask_slot (2 ^ j) (zn_hash n))
      (wp_node_slot ms (2 ^ j)) _ _ _ _ _ _ (eq_sym (index_length _ _ Hwf)) Hlt with "Hi Hnb").
    iIntros (ps) "Hix Ht". hfree "Hix". hset "Hl". by iApply ("HΦ" with "Hl").
  - iDestruct "Hi" as %Hcs. rw -(index_length _ _ Hwf) Hcs. hret. hbind. iApply wp_free_null. hset "Hl".
    by iApply ("HΦ" with "Hl").
Qed.

Lemma wp_zindex_add ms z m l entries cap index member mp score Φ :
  index_wf z m → ms !! member = Some mp →
  l ↦ B_zset entries (z_len z) cap index (z_index_size z) ⊢ index_at ms (z_index z) index -∗
  (∀ index', l ↦ B_zset entries (z_len z) cap index' (z_index_size (ZSet.zindex_add z member (hash64 member) score)) -∗
     index_at ms (z_index (ZSet.zindex_add z member (hash64 member) score)) index' -∗ Φ tt) -∗
  wp (zindex_add (Some l) (Some mp) (hash64 member) score) Φ.
Proof.
  iIntros (Hwf Hm) "Hl Hi HΦ". unfold zindex_add, ZSet.zindex_add. hread "Hl". hbind.
  set (z1 := if z_index_size z <=? z_len z then ZSet.zindex_grow z else z).
  assert (∃ j, z_index_size z1 = 2 ^ j ∧ length (z_index z1) = 2 ^ j) as (j & Hj & Hlen).
  { unfold z1. destruct (Nat.leb_spec (z_index_size z) (z_len z)).
    - destruct (zindex_grow_spec z m Hwf (index_nodup _ _ Hwf)) as (j & ? & _ & ? & _). by exists j.
    - destruct Hwf as [(? & _)|(j & ? & ? & _)]; [lia|]. by exists j. }
  iAssert (wp (if z_index_size z <=? z_len z then zindex_grow (Some l) else mret tt) (λ _, ∃ index',
    l ↦ B_zset entries (z_len z) cap index' (z_index_size z1) ∗ index_at ms (z_index z1) index'))%I with "[Hl Hi]" as "Hg".
  { unfold z1. destruct (z_index_size z <=? z_len z); [|hret; iExists index; iFrame].
    iApply (wp_zindex_grow with "Hl Hi"); [done|]. iIntros (index') "Hl Hi". iExists index'. iFrame. }
  iApply (wp_wand with "Hg"). iIntros ([]) "(%index' & Hl & Hi)". hread "Hl".
  destruct index' as [ix|]; [|iDestruct "Hi" as %H; rw H in Hlen; pose proof (pow2_pos j); cbn in Hlen; lia].
  assert (z_index z1 !! mask_slot (z_index_size z1) (hash64 member) = Some (z_index z1 !!! mask_slot (z_index_size z1) (hash64 member)))
    as Hc by (apply list_lookup_lookup_total_lt; rw Hlen Hj; apply mask_slot_lt).
  hbind. iApply (wp_slot_table with "Hi"); [exact Hc|]. iIntros (q) "Hc Hset". halloc (n) "Hn".
  iApply ("Hset" $! (Some n) ({| zn_member := member; zn_hash := hash64 member; zn_score := score |} ::
    z_index z1 !!! mask_slot (z_index_size z1) (hash64 member)) with "[Hn Hc]").
  { iExists n, q. iFrame "Hc". iSplit; [done|]. iExists mp. by iFrame. }
  iIntros "Hi". by iApply ("HΦ" with "Hl Hi").
Qed.

(** ** The array *)

Lemma wp_cmp_at ms es cap p i e score member Φ :
  es !! i = Some e →
  array_at ms es cap p ⊢ strings_at ms -∗ (array_at ms es cap p -∗ strings_at ms -∗ Φ (zset_cmp score member e)) -∗
  wp (zset_cmp_at p i score member) Φ.
Proof.
  iIntros (Hi) "Ha Hs HΦ". unfold zset_cmp_at, zset_cmp. hbind. iApply (wp_entry_at with "Ha"); [done|]. iIntros (m Hm) "Ha".
  cbv beta iota. destruct (dlt score (ze_score e)); [hret; by iApply ("HΦ" with "Ha Hs")|].
  destruct (dlt (ze_score e) score); [hret; by iApply ("HΦ" with "Ha Hs")|].
  hbind. iApply (wp_member with "Hs"); [done|]. iIntros "Hs". hret. by iApply ("HΦ" with "Ha Hs").
Qed.

Lemma wp_lower_bound_loop ms es cap p score member fuel lo hi i Φ :
  ZSet.lower_bound_loop fuel es score member lo hi = Ret i →
  array_at ms es cap p ⊢ strings_at ms -∗ (array_at ms es cap p -∗ strings_at ms -∗ Φ i) -∗
  wp (lower_bound_loop fuel p score member lo hi) Φ.
Proof.
  revert lo hi. induction fuel as [|fuel IH]; intros lo hi; cbn [ZSet.lower_bound_loop lower_bound_loop].
  - iIntros ([= <-]) "Ha Hs HΦ". hret. by iApply ("HΦ" with "Ha Hs").
  - destruct (lo <? hi); [|iIntros ([= <-]) "Ha Hs HΦ"; hret; by iApply ("HΦ" with "Ha Hs")]. cbv zeta.
    destruct (es !! (lo + (hi - lo) / 2)) as [e|] eqn:He; [|done]. iIntros (Hr) "Ha Hs HΦ".
    hbind. iApply (wp_cmp_at with "Ha Hs"); [done|]. iIntros "Ha Hs".
    destruct (0 <? zset_cmp score member e)%Z; by iApply (IH _ _ Hr with "Ha Hs").
Qed.

Lemma wp_lower_bound ms z p l cap index size score member i Φ :
  ZSet.zset_lower_bound z score member = Ret i →
  l ↦ B_zset p (z_len z) cap index size ⊢ array_at ms (z_entries z) cap p -∗ strings_at ms -∗
  (l ↦ B_zset p (z_len z) cap index size -∗ array_at ms (z_entries z) cap p -∗ strings_at ms -∗ Φ i) -∗
  wp (zset_lower_bound (Some l) score member) Φ.
Proof.
  iIntros (Hi) "Hl Ha Hs HΦ". unfold zset_lower_bound. hread "Hl". iApply (wp_lower_bound_loop with "Ha Hs"); [done|].
  iIntros "Ha Hs". by iApply ("HΦ" with "Hl Ha Hs").
Qed.

(** The two [memmove]s, on the cells that are in use and those that are not. *)
Lemma open_cells {A} (a b rest : list A) c e :
  ∃ cells, memmove (length a + 1) (length a) (length b) (a ++ b ++ c :: rest) = Some cells ∧
    length cells = S (length a + length b + length rest) ∧ <[length a := e]> cells = a ++ e :: b ++ rest.
Proof.
  unfold memmove. rw !length_app. cbn [length].
  destruct (Nat.leb_spec (length a + length b) (length a + (length b + S (length rest)))); [|lia].
  destruct (Nat.leb_spec (length a + 1 + length b) (length a + (length b + S (length rest)))); [|lia].
  assert (∃ x, take 1 (b ++ c :: rest) = [x]) as [x Hx] by (destruct b; cbn; eauto).
  assert (take (length a + 1) (a ++ b ++ c :: rest) = a ++ [x]) as -> by by rw take_app_add Hx.
  rw drop_app_length take_app_length. assert (drop (length a + 1 + length b) (a ++ b ++ c :: rest) = rest) as ->.
  { rw -Nat.add_assoc drop_app_add Nat.add_comm drop_app_add. done. }
  eexists. split; [reflexivity|]. rw -(assoc_L (++)). split.
  - rw !length_app. cbn [length]. lia.
  - by rw -{1}(Nat.add_0_r (length a)) insert_app_r.
Qed.

Lemma close_cells {A} (a b rest : list A) c :
  ∃ rest', memmove (length a) (length a + 1) (length b) (a ++ c :: b ++ rest) = Some ((a ++ b) ++ rest') ∧
    length rest' = S (length rest).
Proof.
  unfold memmove. rw !length_app. cbn [length]. rw length_app.
  destruct (Nat.leb_spec (length a + 1 + length b) (length a + S (length b + length rest))); [|lia].
  destruct (Nat.leb_spec (length a + length b) (length a + S (length b + length rest))); [|lia].
  rw take_app_length drop_app_add. cbn [drop]. rw take_app_length. eexists. split; [by rw -(assoc_L (++))|].
  rw length_drop !length_app. cbn [length]. rw length_app. lia.
Qed.

(** [xrealloc] of the array to a larger capacity. *)
Lemma wp_grow_entries ms es cap cap' p Φ :
  cap ≤ cap' → array_at ms es cap p ⊢ (∀ q, ⌈q ≠ None⌉ -∗ array_at ms es cap' q -∗ Φ q) -∗ wp (grow_entries p cap') Φ.
Proof.
  iIntros (Hcap) "Ha HΦ". unfold grow_entries. hbind. destruct p as [l|].
  - iDestruct "Ha" as (cs rest [Hcs Hlen]) "Hl". hread "Hl". halloc (n) "Hn". hfree "Hl". hret.
    iApply ("HΦ" $! (Some n) with "[//]"). iExists cs, (rest ++ replicate (cap' - cap) None). rw take_ge; [|lia]. rw Hlen (assoc_L (++)).
    iFrame "Hn". iPureIntro. split; [done|]. rw length_app Hlen length_replicate. lia.
  - iDestruct "Ha" as %[-> ->]. hret. halloc (n) "Hn". iApply ("HΦ" $! (Some n) with "[//]").
    iExists [], (replicate (cap' - 0) None). rw take_nil. iFrame "Hn". iPureIntro. split; [constructor|]. rw length_replicate. lia.
Qed.

(** Opening a slot and writing an entry to it. *)
Lemma wp_insert_entry ms es cap p lo member m score len (Φ : () → hProp) (k : Mem ()) :
  lo ≤ length es → len = length es → length es < cap → ms !! member = Some m →
  array_at ms es cap p ⊢
  (array_at ms (take lo es ++ {| ze_member := member; ze_score := score |} :: drop lo es) cap p -∗ wp k Φ) -∗
  wp (move_entries p (lo + 1) lo (len - lo);; set_entry p lo (Some m, score);; k) Φ.
Proof.
  iIntros (Hlo -> Hcap Hm) "Ha HΦ". destruct p as [l|]; [|iDestruct "Ha" as %[-> ->]; cbn in Hcap; lia].
  iDestruct "Ha" as (cs rest [Hcs Hlen]) "Hl". pose proof (Forall2_length _ _ _ Hcs) as Hl.
  destruct rest as [|c rest]; [rw app_nil_r in Hlen; lia|].
  assert (length (take lo cs) = lo) as Hta by (rw length_take; lia).
  destruct (open_cells (take lo cs) (drop lo cs) rest c (Some (Some m, score))) as (cells & Hmove & Hlc & Hins).
  rw Hta in Hmove. rw Hta in Hlc. rw Hta in Hins. rw length_drop -Hl (assoc_L (++)) take_drop in Hmove.
  unfold move_entries, set_entry. hbind. hread "Hl". rw Hmove. hset "Hl". hbind. hread "Hl".
  rw (proj2 (Nat.ltb_lt lo (length cells))); [|rw Hlc; lia]. hset "Hl". iApply "HΦ".
  iExists (take lo cs ++ Some (Some m, score) :: drop lo cs), rest. rw Hins -(assoc_L (++)). cbn [app]. iFrame "Hl". iPureIntro. split.
  - apply Forall2_app; [by apply Forall2_take|]. constructor; [by exists m|by apply Forall2_drop].
  - rw -Hlen. rw !length_app. cbn [length]. rw !length_app length_take length_drop. lia.
Qed.

(** Closing the slot of an entry. *)
Lemma wp_remove_entry ms es cap p i len Φ :
  i < length es → len = length es →
  array_at ms es cap p ⊢ (array_at ms (take i es ++ drop (S i) es) cap p -∗ Φ tt) -∗
  wp (move_entries p i (i + 1) (len - i - 1)) Φ.
Proof.
  iIntros (Hi ->) "Ha HΦ". destruct p as [l|]; [|iDestruct "Ha" as %[-> _]; cbn in Hi; lia].
  iDestruct "Ha" as (cs rest [Hcs Hlen]) "Hl". pose proof (Forall2_length _ _ _ Hcs) as Hl.
  destruct (lookup_lt_is_Some_2 cs i ltac:(lia)) as [c Hc]. assert (length (take i cs) = i) as Hta by (rw length_take; lia).
  destruct (close_cells (take i cs) (drop (S i) cs) rest c) as (rest' & Hmove & Hr).
  rw Hta length_drop -Hl in Hmove. rw (app_comm_cons (drop (S i) cs)) (assoc_L (++)) (take_drop_middle _ _ _ Hc) in Hmove.
  unfold move_entries. hread "Hl". replace (length es - i - 1) with (length es - S i) by lia. rw Hmove. hset "Hl". iApply "HΦ".
  iExists (take i cs ++ drop (S i) cs), rest'. iFrame "Hl". iPureIntro. split.
  - apply Forall2_app; [by apply Forall2_take|by apply Forall2_drop].
  - rw -Hlen !length_app length_take length_drop Hr. lia.
Qed.

Lemma lower_bound_le fuel es score member lo hi i :
  ZSet.lower_bound_loop fuel es score member lo hi = Ret i → lo ≤ hi → i ≤ hi.
Proof.
  revert lo hi. induction fuel as [|fuel IH]; intros lo hi; cbn [ZSet.lower_bound_loop]; [congruence|].
  destruct (Nat.ltb_spec lo hi) as [Hlt|]; [|congruence]. pose proof (Nat.div_lt (hi - lo) 2).
  destruct (es !! _); [|done]. destruct (0 <? _)%Z; intros Hr ?; apply IH in Hr; lia.
Qed.

Lemma wp_zset_insert ms z z' l entries index size score member m Φ :
  ZSet.zset_insert z score member = Ret z' → z_len z ≤ z_cap z → ms !! member = Some m →
  l ↦ B_zset entries (z_len z) (z_cap z) index size ⊢ array_at ms (z_entries z) (z_cap z) entries -∗ strings_at ms -∗
  (∀ entries', l ↦ B_zset entries' (z_len z') (z_cap z') index size -∗ array_at ms (z_entries z') (z_cap z') entries' -∗
     strings_at ms -∗ Φ tt) -∗
  wp (zset_insert (Some l) score (Some m)) Φ.
Proof.
  unfold ZSet.zset_insert. destruct (ZSet.zset_lower_bound z score member) as [lo|] eqn:Hlo; [|done].
  iIntros ([= <-] Hcap Hm) "Hl Ha Hs HΦ". cbn [z_cap z_entries] in *.
  set (cap := if z_len z =? z_cap z then _ else _). assert (z_len z < cap) as Hlt.
  { unfold cap. destruct (Nat.eqb_spec (z_len z) (z_cap z)); [|lia]. destruct (Nat.eqb_spec (z_cap z) 0); lia. }
  unfold zset_insert. hread "Hl". hbind.
  iAssert (wp (if z_len z =? z_cap z then
      let cap := if z_cap z =? 0 then 8 else z_cap z * 2 in
      entries ← grow_entries entries cap;
      modify (Some l) (λ b, match b with B_zset _ len _ ix size => Some (B_zset entries len cap ix size) | _ => None end)
    else mret tt) (λ _, ∃ entries', l ↦ B_zset entries' (z_len z) cap index size ∗ array_at ms (z_entries z) cap entries'))%I
    with "[Hl Ha]" as "Hg".
  { unfold cap. destruct (Nat.eqb_spec (z_len z) (z_cap z)); [|hret; iExists entries; iFrame]. cbv zeta. hbind.
    iApply (wp_grow_entries with "Ha"); [destruct (Nat.eqb_spec (z_cap z) 0); lia|]. iIntros (q _) "Ha". hset "Hl".
    iExists q. iFrame. }
  iApply (wp_wand with "Hg"). iIntros ([]) "(%entries' & Hl & Ha)". hbind. iApply (wp_member with "Hs"); [done|]. iIntros "Hs".
  hbind. iApply (wp_lower_bound with "Hl Ha Hs"); [done|]. iIntros "Hl Ha Hs". hread "Hl".
  assert (lo ≤ z_len z) as Hle by (eapply lower_bound_le; [exact Hlo|lia]).
  iApply (wp_insert_entry with "Ha"); [exact Hle|done|exact Hlt|exact Hm|]. iIntros "Ha". hset "Hl".
  iApply ("HΦ" with "[Hl] Ha Hs"). cbn [z_len z_entries].
  assert (z_len {| z_entries := take lo (z_entries z) ++ {| ze_member := member; ze_score := score |} :: drop lo (z_entries z);
    z_cap := cap; z_index := z_index z; z_index_size := z_index_size z |} = S (z_len z)) as ->; [|iExact "Hl"].
  unfold z_len in *. cbn. rw length_app. cbn [length]. rw length_take length_drop. lia.
Qed.

(** ** Sorted sets *)

Lemma members_dom z : list_to_set (ze_member <$> z_entries z) = dom (zset_map z).
Proof.
  unfold zset_map, entry_map. rw dom_list_to_map_L. f_equal. rw -list_fmap_compose. by apply list_fmap_ext.
Qed.

Lemma zset_at_intro z p l entries index ms :
  zset_wf z → p = Some l → dom ms = dom (zset_map z) →
  l ↦ B_zset entries (z_len z) (z_cap z) index (z_index_size z) ⊢ array_at ms (z_entries z) (z_cap z) entries -∗
  index_at ms (z_index z) index -∗ strings_at ms -∗ zset_at z p.
Proof.
  iIntros (Hwf -> Hdom) "Hl Ha Hi Hs". iExists l, entries, index, ms. iFrame. iPureIntro. split; [done|].
  split_and!; [by eapply index_length, (zw_index _ Hwf)|apply Hwf|]. by rw members_dom.
Qed.

(** A member with another score: its entry is taken out of the array and put
    back where it belongs; the string stays, and so do the pointers to it. *)
Lemma wp_move_member ms z l entries index score member n next ln mn z' Φ :
  zset_wf z → is_nan score = false → dom ms = dom (zset_map z) →
  ZSet.zindex_find z member (hash64 member) = Some n → deq (zn_score n) score = false →
  ZSet.zset_add z score member = Ret (z', 0%Z) →
  l ↦ B_zset entries (z_len z) (z_cap z) index (z_index_size z) ⊢ array_at ms (z_entries z) (z_cap z) entries -∗ strings_at ms -∗
  ln ↦ B_index_node mn (zn_hash n) (zn_score n) next -∗
  (ln ↦ B_index_node mn (zn_hash n) score next -∗
     index_at ms (z_index (zindex_set_score z member (hash64 member) score)) index) -∗
  (zset_at z' (Some l) -∗ Φ 0%Z) -∗
  wp (i ← zset_lower_bound (Some l) (zn_score n) member;
      r ← read (Some l) zset_of;
      let '(entries, len, _, _, _) := r in
      e ← entry_at entries i;
      move_entries entries i (i + 1) (len - i - 1);;
      modify (Some l) (set_zset_len pred);;
      zset_insert (Some l) score e.1;;
      modify (Some ln) (λ b, match b with B_index_node m h _ next => Some (B_index_node m h score next) | _ => None end);;
      mret 0%Z) Φ.
Proof.
  iIntros (Hwf Hnan Hdom Hf Hd Hz') "Hl Ha Hs Hn Hclose HΦ".
  destruct (zset_add_spec z score member Hwf Hnan) as (z1 & added1 & Hz1 & Hwf' & Hmap & _).
  rw Hz' in Hz1. injection Hz1 as <- _. pose proof (zindex_find_chain z _ member (zw_index _ Hwf)) as Hm. rw Hf in Hm.
  destruct Hm as [Hm _]. rw Hm Hd in Hmap. unfold ZSet.zset_add in Hz'. rw Hf Hd in Hz'.
  destruct (ZSet.zset_lower_bound z (zn_score n) member) as [i|] eqn:Hlb; [|done]. cbn [mbind res_bind] in Hz'.
  destruct (z_entries z !! i) as [old|] eqn:Hold; [|done].
  destruct (ZSet.zset_insert _ score (ze_member old)) as [z2|] eqn:Hins; [|done]. cbn in Hz'. injection Hz' as <-.
  hbind. iApply (wp_lower_bound with "Hl Ha Hs"); [exact Hlb|]. iIntros "Hl Ha Hs". hread "Hl".
  hbind. iApply (wp_entry_at with "Ha"); [exact Hold|]. iIntros (m Hmo) "Ha".
  assert (i < z_len z) as Hi by by eapply lookup_lt_Some.
  hbind. iApply (wp_remove_entry with "Ha"); [exact Hi|done|]. iIntros "Ha". hset "Hl". cbn [fst].
  set (z0 := {| z_entries := take i (z_entries z) ++ drop (S i) (z_entries z); z_cap := z_cap z; z_index := z_index z;
                z_index_size := z_index_size z |}) in *.
  assert (pred (z_len z) = z_len z0) as Hlen.
  { unfold z_len in *. cbn. rw length_app length_take length_drop. lia. }
  rw Hlen. hbind. iApply (wp_zset_insert ms z0 with "Hl Ha Hs"); [exact Hins| |exact Hmo|].
  { pose proof (zw_cap _ Hwf). cbn [z0 z_cap]. lia. }
  iIntros (entries') "Hl Ha Hs". hset "Hn". hret. iApply "HΦ". iDestruct ("Hclose" with "Hn") as "Hi".
  assert (z_index z2 = z_index z ∧ z_index_size z2 = z_index_size z) as [Hix Hsz].
  { unfold ZSet.zset_insert in Hins. destruct (ZSet.zset_lower_bound z0 _ _); [|done]. by injection Hins as <-. }
  iApply (zset_at_intro with "[Hl] [Ha] [Hi] Hs"); [done|done| |by rw -Hsz|iExact "Ha"|].
  - rw Hmap dom_insert_L Hdom. apply elem_of_dom_2 in Hm. set_solver.
  - cbn [zindex_set_score z_index]. rw Hix Hsz. iExact "Hi".
Qed.

(** A new member: its string, a node of the index and an entry of the array. *)
Lemma wp_new_member ms z l entries index score member z' Φ :
  zset_wf z → is_nan score = false → dom ms = dom (zset_map z) → ZSet.zindex_find z member (hash64 member) = None →
  ZSet.zset_add z score member = Ret (z', 1%Z) →
  l ↦ B_zset entries (z_len z) (z_cap z) index (z_index_size z) ⊢ array_at ms (z_entries z) (z_cap z) entries -∗
  index_at ms (z_index z) index -∗ strings_at ms -∗ (zset_at z' (Some l) -∗ Φ 1%Z) -∗
  wp (owned ← xstrdup member;
      zindex_add (Some l) owned (hash64 member) score;;
      zset_insert (Some l) score owned;;
      mret 1%Z) Φ.
Proof.
  iIntros (Hwf Hnan Hdom Hf Hz') "Hl Ha Hi Hs HΦ".
  destruct (zset_add_spec z score member Hwf Hnan) as (z1 & added1 & Hz1 & Hwf' & Hmap & _).
  rw Hz' in Hz1. injection Hz1 as <- _. pose proof (zindex_find_chain z _ member (zw_index _ Hwf)) as Hm. rw Hf in Hm.
  rw Hm in Hmap. unfold ZSet.zset_add in Hz'. rw Hf in Hz'.
  destruct (zindex_add_spec z _ member score (zw_index _ Hwf) Hm) as (_ & He & Hcap & _).
  set (z0 := ZSet.zindex_add z member (hash64 member) score) in *.
  destruct (ZSet.zset_insert z0 score member) as [z2|] eqn:Hins; [|done]. cbn in Hz'. injection Hz' as <-.
  assert (ms !! member = None) as Hnone by (apply not_elem_of_dom; rw Hdom; by apply not_elem_of_dom).
  hbind. unfold xstrdup. halloc (m) "Hm". set (ms' := <[member := m]> ms).
  assert (ms ⊆ ms') as Hsub by by apply insert_subseteq. assert (ms' !! member = Some m) as Hm' by apply lookup_insert_eq.
  iAssert (strings_at ms') with "[Hs Hm]" as "Hs"; [iApply big_sepM_insert; [done|iFrame]|].
  rw (index_mono ms ms') // (array_mono ms ms') //.
  hbind. iApply (wp_zindex_add with "Hl Hi"); [apply Hwf|exact Hm'|]. iIntros (index') "Hl Hi". fold z0.
  assert (z_len z = z_len z0) as Hlen by (unfold z_len; by rw He).
  rw -Hcap -He Hlen. hbind. iApply (wp_zset_insert ms' z0 with "Hl Ha Hs"); [exact Hins| |exact Hm'|].
  { rw -Hlen Hcap. apply Hwf. }
  iIntros (entries') "Hl Ha Hs". hret. iApply "HΦ".
  assert (z_index z2 = z_index z0 ∧ z_index_size z2 = z_index_size z0) as [Hix Hsz].
  { unfold ZSet.zset_insert in Hins. destruct (ZSet.zset_lower_bound z0 _ _); [|done]. by injection Hins as <-. }
  iApply (zset_at_intro with "[Hl] [Ha] [Hi] Hs"); [done|done| |by rw Hsz|iExact "Ha"|by rw Hix].
  rw Hmap dom_insert_L. unfold ms'. by rw dom_insert_L Hdom.
Qed.

Lemma wp_zset_add z p score member z' added Φ :
  zset_wf z → is_nan score = false → ZSet.zset_add z score member = Ret (z', added) →
  zset_at z p ⊢ (zset_at z' p -∗ Φ added) -∗ wp (zset_add p score member) Φ.
Proof.
  iIntros (Hwf Hnan Hz') "(%l & %entries & %index & %ms & -> & Hl & (%Hlen & %Hnd & %Hdom) & Ha & Hi & Hs) HΦ".
  rw members_dom in Hdom. destruct (zset_add_spec z score member Hwf Hnan) as (z1 & added1 & Hz1 & _ & _ & Hadded).
  rw Hz' in Hz1. injection Hz1 as <- ->. unfold zset_add. hbind.
  iApply (wp_zindex_find with "Hl Hi Hs"); [apply Hwf|]. iIntros (r) "Hl Hr Hs". unfold node_found.
  pose proof (zindex_find_chain z _ member (zw_index _ Hwf)) as Hfind.
  destruct (ZSet.zindex_find z member (hash64 member)) as [n|] eqn:Hf.
  - destruct Hfind as [Hm _]. rw Hm in Hadded. subst added1. iDestruct "Hr" as (ln mn next ->) "[Hn Hclose]". hread "Hn".
    destruct (deq (zn_score n) score) eqn:Hd.
    + unfold ZSet.zset_add in Hz'. rw Hf Hd in Hz'. injection Hz' as <-. hret. iApply "HΦ". iDestruct "Hclose" as "[Hclose _]".
      iDestruct ("Hclose" with "Hn") as "Hi". by iApply (zset_at_intro with "Hl Ha Hi Hs").
    + iDestruct "Hclose" as "[_ Hclose]". by iApply (wp_move_member with "Hl Ha Hs Hn [Hclose] HΦ").
  - rw Hfind in Hadded. subst added1. iDestruct "Hr" as "[-> Hi]". by iApply (wp_new_member with "Hl Ha Hi Hs HΦ").
Qed.

(** Finding a member without changing anything, and its rank. *)
Lemma wp_find_member z p member Φ :
  zset_wf z → zset_at z p ⊢
  (∀ r, match ZSet.zindex_find z member (hash64 member) with
        | None => ⌈r = None⌉ ∗ zset_at z p
        | Some n => ∃ ln m next, ⌈r = Some ln⌉ ∗ ln ↦ B_index_node m (zn_hash n) (zn_score n) next ∗
            (ln ↦ B_index_node m (zn_hash n) (zn_score n) next -∗ zset_at z p)
        end -∗ Φ r) -∗
  wp (zindex_find p member (hash64 member)) Φ.
Proof.
  iIntros (Hwf) "(%l & %entries & %index & %ms & -> & Hl & (%Hlen & %Hnd & %Hdom) & Ha & Hi & Hs) HΦ".
  rw members_dom in Hdom. iApply (wp_zindex_find with "Hl Hi Hs"); [apply Hwf|]. iIntros (r) "Hl Hr Hs". iApply "HΦ".
  unfold node_found. destruct (ZSet.zindex_find z member (hash64 member)) as [n|].
  - iDestruct "Hr" as (ln m next ->) "[Hn Hclose]". iExists ln, m, next. iFrame "Hn". iSplit; [done|]. iIntros "Hn".
    iDestruct "Hclose" as "[Hclose _]". iDestruct ("Hclose" with "Hn") as "Hi". by iApply (zset_at_intro with "Hl Ha Hi Hs").
  - iDestruct "Hr" as "[-> Hi]". iSplit; [done|]. by iApply (zset_at_intro with "Hl Ha Hi Hs").
Qed.

Lemma wp_score_of l m h score next Φ :
  l ↦ B_index_node m h score next ⊢ (l ↦ B_index_node m h score next -∗ Φ score) -∗ wp (score_of (Some l)) Φ.
Proof. iIntros "Hl HΦ". unfold score_of. hread "Hl". hret. by iApply "HΦ". Qed.

Lemma wp_zset_rank z p score member i Φ :
  ZSet.zset_lower_bound z score member = Ret i →
  zset_at z p ⊢ (zset_at z p -∗ Φ i) -∗ wp (zset_lower_bound p score member) Φ.
Proof.
  iIntros (Hi) "(%l & %entries & %index & %ms & -> & Hl & %Hpure & Ha & Hi & Hs) HΦ".
  iApply (wp_lower_bound with "Hl Ha Hs"); [done|]. iIntros "Hl Ha Hs". iApply "HΦ". iExists l, entries, index, ms. by iFrame.
Qed.
