(* ===== verification/LoadHeap.v ===== *)
(** * Reading whole values

    [load_list], [load_hash], [load_zset] and [load_stream] read the elements
    of a value as the command handlers do, node by node, and [store_scan] visits
    the live entries of a store; the memory stays as it is. *)

From iris.proofmode Require Import proofmode.
From S2P Require Import Prelude CLib Mem SepLogic Chain FieldHash DList Dbl ZSet Stream Store StoreHeap HeapLists StoreRep ZSetHeap.
Import Mem FieldHash DList Dbl ZSet Stream Store StoreHeap.

(** ** Loops that read *)

(** A loop along a chain that reads [g x] of a node [x]; [R] is the memory of
    the rest of the chain, of which [ys] is read. *)
Section collect.
Context {X Y} (node : X → ptr → loc → hProp) `{!Linked node} (g : X → Y) (step : ptr → Mem (Y * ptr)).
Context (Hstep : ∀ x next l Ψ, node x next l ⊢ (node x next l -∗ Ψ (g x, next)) -∗ wp (step (Some l)) Ψ).

Lemma wp_collect_loop n xs ys p q R Φ :
  length xs + length ys ≤ n →
  (∀ m Ψ, length ys ≤ m → R ⊢ (R -∗ Ψ ys) -∗ wp (collect_loop m step q) Ψ) →
  seg node xs p q ⊢ R -∗ (seg node xs p q -∗ R -∗ Φ ((g <$> xs) ++ ys)) -∗ wp (collect_loop n step p) Φ.
Proof.
  iIntros (Hn Hrest) "Hc HR HΦ". iInduction xs as [|x xs IH] forall (n p Φ Hn).
  - iDestruct "Hc" as "->". iApply (Hrest with "HR"); [done|]. by iApply "HΦ".
  - iDestruct "Hc" as (l next ->) "[Hn Hc]". destruct n as [|n]; cbn [length] in Hn; [lia|]. cbn [collect_loop].
    hbind. iApply (Hstep with "Hn"). iIntros "Hn". hbind. iApply ("IH" with "[] Hc HR"); [iPureIntro; lia|]. iIntros "Hc HR".
    hret. iApply ("HΦ" with "[Hn Hc] HR"). iExists l, next. by iFrame.
Qed.

Lemma wp_collect_end m Φ : emp ⊢ (emp -∗ Φ ([] : list Y)) -∗ wp (collect_loop m step None) Φ.
Proof. iIntros "_ HΦ". destruct m; hret; by iApply "HΦ". Qed.

Lemma wp_collect xs p Φ : chain node xs p ⊢ (chain node xs p -∗ Φ (g <$> xs)) -∗ wp (collect step p) Φ.
Proof.
  iIntros "Hc HΦ". iApply (wp_with_size (length xs)). iSplit; [by iApply (seg_cells with "Hc")|]. iIntros (n Hn).
  iApply (wp_collect_loop n xs [] _ None emp with "Hc [//]"); [cbn; lia|intros; apply wp_collect_end|].
  iIntros "Hc _". rw app_nil_r. by iApply "HΦ".
Qed.

End collect.

(** A loop over indices whose turn [i] reads [xs !! i]. *)
Lemma wp_gather {X} (R : hProp) (f : nat → Mem X) xs n Φ :
  n = length xs → (∀ i x Ψ, xs !! i = Some x → R ⊢ (R -∗ Ψ x) -∗ wp (f i) Ψ) →
  R ⊢ (R -∗ Φ xs) -∗ wp (gather n 0 f) Φ.
Proof.
  intros -> Hf.
  enough (∀ pre suf Φ, xs = pre ++ suf → R ⊢ (R -∗ Φ suf) -∗ wp (gather (length suf) (length pre) f) Φ) as H
    by exact (H [] xs Φ eq_refl).
  intros pre suf. revert pre. induction suf as [|x suf IH]; iIntros (pre Ψ Hxs) "HR HΨ"; cbn [length gather].
  - hret. by iApply "HΨ".
  - hbind. iApply (Hf with "HR"); [subst xs; by apply list_lookup_middle|]. iIntros "HR". hbind.
    replace (S (length pre)) with (length (pre ++ [x])) by (rw length_app; cbn; lia).
    iApply (IH with "HR"); [by rw -(assoc_L (++))|]. iIntros "HR". hret. by iApply "HΨ".
Qed.

(** ** Values *)

Lemma wp_collect_nodes prev xs p last Φ :
  dseg prev xs p last None ⊢ (dseg prev xs p last None -∗ Φ xs) -∗
  wp (collect (λ node, r ← read node list_node_of; let '(value, _, next) := r in s ← str_at value; mret (s, next)) p) Φ.
Proof.
  iIntros "Hs HΦ". iApply (wp_with_size (length xs)). iSplit; [by iApply (dseg_cells with "Hs")|]. iIntros (n Hn).
  iInduction xs as [|x xs IH] forall (n prev p Φ Hn).
  - iDestruct "Hs" as "[-> ->]". destruct n; hret; iApply "HΦ"; cbn; by iSplit.
  - iDestruct "Hs" as (l v q ->) "(Hl & Hv & Hs)". destruct n as [|n]; cbn [length] in Hn; [lia|]. cbn [collect_loop].
    hbind. hread "Hl". hbind. iApply (wp_str_at with "Hv"). iIntros "Hv". hret. hbind.
    iApply ("IH" with "[] Hs"); [iPureIntro; lia|]. iIntros "Hs". hret. iApply "HΦ". iExists l, v, q. by iFrame.
Qed.

Lemma wp_load_list xs p Φ : list_at xs p ⊢ (list_at xs p -∗ Φ xs) -∗ wp (load_list p) Φ.
Proof.
  iIntros "(%l & %head & %tail & -> & Hl & Hs) HΦ". unfold load_list. hread "Hl". iApply (wp_collect_nodes with "Hs").
  iIntros "Hs". iApply "HΦ". iExists l, head, tail. by iFrame.
Qed.

Definition field_pair (f : HashField) : bytes * bytes := (hf_field f, hf_value f).

Lemma field_pairs h : list_to_map (concat (map (map field_pair) (hash_buckets h))) = hash_map h.
Proof.
  unfold hash_map, tbl_map, entry_map. f_equal. induction (hash_buckets h) as [|c cs IH]; [done|].
  cbn [fmap list_fmap concat]. by rw fmap_app -IH.
Qed.

Lemma wp_hash_field x next l Φ :
  hash_node x next l ⊢ (hash_node x next l -∗ Φ (field_pair x, next)) -∗
  wp (r ← read (Some l) hash_field_of; let '(field, value, next) := r in s ← str_at field; v ← str_at value; mret ((s, v), next)) Φ.
Proof.
  iIntros "(%f & %v & Hl & Hf & Hv) HΦ". hread "Hl". hbind. iApply (wp_str_at with "Hf"). iIntros "Hf".
  hbind. iApply (wp_str_at with "Hv"). iIntros "Hv". hret. iApply "HΦ". iExists f, v. iFrame.
Qed.

Lemma wp_load_hash h p Φ :
  hash_at h p ⊢ (hash_at h p -∗ Φ (concat (map (map field_pair) (hash_buckets h)))) -∗ wp (load_hash p) Φ.
Proof.
  iIntros "(%l & %ps & -> & %Hlen & Hl & Hcs) HΦ". unfold load_hash. hbind.
  iApply (wp_gather (l ↦ B_hash ps (hash_len h) ∗ chains hash_node (hash_buckets h) ps)%I _ (map (map field_pair) (hash_buckets h))
    with "[$Hl $Hcs]").
  - by rw length_map Hlen.
  - iIntros (i x Ψ Hi) "[Hl Hcs] HΨ". apply list_lookup_fmap_Some in Hi as (c & -> & Hc).
    iDestruct (big_sepL2_length with "Hcs") as %Hl.
    destruct (lookup_lt_is_Some_2 ps i) as [q Hq]; [rw -Hl; by eapply lookup_lt_Some|].
    hbind. iApply (wp_slot with "Hl"); [done|done|]. iIntros "Hl".
    iDestruct (big_sepL2_lookup_acc with "Hcs") as "[Hc Hcs]"; [done..|].
    iApply (wp_collect hash_node field_pair with "Hc"); [apply wp_hash_field|]. iIntros "Hc". iApply "HΨ". iFrame "Hl". by iApply "Hcs".
  - iIntros "[Hl Hcs]". hret. iApply "HΦ". iExists l, ps. by iFrame.
Qed.

Lemma wp_load_zset z p Φ : zset_at z p ⊢ (zset_at z p -∗ Φ (z_entries z)) -∗ wp (load_zset p) Φ.
Proof.
  iIntros "(%l & %entries & %index & %ms & -> & Hl & %Hz & Ha & Hi & Hs) HΦ". unfold load_zset. hread "Hl".
  iApply (wp_gather (array_at ms (z_entries z) (z_cap z) entries ∗ strings_at ms)%I with "[$Ha $Hs]"); [done| |].
  - iIntros (i e Ψ He) "[Ha Hs] HΨ". hbind. iApply (wp_entry_at with "Ha"); [done|]. iIntros (m Hm) "Ha". cbn [fst snd].
    hbind. iApply (wp_member with "Hs"); [done|]. iIntros "Hs". hret. destruct e. iApply "HΨ". iFrame.
  - iIntros "[Ha Hs]". iApply "HΦ". iExists l, entries, index, ms. by iFrame.
Qed.

Lemma wp_stream_field x next l Φ :
  field_node x next l ⊢ (field_node x next l -∗ Φ (x, next)) -∗
  wp (r ← read (Some l) stream_field_of; let '(field, value, next) := r in s ← str_at field; v ← str_at value; mret ((s, v), next)) Φ.
Proof.
  iIntros "(%f & %v & Hl & Hf & Hv) HΦ". hread "Hl". hbind. iApply (wp_str_at with "Hf"). iIntros "Hf".
  hbind. iApply (wp_str_at with "Hv"). iIntros "Hv". hret. destruct x. iApply "HΦ". iExists f, v. iFrame.
Qed.

Lemma wp_stream_entry x next l Φ :
  stream_node x next l ⊢ (stream_node x next l -∗ Φ (x, next)) -∗
  wp (r ← read (Some l) stream_entry_of;
      let '(id, fields, n, next) := r in
      fs ← collect (λ f,
        r ← read f stream_field_of;
        let '(field, value, next) := r in s ← str_at field; v ← str_at value; mret ((s, v), next)) fields;
      mret ({| se_id := id; se_fields := fs; se_num_fields := n |}, next)) Φ.
Proof.
  iIntros "(%fs & Hl & Hfs) HΦ". hread "Hl". hbind. iApply (wp_collect field_node id with "Hfs"); [apply wp_stream_field|].
  iIntros "Hfs". hret. rw list_fmap_id. destruct x. iApply "HΦ". iExists fs. iFrame.
Qed.

Lemma wp_load_stream x p Φ : stream_at x p ⊢ (stream_at x p -∗ Φ (st_entries x)) -∗ wp (load_stream p) Φ.
Proof.
  iIntros "(%l & %head & %tail & -> & Hl & Hs) HΦ". unfold load_stream. hread "Hl".
  destruct tail as [t|]; cbn [stream_nodes].
  - iDestruct "Hs" as (es e He) "[Hs Hn]".
    iApply (wp_with_size (length es + 1)). iSplit.
    { replace (length es + 1) with (S (length es)) by lia. iDestruct (linked_acc with "Hn") as (b) "(Ht & _ & _)".
      iApply (cells_step with "Ht"). by iApply (seg_cells with "Hs"). }
    iIntros (n Hn). iApply (wp_collect_loop stream_node id with "Hs Hn"); [apply wp_stream_entry|exact (Hn : length es + length [e] ≤ n)| |].
    + iIntros (m Ψ Hm) "Hn HΨ". destruct m as [|m]; cbn in Hm; [lia|]. cbn [collect_loop]. hbind.
      iApply (wp_stream_entry with "Hn"). iIntros "Hn". hbind. iApply wp_collect_end; [done|]. iIntros "_". hret. by iApply "HΨ".
    + iIntros "Hs Hn". rw list_fmap_id -He. iApply "HΦ". iExists l, head, (Some t). iFrame "Hl". iSplit; [done|].
      iExists es, e. by iFrame.
  - iDestruct "Hs" as %[He ->]. iApply (wp_with_size 0). iSplit; [by iApply (cells_0 with "Hl")|]. iIntros (n _).
    iApply wp_collect_end; [done|]. iIntros "_". rw -He. iApply "HΦ". iExists l, None, None. by iFrame.
Qed.

(** ** The whole store *)

Lemma wp_store_count s p Φ : store_at s p ⊢ (store_at s p -∗ Φ (Store.store_count s)) -∗ wp (store_count p) Φ.
Proof.
  iIntros "(%l & %bs & -> & %Hlen & Hl & Ht) HΦ". unfold store_count. hread "Hl". hret. iApply "HΦ". iExists l, bs. by iFrame.
Qed.

(** [store_scan] with a [visit] that does [f] and leaves its entry as it is. *)
Section scan.
Context {A : Type} (now : Z) (visit : A → ptr → Mem A) (f : A → StoreEntry → A).
Context (Hvisit : ∀ a e next l Ψ, entry_node e next l ⊢ (entry_node e next l -∗ Ψ (f a e)) -∗ wp (visit a (Some l)) Ψ).

Definition scan_step (ctx : A) (e : StoreEntry) : A := if negb (Store.entry_is_expired e now) then f ctx e else ctx.

Lemma wp_scan_chain n c q ctx Φ :
  length c ≤ n →
  chain entry_node c q ⊢ (chain entry_node c q -∗ Φ (foldl scan_step ctx c)) -∗ wp (scan_chain n now visit ctx q) Φ.
Proof.
  iIntros (Hn) "Hc HΦ". iInduction c as [|e c IH] forall (n q ctx Φ Hn).
  - iDestruct "Hc" as "->". destruct n; hret; by iApply "HΦ".
  - iDestruct "Hc" as (l next ->) "[Hn Hc]". destruct n as [|n]; cbn [length] in Hn; [lia|]. cbn [scan_chain].
    iDestruct "Hn" as (k v) "(Hl & Hk & Hv)". hread "Hl".
    iAssert (entry_node e next l) with "[Hl Hk Hv]" as "Hn"; [iExists k, v; iFrame|]. hbind.
    iAssert (wp (if negb (is_expired (e_expires_at e) now) then visit ctx (Some l) else mret ctx)
      (λ a, ⌈a = scan_step ctx e⌉ ∗ entry_node e next l))%I with "[Hn]" as "Hv".
    { unfold scan_step, is_expired, entry_is_expired. destruct (negb _); [|hret; by iFrame].
      iApply (Hvisit with "Hn"). iIntros "Hn". by iFrame. }
    iApply (wp_wand with "Hv"). iIntros (a) "[-> Hn]". hbind. iApply (wp_next with "Hn"). iIntros "Hn".
    iApply ("IH" with "[] Hc"); [iPureIntro; lia|]. iIntros "Hc". iApply "HΦ". iExists l, next. by iFrame.
Qed.

Lemma wp_scan_slots bs pre suf ps pre_ps ctx Φ :
  length pre = length pre_ps →
  bs ↦ B_buckets (pre_ps ++ ps) ⊢ chains entry_node suf ps -∗
  (bs ↦ B_buckets (pre_ps ++ ps) -∗ chains entry_node suf ps -∗ Φ (foldl (foldl scan_step) ctx suf)) -∗
  wp (scan_slots (length suf) (length (pre : list (list StoreEntry))) (Some bs) now visit ctx) Φ.
Proof.
  iIntros (Hpre) "Hl Hcs HΦ". iInduction suf as [|c suf IH] forall (pre pre_ps ps ctx Φ Hpre).
  - hret. by iApply ("HΦ" with "Hl Hcs").
  - iDestruct (big_sepL2_cons_inv_l with "Hcs") as (q ps' ->) "[Hc Hcs]". cbn [length scan_slots]. hbind.
    iApply (wp_slot with "Hl"); [done|rw Hpre; by apply list_lookup_middle|]. iIntros "Hl". hbind.
    iApply (wp_with_size (length c)). iSplit; [by iApply (seg_cells with "Hc")|]. iIntros (n Hn).
    iApply (wp_scan_chain with "Hc"); [done|]. iIntros "Hc".
    replace (S (length pre)) with (length (pre ++ [c])) by (rw length_app; cbn; lia).
    rw (cons_middle q pre_ps ps') !(assoc_L (++)).
    iApply ("IH" with "[] Hl Hcs"); [iPureIntro; rw !length_app; cbn; lia|]. iIntros "Hl Hcs". iApply ("HΦ" with "Hl"). iFrame.
Qed.

Lemma wp_store_scan s p ctx Φ :
  store_at s p ⊢ (store_at s p -∗ Φ (Store.store_scan s now f ctx)) -∗ wp (store_scan p now visit ctx) Φ.
Proof.
  iIntros "(%l & %bs & -> & %Hlen & Hl & %ps & Hbs & Hcs) HΦ". unfold store_scan. hread "Hl". rw -Hlen.
  iApply (wp_scan_slots bs [] (buckets s) ps [] with "Hbs Hcs"); [done|]. iIntros "Hbs Hcs". iApply "HΦ".
  iExists l, bs. rw Hlen. iFrame "Hl". do 2 (iSplit; [done|]). iExists ps. iFrame.
Qed.

End scan.
