(* ===== verification/StoreHeapProps.v ===== *)
(** * store.c on a heap: the calls of the interface

    Every call of [store.h], on the memory of a well-formed store, has no
    undefined behaviour, answers what the model [Store] answers, and leaves
    exactly the memory of the store that the model has afterwards.  So from
    [store_create] to [store_destroy] nothing leaks, nothing is freed twice and
    nothing is used after it was freed. *)

From iris.proofmode Require Import proofmode.
From S2P Require Import Prelude CLib Util Mem SepLogic Chain FieldHash DList Dbl ZSet Stream Store StoreInv StoreSpec StoreRefine StoreProps StoreHeap HeapLists StoreRep KeyHeap ValueHeap ZSetHeap LoadHeap.
Import Mem Util FieldHash DList Dbl ZSet Stream Store StoreInv StoreSpec StoreRefine StoreHeap.

Module StoreHeapProps.

(** ** Calls on one type of values *)

Section kind.
Context {A : Type} (mkv : A → Value) (proj : Value → option A) (t : StoreType) `{!Kind mkv proj t}.

Lemma typed_result s p key now r :
  typed_up mkv proj t s p key now r ⊢
  ⌜match (Store.lookup_typed s key proj now).2 with
   | inl st => r = inl st ∧ (st = STORE_NOT_FOUND ∨ st = STORE_WRONG_TYPE)
   | inr _ => ∃ l, r = inr (Some l)
   end⌝.
Proof.
  unfold typed_up. destruct (Store.lookup_typed s key proj now) as [s' [st|a]] eqn:Hl; cbn [snd].
  - iIntros "[-> _]". iPureIntro. split; [done|]. unfold Store.lookup_typed in Hl.
    destruct (Store.lookup s key now) as [? [e|]]; [destruct (proj (e_v e))|]; simplify_eq; auto.
  - iIntros "(%l & %v & [-> _] & _)". by eauto.
Qed.

(** Working on the value of a key, which is made if it is not there. *)
Lemma wp_update {B} s p key now a0 zeroed (F : A → res (A * B)) (body : ptr → Mem B) s' r Φ :
  store_wf s → (∀ l, l ↦ zeroed ⊢ value_at (mkv a0) (Some l)) →
  (∀ a v a' b Ψ, value_wf (mkv a) ∨ a = a0 → F a = Ret (a', b) →
     value_at (mkv a) v ⊢ (value_at (mkv a') v -∗ Ψ b) -∗ wp (body v) Ψ) →
  (let '(s, st) := Store.lookup_typed s key proj now in
   match st with
   | inl STORE_WRONG_TYPE => Ret (s, inl STORE_WRONG_TYPE)
   | _ =>
       let '(s, a) := match st with inr a => (s, a) | inl _ => (Store.create_entry s key (mkv a0), a0) end in
       x ← F a; Ret (write_entry s key (with_v (mkv x.1)), inr x.2)
   end) = Ret (s', r) →
  store_at s p ⊢ (store_at s' p -∗ Φ r) -∗
  wp (st ← lookup_typed p key t now;
      match st with
      | inl STORE_WRONG_TYPE => mret (inl STORE_WRONG_TYPE)
      | _ => v ← value_or_new p key t zeroed st; b ← body v; mret (inr b)
      end) Φ.
Proof.
  iIntros (Hwf Hz Hbody Hex) "Hs HΦ". hbind. iApply (wp_lookup_typed mkv proj t with "Hs"); [apply Hwf|]. iIntros (r0) "Hr".
  iDestruct (typed_result with "Hr") as %Hr0.
  destruct (Store.lookup_typed s key proj now) as [s1 st] eqn:Hl. cbn [snd] in Hr0.
  assert (st = inl STORE_WRONG_TYPE ∨ r0 ≠ inl STORE_WRONG_TYPE ∧
    (let '(s, a) := match st with inr a => (s1, a) | inl _ => (Store.create_entry s1 key (mkv a0), a0) end in
     x ← F a; Ret (write_entry s key (with_v (mkv x.1)), inr x.2)) = Ret (s', r) ∧
    match r0 with
    | inl STORE_WRONG_TYPE => mret (inl STORE_WRONG_TYPE)
    | _ => v ← value_or_new p key t zeroed r0; b ← body v; mret (inr b)
    end = (v ← value_or_new p key t zeroed r0; b ← body v; mret (inr b))) as [->|(Hne & Hex' & ->)].
  { destruct st as [st|a].
    - destruct Hr0 as [-> Hst]. destruct Hst as [-> | ->]; [by right|by left].
    - destruct Hr0 as [l ->]. by right. }
  - destruct Hr0 as [-> _]. unfold typed_up. rw Hl. iDestruct "Hr" as "[_ Hs]". injection Hex as <- <-. hret. by iApply "HΦ".
  - hbind. iApply (wp_value_or_new mkv proj t with "Hr"); [done|exact Hz|done|]. iIntros (l v). rw Hl.
    destruct (match st with inl _ => (Store.create_entry s1 key (mkv a0), a0) | inr a => (s1, a) end) as [s2 a]. iIntros (Ha) "Hu Hv".
    destruct (F a) as [[a' b]|] eqn:HF; [|done]. cbn in Hex'. injection Hex' as <- <-.
    hbind. iApply (Hbody with "Hv"); [done|exact HF|]. iIntros "Hv". hret. iApply "HΦ". by iApply (in_use_close with "Hu [//] Hv").
Qed.

(** Reading the value of a key. *)
Lemma wp_read_value s p key now (load : ptr → Mem answer) (g : A → answer) Φ :
  store_wf s →
  (∀ a v Ψ, value_at (mkv a) v ⊢ (value_at (mkv a) v -∗ Ψ (g a)) -∗ wp (load v) Ψ) →
  store_at s p ⊢
  (store_at (Store.lookup_typed s key proj now).1 p -∗ Φ (out g (Store.lookup_typed s key proj now).2)) -∗
  wp (r ← store_get_value p key t now; answered load r) Φ.
Proof.
  iIntros (Hwf Hload) "Hs HΦ". unfold store_get_value. hbind. hbind.
  iApply (wp_lookup_typed mkv proj t with "Hs"); [apply Hwf|]. iIntros (r0) "Hr". unfold typed_up.
  destruct (Store.lookup_typed s key proj now) as [s1 [st|a]]; cbn [fst snd out].
  - iDestruct "Hr" as "[-> Hs]". hret. hret. by iApply "HΦ".
  - iDestruct "Hr" as (l v [-> ->]) "[Hu Hv]". hbind. iApply (wp_in_use_value with "Hu"). iIntros "Hu". hret. cbn [answered].
    iApply (Hload with "Hv"). iIntros "Hv". iApply "HΦ". by iApply (in_use_same with "Hu Hv").
Qed.

(** A function on the value of a key that is there. *)
Lemma wp_on_value {B} s p key now (f : ptr → Mem (StoreStatus + B)) s' (r : StoreStatus + B) Φ :
  store_wf s →
  match Store.lookup_typed s key proj now with
  | (s1, inl st) => s' = s1 ∧ r = inl st
  | (s1, inr a) => ∀ l v, value_wf (mkv a) → in_use mkv t s p key l a v ⊢ value_at (mkv a) v -∗ (store_at s' p -∗ Φ r) -∗ wp (f v) Φ
  end →
  store_at s p ⊢ (store_at s' p -∗ Φ r) -∗
  wp (st ← lookup_typed p key t now;
      match st with
      | inl err => mret (inl err)
      | inr e => v ← value_of e; f v
      end) Φ.
Proof.
  iIntros (Hwf Hf) "Hs HΦ". hbind. iApply (wp_lookup_typed mkv proj t with "Hs"); [apply Hwf|]. iIntros (r0) "Hr". unfold typed_up.
  destruct (Store.lookup_typed s key proj now) as [s1 [st|a]].
  - destruct Hf as [-> ->]. iDestruct "Hr" as "[-> Hs]". hret. by iApply "HΦ".
  - iDestruct "Hr" as (l v [-> ->]) "[Hu Hv]". hbind.
    iAssert ⌜value_wf (mkv a)⌝%I as %Ha.
    { iDestruct "Hu" as (e (Hs & Hk & He)) "Hh". iPureIntro. rw -He. by apply (proj2 Hwf _ _ Hk). }
    iApply (wp_in_use_value with "Hu"). iIntros "Hu". by iApply (Hf with "Hu Hv").
Qed.

End kind.

(** ** Strings *)

Lemma wp_get s p k now Φ :
  store_wf s →
  store_at s p ⊢ (store_at (Store.store_get s k now).1 p -∗ Φ (out R_bytes (Store.store_get s k now).2)) -∗
  wp (r ← store_get p k now; answered (λ v, s ← str_at v; mret (R_bytes s)) r) Φ.
Proof.
  intros Hwf. apply (wp_read_value V_str as_str STORE_TYPE_STRING); [done|].
  iIntros (a v Ψ) "Hv HΨ". hbind. iApply (wp_str_at with "Hv"). iIntros "Hv". hret. by iApply "HΨ".
Qed.

Lemma wp_lift {A} (r : res A) a Φ : r = Ret a → Φ a ⊢ wp (lift r) Φ.
Proof. iIntros (->) "H". by hret. Qed.

Lemma wp_store_incrby s p k d now now' s' r Φ :
  store_wf s → Store.store_incrby s k d now now' = Ret (s', r) →
  store_at s p ⊢ (store_at s' p -∗ Φ r) -∗ wp (store_incrby p k d now now') Φ.
Proof.
  iIntros (Hwf Hex) "Hs HΦ". unfold store_incrby, Store.store_incrby in *. hbind.
  iApply (wp_lookup_typed V_str as_str STORE_TYPE_STRING with "Hs"); [apply Hwf|]. iIntros (r0) "Hr".
  iDestruct (typed_result with "Hr") as %Hr0. unfold typed_up.
  destruct (Store.lookup_typed s k as_str now) as [s1 [st|str0]] eqn:Hl; cbn [snd] in Hr0.
  - destruct Hr0 as [-> Hst]. iDestruct "Hr" as "[_ Hs]". destruct Hst as [-> | ->].
    + assert (store_wf s1) as Hwf1.
      { unfold Store.lookup_typed in Hl. destruct (Store.lookup s k now) as [? [e|]] eqn:Hlk; [by destruct (as_str (e_v e)); simplify_eq|].
        injection Hl as ->. by eapply lookup_none. }
      hbind. destruct (incr_checked 0 d) as [[val|]|] eqn:Hi; [| |done]; iApply (wp_lift _ _ _ eq_refl); cbn in Hex; injection Hex as <- <-.
      * hbind. iApply (wp_store_set with "Hs"); [done|]. iIntros "Hs". hret. by iApply "HΦ".
      * hret. by iApply "HΦ".
    + injection Hex as <- <-. hret. by iApply "HΦ".
  - destruct Hr0 as [l ->]. iDestruct "Hr" as (l' v [Hl' ->]) "[Hu Hv]". injection Hl' as <-.
    hbind. iApply (wp_in_use_value with "Hu"). iIntros "Hu". hbind. iApply (wp_str_at with "Hv"). iIntros "Hv".
    destruct (parse_int64 str0) as [n|]; [|injection Hex as <- <-; hret; iApply "HΦ"; by iApply (in_use_same with "Hu Hv")].
    hbind. destruct (incr_checked n d) as [[val|]|] eqn:Hi; [| |done]; iApply (wp_lift _ _ _ eq_refl); cbn in Hex; injection Hex as <- <-.
    + hbind. iApply (wp_free_str with "Hv"). hbind. iApply wp_xstrdup. iIntros (v') "Hv".
      iDestruct "Hu" as (e (Hs & Hk & He)) "Hh". hbind. iApply (wp_hole_set with "Hh"); [done|]. iIntros "Hh". hret. iApply "HΦ".
      rw (write_with_v _ _ _ _ Hs Hk). by iApply (hole_close _ _ _ _ (V_str (fmt_d val)) with "Hh Hv").
    + hret. iApply "HΦ". by iApply (in_use_same with "Hu Hv").
Qed.

(** ** Lists *)

Lemma new_list l : l ↦ B_list None None 0 ⊢ value_at (V_list list_empty) (Some l).
Proof.
  iIntros "Hl". cbn [value_at]. rw (proj2 list_empty_spec). iExists l, None, None. by iFrame.
Qed.

Lemma wp_store_list_push s p k v b now s' r Φ :
  store_wf s → Store.store_list_push s k v b now = Ret (s', r) →
  store_at s p ⊢ (store_at s' p -∗ Φ r) -∗ wp (store_list_push p k v b now) Φ.
Proof.
  intros Hwf Hex. apply (wp_update V_list as_list STORE_TYPE_LIST s p k now list_empty (B_list None None 0)
    (λ l, l' ← DList.list_push l v b; Ret (l', l_len l')) (λ q, list_push q v b)); [done|apply new_list| |].
  - iIntros (l q l' n Ψ Hl HF) "Hq HΨ". assert (list_wf l) as Hlwf by (destruct Hl as [[? _]| ->]; [done|apply list_empty_spec]).
    destruct (list_push_spec l v b Hlwf) as (l2 & Hp & Hwf2 & He). rw Hp in HF. cbn in HF. injection HF as -> <-.
    rw (list_len_spec _ Hwf2) He push_list_length. iApply (wp_list_push with "Hq"). iIntros "Hq". iApply "HΨ". cbn [value_at]. by rw He.
  - revert Hex. unfold Store.store_list_push. destruct (Store.lookup_typed s k as_list now) as [s1 [[]|l]]; try done;
      by destruct (DList.list_push _ v b).
Qed.

(** Deleting the key of a container that is empty. *)
Lemma wp_maybe_del s p k now (empty : bool) Φ :
  store_shape s →
  store_at s p ⊢ (store_at (if empty then (Store.store_del s k now).1 else s) p -∗ Φ tt) -∗
  wp (if empty then store_del p k now;; mret tt else mret tt) Φ.
Proof.
  iIntros (Hs) "Hs HΦ". destruct empty; [|hret; by iApply "HΦ"]. hbind. iApply (wp_store_del with "Hs"); [done|]. iIntros "Hs".
  hret. by iApply "HΦ".
Qed.

Lemma write_shape_of s p key l {A} (mkv : A → Value) t a a' v :
  in_use mkv t s p key l a v ⊢ ⌜store_shape (write_entry s key (with_v (mkv a')))⌝.
Proof. iIntros "(%e & (%Hs & %Hk & _) & _)". iPureIntro. by apply (write_shape s key e (with_v (mkv a')) Hs Hk). Qed.

Lemma wp_pop s p k b now now' s' r Φ :
  store_wf s → Store.store_list_pop s k b now now' = Ret (s', r) →
  store_at s p ⊢ (store_at s' p -∗ Φ (out R_bytes r)) -∗
  wp (r ← store_list_pop p k b now now'; answered (λ v, s ← str_at v; free_block v;; mret (R_bytes s)) r) Φ.
Proof.
  iIntros (Hwf Hex) "Hs HΦ". unfold store_list_pop, Store.store_list_pop in *. hbind. hbind.
  iApply (wp_lookup_typed V_list as_list STORE_TYPE_LIST with "Hs"); [apply Hwf|]. iIntros (r0) "Hr". unfold typed_up.
  destruct (Store.lookup_typed s k as_list now) as [s1 [st|l]].
  - injection Hex as <- <-. iDestruct "Hr" as "[-> Hs]". hret. hret. by iApply "HΦ".
  - iDestruct "Hr" as (le v [-> ->]) "[Hu Hv]". hbind.
    iAssert ⌜list_wf l⌝%I as %Hlwf.
    { iDestruct "Hu" as (e (Hs & Hk & He)) "Hh". iPureIntro. pose proof (proj2 Hwf _ _ Hk) as H. cbn in H. rw He in H. apply H. }
    iApply (wp_in_use_value with "Hu"). iIntros "Hu". cbn [value_at]. hbind. iApply (wp_list_pop with "Hv"). iIntros (r1) "Hr".
    pose proof (list_pop_spec l b Hlwf) as Hp. destruct (pop_list (list_elems l) b) as [[x xs]|].
    + destruct Hp as (l' & Hpop & Hwf' & He). rw Hpop in Hex. cbn in Hex. injection Hex as <- <-.
      iDestruct "Hr" as (q ->) "[Hq Hv]". iDestruct "Hv" as (ll hd tl ->) "[Hl Hn]". hread "Hl".
      iDestruct (write_shape_of _ _ _ _ _ _ _ l' with "Hu") as %Hs1.
      iDestruct (in_use_close _ _ _ _ _ _ _ _ l' _ (Some ll) with "Hu [//] [Hl Hn]") as "Hs".
      { cbn [value_at]. rw He. iExists ll, hd, tl. by iFrame. }
      rw (list_len_spec _ Hwf') He. hbind. iApply (wp_maybe_del with "Hs"); [done|]. iIntros "Hs". hret. cbn [answered].
      hbind. iApply (wp_str_at with "Hq"). iIntros "Hq". hbind. iApply (wp_free_str with "Hq"). hret. by iApply "HΦ".
    + rw Hp in Hex. cbn in Hex. injection Hex as <- <-. iDestruct "Hr" as "[-> Hv]". hret. hret. iApply "HΦ".
      by iApply (in_use_same with "Hu Hv").
Qed.

(** ** Hashes *)

Lemma new_hash l : l ↦ B_hash (replicate HASH_NUM_BUCKETS None) 0 ⊢ value_at (V_hash hash_empty) (Some l).
Proof.
  iIntros "Hl". iDestruct (table_empty hash_node (λ ps, B_hash ps 0) with "Hl") as (ps) "[Hl Hcs]".
  iExists l, ps. iFrame. by iPureIntro.
Qed.

Lemma wp_store_hash_set s p k f v now Φ :
  store_wf s →
  store_at s p ⊢ (store_at (Store.store_hash_set s k f v now).1 p -∗ Φ (Store.store_hash_set s k f v now).2) -∗
  wp (store_hash_set p k f v now) Φ.
Proof.
  intros Hwf. apply (wp_update V_hash as_hash STORE_TYPE_HASH s p k now hash_empty (B_hash (replicate HASH_NUM_BUCKETS None) 0)
    (λ h, Ret (FieldHash.hash_put h f v)) (λ q, hash_put q f v)); [done|apply new_hash| |].
  - iIntros (h q h' n Ψ _ HF) "Hq HΨ". iApply (wp_hash_put with "Hq"). injection HF as HF. rw HF. iIntros "Hq". by iApply "HΨ".
  - unfold Store.store_hash_set. destruct (Store.lookup_typed s k as_hash now) as [s1 [[]|h]]; try done;
      by destruct (FieldHash.hash_put _ f v).
Qed.

Lemma wp_hget s p k f now Φ :
  store_wf s →
  store_at s p ⊢ (store_at (Store.store_hash_get s k f now).1 p -∗ Φ (out R_bytes (Store.store_hash_get s k f now).2)) -∗
  wp (r ← store_hash_get p k f now; answered (λ v, s ← str_at v; mret (R_bytes s)) r) Φ.
Proof.
  iIntros (Hwf) "Hs HΦ". unfold store_hash_get, Store.store_hash_get in *. hbind. hbind.
  iApply (wp_lookup_typed V_hash as_hash STORE_TYPE_HASH with "Hs"); [apply Hwf|]. iIntros (r0) "Hr". unfold typed_up.
  destruct (Store.lookup_typed s k as_hash now) as [s1 [st|h]]; cbn [fst snd out].
  - iDestruct "Hr" as "[-> Hs]". hret. hret. by iApply "HΦ".
  - iDestruct "Hr" as (le v [-> ->]) "[Hu Hv]". hbind. iApply (wp_in_use_value with "Hu"). iIntros "Hu".
    hbind. iApply (wp_hash_get with "Hv"). iIntros (r1) "Hr". destruct (hash_get h f) as [x|].
    + iDestruct "Hr" as (lk q w ->) "(%l & %fp & %next & -> & Hl & Hw & Hclose)". hread "Hl". hret. cbn [answered].
      hbind. iApply (wp_str_at with "Hw"). iIntros "Hw". hret. iApply "HΦ". iDestruct ("Hclose" with "Hl Hw") as "Hv".
      by iApply (in_use_same with "Hu Hv").
    + iDestruct "Hr" as "[-> Hv]". hret. hret. iApply "HΦ". by iApply (in_use_same with "Hu Hv").
Qed.

Lemma wp_store_hash_del s p k f now now' Φ :
  store_wf s →
  store_at s p ⊢ (store_at (Store.store_hash_del s k f now now').1 p -∗ Φ (Store.store_hash_del s k f now now').2) -∗
  wp (store_hash_del p k f now now') Φ.
Proof.
  iIntros (Hwf) "Hs HΦ". unfold store_hash_del, Store.store_hash_del in *. hbind.
  iApply (wp_lookup_typed V_hash as_hash STORE_TYPE_HASH with "Hs"); [apply Hwf|]. iIntros (r0) "Hr".
  iDestruct (typed_result with "Hr") as %Hr0. unfold typed_up.
  destruct (Store.lookup_typed s k as_hash now) as [s1 [st|h]]; cbn [snd] in Hr0.
  - destruct Hr0 as [-> Hst]. iDestruct "Hr" as "[_ Hs]". destruct Hst as [-> | ->]; hret; by iApply "HΦ".
  - destruct Hr0 as [le' ->]. iDestruct "Hr" as (le v [Hle ->]) "[Hu Hv]". injection Hle as <-.
    hbind. iApply (wp_in_use_value with "Hu"). iIntros "Hu". hbind. iApply (wp_hash_remove with "Hv"). iIntros "Hv".
    destruct (hash_del h f) as [h' deleted]. cbn [fst snd].
    iDestruct "Hv" as (l ps -> Hlen) "[Hl Hcs]". hread "Hl".
    iDestruct (write_shape_of _ _ _ _ _ _ _ h' with "Hu") as %Hs1.
    iDestruct (in_use_close _ _ _ _ _ _ _ _ h' _ (Some l) with "Hu [//] [Hl Hcs]") as "Hs".
    { iExists l, ps. by iFrame. }
    hbind. iApply (wp_maybe_del with "Hs"); [done|]. iIntros "Hs". hret. by iApply "HΦ".
Qed.

(** ** Sorted sets *)

Lemma new_zset l : l ↦ B_zset None 0 0 None 0 ⊢ value_at (V_zset zset_empty) (Some l).
Proof.
  iIntros "Hl". iExists l, None, None, ∅. iFrame "Hl". unfold strings_at. rw big_sepM_empty.
  repeat (iSplit; [iPureIntro; by repeat constructor|]). done.
Qed.

Lemma wp_store_zset_add s p k sc m now s' r Φ :
  store_wf s → is_nan sc = false → Store.store_zset_add s k sc m now = Ret (s', r) →
  store_at s p ⊢ (store_at s' p -∗ Φ r) -∗ wp (store_zset_add p k sc m now) Φ.
Proof.
  intros Hwf Hnan Hex. apply (wp_update V_zset as_zset STORE_TYPE_ZSET s p k now zset_empty (B_zset None 0 0 None 0)
    (λ z, ZSet.zset_add z sc m) (λ q, zset_add q sc m)); [done|apply new_zset| |].
  - iIntros (z q z' n Ψ Hz HF) "Hq HΨ". assert (zset_wf z) as Hzwf by (destruct Hz as [[? _]| ->]; [done|apply zset_empty_spec]).
    by iApply (wp_zset_add with "Hq").
  - revert Hex. unfold Store.store_zset_add. destruct (Store.lookup_typed s k as_zset now) as [s1 [[]|z]]; try done.
Qed.

Lemma lookup_typed_same {A} s key (proj : Value → option A) now s1 a :
  Store.lookup_typed s key proj now = (s1, inr a) → s1 = s.
Proof.
  unfold Store.lookup_typed, Store.lookup. destruct (lookup_loop _ key _ now) as [| |e]; [done|done|].
  destruct (proj (e_v e)); [congruence|done].
Qed.

Lemma wp_store_zset_score s p k m now Φ :
  store_wf s →
  store_at s p ⊢ (store_at (Store.store_zset_score s k m now).1 p -∗ Φ (Store.store_zset_score s k m now).2) -∗
  wp (store_zset_score p k m now) Φ.
Proof.
  intros Hwf. apply (wp_on_value V_zset as_zset STORE_TYPE_ZSET s p k now (λ zset,
    n ← zindex_find zset m (hash64 m);
    match n with None => mret (inl STORE_NOT_FOUND) | Some _ => sc ← score_of n; mret (inr sc) end)); [done|].
  unfold Store.store_zset_score. destruct (Store.lookup_typed s k as_zset now) as [s1 [st|z]] eqn:Hl; [done|].
  apply lookup_typed_same in Hl as ->. iIntros (l v [Hz _]) "Hu Hv HΦ". cbn [fst snd value_at].
  hbind. iApply (wp_find_member with "Hv"); [done|]. iIntros (r) "Hr". unfold zset_score.
  destruct (ZSet.zindex_find z m (hash64 m)) as [n|]; cbn [fmap option_fmap option_map].
  - iDestruct "Hr" as (ln mn next ->) "[Hn Hclose]". hbind. iApply (wp_score_of with "Hn"). iIntros "Hn". hret. iApply "HΦ".
    iApply (in_use_same with "Hu"). by iApply "Hclose".
  - iDestruct "Hr" as "[-> Hv]". hret. iApply "HΦ". by iApply (in_use_same with "Hu Hv").
Qed.

Lemma wp_store_zset_rank s p k m now s' r Φ :
  store_wf s → Store.store_zset_rank s k m now = Ret (s', r) →
  store_at s p ⊢ (store_at s' p -∗ Φ r) -∗ wp (store_zset_rank p k m now) Φ.
Proof.
  intros Hwf Hex. apply (wp_on_value V_zset as_zset STORE_TYPE_ZSET s p k now (λ zset,
    n ← zindex_find zset m (hash64 m);
    match n with
    | None => mret (inl STORE_NOT_FOUND)
    | Some _ => sc ← score_of n; r ← zset_lower_bound zset sc m; mret (inr r)
    end)); [done|].
  unfold Store.store_zset_rank in Hex. destruct (Store.lookup_typed s k as_zset now) as [s1 [st|z]] eqn:Hl; [by injection Hex as <- <-|].
  apply lookup_typed_same in Hl as ->. iIntros (l v [Hz _]) "Hu Hv HΦ". cbn [value_at].
  hbind. iApply (wp_find_member with "Hv"); [done|]. iIntros (r1) "Hr". unfold zset_rank in Hex.
  destruct (ZSet.zindex_find z m (hash64 m)) as [n|].
  - iDestruct "Hr" as (ln mn next ->) "[Hn Hclose]". hbind. iApply (wp_score_of with "Hn"). iIntros "Hn".
    iDestruct ("Hclose" with "Hn") as "Hv". destruct (ZSet.zset_lower_bound z (zn_score n) m) as [i|] eqn:Hi; [|done].
    cbn in Hex. injection Hex as <- <-. hbind. iApply (wp_zset_rank with "Hv"); [done|]. iIntros "Hv". hret. iApply "HΦ".
    by iApply (in_use_same with "Hu Hv").
  - cbn in Hex. injection Hex as <- <-. iDestruct "Hr" as "[-> Hv]". hret. iApply "HΦ". by iApply (in_use_same with "Hu Hv").
Qed.

(** ** Streams *)

Lemma new_stream l : l ↦ B_stream None None 0 (mkId 0 0) ⊢ value_at (V_stream stream_empty) (Some l).
Proof. iIntros "Hl". iExists l, None, None. iFrame "Hl". by iSplit. Qed.

(** ID resolution only looks at the last ID and the length. *)
Lemma resolve_view x spec now :
  resolve_new_id (Some {| st_entries := []; st_len := st_len x; st_last_id := st_last_id x |}) spec now =
  resolve_new_id (Some x) spec now.
Proof. done. Qed.

Lemma wp_store_stream_add s p k spec fs now now' Φ :
  store_wf s →
  store_at s p ⊢
  (store_at (Store.store_stream_add s k spec fs now now').1 p -∗ Φ (Store.store_stream_add s k spec fs now now').2) -∗
  wp (store_stream_add p k spec fs now now') Φ.
Proof.
  iIntros (Hwf) "Hs HΦ". unfold store_stream_add, Store.store_stream_add. hbind.
  iApply (wp_lookup_typed V_stream as_stream STORE_TYPE_STREAM with "Hs"); [apply Hwf|]. iIntros (r0) "Hr".
  iDestruct (typed_result with "Hr") as %Hr0.
  destruct (Store.lookup_typed s k as_stream now) as [s1 [st|x]] eqn:Hl; cbn [snd] in Hr0.
  - destruct Hr0 as [-> Hst]. destruct Hst as [-> | ->]; cbv beta iota.
    + hbind. hret. hbind. hret. destruct (resolve_new_id None spec now') as [err|id].
      * unfold typed_up. rw Hl. iDestruct "Hr" as "[_ Hs]". hret. by iApply "HΦ".
      * hbind. iApply (wp_value_or_new V_stream as_stream STORE_TYPE_STREAM with "Hr"); [done|apply new_stream|done|].
        iIntros (l v). rw Hl. iIntros (_) "Hu Hv". hbind. iApply (wp_stream_append with "Hv"). iIntros "Hv". hret. iApply "HΦ".
        by iApply (in_use_close V_stream with "Hu [//] Hv").
    + unfold typed_up. rw Hl. iDestruct "Hr" as "[_ Hs]". hret. by iApply "HΦ".
  - destruct Hr0 as [le ->]. pose proof (lookup_typed_same _ _ _ _ _ _ Hl) as ->. unfold typed_up. rw Hl.
    iDestruct "Hr" as (le' v [Hle _]) "[Hu Hv]". injection Hle as <-.
    hbind. iApply (wp_in_use_value with "Hu"). iIntros "Hu". iDestruct "Hv" as (l hd tl ->) "[Hl Hn]". cbn [stream_view].
    hbind. hread "Hl". hret. rw resolve_view.
    iAssert (value_at (V_stream x) (Some l)) with "[Hl Hn]" as "Hv"; [iExists l, hd, tl; by iFrame|].
    destruct (resolve_new_id (Some x) spec now') as [err|id].
    + hret. iApply "HΦ". by iApply (in_use_same with "Hu Hv").
    + cbn [value_or_new]. hbind. iApply (wp_in_use_value with "Hu"). iIntros "Hu". hbind. iApply (wp_stream_append with "Hv").
      iIntros "Hv". hret. iApply "HΦ". by iApply (in_use_close V_stream with "Hu [//] Hv").
Qed.

(** ** Any call *)

(** A call whose answer is [f] of its result. *)
Lemma wp_answered {A} (f : A → answer) (m : Mem (StoreStatus + A)) P Q (r : StoreStatus + A) Φ :
  (∀ Ψ, P ⊢ (Q -∗ Ψ r) -∗ wp m Ψ) →
  P ⊢ (Q -∗ Φ (out f r)) -∗ wp (r ← m; answered (λ a, mret (f a)) r) Φ.
Proof.
  iIntros (Hm) "HP HΦ". hbind. iApply (Hm with "HP"). iIntros "HQ". destruct r; hret; by iApply "HΦ".
Qed.

Lemma wp_map {X} (f : X → answer) (m : Mem X) P Q x Φ :
  (∀ Ψ, P ⊢ (Q -∗ Ψ x) -∗ wp m Ψ) → P ⊢ (Q -∗ Φ (f x)) -∗ wp (x ← m; mret (f x)) Φ.
Proof. iIntros (Hm) "HP HΦ". hbind. iApply (Hm with "HP"). iIntros "HQ". hret. by iApply "HΦ". Qed.

(** A call on the heap does what the call on the model does, to the memory of
    the store and to nothing else. *)
Lemma wp_exec s p o now now' s' a Φ :
  store_wf s → op_ok o → StoreSpec.exec s o now now' = Ret (s', a) →
  store_at s p ⊢ (store_at s' p -∗ Φ a) -∗ wp (exec p o now now') Φ.
Proof.
  intros Hwf Hok Hex. destruct o; cbn [exec StoreSpec.exec op_ok] in *; unfold outp in Hex.
  - rw (surjective_pairing (Store.store_del s k now)) in Hex. injection Hex as <- <-.
    apply (wp_map R_bool). intros Ψ. apply wp_store_del, Hwf.
  - rw (surjective_pairing (Store.store_exists s k now)) in Hex. injection Hex as <- <-.
    apply (wp_map R_bool). intros Ψ. apply wp_store_exists, Hwf.
  - rw (surjective_pairing (Store.store_type s k now)) in Hex. injection Hex as <- <-.
    apply (wp_map R_type). intros Ψ. apply wp_store_type, Hwf.
  - rw (surjective_pairing (Store.store_get_expiry s k now)) in Hex. injection Hex as <- <-.
    apply (wp_map R_int). intros Ψ. apply wp_store_get_expiry, Hwf.
  - injection Hex as <- <-. apply (wp_map (λ _, R_unit) _ _ _ tt). intros Ψ. by apply wp_store_set.
  - injection Hex as <- <-. by apply wp_get.
  - destruct (Store.store_incrby s k delta now now') as [[s1 r]|] eqn:Hc; [|done]. injection Hex as <- <-.
    apply wp_answered. intros Ψ. by apply wp_store_incrby.
  - destruct (Store.store_list_push s k v at_head now) as [[s1 r]|] eqn:Hc; [|done]. injection Hex as <- <-.
    apply (wp_answered (λ n, R_int (Z.of_nat n))). intros Ψ. by apply wp_store_list_push.
  - destruct (Store.store_list_pop s k at_head now now') as [[s1 r]|] eqn:Hc; [|done]. injection Hex as <- <-. by apply wp_pop.
  - injection Hex as <- <-. apply (wp_read_value V_list as_list STORE_TYPE_LIST); [done|]. intros l v Ψ.
    apply (wp_map (λ xs, R_value (A_list xs))). intros. apply wp_load_list.
  - injection Hex as <- <-. apply wp_answered. intros Ψ. by apply wp_store_hash_set.
  - injection Hex as <- <-. by apply wp_hget.
  - injection Hex as <- <-. apply wp_answered. intros Ψ. by apply wp_store_hash_del.
  - injection Hex as <- <-. apply (wp_read_value V_hash as_hash STORE_TYPE_HASH); [done|]. intros h v Ψ. rw -(field_pairs h).
    apply (wp_map (λ fs, R_value (A_hash (list_to_map fs)))). intros. apply wp_load_hash.
  - destruct (Store.store_zset_add s k score m now) as [[s1 r]|] eqn:Hc; [|done]. injection Hex as <- <-.
    apply wp_answered. intros Ψ. by apply wp_store_zset_add.
  - injection Hex as <- <-. apply wp_answered. intros Ψ. by apply wp_store_zset_score.
  - destruct (Store.store_zset_rank s k m now) as [[s1 r]|] eqn:Hc; [|done]. injection Hex as <- <-.
    apply (wp_answered (λ n, R_int (Z.of_nat n))). intros Ψ. by apply wp_store_zset_rank.
  - injection Hex as <- <-. apply (wp_read_value V_zset as_zset STORE_TYPE_ZSET); [done|]. intros z v Ψ.
    apply (wp_map (λ xs, R_value (A_zset xs))). intros. apply wp_load_zset.
  - injection Hex as <- <-. apply wp_answered. intros Ψ. by apply wp_store_stream_add.
  - injection Hex as <- <-. apply (wp_read_value V_stream as_stream STORE_TYPE_STREAM); [done|]. intros x v Ψ.
    apply (wp_map (λ xs, R_value (A_stream xs))). intros. apply wp_load_stream.
Qed.

(** ** Counting and scanning *)

(** A [visit] that keeps the keys, as the one of KEYS does. *)
Definition visit_key (keys : list bytes) (e : ptr) : Mem (list bytes) :=
  r ← read e entry_of;
  let '(k, _, _, _, _, _) := r in
  s ← str_at k;
  mret (keys ++ [s]).

(** [store_count] and [store_scan] read the number of keys and, in the order of
    the chains, the keys that are live, and leave the memory of the store. *)
Lemma scan_memory s p now hv h :
  holds_in (store_at s p) hv → hv ##ₘ h →
  ∃ hv', (n ← store_count p; keys ← store_scan p now visit_key []; mret (n, keys)) (hv ∪ h) =
    Ret ((Store.store_count s, Store.store_scan s now (λ keys e, keys ++ [e_key e]) []), hv' ∪ h) ∧
    hv' ##ₘ h ∧ holds_in (store_at s p) hv'.
Proof.
  intros Hs Hd.
  destruct (wp_run (store_at s p) (n ← store_count p; keys ← store_scan p now visit_key []; mret (n, keys))
    (λ a, ⌈a = (Store.store_count s, Store.store_scan s now (λ keys e, keys ++ [e_key e]) [])⌉ ∗ store_at s p)%I hv h)
    as (a & hv' & Hr & Hd' & H); [|done..|].
  - iIntros "Hs". hbind. iApply (wp_store_count with "Hs"). iIntros "Hs". hbind.
    iApply (wp_store_scan now visit_key (λ keys e, keys ++ [e_key e]) with "Hs").
    + iIntros (keys e next l Ψ) "(%k & %v & Hl & Hk & Hv) HΨ". unfold visit_key. hread "Hl".
      hbind. iApply (wp_str_at with "Hk"). iIntros "Hk". hret. iApply "HΨ". iExists k, v. iFrame.
    + iIntros "Hs". hret. by iFrame.
  - destruct H as (h1 & h2 & -> & _ & [-> ->] & H). rw (left_id_L ∅ (∪)) in Hr, Hd'. by exists h2.
Qed.

(** ** The life of a store *)

(** A client of [store.h] that makes the calls [cs]. *)
Fixpoint run_calls (p : ptr) (cs : list call) : Mem (list answer) :=
  match cs with
  | [] => mret []
  | c :: cs' =>
      a ← exec p (c_op c) (c_now c) (c_now' c);
      rest ← run_calls p cs';
      mret (a :: rest)
  end.

Definition lifetime (cs : list call) : Mem (list answer) :=
  store ← store_create;
  answers ← run_calls store cs;
  store_destroy store;;
  mret answers.

Lemma wp_run_calls t ks cs s p Φ :
  refines t s ks → calls_ok t cs →
  store_at s p ⊢ (∀ s', store_at s' p -∗ Φ (spec_run ks cs).2) -∗ wp (run_calls p cs) Φ.
Proof.
  revert t ks s Φ. induction cs as [|c cs IH]; iIntros (t ks s Φ HR Hcs) "Hs HΦ"; cbn [run_calls spec_run].
  - hret. by iApply "HΦ".
  - destruct Hcs as (Ht & Hok & Hcs). apply (refines_tick _ _ _ _ Ht) in HR.
    destruct (exec_sim (c_now c) (c_now' c) s _ (c_op c) HR Hok) as (s1 & Hex & HR1).
    destruct (spec (live (c_now c) ks) (c_op c) (c_now c) (c_now' c)) as [ks1 a]. cbn [fst snd] in *.
    hbind. iApply (wp_exec with "Hs"); [apply HR|done|exact Hex|]. iIntros "Hs". hbind.
    iApply (IH with "Hs"); [exact HR1|done|]. iIntros (s2) "Hs". hret. destruct (spec_run ks1 cs). by iApply "HΦ".
Qed.

Lemma wp_lifetime t cs Φ : calls_ok t cs → Φ (spec_run ∅ cs).2 ⊢ wp (lifetime cs) Φ.
Proof.
  iIntros (Hcs) "HΦ". unfold lifetime. hbind. iApply wp_store_create. iIntros (p) "Hs". hbind.
  iApply (wp_run_calls with "Hs"); [apply refines_create_store|done|]. iIntros (s) "Hs". hbind.
  iApply (wp_store_destroy with "Hs"). by hret.
Qed.

(** C2: over the whole life of a store - [store_create], any calls of
    [store.h] on keys ([op]: all but [store_count] and [store_scan]) with scores
    that are not NaN, at non-decreasing times, [store_destroy] - the code on the
    heap has no undefined behaviour (no pointer to freed memory, nothing freed
    twice, no index out of range), the calls answer what the abstract keyspace
    answers, and the heap is afterwards exactly what it was: nothing leaks and
    nothing else is touched. *)
Theorem store_lifetime_exact (t : Z) (cs : list call) (h : Heap) :
  calls_ok t cs → lifetime cs h = Ret ((spec_run ∅ cs).2, h).
Proof.
  intros Hcs.
  destruct (wp_run emp%I (lifetime cs) (λ a, ⌈a = (spec_run ∅ cs).2⌉)%I ∅ h) as (a & h' & Hr & _ & H);
    [|done|apply map_disjoint_empty_l|].
  - iIntros "_". by iApply (wp_lifetime t).
  - destruct H as [-> ->]. by rw !(left_id_L ∅ (∪)) in Hr.
Qed.

Definition life_calls : list call :=
  [mkCall (OP_set #"k" #"41" 1000) 10 10; mkCall (OP_incrby #"k" 1) 20 20;
   mkCall (OP_push #"l" #"a" true) 30 30; mkCall (OP_hset #"h" #"f" #"v") 31 31;
   mkCall (OP_xadd #"s" #"5-1" [(#"f", #"v")]) 32 32; mkCall (OP_get #"k") 1001 1001;
   mkCall (OP_pop #"l" false) 1002 1002; mkCall (OP_get_hash #"h") 1003 1003].

Lemma store_lifetime_exact_witness :
  calls_ok 0 life_calls ∧
  lifetime life_calls {[9%positive := B_chars #"x"]} = Ret ((spec_run ∅ life_calls).2, {[9%positive := B_chars #"x"]}) ∧
  (spec_run ∅ life_calls).2 =
    [R_unit; R_int 42; R_int 1; R_int 1; R_id (mkId 5 1); R_err STORE_NOT_FOUND; R_bytes #"a";
     R_value (A_hash {[#"f" := #"v"]})].
Proof.
  assert (calls_ok 0 life_calls) as Hok by (vm_compute; intuition congruence).
  split; [exact Hok|]. split; [exact (store_lifetime_exact 0 life_calls {[9%positive := B_chars #"x"]} Hok)|].
  vm_compute. reflexivity.
Defined.

(** C3: one call of [store.h] on a key ([op]: any but [store_count] and
    [store_scan]; a score is not NaN) on the memory of a well-formed store
    returns what the call returns on the model, and what it leaves, beside the
    rest of the heap, is exactly the memory of the store that the model has
    afterwards. *)
Theorem store_memory_exact (s : Store) (p : ptr) (o : op) (now now' : Z) (hv h : Heap) :
  store_wf s → op_ok o → holds_in (store_at s p) hv → hv ##ₘ h →
  ∃ s' a hv', StoreSpec.exec s o now now' = Ret (s', a) ∧ store_wf s' ∧
    exec p o now now' (hv ∪ h) = Ret (a, hv' ∪ h) ∧ hv' ##ₘ h ∧ holds_in (store_at s' p) hv'.
Proof.
  intros Hwf Hok Hs Hd. destruct (exec_sim now now' s _ o (conj Hwf eq_refl) Hok) as (s' & Hex & Hwf' & _).
  destruct (wp_run (store_at s p) (exec p o now now') (λ a, ⌈a = (spec (live now (abs s)) o now now').2⌉ ∗ store_at s' p)%I hv h)
    as (a & hv' & Hr & Hd' & H); [|done..|].
  - iIntros "Hs". iApply (wp_exec with "Hs"); [done..|]. iIntros "Hs". by iFrame.
  - destruct H as (h1 & h2 & -> & _ & [-> ->] & H). rw (left_id_L ∅ (∪)) in Hr, Hd'. by exists s', (spec (live now (abs s)) o now now').2, h2.
Qed.

(** The memory of a new store. *)
Definition new_heap : Heap :=
  {[1%positive := B_store (Some 2%positive) STORE_INITIAL_BUCKETS 0]} ∪
  {[2%positive := B_buckets (replicate STORE_INITIAL_BUCKETS None)]}.

Lemma new_heap_store : holds_in (store_at Store.store_create (Some 1%positive)) new_heap.
Proof.
  apply (entails_holds (1%positive ↦ B_store (Some 2%positive) STORE_INITIAL_BUCKETS 0 ∗
    2%positive ↦ B_buckets (replicate STORE_INITIAL_BUCKETS None))%I).
  - iIntros "[Hl Hbs]". iExists 1%positive, 2%positive. iFrame "Hl". do 2 (iSplit; [done|]). by iApply (table_empty with "Hbs").
  - exists {[1%positive := B_store (Some 2%positive) STORE_INITIAL_BUCKETS 0]}, {[2%positive := B_buckets (replicate STORE_INITIAL_BUCKETS None)]}.
    split; [done|]. split; [by apply map_disjoint_singleton_l|done].
Qed.

Definition other_heap : Heap := {[9%positive := B_chars #"x"]}.

Lemma store_memory_exact_witness :
  store_wf Store.store_create ∧ holds_in (store_at Store.store_create (Some 1%positive)) new_heap ∧
  ∃ s' a hv', StoreSpec.exec Store.store_create (OP_push #"k" #"v" true) 5 5 = Ret (s', a) ∧ store_wf s' ∧
    exec (Some 1%positive) (OP_push #"k" #"v" true) 5 5 (new_heap ∪ other_heap) = Ret (a, hv' ∪ other_heap) ∧
    hv' ##ₘ other_heap ∧ holds_in (store_at s' (Some 1%positive)) hv'.
Proof.
  assert (store_wf Store.store_create) as Hwf by apply store_create_spec.
  split; [exact Hwf|]. split; [exact new_heap_store|].
  apply (store_memory_exact Store.store_create (Some 1%positive) (OP_push #"k" #"v" true) 5 5 new_heap other_heap).
  - exact Hwf.
  - exact I.
  - exact new_heap_store.
  - by apply map_disjoint_union_l; split; apply map_disjoint_singleton_l.
Defined.

End StoreHeapProps.
