(* ===== verification/ValueProps.v ===== *)
(** * What the value types promise

    The theorems on the data structures behind the keys: the pointer-linked
    list, the chained hash, the sorted set with its two indexes, stream IDs and
    the byte buffer. *)

From S2P Require Import Prelude CLib Util Chain FieldHash DList Dbl ZSet Stream StoreSpec.
Import Util FieldHash DList Dbl ZSet Stream StoreSpec.

Module ValueProps.

(** ** Lists *)

(** A sequence of pushes and pops; the answers are the values popped. *)
Inductive list_op :=
| L_push (v : bytes) (at_head : bool)
| L_pop (at_head : bool).

Fixpoint list_run (l : List) (ops : list list_op) : res (List * list (option bytes)) :=
  match ops with
  | [] => Ret (l, [])
  | L_push v b :: ops' => l ← list_push l v b; list_run l ops'
  | L_pop b :: ops' =>
      r ← list_pop l b;
      match r with
      | None => r' ← list_run l ops'; Ret (r'.1, None :: r'.2)
      | Some (v, l) => r' ← list_run l ops'; Ret (r'.1, Some v :: r'.2)
      end
  end.

Fixpoint deque_run (xs : list bytes) (ops : list list_op) : list bytes * list (option bytes) :=
  match ops with
  | [] => (xs, [])
  | L_push v b :: ops' => deque_run (push_list xs v b) ops'
  | L_pop b :: ops' =>
      match pop_list xs b with
      | None => let '(xs', out) := deque_run xs ops' in (xs', None :: out)
      | Some (v, xs) => let '(xs', out) := deque_run xs ops' in (xs', Some v :: out)
      end
  end.

Lemma list_run_spec l ops :
  list_wf l →
  ∃ l', list_run l ops = Ret (l', (deque_run (list_elems l) ops).2) ∧ list_wf l' ∧
        list_elems l' = (deque_run (list_elems l) ops).1.
Proof.
  revert l; induction ops as [|[v b|b] ops IH]; intros l Hwf; cbn [list_run deque_run].
  - by exists l.
  - destruct (list_push_spec l v b Hwf) as (l1 & -> & Hwf1 & <-). by apply IH.
  - pose proof (list_pop_spec l b Hwf) as Hp. destruct (pop_list (list_elems l) b) as [[v xs]|].
    + destruct Hp as (l1 & -> & Hwf1 & <-). destruct (IH l1 Hwf1) as (l2 & Hr & Hwf2 & He2).
      cbn [mbind res_bind]. rewrite Hr. destruct (deque_run (list_elems l1) ops). by exists l2.
    + rewrite Hp. destruct (IH l Hwf) as (l2 & Hr & Hwf2 & He2).
      cbn [mbind res_bind]. rewrite Hr. destruct (deque_run (list_elems l) ops). by exists l2.
Qed.

(** C19: any sequence of pushes and pops at either end of the doubly linked list,
    from the empty list, follows only valid pointers and behaves like a deque;
    afterwards the length field is right and walking the [next] pointers over
    any range inside it reads exactly that range. *)
Theorem list_deque (ops : list list_op) :
  ∃ l, list_run list_empty ops = Ret (l, (deque_run [] ops).2) ∧
       l_len l = length (deque_run [] ops).1 ∧
       ∀ first n, first + n ≤ l_len l →
         (p ← skip_nodes l (l_head l) first; read_nodes l p n)
         = Ret (take n (drop first (deque_run [] ops).1)).
Proof.
  destruct list_empty_spec as [Hwf He]. destruct (list_run_spec list_empty ops Hwf) as (l & Hr & Hwf' & He').
  rewrite He in *. exists l. split_and!; [done|by rewrite list_len_spec, He'|].
  intros first n Hn. by rewrite list_range_spec, He'.
Qed.

(** ** Hashes *)

(** A hash behaves as a finite map: writing a field is read back and leaves
    the other fields alone, deleting one removes exactly it, the returned flags
    say whether the field was new or there, and [len] is the number of fields. *)
Lemma hash_map_laws (h : Hash) (f f' v : bytes) :
  hash_wf h →
  let '(h1, created) := hash_put h f v in
  let '(h2, deleted) := hash_del h f in
  hash_wf h1 ∧ hash_wf h2 ∧
  hash_get h1 f' = (if decide (f' = f) then Some v else hash_get h f') ∧
  hash_get h2 f' = (if decide (f' = f) then None else hash_get h f') ∧
  created = (match hash_get h f with Some _ => 0 | None => 1 end)%Z ∧ deleted = (match hash_get h f with Some _ => 1 | None => 0 end)%Z ∧
  Z.of_nat (hash_len h1) = (Z.of_nat (hash_len h) + created)%Z ∧
  Z.of_nat (hash_len h2) = (Z.of_nat (hash_len h) - deleted)%Z.
Proof.
  intros Hwf. pose proof (hash_put_spec h f v Hwf) as Hp. pose proof (hash_del_spec h f Hwf) as Hd.
  destruct (hash_put h f v) as [h1 c]. destruct (hash_del h f) as [h2 d].
  destruct Hp as (Hwf1 & Hm1 & ->), Hd as (Hwf2 & Hm2 & ->).
  rewrite !hash_get_spec, !hash_len_spec, Hm1, Hm2 by done. split_and!; try done.
  - destruct (decide (f' = f)) as [->|]; [by rewrite lookup_insert_eq|by rewrite lookup_insert_ne].
  - destruct (decide (f' = f)) as [->|]; [by rewrite lookup_delete_eq|by rewrite lookup_delete_ne].
  - rewrite map_size_insert. destruct (hash_map h !! f); simpl; lia.
  - rewrite map_size_delete. destruct (hash_map h !! f) eqn:Hf; simpl; [|lia].
    assert (size (hash_map h) ≠ 0); [|lia]. intros H0%map_size_empty_iff. by rewrite H0 in Hf.
Qed.

Lemma hash_map_laws_witness :
  hash_wf hash_empty ∧
  let '(h1, created) := hash_put hash_empty #"f" #"v" in
  let '(h2, deleted) := hash_del hash_empty #"f" in
  hash_wf h1 ∧ hash_wf h2 ∧
  hash_get h1 #"f" = (if decide (#"f" = #"f") then Some #"v" else hash_get hash_empty #"f") ∧
  hash_get h2 #"f" = (if decide (#"f" = #"f") then None else hash_get hash_empty #"f") ∧
  created = (match hash_get hash_empty #"f" with Some _ => 0 | None => 1 end)%Z ∧
  deleted = (match hash_get hash_empty #"f" with Some _ => 1 | None => 0 end)%Z ∧
  Z.of_nat (hash_len h1) = (Z.of_nat (hash_len hash_empty) + created)%Z ∧
  Z.of_nat (hash_len h2) = (Z.of_nat (hash_len hash_empty) - deleted)%Z.
Proof.
  split; [apply hash_empty_spec|]. exact (hash_map_laws hash_empty #"f" #"f" #"v" (proj1 hash_empty_spec)).
Defined.

(** ** Sorted sets *)

(** C18: adding a member with any score but NaN to a well-formed sorted set
    never indexes out of bounds, keeps the array sorted by score and then by
    member, keeps each member once, keeps array and member index in agreement,
    and changes the score of that member only. *)
Theorem zset_add_correct (z : ZSet) (score : dbl) (m m' : bytes) :
  zset_wf z → is_nan score = false →
  ∃ z' added, zset_add z score m = Ret (z', added) ∧
    StronglySorted zless (z_entries z') ∧ NoDup (ze_member <$> z_entries z') ∧
    (m' ≠ m → zset_score z' m' = zset_score z m') ∧
    (∃ s, zset_score z' m = Some s ∧ deq s score = true) ∧
    added = (match zset_score z m with Some _ => 0 | None => 1 end)%Z ∧
    Z.of_nat (z_len z') = (Z.of_nat (z_len z) + added)%Z ∧
    zset_wf z' ∧
    ∀ e, e ∈ z_entries z' ↔ zset_score z' (ze_member e) = Some (ze_score e).
Proof.
  intros Hwf Hn. destruct (zset_add_spec z score m Hwf Hn) as (z' & added & Ha & Hwf' & Hm & Hadd).
  exists z', added. rewrite !zset_score_spec by done.
  assert (deq score score = true) as Hrefl by by apply deq_key.
  assert (∀ y, zset_wf y → size (zset_map y) = z_len y) as Hsize
    by (intros y Hy; apply entry_map_size, (zw_nodup _ Hy)).
  split_and!; [done|apply Hwf'|apply Hwf'| | | | |done|].
  - intros Hne. rewrite Hm. destruct (zset_map z !! m) as [s|]; [destruct (deq s score); [done|]|];
      by rewrite lookup_insert_ne.
  - rewrite Hm. destruct (zset_map z !! m) as [s|] eqn:Hs; [destruct (deq s score) eqn:Hd|];
      [by exists s|exists score; by rewrite lookup_insert_eq..].
  - rewrite Hadd. by destruct (zset_map z !! m).
  - rewrite <- !Hsize, Hm, Hadd by done. destruct (zset_map z !! m) as [s|] eqn:Hs.
    + destruct (deq s score); [lia|]. rewrite map_size_insert_Some by (by rewrite Hs). lia.
    + rewrite map_size_insert_None by done. lia.
  - intros e. rewrite zset_score_spec by done. unfold zset_map. rewrite entry_map_lookup by apply Hwf'. split.
    + intros He. by exists e.
    + intros (e' & He' & Hk & Hv). change (ze_member e' = ze_member e) in Hk. change (ze_score e' = ze_score e) in Hv.
      destruct e, e'. simpl in *. by subst.
Qed.

Lemma zset_add_correct_witness :
  zset_wf zset_empty ∧ is_nan (dbl_of_Z 3) = false ∧
  ∃ z' added, zset_add zset_empty (dbl_of_Z 3) #"m" = Ret (z', added) ∧
    StronglySorted zless (z_entries z') ∧ NoDup (ze_member <$> z_entries z') ∧
    (#"n" ≠ #"m" → zset_score z' #"n" = zset_score zset_empty #"n") ∧
    (∃ s, zset_score z' #"m" = Some s ∧ deq s (dbl_of_Z 3) = true) ∧
    added = (match zset_score zset_empty #"m" with Some _ => 0 | None => 1 end)%Z ∧
    Z.of_nat (z_len z') = (Z.of_nat (z_len zset_empty) + added)%Z ∧
    zset_wf z' ∧
    ∀ e, e ∈ z_entries z' ↔ zset_score z' (ze_member e) = Some (ze_score e).
Proof.
  split; [apply zset_empty_spec|]. split; [reflexivity|].
  exact (zset_add_correct zset_empty (dbl_of_Z 3) #"m" #"n" (proj1 zset_empty_spec) eq_refl).
Defined.

(** ZRANK's binary search finds, for a member of the set, the number of
    members strictly before it in the order by score and name, without ever
    probing outside the array, and reports a missing member as missing. *)
Lemma zset_rank_counts (z : ZSet) (m : bytes) :
  zset_wf z →
  zset_rank z m =
  Ret (match zset_score z m with
       | None => None
       | Some s => Some (length (filter (λ e, zbefore e {| ze_member := m; ze_score := s |} = true) (z_entries z)))
       end).
Proof.
  intros Hwf. rewrite zset_score_spec by done. pose proof (zset_rank_spec z m Hwf) as Hr.
  destruct (zset_map z !! m) as [s|]; [|done]. destruct Hr as (l1 & l2 & Hl & ->).
  set (x := {| ze_member := m; ze_score := s |}) in *. do 2 f_equal.
  pose proof (zw_sorted _ Hwf) as Hs. pose proof (zw_numeric _ Hwf) as Hnum. rewrite Hl in Hs, Hnum |- *.
  rewrite Forall_forall in Hnum. assert (numeric x) as Hx by (apply Hnum; set_solver).
  apply StronglySorted_app in Hs as (H1 & _ & H2). apply StronglySorted_cons in H2 as [H2 _].
  rewrite filter_app, (filter_all _ l1), (filter_none _ (x :: l2)), app_nil_r; [done| |].
  - intros e He Hb. apply zbefore_zless in Hb; [|apply Hnum; set_solver|done].
    apply elem_of_cons in He as [->|He]; [by apply zless_irrefl in Hb|].
    rewrite Forall_forall in H2. apply (zless_irrefl x). transitivity e; [by apply H2|done].
  - intros e He. apply zbefore_zless; [apply Hnum, elem_of_app; by left|done|]. apply H1; [done|by left].
Qed.

Lemma zset_rank_counts_witness :
  zset_wf zset_empty ∧
  zset_rank zset_empty #"m" =
  Ret (match zset_score zset_empty #"m" with
       | None => None
       | Some s => Some (length (filter (λ e, zbefore e {| ze_member := #"m"; ze_score := s |} = true)
                                   (z_entries zset_empty)))
       end).
Proof. split; [apply zset_empty_spec|]. exact (zset_rank_counts zset_empty #"m" (proj1 zset_empty_spec)). Defined.

(** ** Stream IDs *)

Lemma split_dash_None s : split_dash s = None ↔ "-"%char ∉ s.
Proof.
  induction s as [|c s IH]; simpl; [split; [intros _ H; inversion H|done]|].
  rewrite not_elem_of_cons. case_bool_decide as Hc; [split; [done|]; intros [Hn _]; by destruct Hn|].
  destruct (split_dash s) as [[a b]|]; [|naive_solver]. split; [done|]. intros [_ Hn]. by apply IH in Hn.
Qed.

Lemma split_dash_Some s a b : split_dash s = Some (a, b) ↔ s = a ++ "-"%char :: b ∧ "-"%char ∉ a.
Proof.
  split; [|intros [-> Ha]; by apply split_dash_app].
  revert a. induction s as [|c s IH]; simpl; intros a; [done|].
  case_bool_decide as Hc; [intros [= <- <-]; subst; split; [done|]; intros H; inversion H|].
  destruct (split_dash s) as [[a' b']|]; [|done]. intros [= <- <-]. destruct (IH a' eq_refl) as [-> Ha'].
  split; [done|]. apply not_elem_of_cons. split; [congruence|done].
Qed.

(** A decimal text of one to twenty digits whose value fits 64 bits. *)
Definition u64_text (s : bytes) (n : Z) : Prop :=
  1 ≤ length s ≤ 20 ∧ Forall (λ c, is_digit c = true) s ∧ dec_acc 0 s = n ∧ (n ≤ UINT64_MAX)%Z.

Lemma parse_u64_text s n : parse_u64 s = Some n ↔ u64_text s n.
Proof.
  rewrite parse_u64_spec. unfold u64_text. case_match eqn:Hc.
  - bools. match goal with Hf : bool_decide _ = true |- _ => apply bool_decide_eq_true in Hf end.
    split; [intros [= <-]; auto with lia|]. by intros (_ & _ & -> & _).
  - split; [done|]. intros (Hl & Hd & Hv & Hn). rewrite bool_decide_eq_true_2 in Hc by done.
    destruct (Nat.leb_spec 1 (length s)), (Nat.leb_spec (length s) 20); simpl in *; lia.
Qed.

(** The parser of stream IDs accepts exactly "ms" and "ms-seq" with decimal
    parts of at most 20 digits that fit 64 bits (no sign, no space, no wrap
    around), and the text the server prints for an ID is parsed back to it. *)
Lemma stream_id_parse_exact (s : bytes) (d : Z) (id : StreamId) :
  (stream_id_parse s d = Some id ↔
     (u64_text s (id_ms id) ∧ id_seq id = d) ∨
     (∃ a b, s = a ++ "-"%char :: b ∧ u64_text a (id_ms id) ∧ u64_text b (id_seq id))) ∧
  (id_wf id → stream_id_parse (fmt_id id) d = Some id).
Proof.
  split; [|apply stream_id_parse_fmt]. unfold stream_id_parse.
  destruct (split_dash s) as [[a b]|] eqn:Hd.
  - apply split_dash_Some in Hd as [-> Ha]. split.
    + destruct (parse_u64 a) as [ms|] eqn:H1; [|done]. destruct (parse_u64 b) as [sq|] eqn:H2; [|done].
      intros [= <-]. right. exists a, b. by rewrite <- !parse_u64_text.
    + intros [[(_ & Hdig & _) _]|(a' & b' & Heq & H1 & H2)].
      { apply digits_no_dash in Hdig. set_solver. }
      assert (split_dash (a' ++ "-"%char :: b') = Some (a', b')) as Hs
        by (apply split_dash_app, digits_no_dash, H1).
      rewrite <- Heq, split_dash_app in Hs by done. injection Hs as -> ->.
      rewrite (proj2 (parse_u64_text _ _) H1), (proj2 (parse_u64_text _ _) H2). by destruct id.
  - apply split_dash_None in Hd. split.
    + destruct (parse_u64 s) as [ms|] eqn:H1; [|done]. intros [= <-]. left. by rewrite <- parse_u64_text.
    + intros [[H1 <-]|(a & b & -> & _)]; [|set_solver].
      rewrite (proj2 (parse_u64_text _ _) H1). by destruct id.
Qed.

Lemma stream_id_parse_exact_witness :
  (stream_id_parse #"5-7" 0 = Some (mkId 5 7) ↔
     (u64_text #"5-7" (id_ms (mkId 5 7)) ∧ id_seq (mkId 5 7) = 0%Z) ∨
     (∃ a b, #"5-7" = a ++ "-"%char :: b ∧ u64_text a (id_ms (mkId 5 7)) ∧ u64_text b (id_seq (mkId 5 7)))) ∧
  (id_wf (mkId 5 7) → stream_id_parse (fmt_id (mkId 5 7)) 0 = Some (mkId 5 7)).
Proof. exact (stream_id_parse_exact #"5-7" 0 (mkId 5 7)). Defined.

Lemma fmt_id_not_auto id : id_wf id → streq (fmt_id id) #"*" = false ∧ ends_dash_star (fmt_id id) = false.
Proof.
  intros [Hm Hs]. unfold fmt_id.
  pose proof (dec_of_digits (id_seq id) ltac:(lia)) as Ds. pose proof (dec_of_length_pos (id_seq id)) as Ls. split.
  - destruct (streq _ _) eqn:E; [|done]. apply streq_true in E.
    assert ("-"%char ∈ lit "*") as Hin by (rewrite <- E; set_solver).
    by apply list_elem_of_singleton in Hin.
  - unfold ends_dash_star. apply andb_false_iff. right. apply bool_decide_eq_false_2.
    rewrite length_app. cbn [length]. intros Hl. rewrite lookup_app_r in Hl by lia.
    replace (_ - _ - _) with (S (length (dec_of (id_seq id)) - 1)) in Hl by lia. simpl in Hl.
    eapply Forall_lookup_1 in Ds; [|exact Hl]. done.
Qed.

(** For an ID given in full, XADD rejects 0-0, rejects an ID that is not
    after the top of the stream, and otherwise uses exactly that ID; with "*"
    the ID is the current millisecond with sequence 0 when the clock is past
    the top, and otherwise the successor of the top, failing only when the
    sequence number is exhausted. *)
Lemma resolve_new_id_complete (stream : option Stream) (id : StreamId) (now : Z) :
  (∀ st, stream = Some st → stream_wf st) → id_wf id → (0 ≤ now ≤ UINT64_MAX)%Z →
  let top := top_id stream in
  resolve_new_id stream (fmt_id id) now =
    (if decide (id = mkId 0 0) then inl STORE_ID_ZERO
     else if (0 <? stream_id_cmp id top)%Z then inr id else inl STORE_ID_TOO_SMALL) ∧
  resolve_new_id stream #"*" now =
    (if (id_ms top <? now)%Z then inr (mkId now 0)
     else if (id_seq top =? UINT64_MAX)%Z then inl STORE_ID_TOO_SMALL
     else inr (mkId (id_ms top) (id_seq top + 1))).
Proof.
  intros Hst Hid Hnow top. unfold resolve_new_id. fold (top_id stream). fold top. split.
  - destruct (fmt_id_not_auto id Hid) as [-> ->]. rewrite stream_id_parse_fmt by done.
    destruct (decide (id = mkId 0 0)) as [->|Hne]; [done|].
    destruct (Z.eqb_spec (id_ms id) 0) as [H1|], (Z.eqb_spec (id_seq id) 0) as [H2|]; simpl.
    { destruct Hne. destruct id; simpl in *; congruence. }
    all: by destruct (Z.leb_spec (stream_id_cmp id top) 0), (Z.ltb_spec 0 (stream_id_cmp id top)); try lia.
  - change (streq #"*" #"*") with true. cbv iota. unfold u64.
    rewrite Z.mod_small by (unfold UINT64_MAX in *; lia). done.
Qed.

Lemma resolve_new_id_complete_witness :
  (∀ st, @None Stream = Some st → stream_wf st) ∧ id_wf (mkId 5 7) ∧ (0 ≤ 3 ≤ UINT64_MAX)%Z ∧
  resolve_new_id None (fmt_id (mkId 5 7)) 3 =
    (if decide (mkId 5 7 = mkId 0 0) then inl STORE_ID_ZERO
     else if (0 <? stream_id_cmp (mkId 5 7) (top_id None))%Z then inr (mkId 5 7) else inl STORE_ID_TOO_SMALL) ∧
  resolve_new_id None #"*" 3 =
    (if (id_ms (top_id None) <? 3)%Z then inr (mkId 3 0)
     else if (id_seq (top_id None) =? UINT64_MAX)%Z then inl STORE_ID_TOO_SMALL
     else inr (mkId (id_ms (top_id None)) (id_seq (top_id None) + 1))).
Proof.
  assert (∀ st, @None Stream = Some st → stream_wf st) as H1 by (intros st Hst; discriminate Hst).
  assert (id_wf (mkId 5 7)) as H2 by (unfold id_wf, UINT64_MAX; simpl; lia).
  assert (0 ≤ 3 ≤ UINT64_MAX)%Z as H3 by (unfold UINT64_MAX; lia).
  split; [exact H1|]. split; [exact H2|]. split; [exact H3|].
  exact (resolve_new_id_complete None (mkId 5 7) 3 H1 H2 H3).
Defined.

(** ** Buffers *)

Inductive buf_op :=
| B_append (src : bytes)
| B_consume (n : nat).

Definition buf_run (b : Buffer) (ops : list buf_op) : Buffer :=
  foldl (λ b o, match o with B_append src => buffer_append b src | B_consume n => buffer_consume b n end) b ops.

Definition queue_run (q : bytes) (ops : list buf_op) : bytes :=
  foldl (λ q o, match o with B_append src => q ++ src | B_consume n => drop n q end) q ops.

(** A buffer is a byte queue: any sequence of appends and consumes leaves
    the bytes appended and not consumed, in order, inside the allocation, whose
    size is zero or 256 doubled some number of times. *)
Theorem buffer_queue (ops : list buf_op) :
  data (buf_run buffer_init ops) = queue_run [] ops ∧
  length (queue_run [] ops) ≤ cap (buf_run buffer_init ops) ∧
  (cap (buf_run buffer_init ops) = 0 ∨ ∃ k, cap (buf_run buffer_init ops) = 256 * 2 ^ k).
Proof.
  assert (∀ b, buffer_wf b → buffer_wf (buf_run b ops) ∧ data (buf_run b ops) = queue_run (data b) ops) as H.
  { unfold buf_run, queue_run. induction ops as [|[src|n] ops IH]; intros b Hb; [done| |]; simpl.
    - apply (IH (buffer_append b src)). auto with pulse.
    - rewrite <- buffer_consume_data. apply IH. auto with pulse. }
  destruct (H buffer_init buffer_init_wf) as [[Hl Hc] Hd]. unfold blen in Hl. rewrite Hd in Hl. done.
Qed.

End ValueProps.
