(* ===== verification/Geo.v ===== *)
(** * geo.c: the bits of a geohash

    The interleaving of the two 26-bit cell numbers into one 52-bit hash and
    its inverse, on unsigned integers. *)

From S2P Require Import Prelude.
Local Open Scope Z_scope.

Module Geo.

Definition GEO_BITS : nat := 26.

(** One turn of the loop of [interleave]. *)
Definition interleave_step (lat_int lng_int result : Z) (i : nat) : Z :=
  let i := Z.of_nat i in
  let result := Z.lor result (Z.shiftl (Z.land (Z.shiftr lat_int i) 1) (2 * i)) in
  Z.lor result (Z.shiftl (Z.land (Z.shiftr lng_int i) 1) (2 * i + 1)).

Definition interleave (lat_int lng_int : Z) : Z :=
  foldl (interleave_step lat_int lng_int) 0 (seq 0 GEO_BITS).

(** One turn of the loop of [deinterleave]: both outputs. *)
Definition deinterleave_step (hash : Z) (acc : Z * Z) (i : nat) : Z * Z :=
  let i := Z.of_nat i in
  (Z.lor acc.1 (Z.shiftl (Z.land (Z.shiftr hash (2 * i)) 1) i),
   Z.lor acc.2 (Z.shiftl (Z.land (Z.shiftr hash (2 * i + 1)) 1) i)).

Definition deinterleave (hash : Z) : Z * Z :=
  foldl (deinterleave_step hash) (0, 0) (seq 0 GEO_BITS).

(** ** Bit by bit *)

Lemma testbit_one_shifted x j p k :
  0 ≤ k → 0 ≤ j → 0 ≤ p →
  Z.testbit (Z.shiftl (Z.land (Z.shiftr x j) 1) p) k = (k =? p) && Z.testbit x j.
Proof.
  intros Hk Hj Hp. rewrite Z.shiftl_spec by done. destruct (Z.eqb_spec k p) as [->|Hne].
  - rewrite Z.sub_diag, Z.land_spec, Z.shiftr_spec by lia. change (Z.testbit 1 0) with true.
    by rewrite andb_true_r.
  - destruct (Z.lt_ge_cases (k - p) 0) as [Hlt|Hge]; [by rewrite Z.testbit_neg_r|].
    rewrite Z.land_spec. change 1 with (Z.ones 1). rewrite Z.ones_spec_high by lia. apply andb_false_r.
Qed.

Lemma interleave_bits n lat lng k :
  0 ≤ k →
  Z.testbit (foldl (interleave_step lat lng) 0 (seq 0 n)) k =
  (k <? 2 * Z.of_nat n) && Z.testbit (if Z.even k then lat else lng) (k / 2).
Proof.
  intros Hk. induction n as [|n IH].
  - cbn [seq foldl]. rewrite Z.testbit_0_l. by destruct (Z.ltb_spec k (2 * Z.of_nat 0)); [lia|].
  - rewrite seq_S, foldl_app. cbn [foldl]. unfold interleave_step at 1. cbv zeta.
    rewrite !Z.lor_spec, IH, !testbit_one_shifted by lia.
    destruct (Z.eqb_spec k (2 * Z.of_nat (0 + n))) as [He|He], (Z.eqb_spec k (2 * Z.of_nat (0 + n) + 1)) as [Ho|Ho]; try lia.
    + assert (Z.even k = true) as -> by (apply Z.even_spec; exists (Z.of_nat n); lia).
      assert (k / 2 = Z.of_nat (0 + n)) as -> by (symmetry; apply Z.div_unique with 0; lia).
      destruct (Z.ltb_spec k (2 * Z.of_nat n)), (Z.ltb_spec k (2 * Z.of_nat (S n))); try lia.
      simpl. by rewrite orb_false_r.
    + assert (Z.even k = false) as -> by (rewrite <- Z.negb_odd; apply negb_false_iff, Z.odd_spec; exists (Z.of_nat n); lia).
      assert (k / 2 = Z.of_nat (0 + n)) as -> by (symmetry; apply Z.div_unique with 1; lia).
      destruct (Z.ltb_spec k (2 * Z.of_nat n)), (Z.ltb_spec k (2 * Z.of_nat (S n))); try lia. done.
    + rewrite !orb_false_r.
      by destruct (Z.ltb_spec k (2 * Z.of_nat n)), (Z.ltb_spec k (2 * Z.of_nat (S n))); try lia.
Qed.

Lemma deinterleave_bits n hash k :
  0 ≤ k →
  let r := foldl (deinterleave_step hash) (0, 0) (seq 0 n) in
  Z.testbit r.1 k = (k <? Z.of_nat n) && Z.testbit hash (2 * k) ∧
  Z.testbit r.2 k = (k <? Z.of_nat n) && Z.testbit hash (2 * k + 1).
Proof.
  intros Hk. induction n as [|n IH].
  - cbn [seq foldl fst snd]. rewrite Z.testbit_0_l. by destruct (Z.ltb_spec k (Z.of_nat 0)); [lia|].
  - rewrite seq_S, foldl_app. cbn [foldl]. unfold deinterleave_step at 1 3. cbv zeta. cbn [fst snd].
    destruct IH as [IH1 IH2]. rewrite !Z.lor_spec, IH1, IH2, !testbit_one_shifted by lia.
    destruct (Z.eqb_spec k (Z.of_nat (0 + n))) as [He|He].
    + destruct (Z.ltb_spec k (Z.of_nat n)), (Z.ltb_spec k (Z.of_nat (S n))); try lia. simpl. rewrite He. done.
    + destruct (Z.ltb_spec k (Z.of_nat n)), (Z.ltb_spec k (Z.of_nat (S n))); try lia; simpl; by rewrite ?orb_false_r.
Qed.

Lemma testbit_high x k : 0 ≤ x < 2 ^ 26 → 26 ≤ k → Z.testbit x k = false.
Proof.
  intros Hx Hk. destruct (decide (x = 0)) as [->|]; [apply Z.testbit_0_l|].
  apply Z.bits_above_log2; [lia|]. assert (Z.log2 x < 26) by (apply Z.log2_lt_pow2; lia). lia.
Qed.

(** The 52-bit geohash of two 26-bit cell numbers, latitude in the even and
    longitude in the odd bits, splits back into exactly these two numbers; so
    distinct cells have distinct hashes, and every hash is below 2^52 and is
    therefore represented exactly as a score. *)
Lemma geo_interleave_roundtrip (lat lng : Z) :
  0 ≤ lat < 2 ^ 26 → 0 ≤ lng < 2 ^ 26 →
  deinterleave (interleave lat lng) = (lat, lng) ∧ 0 ≤ interleave lat lng < 2 ^ 52.
Proof.
  intros Hlat Hlng. set (h := interleave lat lng).
  assert (∀ k, 0 ≤ k → Z.testbit h k = (k <? 52) && Z.testbit (if Z.even k then lat else lng) (k / 2)) as Hbits
    by (intros k Hk; by apply interleave_bits).
  split.
  - unfold deinterleave. rewrite (surjective_pairing (foldl _ _ _)). f_equal; apply Z.bits_inj'; intros k Hk;
      destruct (deinterleave_bits GEO_BITS h k Hk) as [H1 H2]; rewrite ?H1, ?H2, Hbits by lia;
      change (Z.of_nat GEO_BITS) with 26.
    + rewrite Z.even_mul. cbn [orb Z.even]. rewrite (Z.mul_comm 2 k), Z.div_mul by lia.
      destruct (Z.ltb_spec k 26), (Z.ltb_spec (k * 2) 52); try lia; [done|]. by rewrite testbit_high by lia.
    + assert (Z.even (2 * k + 1) = false) as -> by (by rewrite Z.even_add, Z.even_mul).
      assert ((2 * k + 1) / 2 = k) as -> by (symmetry; apply Z.div_unique with 1; lia).
      destruct (Z.ltb_spec k 26), (Z.ltb_spec (2 * k + 1) 52); try lia; [done|]. by rewrite testbit_high by lia.
  - assert (h = h mod 2 ^ 52) as ->; [|apply Z.mod_pos_bound; lia].
    apply Z.bits_inj'. intros k Hk. destruct (Z.lt_ge_cases k 52).
    + by rewrite Z.mod_pow2_bits_low.
    + rewrite Z.mod_pow2_bits_high, Hbits by lia. by destruct (Z.ltb_spec k 52); [lia|].
Qed.

Lemma geo_interleave_roundtrip_witness :
  0 ≤ 5 < 2 ^ 26 ∧ 0 ≤ 3 < 2 ^ 26 ∧
  deinterleave (interleave 5 3) = (5, 3) ∧ 0 ≤ interleave 5 3 < 2 ^ 52.
Proof.
  assert (0 ≤ 5 < 2 ^ 26) as H1 by lia. assert (0 ≤ 3 < 2 ^ 26) as H2 by lia.
  split; [exact H1|]. split; [exact H2|]. exact (geo_interleave_roundtrip 5 3 H1 H2).
Defined.

Lemma bits_below x n : 0 ≤ n → (∀ k, n ≤ k → Z.testbit x k = false) → 0 ≤ x < 2 ^ n.
Proof.
  intros Hn Hx. assert (x = x mod 2 ^ n) as ->; [|apply Z.mod_pos_bound, Z.pow_pos_nonneg; lia].
  apply Z.bits_inj'. intros k Hk. destruct (Z.lt_ge_cases k n).
  - by rewrite Z.mod_pow2_bits_low.
  - by rewrite Z.mod_pow2_bits_high, Hx.
Qed.

Lemma deinterleave_bits_of n hash lat lng k :
  foldl (deinterleave_step hash) (0, 0) (seq 0 n) = (lat, lng) → 0 ≤ k →
  Z.testbit lat k = (k <? Z.of_nat n) && Z.testbit hash (2 * k) ∧
  Z.testbit lng k = (k <? Z.of_nat n) && Z.testbit hash (2 * k + 1).
Proof. intros Hd Hk. destruct (deinterleave_bits n hash k Hk) as [H1 H2]. by rewrite Hd in H1, H2. Qed.

Lemma deinterleave_loop hash : deinterleave hash = foldl (deinterleave_step hash) (0, 0) (seq 0 GEO_BITS).
Proof. unfold deinterleave. reflexivity. Qed.

(** Every 52-bit number is the hash of its two halves. *)
Lemma deinterleave_roundtrip (h : Z) :
  0 ≤ h < 2 ^ 52 →
  let '(lat, lng) := deinterleave h in 0 ≤ lat < 2 ^ 26 ∧ 0 ≤ lng < 2 ^ 26 ∧ interleave lat lng = h.
Proof.
  intros Hh. destruct (deinterleave h) as [lat lng] eqn:Hd.
  assert (∀ k, 0 ≤ k → Z.testbit lat k = (k <? 26) && Z.testbit h (2 * k) ∧
    Z.testbit lng k = (k <? 26) && Z.testbit h (2 * k + 1)) as Hbits.
  { intros k Hk. rewrite deinterleave_loop in Hd. exact (deinterleave_bits_of GEO_BITS h lat lng k Hd Hk). }
  split; [|split].
  1, 2: apply bits_below; [lia|]; intros k Hk; destruct (Hbits k ltac:(lia)) as [H1 H2]; rewrite ?H1, ?H2;
    by destruct (Z.ltb_spec k 26); [lia|].
  apply Z.bits_inj'. intros k Hk. unfold interleave. rewrite interleave_bits by done. change (2 * Z.of_nat GEO_BITS) with 52.
  pose proof (Z.div_mod k 2 ltac:(lia)) as Hk2.
  destruct (Hbits (k / 2) ltac:(apply Z.div_pos; lia)) as [H1 H2].
  destruct (Z.ltb_spec k 52) as [Hlt|Hge]; cbn [andb].
  - rewrite Zmod_even in Hk2. destruct (Z.even k); rewrite ?H1, ?H2;
      (destruct (Z.ltb_spec (k / 2) 26); [|lia]); cbn [andb]; f_equal; lia.
  - symmetry. destruct (decide (h = 0)) as [->|]; [apply Z.testbit_0_l|].
    apply Z.bits_above_log2; [lia|]. assert (Z.log2 h < 52) by (apply Z.log2_lt_pow2; lia). lia.
Qed.

End Geo.
