(* ===== verification/GeoCoord.v ===== *)
(** * geo.c: coordinates

    The cells a pair of coordinates falls into and the centre of a cell, in
    double arithmetic, and the great-circle distance.  The trigonometric
    functions of the C library have no specified accuracy: [Libm] is a
    parameter of the distance. *)

From S2P Require Import Prelude Dbl DblText DblTextProps DblArith Geo.
Import Dbl DblText DblTextProps DblArith Geo.
Local Open Scope Z_scope.

Module GeoCoord.

Definition GEO_LAT_MIN : dbl := dneg (constant 8505112878 100000000).
Definition GEO_LAT_MAX : dbl := constant 8505112878 100000000.
Definition GEO_LNG_MIN : dbl := dneg (constant 180 1).
Definition GEO_LNG_MAX : dbl := constant 180 1.

Definition GEO_CELLS : Z := Z.shiftl 1 26.

Definition geo_valid (lat lng : dbl) : bool :=
  dle GEO_LAT_MIN lat && dle lat GEO_LAT_MAX && dle GEO_LNG_MIN lng && dle lng GEO_LNG_MAX.

Definition quantise (v min max : dbl) : res Z :=
  let cell := dmul (ddiv (dsub v min) (dsub max min)) (of_int GEO_CELLS) in
  let cell := if dlt cell (of_int 0) then of_int 0 else cell in
  let cell := if dlt (of_int (GEO_CELLS - 1)) cell then of_int (GEO_CELLS - 1) else cell in
  to_int 0 (2 ^ 32 - 1) cell.

Definition geo_encode (lat lng : dbl) : res Z :=
  lat_int ← quantise lat GEO_LAT_MIN GEO_LAT_MAX;
  lng_int ← quantise lng GEO_LNG_MIN GEO_LNG_MAX;
  Ret (interleave lat_int lng_int).

(** One coordinate of [geo_decode]. *)
Definition cell_centre (cell : Z) (min max : dbl) : dbl :=
  dadd min (dmul (ddiv (dadd (of_int cell) (constant 1 2)) (of_int GEO_CELLS)) (dsub max min)).

Definition geo_decode (hash : Z) : dbl * dbl :=
  let '(lat_int, lng_int) := deinterleave hash in
  (cell_centre lat_int GEO_LAT_MIN GEO_LAT_MAX, cell_centre lng_int GEO_LNG_MIN GEO_LNG_MAX).

Class Libm := { sin : dbl → dbl; cos : dbl → dbl; atan2 : dbl → dbl → dbl; sqrt : dbl → dbl }.

Definition M_PI : dbl := constant 314159265358979323846 (10 ^ 20).

Definition geo_distance_m `{Libm} (lat1 lng1 lat2 lng2 : dbl) : dbl :=
  let R := constant 6372797560856 1000000 in
  let dlat := ddiv (dmul (dsub lat2 lat1) M_PI) (of_int 180) in
  let dlng := ddiv (dmul (dsub lng2 lng1) M_PI) (of_int 180) in
  let two := of_int 2 in
  let rad x := ddiv (dmul x M_PI) (of_int 180) in
  let a := dadd (dmul (sin (ddiv dlat two)) (sin (ddiv dlat two)))
                (dmul (dmul (dmul (cos (rad lat1)) (cos (rad lat2))) (sin (ddiv dlng two))) (sin (ddiv dlng two))) in
  let c := dmul two (atan2 (sqrt a) (sqrt (dsub (of_int 1) a))) in
  dmul R c.

End GeoCoord.
