(* ===== verification/GeoProps.v ===== *)
(** * Geohash: positions survive encoding

    With the error bounds of double arithmetic: every 52-bit hash is the hash
    of the position it decodes to, and decoding the hash of a valid position
    gives a position at most half a cell away. *)

From Stdlib Require Import Reals Lra.
From S2P Require Import Prelude Dbl DblText DblTextProps DblArith DblReal Geo GeoCoord.
Import Dbl DblText DblTextProps DblArith DblReal Geo GeoCoord.

Module GeoProps.

Local Open Scope R_scope.

Definition eps : R := pow2 (-53).

Lemma eps_value : eps = / 9007199254740992.
Proof. unfold eps. change (-53)%Z with (- (53))%Z. by rewrite pow2_inv, pow2_nonneg. Qed.

Lemma pow2_1000_large : 1000000000000 <= pow2 1000.
Proof. rewrite pow2_nonneg by done. apply IZR_le. done. Qed.

(** One operation on numbers up to [b] in size. *)
Lemma near_within v x b : near v x → Rabs x <= b → number v ∧ Rabs (val v - x) <= (b + 1) * eps.
Proof.
  intros [Hv Hn] Hb. split; [done|]. eapply Rle_trans; [exact Hn|]. unfold ulp. fold eps.
  assert (pow2 (-1075) <= eps) by (by apply pow2_le). assert (0 < eps) by apply pow2_gt0. nra.
Qed.

Lemma product_within t s b k : - b <= t <= b → 0 <= s <= k → - (b * k) <= t * s <= b * k.
Proof. intros Ht Hs. assert (0 <= b) by lra. split; nra. Qed.

Lemma quotient_within r s b k : - (b * k) <= r <= b * k → 0 < k <= s → - b <= r / s <= b.
Proof.
  intros Hr Hs. assert (0 <= b) by nra. assert (r / s * s = r) by (field; lra).
  assert (b * k <= b * s) by nra. split; nra.
Qed.

(** ** One axis *)

(** The limits of an axis, the numbers its computations start from. *)
Class Axis (min max : dbl) := {
  axis_min : number min;
  axis_max : number max;
  axis_span : number (dsub max min);
  axis_offset : -200 <= val min <= 0;
  axis_size : 100 <= val (dsub max min) <= 400;
  axis_exact : val max = val min + val (dsub max min);
}.

Definition cells : R := 67108864.

(** Concrete numbers. *)
Lemma val_fraction s m k : val (S754_finite s m (Zneg k)) = IZR (signed s m) / IZR (2 ^ Zpos k).
Proof. cbn [val]. change (Zneg k) with (- Zpos k)%Z. by rewrite pow2_inv, pow2_nonneg. Qed.

Ltac number_tac := split; [|done]; apply (bool_decide_unpack _); vm_compute; exact I.

Lemma cells_number : number (of_int GEO_CELLS) ∧ val (of_int GEO_CELLS) = cells.
Proof.
  assert (of_int GEO_CELLS = S754_finite false 4503599627370496 (-26)) as -> by (vm_compute; reflexivity).
  split; [number_tac|]. rewrite val_fraction. change (2 ^ 26)%Z with 67108864%Z. unfold cells. cbn [signed]. lra.
Qed.

Lemma half_number : number (constant 1 2) ∧ val (constant 1 2) = / 2.
Proof.
  assert (constant 1 2 = S754_finite false 4503599627370496 (-53)) as -> by (vm_compute; reflexivity).
  split; [number_tac|]. rewrite val_fraction. change (2 ^ 53)%Z with 9007199254740992%Z. cbn [signed]. lra.
Qed.

Global Instance lng_axis : Axis GEO_LNG_MIN GEO_LNG_MAX.
Proof.
  assert (GEO_LNG_MIN = S754_finite true 6333186975989760 (-45)) as -> by (vm_compute; reflexivity).
  assert (GEO_LNG_MAX = S754_finite false 6333186975989760 (-45)) as -> by (vm_compute; reflexivity).
  assert (dsub (S754_finite false 6333186975989760 (-45)) (S754_finite true 6333186975989760 (-45)) =
    S754_finite false 6333186975989760 (-44)) as E by (vm_compute; reflexivity).
  split; rewrite ?E; [number_tac..| | |]; rewrite ?val_fraction; cbn [signed];
    change (2 ^ 45)%Z with 35184372088832%Z; change (2 ^ 44)%Z with 17592186044416%Z; lra.
Qed.

Global Instance lat_axis : Axis GEO_LAT_MIN GEO_LAT_MAX.
Proof.
  assert (GEO_LAT_MIN = S754_finite true 5984941123141376 (-46)) as -> by (vm_compute; reflexivity).
  assert (GEO_LAT_MAX = S754_finite false 5984941123141376 (-46)) as -> by (vm_compute; reflexivity).
  assert (dsub (S754_finite false 5984941123141376 (-46)) (S754_finite true 5984941123141376 (-46)) =
    S754_finite false 5984941123141376 (-45)) as E by (vm_compute; reflexivity).
  split; rewrite ?E; [number_tac..| | |]; rewrite ?val_fraction; cbn [signed];
    change (2 ^ 46)%Z with 70368744177664%Z; change (2 ^ 45)%Z with 35184372088832%Z; lra.
Qed.

Section axis.
Context {min max : dbl} `{!Axis min max}.

Let m : R := val min.
Let span : R := val (dsub max min).

(** The centre of cell [c] in the real numbers. *)
Definition centre (c : Z) : R := m + (IZR c + / 2) / cells * span.

(** Decoding one coordinate. *)
Lemma cell_centre_near c :
  (0 ≤ c < 67108864)%Z →
  number (cell_centre c min max) ∧ Rabs (val (cell_centre c min max) - centre c) <= 5000 * eps.
Proof.
  intros Hc. assert (IZR c <= 67108863) as Hc1 by (apply IZR_le; lia). assert (0 <= IZR c) as Hc0 by (apply IZR_le; lia). destruct cells_number as [Hcn Hcv], half_number as [Hhn Hhv].
  pose proof axis_min as Hmin. pose proof axis_span as Hspan. pose proof axis_offset as Ho. pose proof axis_size as Hs.
  fold m in Ho. fold span in Hs. pose proof pow2_1000_large as Hbig. unfold cell_centre, centre.
  assert (0 < eps < / 1000000000000000) as He by (rewrite eps_value; lra).
  destruct (near_within (of_int c) (IZR c) 67108864) as [H0 E0];
    [apply of_int_near; apply Rabs_between; lra|apply Rabs_between; lra|]. apply Rabs_between in E0.
  set (a0 := of_int c) in *.
  destruct (near_within (dadd a0 (constant 1 2)) (val a0 + val (constant 1 2)) 67108866) as [H1 E1];
    [apply dadd_near; [done..|apply Rabs_between; rewrite Hhv; lra]|apply Rabs_between; rewrite Hhv; lra|].
  apply Rabs_between in E1. rewrite Hhv in E1. set (a1 := dadd a0 (constant 1 2)) in *.
  assert (Rabs (val a1 / cells) <= 2) as B1 by (apply Rabs_between; unfold cells; lra).
  destruct (near_within (ddiv a1 (of_int GEO_CELLS)) (val a1 / val (of_int GEO_CELLS)) 2) as [H2 E2];
    [apply ddiv_near; [done..|rewrite Hcv; unfold cells; lra|rewrite Hcv; lra]|by rewrite Hcv|].
  rewrite Hcv in E2. apply Rabs_between in B1, E2. set (a2 := ddiv a1 (of_int GEO_CELLS)) in *.
  set (y := (IZR c + / 2) / cells). assert (0 <= y <= 1) as Hy by (unfold y, cells; lra).
  assert (- (6 * eps) <= val a2 - y <= 6 * eps) as D2 by (unfold y, cells in *; lra).
  assert (- (6 * eps * 400) <= (val a2 - y) * span <= 6 * eps * 400) as P2 by (apply product_within; lra).
  assert (- (2.5 * 400) <= val a2 * span <= 2.5 * 400) as B2 by (apply product_within; lra).
  destruct (near_within (dmul a2 (dsub max min)) (val a2 * span) 1000) as [H3 E3];
    [apply dmul_near; [done..|apply Rabs_between; fold span; lra]|apply Rabs_between; lra|].
  apply Rabs_between in E3. set (a3 := dmul a2 (dsub max min)) in *.
  destruct (near_within (dadd min a3) (m + val a3) 1300) as [H4 E4];
    [apply dadd_near; [done..|apply Rabs_between; fold m; lra]|apply Rabs_between; lra|].
  apply Rabs_between in E4. split; [done|]. apply Rabs_between. lra.
Qed.

(** Encoding one coordinate, before the limits are applied. *)
Lemma cell_near v :
  number v → -1 <= val v - m <= 401 →
  let cell := dmul (ddiv (dsub v min) (dsub max min)) (of_int GEO_CELLS) in
  number cell ∧ Rabs (val cell - (val v - m) / span * cells) <= / 1000000.
Proof.
  intros Hv Hvm. destruct cells_number as [Hcn Hcv].
  pose proof axis_min as Hmin. pose proof axis_span as Hspan. pose proof axis_size as Hs.
  fold span in Hs. pose proof pow2_1000_large as Hbig. assert (0 < eps < / 1000000000000000) as He by (rewrite eps_value; lra).
  destruct (near_within (dsub v min) (val v - m) 401) as [H1 E1];
    [apply dsub_near; [done..|apply Rabs_between; fold m; lra]|apply Rabs_between; lra|].
  apply Rabs_between in E1. set (b1 := dsub v min) in *.
  assert (∀ r, - 402 <= r <= 402 → - 5 <= r / span <= 5) as Hdiv.
  { intros r Hr. apply (quotient_within r span 5 100); lra. }
  pose proof (Hdiv (val b1) ltac:(lra)) as B1.
  destruct (near_within (ddiv b1 (dsub max min)) (val b1 / span) 5) as [H2 E2];
    [apply ddiv_near; [done..|fold span; lra|apply Rabs_between; fold span; lra]|apply Rabs_between; lra|].
  apply Rabs_between in E2. set (b2 := ddiv b1 (dsub max min)) in *.
  assert (- (5 * eps) <= val b1 / span - (val v - m) / span <= 5 * eps) as D1.
  { replace (val b1 / span - (val v - m) / span) with ((val b1 - (val v - m)) / span) by (field; lra).
    apply (quotient_within _ span (5 * eps) 100); lra. }
  destruct (near_within (dmul b2 (of_int GEO_CELLS)) (val b2 * cells) 1000000000) as [H3 E3];
    [rewrite <- Hcv; apply dmul_near; [done..|rewrite Hcv; unfold cells; apply Rabs_between; lra]
    |unfold cells; apply Rabs_between; lra|].
  split; [exact H3|]. apply Rabs_between in E3. apply Rabs_between. unfold cells in *. rewrite eps_value in *. lra.
Qed.

(** The limits applied, and the cell number taken. *)
Lemma quantise_cell v (cell := dmul (ddiv (dsub v min) (dsub max min)) (of_int GEO_CELLS)) :
  number cell →
  ∃ q, quantise v min max = Ret q ∧ (0 ≤ q < 67108864)%Z ∧
    (IZR q <= val cell < IZR q + 1 ∨ val cell < 0 ∧ q = 0%Z ∨ cells - 1 < val cell ∧ q = 67108863%Z).
Proof.
  intros Hc. unfold quantise. fold cell.
  assert (of_int 0 = S754_zero false) as -> by (vm_compute; reflexivity).
  assert (of_int (GEO_CELLS - 1) = S754_finite false 9007199120523264 (-27)) as Htop by (vm_compute; reflexivity).
  assert (number (of_int (GEO_CELLS - 1)) ∧ val (of_int (GEO_CELLS - 1)) = cells - 1) as [Htn Htv].
  { rewrite Htop. split; [number_tac|]. rewrite val_fraction. change (2 ^ 27)%Z with 134217728%Z. unfold cells. cbn [signed]. lra. }
  assert (number (S754_zero false)) as Hz by (split; done).
  assert (∀ w q, number w → IZR q <= val w < IZR q + 1 → (0 ≤ q < 67108864)%Z → to_int 0 (2 ^ 32 - 1) w = Ret q) as Hto.
  { intros w q Hw Hq Hr. unfold to_int. rewrite (trunc_val w q Hw Hq) by lia.
    by destruct (Z.leb_spec 0 q); [|lia]; destruct (Z.leb_spec q (2 ^ 32 - 1)); [|lia]. }
  destruct (dlt cell (S754_zero false)) eqn:E1.
  { apply dlt_val in E1; [|done..]. exists 0%Z. split; [|split; [lia|auto]].
    assert (dlt (of_int (GEO_CELLS - 1)) (S754_zero false) = false) as -> by (rewrite Htop; done).
    apply Hto; [done|cbn; lra|lia]. }
  assert (0 <= val cell) as H0
    by (apply Rnot_lt_le; intros H'; change 0 with (val (S754_zero false)) in H'; apply dlt_val in H'; [congruence|done..]).
  destruct (dlt (of_int (GEO_CELLS - 1)) cell) eqn:E2.
  { apply dlt_val in E2; [|done..]. rewrite Htv in E2. exists 67108863%Z. split; [|split; [lia|auto]].
    apply Hto; [done|rewrite Htv; unfold cells; lra|lia]. }
  assert (val cell <= cells - 1) as H1
    by (apply Rnot_lt_le; intros H'; rewrite <- Htv in H'; apply dlt_val in H'; [congruence|done..]).
  destruct (archimed (val cell)) as [Hup1 Hup2]. exists (up (val cell) - 1)%Z.
  assert (IZR (up (val cell) - 1) <= val cell < IZR (up (val cell) - 1) + 1) as Hq by (rewrite minus_IZR; lra).
  assert (0 ≤ up (val cell) - 1 < 67108864)%Z as Hr.
  { unfold cells in H1. split.
    - apply Z.lt_succ_r, lt_IZR. rewrite succ_IZR. lra.
    - apply lt_IZR. lra. }
  split; [by apply Hto|]. split; [done|]. by left.
Qed.

(** A hash is the hash of the centre of its cell. *)
Lemma quantise_centre c : (0 ≤ c < 67108864)%Z → quantise (cell_centre c min max) min max = Ret c.
Proof.
  intros Hc. destruct (cell_centre_near c Hc) as [Hv Hnear]. set (v := cell_centre c min max) in *.
  assert (IZR c <= 67108863) as Hc1 by (apply IZR_le; lia). assert (0 <= IZR c) as Hc0 by (apply IZR_le; lia).
  pose proof axis_size as Hs. fold span in Hs. apply Rabs_between in Hnear. rewrite eps_value in Hnear. unfold centre in Hnear.
  assert (0 <= (IZR c + / 2) / cells <= 1) as Hy by (unfold cells; lra).
  assert (0 <= (IZR c + / 2) / cells * span <= 400) as Hys by (split; nra).
  assert (-1 <= val v - m <= 401) as Hvm by lra.
  destruct (cell_near v Hv Hvm) as [Hcell Herr]. destruct (quantise_cell v Hcell) as (q & -> & Hq & Hcase).
  set (cell := dmul _ _) in *. apply Rabs_between in Herr.
  assert (- / 1000000 <= (val v - m) / span * cells - (IZR c + / 2) <= / 1000000) as Hd.
  { replace ((val v - m) / span * cells - (IZR c + / 2)) with ((val v - m - (IZR c + / 2) / cells * span) / span * cells)
      by (unfold cells; field; lra).
    pose proof (quotient_within (val v - m - (IZR c + / 2) / cells * span) span (/ 100000000000000) 100 ltac:(lra) ltac:(lra)).
    unfold cells in *. lra. }
  assert (IZR c < val cell < IZR c + 1) as Hin by lra. f_equal.
  assert (q < c + 1 ∧ c < q + 1)%Z; [|lia].
  destruct Hcase as [Hcase|[[Hcase _]|[Hcase ->]]]; [|lra|].
  - split; apply lt_IZR; rewrite plus_IZR; lra.
  - unfold cells in Hcase. split; [|lia]. apply lt_IZR. rewrite plus_IZR. lra.
Qed.

(** A coordinate is at most half a cell from the centre of its cell. *)
Lemma quantise_position v :
  number v → val min <= val v <= val max →
  ∃ q, quantise v min max = Ret q ∧ (0 ≤ q < 67108864)%Z ∧
    Rabs (val (cell_centre q min max) - val v) <= 0.5001 * (val max - val min) / cells.
Proof.
  intros Hv Hrange. pose proof axis_size as Hs. pose proof axis_exact as Hx. fold span in Hs, Hx. fold m in Hrange, Hx.
  destruct (cell_near v Hv ltac:(lra)) as [Hcell Herr]. destruct (quantise_cell v Hcell) as (q & Hq & Hqr & Hcase).
  exists q. split; [done|]. split; [done|]. destruct (cell_centre_near q Hqr) as [_ Hnear].
  set (w := cell_centre q min max) in *. set (cell := dmul _ _) in *. apply Rabs_between in Herr, Hnear.
  rewrite eps_value in Hnear. unfold centre in Hnear. set (y := (val v - m) / span) in *.
  assert (val v = m + y * span) as Hvy by (unfold y; field; lra).
  assert (0 <= y <= 1) as Hy by (split; nra).
  assert (- (/ 2 + / 100000) <= (IZR q + / 2) - y * cells <= / 2 + / 100000) as Hd.
  { unfold cells in *. destruct Hcase as [Hcase|[[Hcase ->]|[Hcase ->]]]; lra. }
  assert (- ((/ 2 + / 100000) / cells * span) <= ((IZR q + / 2) / cells - y) * span <= (/ 2 + / 100000) / cells * span) as Hw.
  { unfold cells in *. split; apply Rmult_le_compat_r || (rewrite Ropp_mult_distr_l; apply Rmult_le_compat_r); lra. }
  apply Rabs_between. fold m. replace (val max - m) with span by lra. unfold cells in *. lra.
Qed.

(** A decoded coordinate is within the limits. *)
Lemma centre_in_range c : (0 ≤ c < 67108864)%Z →
  dle min (cell_centre c min max) = true ∧ dle (cell_centre c min max) max = true.
Proof.
  intros Hc. destruct (cell_centre_near c Hc) as [Hv Hnear].
  assert (IZR c <= 67108863) as Hc1 by (apply IZR_le; lia). assert (0 <= IZR c) as Hc0 by (apply IZR_le; lia).
  pose proof axis_size as Hs. pose proof axis_exact as Hx. fold span in Hs, Hx. fold m in Hx.
  apply Rabs_between in Hnear. rewrite eps_value in Hnear. unfold centre in Hnear.
  assert (/ 1000000000 <= (IZR c + / 2) / cells <= 1 - / 1000000000) as Hy by (unfold cells; lra).
  split; apply dle_val; try done; try apply axis_min; try apply axis_max; fold m; nra.
Qed.

(** What is between the limits is finite. *)
Lemma limits_number v : valid_dbl v → dle min v = true → dle v max = true → number v ∧ val min <= val v <= val max.
Proof.
  intros Hv H1 H2. assert (number v) as Hn.
  { split; [done|]. pose proof axis_min as [_ Hmin]. pose proof axis_max as [_ Hmax].
    destruct v as [s|[]| |s n e]; try done; [by destruct min as [|?| |[]]|by destruct max as [|?| |[]]]. }
  apply dle_val in H1; [|apply axis_min|done]. apply dle_val in H2; [|done|apply axis_max]. done.
Qed.

End axis.

(** ** Positions *)

(** Integers of 53 bits are doubles. *)
Lemma int_exact z : (0 ≤ z < 2 ^ 53)%Z → to_int 0 UINT64_MAX (of_int z) = Ret z.
Proof.
  intros [Hz0 Hz1]. destruct z as [|p|p]; [done| |lia]. set (z := Zpos p) in *.
  pose proof (Z.log2_spec z ltac:(done)) as Hlog. pose proof (Z.log2_nonneg z) as Hlog0.
  assert (Z.log2 z < 53)%Z as Hlog53 by (by apply Z.log2_lt_pow2). set (k := (52 - Z.log2 z)%Z) in *.
  assert (2 ^ 52 = 2 ^ Z.log2 z * 2 ^ k)%Z as H52 by (rewrite <- Z.pow_add_r by lia; f_equal; lia).
  pose proof (Z.pow_pos_nonneg 2 k ltac:(lia) ltac:(lia)) as Hk. rewrite Z.pow_succ_r in Hlog by done.
  assert (2 ^ 52 ≤ z * 2 ^ k < 2 ^ 53)%Z as Hm by (change (2 ^ 53)%Z with (2 * 2 ^ 52)%Z; rewrite H52; nia).
  destruct (z * 2 ^ k)%Z as [|m|] eqn:Em; [lia| |lia].
  assert (of_int z = S754_finite false m (- k)) as ->.
  { unfold of_int, round_quotient, z. apply (round_ratio_near false (Zpos p) 1 m (- k) (z * 2 ^ k) 1); [done|done| | |].
    - unfold canonical, EMIN, ETOP. split; [lia|]. split; [lia|]. left. lia.
    - unfold scale. rewrite Z.opp_involutive, (Z.max_r 0 k), (Z.max_l 0 (- k)) by lia. done.
    - rewrite Em. replace (Zpos m - Zpos m * 1)%Z with 0%Z by lia. cbn. lia. }
  unfold to_int, trunc, scale. rewrite (Z.max_l 0 (- k)), Z.opp_involutive, (Z.max_r 0 k) by lia.
  rewrite Z.pow_0_r, Z.mul_1_r, Z.mul_1_l, <- Em, Z.div_mul by lia. unfold UINT64_MAX.
  destruct (Z.leb_spec 0 z); [|lia]. destruct (Z.leb_spec z 18446744073709551615); [done|lia].
Qed.

(** Every 52-bit geohash is the hash of the position it decodes to, which
    lies within the limits of valid coordinates; and stored as a score, a
    double, it is read back exactly. *)
Lemma geo_hash_roundtrip (h : Z) :
  (0 ≤ h < 2 ^ 52)%Z →
  let '(lat, lng) := geo_decode h in
  geo_valid lat lng = true ∧ geo_encode lat lng = Ret h ∧ to_int 0 UINT64_MAX (of_int h) = Ret h.
Proof.
  intros Hh. unfold geo_decode. pose proof (deinterleave_roundtrip h Hh) as Hd. destruct (deinterleave h) as [a b].
  destruct Hd as (Ha & Hb & Hab). split_and!.
  - unfold geo_valid. destruct (centre_in_range (min := GEO_LAT_MIN) (max := GEO_LAT_MAX) a Ha) as [-> ->].
    by destruct (centre_in_range (min := GEO_LNG_MIN) (max := GEO_LNG_MAX) b Hb) as [-> ->].
  - unfold geo_encode. rewrite !quantise_centre by done. cbn [mbind res_bind]. by rewrite Hab.
  - apply int_exact. lia.
Qed.

(** C27: a valid position has a 52-bit hash - the conversion to a cell number
    is always defined - and decoding it gives a position that differs in each
    coordinate by at most 0.5001 of a cell: half a cell, and a ten-thousandth of
    a cell for the rounding of the double arithmetic.  That is below 1.3 and 2.7
    millionths of a degree. *)
Theorem geo_position_error (lat lng : dbl) :
  valid_dbl lat → valid_dbl lng → geo_valid lat lng = true →
  ∃ h, geo_encode lat lng = Ret h ∧ (0 ≤ h < 2 ^ 52)%Z ∧
    let '(lat', lng') := geo_decode h in
    Rabs (val lat' - val lat) <= 0.5001 * (val GEO_LAT_MAX - val GEO_LAT_MIN) / 67108864 ∧
    Rabs (val lng' - val lng) <= 0.5001 * (val GEO_LNG_MAX - val GEO_LNG_MIN) / 67108864.
Proof.
  intros Hlat Hlng Hvalid. unfold geo_valid in Hvalid. bools.
  assert (number lat ∧ val GEO_LAT_MIN <= val lat <= val GEO_LAT_MAX) as [Hn1 Hr1] by (by apply limits_number).
  assert (number lng ∧ val GEO_LNG_MIN <= val lng <= val GEO_LNG_MAX) as [Hn2 Hr2] by (by apply limits_number).
  destruct (quantise_position lat Hn1 Hr1) as (a & Ha & Har & Herr1).
  destruct (quantise_position lng Hn2 Hr2) as (b & Hb & Hbr & Herr2).
  destruct (geo_interleave_roundtrip a b Har Hbr) as [Hd Hh].
  exists (interleave a b). unfold geo_encode, geo_decode. rewrite Ha, Hb, Hd. cbn [mbind res_bind]. unfold cells in *.
  split; [reflexivity|]. split; [exact Hh|]. split; [exact Herr1|exact Herr2].
Qed.

Lemma geo_hash_roundtrip_witness :
  let '(lat, lng) := geo_decode 3603207054410547 in
  geo_valid lat lng = true ∧ geo_encode lat lng = Ret 3603207054410547%Z ∧
  to_int 0 UINT64_MAX (of_int 3603207054410547) = Ret 3603207054410547%Z.
Proof. apply (geo_hash_roundtrip 3603207054410547). split; vm_compute; congruence. Defined.

Lemma geo_position_error_witness :
  ∃ h, geo_encode (constant 559533 10000) (constant (-31883) 10000) = Ret h ∧ (0 ≤ h < 2 ^ 52)%Z ∧
    Rabs (val (geo_decode h).1 - val (constant 559533 10000)) <=
      0.5001 * (val GEO_LAT_MAX - val GEO_LAT_MIN) / 67108864.
Proof.
  destruct (geo_position_error (constant 559533 10000) (constant (-31883) 10000)) as (h & H1 & H2 & H3).
  - apply constant_valid. reflexivity.
  - apply constant_valid. reflexivity.
  - vm_compute. reflexivity.
  - exists h. split; [exact H1|]. split; [exact H2|]. destruct (geo_decode h) as [lat' lng']. exact (proj1 H3).
Defined.

End GeoProps.
