(* ===== verification/EmbeddedGeo.v ===== *)
(** * examples/embedded_geo.c: the store as a library

    The example program: four cities are added to a sorted set under their
    geohash, read back, and printed with their distance from the first one.
    The trigonometric functions are those of [GeoCoord]; the clock is an input. *)

From S2P Require Import Prelude CLib Dbl DblText DblArith ZSet Stream Store Geo GeoCoord.
Import Dbl DblText DblArith ZSet Stream Store Geo GeoCoord.

Module EmbeddedGeo.

Record city := mkCity { c_name : bytes; c_lat : dbl; c_lng : dbl }.

(** A decimal constant with four digits after the point. *)
Definition deg (n : Z) : dbl := constant n 10000.

Definition edinburgh : city := mkCity #"edinburgh" (deg 559533) (deg (-31883)).
Definition glasgow : city := mkCity #"glasgow" (deg 558642) (deg (-42518)).
Definition london : city := mkCity #"london" (deg 515074) (deg (-1278)).
Definition paris : city := mkCity #"paris" (deg 488566) (deg 23522).

Definition cities : list city := [edinburgh; glasgow; london; paris].

Section main.
Context `{Libm}.
(** The readings of the clock; every call may see another one. *)
Context (clock : nat → Z).

(** The loop that adds the cities; the result of [store_zset_add] is dropped. *)
Fixpoint add_cities (cs : list city) (call : nat) (store : Store) : res Store :=
  match cs with
  | [] => Ret store
  | c :: cs' =>
      hash ← geo_encode (c_lat c) (c_lng c);
      r ← store_zset_add store #"cities" (of_int hash) (c_name c) (clock call);
      add_cities cs' (S call) r.1
  end.

(** [double score; store_zset_score(store, "cities", name, &score); geo_decode((uint64_t)score, ...)]:
    the variable has no value if the call does not set it. *)
Definition position (name : bytes) (call : nat) (store : Store) : res (Store * (dbl * dbl)) :=
  match store_zset_score store #"cities" name (clock call) with
  | (_, inl _) => Undef UB_uninitialised
  | (store, inr score) => hash ← to_int 0 (2 ^ 64 - 1) score; Ret (store, geo_decode hash)
  end.

Definition row (name lat lng km : bytes) : bytes :=
  pad_right 10 name ++ [SP] ++ pad_left 12 lat ++ [SP] ++ pad_left 12 lng ++ [SP] ++ pad_left 10 km ++ [LF].

(** The distance from [home] in kilometres. *)
Definition km_away (home there : dbl * dbl) : dbl :=
  ddiv (geo_distance_m home.1 home.2 there.1 there.2) (of_int 1000).

Fixpoint print_rows (cs : list city) (home : dbl * dbl) (call : nat) (store : Store) : res (Store * bytes) :=
  match cs with
  | [] => Ret (store, [])
  | c :: cs' =>
      r ← position (c_name c) call store;
      let '(store, there) := r in
      r ← print_rows cs' home (S call) store;
      Ret (r.1, row (c_name c) (fmt_f 5 there.1) (fmt_f 5 there.2) (fmt_f 1 (km_away home there)) ++ r.2)
  end.

(** The standard output. *)
Definition main : res bytes :=
  store ← add_cities cities 0 store_create;
  r ← position #"edinburgh" 4 store;
  let '(store, home) := r in
  r ← print_rows cities home 5 store;
  let '(store, rows) := r in
  match store_get_zset store #"cities" (clock 9) with
  | (_, inl _) => Undef UB_uninitialised
  | (_, inr z) =>
      Ret (row #"city" #"latitude" #"longitude" #"km away" ++ rows ++
           [LF] ++ #"geohash order:" ++ concat ((λ e, [SP] ++ ze_member e) <$> z_entries z) ++ [LF])
  end.

End main.

(** ** What it prints *)

(** The store with the cities, and the positions it stands for. *)
Definition filled : Store := Eval vm_compute in
  match add_cities (λ _, 0%Z) cities 0 store_create with Ret s => s | Undef _ => store_create end.

Definition place (c : city) : dbl * dbl := match geo_encode (c_lat c) (c_lng c) with Ret h => geo_decode h | Undef _ => (S754_nan, S754_nan) end.

Lemma add_cities_filled clock : add_cities clock cities 0 store_create = Ret filled.
Proof. vm_compute. reflexivity. Qed.

(** Each city is found again, at the centre of its cell. *)
Lemma position_filled clock call c : c ∈ cities → position clock (c_name c) call filled = Ret (filled, place c).
Proof.
  intros Hc. repeat (apply elem_of_cons in Hc as [->|Hc]; [vm_compute; reflexivity|]). by apply not_elem_of_nil in Hc.
Qed.

#[local] Strategy opaque [place fmt_f km_away filled].

(** The row of a city. *)
Definition city_row `{Libm} (home : dbl * dbl) (c : city) : bytes :=
  row (c_name c) (fmt_f 5 (place c).1) (fmt_f 5 (place c).2) (fmt_f 1 (km_away home (place c))).

Lemma print_rows_filled `{Libm} clock cs home call : cs ⊆ cities →
  print_rows clock cs home call filled = Ret (filled, concat (city_row home <$> cs)).
Proof.
  revert call. induction cs as [|c cs IH]; intros call Hcs; [done|]. cbn [print_rows].
  rewrite position_filled by (apply Hcs; left). cbn [mbind res_bind].
  rewrite IH by (intros x Hx; apply Hcs; by right). cbn [mbind res_bind]. by rewrite fmap_cons.
Qed.

(** The coordinates as they are printed, and the members in their order. *)
Definition printed (c : city) (lat lng : bytes) : Prop := fmt_f 5 (place c).1 = lat ∧ fmt_f 5 (place c).2 = lng.

Lemma printed_coordinates :
  printed edinburgh #"55.95330" #"-3.18830" ∧ printed glasgow #"55.86420" #"-4.25180" ∧
  printed london #"51.50740" #"-0.12780" ∧ printed paris #"48.85660" #"2.35220".
Proof. repeat split; vm_compute; reflexivity. Qed.

Lemma city_row_printed `{Libm} home c lat lng : printed c lat lng →
  city_row home c = row (c_name c) lat lng (fmt_f 1 (km_away home (place c))).
Proof. intros [<- <-]. done. Qed.

Lemma filled_members clock : ∃ z, store_get_zset filled #"cities" clock = (filled, inr z) ∧
  ze_member <$> z_entries z = [ #"london"; #"glasgow"; #"edinburgh"; #"paris"].
Proof. eexists. split; vm_compute; reflexivity. Qed.

(** The program from the results of its parts. *)
Lemma main_parts `{Libm} clock s home rows z :
  add_cities clock cities 0 store_create = Ret s → position clock #"edinburgh" 4 s = Ret (s, home) →
  print_rows clock cities home 5 s = Ret (s, rows) → store_get_zset s #"cities" (clock 9) = (s, inr z) →
  main clock = Ret (row #"city" #"latitude" #"longitude" #"km away" ++ rows ++
    [LF] ++ #"geohash order:" ++ concat ((λ m, [SP] ++ m) <$> (ze_member <$> z_entries z)) ++ [LF]).
Proof.
  intros H1 H2 H3 H4. unfold main. rewrite H1. cbn [mbind res_bind]. rewrite H2. cbn [mbind res_bind]. rewrite H3.
  cbn [mbind res_bind]. rewrite H4. by rewrite <- list_fmap_compose.
Qed.

Lemma main_rows `{Libm} clock :
  main clock = Ret (row #"city" #"latitude" #"longitude" #"km away" ++ concat (city_row (place edinburgh) <$> cities) ++
    [LF] ++ #"geohash order: london glasgow edinburgh paris" ++ [LF]).
Proof.
  assert (edinburgh ∈ cities) as Hin by left. destruct (filled_members (clock 9)) as (z & Hz & Hm).
  rewrite (main_parts clock _ _ _ _ (add_cities_filled clock) (position_filled clock 4 edinburgh Hin)
    (print_rows_filled clock cities (place edinburgh) 5 ltac:(done)) Hz), Hm. reflexivity.
Qed.

Lemma rows_text home `{Libm} :
  let km c := fmt_f 1 (km_away home (place c)) in
  concat (city_row home <$> cities) =
    row #"edinburgh" #"55.95330" #"-3.18830" (km edinburgh) ++
    row #"glasgow" #"55.86420" #"-4.25180" (km glasgow) ++
    row #"london" #"51.50740" #"-0.12780" (km london) ++
    row #"paris" #"48.85660" #"2.35220" (km paris).
Proof.
  intros km. unfold cities. rewrite !fmap_cons, fmap_nil. destruct printed_coordinates as (He & Hg & Hl & Hp).
  rewrite (city_row_printed _ _ _ _ He), (city_row_printed _ _ _ _ Hg), (city_row_printed _ _ _ _ Hl),
    (city_row_printed _ _ _ _ Hp). unfold concat. by rewrite app_nil_r.
Qed.

(** The example prints the four cities with exactly the coordinates it was
    given, to the five digits it prints, each with its distance from Edinburgh,
    and the members in the order of their geohashes, whatever the clock reads:
    every variable is set before it is used and no conversion overflows. *)
Lemma embedded_geo_output `{Libm} (clock : nat → Z) :
  let km c := fmt_f 1 (km_away (place edinburgh) (place c)) in
  main clock = Ret (
    #"city           latitude    longitude    km away" ++ [LF] ++
    (row #"edinburgh" #"55.95330" #"-3.18830" (km edinburgh) ++
     row #"glasgow" #"55.86420" #"-4.25180" (km glasgow) ++
     row #"london" #"51.50740" #"-0.12780" (km london) ++
     row #"paris" #"48.85660" #"2.35220" (km paris)) ++
    [LF] ++ #"geohash order: london glasgow edinburgh paris" ++ [LF]).
Proof. intros km. rewrite main_rows, rows_text. reflexivity. Qed.

End EmbeddedGeo.
