(* ===== verification/Rdb.v ===== *)
(** * rdb.c: the snapshot decoder, and what main.c does with it

    A file is the list of its bytes; a reader takes what is left of the file
    and returns what it read with the rest, or nothing where the C function
    reports an error ([-1] or NULL).  After an error [rdb_load] stops, so the
    position an unsuccessful read leaves behind is never used.  [rdb_load] reads
    the clock once for each key it stores: the clock is a function from the
    number of the reading. *)

From S2P Require Import Prelude CLib Stream Store.
Import Stream Store.
Local Open Scope Z_scope.

Module Rdb.

Definition RDB_OP_AUX : Z := 250.
Definition RDB_OP_RESIZEDB : Z := 251.
Definition RDB_OP_EXPIRE_MS : Z := 252.
Definition RDB_OP_EXPIRE_SEC : Z := 253.
Definition RDB_OP_SELECTDB : Z := 254.
Definition RDB_OP_EOF : Z := 255.
Definition RDB_TYPE_STRING : Z := 0.

Definition RDB_ENC_INT8 : Z := 0.
Definition RDB_ENC_INT16 : Z := 1.
Definition RDB_ENC_INT32 : Z := 2.

Inductive RdbResult := RDB_OK | RDB_NOT_FOUND | RDB_PARSE_ERROR | RDB_UNSUPPORTED.

(** ** Reading *)

Definition read_byte (f : bytes) : option (Z * bytes) :=
  match f with [] => None | c :: f' => Some (code c, f') end.

(** [fread(buf, 1, n, f) == n] *)
Definition fread (n : Z) (f : bytes) : option (bytes * bytes) :=
  if Z.of_nat (length f) <? n then None else Some (take (Z.to_nat n) f, drop (Z.to_nat n) f).

(** [v = (v << 8) | b] over the bytes, from [v]. *)
Definition shift_in (v : Z) (c : ascii) : Z := Z.lor (u64 (Z.shiftl v 8)) (code c).
Definition big_endian (b : bytes) : Z := foldl shift_in 0 b.

(** [read_length]; [allow] is [encoded != NULL].  The result is the value and
    whether it is a special encoding. *)
Definition read_length (allow : bool) (f : bytes) : option (Z * bool * bytes) :=
  '(byte, f) ← read_byte f;
  let top := Z.shiftr (Z.land byte 192) 6 in
  if top =? 0 then Some (Z.land byte 63, false, f)
  else if top =? 1 then
    '(next, f) ← read_byte f;
    Some (Z.lor (Z.shiftl (Z.land byte 63) 8) next, false, f)
  else if top =? 2 then
    if byte =? 128 then '(b, f) ← fread 4 f; Some (big_endian b, false, f)
    else if byte =? 129 then '(b, f) ← fread 8 f; Some (big_endian b, false, f)
    else None
  else if allow then Some (Z.land byte 63, true, f) else None.

(** [b[0] | b[1] << 8 | ...] *)
Definition little_endian (b : bytes) : Z := foldr (λ c v, Z.lor (code c) (Z.shiftl v 8)) 0 b.

(** Conversion of a [w]-bit pattern to the signed type of that width. *)
Definition to_signed (w v : Z) : Z := if v <? 2 ^ (w - 1) then v else v - 2 ^ w.

Definition MAX_STRING : Z := 512 * 1024 * 1024.

Definition read_string (f : bytes) : option (bytes * bytes) :=
  '(len, encoded, f) ← read_length true f;
  if encoded : bool then
    let int (n : Z) := '(b, f) ← fread n f; Some (fmt_d (to_signed (8 * n) (little_endian b)), f) in
    if len =? RDB_ENC_INT8 then int 1
    else if len =? RDB_ENC_INT16 then int 2
    else if len =? RDB_ENC_INT32 then int 4
    else None
  else if MAX_STRING <? len then None
  else fread len f.

(** ** Loading *)

(** The store and the number of clock readings so far. *)
Definition LoadState : Type := Store * nat.

(** [store_set(store, key, value, expiry_ms)] with two C strings. *)
Definition load_set (clock : nat → Z) (st : LoadState) (key value : bytes) (expiry_ms : Z) : LoadState :=
  (store_set st.1 (cstr key) (cstr value) expiry_ms (clock st.2), S st.2).

(** The loop of [rdb_load].  [None] is running out of fuel. *)
Fixpoint rdb_loop (clock : nat → Z) (fuel : nat) (f : bytes) (expiry_ms : Z) (st : LoadState)
    : option (RdbResult * LoadState) :=
  match fuel with
  | O => None
  | S fuel' =>
      match read_byte f with
      | None => Some (RDB_PARSE_ERROR, st)
      | Some (op, f) =>
          if op =? RDB_OP_EOF then Some (RDB_OK, st)
          else if op =? RDB_OP_AUX then
            match '(_, f) ← read_string f; '(_, f) ← read_string f; Some f with
            | None => Some (RDB_PARSE_ERROR, st)
            | Some f => rdb_loop clock fuel' f expiry_ms st
            end
          else if op =? RDB_OP_SELECTDB then
            match read_length false f with
            | None => Some (RDB_PARSE_ERROR, st)
            | Some (_, _, f) => rdb_loop clock fuel' f expiry_ms st
            end
          else if op =? RDB_OP_RESIZEDB then
            match '(_, _, f) ← read_length false f; '(_, _, f) ← read_length false f; Some f with
            | None => Some (RDB_PARSE_ERROR, st)
            | Some f => rdb_loop clock fuel' f expiry_ms st
            end
          else if op =? RDB_OP_EXPIRE_MS then
            match fread 8 f with
            | None => Some (RDB_PARSE_ERROR, st)
            | Some (b, f) => rdb_loop clock fuel' f (to_signed 64 (big_endian (rev b))) st
            end
          else if op =? RDB_OP_EXPIRE_SEC then
            match fread 4 f with
            | None => Some (RDB_PARSE_ERROR, st)
            | Some (b, f) => rdb_loop clock fuel' f (little_endian b * 1000) st
            end
          else if op =? RDB_TYPE_STRING then
            match '(key, f) ← read_string f; '(value, f) ← read_string f; Some (key, value, f) with
            | None => Some (RDB_PARSE_ERROR, st)
            | Some (key, value, f) => rdb_loop clock fuel' f 0 (load_set clock st key value expiry_ms)
            end
          else Some (RDB_UNSUPPORTED, st)
      end
  end.

(** [file] is [None] when it cannot be opened.  Every turn of the loop reads at
    least one byte. *)
Definition rdb_load (clock : nat → Z) (st : LoadState) (file : option bytes) : option (RdbResult * LoadState) :=
  match file with
  | None => Some (RDB_NOT_FOUND, st)
  | Some f =>
      match '(magic, f) ← fread 5 f;
            if decide (magic = #"REDIS") then '(_, f) ← fread 4 f; Some f else None with
      | None => Some (RDB_PARSE_ERROR, st)
      | Some f => rdb_loop clock (S (length f)) f 0 st
      end
  end.

(** ** main.c: the store the server starts with *)

Definition boot_store (clock : nat → Z) (file : option bytes) : option Store :=
  '(result, (store, _)) ← rdb_load clock (store_create, 0%nat) file;
  Some (match result with
        | RDB_OK | RDB_NOT_FOUND => store
        | RDB_PARSE_ERROR | RDB_UNSUPPORTED => store_create
        end).

End Rdb.
