(* ===== verification/RdbProps.v ===== *)
(** * The snapshot decoder reads the RDB format

    The format is given as data: [rdb_item] is one record of a file, with the
    choice of encoding each length and string has, and [encode_file] writes the
    bytes.  Every file written this way is loaded completely, every strict
    prefix of it is refused, and the decoder terminates on every input. *)

From S2P Require Import Prelude CLib Util Stream Store StoreInv StoreSpec StoreRefine Rdb.
Import Stream Store StoreInv StoreSpec StoreRefine Rdb.
Local Open Scope Z_scope.

Module RdbProps.

(** ** The format *)

(** [n] bytes of [v], the least significant first. *)
Fixpoint le_bytes (n : nat) (v : Z) : bytes :=
  match n with O => [] | S n' => chr (v mod 256) :: le_bytes n' (v / 256) end.

Definition be_bytes (n : nat) (v : Z) : bytes := rev (le_bytes n v).

(** A length in one of its four forms. *)
Inductive rlen := L6 (n : Z) | L14 (n : Z) | L32 (n : Z) | L64 (n : Z).

Definition len_val (l : rlen) : Z := match l with L6 n | L14 n | L32 n | L64 n => n end.

Definition len_ok (l : rlen) : bool :=
  (0 <=? len_val l) &&
  match l with
  | L6 n => n <? 2 ^ 6
  | L14 n => n <? 2 ^ 14
  | L32 n => n <? 2 ^ 32
  | L64 n => n <? 2 ^ 64
  end.

Definition encode_len (l : rlen) : bytes :=
  match l with
  | L6 n => [chr n]
  | L14 n => [chr (64 + n / 256); chr (n mod 256)]
  | L32 n => chr 128 :: be_bytes 4 n
  | L64 n => chr 129 :: be_bytes 8 n
  end.

(** A string: its bytes after their length, or a small integer. *)
Inductive rstr := R_raw (l : rlen) (s : bytes) | R_int8 (z : Z) | R_int16 (z : Z) | R_int32 (z : Z).

Definition str_text (r : rstr) : bytes := match r with R_raw _ s => s | R_int8 z | R_int16 z | R_int32 z => fmt_d z end.

Definition signed_ok (w z : Z) : bool := (- 2 ^ (w - 1) <=? z) && (z <? 2 ^ (w - 1)).

Definition str_ok (r : rstr) : bool :=
  match r with
  | R_raw l s => len_ok l && (len_val l =? Z.of_nat (length s)) && (len_val l <=? MAX_STRING)
  | R_int8 z => signed_ok 8 z
  | R_int16 z => signed_ok 16 z
  | R_int32 z => signed_ok 32 z
  end.

Definition encode_str (r : rstr) : bytes :=
  match r with
  | R_raw l s => encode_len l ++ s
  | R_int8 z => chr 192 :: le_bytes 1 (z mod 2 ^ 8)
  | R_int16 z => chr 193 :: le_bytes 2 (z mod 2 ^ 16)
  | R_int32 z => chr 194 :: le_bytes 4 (z mod 2 ^ 32)
  end.

Inductive rdb_item :=
| I_aux (k v : rstr)
| I_selectdb (n : rlen)
| I_resizedb (a b : rlen)
| I_expire_ms (t : Z)
| I_expire_sec (t : Z)
| I_string (k v : rstr).

Definition item_ok (i : rdb_item) : bool :=
  match i with
  | I_aux k v | I_string k v => str_ok k && str_ok v
  | I_selectdb n => len_ok n
  | I_resizedb a b => len_ok a && len_ok b
  | I_expire_ms t => signed_ok 64 t
  | I_expire_sec t => (0 <=? t) && (t <? 2 ^ 32)
  end.

Definition encode_item (i : rdb_item) : bytes :=
  match i with
  | I_aux k v => chr RDB_OP_AUX :: encode_str k ++ encode_str v
  | I_selectdb n => chr RDB_OP_SELECTDB :: encode_len n
  | I_resizedb a b => chr RDB_OP_RESIZEDB :: encode_len a ++ encode_len b
  | I_expire_ms t => chr RDB_OP_EXPIRE_MS :: le_bytes 8 (t mod 2 ^ 64)
  | I_expire_sec t => chr RDB_OP_EXPIRE_SEC :: le_bytes 4 t
  | I_string k v => chr RDB_TYPE_STRING :: encode_str k ++ encode_str v
  end.

Definition encode_body (items : list rdb_item) : bytes := concat (encode_item <$> items) ++ [chr RDB_OP_EOF].

Definition encode_file (version : bytes) (items : list rdb_item) : bytes := #"REDIS" ++ version ++ encode_body items.

(** What the records mean: an expiry applies to the next key. *)
Fixpoint assignments (items : list rdb_item) (expiry : Z) : list (bytes * bytes * Z) :=
  match items with
  | [] => []
  | I_expire_ms t :: items' => assignments items' t
  | I_expire_sec t :: items' => assignments items' (t * 1000)
  | I_string k v :: items' => (cstr (str_text k), cstr (str_text v), expiry) :: assignments items' 0
  | (I_aux _ _ | I_selectdb _ | I_resizedb _ _) :: items' => assignments items' expiry
  end.

(** The keyspace of a file, later records winning. *)
Definition snapshot (items : list rdb_item) : keyspace :=
  foldl (λ ks '(k, v, x), <[k := (x, A_str v)]> ks) ∅ (assignments items 0).

(** ** Numbers *)

Lemma le_bytes_length n v : length (le_bytes n v) = n.
Proof. revert v. induction n; intros; cbn; auto. Qed.

Lemma be_bytes_length n v : length (be_bytes n v) = n.
Proof. unfold be_bytes. by rewrite length_rev, le_bytes_length. Qed.

Lemma lor_byte v c : 0 ≤ v → Z.lor (Z.shiftl v 8) (code c) = v * 256 + code c.
Proof.
  intros Hv. pose proof (code_range c). rewrite Z.shiftl_mul_pow2 by lia. change (2 ^ 8) with 256.
  rewrite <- Z.lxor_lor; [rewrite <- Z.add_nocarry_lxor; [done|]|].
  all: apply Z.bits_inj'; intros k Hk; rewrite Z.land_spec, Z.testbit_0_l;
    change 256 with (2 ^ 8); rewrite <- Z.shiftl_mul_pow2, Z.shiftl_spec by lia;
    (destruct (Z.lt_ge_cases k 8);
      [by rewrite Z.testbit_neg_r by lia
      |rewrite <- (Z.mod_small (code c) (2 ^ 8)) by lia; by rewrite Z.mod_pow2_bits_high, andb_false_r by lia]).
Qed.

Lemma little_endian_le_bytes n v : 0 ≤ v < 2 ^ (8 * Z.of_nat n) → little_endian (le_bytes n v) = v.
Proof.
  revert v. induction n as [|n IH]; intros v Hv; [change (2 ^ (8 * Z.of_nat 0)) with 1 in Hv; cbn; lia|].
  cbn [le_bytes little_endian foldr]. fold (little_endian (le_bytes n (v / 256))).
  pose proof (Z.mod_pos_bound v 256 ltac:(lia)). pose proof (Z.div_mod v 256 ltac:(lia)).
  rewrite IH.
  - rewrite Z.lor_comm, lor_byte, code_chr by (try apply Z.div_pos; lia). lia.
  - split; [apply Z.div_pos; lia|]. apply Z.div_lt_upper_bound; [lia|].
    change 256 with (2 ^ 8). rewrite <- Z.pow_add_r by lia. replace (8 + 8 * Z.of_nat n) with (8 * Z.of_nat (S n)) by lia. lia.
Qed.

Lemma shift_in_small v c : 0 ≤ v < 2 ^ 56 → shift_in v c = v * 256 + code c.
Proof.
  intros Hv. unfold shift_in, u64. rewrite Z.mod_small; [apply lor_byte; lia|].
  rewrite Z.shiftl_mul_pow2 by lia. change (2 ^ 56) with 72057594037927936 in Hv. lia.
Qed.

(** Big-endian reading of at most eight bytes is little-endian reading of the
    reverse. *)
Lemma big_endian_rev b : (length b ≤ 8)%nat → big_endian (rev b) = little_endian b.
Proof.
  intros Hb. assert (big_endian (rev b) = little_endian b ∧ 0 ≤ little_endian b < 2 ^ (8 * Z.of_nat (length b))) as [? _]; [|done].
  induction b as [|c b IH]; [done|]. cbn [length] in Hb. destruct IH as [IH Hr]; [lia|].
  unfold big_endian in *. cbn [rev]. rewrite foldl_app. cbn [foldl]. rewrite IH.
  cbn [little_endian foldr]. fold (little_endian b). pose proof (code_range c).
  assert (2 ^ (8 * Z.of_nat (length b)) ≤ 2 ^ 56) by (apply Z.pow_le_mono_r; lia).
  rewrite shift_in_small, Z.lor_comm, lor_byte by lia. split; [done|]. cbn [length].
  replace (8 * Z.of_nat (S (length b))) with (8 + 8 * Z.of_nat (length b)) by lia. rewrite Z.pow_add_r by lia.
  change (2 ^ 8) with 256. lia.
Qed.

Lemma big_endian_be_bytes n v : (n ≤ 8)%nat → 0 ≤ v < 2 ^ (8 * Z.of_nat n) → big_endian (be_bytes n v) = v.
Proof.
  intros Hn Hv. unfold be_bytes. rewrite big_endian_rev by (by rewrite le_bytes_length). by apply little_endian_le_bytes.
Qed.

Lemma to_signed_mod w z : 0 < w → signed_ok w z = true → to_signed w (z mod 2 ^ w) = z.
Proof.
  intros Hw Hz. unfold signed_ok in Hz. bools. unfold to_signed.
  assert (2 ^ w = 2 * 2 ^ (w - 1)) as Hpow by (rewrite <- Z.pow_succ_r by lia; f_equal; lia).
  destruct (Z.lt_ge_cases z 0).
  - rewrite <- (Z_mod_plus_full z 1 (2 ^ w)), Z.mod_small by lia. destruct (Z.ltb_spec (z + 1 * 2 ^ w) (2 ^ (w - 1))); lia.
  - rewrite Z.mod_small by lia. destruct (Z.ltb_spec z (2 ^ (w - 1))); lia.
Qed.

(** ** Readers

    [reads rd enc a]: the reader takes exactly the text [enc] off the front of
    any file and returns [a], and it fails on every strict prefix of [enc]. *)
Definition reads {A} (rd : bytes → option (A * bytes)) (enc : bytes) (a : A) : Prop :=
  (∀ rest, rd (enc ++ rest) = Some (a, rest)) ∧ (∀ p q, enc = p ++ q → q ≠ [] → rd p = None).

Lemma reads_bind {A B} (rd1 : bytes → option (A * bytes)) (rd2 : A → bytes → option (B * bytes)) e1 e2 a b :
  reads rd1 e1 a → reads (rd2 a) e2 b → reads (λ f, '(a, f) ← rd1 f; rd2 a f) (e1 ++ e2) b.
Proof.
  intros [R1 P1] [R2 P2]. split.
  - intros rest. rewrite <- app_assoc, R1. apply R2.
  - intros p q [(k & -> & ->)|(k & -> & ->)]%app_eq_inv Hq.
    + destruct k as [|c k]; [rewrite app_nil_r in *|by rewrite (P1 p (c :: k))].
      specialize (R1 []). rewrite app_nil_r in R1. rewrite R1. by apply (P2 [] e2).
    + rewrite R1. by apply (P2 k q).
Qed.

Lemma reads_ret {A} (a : A) : reads (λ f, Some (a, f)) [] a.
Proof. split; [done|]. intros p q Hpq. symmetry in Hpq. by apply app_eq_nil in Hpq as [-> ->]. Qed.

(** Change of the value that is returned. *)
Lemma reads_map {A B} (rd : bytes → option (A * bytes)) (g : A → B) e a :
  reads rd e a → reads (λ f, '(a, f) ← rd f; Some (g a, f)) e (g a).
Proof. intros H. rewrite <- (app_nil_r e). apply (reads_bind rd (λ a f, Some (g a, f)) e [] a); [done|apply reads_ret]. Qed.

Lemma reads_byte c : reads read_byte [c] (code c).
Proof.
  split; [done|]. intros p q Hpq Hq. destruct p as [|c' p]; [done|]. injection Hpq as _ Hpq.
  symmetry in Hpq. by apply app_eq_nil in Hpq as [_ ->].
Qed.

Lemma reads_fread n b : Z.of_nat (length b) = n → reads (fread n) b b.
Proof.
  intros <-. unfold fread. split.
  - intros rest. rewrite length_app, Nat2Z.id. destruct (Z.ltb_spec (Z.of_nat (length b + length rest)) (Z.of_nat (length b))); [lia|].
    by rewrite take_app_length, drop_app_length.
  - intros p q -> Hq. rewrite length_app. destruct q; [done|]. cbn [length].
    by destruct (Z.ltb_spec (Z.of_nat (length p)) (Z.of_nat (length p + S (length q)))); [|lia].
Qed.

Lemma reads_ext {A} (rd rd' : bytes → option (A * bytes)) e a : (∀ f, rd f = rd' f) → reads rd e a → reads rd' e a.
Proof. intros He [R P]. split; [intros; by rewrite <- He|intros; rewrite <- He; eauto]. Qed.

(** The two top bits and the six others. *)
Lemma top_bits b : 0 ≤ b < 256 → Z.shiftr (Z.land b 192) 6 = b / 64.
Proof.
  intros Hb. rewrite Z.shiftr_land. change (Z.shiftr 192 6) with (Z.ones 2).
  rewrite Z.land_ones, Z.shiftr_div_pow2 by lia. change (2 ^ 6) with 64. apply Z.mod_small.
  split; [apply Z.div_pos; lia|apply Z.div_lt_upper_bound; lia].
Qed.

Lemma low_bits b : Z.land b 63 = b mod 64.
Proof. change 63 with (Z.ones 6). by rewrite Z.land_ones. Qed.

(** [read_length] after its first byte. *)
Definition length_rest (allow : bool) (byte : Z) (f : bytes) : option (Z * bool * bytes) :=
  if byte / 64 =? 0 then Some (byte mod 64, false, f)
  else if byte / 64 =? 1 then '(next, f) ← read_byte f; Some (Z.lor (Z.shiftl (byte mod 64) 8) next, false, f)
  else if byte / 64 =? 2 then
    if byte =? 128 then '(b, f) ← fread 4 f; Some (big_endian b, false, f)
    else if byte =? 129 then '(b, f) ← fread 8 f; Some (big_endian b, false, f)
    else None
  else if allow then Some (byte mod 64, true, f) else None.

Lemma read_length_eq allow f : read_length allow f = ('(byte, f) ← read_byte f; length_rest allow byte f).
Proof.
  unfold read_length. destruct f as [|c f]; [done|]. cbn [read_byte mbind option_bind].
  rewrite top_bits, !low_bits by apply code_range. done.
Qed.

Lemma reads_length allow l : len_ok l = true → reads (read_length allow) (encode_len l) (len_val l, false).
Proof.
  intros Hok. unfold len_ok in Hok. apply andb_true_iff in Hok as [H0 Hok].
  apply (reads_ext (λ f, '(byte, f) ← read_byte f; length_rest allow byte f)); [intros; by rewrite read_length_eq|].
  destruct l as [n|n|n|n]; cbn [len_val encode_len] in *; bools.
  - change [chr n] with ([chr n] ++ []). apply (reads_bind read_byte (length_rest allow) _ _ _ _ (reads_byte _)).
    unfold length_rest. change (2 ^ 6) with 64 in *. rewrite code_chr, Z.div_small, Z.mod_small by lia. apply reads_ret.
  - change [chr (64 + n / 256); chr (n mod 256)] with ([chr (64 + n / 256)] ++ [chr (n mod 256)]).
    change (2 ^ 14) with 16384 in *. pose proof (Z.mod_pos_bound n 256 ltac:(lia)). pose proof (Z.div_mod n 256 ltac:(lia)).
    assert (0 ≤ n / 256 < 64) by (split; [apply Z.div_pos; lia|apply Z.div_lt_upper_bound; lia]).
    apply (reads_bind read_byte (length_rest allow) _ _ _ _ (reads_byte _)).
    unfold length_rest. rewrite !code_chr by lia.
    replace ((64 + n / 256) / 64) with 1 by (apply Z.div_unique with (n / 256); lia).
    replace ((64 + n / 256) mod 64) with (n / 256) by (apply Z.mod_unique with 1; lia). cbn [Z.eqb Pos.eqb].
    pose proof (reads_map read_byte (λ next, (Z.lor (Z.shiftl (n / 256) 8) next, false)) _ _ (reads_byte (chr (n mod 256)))) as Hr.
    cbv beta in Hr. rewrite lor_byte, code_chr in Hr by lia. by replace n with (n / 256 * 256 + n mod 256) at 2 by lia.
  - pose proof (reads_map (fread 4) (λ b, (big_endian b, false)) _ _ (reads_fread 4 (be_bytes 4 n) ltac:(by rewrite be_bytes_length))) as Hr.
    cbv beta in Hr. rewrite big_endian_be_bytes in Hr by (change (8 * Z.of_nat 4) with 32; lia).
    by apply (reads_bind read_byte (length_rest allow) [chr 128] (be_bytes 4 n) _ _ (reads_byte _)).
  - pose proof (reads_map (fread 8) (λ b, (big_endian b, false)) _ _ (reads_fread 8 (be_bytes 8 n) ltac:(by rewrite be_bytes_length))) as Hr.
    cbv beta in Hr. rewrite big_endian_be_bytes in Hr by (change (8 * Z.of_nat 8) with 64; lia).
    by apply (reads_bind read_byte (length_rest allow) [chr 129] (be_bytes 8 n) _ _ (reads_byte _)).
Qed.

(** [read_string] after the length. *)
Definition string_rest (a : Z * bool) (f : bytes) : option (bytes * bytes) :=
  let '(len, encoded) := a in
  if encoded : bool then
    let int (n : Z) := '(b, f) ← fread n f; Some (fmt_d (to_signed (8 * n) (little_endian b)), f) in
    if len =? RDB_ENC_INT8 then int 1
    else if len =? RDB_ENC_INT16 then int 2
    else if len =? RDB_ENC_INT32 then int 4
    else None
  else if MAX_STRING <? len then None
  else fread len f.

(** The three integer encodings. *)
Lemma reads_int (k : Z) (n : nat) z :
  (k = 0 ∧ n = 1%nat) ∨ (k = 1 ∧ n = 2%nat) ∨ (k = 2 ∧ n = 4%nat) → signed_ok (8 * Z.of_nat n) z = true →
  reads read_string (chr (192 + k) :: le_bytes n (z mod 2 ^ (8 * Z.of_nat n))) (fmt_d z).
Proof.
  intros Hk Hz. set (w := 8 * Z.of_nat n) in *.
  assert (0 < w) as Hw by lia. pose proof (Z.mod_pos_bound z (2 ^ w) ltac:(apply Z.pow_pos_nonneg; lia)) as Hm.
  pose proof (reads_map (fread (Z.of_nat n)) (λ b, fmt_d (to_signed w (little_endian b))) _ _
    (reads_fread _ (le_bytes n (z mod 2 ^ w)) ltac:(by rewrite le_bytes_length))) as Hr.
  cbv beta in Hr. rewrite little_endian_le_bytes, to_signed_mod in Hr by done.
  apply (reads_bind (read_length true) string_rest [chr (192 + k)] (le_bytes n (z mod 2 ^ w)) (k, true)).
  - apply (reads_ext (λ f, '(byte, f) ← read_byte f; length_rest true byte f)); [intros; by rewrite read_length_eq|].
    apply (reads_bind read_byte (length_rest true) [chr (192 + k)] [] _ _ (reads_byte _)).
    rewrite code_chr by lia. destruct Hk as [[-> _]|[[-> _]|[-> _]]]; apply reads_ret.
  - destruct Hk as [[-> ->]|[[-> ->]|[-> ->]]]; exact Hr.
Qed.

Lemma reads_string r : str_ok r = true → reads read_string (encode_str r) (str_text r).
Proof.
  destruct r as [l s|z|z|z]; cbn [str_ok encode_str str_text]; intros Hok.
  - apply andb_true_iff in Hok as [[Hl Hs]%andb_true_iff Hmax]. bools.
    apply (reads_bind (read_length true) string_rest (encode_len l) s (len_val l, false)); [by apply reads_length|].
    apply (reads_ext (fread (len_val l))); [|by apply reads_fread].
    intros f. cbn [string_rest]. destruct (Z.ltb_spec MAX_STRING (len_val l)); [lia|done].
  - apply (reads_int 0 1); [lia|done].
  - apply (reads_int 1 2); [lia|done].
  - apply (reads_int 2 4); [lia|done].
Qed.

(** ** The loop *)

Section loading.
Context (clock : nat → Z).

Definition set_all (st : LoadState) (l : list (bytes * bytes * Z)) : LoadState :=
  foldl (λ st '(k, v, x), (store_set st.1 k v x (clock st.2), S st.2)) st l.

(** What one record does to the pending expiry and the store. *)
Definition item_effect (i : rdb_item) (x : Z) (st : LoadState) : Z * LoadState :=
  match i with
  | I_expire_ms t => (t, st)
  | I_expire_sec t => (t * 1000, st)
  | I_string k v => (0, load_set clock st (str_text k) (str_text v) x)
  | I_aux _ _ | I_selectdb _ | I_resizedb _ _ => (x, st)
  end.

(** The reader of the record after its opcode. *)
Definition read_payload (i : rdb_item) (f : bytes) : option (Z * bytes * bytes * bytes) :=
  match i with
  | I_aux _ _ => '(_, f) ← read_string f; '(_, f) ← read_string f; Some (0, [], [], f)
  | I_selectdb _ => '(_, f) ← read_length false f; Some (0, [], [], f)
  | I_resizedb _ _ => '(_, f) ← read_length false f; '(_, f) ← read_length false f; Some (0, [], [], f)
  | I_expire_ms _ => '(b, f) ← fread 8 f; Some (to_signed 64 (big_endian (rev b)), [], [], f)
  | I_expire_sec _ => '(b, f) ← fread 4 f; Some (little_endian b * 1000, [], [], f)
  | I_string _ _ => '(k, f) ← read_string f; '(v, f) ← read_string f; Some (0, k, v, f)
  end.

Definition payload (i : rdb_item) : Z * bytes * bytes :=
  match i with
  | I_expire_ms t => (t, [], [])
  | I_expire_sec t => (t * 1000, [], [])
  | I_string k v => (0, str_text k, str_text v)
  | I_aux _ _ | I_selectdb _ | I_resizedb _ _ => (0, [], [])
  end.

Lemma reads_two {A B C} (rd1 : bytes → option (A * bytes)) (rd2 : bytes → option (B * bytes)) (g : A → B → C) e1 e2 a b :
  reads rd1 e1 a → reads rd2 e2 b →
  reads (λ f, '(a, f) ← rd1 f; '(b, f) ← rd2 f; Some (g a b, f)) (e1 ++ e2) (g a b).
Proof.
  intros H1 H2. apply (reads_bind rd1 (λ a f, '(b, f) ← rd2 f; Some (g a b, f)) e1 e2 a); [done|]. by apply reads_map.
Qed.

Lemma reads_payload i : item_ok i = true → reads (read_payload i) (tail (encode_item i)) (payload i).
Proof.
  destruct i as [k v|n|a b|t|t|k v]; cbn [item_ok encode_item tail read_payload payload]; intros Hok; bools.
  - by eapply (reads_two read_string read_string (λ _ _, (0, [], []))); apply reads_string.
  - by eapply (reads_map (read_length false) (λ _, (0, [], []))), reads_length.
  - by eapply (reads_two (read_length false) (read_length false) (λ _ _, (0, [], []))); apply reads_length.
  - pose proof (Z.mod_pos_bound t (2 ^ 64) ltac:(lia)) as Hm.
    pose proof (reads_map (fread 8) (λ b, (to_signed 64 (big_endian (rev b)), @nil ascii, @nil ascii)) _ _
      (reads_fread 8 (le_bytes 8 (t mod 2 ^ 64)) ltac:(by rewrite le_bytes_length))) as Hr. cbv beta in Hr.
    rewrite big_endian_rev in Hr by (by rewrite le_bytes_length).
    by rewrite little_endian_le_bytes, to_signed_mod in Hr by done.
  - pose proof (reads_map (fread 4) (λ b, (little_endian b * 1000, @nil ascii, @nil ascii)) _ _
      (reads_fread 4 (le_bytes 4 t) ltac:(by rewrite le_bytes_length))) as Hr. cbv beta in Hr.
    by rewrite little_endian_le_bytes in Hr by (change (8 * Z.of_nat 4) with 32; lia).
  - by apply (reads_two read_string read_string (λ k v, (0, k, v))); apply reads_string.
Qed.

(** The effect of a record with this payload. *)
Definition payload_effect (i : rdb_item) (a : Z * bytes * bytes) (x : Z) (st : LoadState) : Z * LoadState :=
  let '(t, k, v) := a in
  match i with
  | I_expire_ms _ | I_expire_sec _ => (t, st)
  | I_string _ _ => (0, load_set clock st k v x)
  | I_aux _ _ | I_selectdb _ | I_resizedb _ _ => (x, st)
  end.

Definition opcode (i : rdb_item) : ascii :=
  chr (match i with
       | I_aux _ _ => RDB_OP_AUX
       | I_selectdb _ => RDB_OP_SELECTDB
       | I_resizedb _ _ => RDB_OP_RESIZEDB
       | I_expire_ms _ => RDB_OP_EXPIRE_MS
       | I_expire_sec _ => RDB_OP_EXPIRE_SEC
       | I_string _ _ => RDB_TYPE_STRING
       end).

(** One turn of the loop at the opcode of [i]. *)
Lemma rdb_loop_item fuel i f x st :
  rdb_loop clock (S fuel) (opcode i :: f) x st =
  match read_payload i f with
  | None => Some (RDB_PARSE_ERROR, st)
  | Some (a, f') => let '(x', st') := payload_effect i a x st in rdb_loop clock fuel f' x' st'
  end.
Proof.
  destruct i; cbn [rdb_loop opcode read_byte read_payload]; unfold opcode; rewrite code_chr by done;
    cbn -[read_string read_length fread rdb_loop to_signed big_endian little_endian load_set].
  - destruct (read_string f) as [[? f1]|]; [|done]. cbn -[read_string rdb_loop]. by destruct (read_string f1) as [[? f2]|].
  - by destruct (read_length false f) as [[[] f1]|].
  - destruct (read_length false f) as [[[] f1]|]; [|done]. cbn -[read_length rdb_loop].
    by destruct (read_length false f1) as [[[] f2]|].
  - by destruct (fread 8 f) as [[? f1]|].
  - by destruct (fread 4 f) as [[? f1]|].
  - destruct (read_string f) as [[? f1]|]; [|done]. cbn -[read_string rdb_loop load_set].
    by destruct (read_string f1) as [[? f2]|].
Qed.

Lemma encode_item_split i : encode_item i = opcode i :: tail (encode_item i).
Proof. by destruct i. Qed.

Lemma payload_effect_item i x st : payload_effect i (payload i) x st = item_effect i x st.
Proof. by destruct i. Qed.

Lemma loop_reads_item fuel i rest x st :
  item_ok i = true →
  rdb_loop clock (S fuel) (encode_item i ++ rest) x st =
  let '(x', st') := item_effect i x st in rdb_loop clock fuel rest x' st'.
Proof.
  intros Hok. destruct (reads_payload i Hok) as [Hr _]. rewrite encode_item_split. cbn [app]. rewrite rdb_loop_item, Hr.
  by rewrite payload_effect_item.
Qed.

Lemma loop_cut_item fuel i p q x st :
  item_ok i = true → encode_item i = p ++ q → q ≠ [] →
  rdb_loop clock (S fuel) p x st = Some (RDB_PARSE_ERROR, st).
Proof.
  intros Hok Hpq Hq. destruct (reads_payload i Hok) as [_ Hp]. destruct p as [|c p]; [done|].
  pose proof (encode_item_split i) as Hs. rewrite Hpq in Hs at 1. injection Hs as -> Ht. symmetry in Ht.
  by rewrite rdb_loop_item, (Hp p q).
Qed.

Lemma assignments_cons i items x st :
  set_all st (assignments (i :: items) x) = let '(x', st') := item_effect i x st in set_all st' (assignments items x').
Proof. by destruct i. Qed.

Lemma loop_reads_body fuel items trailer x st :
  (length items < fuel)%nat → Forall (λ i, item_ok i = true) items →
  rdb_loop clock fuel (encode_body items ++ trailer) x st = Some (RDB_OK, set_all st (assignments items x)).
Proof.
  intros Hf Hok. revert fuel x st Hf. induction Hok as [|i items Hi Hok IH]; intros fuel x st Hf.
  - destruct fuel; [lia|done].
  - destruct fuel; [lia|]. unfold encode_body. cbn [fmap list_fmap concat]. rewrite <- !app_assoc, loop_reads_item by done.
    rewrite assignments_cons. destruct (item_effect i x st) as [x' st']. cbn [length] in Hf.
    rewrite (app_assoc (concat _)). apply IH. lia.
Qed.

(** A body that is cut short ends in a parse error, at a record or before the
    end marker. *)
Lemma loop_cut_body fuel items p q x st :
  (length p < fuel)%nat → Forall (λ i, item_ok i = true) items → encode_body items = p ++ q → q ≠ [] →
  ∃ st', rdb_loop clock fuel p x st = Some (RDB_PARSE_ERROR, st').
Proof.
  intros Hf Hok. revert fuel p x st Hf. induction Hok as [|i items Hi Hok IH]; intros fuel p x st Hf Hpq Hq.
  - destruct fuel; [lia|]. destruct p as [|c p]; [by exists st|]. injection Hpq as _ Hpq. symmetry in Hpq.
    by apply app_eq_nil in Hpq as [_ ->].
  - destruct fuel as [|fuel]; [lia|]. unfold encode_body in Hpq. cbn [fmap list_fmap concat] in Hpq. rewrite <- app_assoc in Hpq.
    apply app_eq_inv in Hpq as [(k & He & ->)|(k & -> & Hk)].
    + destruct k as [|c k]; [|exists st; by apply (loop_cut_item fuel i p (c :: k))].
      rewrite app_nil_r in He. subst p. rewrite <- (app_nil_r (encode_item i)), loop_reads_item by done.
      destruct (item_effect i x st) as [x' st'].
      apply (IH fuel [] x' st'); [cbn; pose proof (encode_item_split i) as He; apply (f_equal length) in He;
        destruct i; cbn in Hf; lia|done|].
      by destruct (concat _).
    + rewrite loop_reads_item by done. destruct (item_effect i x st) as [x' st']. apply (IH fuel k x' st'); [|done..].
      rewrite length_app in Hf. destruct i; cbn in Hf; lia.
Qed.

(** ** The store that results *)

(** Setting a key replaces what it held, expired or not, and touches no other. *)
Lemma set_abs now s k v x :
  store_wf s → store_wf (store_set s k v x now) ∧ abs (store_set s k v x now) = <[k := (x, A_str v)]> (abs s).
Proof.
  intros Hwf. unfold store_set. pose proof (lookup_spec s k now Hwf) as Hl.
  assert (∀ s', store_wf s' → key_map s' !! k = None → abs s' = delete k (abs s) →
    let s2 := write_entry (create_entry s' k (V_str [])) k (with_v_expiry (V_str v) x) in
    store_wf s2 ∧ abs s2 = <[k := (x, A_str v)]> (abs s)) as Hnew.
  { intros s' Hwf' Hk Ha. destruct (create_write_spec s' k (V_str []) (with_v_expiry (V_str v) x)) as [Hw Hm]; [done..|].
    split; [done|]. unfold abs at 1. rewrite Hm, fmap_insert. fold (abs s'). by rewrite Ha, insert_delete_eq. }
  destruct (key_map s !! k) as [e|] eqn:Hk; [destruct (entry_is_expired e now)|].
  - destruct Hl as (s' & -> & Hwf' & Hm). apply Hnew; [done|by rewrite Hm, lookup_delete_eq|].
    unfold abs. by rewrite Hm, fmap_delete.
  - rewrite Hl. destruct (write_entry_spec s k e (with_v_expiry (V_str v) x) Hwf Hk) as [Hw Hm]; [done..|].
    split; [done|]. unfold abs at 1. by rewrite Hm, fmap_insert.
  - rewrite Hl. apply Hnew; [done..|]. symmetry. apply delete_id. by rewrite abs_lookup, Hk.
Qed.

Lemma set_all_abs st l :
  store_wf st.1 → store_wf (set_all st l).1 ∧
  abs (set_all st l).1 = foldl (λ ks '(k, v, x), <[k := (x, A_str v)]> ks) (abs st.1) l.
Proof.
  revert st. induction l as [|[[k v] x] l IH]; intros st Hwf; [done|]. cbn [set_all foldl].
  destruct (set_abs (clock st.2) st.1 k v x Hwf) as [Hwf' Ha].
  destruct (IH (store_set st.1 k v x (clock st.2), S st.2) Hwf') as [H1 H2]. split; [exact H1|]. etrans; [exact H2|]. cbn [fst]. by rewrite Ha.
Qed.

Lemma encode_body_length items : (length items < length (encode_body items))%nat.
Proof.
  unfold encode_body. rewrite length_app. cbn [length]. induction items as [|i items IH]; [cbn; lia|].
  cbn [fmap list_fmap concat length]. rewrite length_app, encode_item_split. cbn [length]. lia.
Qed.

Lemma load_header st version f :
  length version = 4%nat → rdb_load clock st (Some (#"REDIS" ++ version ++ f)) = rdb_loop clock (S (length f)) f 0 st.
Proof.
  intros Hv. unfold rdb_load. destruct (reads_fread 5 #"REDIS" eq_refl) as [-> _]. cbn [mbind option_bind].
  rewrite decide_True by done. by destruct (reads_fread 4 version ltac:(lia)) as [-> _].
Qed.

Lemma fread_short n f : Z.of_nat (length f) < n → fread n f = None.
Proof. intros Hn. unfold fread. by destruct (Z.ltb_spec (Z.of_nat (length f)) n); [|lia]. Qed.

Lemma fread_enough n f : n ≤ Z.of_nat (length f) → fread n f = Some (take (Z.to_nat n) f, drop (Z.to_nat n) f).
Proof. intros Hn. unfold fread. by destruct (Z.ltb_spec (Z.of_nat (length f)) n); [lia|]. Qed.

Lemma load_short_header st p : (length p < 9)%nat → rdb_load clock st (Some p) = Some (RDB_PARSE_ERROR, st).
Proof.
  intros Hp. unfold rdb_load. destruct (Z.lt_ge_cases (Z.of_nat (length p)) 5) as [H5|H5]; [by rewrite (fread_short 5 p)|].
  rewrite (fread_enough 5 p) by done. cbn [mbind option_bind]. destruct (decide _); [|done].
  by rewrite (fread_short 4) by (rewrite length_drop; lia).
Qed.

End loading.

(** What a snapshot file gives, whatever follows its end marker. *)
Lemma load_complete (clock : nat → Z) (version trailer : bytes) (items : list rdb_item) :
  length version = 4%nat → Forall (λ i, item_ok i = true) items →
  rdb_load clock (store_create, 0%nat) (Some (encode_file version items ++ trailer)) =
    Some (RDB_OK, set_all clock (store_create, 0%nat) (assignments items 0)).
Proof.
  intros Hv Hok. unfold encode_file. rewrite <- !app_assoc, load_header by done. apply loop_reads_body; [|done].
  pose proof (encode_body_length items). rewrite length_app. lia.
Qed.

(** A snapshot file, whatever forms its lengths and strings are encoded in
    and whatever follows its end marker, is loaded completely: the result is
    [RDB_OK], and the store the server starts with has exactly the keys, values
    and expiries of the file, those of keys that have expired included. *)
Lemma rdb_load_snapshot (clock : nat → Z) (version trailer : bytes) (items : list rdb_item) :
  length version = 4%nat → Forall (λ i, item_ok i = true) items →
  let file := encode_file version items ++ trailer in
  ∃ s n, rdb_load clock (store_create, 0%nat) (Some file) = Some (RDB_OK, (s, n)) ∧
    boot_store clock (Some file) = Some s ∧ store_wf s ∧ abs s = snapshot items.
Proof.
  intros Hv Hok file. pose proof (load_complete clock version trailer items Hv Hok) as Hload.
  set (st := set_all clock (store_create, 0%nat) (assignments items 0)) in *.
  exists st.1, st.2. split; [by rewrite <- surjective_pairing|]. split.
  - unfold boot_store, file. rewrite Hload. by destruct st.
  - destruct store_create_spec as [Hwf Hm]. destruct (set_all_abs clock (store_create, 0%nat) (assignments items 0) Hwf) as [H1 H2].
    split; [done|]. unfold st. rewrite H2. cbn [fst]. unfold abs. by rewrite Hm, fmap_empty.
Qed.

(** The part before the end marker is missing something. *)
Lemma load_cut (clock : nat → Z) (version : bytes) (items : list rdb_item) (p q : bytes) :
  length version = 4%nat → Forall (λ i, item_ok i = true) items → encode_file version items = p ++ q → q ≠ [] →
  ∃ st, rdb_load clock (store_create, 0%nat) (Some p) = Some (RDB_PARSE_ERROR, st).
Proof.
  intros Hv Hok Hpq Hq. unfold encode_file in Hpq. destruct (Nat.lt_ge_cases (length p) 9) as [Hp|Hp].
  - exists (store_create, 0%nat). by apply load_short_header.
  - rewrite app_assoc in Hpq. apply app_eq_inv in Hpq as [(k & Hk & ->)|(k & -> & Hk)].
    + assert (k = []) as -> by (apply (f_equal length) in Hk; rewrite !length_app in Hk; cbn in Hk;
        destruct k; [done|cbn in Hk; lia]).
      rewrite app_nil_r in Hk. rewrite <- Hk, <- (app_nil_r version), load_header by done.
      by apply (loop_cut_body clock _ items [] (encode_body items)); [cbn; lia|..|destruct (encode_body items) eqn:He].
    + rewrite <- app_assoc, load_header by done. by apply (loop_cut_body clock _ items k q); [lia|..].
Qed.

(** C29: a snapshot file, with any bytes (the checksum) after its end marker,
    that is cut short.  If the cut is at or before the end marker, the file is
    refused with a parse error, and the server starts with an empty store instead
    of half of the keys.  If only bytes after the end marker are missing, it is
    loaded like the whole file: the checksum is not looked at. *)
Theorem rdb_load_truncated (clock : nat → Z) (version trailer : bytes) (items : list rdb_item) (p q : bytes) :
  length version = 4%nat → Forall (λ i, item_ok i = true) items → encode_file version items ++ trailer = p ++ q →
  if decide (length p < length (encode_file version items))%nat then
    (∃ st, rdb_load clock (store_create, 0%nat) (Some p) = Some (RDB_PARSE_ERROR, st)) ∧
    boot_store clock (Some p) = Some store_create
  else
    (∃ st, rdb_load clock (store_create, 0%nat) (Some p) = Some (RDB_OK, st)) ∧
    boot_store clock (Some p) = boot_store clock (Some (p ++ q)).
Proof.
  intros Hv Hok Hpq. case_decide as Hlen.
  - assert (∃ k, k ≠ [] ∧ encode_file version items = p ++ k) as (k & Hk & He).
    { apply app_eq_inv in Hpq as [(k & He & _)|(k & -> & _)]; [|rewrite length_app in Hlen; lia].
      exists k. split; [|done]. intros ->. rewrite He, length_app in Hlen. cbn in Hlen. lia. }
    destruct (load_cut clock version items p k Hv Hok He Hk) as [st Hst].
    split; [by exists st|]. unfold boot_store. rewrite Hst. by destruct st.
  - assert (∃ t, p = encode_file version items ++ t) as [t ->].
    { apply app_eq_inv in Hpq as [(k & He & _)|(k & -> & _)]; [|by exists k].
      rewrite He, length_app in Hlen. destruct k; [|cbn in Hlen; lia]. exists []. by rewrite He, !app_nil_r. }
    unfold boot_store. rewrite <- app_assoc, !load_complete by done. split; [by eexists|done].
Qed.

(** ** Termination *)

(** A reader leaves no more than it found. *)
Definition shrinks {A} (rd : bytes → option (A * bytes)) : Prop :=
  ∀ f a f', rd f = Some (a, f') → (length f' ≤ length f)%nat.

Lemma fread_shrinks n : shrinks (fread n).
Proof. intros f a f'. unfold fread. destruct (_ <? _); [done|]. intros [= <- <-]. rewrite length_drop. lia. Qed.

Lemma read_length_shrinks allow : shrinks (read_length allow).
Proof.
  intros f a f'. rewrite read_length_eq. destruct f as [|c f]; [done|]. cbn [read_byte mbind option_bind].
  unfold length_rest. pose proof (fread_shrinks 4 f) as H4. pose proof (fread_shrinks 8 f) as H8. cbn [length].
  destruct (_ =? _); [by intros [= _ <-]; lia|]. destruct (_ =? _).
  { destruct f as [|c' f]; [done|]. cbn. intros [= _ <-]. lia. }
  destruct (_ =? _); [|destruct allow; [intros [= _ <-]; lia|done]]. destruct (_ =? _); [|destruct (_ =? _); [|done]].
  - destruct (fread 4 f) as [[b f1]|]; [|done]. cbn. intros [= _ <-]. specialize (H4 _ _ eq_refl). lia.
  - destruct (fread 8 f) as [[b f1]|]; [|done]. cbn. intros [= _ <-]. specialize (H8 _ _ eq_refl). lia.
Qed.

Lemma read_string_shrinks : shrinks read_string.
Proof.
  intros f a f'. unfold read_string. destruct (read_length true f) as [[[len enc] f1]|] eqn:Hl; [|done].
  apply read_length_shrinks in Hl. cbn [mbind option_bind].
  assert (∀ n, ('(b, f) ← fread n f1; Some (fmt_d (to_signed (8 * n) (little_endian b)), f)) = Some (a, f') →
    (length f' ≤ length f)%nat) as Hint.
  { intros n. destruct (fread n f1) as [[b f2]|] eqn:Hf; [|done]. apply fread_shrinks in Hf. cbn. intros [= _ <-]. lia. }
  destruct enc; [by repeat (destruct (_ =? _); [apply Hint|])|].
  destruct (_ <? _); [done|]. intros Hf%fread_shrinks. lia.
Qed.

(** Reading two things one after the other. *)
Lemma shrinks_two {A B C} (rd1 : bytes → option (A * bytes)) (rd2 : bytes → option (B * bytes)) (g : A → B → bytes → C) f c :
  shrinks rd1 → shrinks rd2 → ('(a, f) ← rd1 f; '(b, f) ← rd2 f; Some (g a b f)) = Some c →
  ∃ a b f', c = g a b f' ∧ (length f' ≤ length f)%nat.
Proof.
  intros H1 H2. destruct (rd1 f) as [[a f1]|] eqn:E1; [|done]. cbn. destruct (rd2 f1) as [[b f2]|] eqn:E2; [|done]. cbn.
  apply H1 in E1. apply H2 in E2. intros [= <-]. exists a, b, f2. split; [done|lia].
Qed.

Lemma rdb_loop_total clock fuel f x st : (length f < fuel)%nat → is_Some (rdb_loop clock fuel f x st).
Proof.
  revert f x st. induction fuel as [|fuel IH]; intros f x st Hf; [lia|]. cbn [rdb_loop].
  destruct f as [|c f]; [done|]. cbn [read_byte length] in *. destruct (_ =? _); [done|].
  destruct (_ =? _).
  { destruct (_ ≫= _) as [f'|] eqn:E; [|done].
    apply (shrinks_two _ _ (λ _ _ f, f) _ _ read_string_shrinks read_string_shrinks) in E as (? & ? & ? & -> & ?). apply IH; lia. }
  destruct (_ =? _).
  { destruct (read_length false f) as [[[? ?] f']|] eqn:E; [|done]. apply read_length_shrinks in E. apply IH; lia. }
  destruct (_ =? _).
  { destruct (read_length false f) as [[[? ?] f1]|] eqn:E1; [|done]. apply read_length_shrinks in E1. cbn [mbind option_bind].
    destruct (read_length false f1) as [[[? ?] f2]|] eqn:E2; [|done]. apply read_length_shrinks in E2. apply IH; lia. }
  destruct (_ =? _); [destruct (fread 8 f) as [[b f']|] eqn:E; [|done]; apply fread_shrinks in E; apply IH; lia|].
  destruct (_ =? _); [destruct (fread 4 f) as [[b f']|] eqn:E; [|done]; apply fread_shrinks in E; apply IH; lia|].
  destruct (_ =? _); [|done]. destruct (_ ≫= _) as [[[k v] f']|] eqn:E; [|done].
  apply (shrinks_two _ _ (λ k v f, (k, v, f)) _ _ read_string_shrinks read_string_shrinks) in E as (? & ? & ? & [= -> -> ->] & ?).
  apply IH; lia.
Qed.

(** C30: the decoder terminates on every input: whatever the file holds, each
    turn of the loop consumes input, and [rdb_load] returns a result. *)
Theorem rdb_load_terminates (clock : nat → Z) (st : LoadState) (file : option bytes) :
  ∃ result st', rdb_load clock st file = Some (result, st').
Proof.
  unfold rdb_load. destruct file as [f|]; [|eauto]. destruct (_ ≫= _) as [f'|]; [|eauto].
  destruct (rdb_loop_total clock (S (length f')) f' 0 st ltac:(lia)) as [[r st'] ->]. eauto.
Qed.

Definition demo_items : list rdb_item :=
  [I_aux (R_raw (L6 3) #"ver") (R_int8 (-7)); I_selectdb (L6 0); I_resizedb (L14 300) (L32 1);
   I_expire_ms 1700; I_string (R_raw (L6 1) #"a") (R_int16 (-300)); I_string (R_raw (L32 1) #"b") (R_raw (L64 2) #"xy")].

Lemma rdb_load_snapshot_witness :
  ∃ s n, rdb_load (λ _, 5) (store_create, 0%nat) (Some (encode_file #"0011" demo_items ++ #"crc")) = Some (RDB_OK, (s, n)) ∧
    boot_store (λ _, 5) (Some (encode_file #"0011" demo_items ++ #"crc")) = Some s ∧ store_wf s ∧
    abs s = snapshot demo_items ∧ snapshot demo_items = {[ #"a" := (1700, A_str #"-300"); #"b" := (0, A_str #"xy")]}.
Proof.
  destruct (rdb_load_snapshot (λ _, 5) #"0011" #"crc" demo_items) as (s & n & H1 & H2 & H3 & H4);
    [reflexivity|repeat constructor|].
  exists s, n. split; [exact H1|]. split; [exact H2|]. split; [exact H3|]. split; [exact H4|]. vm_compute. reflexivity.
Defined.

(** Cut inside a record, and inside the checksum. *)
Lemma rdb_load_truncated_witness :
  let file := encode_file #"0011" demo_items ++ #"checksum" in
  boot_store (λ _, 5) (Some (take 40 file)) = Some store_create ∧
  boot_store (λ _, 5) (Some (take (length file - 3) file)) = boot_store (λ _, 5) (Some file).
Proof.
  set (file := encode_file #"0011" demo_items ++ #"checksum"). split.
  - pose proof (rdb_load_truncated (λ _, 5) #"0011" #"checksum" demo_items (take 40 file) (drop 40 file) eq_refl
      ltac:(repeat constructor) (eq_sym (take_drop 40 file))) as Hl.
    rewrite decide_True in Hl by (vm_compute; lia). exact (proj2 Hl).
  - pose proof (rdb_load_truncated (λ _, 5) #"0011" #"checksum" demo_items (take (length file - 3) file)
      (drop (length file - 3) file) eq_refl ltac:(repeat constructor) (eq_sym (take_drop _ file))) as Hl.
    rewrite decide_False, take_drop in Hl by (vm_compute; lia). exact (proj2 Hl).
Defined.

End RdbProps.
