(* ===== verification/Config.v ===== *)
(** * config.c: the configuration and its command line

    [config_parse_args] works through the arguments after the program name.
    What it prints to [stderr] on an error is part of its result. *)

From S2P Require Import Prelude CLib Util.
Import Util.
Local Open Scope Z_scope.

Module Config.

Record Config := mkConfig {
  cfg_port : Z;
  cfg_hz : Z;
  cfg_bind : bytes;
  cfg_loglevel : bytes;
  cfg_dir : bytes;
  cfg_dbfilename : bytes;
}.

Definition config_create_default : Config :=
  {| cfg_port := 6379; cfg_hz := 10; cfg_bind := #"127.0.0.1"; cfg_loglevel := #"notice"; cfg_dir := #".";
     cfg_dbfilename := #"dump.rdb" |}.

Definition with_port (p : Z) (c : Config) : Config :=
  {| cfg_port := p; cfg_hz := cfg_hz c; cfg_bind := cfg_bind c; cfg_loglevel := cfg_loglevel c; cfg_dir := cfg_dir c;
     cfg_dbfilename := cfg_dbfilename c |}.
Definition with_bind (v : bytes) (c : Config) : Config :=
  {| cfg_port := cfg_port c; cfg_hz := cfg_hz c; cfg_bind := v; cfg_loglevel := cfg_loglevel c; cfg_dir := cfg_dir c;
     cfg_dbfilename := cfg_dbfilename c |}.
Definition with_dir (v : bytes) (c : Config) : Config :=
  {| cfg_port := cfg_port c; cfg_hz := cfg_hz c; cfg_bind := cfg_bind c; cfg_loglevel := cfg_loglevel c; cfg_dir := v;
     cfg_dbfilename := cfg_dbfilename c |}.
Definition with_dbfilename (v : bytes) (c : Config) : Config :=
  {| cfg_port := cfg_port c; cfg_hz := cfg_hz c; cfg_bind := cfg_bind c; cfg_loglevel := cfg_loglevel c;
     cfg_dir := cfg_dir c; cfg_dbfilename := v |}.

(** Returning 0, 1, or -1 with a message. *)
Inductive ParseResult := ARGS_OK | ARGS_HELP | ARGS_ERROR (message : bytes).

Fixpoint parse_args (cfg : Config) (args : list bytes) : Config * ParseResult :=
  match args with
  | [] => (cfg, ARGS_OK)
  | arg :: rest =>
      if streq arg #"--help" || streq arg #"-h" then (cfg, ARGS_HELP)
      else
        match rest with
        | [] => (cfg, ARGS_ERROR (#"missing value for " ++ arg))
        | val :: rest' =>
            if streq arg #"--port" then
              match parse_int64 val with
              | Some port =>
                  if (port <? 0) || (65535 <? port) then (cfg, ARGS_ERROR (#"invalid port: " ++ val))
                  else parse_args (with_port port cfg) rest'
              | None => (cfg, ARGS_ERROR (#"invalid port: " ++ val))
              end
            else if streq arg #"--bind" then parse_args (with_bind val cfg) rest'
            else if streq arg #"--dir" then parse_args (with_dir val cfg) rest'
            else if streq arg #"--dbfilename" then parse_args (with_dbfilename val cfg) rest'
            else (cfg, ARGS_ERROR (#"unknown option: " ++ arg))
        end
  end.

(** [argv[0]] is the name of the program. *)
Definition config_parse_args (cfg : Config) (argv : list bytes) : Config * ParseResult := parse_args cfg (tail argv).

(** ** What an argument list means *)

(** A valid option with its value, as a change of the configuration. *)
Definition option_effect (arg val : bytes) : option (Config → Config) :=
  if decide (arg = #"--port") then
    match parse_int64 val with
    | Some port => if (0 <=? port) && (port <=? 65535) then Some (with_port port) else None
    | None => None
    end
  else if decide (arg = #"--bind") then Some (with_bind val)
  else if decide (arg = #"--dir") then Some (with_dir val)
  else if decide (arg = #"--dbfilename") then Some (with_dbfilename val)
  else None.

(** The arguments before the first problem: their effects, and how it ends. *)
Inductive accepts : list bytes → list (Config → Config) → ParseResult → Prop :=
| accepts_end : accepts [] [] ARGS_OK
| accepts_help arg rest : arg = #"--help" ∨ arg = #"-h" → accepts (arg :: rest) [] ARGS_HELP
| accepts_option arg val rest f fs r :
    option_effect arg val = Some f → accepts rest fs r → accepts (arg :: val :: rest) (f :: fs) r
| accepts_missing arg :
    arg ≠ #"--help" → arg ≠ #"-h" → accepts [arg] [] (ARGS_ERROR (#"missing value for " ++ arg))
| accepts_bad_port val rest :
    option_effect #"--port" val = None →
    accepts (#"--port" :: val :: rest) [] (ARGS_ERROR (#"invalid port: " ++ val))
| accepts_unknown arg val rest :
    arg ∉ [ #"--help"; #"-h"; #"--port"; #"--bind"; #"--dir"; #"--dbfilename"] →
    accepts (arg :: val :: rest) [] (ARGS_ERROR (#"unknown option: " ++ arg)).

(** C31: the command line is read as the grammar says: [config_parse_args]
    applies exactly the options before the first problem, in order, and returns
    success, help or the message of that problem; the port it sets is always a
    16-bit number. *)
Theorem config_parse_args_exact (cfg : Config) (argv : list bytes) :
  0 ≤ cfg_port cfg ≤ 65535 →
  ∃ fs r, accepts (tail argv) fs r ∧ config_parse_args cfg argv = (foldl (λ c f, f c) cfg fs, r) ∧
    0 ≤ cfg_port (config_parse_args cfg argv).1 ≤ 65535.
Proof.
  unfold config_parse_args. generalize (tail argv). clear argv. intros args.
  remember (length args) as n eqn:Hn. revert cfg args Hn. induction (lt_wf n) as [n _ IH]. intros cfg args -> Hp.
  destruct args as [|arg rest]; [exists [], ARGS_OK; split; [constructor|done]|]. cbn [parse_args].
  destruct (streq arg #"--help" || streq arg #"-h") eqn:Hh.
  { exists [], ARGS_HELP. split; [|done]. constructor. rewrite !streq_decide in Hh.
    apply orb_true_iff in Hh as [H%bool_decide_eq_true|H%bool_decide_eq_true]; auto. }
  apply orb_false_iff in Hh as [H1 H2]. rewrite !streq_decide in H1, H2.
  apply bool_decide_eq_false in H1, H2. destruct rest as [|val rest'].
  { eexists [], _. split; [by apply accepts_missing|done]. }
  assert (∀ f, option_effect arg val = Some f → 0 ≤ cfg_port (f cfg) ≤ 65535 →
    ∃ fs r, accepts (arg :: val :: rest') fs r ∧ parse_args (f cfg) rest' = (foldl (λ c f, f c) cfg fs, r) ∧
      0 ≤ cfg_port (parse_args (f cfg) rest').1 ≤ 65535) as Hstep.
  { intros f Hf Hpf. destruct (IH (length rest') ltac:(cbn; lia) (f cfg) rest' eq_refl Hpf) as (fs & r & Ha & He & Hr).
    exists (f :: fs), r. split; [by econstructor|]. by split. }
  rewrite !streq_decide. unfold option_effect in Hstep. destruct (bool_decide_reflect (arg = #"--port")) as [->|Hport].
  { rewrite decide_True in Hstep by done. destruct (parse_int64 val) as [port|] eqn:Hv.
    - destruct (Z.ltb_spec port 0) as [Hlo|Hlo], (Z.ltb_spec 65535 port) as [Hhi|Hhi]; cbn [orb]; [lia| | |].
      + eexists [], _. split; [constructor; unfold option_effect; rewrite decide_True, Hv by done|done].
        by destruct (Z.leb_spec 0 port); [lia|].
      + eexists [], _. split; [constructor; unfold option_effect; rewrite decide_True, Hv by done|done].
        destruct (Z.leb_spec 0 port); [|done]. by destruct (Z.leb_spec port 65535); [lia|].
      + apply (Hstep (with_port port)); [|cbn; lia].
        destruct (Z.leb_spec 0 port); [|lia]. by destruct (Z.leb_spec port 65535); [|lia].
    - eexists [], _. split; [constructor; unfold option_effect; by rewrite decide_True, Hv by done|done]. }
  rewrite decide_False in Hstep by done. destruct (bool_decide_reflect (arg = #"--bind")) as [->|Hb]; [by apply Hstep|].
  rewrite decide_False in Hstep by done. destruct (bool_decide_reflect (arg = #"--dir")) as [->|Hd]; [by apply Hstep|].
  rewrite decide_False in Hstep by done. destruct (bool_decide_reflect (arg = #"--dbfilename")) as [->|Hf]; [by apply Hstep|].
  eexists [], _. split; [apply accepts_unknown; rewrite !not_elem_of_cons; split_and!; [done..|apply not_elem_of_nil]|done].
Qed.

Lemma config_parse_args_exact_witness :
  let argv := [ #"pulsedb"; #"--port"; #"7000"; #"--dir"; #"/tmp"; #"--port"; #"70000"] in
  (∃ fs r, accepts (tail argv) fs r ∧
    config_parse_args config_create_default argv = (foldl (λ c f, f c) config_create_default fs, r) ∧
    0 ≤ cfg_port (config_parse_args config_create_default argv).1 ≤ 65535) ∧
  config_parse_args config_create_default argv =
    (with_dir #"/tmp" (with_port 7000 config_create_default), ARGS_ERROR #"invalid port: 70000").
Proof.
  cbv zeta. split; [|vm_compute; reflexivity].
  apply (config_parse_args_exact config_create_default
    [ #"pulsedb"; #"--port"; #"7000"; #"--dir"; #"/tmp"; #"--port"; #"70000"]). cbn. lia.
Defined.

End Config.
