(* ===== verification/ConfigMem.v ===== *)
(** * config.c: the memory of the configuration

    The configuration as a structure that owns four strings: created, changed
    by the options, freed.  [Config] is what it holds; here the question is
    what is allocated. *)

From S2P Require Import Prelude CLib Util Mem Config.
Import Util Mem Config.

Module ConfigMem.

(** A string, or the structure: [port], [hz] and the pointers [bind],
    [loglevel], [dir] and [dbfilename] in this order. *)
Inductive Block :=
  | C_text (s : bytes)
  | C_config (port hz : Z) (strings : list loc).

Abbreviation Heap := (gmap loc Block).
Abbreviation Mem := (Prog Block).

(** The index of a pointer of the structure. *)
Definition BIND : nat := 0.
Definition DIR : nat := 2.
Definition DBFILENAME : nat := 3.

Definition xstrdup (s : bytes) : Mem loc := λ h, Ret (malloc (C_text (s ++ [NUL])) h).

Definition read_config (cfg : loc) : Mem (Z * Z * list loc) := λ h,
  match h !! cfg with Some (C_config port hz strings) => Ret ((port, hz, strings), h) | _ => Undef UB_dangling end.

Definition write_config (cfg : loc) (port hz : Z) (strings : list loc) : Mem () := λ h,
  match h !! cfg with Some _ => Ret (tt, <[cfg := C_config port hz strings]> h) | None => Undef UB_dangling end.

Definition config_create_default : Mem loc :=
  cfg ← (λ h, Ret (malloc (C_config 6379 10 []) h));
  bind ← xstrdup #"127.0.0.1";
  loglevel ← xstrdup #"notice";
  dir ← xstrdup #".";
  dbfilename ← xstrdup #"dump.rdb";
  write_config cfg 6379 10 [bind; loglevel; dir; dbfilename];;
  mret cfg.

(** [replace(&cfg-><pointer i>, value)] *)
Definition replace (cfg : loc) (i : nat) (value : bytes) : Mem () :=
  r ← read_config cfg;
  let '(port, hz, strings) := r in
  free_block (strings !! i);;
  p ← xstrdup value;
  write_config cfg port hz (<[i := p]> strings).

Definition set_port (cfg : loc) (port : Z) : Mem () :=
  r ← read_config cfg; let '(_, hz, strings) := r in write_config cfg port hz strings.

Fixpoint parse_args (cfg : loc) (args : list bytes) : Mem ParseResult :=
  match args with
  | [] => mret ARGS_OK
  | arg :: rest =>
      if streq arg #"--help" || streq arg #"-h" then mret ARGS_HELP
      else
        match rest with
        | [] => mret (ARGS_ERROR (#"missing value for " ++ arg))
        | val :: rest' =>
            if streq arg #"--port" then
              match parse_int64 val with
              | Some port =>
                  if (port <? 0)%Z || (65535 <? port)%Z then mret (ARGS_ERROR (#"invalid port: " ++ val))
                  else set_port cfg port;; parse_args cfg rest'
              | None => mret (ARGS_ERROR (#"invalid port: " ++ val))
              end
            else if streq arg #"--bind" then replace cfg BIND val;; parse_args cfg rest'
            else if streq arg #"--dir" then replace cfg DIR val;; parse_args cfg rest'
            else if streq arg #"--dbfilename" then replace cfg DBFILENAME val;; parse_args cfg rest'
            else mret (ARGS_ERROR (#"unknown option: " ++ arg))
        end
  end.

Definition config_parse_args (cfg : loc) (argv : list bytes) : Mem ParseResult := parse_args cfg (tail argv).

Fixpoint free_all (ps : list loc) : Mem () :=
  match ps with
  | [] => mret tt
  | p :: ps' => free_block (Some p);; free_all ps'
  end.

Definition config_free (cfg : option loc) : Mem () :=
  match cfg with
  | None => mret tt
  | Some l =>
      r ← read_config l;
      let '(_, _, strings) := r in
      free_all strings;;
      free_block (Some l)
  end.

(** ** Layout *)

Definition text_at (s : bytes) (p : loc) (h : Heap) : Prop := h = {[p := C_text (s ++ [NUL])]}.

Definition strings_of (c : Config) : list bytes := [cfg_bind c; cfg_loglevel c; cfg_dir c; cfg_dbfilename c].

(** [h] is exactly the memory of the configuration [c] at [l]. *)
Definition config_owned (c : Config) (l : loc) (h : Heap) : Prop :=
  ∃ ps inner, owns_list text_at (strings_of c) ps inner ∧ over l (C_config (cfg_port c) (cfg_hz c) ps) inner h.

(** Another owner in the place of one of a sequence. *)
Lemma owns_list_replace {X C} (P : X → C → Heap → Prop) xs cs hs i x c :
  owns_list P xs cs hs → xs !! i = Some x → cs !! i = Some c → ∃ h hr,
    P x c h ∧ h ##ₘ hr ∧ hs = h ∪ hr ∧
    ∀ x' c' h', P x' c' h' → h' ##ₘ hr → owns_list P (<[i := x']> xs) (<[i := c']> cs) (h' ∪ hr).
Proof.
  intros Ho. revert i. induction Ho as [|y d h1 xs cs hs Hy Ho IH Hd]; intros i Hx Hc; [done|].
  destruct i as [|i]; cbn in Hx, Hc.
  { injection Hx as ->. injection Hc as ->. exists h1, hs. split_and!; [done..|]. intros x' c' h' HP Hd'. by apply owns_cons. }
  destruct (IH i Hx Hc) as (h & hr & HP & Hdhr & -> & Hrep). apply map_disjoint_union_r in Hd as [Hd1 Hd2].
  exists h, (h1 ∪ hr). split_and!; [done|by apply map_disjoint_union_r| |].
  - rewrite !(assoc_L (∪)), (map_union_comm h1 h) by done. done.
  - intros x' c' h' HP' [Hd1' Hd2']%map_disjoint_union_r. cbn.
    rewrite (assoc_L (∪)), (map_union_comm h' h1), <- (assoc_L (∪)) by done.
    apply owns_cons; [done|by apply Hrep|by apply map_disjoint_union_r].
Qed.

Lemma xstrdup_run s (h : Heap) : ∃ p, xstrdup s h = Ret (p, {[p := C_text (s ++ [NUL])]} ∪ h) ∧ h !! p = None.
Proof.
  unfold xstrdup. destruct (malloc_run (C_text (s ++ [NUL])) h) as (p & -> & Hp). exists p.
  by rewrite <- insert_union_singleton_l.
Qed.

(** ** The operations *)

Lemma read_config_run c l hv h ps inner :
  over l (C_config (cfg_port c) (cfg_hz c) ps) inner hv → read_config l (hv ∪ h) = Ret ((cfg_port c, cfg_hz c, ps), hv ∪ h).
Proof. intros [_ ->]. unfold read_config. by rewrite (lookup_union_Some_l _ _ _ _ (lookup_insert_eq _ _ _)). Qed.

(** The new configuration in the place of the old one. *)
Definition becomes (m : Mem ()) (l : loc) (c c' : Config) : Prop := ∀ hv h,
  config_owned c l hv → hv ##ₘ h → ∃ hv', m (hv ∪ h) = Ret (tt, hv' ∪ h) ∧ config_owned c' l hv' ∧ hv' ##ₘ h.

Lemma set_port_run l c port : becomes (set_port l port) l c (with_port port c).
Proof.
  intros hv h (ps & inner & Ho & Hov) Hd. unfold set_port.
  rewrite (bind_mem _ _ _ _ _ (read_config_run c l hv h ps inner Hov)). destruct Hov as [Hl ->].
  exists (<[l := C_config port (cfg_hz c) ps]> inner). unfold write_config.
  rewrite (lookup_union_Some_l _ _ _ _ (lookup_insert_eq _ _ _)), insert_union_l, insert_insert_eq. split; [done|].
  split; [by exists ps, inner|]. apply map_disjoint_insert_l in Hd as [Hlh Hd]. by apply map_disjoint_insert_l_2.
Qed.

Lemma replace_run l i v c c' :
  strings_of c' = <[i := v]> (strings_of c) → cfg_port c' = cfg_port c → cfg_hz c' = cfg_hz c → i < 4 →
  becomes (replace l i v) l c c'.
Proof.
  intros Hs Hp Hz Hi hv h (ps & inner & Ho & Hov) Hd. unfold replace.
  rewrite (bind_mem _ _ _ _ _ (read_config_run c l hv h ps inner Hov)).
  pose proof (owns_list_length _ _ _ _ Ho) as Hlen.
  destruct (lookup_lt_is_Some_2 (strings_of c) i) as [x Hx]; [done|].
  destruct (lookup_lt_is_Some_2 ps i) as [p Hpi]; [rewrite <- Hlen; done|].
  destruct (owns_list_replace _ _ _ _ _ _ _ Ho Hx Hpi) as (ht & hr & Ht & Hdt & -> & Hrep).
  rewrite Hpi. rewrite (over_union _ _ _ _ _ Hov Hd), <- (assoc_L (∪)). destruct Hov as [Hl ->].
  apply lookup_union_None in Hl as [Hlt Hlr]. apply map_disjoint_insert_l in Hd as [Hlh [Hth Hrh]%map_disjoint_union_l].
  set (st := C_config (cfg_port c) (cfg_hz c) ps).
  assert (ht ##ₘ hr ∪ <[l := st]> h) as Hdis
    by (apply map_disjoint_union_r; split; [done|by apply map_disjoint_insert_r_2]).
  rewrite (bind_mem _ _ _ tt (hr ∪ <[l := st]> h)).
  2: { rewrite Ht in *. exact (frees_block p _ _ Hdis). }
  destruct (xstrdup_run v (hr ∪ <[l := st]> h)) as (q & Hq & Hqn). rewrite (bind_mem _ _ _ _ _ Hq).
  apply lookup_union_None in Hqn as [Hqr Hqh]. apply lookup_insert_None in Hqh as [Hqh Hql].
  set (hq := {[q := C_text (v ++ [NUL])]}). unfold write_config.
  assert (hr !! l = None ∧ hq !! l = None) as [_ Hlq] by (split; [done|by apply lookup_singleton_ne]).
  rewrite (lookup_union_r hq), (lookup_union_r hr), lookup_insert_eq by done.
  exists (<[l := C_config (cfg_port c) (cfg_hz c) (<[i := q]> ps)]> (hq ∪ hr)). split; [|split].
  - f_equal. f_equal. rewrite <- insert_union_l, <- (assoc_L (∪)). rewrite insert_union_r by done.
    rewrite insert_union_r by done. by rewrite insert_insert_eq, <- insert_union_r, <- insert_union_r.
  - exists (<[i := q]> ps), (hq ∪ hr). rewrite Hs, Hp, Hz. split; [apply Hrep; [done|]|].
    + by apply map_disjoint_singleton_l.
    + split; [|done]. by apply lookup_union_None.
  - apply map_disjoint_insert_l_2; [done|]. apply map_disjoint_union_l. split; [|done]. by apply map_disjoint_singleton_l.
Qed.

Lemma becomes_bind {A} (m : Mem ()) (m' : Mem A) l c c' hv h (Q : A → Heap → Prop) :
  becomes m l c c' → config_owned c l hv → hv ##ₘ h →
  (∀ hv', config_owned c' l hv' → hv' ##ₘ h → ∃ a H, m' (hv' ∪ h) = Ret (a, H) ∧ Q a H) →
  ∃ a H, (m;; m') (hv ∪ h) = Ret (a, H) ∧ Q a H.
Proof.
  intros Hm Ho Hd Hk. destruct (Hm hv h Ho Hd) as (hv' & Hr & Ho' & Hd'). rewrite (bind_mem _ _ _ _ _ Hr). by apply Hk.
Qed.

(** The options change the structure as [Config] says and nothing else. *)
Definition parsed_to (l : loc) (r : Config * ParseResult) (h : Heap) (a : ParseResult) (H : Heap) : Prop :=
  a = r.2 ∧ ∃ hv, H = hv ∪ h ∧ config_owned r.1 l hv ∧ hv ##ₘ h.

Lemma parse_args_run l c args hv h :
  config_owned c l hv → hv ##ₘ h →
  ∃ a H, parse_args l args (hv ∪ h) = Ret (a, H) ∧ parsed_to l (Config.parse_args c args) h a H.
Proof.
  remember (length args) as n eqn:Hn. revert c args hv Hn. induction (lt_wf n) as [n _ IH]. intros c args hv -> Ho Hd.
  assert (∀ r, ∃ a H, (mret r : Mem ParseResult) (hv ∪ h) = Ret (a, H) ∧ parsed_to l (c, r) h a H) as Hstop
    by (intros r; exists r, (hv ∪ h); split; [done|]; split; [done|by exists hv]).
  destruct args as [|arg [|val rest]]; cbn [parse_args Config.parse_args]; [apply Hstop| |].
  { destruct (_ || _); apply Hstop. }
  destruct (_ || _); [apply Hstop|].
  assert (∀ c' hv', config_owned c' l hv' → hv' ##ₘ h → ∃ a H, parse_args l rest (hv' ∪ h) = Ret (a, H) ∧
    parsed_to l (Config.parse_args c' rest) h a H) as Hrest by (intros c' hv'; apply (IH (length rest)); cbn; lia).
  destruct (streq arg #"--port").
  { destruct (parse_int64 val) as [port|]; [|apply Hstop]. destruct (_ || _); [apply Hstop|].
    by apply (becomes_bind _ _ _ _ _ _ _ _ (set_port_run l c port) Ho Hd), Hrest. }
  destruct (streq arg #"--bind").
  { by apply (becomes_bind _ _ _ _ _ _ _ _ (replace_run l BIND val c (with_bind val c) eq_refl eq_refl eq_refl ltac:(unfold BIND; lia)) Ho Hd), Hrest. }
  destruct (streq arg #"--dir").
  { by apply (becomes_bind _ _ _ _ _ _ _ _ (replace_run l DIR val c (with_dir val c) eq_refl eq_refl eq_refl ltac:(unfold DIR; lia)) Ho Hd), Hrest. }
  destruct (streq arg #"--dbfilename"); [|apply Hstop].
  by apply (becomes_bind _ _ _ _ _ _ _ _ (replace_run l DBFILENAME val c (with_dbfilename val c) eq_refl eq_refl eq_refl ltac:(unfold DBFILENAME; lia)) Ho Hd), Hrest.
Qed.

(** Strings that are allocated one by one next to the structure. *)
Definition building (l : loc) (st : Block) (h : Heap) (xs : list bytes) (ps : list loc) (H : Heap) : Prop :=
  ∃ hs, H = hs ∪ <[l := st]> h ∧ owns_list text_at xs ps hs ∧ hs !! l = None ∧ hs ##ₘ h.

Lemma xstrdup_building l st h xs ps H s :
  building l st h xs ps H → ∃ p H', xstrdup s H = Ret (p, H') ∧ building l st h (xs ++ [s]) (ps ++ [p]) H'.
Proof.
  intros (hs & -> & Ho & Hl & Hd). destruct (xstrdup_run s (hs ∪ <[l := st]> h)) as (p & Hr & Hp).
  apply lookup_union_None in Hp as [Hps Hph]. apply lookup_insert_None in Hph as [Hph Hne].
  assert (hs ##ₘ {[p := C_text (s ++ [NUL])]}) as Hdp by (by apply map_disjoint_singleton_r).
  eexists p, _. split; [exact Hr|]. exists (hs ∪ {[p := C_text (s ++ [NUL])]}). split_and!.
  - rewrite (assoc_L (∪)). by rewrite (map_union_comm hs).
  - by apply owns_list_snoc.
  - apply lookup_union_None. split; [done|]. by apply lookup_singleton_ne.
  - apply map_disjoint_union_l. split; [done|]. by apply map_disjoint_singleton_l.
Qed.

Lemma create_run (h : Heap) : ∃ l hv,
  config_create_default h = Ret (l, hv ∪ h) ∧ config_owned Config.config_create_default l hv ∧ hv ##ₘ h.
Proof.
  unfold config_create_default. destruct (malloc_run (C_config 6379 10 []) h) as (l & Hm & Hl).
  rewrite (bind_mem _ _ _ l (<[l := C_config 6379 10 []]> h)) by (by rewrite Hm).
  assert (building l (C_config 6379 10 []) h [] [] (<[l := C_config 6379 10 []]> h)) as H0.
  { exists ∅. split_and!; [by rewrite (left_id_L ∅ (∪))|constructor|done|apply map_disjoint_empty_l]. }
  destruct (xstrdup_building _ _ _ _ _ _ #"127.0.0.1" H0) as (p1 & H1 & Hr1 & Hb1). rewrite (bind_mem _ _ _ _ _ Hr1).
  destruct (xstrdup_building _ _ _ _ _ _ #"notice" Hb1) as (p2 & H2 & Hr2 & Hb2). rewrite (bind_mem _ _ _ _ _ Hr2).
  destruct (xstrdup_building _ _ _ _ _ _ #"." Hb2) as (p3 & H3 & Hr3 & Hb3). rewrite (bind_mem _ _ _ _ _ Hr3).
  destruct (xstrdup_building _ _ _ _ _ _ #"dump.rdb" Hb3) as (p4 & H4 & Hr4 & Hb4). rewrite (bind_mem _ _ _ _ _ Hr4).
  destruct Hb4 as (hs & -> & Ho & Hls & Hd). exists l, (<[l := C_config 6379 10 [p1; p2; p3; p4]]> hs). split_and!.
  - unfold write_config, mbind, Prog_bind. rewrite lookup_union_r, lookup_insert_eq by done.
    rewrite insert_union_r, insert_insert_eq, <- insert_union_r by done. by rewrite insert_union_l.
  - by exists [p1; p2; p3; p4], hs.
  - by apply map_disjoint_insert_l_2.
Qed.

Lemma config_free_frees c l hv : config_owned c l hv → frees (config_free (Some l)) tt hv.
Proof.
  intros (ps & inner & Ho & Hov) h Hd. unfold config_free. rewrite (bind_mem _ _ _ _ _ (read_config_run c l hv h ps inner Hov)).
  revert h Hd. change (frees (free_all ps;; free_block (Some l)) tt hv).
  eapply frees_over; [exact Hov| |apply frees_block]. clear Hov.
  induction Ho as [|x p h xs ps hs Hx _ IH Hd]; [apply frees_ret|]. cbn [free_all]. rewrite Hx in *.
  eapply frees_bind; [apply frees_block|done..].
Qed.

(** C33: the configuration does not leak: whatever the command line, creating the
    configuration and reading the options allocates exactly a structure with the
    four strings that [Config] computes, every string that an option replaces
    has been freed, and [config_free] gives back exactly the heap from before. *)
Theorem config_memory_exact (argv : list bytes) (h : Heap) : ∃ l h1 hv,
  config_create_default h = Ret (l, h1) ∧
  config_parse_args l argv h1 = Ret ((Config.config_parse_args Config.config_create_default argv).2, hv ∪ h) ∧
  config_owned (Config.config_parse_args Config.config_create_default argv).1 l hv ∧
  config_free (Some l) (hv ∪ h) = Ret (tt, h).
Proof.
  destruct (create_run h) as (l & hv & Hc & Ho & Hd).
  destruct (parse_args_run l _ (tail argv) hv h Ho Hd) as (a & H & Hr & -> & hv' & -> & Ho' & Hd').
  exists l, (hv ∪ h), hv'. split_and!; [done|exact Hr|done|]. by apply (config_free_frees _ _ _ Ho').
Qed.

End ConfigMem.
