(* ===== verification/Txn.v ===== *)
(** * txn.c: the transaction queue of a connection

    [cmds] is the used part of the fixed array of 1024 slots; [count] is its
    length.  The queue owns its requests, so resetting it frees them. *)

From S2P Require Import Prelude Resp.
Import Resp.

Module Txn.

Definition TXN_MAX_CMDS : nat := 1024.

Record Txn := mkTxn {
  txn_cmds : list RespValue;
  txn_active : bool;
  txn_error : bool;
}.

Definition txn_count (t : Txn) : nat := length (txn_cmds t).

Definition txn_init : Txn := {| txn_cmds := []; txn_active := false; txn_error := false |}.

Definition txn_reset (t : Txn) : Txn := {| txn_cmds := []; txn_active := false; txn_error := false |}.

(** [None] is the return value -1. *)
Definition txn_queue (t : Txn) (cmd : RespValue) : option Txn :=
  if TXN_MAX_CMDS <=? txn_count t then None
  else Some {| txn_cmds := txn_cmds t ++ [cmd]; txn_active := txn_active t; txn_error := txn_error t |}.

(** Commands are queued, and errors recorded, only inside MULTI. *)
Definition txn_wf (t : Txn) : Prop :=
  txn_count t ≤ TXN_MAX_CMDS ∧ (txn_active t = false → txn_cmds t = [] ∧ txn_error t = false).

Lemma txn_reset_wf t : txn_wf (txn_reset t).
Proof. split; [unfold txn_count; simpl; lia|done]. Qed.

Lemma txn_queue_wf t cmd t' :
  txn_wf t → txn_active t = true → txn_queue t cmd = Some t' →
  txn_wf t' ∧ txn_active t' = true ∧ txn_cmds t' = txn_cmds t ++ [cmd] ∧ txn_error t' = txn_error t.
Proof.
  intros Hwf Ha. unfold txn_queue. destruct (Nat.leb_spec TXN_MAX_CMDS (txn_count t)); [done|].
  intros [= <-]. unfold txn_wf, txn_count in *. simpl. rewrite length_app. simpl.
  split_and!; [lia|congruence|done..].
Qed.

End Txn.
