(* ===== verification/Cmd.v ===== *)
(** * cmd.h: the context of a command handler

    A handler works on the server's store and on its client's state, writes to
    the client's output buffer, reads the clocks and may run into undefined
    behaviour: it is a function in the state monad [M] over a [World] with
    [res] as its result.  [ARG] is the macro of [cmd.h]: it indexes the element
    block of the request and yields the [str] pointer it finds, read as a C
    string; an index outside the block or a NULL pointer is undefined.

    The clocks are functions from the number of the reading to its value, so a
    theorem about all worlds is about all behaviours of the clocks. *)

From S2P Require Import Prelude CLib Util Reply Resp Store Txn.
Import Util Reply Resp Store Txn.

Module Cmd.

(** The connection state of [server.h], without the socket. *)
Record Client := mkClient {
  c_in : Buffer;
  c_out : Buffer;
  c_txn : Txn;
  c_blocked_req : option RespValue;
  c_block_deadline : Z;
  c_close_after_reply : bool;
  c_closed : bool;
}.

Record World := mkWorld {
  w_store : Store;
  w_client : Client;
  w_now : nat → Z;
  w_mono : nat → Z;
  w_reads : nat;
}.

Definition M (A : Type) : Type := World → res (A * World).

Global Instance M_ret : MRet M := λ A a w, Ret (a, w).
Global Instance M_bind : MBind M := λ A B f m w,
  match m w with Ret (a, w') => f a w' | Undef u => Undef u end.

Definition undef {A} (u : ub) : M A := λ _, Undef u.
Definition lift {A} (r : res A) : M A := λ w, match r with Ret a => Ret (a, w) | Undef u => Undef u end.

Lemma bind_run {A B} (m : M A) (f : A → M B) w a w' : m w = Ret (a, w') → (m ≫= f) w = f a w'.
Proof. intros Hm. unfold mbind, M_bind. by rewrite Hm. Qed.

Lemma bind_undef {A B} (m : M A) (f : A → M B) w u : m w = Undef u → (m ≫= f) w = Undef u.
Proof. intros Hm. unfold mbind, M_bind. by rewrite Hm. Qed.

(** Run the first action of a sequence whose result is known by computation or
    by an equation. *)
Ltac mstep := erewrite bind_run; [|first [reflexivity | eassumption]]; cbv beta iota.

(** ** The fields of the world *)

Definition set_store (s : Store) : M () :=
  λ w, Ret (tt, {| w_store := s; w_client := w_client w; w_now := w_now w; w_mono := w_mono w;
                   w_reads := w_reads w |}).

Definition set_client (c : Client) : M () :=
  λ w, Ret (tt, {| w_store := w_store w; w_client := c; w_now := w_now w; w_mono := w_mono w;
                   w_reads := w_reads w |}).

Definition get_store : M Store := λ w, Ret (w_store w, w).
Definition get_client : M Client := λ w, Ret (w_client w, w).

Definition with_out (o : Buffer) (c : Client) : Client :=
  {| c_in := c_in c; c_out := o; c_txn := c_txn c; c_blocked_req := c_blocked_req c;
     c_block_deadline := c_block_deadline c; c_close_after_reply := c_close_after_reply c;
     c_closed := c_closed c |}.

Definition with_txn (t : Txn) (c : Client) : Client :=
  {| c_in := c_in c; c_out := c_out c; c_txn := t; c_blocked_req := c_blocked_req c;
     c_block_deadline := c_block_deadline c; c_close_after_reply := c_close_after_reply c;
     c_closed := c_closed c |}.

Definition with_deadline (d : Z) (c : Client) : Client :=
  {| c_in := c_in c; c_out := c_out c; c_txn := c_txn c; c_blocked_req := c_blocked_req c;
     c_block_deadline := d; c_close_after_reply := c_close_after_reply c; c_closed := c_closed c |}.

(** [ctx->c->blocked_req != NULL], and setting [block_deadline]. *)
Definition is_blocked : M bool := c ← get_client; mret (bool_decide (is_Some (c_blocked_req c))).
Definition set_deadline (d : Z) : M () := c ← get_client; set_client (with_deadline d c).

(** A call that appends to the client's output, [OUT] in the handlers. *)
Definition OUT (f : Buffer → Buffer) : M () := c ← get_client; set_client (with_out (f (c_out c)) c).

Definition tick (w : World) : World :=
  {| w_store := w_store w; w_client := w_client w; w_now := w_now w; w_mono := w_mono w;
     w_reads := S (w_reads w) |}.

Definition now_ms : M Z := λ w, Ret (w_now w (w_reads w), tick w).
Definition mono_ms : M Z := λ w, Ret (w_mono w (w_reads w), tick w).

(** A call of a store function that reads the clock at most once, or twice. *)
Definition STORE {A} (f : Store → Z → Store * A) : M A :=
  now ← now_ms; s ← get_store; set_store (f s now).1;; mret (f s now).2.

Definition STORE_r {A} (f : Store → Z → Z → res (Store * A)) : M A :=
  now ← now_ms; now' ← now_ms; s ← get_store;
  r ← lift (f s now now'); set_store r.1;; mret r.2.

(** ** The context *)

Record CommandCtx := mkCtx {
  ctx_req : RespValue;
  ctx_can_block : bool;
  ctx_timed_out : bool;
}.

Inductive CmdStatus := CMD_DONE | CMD_BLOCK.

(** [req->elements] with [req->count]: nothing unless the value is an array. *)
Definition elements (v : RespValue) : list RespValue := match v with RESP_ARRAY l => l | _ => [] end.

Definition ARGC (ctx : CommandCtx) : nat := length (elements (ctx_req ctx)).

(** A string argument: the element, its pointer, and the bytes before the NUL. *)
Definition arg_of (req : RespValue) (i : nat) : res bytes :=
  match elements req !! i with
  | None => Undef UB_out_of_bounds
  | Some v => match value_str v with None => Undef UB_null_deref | Some s => Ret (cstr s) end
  end.

Definition ARG (ctx : CommandCtx) (i : nat) : M bytes := lift (arg_of (ctx_req ctx) i).

(** The element's [str] with its [len], for the replies that copy [len] bytes. *)
Definition ARG_len (ctx : CommandCtx) (i : nat) : M bytes :=
  lift (match elements (ctx_req ctx) !! i with
        | None => Undef UB_out_of_bounds
        | Some v => match value_str v with None => Undef UB_null_deref | Some s => Ret s end
        end).

(** [for (i = lo; i < lo + n; i++) acc = f(i, acc);] *)
Fixpoint for_loop {A} (n lo : nat) (f : nat → A → M A) (acc : A) : M A :=
  match n with
  | O => mret acc
  | S n' => acc ← f lo acc; for_loop n' (S lo) f acc
  end.

(** [reply_error(OUT, msg); return CMD_DONE;] *)
Definition fail_with (msg : bytes) : M CmdStatus := OUT (λ o, reply_error o msg);; mret CMD_DONE.

Definition reply_done (f : Buffer → Buffer) : M CmdStatus := OUT f;; mret CMD_DONE.

Definition ERR_WRONGTYPE : bytes := #"WRONGTYPE Operation against a key holding the wrong kind of value".
Definition ERR_NOT_INT : bytes := #"ERR value is not an integer or out of range".
Definition ERR_NOT_FLOAT : bytes := #"ERR value is not a valid float".
Definition ERR_SYNTAX : bytes := #"ERR syntax error".

(** ** Effects on the world *)

Definition upd_client (f : Client → Client) (w : World) : World :=
  {| w_store := w_store w; w_client := f (w_client w); w_now := w_now w; w_mono := w_mono w;
     w_reads := w_reads w |}.

Definition say (f : Buffer → Buffer) (w : World) : World := upd_client (λ c, with_out (f (c_out c)) c) w.

Definition put_store (s : Store) (w : World) : World :=
  {| w_store := s; w_client := w_client w; w_now := w_now w; w_mono := w_mono w; w_reads := w_reads w |}.

Lemma STORE_run {A} (f : Store → Z → Store * A) w :
  let r := f (w_store w) (w_now w (w_reads w)) in STORE f w = Ret (r.2, put_store r.1 (tick w)).
Proof. done. Qed.

Lemma ARG_run ctx i w s :
  elements (ctx_req ctx) !! i = Some (RESP_BULK_STRING s) → NUL ∉ s → ARG ctx i w = Ret (s, w).
Proof. intros Hi Hs. unfold ARG, arg_of, lift. rewrite Hi. simpl. by rewrite cstr_no_nul. Qed.

End Cmd.
