(* ===== verification/Actions.v ===== *)
(** * Properties of actions that compose

    Several properties of the server hold because they hold of the few
    primitive actions the handlers are built from.  [ActionPred] is what such a
    property has to satisfy; [action_tac] takes an action apart down to its
    primitives.  A handler writes to the output only through writers that
    append ([appends]). *)

From S2P Require Import Prelude CLib Util Reply Resp FieldHash DblText ZSet Stream Store Txn Cmd.
Import Util Reply Resp FieldHash Stream Store Txn Cmd.

Module Actions.

(** ** Writers *)

(** A writer that appends the same bytes to every buffer. *)
Definition appends (f : Buffer → Buffer) : Prop := ∃ d, ∀ o, data (f o) = data o ++ d.

Lemma appends_id : appends (λ o, o).
Proof. exists []. intros o. by rewrite app_nil_r. Qed.

Lemma appends_comp f g : appends g → appends f → appends (λ o, f (g o)).
Proof. intros [d Hd] [e He]. exists (d ++ e). intros o. by rewrite He, Hd, app_assoc. Qed.

Lemma appends_append s : appends (λ o, buffer_append o s).
Proof. by exists s. Qed.

Lemma appends_simple s : appends (λ o, reply_simple o s).
Proof. eexists. intros o. apply reply_simple_data. Qed.

Lemma appends_error s : appends (λ o, reply_error o s).
Proof. eexists. intros o. apply reply_error_data. Qed.

Lemma appends_errorf s : appends (λ o, reply_errorf o s).
Proof. apply appends_error. Qed.

Lemma appends_integer z : appends (λ o, reply_integer o z).
Proof. eexists. intros o. apply reply_integer_data. Qed.

Lemma appends_bulk s : appends (λ o, reply_bulk_cstr o s).
Proof. eexists. intros o. apply reply_bulk_cstr_data. Qed.

Lemma appends_double v : appends (λ o, DblText.reply_double o v).
Proof. apply appends_bulk. Qed.

Lemma appends_null : appends reply_null.
Proof. eexists. intros o. apply reply_null_data. Qed.

Lemma appends_null_array : appends reply_null_array.
Proof. eexists. intros o. apply reply_null_array_data. Qed.

Lemma appends_array n : appends (λ o, reply_array o n).
Proof. eexists. intros o. apply reply_array_data. Qed.

Lemma appends_foldl {A} (f : Buffer → A → Buffer) l : (∀ a, appends (λ o, f o a)) → appends (λ o, foldl f o l).
Proof.
  intros Hf. induction l as [|a l IH]; cbn [foldl]; [apply appends_id|].
  apply (appends_comp (λ o, foldl f o l)); auto.
Qed.

Lemma appends_reply_bulk s n : appends (λ o, reply_bulk o s n).
Proof.
  unfold reply_bulk. apply (appends_comp (λ o, buffer_append o CRLF)); [|apply appends_append].
  apply (appends_comp (λ o, buffer_append o (take n s))); apply appends_append.
Qed.

Create HintDb appends discriminated.
#[export] Hint Resolve appends_append appends_simple appends_error appends_errorf appends_integer appends_bulk
  appends_double appends_null appends_null_array appends_array appends_reply_bulk : appends.

(** ** Predicates *)

Class ActionPred (P : ∀ A, M A → Prop) : Prop := {
  pred_ret {A} (a : A) : P A (mret a);
  pred_bind {A B} (m : M A) (f : A → M B) (Q : A → Prop) :
    P A m → (∀ w a w', m w = Ret (a, w') → Q a) → (∀ a, Q a → P B (f a)) → P B (m ≫= f);
  pred_lift {A} (r : res A) : P A (lift r);
  pred_OUT f : appends f → P ()%type (OUT f);
  pred_now : P Z now_ms;
  pred_mono : P Z mono_ms;
  pred_STORE {A} (f : Store → Z → Store * A) : P A (STORE f);
  pred_STORE_r {A} (f : Store → Z → Z → res (Store * A)) : P A (STORE_r f);
  pred_is_blocked : P bool is_blocked;
  pred_set_deadline d : P ()%type (set_deadline d);
}.

Section closure.
Context (P : ∀ A, M A → Prop) `{!ActionPred P}.

Lemma pred_seq {A B} (m : M A) (f : A → M B) : P A m → (∀ a, P B (f a)) → P B (m ≫= f).
Proof. intros Hm Hf. by apply (pred_bind m f (λ _, True)). Qed.

Lemma pred_undef {A} u : P A (undef u).
Proof. apply (pred_lift (Undef u)). Qed.

Lemma pred_for {A} n lo (f : nat → A → M A) acc : (∀ i a, P A (f i a)) → P A (for_loop n lo f acc).
Proof.
  intros Hf. revert lo acc. induction n as [|n IH]; intros lo acc; cbn [for_loop]; [apply pred_ret|].
  apply pred_seq; [apply Hf|]. intros a. apply IH.
Qed.

End closure.

Ltac action_step :=
  match goal with
  | |- ?P _ (_ ≫= _) => apply (pred_seq P); [|intros ?]
  | |- ?P _ (for_loop _ _ _ _) => apply (pred_for P); intros ? ?
  | |- ?P _ (mret _) => apply pred_ret
  | |- ?P _ (lift _) => apply pred_lift
  | |- ?P _ (undef _) => apply (pred_undef P)
  | |- ?P _ (ARG _ _) => apply pred_lift
  | |- ?P _ (ARG_len _ _) => apply pred_lift
  | |- ?P _ (OUT _) => apply pred_OUT
  | |- ?P _ now_ms => apply pred_now
  | |- ?P _ mono_ms => apply pred_mono
  | |- ?P _ (STORE _) => apply pred_STORE
  | |- ?P _ (STORE_r _) => apply pred_STORE_r
  | |- ?P _ is_blocked => apply pred_is_blocked
  | |- ?P _ (set_deadline _) => apply pred_set_deadline
  | |- ?P _ (if ?b then _ else _) => destruct b
  | |- ?P _ (match ?x with _ => _ end) => destruct x
  | |- ?P _ (fail_with _) => unfold fail_with
  | |- ?P _ (reply_done _) => unfold reply_done
  | |- appends (λ _, match ?x with _ => _ end) => destruct x
  end.
Ltac action_tac := repeat (first [solve [auto with appends nocore] | action_step]).

End Actions.
