(* ===== verification/CmdString.v ===== *)
(** * cmd_string.c: strings and keys

    The handlers of SET, GET, INCR/DECR(BY), DEL, EXISTS, TYPE, TTL, PTTL and
    KEYS.  The pattern language of KEYS is that of the system's [fnmatch], a
    parameter. *)

From S2P Require Import Prelude CLib Util Reply Resp Stream Store Txn Cmd.
Import Util Reply Resp Stream Store Txn Cmd.

Module CmdString.

(** The option loop of SET from argument [i] on, with [fuel] arguments left at
    most: the expiry to store, or [None] once an error has been replied. *)
Fixpoint set_options (fuel : nat) (ctx : CommandCtx) (i : nat) (expires_at : Z) : M (option Z) :=
  match fuel with
  | O => mret (Some expires_at)
  | S fuel' =>
      if i <? ARGC ctx then
        opt ← ARG ctx i;
        let is_ex := (strcasecmp opt #"EX" =? 0)%Z in
        let is_px := (strcasecmp opt #"PX" =? 0)%Z in
        if (is_ex || is_px) && (i + 1 <? ARGC ctx) then
          a ← ARG ctx (i + 1);
          match parse_int64 a with
          | None => OUT (λ o, reply_error o ERR_NOT_INT);; mret None
          | Some n =>
              if (n <=? 0)%Z || is_ex && (INT64_MAX / 1000 / 2 <? n)%Z then
                OUT (λ o, reply_error o #"ERR invalid expire time in 'set' command");; mret None
              else
                now ← now_ms;
                d ← lift (if is_ex then i64 (n * 1000) else Ret n);
                x ← lift (i64 (now + d));
                set_options fuel' ctx (i + 2) x
          end
        else OUT (λ o, reply_error o ERR_SYNTAX);; mret None
      else mret (Some expires_at)
  end.

Definition cmd_set (ctx : CommandCtx) : M CmdStatus :=
  x ← set_options (ARGC ctx) ctx 3 0;
  match x with
  | None => mret CMD_DONE
  | Some expires_at =>
      key ← ARG ctx 1; value ← ARG ctx 2;
      STORE (λ s now, (store_set s key value expires_at now, tt));;
      reply_done (λ o, reply_simple o #"OK")
  end.

Definition cmd_get (ctx : CommandCtx) : M CmdStatus :=
  key ← ARG ctx 1;
  st ← STORE (λ s now, store_get s key now);
  reply_done (λ o, match st with
                   | inr value => reply_bulk_cstr o value
                   | inl STORE_WRONG_TYPE => reply_error o ERR_WRONGTYPE
                   | inl _ => reply_null o
                   end).

Definition incr_common (ctx : CommandCtx) (delta : Z) : M CmdStatus :=
  key ← ARG ctx 1;
  st ← STORE_r (λ s now now', store_incrby s key delta now now');
  reply_done (λ o, match st with
                   | inr result => reply_integer o result
                   | inl STORE_WRONG_TYPE => reply_error o ERR_WRONGTYPE
                   | inl STORE_OVERFLOW => reply_error o #"ERR increment or decrement would overflow"
                   | inl _ => reply_error o ERR_NOT_INT
                   end).

Definition cmd_incr (ctx : CommandCtx) : M CmdStatus := incr_common ctx 1.
Definition cmd_decr (ctx : CommandCtx) : M CmdStatus := incr_common ctx (-1).

Definition cmd_incrby (ctx : CommandCtx) : M CmdStatus :=
  a ← ARG ctx 2;
  match parse_int64 a with
  | None => fail_with ERR_NOT_INT
  | Some delta => incr_common ctx delta
  end.

Definition cmd_decrby (ctx : CommandCtx) : M CmdStatus :=
  a ← ARG ctx 2;
  match parse_int64 a with
  | None => fail_with ERR_NOT_INT
  | Some delta =>
      if (delta =? INT64_MIN)%Z then fail_with ERR_NOT_INT
      else d ← lift (i64 (- delta)); incr_common ctx d
  end.

Definition cmd_del (ctx : CommandCtx) : M CmdStatus :=
  deleted ← for_loop (ARGC ctx - 1) 1
    (λ i n, key ← ARG ctx i; b ← STORE (λ s now, store_del s key now); mret (n + Z.b2z b)%Z) 0%Z;
  reply_done (λ o, reply_integer o deleted).

Definition cmd_exists (ctx : CommandCtx) : M CmdStatus :=
  found ← for_loop (ARGC ctx - 1) 1
    (λ i n, key ← ARG ctx i; b ← STORE (λ s now, store_exists s key now); mret (n + Z.b2z b)%Z) 0%Z;
  reply_done (λ o, reply_integer o found).

(** The names a TYPE reply uses; the array of [cmd_type] with "none". *)
Definition type_name (t : StoreType) : bytes :=
  match t with
  | STORE_TYPE_NONE => #"none"
  | STORE_TYPE_STRING => #"string"
  | STORE_TYPE_LIST => #"list"
  | STORE_TYPE_HASH => #"hash"
  | STORE_TYPE_ZSET => #"zset"
  | STORE_TYPE_STREAM => #"stream"
  end.

Definition cmd_type (ctx : CommandCtx) : M CmdStatus :=
  key ← ARG ctx 1;
  t ← STORE (λ s now, store_type s key now);
  reply_done (λ o, reply_simple o (type_name t)).

(** C's integer division truncates; [remaining] is not negative here. *)
Definition ttl_common (ctx : CommandCtx) (in_ms : bool) : M CmdStatus :=
  key ← ARG ctx 1;
  expiry ← STORE (λ s now, store_get_expiry s key now);
  if (expiry <? 0)%Z then reply_done (λ o, reply_integer o expiry)
  else
    now ← now_ms;
    remaining ← lift (i64 (expiry - now));
    let remaining := if (remaining <? 0)%Z then 0%Z else remaining in
    if in_ms then reply_done (λ o, reply_integer o remaining)
    else
      r ← lift (i64 (remaining + 500));
      reply_done (λ o, reply_integer o (Z.quot r 1000)).

Definition cmd_ttl (ctx : CommandCtx) : M CmdStatus := ttl_common ctx false.
Definition cmd_pttl (ctx : CommandCtx) : M CmdStatus := ttl_common ctx true.

(** [fnmatch(pattern, string, 0) == 0] *)
Class Fnmatch := fnmatch : bytes → bytes → bool.

(** [KeysScan]: the concatenated bulk replies and their number. *)
Record KeysScan := mkKeysScan { ks_matches : Buffer; ks_count : nat }.

Definition keys_visit `{Fnmatch} (pattern : bytes) (scan : KeysScan) (e : StoreEntry) : KeysScan :=
  if fnmatch pattern (e_key e)
  then mkKeysScan (reply_bulk_cstr (ks_matches scan) (e_key e)) (S (ks_count scan))
  else scan.

Definition cmd_keys `{Fnmatch} (ctx : CommandCtx) : M CmdStatus :=
  pattern ← ARG ctx 1;
  scan ← STORE (λ s now, (s, store_scan s now (keys_visit pattern) (mkKeysScan buffer_init 0)));
  OUT (λ o, reply_array o (ks_count scan));;
  (if 0 <? blen (ks_matches scan) then OUT (λ o, buffer_append o (data (ks_matches scan))) else mret tt);;
  mret CMD_DONE.

End CmdString.
