(* ===== verification/CmdList.v ===== *)
(** * cmd_list.c: lists

    The handlers of LPUSH, RPUSH, LPOP, RPOP, LLEN, LRANGE and BLPOP.  A list a
    handler walks is the one the store holds: nothing writes to it between the
    lookup and the walk. *)

From S2P Require Import Prelude CLib Util Reply Resp DList Dbl DblText DblArith Stream Store Txn Cmd.
Import Util Reply Resp DList Dbl DblText DblArith Stream Store Txn Cmd.

Module CmdList.

(** [normalise_range]: the bounds when the range is not empty.  [start += n]
    is signed 64-bit arithmetic; the length of a list fits in it. *)
Definition normalise_range (start stop : Z) (len : nat) : res (option (nat * nat)) :=
  let n := Z.of_nat len in
  start ← (if (start <? 0)%Z then i64 (start + n) else Ret start);
  stop ← (if (stop <? 0)%Z then i64 (stop + n) else Ret stop);
  let start := if (start <? 0)%Z then 0%Z else start in
  let stop := if (n <=? stop)%Z then (n - 1)%Z else stop in
  Ret (if (n =? 0)%Z || (stop <? start)%Z then None else Some (Z.to_nat start, Z.to_nat stop)).

Definition push_common (ctx : CommandCtx) (at_head : bool) : M CmdStatus :=
  key ← ARG ctx 1;
  t ← STORE (λ s now, store_type s key now);
  wrong ← (if decide (t = STORE_TYPE_NONE) then mret false
           else t ← STORE (λ s now, store_type s key now); mret (negb (bool_decide (t = STORE_TYPE_LIST))));
  if wrong : bool then fail_with ERR_WRONGTYPE
  else
    len ← for_loop (ARGC ctx - 2) 2
      (λ i len,
        value ← ARG ctx i;
        st ← STORE_r (λ s now _, store_list_push s key value at_head now);
        mret (match st with inr n => n | inl _ => len end)) 0;
    reply_done (λ o, reply_integer o (Z.of_nat len)).

Definition cmd_lpush (ctx : CommandCtx) : M CmdStatus := push_common ctx true.
Definition cmd_rpush (ctx : CommandCtx) : M CmdStatus := push_common ctx false.

Definition pop_common (ctx : CommandCtx) (at_head : bool) : M CmdStatus :=
  key ← ARG ctx 1;
  st ← STORE_r (λ s now now', store_list_pop s key at_head now now');
  reply_done (λ o, match st with
                   | inr value => reply_bulk_cstr o value
                   | inl STORE_WRONG_TYPE => reply_error o ERR_WRONGTYPE
                   | inl _ => reply_null o
                   end).

Definition cmd_lpop (ctx : CommandCtx) : M CmdStatus := pop_common ctx true.
Definition cmd_rpop (ctx : CommandCtx) : M CmdStatus := pop_common ctx false.

Definition cmd_llen (ctx : CommandCtx) : M CmdStatus :=
  key ← ARG ctx 1;
  st ← STORE (λ s now, store_get_list s key now);
  match st with
  | inl STORE_WRONG_TYPE => fail_with ERR_WRONGTYPE
  | inl _ => reply_done (λ o, reply_integer o 0)
  | inr l => reply_done (λ o, reply_integer o (Z.of_nat (l_len l)))
  end.

Definition cmd_lrange (ctx : CommandCtx) : M CmdStatus :=
  a ← ARG ctx 2;
  match parse_int64 a with
  | None => fail_with ERR_NOT_INT
  | Some start =>
      b ← ARG ctx 3;
      match parse_int64 b with
      | None => fail_with ERR_NOT_INT
      | Some stop =>
          key ← ARG ctx 1;
          st ← STORE (λ s now, store_get_list s key now);
          match st with
          | inl STORE_WRONG_TYPE => fail_with ERR_WRONGTYPE
          | inl _ => reply_done (λ o, reply_array o 0)
          | inr l =>
              r ← lift (normalise_range start stop (l_len l));
              match r with
              | None => reply_done (λ o, reply_array o 0)
              | Some (first, last) =>
                  OUT (λ o, reply_array o (last - first + 1));;
                  p ← lift (skip_nodes l (l_head l) first);
                  xs ← lift (read_nodes l p (last + 1 - first));
                  reply_done (λ o, foldl reply_bulk_cstr o xs)
              end
          end
      end
  end.

(** The loop of BLPOP over [n] keys from argument [i] on: whether it replied. *)
Fixpoint blpop_keys (n : nat) (ctx : CommandCtx) (i : nat) : M bool :=
  match n with
  | O => mret false
  | S n' =>
      key ← ARG ctx i;
      st ← STORE_r (λ s now now', store_list_pop s key true now now');
      match st with
      | inl STORE_WRONG_TYPE => OUT (λ o, reply_error o ERR_WRONGTYPE);; mret true
      | inl _ => blpop_keys n' ctx (i + 1)
      | inr value =>
          OUT (λ o, reply_array o 2);;
          OUT (λ o, reply_bulk_cstr o key);;
          OUT (λ o, reply_bulk_cstr o value);;
          mret true
      end
  end.

Definition is_inf (v : dbl) : bool := match v with S754_infinity _ => true | _ => false end.

(** [timeout > 0 ? mono_ms() + (int64_t)(timeout * 1000) : 0] *)
Definition deadline_of (timeout : dbl) : M Z :=
  if dlt (of_int 0) timeout then
    now ← mono_ms;
    d ← lift (to_int INT64_MIN INT64_MAX (dmul timeout (of_int 1000)));
    lift (i64 (now + d))
  else mret 0%Z.

Definition cmd_blpop (ctx : CommandCtx) : M CmdStatus :=
  a ← ARG ctx (ARGC ctx - 1);
  match parse_double a with
  | None => fail_with #"ERR timeout is not a float or out of range"
  | Some timeout =>
      if dlt timeout (of_int 0) || is_inf timeout then fail_with #"ERR timeout is not a float or out of range"
      else
        replied ← blpop_keys (ARGC ctx - 2) ctx 1;
        if replied : bool then mret CMD_DONE
        else if negb (ctx_can_block ctx) || ctx_timed_out ctx then reply_done reply_null_array
        else
          blocked ← is_blocked;
          (if blocked : bool then mret tt else d ← deadline_of timeout; set_deadline d);;
          mret CMD_BLOCK
  end.

End CmdList.
