(* ===== verification/CmdHash.v ===== *)
(** * cmd_hash.c: hashes

    The handlers of HSET, HGET, HGETALL, HMGET, HDEL and HLEN. *)

From S2P Require Import Prelude CLib Util Reply Resp FieldHash Stream Store Txn Cmd.
Import Util Reply Resp FieldHash Stream Store Txn Cmd.

Module CmdHash.

(** The loop of HSET over [n] field-value pairs from argument [i] on: the
    number of new fields, or [None] at a WRONGTYPE. *)
Fixpoint hset_pairs (n : nat) (ctx : CommandCtx) (key : bytes) (i : nat) (added : Z) : M (option Z) :=
  match n with
  | O => mret (Some added)
  | S n' =>
      field ← ARG ctx i; value ← ARG ctx (i + 1);
      st ← STORE (λ s now, store_hash_set s key field value now);
      match st with
      | inl STORE_WRONG_TYPE => mret None
      | inl _ => hset_pairs n' ctx key (i + 2) added
      | inr created => hset_pairs n' ctx key (i + 2) (added + created)
      end
  end.

Definition cmd_hset (ctx : CommandCtx) : M CmdStatus :=
  if negb (ARGC ctx mod 2 =? 0) then fail_with #"ERR wrong number of arguments for 'hset' command"
  else
    key ← ARG ctx 1;
    r ← hset_pairs ((ARGC ctx - 2) / 2) ctx key 2 0;
    match r with
    | None => fail_with ERR_WRONGTYPE
    | Some added => reply_done (λ o, reply_integer o added)
    end.

Definition cmd_hget (ctx : CommandCtx) : M CmdStatus :=
  key ← ARG ctx 1; field ← ARG ctx 2;
  st ← STORE (λ s now, store_hash_get s key field now);
  reply_done (λ o, match st with
                   | inr value => reply_bulk_cstr o value
                   | inl STORE_WRONG_TYPE => reply_error o ERR_WRONGTYPE
                   | inl _ => reply_null o
                   end).

Definition cmd_hgetall (ctx : CommandCtx) : M CmdStatus :=
  key ← ARG ctx 1;
  st ← STORE (λ s now, store_get_hash s key now);
  match st with
  | inl STORE_WRONG_TYPE => fail_with ERR_WRONGTYPE
  | inl _ => reply_done (λ o, reply_array o 0)
  | inr h =>
      OUT (λ o, reply_array o (hash_len h * 2));;
      reply_done (λ o, foldl (λ o hf, reply_bulk_cstr (reply_bulk_cstr o (hf_field hf)) (hf_value hf))
                         o (hash_fields h))
  end.

Definition cmd_hmget (ctx : CommandCtx) : M CmdStatus :=
  key ← ARG ctx 1;
  t ← STORE (λ s now, store_type s key now);
  wrong ← (if decide (t = STORE_TYPE_NONE) then mret false
           else t ← STORE (λ s now, store_type s key now); mret (negb (bool_decide (t = STORE_TYPE_HASH))));
  if wrong : bool then fail_with ERR_WRONGTYPE
  else
    OUT (λ o, reply_array o (ARGC ctx - 2));;
    for_loop (ARGC ctx - 2) 2
      (λ i _,
        field ← ARG ctx i;
        st ← STORE (λ s now, store_hash_get s key field now);
        OUT (λ o, match st with inr value => reply_bulk_cstr o value | inl _ => reply_null o end)) tt;;
    mret CMD_DONE.

(** The loop of HDEL over [n] fields from argument [i] on. *)
Fixpoint hdel_fields (n : nat) (ctx : CommandCtx) (key : bytes) (i : nat) (deleted : Z) : M (option Z) :=
  match n with
  | O => mret (Some deleted)
  | S n' =>
      field ← ARG ctx i;
      st ← STORE_r (λ s now now', Ret (store_hash_del s key field now now'));
      match st with
      | inl STORE_WRONG_TYPE => mret None
      | inl _ => hdel_fields n' ctx key (S i) deleted
      | inr d => hdel_fields n' ctx key (S i) (deleted + d)
      end
  end.

Definition cmd_hdel (ctx : CommandCtx) : M CmdStatus :=
  key ← ARG ctx 1;
  r ← hdel_fields (ARGC ctx - 2) ctx key 2 0;
  match r with
  | None => fail_with ERR_WRONGTYPE
  | Some deleted => reply_done (λ o, reply_integer o deleted)
  end.

Definition cmd_hlen (ctx : CommandCtx) : M CmdStatus :=
  key ← ARG ctx 1;
  st ← STORE (λ s now, store_get_hash s key now);
  match st with
  | inl STORE_WRONG_TYPE => fail_with ERR_WRONGTYPE
  | inl _ => reply_done (λ o, reply_integer o 0)
  | inr h => reply_done (λ o, reply_integer o (Z.of_nat (hash_len h)))
  end.

End CmdHash.
