(* ===== verification/CmdZset.v ===== *)
(** * cmd_zset.c: sorted sets and positions

    The handlers of ZADD, ZRANGE, ZRANGEBYSCORE, ZRANK, ZCARD, ZSCORE, GEOADD,
    GEODIST and GEOPOS.  A sorted set a handler walks is the one the store
    holds: nothing writes to it between the lookup and the walk. *)

From S2P Require Import Prelude CLib Util Reply Resp Dbl DblText DblArith ZSet Stream Store Geo GeoCoord Txn Cmd CmdList.
Import Util Reply Resp Dbl DblText DblArith ZSet Stream Store GeoCoord Txn Cmd CmdList.

Module CmdZset.

(** [t != STORE_TYPE_NONE && t != STORE_TYPE_ZSET] *)
Definition not_zset (t : StoreType) : bool :=
  negb (bool_decide (t = STORE_TYPE_NONE)) && negb (bool_decide (t = STORE_TYPE_ZSET)).

(** The validation loop of ZADD over [n] pairs from argument [i] on. *)
Fixpoint zadd_check (n : nat) (ctx : CommandCtx) (i : nat) : M bool :=
  match n with
  | O => mret true
  | S n' =>
      a ← ARG ctx i;
      match parse_double a with
      | None => mret false
      | Some _ => zadd_check n' ctx (i + 2)
      end
  end.

(** [store_zset_add(STORE, ARG(1), score, member, &a); added += a;]  [a] is
    only set by a call that succeeds. *)
Definition zset_add_counting (key : bytes) (score : dbl) (member : bytes) (added : Z) : M Z :=
  st ← STORE_r (λ s now _, store_zset_add s key score member now);
  match st with
  | inr a => mret (added + a)%Z
  | inl _ => undef UB_uninitialised
  end.

(** The second loop of ZADD. *)
Fixpoint zadd_pairs (n : nat) (ctx : CommandCtx) (key : bytes) (i : nat) (added : Z) : M Z :=
  match n with
  | O => mret added
  | S n' =>
      a ← ARG ctx i; member ← ARG ctx (i + 1);
      match parse_double a with
      | None => undef UB_uninitialised
      | Some score =>
          added ← zset_add_counting key score member added;
          zadd_pairs n' ctx key (i + 2) added
      end
  end.

Definition cmd_zadd (ctx : CommandCtx) : M CmdStatus :=
  if negb (ARGC ctx mod 2 =? 0) then fail_with #"ERR wrong number of arguments for 'zadd' command"
  else
    let n := (ARGC ctx - 2) / 2 in
    ok ← zadd_check n ctx 2;
    if negb ok then fail_with ERR_NOT_FLOAT
    else
      key ← ARG ctx 1;
      t ← STORE (λ s now, store_type s key now);
      if not_zset t then fail_with ERR_WRONGTYPE
      else
        added ← zadd_pairs n ctx key 2 0;
        reply_done (λ o, reply_integer o added).

(** One element of the reply of ZRANGE. *)
Definition reply_entry (withscores : bool) (o : Buffer) (e : ZSetEntry) : Buffer :=
  let o := reply_bulk_cstr o (ze_member e) in
  if withscores then reply_double o (ze_score e) else o.

(** The options of ZRANGE: whether scores are wanted, or a syntax error. *)
Definition zrange_options (ctx : CommandCtx) : M (option bool) :=
  withscores ← (if ARGC ctx =? 5 then a ← ARG ctx 4; mret (strcasecmp a #"WITHSCORES" =? 0)%Z else mret false);
  mret (if withscores : bool then Some true else if negb (ARGC ctx =? 4) then None else Some false).

Definition cmd_zrange (ctx : CommandCtx) : M CmdStatus :=
  options ← zrange_options ctx;
  match options with
  | None => fail_with ERR_SYNTAX
  | Some withscores =>
      a ← ARG ctx 2; b ← ARG ctx 3;
      match parse_int64 a, parse_int64 b with
      | Some start, Some stop =>
          key ← ARG ctx 1;
          st ← STORE (λ s now, store_get_zset s key now);
          match st with
          | inl STORE_WRONG_TYPE => fail_with ERR_WRONGTYPE
          | inl _ => reply_done (λ o, reply_array o 0)
          | inr zset =>
              r ← lift (normalise_range start stop (z_len zset));
              match r with
              | None => reply_done (λ o, reply_array o 0)
              | Some (first, last) =>
                  let count := last - first + 1 in
                  OUT (λ o, reply_array o (if withscores then count * 2 else count));;
                  reply_done (λ o, foldl (reply_entry withscores) o (take count (drop first (z_entries zset))))
              end
          end
      | _, _ => fail_with ERR_NOT_INT
      end
  end.

(** [while (i < len && p(entries[i])) i++], as what is left and what is passed. *)
Fixpoint skip_entries (p : ZSetEntry → bool) (es : list ZSetEntry) : list ZSetEntry :=
  match es with [] => [] | e :: es' => if p e then skip_entries p es' else es end.
Fixpoint pass_entries (p : ZSetEntry → bool) (es : list ZSetEntry) : list ZSetEntry :=
  match es with [] => [] | e :: es' => if p e then e :: pass_entries p es' else [] end.

(** The entries ZRANGEBYSCORE replies with. *)
Definition zrangebyscore_select (min max : dbl) (z : ZSet) : list ZSetEntry :=
  pass_entries (λ e, dle (ze_score e) max) (skip_entries (λ e, dlt (ze_score e) min) (z_entries z)).

Definition cmd_zrangebyscore (ctx : CommandCtx) : M CmdStatus :=
  a ← ARG ctx 2; b ← ARG ctx 3;
  match parse_double a, parse_double b with
  | Some min, Some max =>
      key ← ARG ctx 1;
      st ← STORE (λ s now, store_get_zset s key now);
      match st with
      | inl STORE_WRONG_TYPE => fail_with ERR_WRONGTYPE
      | inl _ => reply_done (λ o, reply_array o 0)
      | inr zset =>
          let es := zrangebyscore_select min max zset in
          OUT (λ o, reply_array o (length es));;
          reply_done (λ o, foldl (λ o e, reply_bulk_cstr o (ze_member e)) o es)
      end
  | _, _ => fail_with #"ERR min or max is not a float"
  end.

Definition cmd_zrank (ctx : CommandCtx) : M CmdStatus :=
  key ← ARG ctx 1; member ← ARG ctx 2;
  st ← STORE_r (λ s now _, store_zset_rank s key member now);
  reply_done (λ o, match st with
                   | inr rank => reply_integer o (Z.of_nat rank)
                   | inl STORE_WRONG_TYPE => reply_error o ERR_WRONGTYPE
                   | inl _ => reply_null o
                   end).

Definition cmd_zcard (ctx : CommandCtx) : M CmdStatus :=
  key ← ARG ctx 1;
  st ← STORE (λ s now, store_get_zset s key now);
  reply_done (λ o, match st with
                   | inl STORE_WRONG_TYPE => reply_error o ERR_WRONGTYPE
                   | inl _ => reply_integer o 0
                   | inr zset => reply_integer o (Z.of_nat (z_len zset))
                   end).

Definition cmd_zscore (ctx : CommandCtx) : M CmdStatus :=
  key ← ARG ctx 1; member ← ARG ctx 2;
  st ← STORE (λ s now, store_zset_score s key member now);
  reply_done (λ o, match st with
                   | inr score => reply_double o score
                   | inl STORE_WRONG_TYPE => reply_error o ERR_WRONGTYPE
                   | inl _ => reply_null o
                   end).

(** ** Positions *)

(** The validation loop of GEOADD over [n] triples from argument [i] on: the
    error to reply with, if any. *)
Fixpoint geoadd_check (n : nat) (ctx : CommandCtx) (i : nat) : M (option (Buffer → Buffer)) :=
  match n with
  | O => mret None
  | S n' =>
      a ← ARG ctx i; b ← ARG ctx (i + 1);
      match parse_double a, parse_double b with
      | Some lng, Some lat =>
          if geo_valid lat lng then geoadd_check n' ctx (i + 3)
          else mret (Some (λ o, reply_errorf o
                 (#"ERR invalid longitude,latitude pair " ++ fmt_f 6 lng ++ #"," ++ fmt_f 6 lat)))
      | _, _ => mret (Some (λ o, reply_error o ERR_NOT_FLOAT))
      end
  end.

(** The second loop of GEOADD. *)
Fixpoint geoadd_triples (n : nat) (ctx : CommandCtx) (key : bytes) (i : nat) (added : Z) : M Z :=
  match n with
  | O => mret added
  | S n' =>
      a ← ARG ctx i; b ← ARG ctx (i + 1); member ← ARG ctx (i + 2);
      hash ← lift (geo_encode (strtod b).1.1 (strtod a).1.1);
      added ← zset_add_counting key (of_int hash) member added;
      geoadd_triples n' ctx key (i + 3) added
  end.

Definition cmd_geoadd (ctx : CommandCtx) : M CmdStatus :=
  if negb ((ARGC ctx - 2) mod 3 =? 0) then fail_with #"ERR wrong number of arguments for 'geoadd' command"
  else
    let n := (ARGC ctx - 2) / 3 in
    err ← geoadd_check n ctx 2;
    match err with
    | Some f => reply_done f
    | None =>
        key ← ARG ctx 1;
        t ← STORE (λ s now, store_type s key now);
        if not_zset t then fail_with ERR_WRONGTYPE
        else
          added ← geoadd_triples n ctx key 2 0;
          reply_done (λ o, reply_integer o added)
    end.

(** The unit of GEODIST: the factor, or the error to reply with. *)
Definition geodist_unit (ctx : CommandCtx) : M (bytes + dbl) :=
  if ARGC ctx =? 5 then
    unit ← ARG ctx 4;
    let unit_is (name : bytes) := (strcasecmp unit name =? 0)%Z in
    mret (if unit_is #"m" then inr (of_int 1)
          else if unit_is #"km" then inr (ddiv (of_int 1) (of_int 1000))
          else if unit_is #"mi" then inr (ddiv (of_int 1) (constant 1609344 1000))
          else if unit_is #"ft" then inr (constant 328084 100000)
          else inl #"ERR unsupported unit provided. please use M, KM, FT, MI")
  else mret (if negb (ARGC ctx =? 4) then inl ERR_SYNTAX else inr (of_int 1)).

(** [(uint64_t)score] *)
Definition hash_of_score (score : dbl) : res Z := to_int 0 UINT64_MAX score.

Definition cmd_geodist `{Libm} (ctx : CommandCtx) : M CmdStatus :=
  u ← geodist_unit ctx;
  match u with
  | inl msg => fail_with msg
  | inr factor =>
      key ← ARG ctx 1; m1 ← ARG ctx 2;
      st1 ← STORE (λ s now, store_zset_score s key m1 now);
      match st1 with
      | inl STORE_WRONG_TYPE => fail_with ERR_WRONGTYPE
      | _ =>
          m2 ← ARG ctx 3;
          st2 ← STORE (λ s now, store_zset_score s key m2 now);
          match st1, st2 with
          | inr s1, inr s2 =>
              h1 ← lift (hash_of_score s1);
              h2 ← lift (hash_of_score s2);
              let '(lat1, lng1) := geo_decode h1 in
              let '(lat2, lng2) := geo_decode h2 in
              let text := fmt_f 4 (dmul (geo_distance_m lat1 lng1 lat2 lng2) factor) in
              reply_done (λ o, reply_bulk_cstr o (take 63 text))
          | _, _ => reply_done reply_null
          end
      end
  end.

(** One position of the reply of GEOPOS; 31 characters fit the buffers. *)
Definition reply_position (o : Buffer) (lng lat : dbl) : Buffer :=
  let o := reply_array o 2 in
  let o := reply_bulk_cstr o (take 31 (fmt_g 17 lng)) in
  reply_bulk_cstr o (take 31 (fmt_g 17 lat)).

(** The loop of GEOPOS over [n] members from argument [i] on. *)
Fixpoint geopos_members (n : nat) (ctx : CommandCtx) (key : bytes) (i : nat) : M () :=
  match n with
  | O => mret tt
  | S n' =>
      member ← ARG ctx i;
      st ← STORE (λ s now, store_zset_score s key member now);
      match st with
      | inl _ => OUT reply_null_array
      | inr score =>
          h ← lift (hash_of_score score);
          let '(lat, lng) := geo_decode h in
          OUT (λ o, reply_position o lng lat)
      end;;
      geopos_members n' ctx key (i + 1)
  end.

Definition cmd_geopos (ctx : CommandCtx) : M CmdStatus :=
  key ← ARG ctx 1;
  t ← STORE (λ s now, store_type s key now);
  if not_zset t then fail_with ERR_WRONGTYPE
  else
    OUT (λ o, reply_array o (ARGC ctx - 2));;
    geopos_members (ARGC ctx - 2) ctx key 2;;
    mret CMD_DONE.

End CmdZset.
