(* ===== verification/CmdStream.v ===== *)
(** * cmd_stream.c: streams

    The handlers of XADD, XRANGE and XREAD.  Walking the linked entries with
    [e = e->next] is walking the list of entries. *)

From S2P Require Import Prelude CLib Util Reply Resp Stream Store Txn Cmd.
Import Util Reply Resp Stream Store Txn Cmd.

Module CmdStream.

Definition reply_stream_id (o : Buffer) (id : StreamId) : Buffer :=
  reply_bulk_cstr o (dec_of (id_ms id) ++ "-"%char :: dec_of (id_seq id)).

Definition reply_stream_entry (o : Buffer) (e : StreamEntry) : Buffer :=
  let o := reply_array o 2 in
  let o := reply_stream_id o (se_id e) in
  let o := reply_array o (se_num_fields e * 2) in
  foldl (λ o f, reply_bulk_cstr (reply_bulk_cstr o f.1) f.2) o (se_fields e).

(** [fields[i] = ARG(3 + i * 2); values[i] = ARG(4 + i * 2);] for [n] pairs. *)
Fixpoint xadd_fields (n : nat) (ctx : CommandCtx) (i : nat) : M (list (bytes * bytes)) :=
  match n with
  | O => mret []
  | S n' =>
      f ← ARG ctx (3 + i * 2); v ← ARG ctx (4 + i * 2);
      rest ← xadd_fields n' ctx (S i);
      mret ((f, v) :: rest)
  end.

Definition ERR_STREAM_ID : bytes := #"ERR Invalid stream ID specified as stream command argument".

Definition cmd_xadd (ctx : CommandCtx) : M CmdStatus :=
  if negb ((ARGC ctx - 3) mod 2 =? 0) then fail_with #"ERR wrong number of arguments for 'xadd' command"
  else
    fields ← xadd_fields ((ARGC ctx - 3) / 2) ctx 0;
    key ← ARG ctx 1; spec ← ARG ctx 2;
    st ← STORE_r (λ s now now', Ret (store_stream_add s key spec fields now now'));
    reply_done (λ o, match st with
      | inr id => reply_stream_id o id
      | inl STORE_WRONG_TYPE => reply_error o ERR_WRONGTYPE
      | inl STORE_ID_ZERO => reply_error o #"ERR The ID specified in XADD must be greater than 0-0"
      | inl STORE_ID_TOO_SMALL =>
          reply_error o #"ERR The ID specified in XADD is equal or smaller than the target stream top item"
      | inl _ => reply_error o ERR_STREAM_ID
      end).

(** [strcmp(ARG(i), open) != 0 && stream_id_parse(ARG(i), default_seq, &id)],
    with [id] left alone for the open bound. *)
Definition xrange_bound (ctx : CommandCtx) (i : nat) (open : bytes) (default_seq : Z) (id : StreamId)
    : M (option StreamId) :=
  a ← ARG ctx i;
  mret (if streq a open then Some id else stream_id_parse a default_seq).

(** The entries XRANGE replies with. *)
Definition xrange_select (st : Stream) (lo hi : StreamId) : list StreamEntry :=
  let first := skip_while (λ id, stream_id_cmp id lo <? 0)%Z (st_entries st) in
  take_while (λ id, stream_id_cmp id hi <=? 0)%Z first.

Definition cmd_xrange (ctx : CommandCtx) : M CmdStatus :=
  lo ← xrange_bound ctx 2 #"-" 0 (mkId 0 0);
  match lo with
  | None => fail_with ERR_STREAM_ID
  | Some lo =>
      hi ← xrange_bound ctx 3 #"+" UINT64_MAX (mkId UINT64_MAX UINT64_MAX);
      match hi with
      | None => fail_with ERR_STREAM_ID
      | Some hi =>
          key ← ARG ctx 1;
          st ← STORE (λ s now, store_get_stream s key now);
          match st with
          | inl STORE_WRONG_TYPE => fail_with ERR_WRONGTYPE
          | inl _ => reply_done (λ o, reply_array o 0)
          | inr stream =>
              let es := xrange_select stream lo hi in
              OUT (λ o, reply_array o (length es));;
              reply_done (λ o, foldl reply_stream_entry o es)
          end
      end
  end.

(** The validation loop of XREAD: the ID to read after, for each of [n] keys. *)
Fixpoint xread_ids (n : nat) (ctx : CommandCtx) (arg num_keys k : nat) : M (bytes + list StreamId) :=
  match n with
  | O => mret (inr [])
  | S n' =>
      key ← ARG ctx (arg + k); id ← ARG ctx (arg + num_keys + k);
      st ← STORE (λ s now, store_get_stream s key now);
      match st with
      | inl STORE_WRONG_TYPE => mret (inl ERR_WRONGTYPE)
      | _ =>
          match (if streq id #"$"
                 then Some (match st with inr stream => st_last_id stream | inl _ => mkId 0 0 end)
                 else stream_id_parse id 0) with
          | None => mret (inl ERR_STREAM_ID)
          | Some after =>
              rest ← xread_ids n' ctx arg num_keys (S k);
              mret (match rest with inl e => inl e | inr ids => inr (after :: ids) end)
          end
      end
  end.

(** The entries XREAD replies with for one stream; [limit] 0 is no limit. *)
Definition xread_select (st : Stream) (after : StreamId) (limit : Z) : list StreamEntry :=
  let first := skip_while (λ id, stream_id_cmp id after <=? 0)%Z (st_entries st) in
  if (limit =? 0)%Z then first else take (Z.to_nat limit) first.

(** The collection loop: the body of the reply and the number of streams in it. *)
Fixpoint xread_body (ids : list StreamId) (ctx : CommandCtx) (arg k : nat) (limit : Z)
    (body : Buffer) (with_data : nat) : M (Buffer * nat) :=
  match ids with
  | [] => mret (body, with_data)
  | after :: ids' =>
      key ← ARG ctx (arg + k);
      st ← STORE (λ s now, store_get_stream s key now);
      match st with
      | inl _ => xread_body ids' ctx arg (S k) limit body with_data
      | inr stream =>
          let es := xread_select stream after limit in
          if length es =? 0 then xread_body ids' ctx arg (S k) limit body with_data
          else
            let body := reply_array body 2 in
            let body := reply_bulk_cstr body key in
            let body := reply_array body (length es) in
            xread_body ids' ctx arg (S k) limit (foldl reply_stream_entry body es) (S with_data)
      end
  end.

(** The COUNT option: the limit and the next argument, or [None] for an error. *)
Definition xread_count (ctx : CommandCtx) : M (option (Z * nat)) :=
  a ← ARG ctx 1;
  if (strcasecmp a #"COUNT" =? 0)%Z then
    if ARGC ctx <=? 2 then mret None
    else
      b ← ARG ctx 2;
      mret (match parse_int64 b with
            | None => None
            | Some limit => if (limit <? 0)%Z then None else Some (limit, 3)
            end)
  else mret (Some (0%Z, 1)).

Definition cmd_xread (ctx : CommandCtx) : M CmdStatus :=
  c ← xread_count ctx;
  match c with
  | None => fail_with ERR_NOT_INT
  | Some (limit, arg) =>
      syntax ← (if ARGC ctx <=? arg then mret true
                else a ← ARG ctx arg; mret (negb (strcasecmp a #"STREAMS" =? 0)%Z));
      if syntax : bool then fail_with ERR_SYNTAX
      else
        let arg := arg + 1 in
        let remaining := ARGC ctx - arg in
        if (remaining =? 0) || negb (remaining mod 2 =? 0) then
          fail_with #"ERR Unbalanced 'xread' list of streams: for each stream key an ID or '$' must be specified."
        else
          let num_keys := remaining / 2 in
          ids ← xread_ids num_keys ctx arg num_keys 0;
          match ids with
          | inl msg => fail_with msg
          | inr after =>
              r ← xread_body after ctx arg 0 limit buffer_init 0;
              let '(body, with_data) := r in
              if with_data =? 0 then reply_done reply_null_array
              else reply_done (λ o, buffer_append (reply_array o with_data) (data body))
          end
  end.

End CmdStream.
