(* ===== verification/CmdServer.v ===== *)
(** * commands.c: the server's own commands

    The handlers of PING, ECHO and CONFIG, which stand in the same file as the
    command table.  The configuration is an argument. *)

From S2P Require Import Prelude CLib Util Reply Resp Config Stream Store Txn Cmd CmdString.
Import Util Reply Resp Config Store Txn Cmd CmdString.

Module CmdServer.

Definition cmd_ping (ctx : CommandCtx) : M CmdStatus :=
  if ARGC ctx =? 1 then reply_done (λ o, reply_simple o #"PONG")
  else if ARGC ctx =? 2 then s ← ARG_len ctx 1; reply_done (λ o, reply_bulk o s (length s))
  else fail_with #"ERR wrong number of arguments for 'ping' command".

Definition cmd_echo (ctx : CommandCtx) : M CmdStatus :=
  s ← ARG_len ctx 1; reply_done (λ o, reply_bulk o s (length s)).

(** The arrays [keys] and [values]. *)
Definition config_entries (cfg : Config) : list (bytes * bytes) :=
  [(#"port", fmt_d (cfg_port cfg)); (#"hz", fmt_d (cfg_hz cfg)); (#"bind", cfg_bind cfg);
   (#"loglevel", cfg_loglevel cfg); (#"dir", cfg_dir cfg); (#"dbfilename", cfg_dbfilename cfg)].

Definition cmd_config `{Fnmatch} (cfg : Config) (ctx : CommandCtx) : M CmdStatus :=
  sub ← ARG ctx 1;
  if negb (strcasecmp sub #"GET" =? 0)%Z then
    reply_done (λ o, reply_errorf o (#"ERR unsupported CONFIG subcommand '" ++ sub ++ #"'"))
  else if negb (ARGC ctx =? 3) then fail_with #"ERR wrong number of arguments for 'config|get' command"
  else
    pattern ← ARG ctx 2;
    let matching := filter (λ kv, fnmatch pattern kv.1 = true) (config_entries cfg) in
    OUT (λ o, reply_array o (length matching * 2));;
    reply_done (λ o, foldl (λ o kv, reply_bulk_cstr (reply_bulk_cstr o kv.1) kv.2) o matching).

End CmdServer.
