(* ===== verification/CmdProps.v ===== *)
(** * What the handlers promise

    Ranges over lists and streams, the replies of LRANGE, and the arithmetic of
    expiry times. *)

From S2P Require Import Prelude CLib Util Reply Resp DList Stream Store StoreInv StoreSpec StoreRefine.
From S2P Require Import Txn Cmd CmdString CmdList CmdStream.
Import Util Reply Resp DList Stream Store StoreInv StoreSpec StoreRefine Txn Cmd CmdString CmdList CmdStream.

Module CmdProps.

(** ** Ranges by index *)

(** The index an argument of LRANGE or ZRANGE means: negative ones count from
    the end. *)
Definition index_of (i : Z) (len : nat) : Z := if (i <? 0)%Z then (i + Z.of_nat len)%Z else i.

Definition lo_of (start : Z) (len : nat) : Z := Z.max 0 (index_of start len).
Definition hi_of (stop : Z) (len : nat) : Z := Z.min (Z.of_nat len - 1) (index_of stop len).

Lemma normalise_range_clamp start stop len :
  in_i64 start = true → in_i64 stop = true → (Z.of_nat len ≤ INT64_MAX)%Z →
  normalise_range start stop len =
  Ret (if (lo_of start len <=? hi_of stop len)%Z
       then Some (Z.to_nat (lo_of start len), Z.to_nat (hi_of stop len)) else None).
Proof.
  rewrite !in_i64_spec. intros H1 H2 H3. unfold normalise_range, lo_of, hi_of, index_of.
  assert (∀ z, (INT64_MIN ≤ z ≤ INT64_MAX)%Z → (if (z <? 0)%Z then i64 (z + Z.of_nat len) else Ret z) =
    Ret (if (z <? 0)%Z then z + Z.of_nat len else z)%Z) as Hi.
  { intros z Hz. destruct (Z.ltb_spec z 0); [|done]. apply i64_ok. unfold INT64_MIN, INT64_MAX in *. lia. }
  rewrite !Hi by done. cbn [mbind res_bind]. f_equal.
  set (a := (if (start <? 0)%Z then _ else _)). set (b := (if (stop <? 0)%Z then _ else _)).
  assert ((if (a <? 0)%Z then 0%Z else a) = Z.max 0 a) as -> by (destruct (Z.ltb_spec a 0); lia).
  assert ((if (Z.of_nat len <=? b)%Z then (Z.of_nat len - 1)%Z else b) = Z.min (Z.of_nat len - 1) b) as ->
    by (destruct (Z.leb_spec (Z.of_nat len) b); lia).
  destruct (Z.eqb_spec (Z.of_nat len) 0), (Z.ltb_spec (Z.min (Z.of_nat len - 1) b) (Z.max 0 a)),
    (Z.leb_spec (Z.max 0 a) (Z.min (Z.of_nat len - 1) b)); simpl; try lia; done.
Qed.

(** For any 64-bit bounds LRANGE and ZRANGE compute, without overflow, the
    run of valid indices between the two bounds (negative bounds counting from
    the end), and report an empty range exactly when there is none. *)
Theorem normalise_range_exact (start stop : Z) (len : nat) :
  in_i64 start = true → in_i64 stop = true → (Z.of_nat len ≤ INT64_MAX)%Z →
  ∃ r, normalise_range start stop len = Ret r ∧
  match r with
  | None => ∀ i : nat, i < len → ¬ (index_of start len ≤ Z.of_nat i ≤ index_of stop len)%Z
  | Some (first, last) =>
      first ≤ last < len ∧
      ∀ i : nat, i < len → (first ≤ i ≤ last ↔ (index_of start len ≤ Z.of_nat i ≤ index_of stop len)%Z)
  end.
Proof.
  intros H1 H2 H3. eexists. split; [by apply normalise_range_clamp|].
  unfold lo_of, hi_of. destruct (Z.leb_spec (Z.max 0 (index_of start len)) (Z.min (Z.of_nat len - 1) (index_of stop len))).
  - split; [lia|]. intros i Hi. lia.
  - intros i Hi. lia.
Qed.

Lemma normalise_range_exact_witness :
  in_i64 (-2) = true ∧ in_i64 7 = true ∧ (Z.of_nat 5 ≤ INT64_MAX)%Z ∧
  ∃ r, normalise_range (-2) 7 5 = Ret r ∧
  match r with
  | None => ∀ i : nat, i < 5 → ¬ (index_of (-2) 5 ≤ Z.of_nat i ≤ index_of 7 5)%Z
  | Some (first, last) =>
      first ≤ last < 5 ∧
      ∀ i : nat, i < 5 → (first ≤ i ≤ last ↔ (index_of (-2) 5 ≤ Z.of_nat i ≤ index_of 7 5)%Z)
  end.
Proof.
  assert (Z.of_nat 5 ≤ INT64_MAX)%Z as Hl by (unfold INT64_MAX; lia).
  split; [reflexivity|]. split; [reflexivity|]. split; [exact Hl|].
  exact (normalise_range_exact (-2) 7 5 eq_refl eq_refl Hl).
Defined.

(** ** Ranges of streams *)

(** On a well-formed stream XRANGE replies with exactly the entries whose
    ID is between the two bounds, both included, in order, although it stops at
    the first entry past the end. *)
Lemma xrange_select_exact (st : Stream) (lo hi : StreamId) :
  stream_wf st →
  xrange_select st lo hi =
  filter (λ e, ¬ id_lt (se_id e) lo ∧ ¬ id_lt hi (se_id e)) (st_entries st).
Proof.
  intros Hwf. unfold xrange_select. pose proof (sw_sorted _ Hwf) as Hs.
  rewrite skip_while_filter; [|done|].
  2: { intros a b Hab Hb%Z.ltb_lt%stream_id_cmp_lt. apply Z.ltb_lt, stream_id_cmp_lt. by transitivity b. }
  rewrite take_while_filter; [|by apply sorted_entries_filter|].
  2: { intros a b Hab Hb%Z.leb_le. apply Z.leb_le. destruct (Z.lt_ge_cases 0 (stream_id_cmp a hi)) as [Hgt|]; [|done].
       apply stream_id_cmp_gt in Hgt. assert (id_lt hi b) as Hlt%stream_id_cmp_gt by (by transitivity a). lia. }
  rewrite list_filter_filter. apply list_filter_iff. intros e.
  rewrite <- stream_id_cmp_lt, <- stream_id_cmp_gt, Z.leb_le, Z.ltb_ge. lia.
Qed.

Lemma xrange_select_exact_witness :
  let st := stream_append stream_empty (mkId 1 2) [(#"f", #"v")] in
  stream_wf st ∧
  xrange_select st (mkId 1 0) (mkId 1 UINT64_MAX) =
  filter (λ e, ¬ id_lt (se_id e) (mkId 1 0) ∧ ¬ id_lt (mkId 1 UINT64_MAX) (se_id e)) (st_entries st).
Proof.
  assert (stream_wf (stream_append stream_empty (mkId 1 2) [(#"f", #"v")])) as Hwf.
  { apply (stream_append_wf None); [intros st Hst; discriminate Hst| |left; simpl; lia].
    unfold id_wf, UINT64_MAX; simpl; lia. }
  split; [exact Hwf|].
  exact (xrange_select_exact (stream_append stream_empty (mkId 1 2) [(#"f", #"v")]) (mkId 1 0) (mkId 1 UINT64_MAX) Hwf).
Defined.

(** On a well-formed stream XREAD selects the entries whose ID is strictly
    greater than the given one, in order: all of them without a COUNT, and the
    first COUNT of them with one. *)
Lemma xread_select_exact (st : Stream) (after : StreamId) (limit : Z) :
  stream_wf st → (0 ≤ limit)%Z →
  xread_select st after limit =
  let newer := filter (λ e, id_lt after (se_id e)) (st_entries st) in
  if decide (limit = 0%Z) then newer else take (Z.to_nat limit) newer.
Proof.
  intros Hwf Hl. unfold xread_select.
  assert (skip_while (λ id, stream_id_cmp id after <=? 0)%Z (st_entries st) =
    filter (λ e, id_lt after (se_id e)) (st_entries st)) as ->.
  { rewrite skip_while_filter; [|apply Hwf|].
    - apply list_filter_iff. intros e. rewrite <- stream_id_cmp_gt, Z.leb_gt. done.
    - intros a b Hab Hb%Z.leb_le. apply Z.leb_le.
      destruct (Z.lt_ge_cases 0 (stream_id_cmp a after)) as [Hgt|]; [|done].
      apply stream_id_cmp_gt in Hgt. assert (id_lt after b) as Hlt%stream_id_cmp_gt by (by transitivity a). lia. }
  destruct (Z.eqb_spec limit 0), (decide (limit = 0%Z)); done.
Qed.

Lemma xread_select_exact_witness :
  let st := stream_append stream_empty (mkId 1 2) [(#"f", #"v")] in
  stream_wf st ∧ (0 ≤ 5)%Z ∧
  xread_select st (mkId 1 1) 5 =
  let newer := filter (λ e, id_lt (mkId 1 1) (se_id e)) (st_entries st) in
  if decide (5 = 0)%Z then newer else take (Z.to_nat 5) newer.
Proof.
  assert (stream_wf (stream_append stream_empty (mkId 1 2) [(#"f", #"v")])) as Hwf.
  { apply (stream_append_wf None); [intros st Hst; discriminate Hst| |left; simpl; lia].
    unfold id_wf, UINT64_MAX; simpl; lia. }
  assert (0 ≤ 5)%Z as H5 by lia. split; [exact Hwf|]. split; [exact H5|].
  exact (xread_select_exact (stream_append stream_empty (mkId 1 2) [(#"f", #"v")]) (mkId 1 1) 5 Hwf H5).
Defined.

(** ** LRANGE *)

Definition out_data (w : World) : bytes := data (c_out (w_client w)).

Lemma fold_bulk_data o xs : data (foldl reply_bulk_cstr o xs) = data o ++ concat (enc_bulk <$> xs).
Proof.
  revert o. induction xs as [|x xs IH]; intros o; simpl; [by rewrite app_nil_r|].
  rewrite IH. autorewrite with pulse. by rewrite <- app_assoc.
Qed.

(** The elements LRANGE should reply with. *)
Definition slice (xs : list bytes) (start stop : Z) : list bytes :=
  let lo := lo_of start (length xs) in let hi := hi_of stop (length xs) in
  take (Z.to_nat (hi - lo + 1)) (drop (Z.to_nat lo) xs).

(** LRANGE on a key that holds a list writes the array of exactly the
    elements between the two bounds, follows only valid list pointers, and
    changes nothing in the keyspace; on a missing key it writes an empty
    array. *)
Lemma cmd_lrange_slice (w : World) (ks : keyspace) (name key a b : bytes) (start stop : Z)
    (can_block timed_out : bool) (xs : list bytes) :
  let now := w_now w (w_reads w) in
  refines now (w_store w) ks → NUL ∉ key → NUL ∉ a → NUL ∉ b →
  parse_int64 a = Some start → parse_int64 b = Some stop →
  match ks !! key with
  | Some (_, A_list ys) => ys = xs
  | Some _ => False
  | None => xs = []
  end →
  (Z.of_nat (length xs) ≤ INT64_MAX)%Z →
  ∃ w', cmd_lrange (mkCtx (RESP_ARRAY (RESP_BULK_STRING <$> [name; key; a; b])) can_block timed_out) w
          = Ret (CMD_DONE, w') ∧
    out_data w' = out_data w ++ enc_array_header (length (slice xs start stop)) ++
                    concat (enc_bulk <$> slice xs start stop) ∧
    refines now (w_store w') ks.
Proof.
  intros now HR Hk Ha Hb Hpa Hpb Hks Hlen. set (ctx := mkCtx _ _ _). unfold cmd_lrange.
  rewrite (bind_run _ _ _ _ _ (ARG_run ctx 2 w a eq_refl Ha)), Hpa.
  rewrite (bind_run _ _ _ _ _ (ARG_run ctx 3 w b eq_refl Hb)), Hpb.
  rewrite (bind_run _ _ _ _ _ (ARG_run ctx 1 w key eq_refl Hk)).
  rewrite (bind_run _ _ _ _ _ (STORE_run _ w)). fold now. unfold store_get_list.
  destruct (refines_typed as_list a_list list_elems now (w_store w) ks key ltac:(by intros []) HR)
    as (s' & r & -> & HR' & Hr). cbn [fst snd].
  destruct r as [[]|l]; try done.
  - destruct Hr as [Hn _]. rewrite Hn in Hks. subst xs. eexists. split; [reflexivity|].
    split; [|exact HR']. unfold out_data. cbn. autorewrite with pulse.
    assert (slice [] start stop = []) as -> by (unfold slice; by rewrite drop_nil, take_nil). done.
  - destruct Hr as (x & v & Hv & Hn). rewrite Hv in Hks. by destruct v.
  - destruct Hr as (e & _ & Hpe & Hn & _ & _ & Hwf). unfold absE in Hn. rewrite Hn in Hks.
    destruct (e_v e); try discriminate Hpe.
    injection Hpe as ->. simpl in Hks, Hwf. destruct Hwf as [Hwf _]. subst xs.
    rewrite <- (list_len_spec l Hwf) in Hlen.
    erewrite bind_run by (unfold lift; rewrite normalise_range_clamp; [reflexivity|..|done];
      by eapply in_i64_spec, parse_int64_range).
    unfold slice. rewrite <- (list_len_spec l Hwf).
    set (lo := lo_of start (l_len l)). set (hi := hi_of stop (l_len l)).
    assert (0 ≤ lo ∧ hi < Z.of_nat (l_len l))%Z as [Hlo Hhi] by (unfold lo, hi, lo_of, hi_of; lia).
    destruct (Z.leb_spec lo hi) as [Hle|Hgt].
    + pose proof (list_range_spec l (Z.to_nat lo) (Z.to_nat (hi - lo + 1)) Hwf ltac:(lia)) as Hread.
      apply res_bind_inv in Hread as (p & Hp & Hread).
      mstep. erewrite bind_run by (unfold lift; by rewrite Hp).
      replace (Z.to_nat hi + 1 - Z.to_nat lo) with (Z.to_nat (hi - lo + 1)) by lia.
      erewrite bind_run by (unfold lift; by rewrite Hread).
      eexists. split; [reflexivity|]. split; [|exact HR']. unfold out_data. cbn [w_client c_out with_out].
      cbn -[foldl reply_array]. rewrite fold_bulk_data. autorewrite with pulse. rewrite <- app_assoc.
      assert (length (take (Z.to_nat (hi - lo + 1)) (drop (Z.to_nat lo) (list_elems l))) =
        Z.to_nat hi - Z.to_nat lo + 1) as -> by (rewrite length_take, length_drop, <- (list_len_spec l Hwf); lia).
      done.
    + eexists. split; [reflexivity|]. split; [|exact HR']. unfold out_data. cbn. autorewrite with pulse.
      by replace (Z.to_nat (hi - lo + 1)) with 0 by lia.
Qed.

(** A world at time 5 whose store has the list [x] under the key [l]. *)
Definition demo_store : Store :=
  match store_list_push store_create #"l" #"x" true 5 with Ret (s, _) => s | Undef _ => store_create end.

Definition demo_world5 (s : Store) : World :=
  mkWorld s (mkClient buffer_init buffer_init txn_init None 0 false false) (λ _, 5%Z) (λ _, 5%Z) 0.

Lemma demo_store_refines : refines 5 demo_store (put ∅ #"l" (A_list [ #"x" ])).
Proof.
  destruct (push_sim 5 5 store_create ∅ (refines_create_store 5) #"l" #"x" true) as (s & Hs & HR).
  unfold demo_store. cbn [exec] in Hs. destruct (store_list_push _ _ _ _ _) as [[s' r]|]; [|done].
  injection Hs as -> _. exact HR.
Qed.

Lemma cmd_lrange_slice_witness :
  let w := demo_world5 demo_store in
  ∃ w', cmd_lrange (mkCtx (RESP_ARRAY (RESP_BULK_STRING <$> [ #"LRANGE"; #"l"; #"0"; #"-1" ])) true false) w
          = Ret (CMD_DONE, w') ∧
    out_data w' = out_data w ++ enc_array_header (length (slice [ #"x" ] 0 (-1))) ++
                    concat (enc_bulk <$> slice [ #"x" ] 0 (-1)) ∧
    refines 5 (w_store w') (put ∅ #"l" (A_list [ #"x" ])).
Proof.
  apply (cmd_lrange_slice (demo_world5 demo_store) (put ∅ #"l" (A_list [ #"x" ])) #"LRANGE" #"l" #"0" #"-1" 0 (-1)
           true false [ #"x" ]).
  - exact demo_store_refines.
  - apply (bool_decide_unpack _). vm_compute. exact I.
  - apply (bool_decide_unpack _). vm_compute. exact I.
  - apply (bool_decide_unpack _). vm_compute. exact I.
  - vm_compute. reflexivity.
  - vm_compute. reflexivity.
  - vm_compute. reflexivity.
  - unfold INT64_MAX. simpl. lia.
Defined.

(** ** Expiry times *)

(** SET with EX never overflows the clock before year 146 million: a valid
    number of seconds stores the value with the expiry [now + 1000 n] and
    answers OK, and any other number is refused without changing the store. *)
Lemma cmd_set_ex (w : World) (key value a : bytes) (n : Z) (can_block timed_out : bool) :
  let now := w_now w (w_reads w) in let now' := w_now w (S (w_reads w)) in
  store_wf (w_store w) → NUL ∉ key → NUL ∉ value → NUL ∉ a →
  parse_int64 a = Some n → (0 ≤ now ≤ INT64_MAX / 2)%Z →
  ∃ w', cmd_set (mkCtx (RESP_ARRAY (RESP_BULK_STRING <$> [ #"SET"; key; value; #"EX"; a ])) can_block timed_out) w
          = Ret (CMD_DONE, w') ∧
    if (0 <? n)%Z && (n <=? INT64_MAX / 1000 / 2)%Z then
      out_data w' = out_data w ++ enc_simple #"OK" ∧ store_wf (w_store w') ∧
      live now' (abs (w_store w')) =
        live now' (<[key := (now + n * 1000, A_str value)%Z]> (live now' (abs (w_store w))))
    else w_store w' = w_store w ∧ ∃ msg, out_data w' = out_data w ++ enc_error msg.
Proof.
  intros now now' Hwf Hk Hv Ha Hp Hnow. set (ctx := mkCtx _ _ _). unfold cmd_set.
  assert (∀ fuel x w1, set_options (S fuel) ctx 5 x w1 = Ret (Some x, w1)) as Hend by done.
  assert (set_options (ARGC ctx) ctx 3 0 w =
    if (0 <? n)%Z && (n <=? INT64_MAX / 1000 / 2)%Z then Ret (Some (now + n * 1000)%Z, tick w)
    else Ret (None, say (λ o, reply_error o #"ERR invalid expire time in 'set' command") w)) as Hopt.
  { change (ARGC ctx) with 5. cbn [set_options]. change (3 <? ARGC ctx) with true. cbv iota.
    rewrite (bind_run _ _ _ _ _ (ARG_run ctx 3 w #"EX" eq_refl ltac:(apply (bool_decide_unpack _); done))).
    change (strcasecmp #"EX" #"EX" =? 0)%Z with true. change (3 + 1 <? ARGC ctx) with true. cbn [orb andb].
    rewrite (bind_run _ _ _ _ _ (ARG_run ctx (3 + 1) w a eq_refl Ha)), Hp.
    destruct (Z.leb_spec n 0), (Z.ltb_spec (INT64_MAX / 1000 / 2) n), (Z.ltb_spec 0 n),
      (Z.leb_spec n (INT64_MAX / 1000 / 2)); try lia; cbn [orb andb]; try done.
    change (INT64_MAX / 1000 / 2)%Z with 4611686018427387%Z in *.
    change (INT64_MAX / 2)%Z with 4611686018427387903%Z in *. mstep.
    erewrite bind_run by (unfold lift; by rewrite i64_ok by (unfold INT64_MIN, INT64_MAX; lia)).
    erewrite bind_run by (unfold lift; fold now; by rewrite i64_ok by (unfold INT64_MIN, INT64_MAX; lia)).
    done. }
  destruct ((0 <? n)%Z && (n <=? INT64_MAX / 1000 / 2)%Z); rewrite (bind_run _ _ _ _ _ Hopt).
  - rewrite (bind_run _ _ _ _ _ (ARG_run ctx 1 (tick w) key eq_refl Hk)).
    rewrite (bind_run _ _ _ _ _ (ARG_run ctx 2 (tick w) value eq_refl Hv)).
    eexists. split; [reflexivity|]. cbn [w_store].
    pose proof (set_refines now' (w_store w) _ (conj Hwf eq_refl) key value (now + n * 1000)) as [Hwf' Hl].
    split_and!; [|exact Hwf'|exact Hl]. unfold out_data. cbn -[reply_simple]. by autorewrite with pulse.
  - eexists. split; [reflexivity|]. split; [done|]. eexists. unfold out_data. cbn -[reply_error].
    by autorewrite with pulse.
Qed.

Lemma cmd_set_ex_witness :
  let w := demo_world5 store_create in
  ∃ w', cmd_set (mkCtx (RESP_ARRAY (RESP_BULK_STRING <$> [ #"SET"; #"k"; #"v"; #"EX"; #"10" ])) true false) w
          = Ret (CMD_DONE, w') ∧
    if (0 <? 10)%Z && (10 <=? INT64_MAX / 1000 / 2)%Z then
      out_data w' = out_data w ++ enc_simple #"OK" ∧ store_wf (w_store w') ∧
      live 5 (abs (w_store w')) =
        live 5 (<[#"k" := (5 + 10 * 1000, A_str #"v")%Z]> (live 5 (abs (w_store w))))
    else w_store w' = w_store w ∧ ∃ msg, out_data w' = out_data w ++ enc_error msg.
Proof.
  apply (cmd_set_ex (demo_world5 store_create) #"k" #"v" #"10" 10 true false).
  - apply store_create_spec.
  - apply (bool_decide_unpack _). vm_compute. exact I.
  - apply (bool_decide_unpack _). vm_compute. exact I.
  - apply (bool_decide_unpack _). vm_compute. exact I.
  - vm_compute. reflexivity.
  - vm_compute. split; intros Hc; discriminate Hc.
Defined.

(** With PX there is no upper bound on the number of milliseconds: whenever
    [now + n] does not fit 64 bits, the handler of SET has a signed overflow
    instead of an error reply. *)
Lemma cmd_set_px_overflow (w : World) (key value a : bytes) (n : Z) (can_block timed_out : bool) :
  NUL ∉ a → parse_int64 a = Some n → (0 < n)%Z → (INT64_MAX < w_now w (w_reads w) + n)%Z →
  cmd_set (mkCtx (RESP_ARRAY (RESP_BULK_STRING <$> [ #"SET"; key; value; #"PX"; a ])) can_block timed_out) w
  = Undef UB_signed_overflow.
Proof.
  intros Ha Hp Hn Hover. set (ctx := mkCtx _ _ _). unfold cmd_set. apply bind_undef.
  change (ARGC ctx) with 5. cbn [set_options]. change (3 <? ARGC ctx) with true. cbv iota.
  rewrite (bind_run _ _ _ _ _ (ARG_run ctx 3 w #"PX" eq_refl ltac:(apply (bool_decide_unpack _); done))).
  change (strcasecmp #"PX" #"EX" =? 0)%Z with false. change (strcasecmp #"PX" #"PX" =? 0)%Z with true.
  change (3 + 1 <? ARGC ctx) with true. cbn [orb andb].
  rewrite (bind_run _ _ _ _ _ (ARG_run ctx (3 + 1) w a eq_refl Ha)), Hp.
  destruct (Z.leb_spec n 0); [lia|]. cbn [orb]. mstep. mstep. apply bind_undef.
  unfold lift, i64, in_i64. destruct (Z.leb_spec (w_now w (w_reads w) + n) INT64_MAX); [lia|].
  by rewrite andb_false_r.
Qed.

Lemma cmd_set_px_overflow_witness :
  cmd_set (mkCtx (RESP_ARRAY (RESP_BULK_STRING <$>
             [ #"SET"; #"k"; #"v"; #"PX"; #"9223372036854775807" ])) true false) (demo_world5 store_create)
  = Undef UB_signed_overflow.
Proof.
  apply (cmd_set_px_overflow (demo_world5 store_create) #"k" #"v" #"9223372036854775807" 9223372036854775807).
  - apply (bool_decide_unpack _). vm_compute. exact I.
  - vm_compute. reflexivity.
  - lia.
  - vm_compute. reflexivity.
Defined.

(** TTL rounds to the nearest second: with 1400 ms left it answers 1. *)
Example ttl_rounds_to_nearest :
  match cmd_ttl (mkCtx (RESP_ARRAY (RESP_BULK_STRING <$> [ #"TTL"; #"k" ])) true false)
          (demo_world5 (store_set store_create #"k" #"v" 1405 5)) with
  | Ret (_, w) => out_data w = enc_integer 1
  | Undef _ => False
  end.
Proof. vm_compute. reflexivity. Qed.

End CmdProps.
