(* ===== verification/HandlerProps.v ===== *)
(** * What the handlers promise about the keyspace

    ZADD is all or nothing, ZRANGEBYSCORE replies with exactly the members in
    the range, BLPOP serves the first list that is not empty and otherwise
    parks the client, KEYS finds every key that exists.  The clock may advance between the store calls of a
    handler, and keys may expire in between. *)

From S2P Require Import Prelude CLib Util Reply Resp DList Dbl DblText DblTextProps DblArith ZSet Stream.
From S2P Require Import Store StoreInv StoreSpec StoreRefine StoreProps Txn Cmd CmdString CmdList CmdStream CmdZset CmdProps.
Import Util Reply Resp DList Dbl DblText DblTextProps DblArith ZSet Stream Store StoreInv StoreSpec StoreRefine StoreProps.
Import Txn Cmd CmdString CmdList CmdStream CmdZset CmdProps.

Module HandlerProps.

(** ** Running handlers *)

Definition bulk_request (args : list bytes) : RespValue := RESP_ARRAY (RESP_BULK_STRING <$> args).

Definition no_nul (args : list bytes) : Prop := Forall (λ s, NUL ∉ s) args.

(** The arguments from [i] on are [args]. *)
Definition args_from (ctx : CommandCtx) (i : nat) (args : list bytes) : Prop :=
  drop i (elements (ctx_req ctx)) = RESP_BULK_STRING <$> args ∧ no_nul args.

Lemma args_ARG ctx i a args w : args_from ctx i (a :: args) → ARG ctx i w = Ret (a, w).
Proof.
  intros [Hd Hn]. apply Forall_cons in Hn as [Ha _]. apply ARG_run; [|done].
  pose proof (f_equal (.!! 0) Hd) as H. cbn beta in H. by rewrite lookup_drop, Nat.add_0_r in H.
Qed.

Lemma args_next ctx i a args : args_from ctx i (a :: args) → args_from ctx (S i) args.
Proof.
  intros [Hd Hn]. apply Forall_cons in Hn as [_ Hn]. split; [|done].
  by rewrite <- Nat.add_1_r, <- drop_drop, Hd.
Qed.

Lemma args_start args cb to : no_nul args → args_from (mkCtx (bulk_request args) cb to) 0 args.
Proof. intros Hn. by split. Qed.

Lemma STORE_r_run {A} (f : Store → Z → Z → res (Store * A)) w s a :
  f (w_store w) (w_now w (w_reads w)) (w_now w (S (w_reads w))) = Ret (s, a) →
  STORE_r f w = Ret (a, put_store s (tick (tick w))).
Proof. intros Hf. unfold STORE_r, mbind, M_bind, lift, now_ms, get_store. cbn. by rewrite Hf. Qed.

(** The clock never goes back. *)
Definition monotone (clock : nat → Z) : Prop := ∀ i j, i ≤ j → (clock i ≤ clock j)%Z.

(** The store stands for [ks] from the next reading of the clock on. *)
Definition stands (w : World) (ks : keyspace) : Prop :=
  monotone (w_now w) ∧ ∀ t, (w_now w (w_reads w) ≤ t)%Z → refines t (w_store w) (live t ks).

Lemma stands_now w ks : stands w ks →
  refines (w_now w (w_reads w)) (w_store w) (live (w_now w (w_reads w)) ks).
Proof. intros [_ H]. by apply H. Qed.

(** A later world with the same clock. *)
Lemma stands_later w w' t ks :
  monotone (w_now w) → w_now w' = w_now w → w_reads w ≤ w_reads w' → (t ≤ w_now w (w_reads w))%Z →
  refines t (w_store w') ks → stands w' ks.
Proof.
  intros Hm Hc Hr Ht HR. split; [by rewrite Hc|]. intros t' Ht'. apply (refines_tick t); [|done].
  rewrite Hc in Ht'. specialize (Hm _ _ Hr). lia.
Qed.

Lemma stands_same w w' ks :
  w_now w' = w_now w → w_reads w ≤ w_reads w' → w_store w' = w_store w → stands w ks → stands w' ks.
Proof.
  intros Hc Hr Hs [Hm HR]. split; [by rewrite Hc|]. intros t Ht. rewrite Hs. apply HR. rewrite Hc in Ht.
  specialize (Hm _ _ Hr). lia.
Qed.

(** ** ZADD *)

Definition pair_args (ps : list (bytes * bytes)) : list bytes := concat ((λ p, [p.1; p.2]) <$> ps).

Definition scores_ok (ps : list (bytes * bytes)) : bool :=
  forallb (λ p, bool_decide (is_Some (parse_double p.1))) ps.

Lemma zadd_check_run ctx ps i w :
  args_from ctx i (pair_args ps) → zadd_check (length ps) ctx i w = Ret (scores_ok ps, w).
Proof.
  revert i. induction ps as [|[a m] ps IH]; intros i Ha; [done|]. cbn [length zadd_check].
  change (pair_args ((a, m) :: ps)) with (a :: m :: pair_args ps) in Ha.
  rewrite (bind_run _ _ _ _ _ (args_ARG _ _ _ _ w Ha)). unfold scores_ok. cbn [forallb fst].
  destruct (parse_double a) as [v|]; [|done]. rewrite bool_decide_true by eauto. cbn [andb].
  replace (i + 2) with (S (S i)) by lia. apply IH. by eapply args_next, args_next.
Qed.

(** The members one by one, each at its own time: the keyspace and the number
    of new ones. *)
Fixpoint zadd_all (clock : nat → Z) (reads : nat) (ks : keyspace) (key : bytes) (ps : list (bytes * bytes)) (n : Z)
    : keyspace * Z :=
  match ps with
  | [] => (ks, n)
  | (a, m) :: ps' =>
      let ks := live (clock reads) ks in
      let l := match ks !! key with Some (_, A_zset l) => l | _ => [] end in
      let '(l', added) := zadd_list l (default (S754_zero false) (parse_double a)) m in
      zadd_all clock (2 + reads) (put ks key (A_zset l')) key ps' (n + added)
  end.

(** A key that holds nothing or a sorted set. *)
Definition zset_or_none (ks : keyspace) (key : bytes) : Prop :=
  match ks !! key with None | Some (_, A_zset _) => True | Some _ => False end.

Global Instance zset_or_none_dec ks key : Decision (zset_or_none ks key).
Proof. unfold zset_or_none. destruct (ks !! key) as [[x []]|]; apply _. Defined.

Lemma zset_or_none_live ks key t : zset_or_none ks key → zset_or_none (live t ks) key.
Proof.
  unfold zset_or_none. rewrite live_lookup. destruct (ks !! key) as [[x v]|]; [|done]. by destruct (expired x t).
Qed.

Lemma zadd_pairs_run ctx key ps i n w ks :
  args_from ctx i (pair_args ps) → scores_ok ps = true → zset_or_none ks key → stands w ks →
  ∃ w', zadd_pairs (length ps) ctx key i n w = Ret ((zadd_all (w_now w) (w_reads w) ks key ps n).2, w') ∧
    w_client w' = w_client w ∧ stands w' (zadd_all (w_now w) (w_reads w) ks key ps n).1.
Proof.
  revert i n w ks. induction ps as [|[a m] ps IH]; intros i n w ks Ha Hok Hz Hs; [by exists w|].
  cbn [length zadd_pairs zadd_all]. change (pair_args ((a, m) :: ps)) with (a :: m :: pair_args ps) in Ha.
  rewrite (bind_run _ _ _ _ _ (args_ARG _ _ _ _ w Ha)). apply args_next in Ha. rewrite Nat.add_1_r.
  rewrite (bind_run _ _ _ _ _ (args_ARG _ _ _ _ w Ha)). apply args_next in Ha.
  unfold scores_ok in Hok. cbn [forallb fst] in Hok. apply andb_true_iff in Hok as [Hsc Hok].
  destruct (parse_double a) as [sc|] eqn:Hpa; [|done]. clear Hsc. change (default (S754_zero false) (Some sc)) with sc.
  set (t := w_now w (w_reads w)) in *. pose proof (stands_now w ks Hs) as HR. fold t in HR.
  pose proof (zset_or_none_live ks key t Hz) as Hzt.
  destruct (zadd_sim t (w_now w (S (w_reads w))) (w_store w) (live t ks) HR key sc m
    (valid_not_nan _ (parse_double_valid _ _ Hpa))) as (s' & Hexec & HR'). cbn [exec spec] in Hexec, HR'.
  assert (typed (live t ks) key a_zset (Some []) =
    inr (match live t ks !! key with Some (_, A_zset l) => l | _ => [] end)) as Htyped.
  { unfold typed. unfold zset_or_none in Hzt. destruct (live t ks !! key) as [[x []]|]; done. }
  rewrite Htyped in Hexec, HR'.
  destruct (zadd_list (match live t ks !! key with Some (_, A_zset l) => l | _ => [] end) sc m) as [l' added] eqn:Hl.
  cbn [fst snd] in Hexec, HR'. apply res_bind_inv in Hexec as ([s1 [e|z]] & Hadd & Hout); [done|].
  injection Hout as <- ->.
  assert (zset_add_counting key sc m n w = Ret ((n + added)%Z, put_store s1 (tick (tick w)))) as Hcount.
  { unfold zset_add_counting. erewrite bind_run by (apply STORE_r_run; exact Hadd). done. }
  rewrite (bind_run _ _ _ _ _ Hcount). replace (i + 2) with (S (S i)) by lia.
  destruct (IH (S (S i)) (n + added)%Z (put_store s1 (tick (tick w))) (put (live t ks) key (A_zset l'))) as (w' & Hrun & Hc & Hs').
  - done.
  - done.
  - unfold zset_or_none, put. by rewrite lookup_insert_eq.
  - apply (stands_later w _ t); [apply Hs|done|cbn; lia|unfold t; lia|exact HR'].
  - exists w'. split; [exact Hrun|]. split; [exact Hc|exact Hs'].
Qed.

Lemma pair_args_length ps : length (pair_args ps) = 2 * length ps.
Proof. induction ps as [|p ps IH]; [done|]. unfold pair_args in *. rewrite fmap_cons. cbn. rewrite IH. lia. Qed.

Lemma type_run w ks key :
  stands w ks →
  ∃ s', STORE (λ s now, store_type s key now) w =
      Ret (match live (w_now w (w_reads w)) ks !! key with Some (_, v) => atype v | None => STORE_TYPE_NONE end,
           put_store s' (tick w)) ∧
    stands (put_store s' (tick w)) ks ∧ refines (w_now w (w_reads w)) s' (live (w_now w (w_reads w)) ks).
Proof.
  intros Hs. set (t := w_now w (w_reads w)). pose proof (stands_now w ks Hs) as HR. fold t in HR.
  destruct (type_sim t t (w_store w) (live t ks) HR key) as (s' & Hexec & HR'). cbn [exec spec fst snd] in Hexec, HR'.
  rewrite STORE_run. fold t. destruct (store_type (w_store w) key t) as [s1 ty]. injection Hexec as -> ->.
  exists s'. split; [done|]. split; [|done]. destruct Hs as [Hm Hs]. split; [done|]. intros t' Ht'. cbn in Ht' |- *.
  rewrite <- (live_mono t) by (unfold t; specialize (Hm (w_reads w) (S (w_reads w)) ltac:(lia)); lia).
  apply (refines_tick t); [|done]. unfold t. specialize (Hm (w_reads w) (S (w_reads w)) ltac:(lia)). lia.
Qed.

Lemma say_run f w : reply_done f w = Ret (CMD_DONE, say f w).
Proof. done. Qed.


Lemma create_stands : stands (demo_world5 store_create) ∅.
Proof.
  split; [by intros i j _|]. intros t _. pose proof (refines_create_store t) as HR. pose proof (refines_live _ _ _ HR) as Hl.
  by rewrite Hl.
Qed.


(** ** ZRANGEBYSCORE *)

(** A score below a later one is below it, too. *)
Lemma zless_below a b k : zless a b → klt (dkey (ze_score b)) k → klt (dkey (ze_score a)) k.
Proof. intros [Hk|[-> _]]; [by apply klt_trans|done]. Qed.

Lemma zless_above a b k : zless a b → klt k (dkey (ze_score a)) → klt k (dkey (ze_score b)).
Proof. intros [Hk|[<- _]] H; [by eapply klt_trans|done]. Qed.

Lemma skip_entries_filter min l :
  is_nan min = false → StronglySorted zless l → Forall numeric l →
  skip_entries (λ e, dlt (ze_score e) min) l = filter (λ e, dle min (ze_score e) = true) l.
Proof.
  intros Hmin Hs. induction Hs as [|e l Hs IH Hall]; [done|]. intros [He Hl]%Forall_cons. cbn [skip_entries].
  rewrite filter_cons. pose proof (dle_key min (ze_score e) Hmin He) as Hle.
  pose proof (dlt_key (ze_score e) min He Hmin) as Hlt.
  destruct (dlt (ze_score e) min) eqn:E.
  - rewrite decide_False; [by apply IH|]. intros H%Hle. by apply H, Hlt.
  - assert (dle min (ze_score e) = true) as Hd by (apply Hle; intros H%Hlt; congruence).
    rewrite decide_True by done. f_equal. symmetry. apply filter_all. intros x Hx. rewrite Forall_forall in Hall, Hl.
    apply dle_key; [done|by apply Hl|]. intros Hk. apply (zless_below e x) in Hk; [|by apply Hall].
    apply Hlt in Hk. congruence.
Qed.

Lemma pass_entries_filter max l :
  is_nan max = false → StronglySorted zless l → Forall numeric l →
  pass_entries (λ e, dle (ze_score e) max) l = filter (λ e, dle (ze_score e) max = true) l.
Proof.
  intros Hmax Hs. induction Hs as [|e l Hs IH Hall]; [done|]. intros [He Hl]%Forall_cons. cbn [pass_entries].
  rewrite filter_cons. destruct (dle (ze_score e) max) eqn:E; cbn [decide].
  - rewrite decide_True by done. f_equal. by apply IH.
  - rewrite decide_False by done. symmetry. apply filter_none. intros x Hx. rewrite Forall_forall in Hall, Hl.
    intros Hd. apply dle_key in Hd; [|by apply Hl|done]. apply Hd, (zless_above e x); [by apply Hall|].
    destruct (key_total (dkey max) (dkey (ze_score e))) as [|Hk]; [done|]. exfalso.
    assert (dle (ze_score e) max = true); [|congruence]. apply dle_key; [done..|]. intros H.
    destruct Hk as [Hk|Hk]; [rewrite Hk in H; by eapply klt_irrefl|by eapply klt_irrefl, klt_trans].
Qed.

(** The members with a score in the range, in the order of the set. *)
Definition in_score_range (min max : dbl) (l : list ZSetEntry) : list ZSetEntry :=
  filter (λ e, dle min (ze_score e) && dle (ze_score e) max = true) l.

Lemma zrangebyscore_filter min max z :
  zset_wf z → is_nan min = false → is_nan max = false → zrangebyscore_select min max z = in_score_range min max (z_entries z).
Proof.
  intros Hwf Hmin Hmax. unfold zrangebyscore_select, in_score_range.
  rewrite skip_entries_filter by (done || apply Hwf). rewrite pass_entries_filter; [|done|apply sorted_filter, Hwf|].
  - rewrite list_filter_filter. apply list_filter_iff. intros e. rewrite andb_true_iff. tauto.
  - pose proof (zw_numeric _ Hwf) as Hn. rewrite Forall_forall in *. intros e [_ He]%list_elem_of_filter. auto.
Qed.

Lemma fold_members_data o es :
  data (foldl (λ o e, reply_bulk_cstr o (ze_member e)) o es) = data o ++ concat ((λ e, enc_bulk (ze_member e)) <$> es).
Proof.
  revert o. induction es as [|x xs IH]; intros o; simpl; [by rewrite app_nil_r|].
  rewrite IH. autorewrite with pulse. by rewrite <- app_assoc.
Qed.

(** C39: ZRANGEBYSCORE replies with the array of exactly the members whose
    score is between the two bounds, both included and infinities allowed, in
    the order of the set, although it stops at the first score past the end;
    the keyspace does not change. *)
Theorem cmd_zrangebyscore_exact (w : World) (ks : keyspace) (name key a b : bytes) (min max : dbl)
    (can_block timed_out : bool) (l : list ZSetEntry) :
  let now := w_now w (w_reads w) in
  refines now (w_store w) ks → no_nul [name; key; a; b] → parse_double a = Some min → parse_double b = Some max →
  match ks !! key with
  | Some (_, A_zset l') => l' = l
  | Some _ => False
  | None => l = []
  end →
  ∃ w', cmd_zrangebyscore (mkCtx (bulk_request [name; key; a; b]) can_block timed_out) w = Ret (CMD_DONE, w') ∧
    out_data w' = out_data w ++ enc_array_header (length (in_score_range min max l)) ++
                    concat ((λ e, enc_bulk (ze_member e)) <$> in_score_range min max l) ∧
    refines now (w_store w') ks.
Proof.
  intros now HR Hn Hpa Hpb Hks. set (ctx := mkCtx _ _ _). unfold cmd_zrangebyscore.
  pose proof (args_start [name; key; a; b] can_block timed_out Hn) as H0. fold ctx in H0.
  apply args_next in H0 as H1. apply args_next in H1 as H2. apply args_next in H2 as H3.
  rewrite (bind_run _ _ _ _ _ (args_ARG _ _ _ _ w H2)), (bind_run _ _ _ _ _ (args_ARG _ _ _ _ w H3)), Hpa, Hpb.
  rewrite (bind_run _ _ _ _ _ (args_ARG _ _ _ _ w H1)), (bind_run _ _ _ _ _ (STORE_run _ w)). fold now. unfold store_get_zset.
  destruct (refines_typed as_zset a_zset z_entries now (w_store w) ks key ltac:(by intros []) HR)
    as (s' & r & -> & HR' & Hr). cbn [fst snd].
  destruct r as [[]|z]; try done.
  - destruct Hr as [Hnone _]. rewrite Hnone in Hks. subst l. eexists. split; [reflexivity|].
    split; [|exact HR']. unfold out_data. cbn -[reply_array]. by autorewrite with pulse.
  - destruct Hr as (x & v & Hv & Hno). rewrite Hv in Hks. by destruct v.
  - destruct Hr as (e & _ & Hpe & Hsome & _ & _ & Hwf). unfold absE in Hsome. rewrite Hsome in Hks.
    destruct (e_v e); try discriminate Hpe. injection Hpe as ->. simpl in Hks, Hwf. destruct Hwf as [Hwf _]. subst l.
    rewrite zrangebyscore_filter by (done || by eapply valid_not_nan, parse_double_valid).
    eexists. split; [reflexivity|]. split; [|exact HR']. unfold out_data. cbn -[foldl reply_array in_score_range].
    rewrite fold_members_data. autorewrite with pulse. by rewrite <- app_assoc.
Qed.

Definition demo_zstore : Store :=
  match store_zset_add store_create #"z" (of_int 1) #"a" 5 with Ret (s, _) => s | Undef _ => store_create end.

Lemma demo_zstore_refines : refines 5 demo_zstore (put ∅ #"z" (A_zset [mkZSetEntry #"a" (of_int 1)])).
Proof.
  destruct (zadd_sim 5 5 store_create ∅ (refines_create_store 5) #"z" (of_int 1) #"a" eq_refl) as (s & Hs & HR).
  unfold demo_zstore. cbn [exec] in Hs. destruct (store_zset_add _ _ _ _ _) as [[s' r]|]; [|done].
  injection Hs as -> _. exact HR.
Qed.

Lemma cmd_zrangebyscore_exact_witness :
  let w := demo_world5 demo_zstore in
  ∃ w', cmd_zrangebyscore (mkCtx (bulk_request [ #"ZRANGEBYSCORE"; #"z"; #"-inf"; #"1e0"]) true false) w
          = Ret (CMD_DONE, w') ∧
    out_data w' = out_data w ++ enc_array_header 1 ++ enc_bulk #"a".
Proof.
  destruct (cmd_zrangebyscore_exact (demo_world5 demo_zstore) (put ∅ #"z" (A_zset [mkZSetEntry #"a" (of_int 1)]))
    #"ZRANGEBYSCORE" #"z" #"-inf" #"1e0" (S754_infinity true) (of_int 1) true false [mkZSetEntry #"a" (of_int 1)])
    as (w' & Hrun & Hout & _).
  - exact demo_zstore_refines.
  - apply (bool_decide_unpack _). vm_compute. exact I.
  - vm_compute. reflexivity.
  - vm_compute. reflexivity.
  - vm_compute. reflexivity.
  - exists w'. split; [exact Hrun|exact Hout].
Defined.

(** ** BLPOP *)

(** What the keys hold, looked at one after the other: the reply, if there is
    one, and the keyspace. *)
Fixpoint first_list (clock : nat → Z) (reads : nat) (ks : keyspace) (keys : list bytes) : option bytes * keyspace :=
  match keys with
  | [] => (None, ks)
  | key :: keys' =>
      let ks := live (clock reads) ks in
      match ks !! key with
      | Some (_, A_list (x :: xs)) =>
          (Some (enc_array_header 2 ++ enc_bulk key ++ enc_bulk x),
           if decide (xs = []) then delete key ks else put ks key (A_list xs))
      | None | Some (_, A_list []) => first_list clock (2 + reads) ks keys'
      | Some _ => (Some (enc_error ERR_WRONGTYPE), ks)
      end
  end.

Definition same_connection (c c' : Client) : Prop := c' = with_out (c_out c') c.

Lemma blpop_keys_run ctx keys i rest w ks :
  args_from ctx i (keys ++ rest) → stands w ks →
  let r := first_list (w_now w) (w_reads w) ks keys in
  ∃ w', blpop_keys (length keys) ctx i w = Ret (bool_decide (is_Some r.1), w') ∧
    out_data w' = out_data w ++ default [] r.1 ∧ same_connection (w_client w) (w_client w') ∧
    w_mono w' = w_mono w ∧ stands w' r.2 ∧ (r.1 = None → w_reads w' = w_reads w + 2 * length keys ∧ w_client w' = w_client w).
Proof.
  revert i w ks. induction keys as [|key keys IH]; intros i w ks Ha Hs; cbn [length blpop_keys first_list].
  { exists w. cbn. rewrite app_nil_r. split_and!; [done|done|by destruct w as [? []]|done|done|]. intros _. split; [lia|done]. }
  cbn [app] in Ha. rewrite (bind_run _ _ _ _ _ (args_ARG _ _ _ _ w Ha)).
  set (t := w_now w (w_reads w)) in *. pose proof (stands_now w ks Hs) as HR. fold t in HR.
  destruct (pop_sim t (w_now w (S (w_reads w))) (w_store w) (live t ks) HR key true) as (s' & Hexec & HR').
  cbn [exec spec] in Hexec, HR'. apply res_bind_inv in Hexec as ([s1 r] & Hpop & Hout).
  rewrite (bind_run _ _ _ _ _ (STORE_r_run _ w s1 r Hpop)). set (w1 := put_store s1 (tick (tick w))).
  assert (∀ ks', refines t s1 ks' → stands w1 ks') as Hstands.
  { intros ks' Hks'. apply (stands_later w _ t); [apply Hs|done|cbn; lia|unfold t; lia|exact Hks']. }
  assert (stands w1 (live t ks) →
    let r := first_list (w_now w) (2 + w_reads w) (live t ks) keys in
    ∃ w', blpop_keys (length keys) ctx (i + 1) w1 = Ret (bool_decide (is_Some r.1), w') ∧
      out_data w' = out_data w ++ default [] r.1 ∧ same_connection (w_client w) (w_client w') ∧ w_mono w' = w_mono w ∧
      stands w' r.2 ∧ (r.1 = None → w_reads w' = w_reads w + 2 * S (length keys) ∧ w_client w' = w_client w)) as Hnext.
  { intros Hs1. rewrite Nat.add_1_r. destruct (IH (S i) w1 (live t ks) (args_next _ _ _ _ Ha) Hs1)
      as (w' & Hrun & Ho & Hc & Hm & Hst & Hnone). exists w'. split_and!; [done..|].
    intros Hn. destruct (Hnone Hn) as [Hr Hcl]. split; [cbn in Hr; lia|done]. }
  assert (∀ reply f ks', stands w1 ks' → (∀ o, data (f o) = data o ++ reply) →
    let r := (Some reply, ks') in
    ∃ w', (OUT f;; mret true) w1 = Ret (bool_decide (is_Some r.1), w') ∧
      out_data w' = out_data w ++ default [] r.1 ∧ same_connection (w_client w) (w_client w') ∧ w_mono w' = w_mono w ∧
      stands w' r.2 ∧ (r.1 = None → w_reads w' = w_reads w + 2 * S (length keys) ∧ w_client w' = w_client w)) as Hsay.
  { intros reply f ks' Hs1 Hf. exists (say f w1). split; [done|]. split; [unfold out_data; cbn; apply Hf|].
    split; [done|]. split; [done|]. split; [by apply (stands_same w1)|done]. }
  unfold typed in Hout, HR'. cbv zeta. destruct (live t ks !! key) as [[x v]|] eqn:Hk.
  2: { cbn in Hout, HR'. injection Hout as <- Hr. destruct r as [e|]; [injection Hr as ->|done]. apply Hnext, Hstands, HR'. }
  destruct v as [b|xs|h|l|es]; cbn [a_list] in Hout, HR'.
  1, 3-5: cbn in Hout, HR'; injection Hout as <- Hr; (destruct r as [e|]; [injection Hr as ->|done]);
    apply (Hsay (enc_error ERR_WRONGTYPE) (λ o, reply_error o ERR_WRONGTYPE)); [by apply Hstands|intros o; by autorewrite with pulse].
  destruct xs as [|y ys]; cbn [pop_list] in Hout, HR'.
  { cbn in Hout, HR'. injection Hout as <- Hr. destruct r as [e|]; [injection Hr as ->|done]. apply Hnext, Hstands, HR'. }
  injection Hout as <- Hr. destruct r as [e|z]; [done|]. injection Hr as ->.
  destruct (Hsay (enc_array_header 2 ++ enc_bulk key ++ enc_bulk y)
    (λ o, reply_bulk_cstr (reply_bulk_cstr (reply_array o 2) key) y) _ (Hstands _ HR'))
    as (w' & Hrun & Hrest); [intros o; autorewrite with pulse; by rewrite <- !app_assoc|].
  exists w'. split; [exact Hrun|exact Hrest].
Qed.

(** The reply of BLPOP to a timeout that is not a number, negative or infinite
    aside: its deadline. *)
Definition deadline (w : World) (timeout : dbl) (ms : Z) (n : nat) : Z :=
  if dlt (of_int 0) timeout then (w_mono w n + ms)%Z else 0%Z.


Lemma demo_store_stands : stands (demo_world5 demo_store) (put ∅ #"l" (A_list [ #"x" ])).
Proof.
  split; [by intros i j _|]. intros t Ht. apply (refines_tick 5); [done|exact demo_store_refines].
Qed.


(** ** KEYS *)

Lemma keys_visit_fold `{Fnmatch} pattern es scan :
  let r := foldl (keys_visit pattern) scan es in
  let found := filter (λ k, fnmatch pattern k = true) (e_key <$> es) in
  data (ks_matches r) = data (ks_matches scan) ++ concat (enc_bulk <$> found) ∧ ks_count r = ks_count scan + length found.
Proof.
  revert scan. induction es as [|e es IH]; intros scan; cbn [foldl]; [rewrite app_nil_r; cbn; auto|].
  rewrite fmap_cons, filter_cons. specialize (IH (keys_visit pattern scan e)). cbv zeta in IH |- *. destruct IH as [-> ->].
  unfold keys_visit. destruct (fnmatch pattern (e_key e)); cbn [ks_matches ks_count].
  - rewrite decide_True, fmap_cons by done. autorewrite with pulse. cbn. rewrite <- app_assoc. split; [done|lia].
  - rewrite decide_False by done. done.
Qed.

(** KEYS replies with the array of exactly the keys that exist and match
    the pattern, each of them once, for whatever [fnmatch] decides; the store
    does not change. *)
Lemma cmd_keys_exact `{Fnmatch} (w : World) (name pattern : bytes) (can_block timed_out : bool) :
  let now := w_now w (w_reads w) in
  store_wf (w_store w) → no_nul [name; pattern] →
  ∃ w' found, cmd_keys (mkCtx (bulk_request [name; pattern]) can_block timed_out) w = Ret (CMD_DONE, w') ∧
    out_data w' = out_data w ++ enc_array_header (length found) ++ concat (enc_bulk <$> found) ∧
    NoDup found ∧ (∀ k, k ∈ found ↔ is_Some (live now (abs (w_store w)) !! k) ∧ fnmatch pattern k = true) ∧
    w_store w' = w_store w.
Proof.
  intros now Hwf Hn. set (ctx := mkCtx _ _ _). unfold cmd_keys.
  pose proof (args_start _ can_block timed_out Hn) as H0. fold ctx in H0. apply args_next in H0 as H1.
  rewrite (bind_run _ _ _ _ _ (args_ARG _ _ _ _ w H1)), (bind_run _ _ _ _ _ (STORE_run _ w)). fold now. cbn [fst snd].
  destruct (store_scan_live (w_store w) now Hwf) as (es & Hscan & Hes). rewrite Hscan.
  destruct (keys_visit_fold pattern es (mkKeysScan buffer_init 0)) as [Hd Hc]. set (scan := foldl _ _ es) in *.
  set (found := filter (λ k, fnmatch pattern k = true) (e_key <$> es)) in *. cbn in Hd, Hc.
  assert (e_key <$> es ≡ₚ (map_to_list (live now (abs (w_store w)))).*1) as Hkeys.
  { rewrite <- Hes, <- list_fmap_compose. done. }
  assert (NoDup (e_key <$> es)) as Hnd by (rewrite Hkeys; apply NoDup_fst_map_to_list).
  assert (∀ w', out_data w' = out_data w ++ enc_array_header (ks_count scan) ++ data (ks_matches scan) →
    w_store w' = w_store w →
    out_data w' = out_data w ++ enc_array_header (length found) ++ concat (enc_bulk <$> found) ∧
    NoDup found ∧ (∀ k, k ∈ found ↔ is_Some (live now (abs (w_store w)) !! k) ∧ fnmatch pattern k = true) ∧
    w_store w' = w_store w) as Hfin.
  { intros w' -> ->. rewrite Hd, Hc. split; [done|]. split; [by apply NoDup_filter|]. split; [|done]. intros k.
    unfold found. rewrite list_elem_of_filter, Hkeys, list_elem_of_fmap. split.
    - intros (Hm & [k' v] & -> & Hin). apply elem_of_map_to_list in Hin. eauto.
    - intros [[v Hv] Hm]. split; [done|]. exists (k, v). split; [done|]. by apply elem_of_map_to_list. }
  mstep. destruct (Nat.ltb_spec 0 (blen (ks_matches scan))) as [Hb|Hb].
  - eexists _, found. split; [reflexivity|]. apply Hfin; [|done]. unfold out_data. cbn -[reply_array].
    autorewrite with pulse. by rewrite <- app_assoc.
  - eexists _, found. split; [reflexivity|]. apply Hfin; [|done]. unfold out_data, blen in *. cbn -[reply_array].
    autorewrite with pulse. destruct (data (ks_matches scan)); [by rewrite app_nil_r|cbn in Hb; lia].
Qed.

Lemma cmd_keys_exact_witness :
  ∃ w' found, cmd_keys (H := λ _ _, true) (mkCtx (bulk_request [ #"KEYS"; #"*"]) true false) (demo_world5 demo_store) = Ret (CMD_DONE, w') ∧
    out_data w' = out_data (demo_world5 demo_store) ++ enc_array_header (length found) ++ concat (enc_bulk <$> found) ∧
    (∀ k, k ∈ found ↔ is_Some (live 5 (abs demo_store) !! k) ∧ true = true).
Proof.
  destruct (cmd_keys_exact (H := λ _ _, true) (demo_world5 demo_store) #"KEYS" #"*" true false (proj1 demo_store_refines)
    ltac:(apply (bool_decide_unpack _); vm_compute; exact I)) as (w' & found & H1 & H2 & _ & H3 & _).
  exists w', found. split; [exact H1|]. split; [exact H2|exact H3].
Defined.

(** ** Conversions out of range *)

(** A finite timeout that passes BLPOP's checks and has no 64-bit number of
    milliseconds. *)
Example blpop_timeout_cast :
  parse_double #"1e300" = Some (constant (10 ^ 300) 1) ∧ is_inf (constant (10 ^ 300) 1) = false ∧
  deadline_of (constant (10 ^ 300) 1) (demo_world5 store_create) = Undef UB_float_cast.
Proof. vm_compute. auto. Qed.

(** A score that ZADD accepts and GEODIST and GEOPOS convert to a hash. *)
Example geo_score_cast :
  parse_double #"-1" = Some (of_int (-1)) ∧ hash_of_score (of_int (-1)) = Undef UB_float_cast.
Proof. vm_compute. auto. Qed.

End HandlerProps.
