(* ===== verification/Commands.v ===== *)
(** * commands.c: the command table and the dispatcher

    The table, the open-addressing index over the lower-cased names, the
    validation of a request, and the state machine of MULTI, EXEC and DISCARD
    around the handlers.  A handler is reached through the function pointer of
    its table row; here the row names the handler and [Handlers] is the record
    of what the names stand for, so the dispatcher is proved for any handlers. *)

From S2P Require Import Prelude CLib Util Reply Resp Store Txn Cmd.
Import Util Reply Resp Store Txn Cmd.

Module Commands.

(** The handlers the table points at. *)
Inductive CommandProc :=
| cmd_ping | cmd_echo | cmd_config | cmd_keys | cmd_set | cmd_get | cmd_incr | cmd_decr | cmd_incrby
| cmd_decrby | cmd_del | cmd_exists | cmd_type | cmd_ttl | cmd_pttl | cmd_lpush | cmd_rpush | cmd_lpop
| cmd_rpop | cmd_llen | cmd_lrange | cmd_blpop | cmd_hset | cmd_hget | cmd_hgetall | cmd_hmget | cmd_hdel
| cmd_hlen | cmd_zadd | cmd_zrange | cmd_zrangebyscore | cmd_zrank | cmd_zcard | cmd_zscore | cmd_geoadd
| cmd_geodist | cmd_geopos | cmd_xadd | cmd_xrange | cmd_xread.

Inductive CommandKind := KIND_NORMAL | KIND_MULTI | KIND_EXEC | KIND_DISCARD.

Record CommandSpec := mkSpec {
  cs_name : bytes;
  cs_arity : Z;
  cs_proc : option CommandProc;
  cs_kind : CommandKind;
}.

#[export] Instance CommandProc_eq_dec : EqDecision CommandProc.
Proof. solve_decision. Defined.
#[export] Instance CommandKind_eq_dec : EqDecision CommandKind.
Proof. solve_decision. Defined.
#[export] Instance CommandSpec_eq_dec : EqDecision CommandSpec.
Proof. solve_decision. Defined.

Definition normal (name : bytes) (arity : Z) (proc : CommandProc) : CommandSpec :=
  mkSpec name arity (Some proc) KIND_NORMAL.

Definition command_table : list CommandSpec := [
  normal #"ping" (-1) cmd_ping;
  normal #"echo" 2 cmd_echo;
  normal #"config" (-2) cmd_config;
  normal #"keys" 2 cmd_keys;
  normal #"set" (-3) cmd_set;
  normal #"get" 2 cmd_get;
  normal #"incr" 2 cmd_incr;
  normal #"decr" 2 cmd_decr;
  normal #"incrby" 3 cmd_incrby;
  normal #"decrby" 3 cmd_decrby;
  normal #"del" (-2) cmd_del;
  normal #"exists" (-2) cmd_exists;
  normal #"type" 2 cmd_type;
  normal #"ttl" 2 cmd_ttl;
  normal #"pttl" 2 cmd_pttl;
  normal #"lpush" (-3) cmd_lpush;
  normal #"rpush" (-3) cmd_rpush;
  normal #"lpop" 2 cmd_lpop;
  normal #"rpop" 2 cmd_rpop;
  normal #"llen" 2 cmd_llen;
  normal #"lrange" 4 cmd_lrange;
  normal #"blpop" (-3) cmd_blpop;
  normal #"hset" (-4) cmd_hset;
  normal #"hget" 3 cmd_hget;
  normal #"hgetall" 2 cmd_hgetall;
  normal #"hmget" (-3) cmd_hmget;
  normal #"hdel" (-3) cmd_hdel;
  normal #"hlen" 2 cmd_hlen;
  normal #"zadd" (-4) cmd_zadd;
  normal #"zrange" (-4) cmd_zrange;
  normal #"zrangebyscore" 4 cmd_zrangebyscore;
  normal #"zrank" 3 cmd_zrank;
  normal #"zcard" 2 cmd_zcard;
  normal #"zscore" 3 cmd_zscore;
  normal #"geoadd" (-5) cmd_geoadd;
  normal #"geodist" (-4) cmd_geodist;
  normal #"geopos" (-3) cmd_geopos;
  normal #"xadd" (-5) cmd_xadd;
  normal #"xrange" 4 cmd_xrange;
  normal #"xread" (-4) cmd_xread;
  mkSpec #"multi" 1 None KIND_MULTI;
  mkSpec #"exec" 1 None KIND_EXEC;
  mkSpec #"discard" 1 None KIND_DISCARD
].

(** ** The index *)

Definition LOOKUP_SLOTS : nat := 128.
Definition MAX_COMMAND_NAME : nat := 32.

(** FNV-1a on [unsigned]. *)
Definition name_hash (s : bytes) : Z :=
  foldl (λ h c, u32 (Z.lxor h (code c) * 16777619)) 2166136261%Z s.

Definition name_slot (s : bytes) : nat := Z.to_nat (Z.land (name_hash s) (Z.of_nat LOOKUP_SLOTS - 1)).

Definition next_slot (slot : nat) : nat := Nat.land (slot + 1) (LOOKUP_SLOTS - 1).

(** [while (lookup_slots[slot]) slot = (slot + 1) & (LOOKUP_SLOTS - 1);] *)
Fixpoint free_slot (fuel : nat) (slots : list (option CommandSpec)) (slot : nat) : nat :=
  match fuel with
  | O => slot
  | S f => match slots !!! slot with None => slot | Some _ => free_slot f slots (next_slot slot) end
  end.

Definition build_lookup : list (option CommandSpec) :=
  foldl (λ slots spec, <[free_slot LOOKUP_SLOTS slots (name_slot (cs_name spec)) := Some spec]> slots)
    (replicate LOOKUP_SLOTS None) command_table.

(** [lookup_slots] once it is built. *)
Definition lookup_slots : list (option CommandSpec) := Eval vm_compute in build_lookup.

Fixpoint probe (fuel : nat) (lower : bytes) (slot : nat) : option CommandSpec :=
  match fuel with
  | O => None
  | S f =>
      match lookup_slots !!! slot with
      | None => None
      | Some spec => if streq (cs_name spec) lower then Some spec else probe f lower (next_slot slot)
      end
  end.

(** The copy to [lower[32]] gives up at the 32nd character. *)
Definition command_lookup (name : bytes) : option CommandSpec :=
  if MAX_COMMAND_NAME <=? length name then None
  else
    let lower := tolower <$> name in
    probe LOOKUP_SLOTS lower (name_slot lower).

Definition arity_ok (spec : CommandSpec) (argc : nat) : bool :=
  if (0 <? cs_arity spec)%Z then (Z.of_nat argc =? cs_arity spec)%Z
  else (- cs_arity spec <=? Z.of_nat argc)%Z.

(** ** Validation *)

(** The loop that looks for embedded NULs; [strlen] of a NULL pointer is
    undefined. *)
Fixpoint no_nul_args (args : list RespValue) : res bool :=
  match args with
  | [] => Ret true
  | v :: args' =>
      match value_str v with
      | None => Undef UB_null_deref
      | Some s => if length (cstr s) =? length s then no_nul_args args' else Ret false
      end
  end.

Definition validate (req : RespValue) : M (option CommandSpec) :=
  name ← lift (arg_of req 0);
  match command_lookup name with
  | None =>
      OUT (λ o, reply_errorf o (#"ERR unknown command '" ++ take 64 name ++ #"'"));; mret None
  | Some spec =>
      if negb (arity_ok spec (length (elements req))) then
        OUT (λ o, reply_errorf o (#"ERR wrong number of arguments for '" ++ cs_name spec ++ #"' command"));;
        mret None
      else
        ok ← lift (no_nul_args (elements req));
        if ok : bool then mret (Some spec)
        else OUT (λ o, reply_error o #"ERR arguments containing NUL bytes are not supported");; mret None
  end.

(** ** Dispatch *)

Inductive CommandResult := CMD_RESULT_DONE | CMD_RESULT_BLOCKED | CMD_RESULT_QUEUED.

(** What the function pointers of the table point at. *)
Class Handlers := handler : CommandProc → CommandCtx → M CmdStatus.

Section dispatch.
Context `{Handlers}.

(** Calling through a NULL [spec] or a NULL [proc] is undefined. *)
Definition run (spec : option CommandSpec) (req : RespValue) (can_block timed_out : bool) : M CmdStatus :=
  match spec with
  | None => undef UB_null_deref
  | Some spec =>
      match cs_proc spec with
      | None => undef UB_null_deref
      | Some p => handler p (mkCtx req can_block timed_out)
      end
  end.

(** [txn_reset] on the client's transaction, and other changes to it. *)
Definition set_txn (t : Txn) : M () := c ← get_client; set_client (with_txn t c).

Definition get_txn : M Txn := c ← get_client; mret (c_txn c).

Fixpoint exec_loop (cmds : list RespValue) : M () :=
  match cmds with
  | [] => mret tt
  | req :: cmds' =>
      name ← lift (arg_of req 0);
      run (command_lookup name) req false false;;
      exec_loop cmds'
  end.

Definition exec_transaction : M () :=
  txn ← get_txn;
  if txn_error txn then
    set_txn (txn_reset txn);;
    OUT (λ o, reply_error o #"EXECABORT Transaction discarded because of previous errors.")
  else
    OUT (λ o, reply_array o (txn_count txn));;
    exec_loop (txn_cmds txn);;
    txn ← get_txn;
    set_txn (txn_reset txn).

Definition set_error (t : Txn) : Txn :=
  {| txn_cmds := txn_cmds t; txn_active := txn_active t; txn_error := true |}.

Definition set_active (t : Txn) : Txn :=
  {| txn_cmds := txn_cmds t; txn_active := true; txn_error := txn_error t |}.

Definition result_of (st : CmdStatus) : CommandResult :=
  match st with CMD_BLOCK => CMD_RESULT_BLOCKED | CMD_DONE => CMD_RESULT_DONE end.

Definition command_process (req : RespValue) : M CommandResult :=
  spec ← validate req;
  txn ← get_txn;
  match spec with
  | None =>
      (if txn_active txn then set_txn (set_error txn) else mret tt);;
      mret CMD_RESULT_DONE
  | Some spec =>
      match cs_kind spec with
      | KIND_MULTI =>
          (if txn_active txn then OUT (λ o, reply_error o #"ERR MULTI calls can not be nested")
           else set_txn (set_active txn);; OUT (λ o, reply_simple o #"OK"));;
          mret CMD_RESULT_DONE
      | KIND_EXEC =>
          (if negb (txn_active txn) then OUT (λ o, reply_error o #"ERR EXEC without MULTI")
           else exec_transaction);;
          mret CMD_RESULT_DONE
      | KIND_DISCARD =>
          (if negb (txn_active txn) then OUT (λ o, reply_error o #"ERR DISCARD without MULTI")
           else set_txn (txn_reset txn);; OUT (λ o, reply_simple o #"OK"));;
          mret CMD_RESULT_DONE
      | KIND_NORMAL =>
          if txn_active txn then
            match txn_queue txn req with
            | None =>
                set_txn (set_error txn);;
                OUT (λ o, reply_error o #"ERR transaction queue is full");;
                mret CMD_RESULT_DONE
            | Some t =>
                set_txn t;;
                OUT (λ o, reply_simple o #"QUEUED");;
                mret CMD_RESULT_QUEUED
            end
          else
            st ← run (Some spec) req true false;
            mret (result_of st)
      end
  end.

Definition command_retry_blocked (req : RespValue) (timed_out : bool) : M CommandResult :=
  name ← lift (arg_of req 0);
  st ← run (command_lookup name) req true timed_out;
  mret (result_of st).

End dispatch.

End Commands.
