(* ===== verification/CommandsProps.v ===== *)
(** * What the dispatcher promises

    The index is the case-insensitive scan of the table; requests of bulk
    strings are accepted or rejected without undefined behaviour; a transaction
    runs its commands in order and at once, or not at all. *)

From S2P Require Import Prelude CLib Util Reply Resp RespProps Store Txn Cmd Commands CmdString.
Import Util Reply Resp Store Txn Cmd Commands.

Module CommandsProps.

(** ** The index is the linear scan it replaces *)

Definition scan_table (name : bytes) : option CommandSpec :=
  snd <$> list_find (λ spec, strcasecmp (cs_name spec) name = 0%Z) command_table.

Lemma slots_in_table i spec : lookup_slots !! i = Some (Some spec) → spec ∈ command_table.
Proof.
  assert (forallb (λ o, match o with Some sp => bool_decide (sp ∈ command_table) | None => true end)
            lookup_slots = true) as Hall by (vm_compute; reflexivity).
  rewrite forallb_forall in Hall. intros Hi%list_elem_of_lookup_2%list_elem_of_In%Hall.
  by apply bool_decide_eq_true in Hi.
Qed.

Lemma probe_sound fuel lower slot spec :
  probe fuel lower slot = Some spec → cs_name spec = lower ∧ spec ∈ command_table.
Proof.
  revert slot. induction fuel as [|f IH]; intros slot; cbn [probe]; [done|].
  destruct (lookup_slots !!! slot) as [sp|] eqn:Hl; [|done].
  destruct (streq (cs_name sp) lower) eqn:Hs; [|apply IH]. intros [= <-]. split; [by apply streq_true|].
  rewrite list_lookup_total_alt in Hl. destruct (lookup_slots !! slot) eqn:Hi; [|done]. simpl in Hl. subst.
  by eapply slots_in_table.
Qed.

Lemma table_rows spec :
  spec ∈ command_table →
  command_lookup (cs_name spec) = Some spec ∧ tolower <$> cs_name spec = cs_name spec ∧ length (cs_name spec) < 32.
Proof.
  assert (forallb (λ sp, bool_decide (command_lookup (cs_name sp) = Some sp ∧
      tolower <$> cs_name sp = cs_name sp ∧ length (cs_name sp) < 32)) command_table = true) as Hall
    by (vm_compute; reflexivity).
  rewrite forallb_forall in Hall. intros Hi%list_elem_of_In%Hall. by apply bool_decide_eq_true in Hi.
Qed.

Lemma command_lookup_scan name : command_lookup name = scan_table name.
Proof.
  assert (∀ sp, strcasecmp (cs_name sp) name = 0%Z ↔ tolower <$> cs_name sp = tolower <$> name) as Hcase
    by (intros sp; apply strcmp_eq).
  unfold scan_table. destruct (list_find _ command_table) as [[i sp]|] eqn:Hf; simpl.
  - apply list_find_Some in Hf as (Hi & Hn & _). apply Hcase in Hn.
    destruct (table_rows sp (list_elem_of_lookup_2 _ _ _ Hi)) as (Hl & Hlow & Hlen). rewrite Hlow in Hn.
    unfold command_lookup in *. rewrite Hlow, Hn in Hl.
    by rewrite length_fmap in Hl.
  - destruct (command_lookup name) as [sp|] eqn:Hl; [|done]. exfalso.
    unfold command_lookup in Hl. destruct (_ <=? _); [done|]. apply probe_sound in Hl as [Hn Hin].
    apply list_find_None in Hf. rewrite Forall_forall in Hf. apply (Hf sp Hin), Hcase.
    destruct (table_rows sp Hin) as (_ & -> & _). done.
Qed.

(** C36: looking a name up in the open-addressing index gives exactly the row
    that a case-insensitive scan of the command table finds, for every name,
    and the index has a free slot to stop every probe. *)
Theorem command_lookup_linear (name : bytes) :
  command_lookup name = scan_table name ∧ None ∈ lookup_slots ∧ lookup_slots = build_lookup.
Proof.
  split; [apply command_lookup_scan|].
  split; [apply (bool_decide_unpack _); vm_compute; exact I|vm_compute; reflexivity].
Qed.

(** ** Requests *)

(** A request of bulk strings, as the parser delivers it when no null bulk
    string is in it. *)
Definition request (ss : list bytes) : RespValue := RESP_ARRAY (RESP_BULK_STRING <$> ss).

(** The row a request is accepted for: the name is known, the number of
    arguments fits and no argument contains a NUL. *)
Definition accepted (ss : list bytes) : option CommandSpec :=
  match ss with
  | [] => None
  | name :: _ =>
      spec ← scan_table (cstr name);
      if arity_ok spec (length ss) && bool_decide (Forall (λ s, NUL ∉ s) ss) then Some spec else None
  end.

Lemma no_nul_args_spec ss :
  no_nul_args (RESP_BULK_STRING <$> ss) = Ret (bool_decide (Forall (λ s, NUL ∉ s) ss)).
Proof.
  induction ss as [|x ss IH]; cbn [no_nul_args fmap list_fmap value_str]; [done|].
  destruct (Nat.eqb_spec (length (cstr x)) (length x)) as [Hx|Hx]; rewrite cstr_length in Hx.
  - rewrite IH. f_equal. apply bool_decide_ext. rewrite Forall_cons. tauto.
  - rewrite bool_decide_eq_false_2; [done|]. by intros [? _]%Forall_cons.
Qed.

Lemma validate_spec ss w :
  ss ≠ [] →
  match accepted ss with
  | Some spec => validate (request ss) w = Ret (Some spec, w)
  | None => ∃ msg, validate (request ss) w = Ret (None, say (λ o, reply_error o msg) w)
  end.
Proof.
  destruct ss as [|name ss]; [done|]. intros _. unfold validate, accepted, request.
  set (vs := name :: ss). mstep. change (cstr _) with (cstr name). rewrite command_lookup_scan.
  destruct (scan_table (cstr name)) as [spec|]; cbn [mbind option_bind]; [|by eexists].
  cbn [elements]. rewrite length_fmap.
  destruct (arity_ok spec (length vs)); [|by eexists].
  assert (∀ w, lift (no_nul_args (RESP_BULK_STRING <$> vs)) w = Ret (bool_decide (Forall (λ s, NUL ∉ s) vs), w)) as Hn
    by (intros ?; unfold lift; by rewrite no_nul_args_spec).
  destruct (bool_decide (Forall (λ s, NUL ∉ s) vs)); simpl andb; cbv iota; [|eexists];
    cbn [negb]; by rewrite (bind_run _ _ _ _ _ (Hn w)).
Qed.

(** ** Transactions *)

Section transactions.
Context `{Handlers}.

Fixpoint process_all (reqs : list RespValue) : M () :=
  match reqs with
  | [] => mret tt
  | req :: reqs' => command_process req;; process_all reqs'
  end.

Definition txn_of (w : World) : Txn := c_txn (w_client w).

Definition put_txn (t : Txn) (w : World) : World := upd_client (with_txn t) w.

(** A request that is rejected before it is dispatched. *)
Definition rejected (ss : list bytes) : Prop := ss ≠ [] ∧ accepted ss = None.

(** A request that is accepted for an ordinary command. *)
Definition ordinary (ss : list bytes) : Prop :=
  ss ≠ [] ∧ ∃ spec, accepted ss = Some spec ∧ cs_kind spec = KIND_NORMAL.

(** What a queued ordinary request does to the transaction. *)
Definition enqueue (t : Txn) (req : RespValue) : Txn :=
  match txn_queue t req with Some t' => t' | None => set_error t end.

Lemma process_ordinary ss w :
  ordinary ss → txn_active (txn_of w) = true →
  ∃ r msg, command_process (request ss) w = Ret (r, say msg (put_txn (enqueue (txn_of w) (request ss)) w)) ∧
    (txn_count (txn_of w) < TXN_MAX_CMDS → r = CMD_RESULT_QUEUED ∧ msg = λ o, reply_simple o #"QUEUED").
Proof.
  intros (Hne & spec & Hacc & Hk) Ha. pose proof (validate_spec ss w Hne) as Hv. rewrite Hacc in Hv.
  unfold command_process. rewrite (bind_run _ _ _ _ _ Hv). mstep. fold (txn_of w). rewrite Hk, Ha.
  unfold enqueue, txn_queue. destruct (Nat.leb_spec TXN_MAX_CMDS (txn_count (txn_of w))).
  - eexists _, _. split; [reflexivity|lia].
  - eexists _, _. split; [reflexivity|done].
Qed.

Lemma process_rejected ss w :
  rejected ss → txn_active (txn_of w) = true →
  ∃ msg, command_process (request ss) w = Ret (CMD_RESULT_DONE, say msg (put_txn (set_error (txn_of w)) w)).
Proof.
  intros (Hne & Hacc) Ha. pose proof (validate_spec ss w Hne) as Hv. rewrite Hacc in Hv.
  destruct Hv as [msg Hv]. exists (λ o, reply_error o msg). unfold command_process. rewrite (bind_run _ _ _ _ _ Hv).
  mstep. change (c_txn (w_client (say (λ o, reply_error o msg) w))) with (txn_of w). by rewrite Ha.
Qed.

Lemma accepted_multi : accepted [ #"MULTI" ] = Some (mkSpec #"multi" 1 None KIND_MULTI).
Proof. vm_compute. reflexivity. Qed.

Lemma accepted_exec : accepted [ #"EXEC" ] = Some (mkSpec #"exec" 1 None KIND_EXEC).
Proof. vm_compute. reflexivity. Qed.

Lemma process_multi w :
  txn_active (txn_of w) = false →
  command_process (request [ #"MULTI" ]) w =
    Ret (CMD_RESULT_DONE, say (λ o, reply_simple o #"OK") (put_txn (set_active (txn_of w)) w)).
Proof.
  intros Ha. pose proof (validate_spec [ #"MULTI" ] w ltac:(done)) as Hv. rewrite accepted_multi in Hv.
  unfold command_process. rewrite (bind_run _ _ _ _ _ Hv). mstep. fold (txn_of w). cbn [cs_kind]. by rewrite Ha.
Qed.

Lemma process_exec w :
  txn_active (txn_of w) = true →
  command_process (request [ #"EXEC" ]) w = (exec_transaction;; mret CMD_RESULT_DONE) w.
Proof.
  intros Ha. pose proof (validate_spec [ #"EXEC" ] w ltac:(done)) as Hv. rewrite accepted_exec in Hv.
  unfold command_process. rewrite (bind_run _ _ _ _ _ Hv). mstep. fold (txn_of w). cbn [cs_kind]. by rewrite Ha.
Qed.

Lemma process_all_app reqs reqs' w :
  process_all (reqs ++ reqs') w = (process_all reqs;; process_all reqs') w.
Proof.
  revert w. induction reqs as [|r reqs IH]; intros w; simpl; [done|]. unfold mbind, M_bind.
  destruct (command_process r w) as [[a w']|]; [|done]. rewrite IH. done.
Qed.

Definition queued_line (o : Buffer) : Buffer := reply_simple o #"QUEUED".

Lemma queue_all sss w :
  Forall ordinary sss → txn_active (txn_of w) = true →
  txn_count (txn_of w) + length sss ≤ TXN_MAX_CMDS →
  process_all (request <$> sss) w =
    Ret (tt, say (Nat.iter (length sss) queued_line)
               (put_txn {| txn_cmds := txn_cmds (txn_of w) ++ (request <$> sss); txn_active := true;
                           txn_error := txn_error (txn_of w) |} w)).
Proof.
  intros Hall. revert w. induction Hall as [|ss sss Hss Hall IH]; intros w Ha Hn.
  - cbn. rewrite app_nil_r. destruct w as [st [i o [cmds a e] br bd ca cl] nw mo rd]. simpl in *. by subst a.
  - change (request <$> ss :: sss) with (request ss :: (request <$> sss)). cbn [process_all].
    destruct (process_ordinary ss w Hss Ha) as (r & msg & Hp & Hr). cbn [length] in Hn.
    destruct Hr as [-> ->]; [lia|]. rewrite (bind_run _ _ _ _ _ Hp).
    assert (enqueue (txn_of w) (request ss) = {| txn_cmds := txn_cmds (txn_of w) ++ [request ss];
      txn_active := true; txn_error := txn_error (txn_of w) |}) as Hq.
    { unfold enqueue, txn_queue. destruct (Nat.leb_spec TXN_MAX_CMDS (txn_count (txn_of w))); [lia|]. by rewrite Ha. }
    rewrite Hq. rewrite IH; [|done|unfold txn_count in *; cbn; rewrite length_app; simpl; lia].
    cbn [txn_of say upd_client w_client put_txn with_out with_txn c_txn txn_cmds txn_error length].
    rewrite <- app_assoc. do 2 f_equal.
    change (λ o, reply_simple o #"QUEUED") with queued_line.
    transitivity (say (λ o, Nat.iter (length sss) queued_line (queued_line o)) (put_txn
      {| txn_cmds := txn_cmds (c_txn (w_client w)) ++ [request ss] ++ (request <$> sss); txn_active := true;
         txn_error := txn_error (c_txn (w_client w)) |} w)); [done|].
    unfold say, upd_client. by rewrite Nat.iter_swap.
Qed.

Lemma exec_clean w cmds :
  txn_of w = {| txn_cmds := cmds; txn_active := true; txn_error := false |} →
  command_process (request [ #"EXEC" ]) w =
  match exec_loop cmds (say (λ o, reply_array o (length cmds)) w) with
  | Ret (_, w2) => Ret (CMD_RESULT_DONE, put_txn txn_init w2)
  | Undef u => Undef u
  end.
Proof.
  intros Ht. rewrite process_exec by (by rewrite Ht). unfold exec_transaction.
  unfold mbind at 1, M_bind at 1. mstep. fold (txn_of w). rewrite Ht. cbn [txn_error txn_cmds]. mstep.
  unfold txn_count. cbn [txn_cmds]. unfold mbind at 1, M_bind at 1.
  fold (say (λ o, reply_array o (length cmds)) w).
  change {| w_store := w_store w; w_client := _; w_now := _; w_mono := _; w_reads := _ |}
    with (say (λ o, reply_array o (length cmds)) w).
  by destruct (exec_loop cmds (say (λ o, reply_array o (length cmds)) w)) as [[[] w2]|u].
Qed.

(** The handlers of accepted requests, one after the other, not allowed to
    block. *)
Fixpoint in_order (sss : list (list bytes)) : M () :=
  match sss with
  | [] => mret tt
  | ss :: sss' =>
      match accepted ss ≫= cs_proc with
      | Some p => handler p (mkCtx (request ss) false false);; in_order sss'
      | None => undef UB_null_deref
      end
  end.

Lemma accepted_lookup ss spec :
  accepted ss = Some spec →
  ∃ name, arg_of (request ss) 0 = Ret name ∧ command_lookup name = Some spec ∧ spec ∈ command_table.
Proof.
  destruct ss as [|name ss]; [done|]. cbn [accepted]. intros Hacc.
  destruct (scan_table (cstr name)) as [sp|] eqn:Hs; [|done]. cbn [mbind option_bind] in Hacc.
  destruct (_ && _); [|done]. injection Hacc as ->. exists (cstr name). split; [done|].
  rewrite command_lookup_scan. split; [done|]. unfold scan_table in Hs.
  destruct (list_find _ command_table) as [[i sp]|] eqn:Hf; [|done]. injection Hs as ->.
  apply list_find_Some in Hf as (Hi & _). by eapply list_elem_of_lookup_2.
Qed.

Lemma exec_loop_in_order sss w :
  Forall ordinary sss → exec_loop (request <$> sss) w = in_order sss w.
Proof.
  intros Hall. revert w. induction Hall as [|ss sss (_ & spec & Hacc & Hk) _ IH]; intros w; [done|].
  change (request <$> ss :: sss) with (request ss :: (request <$> sss)). cbn [exec_loop in_order].
  destruct (accepted_lookup ss spec Hacc) as (name & Ha & Hl & Hin).
  erewrite bind_run by (unfold lift; by rewrite Ha). rewrite Hl, Hacc. unfold run. cbn [mbind option_bind].
  destruct (cs_proc spec) as [p|]; [|done]. unfold mbind, M_bind.
  destruct (handler p (mkCtx (request ss) false false) w) as [[a w']|]; [apply IH|done].
Qed.

(** C16: a transaction of ordinary commands runs all of them, in order, with
    nothing in between, when EXEC is processed and not before: MULTI, the
    commands (at most 1024) and EXEC have the effect of the replies OK and
    QUEUED and the array header, then of the commands' handlers one after the
    other without blocking, and leave the connection outside of MULTI. *)
Theorem transaction_runs_in_order (w : World) (sss : list (list bytes)) :
  txn_of w = txn_init → Forall ordinary sss → length sss ≤ TXN_MAX_CMDS →
  let w1 := say (λ o, reply_array (Nat.iter (length sss) queued_line (reply_simple o #"OK")) (length sss))
              (put_txn {| txn_cmds := request <$> sss; txn_active := true; txn_error := false |} w) in
  process_all (request [ #"MULTI" ] :: (request <$> sss) ++ [request [ #"EXEC" ]]) w =
  match in_order sss w1 with
  | Ret (_, w2) => Ret (tt, put_txn txn_init w2)
  | Undef u => Undef u
  end.
Proof.
  intros Ht Hall Hn w1. cbn [process_all].
  rewrite (bind_run _ _ _ _ _ (process_multi w ltac:(by rewrite Ht))), process_all_app. rewrite Ht.
  set (v := say _ (put_txn (set_active txn_init) w)).
  rewrite (bind_run _ _ _ _ _ (queue_all sss v Hall eq_refl ltac:(cbn; lia))). cbn [process_all].
  set (v' := say (Nat.iter _ _) _). unfold mbind, M_bind.
  rewrite (exec_clean v' (request <$> sss)) by done. rewrite length_fmap.
  change (say (λ o, reply_array o (length sss)) v') with w1. rewrite exec_loop_in_order by done.
  by destruct (in_order sss w1) as [[[] w2]|u].
Qed.

Lemma enqueue_active t req : txn_active t = true → txn_active (enqueue t req) = true.
Proof. intros Ht. unfold enqueue, txn_queue. by case_match; [simplify_eq/=; case_match; simplify_eq|]. Qed.

Lemma enqueue_error t req :
  txn_error (enqueue t req) = false →
  txn_error t = false ∧ txn_count t < TXN_MAX_CMDS ∧ txn_count (enqueue t req) = S (txn_count t).
Proof.
  unfold enqueue, txn_queue. destruct (Nat.leb_spec TXN_MAX_CMDS (txn_count t)); [done|].
  simpl. intros ->. unfold txn_count. simpl. rewrite length_app. simpl. split_and!; [done|done|lia].
Qed.

Lemma process_mixed sss w :
  Forall (λ ss, ordinary ss ∨ rejected ss) sss → txn_active (txn_of w) = true →
  ∃ msg t, process_all (request <$> sss) w = Ret (tt, say msg (put_txn t w)) ∧ txn_active t = true ∧
    (txn_error t = false → txn_error (txn_of w) = false ∧ Forall ordinary sss ∧
       txn_count (txn_of w) + length sss ≤ TXN_MAX_CMDS ∨ sss = [] ∧ t = txn_of w).
Proof.
  intros Hall. revert w. induction Hall as [|ss sss Hss Hall IH]; intros w Ha.
  - exists id, (txn_of w). split_and!; [|done|by right]. cbn. by destruct w as [? []].
  - change (request <$> ss :: sss) with (request ss :: (request <$> sss)). cbn [process_all].
    assert (∃ r msg t, command_process (request ss) w = Ret (r, say msg (put_txn t w)) ∧ txn_active t = true ∧
      (txn_error t = false → ordinary ss ∧ txn_error (txn_of w) = false ∧
        txn_count (txn_of w) < TXN_MAX_CMDS ∧ txn_count t = S (txn_count (txn_of w))))
      as (r & msg & t & Hp & Ht & Hte).
    { destruct Hss as [Hss|Hss].
      - destruct (process_ordinary ss w Hss Ha) as (r & msg & Hp & _). eexists _, _, _.
        split_and!; [exact Hp|by apply enqueue_active|]. intros He%enqueue_error. tauto.
      - destruct (process_rejected ss w Hss Ha) as (msg & Hp). eexists _, _, _.
        split_and!; [exact Hp|exact Ha|done]. }
    rewrite (bind_run _ _ _ _ _ Hp).
    destruct (IH (say msg (put_txn t w)) Ht) as (msg' & t' & -> & Ht' & Hte').
    exists (λ o, msg' (msg o)), t'. split_and!; [done|done|]. intros He. left.
    change (txn_of (say msg (put_txn t w))) with t in Hte'.
    destruct (Hte' He) as [(H1 & H2 & H3)|[-> ->]].
    + destruct (Hte H1) as (Ho & He0 & Hc & Hc'). split_and!; [done|by constructor|simpl; lia].
    + destruct (Hte He) as (Ho & He0 & Hc & Hc'). split_and!; [done|by constructor|simpl; lia].
Qed.

Definition EXECABORT : bytes := #"EXECABORT Transaction discarded because of previous errors.".

Lemma exec_aborted w :
  txn_active (txn_of w) = true → txn_error (txn_of w) = true →
  command_process (request [ #"EXEC" ]) w =
    Ret (CMD_RESULT_DONE, say (λ o, reply_error o EXECABORT) (put_txn txn_init w)).
Proof.
  intros Ha He. rewrite process_exec by done. unfold exec_transaction.
  unfold mbind at 1, M_bind at 1. mstep. fold (txn_of w). by rewrite He.
Qed.

(** C17: a transaction in which a command was rejected while queuing (unknown
    name, wrong number of arguments, NUL in an argument), or with more than
    1024 commands, has no effect on the store: EXEC answers EXECABORT, runs
    nothing, and leaves the connection outside of MULTI with an empty queue. *)
Theorem transaction_abort (w : World) (sss : list (list bytes)) :
  txn_of w = txn_init → Forall (λ ss, ordinary ss ∨ rejected ss) sss →
  Exists rejected sss ∨ TXN_MAX_CMDS < length sss →
  ∃ msg, process_all (request [ #"MULTI" ] :: (request <$> sss) ++ [request [ #"EXEC" ]]) w =
    Ret (tt, say (λ o, reply_error (msg o) EXECABORT) w).
Proof.
  intros Ht Hall Hbad. cbn [process_all].
  rewrite (bind_run _ _ _ _ _ (process_multi w ltac:(by rewrite Ht))), process_all_app. rewrite Ht.
  set (v := say _ (put_txn (set_active txn_init) w)).
  destruct (process_mixed sss v Hall eq_refl) as (msg & t & Hp & Hta & Hte). rewrite (bind_run _ _ _ _ _ Hp).
  assert (txn_error t = true) as He.
  { destruct (txn_error t); [done|]. exfalso. destruct (Hte eq_refl) as [(_ & Ho & Hl)|[-> _]].
    - destruct Hbad as [Hbad|Hbad]; [|simpl in Hl; lia]. apply Exists_exists in Hbad as (ss & Hin & _ & Hr).
      rewrite Forall_forall in Ho. destruct (Ho ss Hin) as (_ & spec & Hs & _). congruence.
    - destruct Hbad as [Hbad|Hbad]; [inversion Hbad|simpl in Hbad; lia]. }
  cbn [process_all]. rewrite (bind_run _ _ _ _ _ (exec_aborted (say msg (put_txn t v)) Hta He)).
  exists (λ o, msg (reply_simple o #"OK")). cbn. destruct w as [? []]. cbn in Ht. by subst.
Qed.

End transactions.

(** A handler table for the witnesses: the modelled handlers of INCR and GET. *)
Definition demo_handlers : Handlers := λ p ctx,
  match p with
  | cmd_incr => CmdString.cmd_incr ctx
  | cmd_get => CmdString.cmd_get ctx
  | _ => mret CMD_DONE
  end.

Definition demo_client : Client := mkClient buffer_init buffer_init txn_init None 0 false false.
Definition demo_world : World := mkWorld store_create demo_client (λ n, Z.of_nat n) (λ n, Z.of_nat n) 0.

Lemma ordinary_incr : ordinary [ #"INCR"; #"n" ].
Proof. split; [done|]. eexists. split; [vm_compute; reflexivity|reflexivity]. Qed.

Lemma transaction_runs_in_order_witness :
  let sss := [[ #"INCR"; #"n" ]; [ #"INCR"; #"n" ]] in
  let w1 := say (λ o, reply_array (Nat.iter (length sss) queued_line (reply_simple o #"OK")) (length sss))
              (put_txn {| txn_cmds := request <$> sss; txn_active := true; txn_error := false |} demo_world) in
  txn_of demo_world = txn_init ∧ Forall ordinary sss ∧ length sss ≤ TXN_MAX_CMDS ∧
  process_all (H := demo_handlers) (request [ #"MULTI" ] :: (request <$> sss) ++ [request [ #"EXEC" ]]) demo_world =
  match in_order (H := demo_handlers) sss w1 with
  | Ret (_, w2) => Ret (tt, put_txn txn_init w2)
  | Undef u => Undef u
  end.
Proof.
  assert (Forall ordinary [[ #"INCR"; #"n" ]; [ #"INCR"; #"n" ]]) as Ho
    by (repeat constructor; apply ordinary_incr).
  assert (length [[ #"INCR"; #"n" ]; [ #"INCR"; #"n" ]] ≤ TXN_MAX_CMDS) as Hl by (unfold TXN_MAX_CMDS; simpl; lia).
  split; [reflexivity|]. split; [exact Ho|]. split; [exact Hl|].
  exact (transaction_runs_in_order (H := demo_handlers) demo_world _ eq_refl Ho Hl).
Defined.

Lemma transaction_abort_witness :
  let sss := [[ #"INCR"; #"n" ]; [ #"NOSUCH" ]] in
  txn_of demo_world = txn_init ∧ Forall (λ ss, ordinary ss ∨ rejected ss) sss ∧
  (Exists rejected sss ∨ TXN_MAX_CMDS < length sss) ∧
  ∃ msg, process_all (H := demo_handlers)
      (request [ #"MULTI" ] :: (request <$> sss) ++ [request [ #"EXEC" ]]) demo_world =
    Ret (tt, say (λ o, reply_error (msg o) EXECABORT) demo_world).
Proof.
  assert (rejected [ #"NOSUCH" ]) as Hr by (split; [discriminate|vm_compute; reflexivity]).
  assert (Forall (λ ss, ordinary ss ∨ rejected ss) [[ #"INCR"; #"n" ]; [ #"NOSUCH" ]]) as Ho
    by (constructor; [left; exact ordinary_incr|constructor; [right; exact Hr|constructor]]).
  assert (Exists rejected [[ #"INCR"; #"n" ]; [ #"NOSUCH" ]] ∨ TXN_MAX_CMDS < length [[ #"INCR"; #"n" ]; [ #"NOSUCH" ]]) as Hb
    by (left; right; left; exact Hr).
  split; [reflexivity|]. split; [exact Ho|]. split; [exact Hb|].
  exact (transaction_abort (H := demo_handlers) demo_world _ eq_refl Ho Hb).
Defined.

(** A non-empty request of bulk strings is validated without undefined
    behaviour and without touching store, transaction or clock: it is accepted
    exactly when the case-insensitive scan finds the name, the arity fits and no
    argument contains a NUL byte, and otherwise exactly one error line is
    written. *)
Lemma validate_total (ss : list bytes) (w : World) :
  ss ≠ [] →
  ∃ spec w', validate (request ss) w = Ret (spec, w') ∧ spec = accepted ss ∧
    match spec with
    | Some _ => w' = w
    | None => ∃ msg, w' = say (λ o, reply_error o msg) w ∧ Forall (λ c, error_char c ≠ CR ∧ error_char c ≠ LF) msg
    end.
Proof.
  intros Hne. pose proof (validate_spec ss w Hne) as Hv. destruct (accepted ss) as [spec|].
  - by exists (Some spec), w.
  - destruct Hv as [msg Hv]. eexists None, _. split_and!; [exact Hv|done|]. exists msg. split; [done|].
    apply Forall_forall. intros c _. unfold error_char.
    destruct (_ || _) eqn:Hc; [done|]. apply orb_false_iff in Hc as [?%bool_decide_eq_false ?%bool_decide_eq_false]. done.
Qed.

Lemma validate_total_witness :
  [ #"get" ] ≠ [] ∧
  ∃ spec w', validate (request [ #"get" ]) demo_world = Ret (spec, w') ∧ spec = accepted [ #"get" ] ∧
    match spec with
    | Some _ => w' = demo_world
    | None => ∃ msg, w' = say (λ o, reply_error o msg) demo_world ∧
        Forall (λ c, error_char c ≠ CR ∧ error_char c ≠ LF) msg
    end.
Proof. split; [discriminate|]. apply (validate_total [ #"get" ] demo_world). discriminate. Defined.

(** ** Null bulk strings *)

(** The elements of a request; [None] is the null bulk string. *)
Definition element (o : option bytes) : RespValue := from_option RESP_BULK_STRING RESP_NULL o.

(** A null bulk string is looked at: it is the name, or the name is that of a
    command whose arity fits and nothing before it contains a NUL. *)
Definition null_reached (os : list (option bytes)) : Prop :=
  ∃ before after, os = (Some <$> before) ++ None :: after ∧
    match before with
    | [] => True
    | name :: _ => Forall (λ s, NUL ∉ s) before ∧
        ∃ spec, scan_table name = Some spec ∧ arity_ok spec (length os) = true
    end.

Lemma no_nul_args_null ss vs :
  Forall (λ s, NUL ∉ s) ss → no_nul_args ((RESP_BULK_STRING <$> ss) ++ RESP_NULL :: vs) = Undef UB_null_deref.
Proof.
  induction 1 as [|x ss Hx _ IH]; [done|]. cbn -[cstr]. apply cstr_length in Hx. by rewrite Hx, Nat.eqb_refl.
Qed.

(** The loop returns, or it comes to a null bulk string. *)
Lemma no_nul_args_cases os :
  (∃ b, no_nul_args (element <$> os) = Ret b) ∨
  ∃ before after, os = (Some <$> before) ++ None :: after ∧ Forall (λ s, NUL ∉ s) before.
Proof.
  induction os as [|[s|] os IH]; [left; by eexists|..].
  2: { right. exists [], os. by split. }
  cbn -[cstr]. destruct (Nat.eqb_spec (length (cstr s)) (length s)) as [Hs%cstr_length|]; [|left; by eexists].
  destruct IH as [?|(before & after & -> & Hb)]; [by left|]. right. exists (s :: before), after. split; [done|by constructor].
Qed.

(** C40: null bulk strings in requests.  The text of any array of bulk strings,
    null or not, within the limits is accepted by the request parser.  If the
    name is null, or the name is that of a command, the number of arguments
    fits, and there is a null bulk string with no NUL byte in anything before
    it, the dispatcher dereferences NULL, in every state of the connection and
    the store and whatever the handlers are.  In all other cases validation
    returns. *)
Theorem null_bulk_crash (H : Handlers) (w : World) (os : list (option bytes)) (rest : bytes) :
  os ≠ [] → (Z.of_nat (length os) ≤ RESP_MAX_ARRAY_LEN)%Z →
  Forall (λ o, ∀ s, o = Some s → (Z.of_nat (length s) ≤ RESP_MAX_BULK_LEN)%Z) os →
  let req := RESP_ARRAY (element <$> os) in
  resp_parse_command (RespProps.enc_value req ++ rest) = RESP_PARSE_OK (req, length (RespProps.enc_value req)) ∧
  (null_reached os → command_process req w = Undef UB_null_deref) ∧
  (¬ null_reached os → ∃ spec w', validate req w = Ret (spec, w')).
Proof.
  intros Hne Hn Hl req. split; [|split].
  - apply RespProps.parse_request_here; [by rewrite length_fmap|]. apply Forall_fmap. eapply Forall_impl; [exact Hl|].
    intros [s|] Hs; (split; [done|]); [by apply Hs|done].
  - intros (before & after & Hos & Hb). unfold command_process. apply bind_undef. unfold validate.
    destruct before as [|name before]; [unfold req; by rewrite Hos|]. destruct Hb as (Hb & spec & Hs & Ha).
    assert (NUL ∉ name) as Hname by (by apply Forall_inv in Hb).
    assert (arg_of req 0 = Ret (cstr name)) as Harg by (unfold req; by rewrite Hos).
    erewrite bind_run by (unfold lift; by rewrite Harg). rewrite cstr_no_nul, command_lookup_scan, Hs by done.
    cbn [elements req]. rewrite length_fmap, Ha. cbn [negb]. apply bind_undef. unfold lift.
    assert (element <$> os = (RESP_BULK_STRING <$> name :: before) ++ RESP_NULL :: (element <$> after)) as ->
      by (by rewrite Hos, fmap_app, <- list_fmap_compose).
    by rewrite no_nul_args_null.
  - intros Hnr. unfold validate. destruct os as [|[name|] os']; [done| |].
    2: { destruct Hnr. by exists [], os'. }
    assert (arg_of req 0 = Ret (cstr name)) as Harg by done.
    erewrite bind_run by (unfold lift; by rewrite Harg). rewrite command_lookup_scan.
    destruct (scan_table (cstr name)) as [spec|] eqn:Hs; [|by eexists _, _]. cbn [elements req]. rewrite length_fmap.
    destruct (arity_ok spec _) eqn:Ha; [|by eexists _, _]. cbn [negb].
    destruct (no_nul_args_cases (Some name :: os')) as [[b Hb]|(before & after & Hos & Hb)].
    + erewrite bind_run by (unfold lift; by rewrite Hb). destruct b; by eexists _, _.
    + destruct Hnr. exists before, after. split; [done|]. destruct before as [|name' before]; [done|].
      injection Hos as <- Hos. split; [done|]. exists spec. apply Forall_inv in Hb. by rewrite cstr_no_nul in Hs by done.
Qed.

Lemma null_bulk_crash_witness :
  let req := RESP_ARRAY [RESP_BULK_STRING #"get"; RESP_NULL] in
  resp_parse_command ( #"*2" ++ CRLF ++ #"$3" ++ CRLF ++ #"get" ++ CRLF ++ #"$-1" ++ CRLF) = RESP_PARSE_OK (req, 18) ∧
  command_process (H := demo_handlers) req demo_world = Undef UB_null_deref.
Proof.
  destruct (null_bulk_crash demo_handlers demo_world [Some #"get"; None] []) as (Hp & Hc & _).
  - discriminate.
  - vm_compute. discriminate.
  - repeat constructor; intros s [= <-]; vm_compute; discriminate.
  - split; [exact Hp|]. apply Hc. exists [ #"get" ], []. split; [reflexivity|]. split.
    + constructor; [|constructor]. apply (bool_decide_unpack _). vm_compute. exact I.
    + eexists. split; vm_compute; reflexivity.
Defined.

End CommandsProps.
