(* ===== verification/Handlers.v ===== *)
(** * The handlers behind the command table

    Every row of the table of [commands.c] points at one of the handlers of the
    [Cmd*] files.  The configuration, the system's pattern matching and its
    trigonometric functions are parameters.  [handlers_pred] shows that a
    property of the primitive actions holds of every handler, and
    [command_process_pred] that it then holds of the dispatcher. *)

From S2P Require Import Prelude CLib Util Reply Resp FieldHash Dbl DblText ZSet Stream Store GeoCoord Config Txn Cmd Actions.
From S2P Require Import CmdString CmdList CmdHash CmdZset CmdStream CmdServer Commands.
Import Util Reply FieldHash Dbl ZSet Stream GeoCoord Config Cmd Actions CmdString Commands.

Module Handlers.

Definition pulse_handlers `{Fnmatch, Libm} (cfg : Config) : Handlers := λ p,
  match p with
  | cmd_ping => CmdServer.cmd_ping
  | cmd_echo => CmdServer.cmd_echo
  | cmd_config => CmdServer.cmd_config cfg
  | cmd_keys => CmdString.cmd_keys
  | cmd_set => CmdString.cmd_set
  | cmd_get => CmdString.cmd_get
  | cmd_incr => CmdString.cmd_incr
  | cmd_decr => CmdString.cmd_decr
  | cmd_incrby => CmdString.cmd_incrby
  | cmd_decrby => CmdString.cmd_decrby
  | cmd_del => CmdString.cmd_del
  | cmd_exists => CmdString.cmd_exists
  | cmd_type => CmdString.cmd_type
  | cmd_ttl => CmdString.cmd_ttl
  | cmd_pttl => CmdString.cmd_pttl
  | cmd_lpush => CmdList.cmd_lpush
  | cmd_rpush => CmdList.cmd_rpush
  | cmd_lpop => CmdList.cmd_lpop
  | cmd_rpop => CmdList.cmd_rpop
  | cmd_llen => CmdList.cmd_llen
  | cmd_lrange => CmdList.cmd_lrange
  | cmd_blpop => CmdList.cmd_blpop
  | cmd_hset => CmdHash.cmd_hset
  | cmd_hget => CmdHash.cmd_hget
  | cmd_hgetall => CmdHash.cmd_hgetall
  | cmd_hmget => CmdHash.cmd_hmget
  | cmd_hdel => CmdHash.cmd_hdel
  | cmd_hlen => CmdHash.cmd_hlen
  | cmd_zadd => CmdZset.cmd_zadd
  | cmd_zrange => CmdZset.cmd_zrange
  | cmd_zrangebyscore => CmdZset.cmd_zrangebyscore
  | cmd_zrank => CmdZset.cmd_zrank
  | cmd_zcard => CmdZset.cmd_zcard
  | cmd_zscore => CmdZset.cmd_zscore
  | cmd_geoadd => CmdZset.cmd_geoadd
  | cmd_geodist => CmdZset.cmd_geodist
  | cmd_geopos => CmdZset.cmd_geopos
  | cmd_xadd => CmdStream.cmd_xadd
  | cmd_xrange => CmdStream.cmd_xrange
  | cmd_xread => CmdStream.cmd_xread
  end.

(** ** The writers of the handlers *)

Lemma appends_stream_entry e : appends (λ o, CmdStream.reply_stream_entry o e).
Proof.
  unfold CmdStream.reply_stream_entry, CmdStream.reply_stream_id.
  apply (appends_comp (λ o, foldl _ o (se_fields e))).
  - apply (appends_comp (λ o, reply_array o (se_num_fields e * 2))); [|auto with appends].
    apply (appends_comp (λ o, reply_bulk_cstr o _)); auto with appends.
  - apply appends_foldl. intros f. apply (appends_comp (λ o, reply_bulk_cstr o f.2)); auto with appends.
Qed.

Lemma appends_stream_entries l : appends (λ o, foldl CmdStream.reply_stream_entry o l).
Proof. apply appends_foldl, appends_stream_entry. Qed.

Lemma appends_stream_id id : appends (λ o, CmdStream.reply_stream_id o id).
Proof. apply appends_bulk. Qed.

(** Two bulk strings for each element of a list. *)
Lemma appends_pairs {A} (f g : A → bytes) l :
  appends (λ o, foldl (λ o x, reply_bulk_cstr (reply_bulk_cstr o (f x)) (g x)) o l).
Proof.
  apply appends_foldl. intros x. apply (appends_comp (λ o, reply_bulk_cstr o (g x))); auto with appends.
Qed.

Lemma appends_bulks l : appends (λ o, foldl reply_bulk_cstr o l).
Proof. apply appends_foldl, appends_bulk. Qed.

Lemma appends_members l : appends (λ o, foldl (λ o e, reply_bulk_cstr o (ze_member e)) o l).
Proof. apply appends_foldl. intros e. auto with appends. Qed.

Lemma appends_entries b l : appends (λ o, foldl (CmdZset.reply_entry b) o l).
Proof.
  apply appends_foldl. intros e. unfold CmdZset.reply_entry. destruct b; [|auto with appends].
  apply (appends_comp (λ o, DblText.reply_double o _)); auto with appends.
Qed.

Lemma appends_position lng lat : appends (λ o, CmdZset.reply_position o lng lat).
Proof.
  unfold CmdZset.reply_position. apply (appends_comp (λ o, reply_bulk_cstr o _)); [|auto with appends].
  apply (appends_comp (λ o, reply_bulk_cstr o _)); auto with appends.
Qed.

Lemma appends_xread_body n s : appends (λ o, buffer_append (reply_array o n) s).
Proof. apply (appends_comp (λ o, buffer_append o s)); auto with appends. Qed.

#[export] Hint Resolve appends_stream_entries appends_stream_id appends_pairs appends_bulks appends_members
  appends_entries appends_position appends_xread_body : appends.

(** ** Properties of all handlers *)

Section preds.
Context (P : ∀ A, M A → Prop) `{!ActionPred P}.

Lemma set_options_pred fuel ctx i x : P _ (CmdString.set_options fuel ctx i x).
Proof. revert i x. induction fuel as [|f IH]; intros i x; cbn [CmdString.set_options]; action_tac; auto. Qed.

Lemma hset_pairs_pred n ctx key i added : P _ (CmdHash.hset_pairs n ctx key i added).
Proof. revert i added. induction n as [|n IH]; intros i added; cbn [CmdHash.hset_pairs]; action_tac; auto. Qed.

Lemma hdel_fields_pred n ctx key i deleted : P _ (CmdHash.hdel_fields n ctx key i deleted).
Proof. revert i deleted. induction n as [|n IH]; intros i deleted; cbn [CmdHash.hdel_fields]; action_tac; auto. Qed.

Lemma xadd_fields_pred n ctx i : P _ (CmdStream.xadd_fields n ctx i).
Proof. revert i. induction n as [|n IH]; intros i; cbn [CmdStream.xadd_fields]; action_tac; auto. Qed.

Lemma xread_ids_pred n ctx arg num k : P _ (CmdStream.xread_ids n ctx arg num k).
Proof. revert k. induction n as [|n IH]; intros k; cbn [CmdStream.xread_ids]; action_tac; auto. Qed.

Lemma xread_body_pred ids ctx arg k limit body wd : P _ (CmdStream.xread_body ids ctx arg k limit body wd).
Proof.
  revert k body wd. induction ids as [|after ids IH]; intros k body wd; cbn [CmdStream.xread_body]; action_tac; auto.
Qed.

Lemma blpop_keys_pred n ctx i : P _ (CmdList.blpop_keys n ctx i).
Proof. revert i. induction n as [|n IH]; intros i; cbn [CmdList.blpop_keys]; action_tac; auto. Qed.

Lemma zadd_check_pred n ctx i : P _ (CmdZset.zadd_check n ctx i).
Proof. revert i. induction n as [|n IH]; intros i; cbn [CmdZset.zadd_check]; action_tac; auto. Qed.

Lemma zset_add_counting_pred key score member added : P _ (CmdZset.zset_add_counting key score member added).
Proof. unfold CmdZset.zset_add_counting. action_tac. Qed.

Lemma zadd_pairs_pred n ctx key i added : P _ (CmdZset.zadd_pairs n ctx key i added).
Proof.
  revert i added. induction n as [|n IH]; intros i added; cbn [CmdZset.zadd_pairs]; action_tac;
    auto using zset_add_counting_pred.
Qed.

Lemma geoadd_check_pred n ctx i : P _ (CmdZset.geoadd_check n ctx i).
Proof. revert i. induction n as [|n IH]; intros i; cbn [CmdZset.geoadd_check]; action_tac; auto. Qed.

(** The error GEOADD replies with is the one its validation found. *)
Lemma geoadd_check_appends n ctx i w f w' : CmdZset.geoadd_check n ctx i w = Ret (Some f, w') → appends f.
Proof.
  revert i w. induction n as [|n IH]; intros i w; cbn [CmdZset.geoadd_check]; [done|].
  unfold mbind, M_bind. destruct (ARG ctx i w) as [[a w1]|]; [|done]. destruct (ARG ctx (i + 1) w1) as [[b w2]|]; [|done].
  destruct (DblText.parse_double a), (DblText.parse_double b); [|intros [= <- _]; auto with appends..].
  destruct (geo_valid _ _); [apply IH|]. intros [= <- _]. auto with appends.
Qed.

Lemma geoadd_triples_pred n ctx key i added : P _ (CmdZset.geoadd_triples n ctx key i added).
Proof.
  revert i added. induction n as [|n IH]; intros i added; cbn [CmdZset.geoadd_triples]; action_tac;
    auto using zset_add_counting_pred.
Qed.

Lemma geopos_members_pred n ctx key i : P _ (CmdZset.geopos_members n ctx key i).
Proof. revert i. induction n as [|n IH]; intros i; cbn [CmdZset.geopos_members]; action_tac; auto. Qed.

Lemma cmd_geoadd_pred ctx : P _ (CmdZset.cmd_geoadd ctx).
Proof.
  unfold CmdZset.cmd_geoadd. destruct (negb _); [action_tac|].
  apply (pred_bind _ _ (λ err, from_option appends True err)); [apply geoadd_check_pred| |].
  - intros w [f|] w' Hw; [by eapply geoadd_check_appends|done].
  - intros [f|] Hf; action_tac; auto using geoadd_triples_pred.
Qed.

Lemma handlers_pred `{Fnmatch, Libm} (cfg : Config) (p : CommandProc) (ctx : CommandCtx) :
  P _ (pulse_handlers cfg p ctx).
Proof.
  unfold pulse_handlers. destruct p.
  all: unfold CmdServer.cmd_ping, CmdServer.cmd_echo, CmdServer.cmd_config, CmdString.cmd_keys, CmdString.cmd_set,
    CmdString.cmd_get, CmdString.cmd_incr, CmdString.cmd_decr, CmdString.cmd_incrby,
    CmdString.cmd_decrby, CmdString.incr_common, CmdString.cmd_del, CmdString.cmd_exists, CmdString.cmd_type,
    CmdString.cmd_ttl, CmdString.cmd_pttl, CmdString.ttl_common, CmdList.cmd_lpush, CmdList.cmd_rpush,
    CmdList.push_common, CmdList.cmd_lpop, CmdList.cmd_rpop, CmdList.pop_common, CmdList.cmd_llen,
    CmdList.cmd_lrange, CmdList.cmd_blpop, CmdList.deadline_of, CmdHash.cmd_hset, CmdHash.cmd_hget,
    CmdHash.cmd_hgetall, CmdHash.cmd_hmget, CmdHash.cmd_hdel, CmdHash.cmd_hlen, CmdZset.cmd_zadd, CmdZset.cmd_zrange,
    CmdZset.zrange_options, CmdZset.cmd_zrangebyscore, CmdZset.cmd_zrank, CmdZset.cmd_zcard, CmdZset.cmd_zscore,
    CmdZset.cmd_geodist, CmdZset.geodist_unit, CmdZset.cmd_geopos, CmdStream.cmd_xadd,
    CmdStream.cmd_xrange, CmdStream.xrange_bound, CmdStream.cmd_xread, CmdStream.xread_count; action_tac;
    auto using set_options_pred, hset_pairs_pred, hdel_fields_pred, xadd_fields_pred, xread_ids_pred, xread_body_pred,
      blpop_keys_pred, zadd_check_pred, zadd_pairs_pred, cmd_geoadd_pred, geopos_members_pred.
Qed.

(** ** Properties of the dispatcher *)

Context `{Handlers} (Hhandler : ∀ p ctx, P _ (handler p ctx)).

Lemma run_pred spec req can_block timed_out : P _ (run spec req can_block timed_out).
Proof. unfold run. action_tac. Qed.

Lemma validate_pred req : P _ (validate req).
Proof. unfold validate. action_tac. Qed.

Lemma exec_loop_pred cmds : P _ (exec_loop cmds).
Proof. induction cmds; cbn [exec_loop]; action_tac; auto using run_pred. Qed.

Lemma command_retry_blocked_pred req timed_out : P _ (command_retry_blocked req timed_out).
Proof. unfold command_retry_blocked. action_tac. apply run_pred. Qed.

(** Of all of it, if reading and changing the transaction has the property. *)
Lemma command_process_pred req : P _ get_txn → (∀ t, P _ (set_txn t)) → P _ (command_process req).
Proof.
  intros Hget Hset. unfold command_process, exec_transaction.
  action_tac; auto using run_pred, validate_pred, exec_loop_pred.
Qed.

End preds.

(** Concrete parameters for the examples: a pattern is [*] or a literal, and
    the trigonometric functions are constant. *)
Definition demo_fnmatch : Fnmatch := λ pattern s, bool_decide (pattern = #"*") || bool_decide (pattern = s).
Definition demo_libm : Libm :=
  {| sin := λ _, S754_zero false; cos := λ _, S754_zero false; atan2 := λ _ _, S754_zero false;
     sqrt := λ _, S754_zero false |}.
Definition demo_handlers : Handlers :=
  pulse_handlers (H := demo_fnmatch) (H0 := demo_libm) config_create_default.

End Handlers.
