(* ===== verification/Server.v ===== *)
(** * server.c: the input and output of a connection

    [process_input] runs the complete requests of the input buffer,
    [read_from_client] reads the socket and runs it, [write_to_client] sends the
    pending replies.  What the socket answers is an argument: the list of the
    results of the successive [read] or [write] calls.  A call after the last
    result of the list finds a socket that is not ready ([EAGAIN]), which is
    how a non-blocking socket says that there is nothing more. *)

From S2P Require Import Prelude Util Reply Resp Store Txn Cmd Commands.
Import Util Reply Resp Store Txn Cmd Commands.

Module Server.

Definition READ_CHUNK : Z := 16384.
Definition CLIENT_MAX_QUERY_BUF : Z := 256 * 1024 * 1024.

Definition with_in (b : Buffer) (c : Client) : Client :=
  {| c_in := b; c_out := c_out c; c_txn := c_txn c; c_blocked_req := c_blocked_req c;
     c_block_deadline := c_block_deadline c; c_close_after_reply := c_close_after_reply c;
     c_closed := c_closed c |}.

Definition with_blocked (r : option RespValue) (c : Client) : Client :=
  {| c_in := c_in c; c_out := c_out c; c_txn := c_txn c; c_blocked_req := r;
     c_block_deadline := c_block_deadline c; c_close_after_reply := c_close_after_reply c;
     c_closed := c_closed c |}.

Definition with_close (b : bool) (c : Client) : Client :=
  {| c_in := c_in c; c_out := c_out c; c_txn := c_txn c; c_blocked_req := c_blocked_req c;
     c_block_deadline := c_block_deadline c; c_close_after_reply := b; c_closed := c_closed c |}.

Definition with_closed (b : bool) (c : Client) : Client :=
  {| c_in := c_in c; c_out := c_out c; c_txn := c_txn c; c_blocked_req := c_blocked_req c;
     c_block_deadline := c_block_deadline c; c_close_after_reply := c_close_after_reply c; c_closed := b |}.

Definition on_client (f : Client → Client) : M () := λ w, Ret (tt, upd_client f w).

Section server.
Context `{Handlers}.

(** The loop of [process_input]: the position it stops at.  Every turn that
    goes on consumes at least one byte, so the length of the buffer is enough
    fuel. *)
Fixpoint process_loop (fuel : nat) (pos : nat) : M nat :=
  match fuel with
  | O => mret pos
  | S f =>
      c ← get_client;
      if bool_decide (is_Some (c_blocked_req c)) || c_close_after_reply c || (blen (c_in c) <=? pos)
      then mret pos
      else
        match resp_parse_command (drop pos (data (c_in c))) with
        | RESP_PARSE_INCOMPLETE => mret pos
        | RESP_PARSE_ERROR =>
            OUT (λ o, reply_error o #"ERR Protocol error");;
            on_client (with_close true);;
            mret pos
        | RESP_UNDEF u => undef u
        | RESP_PARSE_OK (req, used) =>
            if length (elements req) =? 0 then process_loop f (pos + used)
            else
              r ← command_process req;
              match r with
              | CMD_RESULT_DONE | CMD_RESULT_QUEUED => process_loop f (pos + used)
              | CMD_RESULT_BLOCKED => on_client (with_blocked (Some req));; process_loop f (pos + used)
              end
        end
  end.

Definition process_input : M () :=
  c ← get_client;
  pos ← process_loop (S (blen (c_in c))) 0;
  on_client (λ c, with_in (buffer_consume (c_in c) pos) c);;
  c ← get_client;
  if (CLIENT_MAX_QUERY_BUF <? Z.of_nat (blen (c_in c)))%Z then
    OUT (λ o, reply_error o #"ERR Protocol error: request too large");;
    on_client (with_close true)
  else mret tt.

(** ** Reading

    The results of [read]: [n > 0] bytes, [n == 0], or [-1] with [errno] set to
    [EINTR], to [EAGAIN] or [EWOULDBLOCK], or to anything else. *)
Inductive read_result :=
  | Read_data (chunk : bytes)
  | Read_eof
  | Read_eintr
  | Read_again
  | Read_error.

(** The loop of [read_from_client]: [Some eof] where it breaks, [None] where
    the function returns. *)
Fixpoint read_loop (rs : list read_result) : M (option bool) :=
  match rs with
  | [] => mret (Some false)
  | Read_data chunk :: rs' =>
      on_client (λ c, with_in (buffer_append (c_in c) chunk) c);;
      if (Z.of_nat (length chunk) <? READ_CHUNK)%Z then mret (Some false) else read_loop rs'
  | Read_eof :: _ => mret (Some true)
  | Read_eintr :: rs' => read_loop rs'
  | Read_again :: _ => mret (Some false)
  | Read_error :: _ => on_client (with_closed true);; mret None
  end.

Definition at_eof (c : Client) : Client :=
  let c := if bool_decide (is_Some (c_blocked_req c)) then with_closed true c else c in
  let c := with_close true c in
  if blen (c_out c) =? 0 then with_closed true c else c.

Definition read_from_client (rs : list read_result) : M () :=
  r ← read_loop rs;
  match r with
  | None => mret tt
  | Some eof => process_input;; if (eof : bool) then on_client at_eof else mret tt
  end.

(** ** Writing

    The results of [write]: [n >= 0] bytes taken, or [-1] with [errno]. *)
Inductive write_result :=
  | Write_sent (n : nat)
  | Write_eintr
  | Write_again
  | Write_error.

(** The loop of [write_to_client] from [sent]: the bytes sent, and whether the
    connection is to be closed. *)
Fixpoint write_loop (ws : list write_result) (len sent : nat) : nat * bool :=
  if len <=? sent then (sent, false)
  else match ws with
       | [] => (sent, false)
       | Write_sent n :: ws' => if 0 <? n then write_loop ws' len (sent + n) else (sent, true)
       | Write_eintr :: ws' => write_loop ws' len sent
       | Write_again :: _ => (sent, false)
       | Write_error :: _ => (sent, true)
       end.

(** The result is what the socket took. *)
Definition write_to_client (ws : list write_result) : M bytes :=
  c ← get_client;
  let '(sent, failed) := write_loop ws (blen (c_out c)) 0 in
  let wire := take sent (data (c_out c)) in
  let c := if failed then with_closed true c else c in
  let c := with_out (buffer_consume (c_out c) sent) c in
  let c := if c_close_after_reply c && (blen (c_out c) =? 0) then with_closed true c else c in
  set_client c;;
  mret wire.

End server.

End Server.
