(* ===== verification/ServerProps.v ===== *)
(** * What the event loop promises about input

    Handlers do not look at the input buffer ([LocalHandlers]); then how the
    bytes of a pipeline are split over reads makes no difference. *)

From S2P Require Import Prelude Util Reply Resp RespProps GeoCoord Config Store Txn Cmd Actions CmdString.
From S2P Require Import Commands CommandsProps Handlers Server.
Import Util Reply Resp RespProps Store Txn Cmd Actions Commands Server.

Module ServerProps.

Definition put_in (b : Buffer) (w : World) : World := upd_client (with_in b) w.
Definition in_data (w : World) : bytes := data (c_in (w_client w)).

(** An action that neither reads nor writes the input buffer. *)
Definition local {A} (m : M A) : Prop := ∀ b w,
  m (put_in b w) = match m w with Ret (a, w') => Ret (a, put_in b w') | Undef u => Undef u end.

(** What the event loop relies on. *)
Class LocalHandlers `{Handlers} : Prop := handler_local p ctx : local (handler p ctx).

(** ** Local actions *)

#[export] Instance local_pred : ActionPred (@local).
Proof.
  split; try done.
  - intros A B m f Q Hm HQ Hf b w. unfold mbind, M_bind. rewrite Hm. specialize (HQ w).
    destruct (m w) as [[a w']|u]; [|done]. eapply Hf; eauto.
  - intros A r b w. unfold lift. by destruct r.
  - intros A f b w. unfold STORE_r, mbind, M_bind, now_ms, get_store, lift, put_in, upd_client, tick. cbn.
    by destruct (f _ _ _).
Qed.

Lemma local_ret {A} (a : A) : local (mret a).
Proof. apply (pred_ret (P := @local)). Qed.

Lemma local_bind {A B} (m : M A) (f : A → M B) : local m → (∀ a, local (f a)) → local (m ≫= f).
Proof. apply (pred_seq (@local)). Qed.

Section dispatch.
Context `{LocalHandlers}.

Lemma command_process_local req : local (command_process req).
Proof. apply (Handlers.command_process_pred (@local) handler_local); done. Qed.

(** ** The loop without the buffer

    [drain] is the loop of [process_input] on the bytes themselves; its result
    is what is left of them. *)

Definition stopped (c : Client) : bool := bool_decide (is_Some (c_blocked_req c)) || c_close_after_reply c.

Fixpoint drain (fuel : nat) (d : bytes) : M bytes :=
  match fuel with
  | O => mret d
  | S f =>
      c ← get_client;
      if stopped c || (length d =? 0) then mret d
      else
        match resp_parse_command d with
        | RESP_PARSE_INCOMPLETE => mret d
        | RESP_PARSE_ERROR =>
            OUT (λ o, reply_error o #"ERR Protocol error");;
            on_client (with_close true);;
            mret d
        | RESP_UNDEF u => undef u
        | RESP_PARSE_OK (req, used) =>
            (if length (elements req) =? 0 then mret tt
             else r ← command_process req;
                  match r with
                  | CMD_RESULT_DONE | CMD_RESULT_QUEUED => mret tt
                  | CMD_RESULT_BLOCKED => on_client (with_blocked (Some req))
                  end);;
            drain f (drop used d)
        end
  end.

(** The effect of one accepted request. *)
Definition handle (req : RespValue) : M () :=
  if length (elements req) =? 0 then mret tt
  else r ← command_process req;
       match r with
       | CMD_RESULT_DONE | CMD_RESULT_QUEUED => mret tt
       | CMD_RESULT_BLOCKED => on_client (with_blocked (Some req))
       end.

Lemma handle_local req : local (handle req).
Proof.
  unfold handle. destruct (_ =? _); [apply local_ret|]. apply local_bind; [apply command_process_local|].
  by intros [].
Qed.

Lemma local_in {A} (m : M A) w a w' : local m → m w = Ret (a, w') → c_in (w_client w') = c_in (w_client w).
Proof.
  intros Hm Hw. pose proof (Hm (c_in (w_client w)) w) as Hl.
  assert (put_in (c_in (w_client w)) w = w) as Hid by (by destruct w as [? []]).
  rewrite Hid, Hw in Hl. injection Hl as Hl. by rewrite Hl.
Qed.

Lemma drain_S f d w :
  drain (S f) d w =
  if stopped (w_client w) || (length d =? 0) then Ret (d, w)
  else match resp_parse_command d with
       | RESP_PARSE_INCOMPLETE => Ret (d, w)
       | RESP_PARSE_ERROR =>
           Ret (d, upd_client (with_close true) (say (λ o, reply_error o #"ERR Protocol error") w))
       | RESP_UNDEF u => Undef u
       | RESP_PARSE_OK (req, used) =>
           match handle req w with Ret (_, w') => drain f (drop used d) w' | Undef u => Undef u end
       end.
Proof.
  cbn [drain]. mstep. destruct (stopped (w_client w) || (length d =? 0)); [done|].
  by destruct (resp_parse_command d) as [[req used]| | |u].
Qed.

Lemma loop_S f pos w :
  process_loop (S f) pos w =
  if stopped (w_client w) || (length (in_data w) <=? pos) then Ret (pos, w)
  else match resp_parse_command (drop pos (in_data w)) with
       | RESP_PARSE_INCOMPLETE => Ret (pos, w)
       | RESP_PARSE_ERROR =>
           Ret (pos, upd_client (with_close true) (say (λ o, reply_error o #"ERR Protocol error") w))
       | RESP_UNDEF u => Undef u
       | RESP_PARSE_OK (req, used) =>
           match handle req w with Ret (_, w') => process_loop f (pos + used) w' | Undef u => Undef u end
       end.
Proof.
  cbn [process_loop]. mstep. fold (stopped (w_client w)). fold (in_data w). unfold blen. fold (in_data w).
  destruct (stopped (w_client w) || (length (in_data w) <=? pos)); [done|].
  destruct (resp_parse_command _) as [[req used]| | |u]; [|done..].
  unfold handle. destruct (_ =? _); [done|]. unfold mbind, M_bind.
  destruct (command_process req w) as [[[] w']|]; done.
Qed.

(** An accepted request uses at least one byte and no more than there are. *)
Lemma parse_used d req used : resp_parse_command d = RESP_PARSE_OK (req, used) → 0 < used ≤ length d.
Proof. intros Hp. pose proof (resp_parse_command_safe_aux d) as Hs. by rewrite Hp in Hs. Qed.

Lemma loop_drain f pos w :
  pos ≤ length (in_data w) →
  process_loop f pos w =
  match drain f (drop pos (in_data w)) w with
  | Ret (rest, w') => Ret (length (in_data w) - length rest, w')
  | Undef u => Undef u
  end.
Proof.
  revert pos w. induction f as [|f IH]; intros pos w Hpos.
  { cbn. rewrite length_drop. by replace (_ - (_ - pos)) with pos by lia. }
  rewrite loop_S, drain_S, length_drop.
  assert ((length (in_data w) - pos =? 0) = (length (in_data w) <=? pos)) as ->
    by (destruct (Nat.eqb_spec (length (in_data w) - pos) 0), (Nat.leb_spec (length (in_data w)) pos); lia).
  destruct (_ || _); [rewrite length_drop; by replace (_ - (_ - pos)) with pos by lia|].
  destruct (resp_parse_command (drop pos (in_data w))) as [[req used]| | |u] eqn:Hp;
    [|rewrite length_drop; by replace (_ - (_ - pos)) with pos by lia..|done].
  apply parse_used in Hp. rewrite length_drop in Hp.
  destruct (handle req w) as [[[] w']|u] eqn:Hh; [|done].
  apply local_in in Hh; [|apply handle_local]. assert (in_data w' = in_data w) as Hin by (unfold in_data; by rewrite Hh).
  rewrite IH, Hin, drop_drop by (rewrite Hin; lia). done.
Qed.

Lemma drain_fuel f f' d w : length d < f → length d < f' → drain f d w = drain f' d w.
Proof.
  revert f' d w. induction f as [|f IH]; intros [|f'] d w Hf Hf'; [lia..|].
  rewrite !drain_S. destruct (_ || _); [done|].
  destruct (resp_parse_command d) as [[req used]| | |u] eqn:Hp; [|done..]. apply parse_used in Hp.
  destruct (handle req w) as [[_ w']|]; [|done]. apply IH; rewrite length_drop; lia.
Qed.

(** Draining what arrived first and then the rest with what arrived later is
    draining everything at once. *)
Lemma drain_app f f' f'' a b w rest w1 :
  length a < f → length (a ++ b) < f' → length (rest ++ b) < f'' →
  drain f a w = Ret (rest, w1) → c_close_after_reply (w_client w1) = false →
  drain f'' (rest ++ b) w1 = drain f' (a ++ b) w.
Proof.
  revert f' a w. induction f as [|f IH]; intros f' a w Hf Hf' Hf''; [lia|]. rewrite drain_S.
  assert (∀ w0, Ret (a, w) = Ret (rest, w0) → drain f'' (rest ++ b) w0 = drain f' (a ++ b) w) as Hsame.
  { intros w0 [= -> ->]. by apply drain_fuel. }
  destruct (stopped (w_client w) || (length a =? 0)) eqn:Hst; [by intros ?%Hsame|].
  apply orb_false_iff in Hst as [Hst Ha]. apply Nat.eqb_neq in Ha.
  destruct (resp_parse_command a) as [[req used]| | |u] eqn:Hp; [|by intros ?%Hsame| |done].
  - pose proof (parse_used _ _ _ Hp) as Hu. destruct f' as [|f']; [lia|]. rewrite (drain_S f' (a ++ b)), Hst.
    rewrite length_app in Hf' |- *. destruct (Nat.eqb_spec (length a + length b) 0); [lia|]. cbn [orb].
    pose proof (resp_parse_command_extends a b) as He. rewrite Hp in He. cbn [extends] in He. rewrite He.
    destruct (handle req w) as [[_ w']|]; [|done]. rewrite drop_app_le by lia. intros Hd Hc.
    apply IH; [rewrite length_drop; lia|rewrite length_app, length_drop; lia|done..].
  - by intros [= _ <-].
Qed.

Lemma drain_local f d : local (drain f d).
Proof.
  revert d. induction f as [|f IH]; intros d b w; [done|]. rewrite !drain_S.
  change (stopped (w_client (put_in b w))) with (stopped (w_client w)).
  destruct (_ || _); [done|]. destruct (resp_parse_command d) as [[req used]| | |u]; [|done..].
  rewrite (handle_local req b w). destruct (handle req w) as [[[] w']|]; [apply IH|done].
Qed.

Lemma drain_suffix f d w rest w' : drain f d w = Ret (rest, w') → drop (length d - length rest) d = rest.
Proof.
  revert d w. induction f as [|f IH]; intros d w.
  { intros [= -> _]. by rewrite Nat.sub_diag. }
  rewrite drain_S. assert (∀ x, Ret (d, x) = Ret (rest, w') → drop (length d - length rest) d = rest) as Hsame
    by (intros x [= -> _]; by rewrite Nat.sub_diag).
  destruct (_ || _); [apply Hsame|].
  destruct (resp_parse_command d) as [[req used]| | |u] eqn:Hp; [|apply Hsame..|done].
  apply parse_used in Hp. destruct (handle req w) as [[_ w2]|]; [|done]. intros Hd.
  apply IH in Hd. rewrite length_drop, drop_drop in Hd.
  assert (length rest ≤ length d - used) as Hle by (rewrite <- Hd, length_drop; lia).
  by replace (length d - length rest) with (used + (length d - used - length rest)) by lia.
Qed.

(** The limit on what may stay in the input buffer. *)
Definition check_limit (rest : bytes) (w : World) : World :=
  if (CLIENT_MAX_QUERY_BUF <? Z.of_nat (length rest))%Z
  then upd_client (with_close true) (say (λ o, reply_error o #"ERR Protocol error: request too large") w)
  else w.

Lemma process_input_spec w :
  let d := in_data w in
  match drain (S (length d)) d w with
  | Ret (rest, w') => ∃ b, data b = rest ∧ process_input w = Ret (tt, check_limit rest (put_in b w'))
  | Undef u => process_input w = Undef u
  end.
Proof.
  intros d. unfold process_input. mstep. unfold blen. fold (in_data w). fold d.
  pose proof (loop_drain (S (length d)) 0 w ltac:(lia)) as Hl. fold d in Hl. rewrite drop_0 in Hl.
  destruct (drain (S (length d)) d w) as [[rest w1]|u] eqn:Hdr; [|by apply bind_undef].
  rewrite (bind_run _ _ _ _ _ Hl). pose proof (local_in _ _ _ _ (drain_local _ _) Hdr) as Hin.
  exists (buffer_consume (c_in (w_client w1)) (length d - length rest)).
  assert (data (buffer_consume (c_in (w_client w1)) (length d - length rest)) = rest) as Hr.
  { rewrite buffer_consume_data, Hin. by eapply drain_suffix. }
  split; [exact Hr|]. mstep. mstep. unfold check_limit. rewrite <- Hr at 2. unfold blen.
  change (c_in (w_client (upd_client _ w1))) with (buffer_consume (c_in (w_client w1)) (length d - length rest)).
  rewrite Hr. by destruct (_ <? _)%Z.
Qed.

(** ** Reading *)

(** What a run of the read loop brings in, and how it ends. *)
Fixpoint outcome (rs : list read_result) : bytes * option bool :=
  match rs with
  | [] => ([], Some false)
  | Read_data chunk :: rs' =>
      if (Z.of_nat (length chunk) <? READ_CHUNK)%Z then (chunk, Some false)
      else (chunk ++ (outcome rs').1, (outcome rs').2)
  | Read_eof :: _ => ([], Some true)
  | Read_eintr :: rs' => outcome rs'
  | Read_again :: _ => ([], Some false)
  | Read_error :: _ => ([], None)
  end.

(** Two worlds that differ at most in the allocation of the input buffer. *)
Definition same_input (x y : World) : Prop := in_data x = in_data y ∧ put_in buffer_init x = put_in buffer_init y.

Lemma put_in_id w : put_in (c_in (w_client w)) w = w.
Proof. by destruct w as [? []]. Qed.

Lemma read_loop_spec rs w :
  ∃ b, data b = in_data w ++ (outcome rs).1 ∧
    read_loop rs w = Ret ((outcome rs).2,
      match (outcome rs).2 with
      | None => upd_client (with_closed true) (put_in b w)
      | Some _ => put_in b w
      end).
Proof.
  revert w. induction rs as [|[chunk| | | |] rs IH]; intros w; cbn [read_loop outcome].
  1,3,5: exists (c_in (w_client w)); cbn; by rewrite app_nil_r, put_in_id.
  - rewrite (bind_run _ _ w tt (put_in (buffer_append (c_in (w_client w)) chunk) w)) by done.
    destruct (_ <? _)%Z; [by exists (buffer_append (c_in (w_client w)) chunk)|].
    destruct (IH (put_in (buffer_append (c_in (w_client w)) chunk) w)) as (b & Hb & ->).
    exists b. split; [rewrite Hb; cbn; by rewrite <- app_assoc|]. by destruct (outcome rs).2.
  - apply IH.
  - exists (c_in (w_client w)). cbn. by rewrite app_nil_r, put_in_id.
Qed.

Lemma at_eof_put_in b w : upd_client at_eof (put_in b w) = put_in b (upd_client at_eof w).
Proof.
  destruct w as [? [? [[] ?] ? [] ? ? ?] ? ? ?]; reflexivity.
Qed.

Lemma same_input_eof x y : same_input x y → same_input (upd_client at_eof x) (upd_client at_eof y).
Proof.
  assert (∀ z, in_data (upd_client at_eof z) = in_data z) as Hin.
  { intros []. unfold in_data, upd_client, at_eof. cbn. by repeat case_match. }
  intros [Hd Hp]. split; [by rewrite !Hin|]. by rewrite <- !at_eof_put_in, Hp.
Qed.

(** Running the requests of [d] after those of a prefix of it. *)
Lemma process_input_split a b ba bb bab w w1 :
  data ba = in_data w ++ a → process_input (put_in ba w) = Ret (tt, w1) →
  c_close_after_reply (w_client w1) = false →
  data bb = in_data w1 ++ b → data bab = in_data w ++ a ++ b →
  match process_input (put_in bb w1), process_input (put_in bab w) with
  | Ret (_, x), Ret (_, y) => same_input x y
  | Undef u, Undef v => u = v
  | _, _ => False
  end.
Proof.
  intros Hba Ha Hc Hbb Hbab. pose proof (process_input_spec (put_in ba w)) as Fa. cbv zeta in Fa.
  change (in_data (put_in ba w)) with (data ba) in Fa. rewrite drain_local in Fa.
  destruct (drain (S (length (data ba))) (data ba) w) as [[rest w']|u] eqn:Hd; [|by rewrite Fa in Ha].
  destruct Fa as (ca & Hca & Fa). rewrite Fa in Ha. injection Ha as <-. unfold check_limit in *.
  destruct (_ <? _)%Z; [done|]. change (in_data (put_in ca (put_in ba w'))) with (data ca) in Hbb.
  pose proof (process_input_spec (put_in bb (put_in ca (put_in ba w')))) as Fb. cbv zeta in Fb.
  change (put_in bb (put_in ca (put_in ba w'))) with (put_in bb w') in *.
  change (in_data (put_in bb w')) with (data bb) in Fb. rewrite drain_local, Hbb, Hca in Fb.
  pose proof (process_input_spec (put_in bab w)) as Fab. cbv zeta in Fab.
  change (in_data (put_in bab w)) with (data bab) in Fab.
  rewrite drain_local, Hbab, app_assoc, <- Hba in Fab.
  rewrite <- (drain_app (S (length (data ba))) (S (length (data ba ++ b))) (S (length (rest ++ b))) (data ba) b w rest w'
    ltac:(lia) ltac:(lia) ltac:(lia) Hd Hc) in Fab.
  destruct (drain (S (length (rest ++ b))) (rest ++ b) w') as [[rest' x]|u]; [|by rewrite Fb, Fab].
  destruct Fb as (b1 & Hb1 & ->), Fab as (b2 & Hb2 & ->). unfold check_limit.
  destruct (_ <? _)%Z; (split; [|done]); unfold in_data; cbn; congruence.
Qed.

(** C6: how the bytes of a connection are split over wake-ups and [read] calls
    makes no difference, as long as the connection stays open: if the reads [rs1]
    leave it open (no protocol error, in particular no request over the limit of
    the input buffer, no end of input and no socket error: neither
    [close_after_reply] nor [closed] is set), then the reads [rs2] afterwards
    give the same store, replies, transaction, blocking and closing state and
    leftover input as any reads [rs] from the start that bring in the same bytes
    and end like [rs2], undefined behaviour included.  The reads [rs2] must not
    end in a socket error: after one the function returns without looking at the
    input. *)
Theorem read_split (rs1 rs2 rs : list read_result) (w w1 : World) :
  outcome rs = ((outcome rs1).1 ++ (outcome rs2).1, (outcome rs2).2) → (outcome rs2).2 ≠ None →
  read_from_client rs1 w = Ret (tt, w1) →
  c_close_after_reply (w_client w1) = false → c_closed (w_client w1) = false →
  match read_from_client rs2 w1, read_from_client rs w with
  | Ret (_, x), Ret (_, y) => same_input x y
  | Undef u, Undef v => u = v
  | _, _ => False
  end.
Proof.
  intros Hrs Hend H1 Hc Hcl. unfold read_from_client in *.
  destruct (read_loop_spec rs1 w) as (ba & Hba & E1), (read_loop_spec rs2 w1) as (bb & Hbb & E2),
    (read_loop_spec rs w) as (bab & Hbab & E).
  rewrite Hrs in Hbab, E. cbn [fst snd] in Hbab, E.
  rewrite (bind_run _ _ _ _ _ E1) in H1. rewrite (bind_run _ _ _ _ _ E2), (bind_run _ _ _ _ _ E). clear E1 E2 E.
  destruct (outcome rs1).2 as [[]|]; cbv beta iota in H1.
  - exfalso. unfold mbind, M_bind in H1. destruct (process_input _) as [[[] w2]|]; [|done].
    injection H1 as <-. revert Hc. cbn. unfold at_eof. by repeat case_match.
  - unfold mbind, M_bind in H1. destruct (process_input (put_in ba w)) as [[[] w2]|] eqn:Hp; [|done].
    injection H1 as ->. pose proof (process_input_split _ _ _ _ _ _ _ Hba Hp Hc Hbb Hbab) as Hs.
    destruct (outcome rs2).2 as [eof|]; [|done]. unfold mbind, M_bind.
    destruct (process_input (put_in bb w1)) as [[[] x]|u], (process_input (put_in bab w)) as [[[] y]|v]; try done.
    destruct eof; [by apply same_input_eof|done].
  - by injection H1 as <-.
Qed.

End dispatch.

(** ** The handlers are local *)

#[export] Instance pulse_handlers_local `{Fnmatch : CmdString.Fnmatch, Libm : GeoCoord.Libm} (cfg : Config.Config) :
  @LocalHandlers (Handlers.pulse_handlers cfg).
Proof. intros p ctx. apply (Handlers.handlers_pred (@local)). Qed.

#[export] Instance demo_handlers_local : @LocalHandlers Handlers.demo_handlers.
Proof. apply _. Qed.

Lemma read_split_witness :
  let a := #"INCR n" ++ [LF] ++ #"INC" in let b := #"R n" ++ [LF] in
  let rs1 := [Read_eintr; Read_data a] in let rs2 := [Read_data b; Read_again] in
  ∃ w1, read_from_client (H := Handlers.demo_handlers) rs1 CommandsProps.demo_world = Ret (tt, w1) ∧
    c_close_after_reply (w_client w1) = false ∧ c_closed (w_client w1) = false ∧
    match read_from_client (H := Handlers.demo_handlers) rs2 w1,
          read_from_client (H := Handlers.demo_handlers) [Read_data (a ++ b)] CommandsProps.demo_world with
    | Ret (_, x), Ret (_, y) => same_input x y
    | Undef u, Undef v => u = v
    | _, _ => False
    end.
Proof.
  set (r := read_from_client (H := Handlers.demo_handlers)
    [Read_eintr; Read_data (#"INCR n" ++ [LF] ++ #"INC")] CommandsProps.demo_world).
  assert (∃ w1, r = Ret (tt, w1) ∧ c_close_after_reply (w_client w1) = false ∧ c_closed (w_client w1) = false)
    as (w1 & Hr & Hc & Hcl) by (eexists; split; [vm_compute; reflexivity|by split]).
  exists w1. split; [exact Hr|]. split; [exact Hc|]. split; [exact Hcl|].
  refine (read_split [Read_eintr; Read_data (#"INCR n" ++ [LF] ++ #"INC")] [Read_data (#"R n" ++ [LF]); Read_again]
    [Read_data ((#"INCR n" ++ [LF] ++ #"INC") ++ #"R n" ++ [LF])] CommandsProps.demo_world w1 _ _ Hr Hc Hcl).
  - vm_compute. reflexivity.
  - vm_compute. discriminate.
Defined.

End ServerProps.
