(* ===== verification/ServerOut.v ===== *)
(** * What the event loop promises about output

    Handlers only append to the output buffer and never look at it
    ([AppendHandlers]); then when the pending replies are sent makes no
    difference to anything the connection computes, and the bytes on the wire
    followed by the bytes still pending are the replies in the order in which
    they were produced. *)

From S2P Require Import Prelude CLib Util Reply Resp GeoCoord Config Store Txn Cmd Actions CmdString.
From S2P Require Import Commands CommandsProps Handlers Server ServerProps.
Import Util Reply Resp Store Txn Cmd Actions Commands Server ServerProps.

Module ServerOut.

Definition out_data (w : World) : bytes := data (c_out (w_client w)).

(** ** Worlds that differ in what was sent

    [ahead p x y]: in [x] the bytes [p] have left the output buffer, in [y] they
    are still at its front; the allocation of the buffer and the flag [closed]
    may differ too. *)
Definition ahead (p : bytes) (x y : World) : Prop :=
  ∃ o z, data o = p ++ out_data x ∧ y = upd_client (λ c, with_closed z (with_out o c)) x.

(** The results of the same action in two worlds. *)
Definition res_rel {A} (R : World → World → Prop) (r r' : res (A * World)) : Prop :=
  match r, r' with
  | Ret (a, x), Ret (a', y) => a = a' ∧ R x y
  | Undef u, Undef v => u = v
  | _, _ => False
  end.

(** An action that only appends to the output. *)
Definition out_local {A} (m : M A) : Prop := ∀ p x y, ahead p x y → res_rel (ahead p) (m x) (m y).

Class AppendHandlers `{Handlers} : Prop := handler_append p ctx : out_local (handler p ctx).

(** ** Actions that only append *)

(** A change of the client that leaves the output alone. *)
Lemma out_on_client f :
  (∀ c, c_out (f c) = c_out c) → (∀ c o z, f (with_closed z (with_out o c)) = with_closed z (with_out o (f c))) →
  out_local (on_client f).
Proof.
  intros Hf Hc p x y (o & z & Ho & ->). split; [done|]. exists o, z. split.
  - unfold out_data. cbn. by rewrite Hf.
  - unfold upd_client. cbn. by rewrite Hc.
Qed.

#[export] Instance out_pred : ActionPred (@out_local).
Proof.
  assert (∀ A (m : M A) (f : World → A) (g : World → World), (∀ w, m w = Ret (f w, g w)) →
    (∀ c w, f (upd_client c w) = f w) → (∀ c w, g (upd_client c w) = upd_client c (g w)) →
    (∀ w, w_client (g w) = w_client w) → out_local m) as Hfun.
  { intros A m f g Hm Hf Hg Hc p x y (o & z & Ho & ->). rewrite !Hm, Hf, Hg. split; [done|]. exists o, z.
    split; [|done]. unfold out_data. by rewrite Hc. }
  split.
  - by intros A a p x y Hxy.
  - intros A B m f Q Hm HQ Hf p x y Hxy. specialize (Hm p x y Hxy). unfold mbind, M_bind. specialize (HQ x).
    destruct (m x) as [[a x']|u], (m y) as [[a' y']|v]; try done. destruct Hm as [-> Hxy']. eapply Hf; eauto.
  - intros A r p x y Hxy. unfold lift. by destruct r.
  - intros f [d Hd] p x y (o & z & Ho & ->). split; [done|]. exists (f o), z. split; [|done].
    unfold out_data. cbn. by rewrite !Hd, Ho, app_assoc.
  - by apply (Hfun _ _ (λ w, w_now w (w_reads w)) tick).
  - by apply (Hfun _ _ (λ w, w_mono w (w_reads w)) tick).
  - intros A f. by apply (Hfun _ _ (λ w, (f (w_store w) (w_now w (w_reads w))).2)
      (λ w, put_store (f (w_store w) (w_now w (w_reads w))).1 (tick w))).
  - intros A f p x y (o & z & Ho & ->). unfold STORE_r, mbind, M_bind, now_ms, get_store, lift, upd_client, tick. cbn.
    destruct (f _ _ _); [|done]. split; [done|]. by exists o, z.
  - intros p x y (o & z & Ho & ->). split; [done|]. by exists o, z.
  - intros d. by apply (out_on_client (with_deadline d)).
Qed.

Lemma out_ret {A} (a : A) : out_local (mret a).
Proof. apply (pred_ret (P := @out_local)). Qed.

Lemma out_bind {A B} (m : M A) (f : A → M B) : out_local m → (∀ a, out_local (f a)) → out_local (m ≫= f).
Proof. apply (pred_seq (@out_local)). Qed.

Lemma out_get_txn : out_local get_txn.
Proof. intros p x y (o & z & Ho & ->). split; [done|]. by exists o, z. Qed.

Lemma out_set_txn t : out_local (set_txn t).
Proof. by apply (out_on_client (with_txn t)). Qed.

Section dispatch.
Context `{AppendHandlers}.

Lemma command_process_out req : out_local (command_process req).
Proof. apply (Handlers.command_process_pred (@out_local) handler_append); [apply out_get_txn|apply out_set_txn]. Qed.

Lemma handle_out req : out_local (handle req).
Proof.
  unfold handle. destruct (_ =? _); [apply out_ret|]. apply out_bind; [apply command_process_out|].
  intros []; [apply out_ret|by apply out_on_client|apply out_ret].
Qed.

Lemma process_loop_out f pos : out_local (process_loop f pos).
Proof.
  revert pos. induction f as [|f IH]; intros pos; [apply out_ret|]. intros p x y Hxy. rewrite !loop_S.
  assert (stopped (w_client y) = stopped (w_client x) ∧ in_data y = in_data x) as [-> ->]
    by (by destruct Hxy as (o & z & Ho & ->)).
  destruct (_ || _); [done|]. destruct (resp_parse_command _) as [[req used]| | |u]; [|done| |done].
  - pose proof (handle_out req p x y Hxy) as Hh.
    destruct (handle req x) as [[[] x']|u], (handle req y) as [[[] y']|v]; try done. by apply IH, Hh.
  - pose proof (out_bind (OUT (λ o, reply_error o #"ERR Protocol error")) (λ _, on_client (with_close true))
      (pred_OUT (P := @out_local) _ (appends_error _)) (λ _, out_on_client (with_close true) (λ _, eq_refl) (λ _ _ _, eq_refl)) p x y Hxy)
      as [_ Ha]. by split.
Qed.

Lemma on_in_out (f : Buffer → Buffer) : out_local (on_client (λ c, with_in (f (c_in c)) c)).
Proof. by apply out_on_client. Qed.

Lemma process_input_out : out_local process_input.
Proof.
  assert (∀ A (f : nat → M A), (∀ n, out_local (f n)) → out_local (c ← get_client; f (blen (c_in c)))) as Hget.
  { intros A f Hf p x y Hxy. unfold mbind, M_bind, get_client.
    assert (c_in (w_client y) = c_in (w_client x)) as -> by (by destruct Hxy as (o & z & Ho & ->)). by apply Hf. }
  apply (Hget ()%type (λ n, pos ← process_loop (S n) 0; _)). intros n. apply out_bind; [apply process_loop_out|]. intros pos.
  apply out_bind; [apply (on_in_out (λ b, buffer_consume b pos))|]. intros _.
  apply (Hget ()%type (λ n, if (CLIENT_MAX_QUERY_BUF <? Z.of_nat n)%Z then _ else _)). intros k.
  destruct (_ <? _)%Z; action_tac. by apply out_on_client.
Qed.

Lemma read_loop_out rs : out_local (read_loop rs).
Proof.
  induction rs as [|[chunk| | | |] rs IH]; cbn [read_loop]; action_tac; [apply (on_in_out (λ b, buffer_append b chunk))|].
  intros p x y (o & z & Ho & ->). split; [done|]. by exists o, true.
Qed.

(** At end of input, only [closed] depends on what is pending. *)
Lemma at_eof_out : out_local (on_client at_eof).
Proof.
  intros p x y (o & z & Ho & ->). split; [done|].
  exists o, (c_closed (at_eof (with_closed z (with_out o (w_client x))))).
  destruct x as [? [? ? ? blk ? ? ?] ? ? ?]. unfold at_eof, upd_client, out_data in *. cbn in *.
  split; [by repeat case_match|]. by repeat case_match.
Qed.

Lemma read_from_client_out rs : out_local (read_from_client rs).
Proof.
  unfold read_from_client. apply out_bind; [apply read_loop_out|]. intros [eof|]; [|apply out_ret].
  apply out_bind; [apply process_input_out|]. intros _. destruct eof; [apply at_eof_out|apply out_ret].
Qed.

(** ** Sending *)

Lemma ahead_trans p q x y z : ahead p x y → ahead q y z → ahead (q ++ p) x z.
Proof.
  intros (o & b & Ho & ->) (o' & b' & Ho' & ->). exists o', b'. split; [|done].
  rewrite Ho'. unfold out_data at 1. cbn. by rewrite Ho, app_assoc.
Qed.

Lemma ahead_nil x : ahead [] x x.
Proof. exists (c_out (w_client x)), (c_closed (w_client x)). split; [done|]. by destruct x as [? [] ? ? ?]. Qed.

(** What the socket took has left the front of the buffer. *)
Lemma write_to_client_ahead ws w : ∃ wire x, write_to_client ws w = Ret (wire, x) ∧ ahead wire x w.
Proof.
  unfold write_to_client. mstep. destruct (write_loop ws _ 0) as [sent failed]. cbv zeta.
  eexists _, _. split; [reflexivity|]. exists (c_out (w_client w)), (c_closed (w_client w)).
  destruct w as [? [? ? ? ? ? ? ?] ? ? ?]. unfold out_data, upd_client. cbn. split.
  - assert (∀ (b : bool) z c, c_out (if b then with_closed z c else c) = c_out c) as -> by by intros [].
    cbn. rewrite buffer_consume_data. by destruct failed; cbn; rewrite take_drop.
  - by destruct failed; cbn; case_match.
Qed.

(** What happens to a connection: the socket became readable, or was offered
    the pending replies. *)
Inductive event :=
  | Ev_read (rs : list read_result)
  | Ev_write (ws : list write_result).

Definition is_read (e : event) : bool := match e with Ev_read _ => true | Ev_write _ => false end.

(** The result is what went over the wire. *)
Fixpoint run_events (evs : list event) : M bytes :=
  match evs with
  | [] => mret []
  | Ev_read rs :: evs' => read_from_client rs;; run_events evs'
  | Ev_write ws :: evs' => wire ← write_to_client ws; rest ← run_events evs'; mret (wire ++ rest)
  end.

Lemma run_events_ahead evs p w w' :
  ahead p w w' →
  match run_events evs w, run_events (filter is_read evs) w' with
  | Ret (wire, x), Ret (_, y) => ahead (p ++ wire) x y
  | Undef u, Undef v => u = v
  | _, _ => False
  end.
Proof.
  revert p w w'. induction evs as [|[rs|ws] evs IH]; intros p w w' Hw.
  - cbn. by rewrite app_nil_r.
  - rewrite filter_cons_True by done. cbn [run_events]. pose proof (read_from_client_out rs p w w' Hw) as Hr.
    unfold mbind, M_bind.
    destruct (read_from_client rs w) as [[[] x]|u], (read_from_client rs w') as [[[] y]|v]; try done. by apply IH, Hr.
  - rewrite filter_cons_False by (by intros []). cbn [run_events].
    destruct (write_to_client_ahead ws w) as (wire & x & Hx & Hxw). mstep.
    specialize (IH _ _ _ (ahead_trans _ _ _ _ _ Hxw Hw)). unfold mbind at 1, M_bind at 1.
    destruct (run_events evs x) as [[rest x']|u], (run_events (filter is_read evs) w') as [[wire' y]|v]; try done.
    cbn. by rewrite app_assoc.
Qed.

(** C7: replies reach the peer complete and in order, however sending is
    interleaved with reading: after any sequence of reads and (partial,
    interrupted, failed) writes, the bytes sent followed by the bytes still
    pending are exactly the replies the same reads produce when nothing is ever
    sent, and apart from the output buffer and the flag [closed] the store and
    the connection are the same. *)
Theorem replies_in_order (evs : list event) (w : World) :
  match run_events evs w, run_events (filter is_read evs) w with
  | Ret (wire, x), Ret (_, y) =>
      out_data y = wire ++ out_data x ∧
      ∃ o z, y = upd_client (λ c, with_closed z (with_out o c)) x
  | Undef u, Undef v => u = v
  | _, _ => False
  end.
Proof.
  pose proof (run_events_ahead evs [] w w (ahead_nil w)) as Hr.
  destruct (run_events evs w) as [[wire x]|u], (run_events (filter is_read evs) w) as [[wire' y]|v]; try done.
  destruct Hr as (o & z & Ho & ->). by split; [|exists o, z].
Qed.

(** A socket that is never not ready and takes at least [n] bytes. *)
Fixpoint takes (ws : list write_result) (n : nat) : bool :=
  match ws with
  | [] => n =? 0
  | Write_sent k :: ws' => (0 <? k) && takes ws' (n - k) || (n =? 0)
  | Write_eintr :: ws' => takes ws' n
  | (Write_again | Write_error) :: _ => n =? 0
  end.

Lemma write_loop_takes ws len sent :
  takes ws (len - sent) = true → ∃ sent', len ≤ sent' ∧ write_loop ws len sent = (sent', false).
Proof.
  revert sent. induction ws as [|[k| | |] ws IH]; intros sent; cbn [takes write_loop];
    destruct (Nat.leb_spec len sent) as [Hle|Hlt]; try (intros _; by eexists);
    assert ((len - sent =? 0) = false) as Hn by (apply Nat.eqb_neq; lia); rewrite ?Hn; try done.
  - rewrite orb_false_r. destruct (0 <? k); [|done]. cbn [andb].
    replace (len - sent - k) with (len - (sent + k)) by lia. apply IH.
  - apply IH.
Qed.

(** Such a socket gets all that is pending. *)
Lemma write_to_client_takes ws w :
  takes ws (length (out_data w)) = true →
  ∃ x, write_to_client ws w = Ret (out_data w, x) ∧ out_data x = [] ∧
    (c_close_after_reply (w_client w) = true → c_closed (w_client x) = true) ∧ w_store x = w_store w.
Proof.
  intros Ht. destruct (write_loop_takes ws (length (out_data w)) 0) as (sent & Hs & Hw); [by rewrite Nat.sub_0_r|].
  unfold write_to_client. mstep. unfold blen at 1. fold (out_data w). rewrite Hw.
  eexists. split; [unfold mbind, M_bind; cbn; by rewrite take_ge|]. cbn.
  assert (blen (buffer_consume (c_out (w_client w)) sent) = 0) as Hb
    by (unfold blen; rewrite buffer_consume_data, length_drop; unfold out_data in Hs; lia).
  rewrite Hb. split; [|by destruct (c_close_after_reply (w_client w))]. unfold out_data. cbn.
  destruct (_ && _); by apply length_zero_iff_nil.
Qed.

End dispatch.

(** ** The handlers only append *)

#[export] Instance pulse_handlers_append `{Fnmatch : CmdString.Fnmatch, Libm : GeoCoord.Libm} (cfg : Config.Config) :
  @AppendHandlers (Handlers.pulse_handlers cfg).
Proof. intros p ctx. apply (Handlers.handlers_pred (@out_local)). Qed.

#[export] Instance demo_handlers_append : @AppendHandlers Handlers.demo_handlers.
Proof. apply _. Qed.

(** Two commands, the first reply sent in two parts. *)
Definition demo_events : list event :=
  [Ev_read [Read_data (#"SET k hello" ++ [LF])]; Ev_write [Write_sent 2; Write_again];
   Ev_read [Read_data (#"GET k" ++ [LF])]; Ev_write [Write_eintr; Write_sent 5]].

Lemma replies_in_order_witness :
  match run_events (H := Handlers.demo_handlers) demo_events CommandsProps.demo_world,
        run_events (H := Handlers.demo_handlers) (filter is_read demo_events) CommandsProps.demo_world with
  | Ret (wire, x), Ret (_, y) =>
      out_data y = wire ++ out_data x ∧ ∃ o z, y = upd_client (λ c, with_closed z (with_out o c)) x
  | Undef u, Undef v => u = v
  | _, _ => False
  end ∧
  match run_events (H := Handlers.demo_handlers) demo_events CommandsProps.demo_world with
  | Ret (wire, x) => wire = #"+OK" ++ CRLF ++ #"$5" ∧ out_data x = CRLF ++ #"hello" ++ CRLF
  | Undef _ => False
  end.
Proof.
  split; [exact (replies_in_order (H := Handlers.demo_handlers) demo_events CommandsProps.demo_world)|].
  vm_compute. split; reflexivity.
Defined.

End ServerOut.
