(* ===== verification/OneReply.v ===== *)
(** * Every command answers exactly once

    [replies n t]: the text [t] is [n] complete RESP replies, arrays with as
    many elements as their header says.  [emits] is a Hoare-style rule for
    handlers: run in a world whose store is well formed, the action keeps the
    store well formed and appends a text that satisfies its postcondition.  With
    it every handler of the table is shown to write exactly one reply, or none
    if it parks the client, and the dispatcher to do so for any request. *)

From S2P Require Import Prelude CLib Util Reply Resp FieldHash DList Dbl DblText DblTextProps DblArith ZSet Stream.
From S2P Require Import Store StoreInv StoreSpec StoreRefine StoreProps GeoCoord Config Txn Cmd CmdProps.
From S2P Require Import CmdString CmdList CmdHash CmdZset CmdStream CmdServer Commands CommandsProps Handlers Server ServerProps ServerOut.
Import Util Reply Resp FieldHash DList Dbl DblText DblTextProps DblArith ZSet Stream Store StoreInv StoreSpec StoreRefine.
Import GeoCoord Config Txn Cmd Commands Server ServerOut.

Module OneReply.

(** ** Replies *)

(** A reply that is not an array of other replies. *)
Inductive atom : bytes → Prop :=
| atom_simple s : CR ∉ s → LF ∉ s → atom (enc_simple s)
| atom_error s : atom (enc_error s)
| atom_integer z : atom (enc_integer z)
| atom_bulk s : atom (enc_bulk s)
| atom_null : atom enc_null
| atom_null_array : atom enc_null_array.

Inductive replies : nat → bytes → Prop :=
| replies_nil : replies 0 []
| replies_atom a n t : atom a → replies n t → replies (S n) (a ++ t)
| replies_array k n u t : replies k u → replies n t → replies (S n) (enc_array_header k ++ u ++ t).

Lemma replies_app n m t u : replies n t → replies m u → replies (n + m) (t ++ u).
Proof.
  intros Ht Hu. induction Ht as [|a n t Ha _ IH|k n x t Hx _ _ IH]; [done|..]; cbn [Nat.add]; rewrite <- ?app_assoc.
  - by apply replies_atom.
  - by apply replies_array.
Qed.

Lemma replies_one a : atom a → replies 1 a.
Proof. intros Ha. rewrite <- (app_nil_r a). apply replies_atom; [done|constructor]. Qed.

Lemma replies_wrap k t : replies k t → replies 1 (enc_array_header k ++ t).
Proof. intros Ht. rewrite <- (app_nil_r t). apply replies_array; [done|constructor]. Qed.

Create HintDb replies discriminated.
#[export] Hint Constructors atom : replies.
#[export] Hint Resolve replies_nil replies_one replies_wrap : replies.

(** [f] appends [k] replies, whatever the buffer holds. *)
Definition writes (k : nat) (f : Buffer → Buffer) : Prop :=
  ∃ u, replies k u ∧ ∀ o, data (f o) = data o ++ u.

Lemma writes_atom f a : atom a → (∀ o, data (f o) = data o ++ a) → writes 1 f.
Proof. intros Ha Hf. exists a. split; [by apply replies_one|done]. Qed.

Lemma writes_comp j k f g : writes j f → writes k g → writes (j + k) (λ o, g (f o)).
Proof.
  intros (u & Hu & Hf) (v & Hv & Hg). exists (u ++ v). split; [by apply replies_app|]. intros o. by rewrite Hg, Hf, app_assoc.
Qed.

Lemma writes_array k f : writes k f → writes 1 (λ o, f (reply_array o k)).
Proof.
  intros (u & Hu & Hf). exists (enc_array_header k ++ u). split; [by apply replies_wrap|]. intros o.
  by rewrite Hf, reply_array_data, app_assoc.
Qed.

Lemma writes_foldl {A} (f : Buffer → A → Buffer) k l :
  (∀ x, x ∈ l → writes k (λ o, f o x)) → writes (k * length l) (λ o, foldl f o l).
Proof.
  induction l as [|x l IH]; intros Hf; [rewrite Nat.mul_0_r; exists []; split; [constructor|]; intros o; cbn; by rewrite app_nil_r|].
  cbn [foldl length]. replace (k * S (length l)) with (k + k * length l) by lia.
  apply (writes_comp k (k * length l) (λ o, f o x) (λ o, foldl f o l)); [apply Hf; by left|].
  apply IH. intros y Hy. apply Hf. by right.
Qed.

Lemma writes_simple s : CR ∉ s → LF ∉ s → writes 1 (λ o, reply_simple o s).
Proof. intros H1 H2. eapply writes_atom; [by apply atom_simple|]. intros o. apply reply_simple_data. Qed.

Lemma writes_error s : writes 1 (λ o, reply_error o s).
Proof. eapply writes_atom; [apply atom_error|]. intros o. apply reply_error_data. Qed.

Lemma writes_errorf s : writes 1 (λ o, reply_errorf o s).
Proof. apply writes_error. Qed.

Lemma writes_integer z : writes 1 (λ o, reply_integer o z).
Proof. eapply writes_atom; [apply atom_integer|]. intros o. apply reply_integer_data. Qed.

Lemma writes_bulk s : writes 1 (λ o, reply_bulk_cstr o s).
Proof. eapply writes_atom; [apply atom_bulk|]. intros o. apply reply_bulk_cstr_data. Qed.

Lemma writes_bulk_len s : writes 1 (λ o, reply_bulk o s (length s)).
Proof. apply writes_bulk. Qed.

Lemma writes_double v : writes 1 (λ o, reply_double o v).
Proof. apply writes_bulk. Qed.

Lemma writes_null : writes 1 reply_null.
Proof. eapply writes_atom; [apply atom_null|]. intros o. apply reply_null_data. Qed.

Lemma writes_null_array : writes 1 reply_null_array.
Proof. eapply writes_atom; [apply atom_null_array|]. intros o. apply reply_null_array_data. Qed.

Lemma writes_empty_array : writes 1 (λ o, reply_array o 0).
Proof. apply (writes_array 0 (λ o, o)). exists []. split; [constructor|]. intros o. by rewrite app_nil_r. Qed.

Create HintDb writes discriminated.
#[export] Hint Resolve writes_error writes_errorf writes_integer writes_bulk writes_bulk_len writes_double writes_null
  writes_null_array writes_empty_array : writes.

Lemma writes_pairs {A} (f g : A → bytes) l :
  writes (2 * length l) (λ o, foldl (λ o x, reply_bulk_cstr (reply_bulk_cstr o (f x)) (g x)) o l).
Proof.
  apply (writes_foldl _ 2). intros x _.
  apply (writes_comp 1 1 (λ o, reply_bulk_cstr o (f x)) (λ o, reply_bulk_cstr o (g x))); auto with writes.
Qed.

Lemma writes_stream_entry e : se_num_fields e = length (se_fields e) → writes 1 (λ o, CmdStream.reply_stream_entry o e).
Proof.
  intros He. unfold CmdStream.reply_stream_entry. rewrite He.
  apply (writes_array 2 (λ o, foldl _ (reply_array (CmdStream.reply_stream_id o (se_id e)) _) _)).
  apply (writes_comp 1 1 (λ o, CmdStream.reply_stream_id o (se_id e)) (λ o, foldl _ (reply_array o _) _)); [apply writes_bulk|].
  rewrite Nat.mul_comm. apply (writes_array _ (λ o, foldl _ o _)), writes_pairs.
Qed.

Lemma writes_stream_entries es :
  Forall (λ e, se_num_fields e = length (se_fields e)) es → writes (length es) (λ o, foldl CmdStream.reply_stream_entry o es).
Proof.
  intros He. rewrite <- (Nat.mul_1_l (length es)). apply writes_foldl. intros e Hin. apply writes_stream_entry.
  by eapply Forall_forall in He.
Qed.

(** ** Actions *)

Definition wf (w : World) : Prop := store_wf (w_store w).

(** In a well-formed world, [m] appends a text [t] with [Q a t] and keeps the
    world well formed. *)
Definition emits {A} (m : M A) (Q : A → bytes → Prop) : Prop := ∀ w a w',
  wf w → m w = Ret (a, w') → wf w' ∧ ∃ t, out_data w' = out_data w ++ t ∧ Q a t.

(** [m] writes nothing. *)
Definition silent {A} (m : M A) (R : A → Prop) : Prop := emits m (λ a t, t = [] ∧ R a).

Lemma emits_ret {A} (a : A) (Q : A → bytes → Prop) : Q a [] → emits (mret a) Q.
Proof. intros HQ w b w' Hw [= <- <-]. split; [done|]. exists []. by rewrite app_nil_r. Qed.

Lemma emits_bind {A B} (m : M A) (f : A → M B) Q1 Q :
  emits m Q1 → (∀ a t, Q1 a t → emits (f a) (λ b u, Q b (t ++ u))) → emits (m ≫= f) Q.
Proof.
  intros Hm Hf w b w' Hw. unfold mbind, M_bind. destruct (m w) as [[a w1]|] eqn:E; [|done]. intros Hb.
  destruct (Hm w a w1 Hw E) as (Hw1 & t & Ht & Ha). destruct (Hf a t Ha w1 b w' Hw1 Hb) as (Hw' & u & Hu & Hq).
  split; [done|]. exists (t ++ u). by rewrite Hu, Ht, app_assoc.
Qed.

Lemma emits_weaken {A} (m : M A) (Q Q' : A → bytes → Prop) : emits m Q → (∀ a t, Q a t → Q' a t) → emits m Q'.
Proof. intros Hm HQ w a w' Hw E. destruct (Hm w a w' Hw E) as (? & t & ? & ?). eauto. Qed.

Lemma emits_silent {A B} (m : M A) (f : A → M B) R Q : silent m R → (∀ a, R a → emits (f a) Q) → emits (m ≫= f) Q.
Proof. intros Hm Hf. eapply emits_bind; [exact Hm|]. intros a t [-> Ha]. by apply Hf. Qed.

Lemma emits_out f k (Q : () → bytes → Prop) : writes k f → (∀ u, replies k u → Q tt u) → emits (OUT f) Q.
Proof.
  intros (u & Hu & Hf) HQ w a w' Hw [= <- <-]. split; [done|]. exists u. split; [|by apply HQ].
  unfold out_data. cbn. by rewrite Hf.
Qed.

(** A header that is written before its elements. *)
Lemma emits_header {B} n (m : M B) (Q : B → bytes → Prop) :
  emits m (λ b u, Q b (enc_array_header n ++ u)) → emits (OUT (λ o, reply_array o n);; m) Q.
Proof.
  intros Hm. eapply (emits_bind _ _ (λ _ t, t = enc_array_header n)); [|intros _ t ->; exact Hm].
  intros w a w' Hw [= <- <-]. split; [done|]. by exists (enc_array_header n).
Qed.

Lemma silent_lift {A} (r : res A) (R : A → Prop) : (∀ a, r = Ret a → R a) → silent (lift r) R.
Proof.
  intros Hr w a w' Hw. unfold lift. destruct r as [b|]; [|done]. intros [= <- <-]. split; [done|]. exists [].
  rewrite app_nil_r. auto.
Qed.

Lemma emits_undef {A} u (Q : A → bytes → Prop) : emits (undef u) Q.
Proof. by intros w a w' Hw H'. Qed.

Lemma silent_now : silent now_ms (λ _, True).
Proof. intros w a w' Hw [= <- <-]. split; [done|]. exists []. by rewrite app_nil_r. Qed.

Lemma silent_mono : silent mono_ms (λ _, True).
Proof. intros w a w' Hw [= <- <-]. split; [done|]. exists []. by rewrite app_nil_r. Qed.

Lemma silent_is_blocked : silent is_blocked (λ _, True).
Proof. intros w a w' Hw [= <- <-]. split; [done|]. exists []. by rewrite app_nil_r. Qed.

Lemma silent_deadline d : silent (set_deadline d) (λ _, True).
Proof. intros w a w' Hw [= <- <-]. split; [done|]. exists []. by rewrite app_nil_r. Qed.

Lemma silent_STORE {A} (f : Store → Z → Store * A) (R : A → Prop) :
  (∀ s now, store_wf s → store_wf (f s now).1 ∧ R (f s now).2) → silent (STORE f) R.
Proof.
  intros Hf w a w' Hw [= <- <-]. destruct (Hf (w_store w) (w_now w (w_reads w)) Hw). split; [done|]. exists [].
  by rewrite app_nil_r.
Qed.

Lemma silent_STORE_r {A} (f : Store → Z → Z → res (Store * A)) (R : A → Prop) :
  (∀ s now now' s' a, store_wf s → f s now now' = Ret (s', a) → store_wf s' ∧ R a) → silent (STORE_r f) R.
Proof.
  intros Hf w a w' Hw. unfold STORE_r, mbind, M_bind, now_ms, get_store, lift. cbn.
  destruct (f _ _ _) as [[s' b]|] eqn:E; [|done]. intros [= <- <-]. apply Hf in E as [Hs Hb]; [|done].
  split; [done|]. exists []. by rewrite app_nil_r.
Qed.

Lemma silent_loop {A} n lo (f : nat → A → M A) acc :
  (∀ i a, silent (f i a) (λ _, True)) → silent (for_loop n lo f acc) (λ _, True).
Proof.
  intros Hf. revert lo acc. induction n as [|n IH]; intros lo acc; cbn [for_loop]; [by apply emits_ret|].
  eapply emits_silent; [apply Hf|]. intros a _. apply IH.
Qed.

(** A loop that writes one reply each time. *)
Lemma emits_loop n lo (f : nat → () → M ()) :
  (∀ i a, emits (f i a) (λ _ t, replies 1 t)) → emits (for_loop n lo f tt) (λ _ t, replies n t).
Proof.
  intros Hf. revert lo. induction n as [|n IH]; intros lo; cbn [for_loop]; [apply emits_ret; constructor|].
  eapply emits_bind; [apply Hf|]. intros [] t Ht. eapply emits_weaken; [apply IH|]. intros [] u Hu.
  by apply (replies_app 1 n).
Qed.

(** ** The store stays well formed *)

Lemma exec_wf s o now now' s' a : store_wf s → op_ok o → exec s o now now' = Ret (s', a) → store_wf s'.
Proof.
  intros Hs Ho E. destruct (exec_sim now now' s (live now (abs s)) o (conj Hs eq_refl) Ho) as (s2 & Hs2 & [Hwf _]).
  rewrite E in Hs2. by injection Hs2 as -> _.
Qed.

Section store.
Context (s : Store) (Hs : store_wf s) (now now' : Z).

Lemma wf_pair {A} o (r : Store * A) (f : A → answer) :
  op_ok o → exec s o now now' = Ret (r.1, f r.2) → store_wf r.1.
Proof. intros Ho E. by eapply exec_wf. Qed.

Lemma wf_res {A} o (r : res (Store * (StoreStatus + A))) (f : A → answer) s' a :
  op_ok o → exec s o now now' = (r ← r; Ret (outp f r)) → r = Ret (s', a) → store_wf s'.
Proof. intros Ho E ->. by eapply exec_wf in E. Qed.

Lemma wf_del k : store_wf (store_del s k now).1.
Proof. eapply (wf_pair (OP_del k) _ R_bool); [done|]. cbn. by destruct (store_del s k now). Qed.
Lemma wf_exists k : store_wf (store_exists s k now).1.
Proof. eapply (wf_pair (OP_exists k) _ R_bool); [done|]. cbn. by destruct (store_exists s k now). Qed.
Lemma wf_type k : store_wf (store_type s k now).1.
Proof. eapply (wf_pair (OP_type k) _ R_type); [done|]. cbn. by destruct (store_type s k now). Qed.
Lemma wf_expiry k : store_wf (store_get_expiry s k now).1.
Proof. eapply (wf_pair (OP_expiry k) _ R_int); [done|]. cbn. by destruct (store_get_expiry s k now). Qed.
Lemma wf_set k v x : store_wf (store_set s k v x now).
Proof. by eapply (exec_wf s (OP_set k v x) now now'). Qed.
Lemma wf_get k : store_wf (store_get s k now).1.
Proof. by eapply (wf_pair (OP_get k) _ (out R_bytes)). Qed.
Lemma wf_hset k f v : store_wf (store_hash_set s k f v now).1.
Proof. by eapply (wf_pair (OP_hset k f v) _ (out R_int)). Qed.
Lemma wf_hget k f : store_wf (store_hash_get s k f now).1.
Proof. by eapply (wf_pair (OP_hget k f) _ (out R_bytes)). Qed.
Lemma wf_hdel k f : store_wf (store_hash_del s k f now now').1.
Proof. by eapply (wf_pair (OP_hdel k f) _ (out R_int)). Qed.
Lemma wf_zscore k m : store_wf (store_zset_score s k m now).1.
Proof. by eapply (wf_pair (OP_zscore k m) _ (out R_dbl)). Qed.
Lemma wf_xadd k sp fs : store_wf (store_stream_add s k sp fs now now').1.
Proof. by eapply (wf_pair (OP_xadd k sp fs) _ (out R_id)). Qed.
Lemma wf_incrby k d s' a : in_i64 d = true → store_incrby s k d now now' = Ret (s', a) → store_wf s'.
Proof. intros Hd. by eapply (wf_res (OP_incrby k d) _ R_int). Qed.
Lemma wf_push k v b s' a : store_list_push s k v b now = Ret (s', a) → store_wf s'.
Proof. by eapply (wf_res (OP_push k v b) _ (λ n, R_int (Z.of_nat n))). Qed.
Lemma wf_pop k b s' a : store_list_pop s k b now now' = Ret (s', a) → store_wf s'.
Proof. by eapply (wf_res (OP_pop k b) _ R_bytes). Qed.
Lemma wf_zadd k sc m s' a : is_nan sc = false → store_zset_add s k sc m now = Ret (s', a) → store_wf s'.
Proof. intros Hsc. by eapply (wf_res (OP_zadd k sc m) _ R_int). Qed.
Lemma wf_zrank k m s' a : store_zset_rank s k m now = Ret (s', a) → store_wf s'.
Proof. by eapply (wf_res (OP_zrank k m) _ (λ n, R_int (Z.of_nat n))). Qed.

(** The containers a handler walks are well formed. *)
Lemma wf_typed {A B} (proj : Value → option A) (aproj : AValue → option B) (g : A → B) k :
  (∀ v, aproj (aval v) = g <$> proj v) →
  store_wf (lookup_typed s k proj now).1 ∧
  ∀ a, (lookup_typed s k proj now).2 = inr a → ∃ v, proj v = Some a ∧ value_wf v.
Proof.
  intros Hp. destruct (refines_typed proj aproj g now s (live now (abs s)) k Hp (conj Hs eq_refl)) as (s' & r & -> & [Hs' _] & Hr).
  split; [done|]. cbn. intros a ->. destruct Hr as (e & _ & He & _ & _ & _ & Hv). eauto.
Qed.

Lemma wf_get_list k : store_wf (store_get_list s k now).1.
Proof. by apply (wf_typed as_list a_list list_elems); intros []. Qed.

(** The container in an answer satisfies [R]. *)
Definition holds {A} (R : A → Prop) (r : StoreStatus + A) : Prop := ∀ a, r = inr a → R a.

Lemma wf_get_hash k : store_wf (store_get_hash s k now).1 ∧ holds hash_wf (store_get_hash s k now).2.
Proof.
  destruct (wf_typed as_hash a_hash hash_map k ltac:(by intros [])) as [H1 H2]. split; [done|].
  intros h Hh. destruct (H2 h Hh) as ([] & Hv & Hw); try done. injection Hv as ->. apply Hw.
Qed.

Lemma wf_get_zset k : store_wf (store_get_zset s k now).1.
Proof. by apply (wf_typed as_zset a_zset z_entries); intros []. Qed.

Lemma wf_get_stream k : store_wf (store_get_stream s k now).1 ∧ holds stream_wf (store_get_stream s k now).2.
Proof.
  destruct (wf_typed as_stream a_stream st_entries k ltac:(by intros [])) as [H1 H2]. split; [done|].
  intros h Hh. destruct (H2 h Hh) as ([] & Hv & Hw); try done. injection Hv as ->. apply Hw.
Qed.

End store.

Create HintDb store_wf discriminated.
#[export] Hint Constants Opaque : store_wf.
#[export] Hint Resolve wf_del wf_exists wf_type wf_expiry wf_set wf_get wf_hset wf_hget wf_hdel wf_zscore wf_xadd wf_get_list
  wf_get_zset : store_wf.

(** ** Handlers *)

(** A handler that is done has written one reply; one that blocks was allowed
    to, and has written nothing. *)
Definition answered (ctx : CommandCtx) (st : CmdStatus) (t : bytes) : Prop :=
  match st with
  | CMD_DONE => replies 1 t
  | CMD_BLOCK => t = [] ∧ ctx_can_block ctx = true ∧ ctx_timed_out ctx = false
  end.

Lemma emits_done ctx f : writes 1 f → emits (reply_done f) (answered ctx).
Proof.
  intros Hf. eapply (emits_bind _ _ (λ _ t, replies 1 t)); [by eapply emits_out|]. intros [] t Ht. apply emits_ret.
  by rewrite app_nil_r.
Qed.

Lemma emits_fail ctx msg : emits (fail_with msg) (answered ctx).
Proof. apply emits_done. auto with writes. Qed.

(** The elements behind a header. *)
Lemma emits_elements ctx n f :
  writes n f → emits (reply_done f) (λ st u, answered ctx st (enc_array_header n ++ u)).
Proof.
  intros Hf. eapply (emits_bind _ _ (λ _ t, replies n t)); [by eapply emits_out|]. intros [] t Ht. apply emits_ret.
  rewrite app_nil_r. by apply replies_wrap.
Qed.

(** Steps through the actions of a handler. *)
Ltac quiet_step :=
  lazymatch goal with
  | |- silent (ARG _ _) _ => by apply silent_lift
  | |- silent (ARG_len _ _) _ => by apply silent_lift
  | |- silent (lift _) _ => by apply silent_lift
  | |- silent now_ms _ => apply silent_now
  | |- silent mono_ms _ => apply silent_mono
  | |- silent is_blocked _ => apply silent_is_blocked
  | |- silent (set_deadline _) _ => apply silent_deadline
  | |- silent (STORE _) _ => apply silent_STORE; intros s_ now_ Hs_; cbn [fst]; by split; [auto with store_wf nocore|]
  | |- silent (STORE_r _) _ =>
      apply silent_STORE_r; intros s_ now_ now_2 s_2 a_ Hs_ E_; cbv beta in E_; split; [|exact I];
      lazymatch type of E_ with
      | store_incrby _ _ _ _ _ = _ => eapply (wf_incrby s_ Hs_); [|exact E_]
      | store_list_push _ _ _ _ _ = _ => exact (wf_push s_ Hs_ _ now_2 _ _ _ _ _ E_)
      | store_list_pop _ _ _ _ _ = _ => exact (wf_pop s_ Hs_ _ _ _ _ _ _ E_)
      | store_zset_add _ _ _ _ _ = _ => eapply (wf_zadd s_ Hs_ _ now_2); [|exact E_]
      | store_zset_rank _ _ _ _ = _ => exact (wf_zrank s_ Hs_ _ now_2 _ _ _ _ E_)
      | Ret (store_hash_del _ _ _ _ _) = _ => injection E_ as E_; by rewrite <- (f_equal fst E_ : _ = s_2); apply wf_hdel
      | Ret (store_stream_add _ _ _ _ _ _) = _ =>
          injection E_ as E_; by rewrite <- (f_equal fst E_ : _ = s_2); apply wf_xadd
      end
  end.
Ltac bind_step :=
  lazymatch goal with
  | |- _ (STORE (λ s now, store_get_hash s _ now) ≫= _) _ =>
      apply (emits_silent _ _ (holds hash_wf)); [apply silent_STORE; intros; by apply wf_get_hash|intros ? ?]
  | |- _ (STORE (λ s now, store_get_stream s _ now) ≫= _) _ =>
      apply (emits_silent _ _ (holds stream_wf)); [apply silent_STORE; intros; by apply wf_get_stream|intros ? ?]
  | |- _ (lift ?r ≫= _) _ => apply (emits_silent _ _ (λ a, r = Ret a)); [by apply silent_lift|intros ? ?; cbv beta in *]
  | |- _ (_ ≫= _) _ => apply (emits_silent _ _ (λ _, True)); [quiet_step|intros ? _]
  end.
Ltac emit_step :=
  match goal with
  | |- emits (OUT (λ o, reply_array o _) ≫= _) _ => apply emits_header
  | |- emits (_ ≫= _) _ => bind_step
  | |- emits (fail_with _) (answered _) => apply emits_fail
  | |- emits (reply_done _) (answered _) => apply emits_done
  | |- emits (reply_done _) (λ _ _, answered _ _ (enc_array_header _ ++ _)) => apply emits_elements
  | |- emits (undef _) _ => apply emits_undef
  | |- emits (if ?b then _ else _) _ => destruct b eqn:?
  | |- emits (match ?x with _ => _ end) _ => destruct x eqn:?
  | |- silent (_ ≫= _) _ => bind_step
  | |- silent (if ?b then _ else _) _ => destruct b eqn:?
  | |- silent (match ?x with _ => _ end) _ => destruct x eqn:?
  | |- emits (mret _) _ => by apply emits_ret
  | |- silent (mret _) _ => by apply emits_ret
  | |- writes 1 (λ _, match ?x with _ => _ end) => destruct x
  | |- writes 1 (λ o, if ?x then _ else _) => destruct x
  end.
Ltac emit_tac := repeat (first [solve [auto with writes nocore]|emit_step]).

Section handlers.
Context (ctx : CommandCtx).

(** *** Strings and keys *)

Lemma set_options_emits fuel i x :
  emits (CmdString.set_options fuel ctx i x) (λ r t, match r with Some _ => t = [] | None => replies 1 t end).
Proof.
  assert (∀ msg, emits (OUT (λ o, reply_error o msg);; mret None)
    (λ (r : option Z) t, match r with Some _ => t = [] | None => replies 1 t end)) as Herr.
  { intros msg. eapply (emits_bind _ _ (λ _ t, replies 1 t)); [eapply emits_out; [apply writes_error|done]|].
    intros [] t Ht. apply emits_ret. by rewrite app_nil_r. }
  revert i x. induction fuel as [|f IH]; intros i x; cbn [CmdString.set_options]; [by apply emits_ret|].
  emit_tac; auto.
Qed.

Lemma cmd_set_answers : emits (CmdString.cmd_set ctx) (answered ctx).
Proof.
  unfold CmdString.cmd_set. eapply emits_bind; [apply set_options_emits|]. intros [x|] t Ht; cbv beta iota in Ht.
  - subst t. apply (emits_weaken _ (answered ctx)); [|done]. emit_tac. apply writes_simple; apply (bool_decide_unpack _); vm_compute; exact I.
  - apply emits_ret. by rewrite app_nil_r.
Qed.

Lemma cmd_get_answers : emits (CmdString.cmd_get ctx) (answered ctx).
Proof. unfold CmdString.cmd_get. emit_tac. Qed.

Lemma incr_answers d : in_i64 d = true → emits (CmdString.incr_common ctx d) (answered ctx).
Proof. intros Hd. unfold CmdString.incr_common. emit_tac. Qed.

Lemma int64_in v s : parse_int64 s = Some v → in_i64 v = true.
Proof. intros Hv%parse_int64_range. unfold in_i64. bools. lia. Qed.

Lemma cmd_incrby_answers : emits (CmdString.cmd_incrby ctx) (answered ctx).
Proof. unfold CmdString.cmd_incrby. emit_tac. apply incr_answers. by eapply int64_in. Qed.

Lemma cmd_decrby_answers : emits (CmdString.cmd_decrby ctx) (answered ctx).
Proof.
  unfold CmdString.cmd_decrby. emit_tac. apply incr_answers. unfold i64 in *. destruct (in_i64 (- z)) eqn:?; [|done].
  by simplify_eq.
Qed.

Lemma cmd_del_answers : emits (CmdString.cmd_del ctx) (answered ctx).
Proof.
  unfold CmdString.cmd_del. apply (emits_silent _ _ (λ _, True)); [|intros n _; emit_tac].
  apply silent_loop. intros i n. emit_tac.
Qed.

Lemma cmd_exists_answers : emits (CmdString.cmd_exists ctx) (answered ctx).
Proof.
  unfold CmdString.cmd_exists. apply (emits_silent _ _ (λ _, True)); [|intros n _; emit_tac].
  apply silent_loop. intros i n. emit_tac.
Qed.

Lemma cmd_type_answers : emits (CmdString.cmd_type ctx) (answered ctx).
Proof.
  unfold CmdString.cmd_type. emit_tac. apply writes_simple; destruct a0; apply (bool_decide_unpack _); vm_compute; exact I.
Qed.

Lemma ttl_answers b : emits (CmdString.ttl_common ctx b) (answered ctx).
Proof. unfold CmdString.ttl_common. emit_tac. Qed.

(** A scan keeps what every visit keeps. *)
Lemma store_scan_inv {A} (P : A → Prop) s now visit ctx0 :
  (∀ a e, P a → P (visit a e)) → P ctx0 → P (store_scan s now visit ctx0).
Proof.
  intros Hv. unfold store_scan. revert ctx0. induction (buckets s) as [|c bs IH]; intros a Ha; cbn [foldl]; [done|].
  apply IH. clear IH. revert a Ha. induction c as [|e c IH]; intros a Ha; cbn [foldl]; [done|]. apply IH.
  destruct (negb _); auto.
Qed.

Lemma keys_visit_replies `{CmdString.Fnmatch} pattern scan e :
  replies (CmdString.ks_count scan) (data (CmdString.ks_matches scan)) →
  let scan' := CmdString.keys_visit pattern scan e in
  replies (CmdString.ks_count scan') (data (CmdString.ks_matches scan')).
Proof.
  intros Hs. unfold CmdString.keys_visit. destruct (CmdString.fnmatch _ _); [|done]. cbn [CmdString.ks_count CmdString.ks_matches].
  rewrite reply_bulk_cstr_data. replace (S _) with (CmdString.ks_count scan + 1) by lia.
  apply replies_app; [done|]. auto with replies.
Qed.

Lemma cmd_keys_answers `{CmdString.Fnmatch} : emits (CmdString.cmd_keys ctx) (answered ctx).
Proof.
  unfold CmdString.cmd_keys. emit_step.
  apply (emits_silent _ _ (λ scan, replies (CmdString.ks_count scan) (data (CmdString.ks_matches scan)))).
  { apply silent_STORE. intros s now Hs. split; [done|].
    apply (store_scan_inv (λ scan, replies (CmdString.ks_count scan) (data (CmdString.ks_matches scan)))); [|constructor].
    intros scan e. apply keys_visit_replies. }
  intros scan Hscan. apply emits_header.
  apply (emits_bind _ _ (λ _ t, t = data (CmdString.ks_matches scan))).
  - destruct (Nat.ltb_spec 0 (blen (CmdString.ks_matches scan))) as [|Hl].
    + intros w b w' Hw [= <- <-]. split; [done|]. by exists (data (CmdString.ks_matches scan)).
    + apply emits_ret. symmetry. apply length_zero_iff_nil. unfold blen in Hl. lia.
  - intros [] t ->. apply emits_ret. rewrite app_nil_r. by apply replies_wrap.
Qed.

(** *** Lists *)

Lemma push_answers b : emits (CmdList.push_common ctx b) (answered ctx).
Proof.
  unfold CmdList.push_common. emit_step. emit_step. apply (emits_silent _ _ (λ _, True)); [emit_tac|intros wrong _].
  emit_step; [emit_tac|]. apply (emits_silent _ _ (λ _, True)); [|intros n _; emit_tac].
  apply silent_loop. intros i n. emit_tac.
Qed.

Lemma pop_answers b : emits (CmdList.pop_common ctx b) (answered ctx).
Proof. unfold CmdList.pop_common. emit_tac. Qed.

Lemma cmd_llen_answers : emits (CmdList.cmd_llen ctx) (answered ctx).
Proof. unfold CmdList.cmd_llen. emit_tac. Qed.

Lemma read_nodes_length l q n xs : read_nodes l q n = Ret xs → length xs = n.
Proof.
  revert q xs. induction n as [|n IH]; intros q xs; cbn [read_nodes]; [by intros [= <-]|].
  destruct q as [q|]; [|done]. destruct (deref (l_nodes l) q) as [node|]; [|done]. cbn.
  destruct (read_nodes l (ln_next node) n) as [ys|] eqn:E; [|done]. cbn. intros [= <-]. cbn. by erewrite IH.
Qed.

(** The normalised bounds are indices. *)
Lemma normalise_range_in start stop len first last :
  CmdList.normalise_range start stop len = Ret (Some (first, last)) → first ≤ last < len.
Proof.
  unfold CmdList.normalise_range. intros E. apply res_bind_inv in E as (a & _ & E).
  apply res_bind_inv in E as (b & _ & E). revert E.
  destruct (Z.ltb_spec a 0), (Z.leb_spec (Z.of_nat len) b), (Z.eqb_spec (Z.of_nat len) 0); cbn [orb]; try done;
    match goal with |- context [(?x <? ?y)%Z] => destruct (Z.ltb_spec x y) end; try done; intros [= <- <-]; lia.
Qed.

Lemma writes_bulks l : writes (length l) (λ o, foldl reply_bulk_cstr o l).
Proof. rewrite <- (Nat.mul_1_l (length l)). apply writes_foldl. intros x _. auto with writes. Qed.

Lemma cmd_lrange_answers : emits (CmdList.cmd_lrange ctx) (answered ctx).
Proof.
  unfold CmdList.cmd_lrange. emit_tac. simplify_eq.
  match goal with E : CmdList.normalise_range _ _ _ = _ |- _ => apply normalise_range_in in E end.
  match goal with E : read_nodes _ _ _ = _ |- _ => apply read_nodes_length in E end.
  replace (n0 - n + 1) with (length a5) by lia. apply writes_bulks.
Qed.

Lemma blpop_keys_emits n i : emits (CmdList.blpop_keys n ctx i) (λ b t, replies (Nat.b2n b) t).
Proof.
  revert i. induction n as [|n IH]; intros i; cbn [CmdList.blpop_keys]; [apply emits_ret; constructor|].
  do 2 emit_step. destruct a0 as [[]|value]; try apply IH.
  - eapply (emits_bind _ _ (λ _ t, replies 1 t)); [eapply emits_out; [apply writes_error|done]|].
    intros [] t Ht. apply emits_ret. by rewrite app_nil_r.
  - apply emits_header. eapply (emits_bind _ _ (λ _ t, replies 1 t)); [eapply emits_out; [apply writes_bulk|done]|].
    intros [] t Ht. eapply (emits_bind _ _ (λ _ t, replies 1 t)); [eapply emits_out; [apply writes_bulk|done]|].
    intros [] u Hu. apply emits_ret. rewrite app_nil_r. apply replies_wrap. by apply (replies_app 1 1).
Qed.

Lemma cmd_blpop_answers : emits (CmdList.cmd_blpop ctx) (answered ctx).
Proof.
  unfold CmdList.cmd_blpop. emit_step. emit_step; [|emit_tac]. emit_step; [emit_tac|].
  eapply emits_bind; [apply blpop_keys_emits|]. intros [] t Ht; [apply emits_ret; by rewrite app_nil_r|].
  inversion Ht; subst t. apply (emits_weaken _ (answered ctx)); [|done].
  destruct (ctx_can_block ctx) eqn:Hc, (ctx_timed_out ctx) eqn:Ht'; cbn [negb orb]; [emit_tac| |emit_tac..].
  emit_step. apply (emits_silent _ _ (λ _, True)); [|intros _ _; by apply emits_ret].
  destruct a0; [emit_tac|]. apply (emits_silent _ _ (λ _, True)); [|intros d _; apply silent_deadline].
  unfold CmdList.deadline_of. emit_tac. by apply silent_lift.
Qed.

(** *** Hashes *)

Lemma hset_pairs_silent n key i added : silent (CmdHash.hset_pairs n ctx key i added) (λ _, True).
Proof. revert i added. induction n as [|n IH]; intros i added; cbn [CmdHash.hset_pairs]; emit_tac; apply IH. Qed.

Lemma cmd_hset_answers : emits (CmdHash.cmd_hset ctx) (answered ctx).
Proof.
  unfold CmdHash.cmd_hset. emit_step; [emit_tac|]. emit_step. eapply emits_silent; [apply hset_pairs_silent|].
  intros r _. emit_tac.
Qed.

Lemma cmd_hget_answers : emits (CmdHash.cmd_hget ctx) (answered ctx).
Proof. unfold CmdHash.cmd_hget. emit_tac. Qed.

Lemma cmd_hgetall_answers : emits (CmdHash.cmd_hgetall ctx) (answered ctx).
Proof.
  unfold CmdHash.cmd_hgetall. emit_tac. subst. specialize (H h eq_refl). rewrite (hash_count _ H), Nat.mul_comm.
  apply writes_pairs.
Qed.

Lemma cmd_hmget_answers : emits (CmdHash.cmd_hmget ctx) (answered ctx).
Proof.
  unfold CmdHash.cmd_hmget. emit_step. emit_step. apply (emits_silent _ _ (λ _, True)); [emit_tac|intros wrong _].
  emit_step; [emit_tac|]. emit_step. eapply emits_bind; [apply emits_loop|].
  - intros i []. emit_tac. eapply emits_out; [|done]. emit_tac.
  - intros [] t Ht. apply emits_ret. rewrite app_nil_r. by apply replies_wrap.
Qed.

Lemma hdel_fields_silent n key i deleted : silent (CmdHash.hdel_fields n ctx key i deleted) (λ _, True).
Proof. revert i deleted. induction n as [|n IH]; intros i deleted; cbn [CmdHash.hdel_fields]; emit_tac; apply IH. Qed.

Lemma cmd_hdel_answers : emits (CmdHash.cmd_hdel ctx) (answered ctx).
Proof.
  unfold CmdHash.cmd_hdel. emit_step. eapply emits_silent; [apply hdel_fields_silent|]. intros r _. emit_tac.
Qed.

Lemma cmd_hlen_answers : emits (CmdHash.cmd_hlen ctx) (answered ctx).
Proof. unfold CmdHash.cmd_hlen. emit_tac. Qed.

(** *** Sorted sets *)

Lemma zadd_check_silent n i : silent (CmdZset.zadd_check n ctx i) (λ _, True).
Proof. revert i. induction n as [|n IH]; intros i; cbn [CmdZset.zadd_check]; emit_tac; apply IH. Qed.

Lemma zset_add_counting_silent key score member added :
  is_nan score = false → silent (CmdZset.zset_add_counting key score member added) (λ _, True).
Proof. intros Hs. unfold CmdZset.zset_add_counting. emit_tac. Qed.

Lemma zadd_pairs_silent n key i added : silent (CmdZset.zadd_pairs n ctx key i added) (λ _, True).
Proof.
  revert i added. induction n as [|n IH]; intros i added; cbn [CmdZset.zadd_pairs]; emit_tac.
  eapply emits_silent; [apply zset_add_counting_silent|intros x _; apply IH].
  by eapply valid_not_nan, parse_double_valid.
Qed.

Lemma cmd_zadd_answers : emits (CmdZset.cmd_zadd ctx) (answered ctx).
Proof.
  unfold CmdZset.cmd_zadd. emit_step; [emit_tac|]. eapply emits_silent; [apply zadd_check_silent|]. intros ok _.
  emit_step; [emit_tac|]. do 2 emit_step. emit_step; [emit_tac|]. eapply emits_silent; [apply zadd_pairs_silent|].
  intros r _. emit_tac.
Qed.

Lemma writes_entries (b : bool) es : writes (if b then length es * 2 else length es) (λ o, foldl (CmdZset.reply_entry b) o es).
Proof.
  unfold CmdZset.reply_entry. destruct b.
  - rewrite Nat.mul_comm. apply (writes_foldl _ 2). intros e _.
    apply (writes_comp 1 1 (λ o, reply_bulk_cstr o (ze_member e)) (λ o, reply_double o (ze_score e))); auto with writes.
  - rewrite <- (Nat.mul_1_l (length es)). apply writes_foldl. intros e _. auto with writes.
Qed.

Lemma cmd_zrange_answers : emits (CmdZset.cmd_zrange ctx) (answered ctx).
Proof.
  unfold CmdZset.cmd_zrange. apply (emits_silent _ _ (λ _, True)).
  { unfold CmdZset.zrange_options. apply (emits_silent _ _ (λ _, True)); [emit_tac|]. intros b _. emit_tac. }
  intros options _. emit_tac. simplify_eq.
  match goal with E : CmdList.normalise_range _ _ _ = _ |- _ => apply normalise_range_in in E end.
  match goal with |- writes _ (λ _, foldl (_ ?b) _ ?es) => pose proof (writes_entries b es) as Hw end.
  rewrite length_take, length_drop in Hw. unfold z_len in *. by rewrite Nat.min_l in Hw by lia.
Qed.

Lemma cmd_zrangebyscore_answers : emits (CmdZset.cmd_zrangebyscore ctx) (answered ctx).
Proof.
  unfold CmdZset.cmd_zrangebyscore. emit_tac. match goal with |- writes ?n _ => rewrite <- (Nat.mul_1_l n) end.
  apply (writes_foldl (λ o e, reply_bulk_cstr o (ze_member e))). intros e _. auto with writes.
Qed.

Lemma cmd_zrank_answers : emits (CmdZset.cmd_zrank ctx) (answered ctx).
Proof. unfold CmdZset.cmd_zrank. emit_tac. Qed.

Lemma cmd_zcard_answers : emits (CmdZset.cmd_zcard ctx) (answered ctx).
Proof. unfold CmdZset.cmd_zcard. emit_tac. Qed.

Lemma cmd_zscore_answers : emits (CmdZset.cmd_zscore ctx) (answered ctx).
Proof. unfold CmdZset.cmd_zscore. emit_tac. Qed.

(** *** Positions *)

Lemma geoadd_check_silent n i :
  silent (CmdZset.geoadd_check n ctx i) (λ err, match err with Some f => writes 1 f | None => True end).
Proof.
  revert i. induction n as [|n IH]; intros i; cbn [CmdZset.geoadd_check]; [by apply emits_ret|].
  do 2 emit_step. destruct (parse_double a), (parse_double a0); [destruct (geo_valid _ _); [apply IH|]|..];
    apply emits_ret; (split; [reflexivity|]); auto with writes.
Qed.

Lemma geoadd_triples_silent n key i added : silent (CmdZset.geoadd_triples n ctx key i added) (λ _, True).
Proof.
  revert i added. induction n as [|n IH]; intros i added; cbn [CmdZset.geoadd_triples]; emit_tac.
  eapply emits_silent; [apply zset_add_counting_silent, valid_not_nan, of_int_valid|intros x _; apply IH].
Qed.

Lemma cmd_geoadd_answers : emits (CmdZset.cmd_geoadd ctx) (answered ctx).
Proof.
  unfold CmdZset.cmd_geoadd. emit_step; [emit_tac|]. eapply emits_silent; [apply geoadd_check_silent|].
  intros [f|] Hf; cbv beta iota in Hf; [by apply emits_done|]. do 2 emit_step. emit_step; [emit_tac|].
  eapply emits_silent; [apply geoadd_triples_silent|]. intros r _. emit_tac.
Qed.

Lemma cmd_geodist_answers `{Libm} : emits (CmdZset.cmd_geodist ctx) (answered ctx).
Proof.
  unfold CmdZset.cmd_geodist. apply (emits_silent _ _ (λ _, True)); [unfold CmdZset.geodist_unit; emit_tac|].
  intros [msg|factor] _; [emit_tac|]. do 3 emit_step. emit_tac.
Qed.

Lemma writes_position lng lat : writes 1 (λ o, CmdZset.reply_position o lng lat).
Proof.
  apply (writes_array 2 (λ o, reply_bulk_cstr (reply_bulk_cstr o _) _)).
  apply (writes_comp 1 1 (λ o, reply_bulk_cstr o _) (λ o, reply_bulk_cstr o _)); auto with writes.
Qed.

Lemma geopos_members_emits n key i : emits (CmdZset.geopos_members n ctx key i) (λ _ t, replies n t).
Proof.
  revert i. induction n as [|n IH]; intros i; cbn [CmdZset.geopos_members]; [apply emits_ret; constructor|].
  do 2 emit_step. apply (emits_bind _ _ (λ _ t, replies 1 t)).
  - destruct a0 as [e|score]; [eapply emits_out; [apply writes_null_array|done]|]. emit_step.
    destruct (geo_decode _) as [lat lng]. eapply emits_out; [apply writes_position|done].
  - intros [] t Ht. eapply emits_weaken; [apply IH|]. intros [] u Hu. by apply (replies_app 1 n).
Qed.

Lemma cmd_geopos_answers : emits (CmdZset.cmd_geopos ctx) (answered ctx).
Proof.
  unfold CmdZset.cmd_geopos. do 2 emit_step. emit_step; [emit_tac|]. emit_step.
  eapply emits_bind; [apply geopos_members_emits|]. intros [] t Ht. apply emits_ret. rewrite app_nil_r.
  by apply replies_wrap.
Qed.

(** *** Streams *)

Lemma xadd_fields_silent n i : silent (CmdStream.xadd_fields n ctx i) (λ _, True).
Proof.
  revert i. induction n as [|n IH]; intros i; cbn [CmdStream.xadd_fields]; emit_tac.
  eapply emits_silent; [apply IH|]. intros l _. emit_tac.
Qed.

Lemma cmd_xadd_answers : emits (CmdStream.cmd_xadd ctx) (answered ctx).
Proof.
  unfold CmdStream.cmd_xadd. emit_step; [emit_tac|]. eapply emits_silent; [apply xadd_fields_silent|]. intros l _.
  emit_tac. apply writes_bulk.
Qed.

Lemma skip_while_sub p es : ∃ pre, es = pre ++ skip_while p es.
Proof. induction es as [|e es [pre IH]]; [by exists []|]. cbn. destruct (p _); [exists (e :: pre); cbn; by f_equal|by exists []]. Qed.

Lemma take_while_sub p es : ∃ post, es = take_while p es ++ post.
Proof. induction es as [|e es [post IH]]; [by exists []|]. cbn. destruct (p _); [exists post; cbn; by f_equal|by exists (e :: es)]. Qed.

Lemma xrange_entries st lo hi :
  stream_wf st → Forall (λ e, se_num_fields e = length (se_fields e)) (CmdStream.xrange_select st lo hi).
Proof.
  intros Hst. pose proof (sw_nf _ Hst) as Hn. unfold CmdStream.xrange_select.
  destruct (skip_while_sub (λ id, stream_id_cmp id lo <? 0)%Z (st_entries st)) as [pre Hpre]. rewrite Hpre in Hn.
  apply Forall_app in Hn as [_ Hn]. revert Hn. set (es := skip_while _ _). intros Hn.
  destruct (take_while_sub (λ id, stream_id_cmp id hi <=? 0)%Z es) as [post Hpost]. rewrite Hpost in Hn.
  by apply Forall_app in Hn as [Hn _].
Qed.

Lemma xread_entries st after limit :
  stream_wf st → Forall (λ e, se_num_fields e = length (se_fields e)) (CmdStream.xread_select st after limit).
Proof.
  intros Hst. pose proof (sw_nf _ Hst) as Hn. unfold CmdStream.xread_select.
  destruct (skip_while_sub (λ id, stream_id_cmp id after <=? 0)%Z (st_entries st)) as [pre Hpre]. rewrite Hpre in Hn.
  apply Forall_app in Hn as [_ Hn]. destruct (limit =? 0)%Z; [done|]. by apply Forall_take.
Qed.

Lemma cmd_xrange_answers : emits (CmdStream.cmd_xrange ctx) (answered ctx).
Proof.
  assert (∀ i open d id, silent (CmdStream.xrange_bound ctx i open d id) (λ _, True)) as Hb
    by (intros; unfold CmdStream.xrange_bound; emit_tac).
  unfold CmdStream.cmd_xrange. eapply emits_silent; [apply Hb|]. intros [lo|] _; [|emit_tac].
  eapply emits_silent; [apply Hb|]. intros [hi|] _; emit_tac. simplify_eq. apply writes_stream_entries, xrange_entries.
  match goal with Hh : holds _ _ |- _ => by apply Hh end.
Qed.

Lemma xread_ids_silent n arg num k : silent (CmdStream.xread_ids n ctx arg num k) (λ _, True).
Proof.
  revert k. induction n as [|n IH]; intros k; cbn [CmdStream.xread_ids]; [emit_tac|].
  do 3 emit_step. destruct a1 as [[]|st]; first [solve [emit_tac]|emit_step; [|emit_tac]];
    (eapply emits_silent; [apply IH|]; intros l _; emit_tac).
Qed.

Lemma xread_body_silent ids arg k limit body n :
  replies n (data body) →
  silent (CmdStream.xread_body ids ctx arg k limit body n) (λ r, replies r.2 (data r.1)).
Proof.
  revert k body n. induction ids as [|after ids IH]; intros k body n Hn; cbn [CmdStream.xread_body].
  { by apply emits_ret. }
  do 2 emit_step. destruct a0 as [e|st]; [by apply IH|]. destruct (_ =? 0); [by apply IH|]. apply IH.
  set (es := CmdStream.xread_select st after limit).
  assert (writes 1 (λ o, foldl CmdStream.reply_stream_entry (reply_array (reply_bulk_cstr (reply_array o 2) a) (length es)) es))
    as (u & Hu & Hw).
  { apply (writes_array 2 (λ o, foldl _ (reply_array (reply_bulk_cstr o a) _) _)).
    apply (writes_comp 1 1 (λ o, reply_bulk_cstr o a) (λ o, foldl _ (reply_array o _) _)); [auto with writes|].
    apply (writes_array _ (λ o, foldl _ o es)), writes_stream_entries, xread_entries.
    match goal with Hh : holds _ _ |- _ => by apply Hh end. }
  rewrite Hw. replace (S n) with (n + 1) by lia. by apply replies_app.
Qed.

Lemma cmd_xread_answers : emits (CmdStream.cmd_xread ctx) (answered ctx).
Proof.
  unfold CmdStream.cmd_xread. apply (emits_silent _ _ (λ _, True)); [unfold CmdStream.xread_count; emit_tac|].
  intros [[limit arg]|] _; [|emit_tac]. apply (emits_silent _ _ (λ _, True)); [emit_tac|]. intros [] _; [emit_tac|]. cbv zeta.
  emit_step; [emit_tac|]. eapply emits_silent; [apply xread_ids_silent|]. intros [msg|after] _; [emit_tac|].
  eapply emits_silent; [apply xread_body_silent; constructor|]. intros [body n] Hr. cbn [fst snd] in Hr. emit_tac.
  exists (enc_array_header n ++ data body). split; [by apply replies_wrap|]. intros o.
  by rewrite buffer_append_data, reply_array_data, app_assoc.
Qed.

(** *** The server's own commands *)

Lemma cmd_ping_answers : emits (CmdServer.cmd_ping ctx) (answered ctx).
Proof.
  unfold CmdServer.cmd_ping. emit_tac. apply writes_simple; apply (bool_decide_unpack _); vm_compute; exact I.
Qed.

Lemma cmd_echo_answers : emits (CmdServer.cmd_echo ctx) (answered ctx).
Proof. unfold CmdServer.cmd_echo. emit_tac. Qed.

Lemma cmd_config_answers `{CmdString.Fnmatch} cfg : emits (CmdServer.cmd_config cfg ctx) (answered ctx).
Proof. unfold CmdServer.cmd_config. emit_tac. rewrite Nat.mul_comm. apply (writes_pairs fst snd). Qed.

End handlers.

(** What the dispatcher relies on. *)
Class AnsweringHandlers `{Handlers} : Prop := handler_answers p ctx : emits (handler p ctx) (answered ctx).

#[export] Instance pulse_handlers_answer `{Fnmatch : CmdString.Fnmatch, Libm : GeoCoord.Libm} (cfg : Config) :
  @AnsweringHandlers (Handlers.pulse_handlers cfg).
Proof.
  intros p ctx. destruct p; cbn [handler Handlers.pulse_handlers]; [
    apply cmd_ping_answers| apply cmd_echo_answers| apply cmd_config_answers| apply cmd_keys_answers|
    apply cmd_set_answers| apply cmd_get_answers| by apply incr_answers| by apply incr_answers|
    apply cmd_incrby_answers| apply cmd_decrby_answers| apply cmd_del_answers| apply cmd_exists_answers|
    apply cmd_type_answers| apply ttl_answers| apply ttl_answers| apply push_answers| apply push_answers|
    apply pop_answers| apply pop_answers| apply cmd_llen_answers| apply cmd_lrange_answers| apply cmd_blpop_answers|
    apply cmd_hset_answers| apply cmd_hget_answers| apply cmd_hgetall_answers| apply cmd_hmget_answers|
    apply cmd_hdel_answers| apply cmd_hlen_answers| apply cmd_zadd_answers| apply cmd_zrange_answers|
    apply cmd_zrangebyscore_answers| apply cmd_zrank_answers| apply cmd_zcard_answers| apply cmd_zscore_answers|
    apply cmd_geoadd_answers| apply cmd_geodist_answers| apply cmd_geopos_answers| apply cmd_xadd_answers|
    apply cmd_xrange_answers| apply cmd_xread_answers].
Qed.

#[export] Instance demo_handlers_answer : @AnsweringHandlers Handlers.demo_handlers.
Proof. apply pulse_handlers_answer. Qed.

(** ** The dispatcher *)

Section dispatch.
Context `{!Handlers, !AnsweringHandlers}.

(** One reply, and then the result [r]. *)
Lemma emits_then {A} f (r : A) (Q : A → bytes → Prop) :
  writes 1 f → (∀ t, replies 1 t → Q r t) → emits (OUT f;; mret r) Q.
Proof.
  intros Hf HQ. eapply (emits_bind _ _ (λ _ t, replies 1 t)); [by eapply emits_out|]. intros [] t Ht. apply emits_ret.
  rewrite app_nil_r. auto.
Qed.

Lemma validate_emits req :
  emits (validate req) (λ spec t, match spec with Some _ => t = [] | None => replies 1 t end).
Proof.
  unfold validate. emit_step. destruct (command_lookup _) as [spec|]; [|by apply emits_then; [apply writes_errorf|]].
  destruct (arity_ok _ _); cbn [negb]; [|by apply emits_then; [apply writes_errorf|]].
  emit_step. destruct a0; [by apply emits_ret|]. by apply emits_then; [apply writes_error|].
Qed.

Lemma run_emits spec req can_block timed_out :
  emits (run spec req can_block timed_out) (answered (mkCtx req can_block timed_out)).
Proof. unfold run. destruct spec as [spec|]; [|apply emits_undef]. destruct (cs_proc spec); [apply handler_answers|apply emits_undef]. Qed.

Lemma get_txn_silent : silent get_txn (λ _, True).
Proof. intros w a w' Hw [= <- <-]. split; [done|]. exists []. by rewrite app_nil_r. Qed.

Lemma set_txn_silent t : silent (set_txn t) (λ _, True).
Proof. intros w a w' Hw [= <- <-]. split; [done|]. exists []. by rewrite app_nil_r. Qed.

Lemma exec_loop_emits cmds : emits (exec_loop cmds) (λ _ t, replies (length cmds) t).
Proof.
  induction cmds as [|req cmds IH]; cbn [exec_loop length]; [apply emits_ret; constructor|]. emit_step.
  eapply emits_bind; [apply run_emits|]. intros [] t Ht; cbn in Ht; [|by destruct Ht as (_ & ? & _)].
  eapply emits_weaken; [exact IH|]. intros [] u Hu. by apply (replies_app 1 (length cmds)).
Qed.

Lemma exec_transaction_emits : emits exec_transaction (λ _ t, replies 1 t).
Proof.
  unfold exec_transaction. eapply emits_silent; [apply get_txn_silent|]. intros txn _. destruct (txn_error txn).
  - eapply emits_silent; [apply set_txn_silent|]. intros [] _. eapply emits_out; [apply writes_error|done].
  - apply emits_header. eapply emits_bind; [apply exec_loop_emits|]. intros [] t Ht.
    eapply emits_silent; [apply get_txn_silent|]. intros txn' _. eapply emits_weaken; [apply set_txn_silent|].
    intros [] u [-> _]. rewrite app_nil_r. by apply replies_wrap.
Qed.

Definition result_text (r : CommandResult) (t : bytes) : Prop :=
  match r with CMD_RESULT_DONE | CMD_RESULT_QUEUED => replies 1 t | CMD_RESULT_BLOCKED => t = [] end.

Lemma result_text_app (m : M ()) :
  emits m (λ _ t, replies 1 t) → emits (m;; mret CMD_RESULT_DONE) result_text.
Proof. intros Hm. eapply emits_bind; [exact Hm|]. intros [] t Ht. apply emits_ret. by rewrite app_nil_r. Qed.

Lemma writes_ok : writes 1 (λ o, reply_simple o #"OK").
Proof. apply writes_simple; apply (bool_decide_unpack _); vm_compute; exact I. Qed.

Lemma writes_queued : writes 1 (λ o, reply_simple o #"QUEUED").
Proof. apply writes_simple; apply (bool_decide_unpack _); vm_compute; exact I. Qed.

Lemma emits_set_then {A} t (m : M A) Q : emits m Q → emits (set_txn t;; m) Q.
Proof. intros Hm. eapply emits_silent; [apply set_txn_silent|]. by intros [] _. Qed.

Lemma emits_one f : writes 1 f → emits (OUT f) (λ _ t, replies 1 t).
Proof. intros Hf. by eapply emits_out. Qed.

Lemma command_process_emits req : emits (command_process req) result_text.
Proof.
  unfold command_process. eapply emits_bind; [apply validate_emits|]. intros [spec|] t Ht; cbv beta iota in Ht.
  - subst t. apply (emits_weaken _ result_text); [|done]. eapply emits_silent; [apply get_txn_silent|]. intros txn _.
    destruct (cs_kind spec), (txn_active txn); cbn [negb].
    2: { eapply emits_bind; [apply run_emits|]. intros [] t Ht; apply emits_ret; rewrite app_nil_r; [done|apply Ht]. }
    1: { destruct (txn_queue txn req); apply emits_set_then, emits_then; auto using writes_queued with writes. }
    all: apply result_text_app; auto using emits_set_then, emits_one, writes_ok, exec_transaction_emits with writes.
  - eapply emits_silent; [apply get_txn_silent|]. intros txn _. eapply (emits_silent _ _ (λ _, True)).
    + destruct (txn_active txn); [apply set_txn_silent|by apply emits_ret].
    + intros [] _. apply emits_ret. by rewrite app_nil_r.
Qed.

Lemma retry_emits req timed_out :
  emits (command_retry_blocked req timed_out)
    (λ r t, match r with
            | CMD_RESULT_DONE => replies 1 t
            | CMD_RESULT_BLOCKED => t = [] ∧ timed_out = false
            | CMD_RESULT_QUEUED => False
            end).
Proof.
  unfold command_retry_blocked. emit_step. eapply emits_bind; [apply run_emits|].
  intros [] t Ht; apply emits_ret; rewrite app_nil_r; [done|]. by destruct Ht as (-> & _ & Ht).
Qed.

(** ** Connections *)

(** A sequence of complete replies. *)
Definition complete (t : bytes) : Prop := ∃ n, replies n t.

Lemma complete_app t u : complete t → complete u → complete (t ++ u).
Proof. intros [n Hn] [m Hm]. exists (n + m). by apply replies_app. Qed.

Lemma complete_nil : complete [].
Proof. exists 0. constructor. Qed.

Lemma emits_complete {A B} (m : M A) (f : A → M B) :
  emits m (λ _ t, complete t) → (∀ a, emits (f a) (λ _ t, complete t)) → emits (m ≫= f) (λ _ t, complete t).
Proof.
  intros Hm Hf. eapply emits_bind; [exact Hm|]. intros a t Ht. eapply emits_weaken; [apply Hf|]. intros b u Hu.
  by apply complete_app.
Qed.

Lemma complete_ret {A} (a : A) : emits (mret a) (λ _ t, complete t).
Proof. apply emits_ret, complete_nil. Qed.

Lemma complete_on_client f : (∀ c, c_out (f c) = c_out c) → emits (on_client f) (λ _ t, complete t).
Proof.
  intros Hf w a w' Hw [= <- <-]. split; [done|]. exists []. split; [|apply complete_nil]. unfold out_data. cbn.
  by rewrite Hf, app_nil_r.
Qed.

Lemma complete_error msg : emits (OUT (λ o, reply_error o msg)) (λ _ t, complete t).
Proof. eapply emits_out; [apply writes_error|]. intros u Hu. by exists 1. Qed.

Lemma complete_get_client {A} (f : Client → M A) :
  (∀ c, emits (f c) (λ _ t, complete t)) → emits (c ← get_client; f c) (λ _ t, complete t).
Proof. intros Hf w a w' Hw E. exact (Hf (w_client w) w a w' Hw E). Qed.

Lemma process_loop_complete fuel pos : emits (process_loop fuel pos) (λ _ t, complete t).
Proof.
  revert pos. induction fuel as [|f IH]; intros pos; cbn [process_loop]; [apply complete_ret|].
  apply complete_get_client. intros c. destruct (_ || _); [apply complete_ret|].
  destruct (resp_parse_command _) as [[req used]| | |u]; [|apply complete_ret| |apply emits_undef].
  - destruct (_ =? 0); [apply IH|]. apply emits_complete.
    + eapply emits_weaken; [apply command_process_emits|]. intros [] t Ht; cbn in Ht; [by exists 1| |by exists 1].
      subst t. apply complete_nil.
    + intros []; [apply IH| |apply IH]. apply emits_complete; [by apply complete_on_client|]. intros _. apply IH.
  - apply emits_complete; [apply complete_error|]. intros _. apply emits_complete; [by apply complete_on_client|].
    intros _. apply complete_ret.
Qed.

Lemma process_input_complete : emits process_input (λ _ t, complete t).
Proof.
  unfold process_input. apply complete_get_client. intros c. apply emits_complete; [apply process_loop_complete|].
  intros pos. apply emits_complete; [by apply complete_on_client|]. intros _. apply complete_get_client. intros c'.
  destruct (_ <? _)%Z; [|apply complete_ret]. apply emits_complete; [apply complete_error|]. intros _.
  by apply complete_on_client.
Qed.

Lemma read_loop_complete rs : emits (read_loop rs) (λ _ t, complete t).
Proof.
  induction rs as [|[chunk| | | |] rs IH]; cbn [read_loop]; try apply complete_ret; [|done|].
  - apply emits_complete; [by apply complete_on_client|]. intros _. destruct (_ <? _)%Z; [apply complete_ret|done].
  - apply emits_complete; [by apply complete_on_client|]. intros _. apply complete_ret.
Qed.

Lemma at_eof_keeps_out c : c_out (at_eof c) = c_out c.
Proof. unfold at_eof. by repeat case_match. Qed.

Lemma read_from_client_complete rs : emits (read_from_client rs) (λ _ t, complete t).
Proof.
  unfold read_from_client. apply emits_complete; [apply read_loop_complete|]. intros [eof|]; [|apply complete_ret].
  apply emits_complete; [apply process_input_complete|]. intros _. destruct eof; [|apply complete_ret].
  apply complete_on_client, at_eof_keeps_out.
Qed.

(** C4: every request that the dispatcher returns from is answered exactly
    once: whatever the request, whether it is rejected, queued, dispatched or
    runs a whole transaction, the dispatcher appends exactly one complete RESP
    reply - an array has as many elements as its header says - or nothing if it
    parks the client, and the store stays well formed.  The handlers are any that
    answer like this themselves; those of the command table do
    ([pulse_handlers_answer]). *)
Theorem one_reply (w : World) (req : RespValue) (r : CommandResult) (w' : World) :
  store_wf (w_store w) → command_process req w = Ret (r, w') →
  store_wf (w_store w') ∧ ∃ t, out_data w' = out_data w ++ t ∧
    match r with
    | CMD_RESULT_DONE | CMD_RESULT_QUEUED => replies 1 t
    | CMD_RESULT_BLOCKED => t = []
    end.
Proof. intros Hw E. exact (command_process_emits req w r w' Hw E). Qed.

(** C10: what the peer of a connection receives is well framed: after any
    sequence of reads and (partial, interrupted, failed) writes, whatever the
    bytes that came in, as long as there is no undefined behaviour, the bytes
    sent followed by the bytes still pending are a sequence of complete
    replies. *)
Theorem wire_well_framed (evs : list event) (w : World) (wire : bytes) (x : World) :
  store_wf (w_store w) → out_data w = [] → run_events evs w = Ret (wire, x) →
  ∃ n, replies n (wire ++ out_data x).
Proof.
  intros Hw Ho E. assert (wf x ∧ ∃ t, complete t ∧ out_data w ++ t = wire ++ out_data x) as (_ & t & Ht & Heq).
  { clear Ho. revert w wire Hw E. induction evs as [|[rs|ws] evs IH]; intros w wire Hw E.
    - injection E as <- <-. split; [done|]. exists []. split; [apply complete_nil|]. by rewrite app_nil_r.
    - cbn [run_events] in E. unfold mbind, M_bind in E. destruct (read_from_client rs w) as [[[] w1]|] eqn:E1; [|done].
      destruct (read_from_client_complete rs w tt w1 Hw E1) as (Hw1 & t1 & Ho1 & Ht1).
      destruct (IH w1 wire Hw1 E) as (Hx & t2 & Ht2 & Ho2). split; [done|]. exists (t1 ++ t2).
      split; [by apply complete_app|]. by rewrite <- Ho2, Ho1, app_assoc.
    - cbn [run_events] in E. destruct (write_to_client_ahead ws w) as (wire1 & w1 & E1 & (o & z & Hoz & Heq)).
      rewrite (bind_run _ _ _ _ _ E1) in E. unfold mbind, M_bind in E.
      destruct (run_events evs w1) as [[rest w2]|] eqn:E2; [|done]. injection E as <- <-.
      assert (wf w1) as Hw1 by (unfold wf; rewrite Heq in Hw; exact Hw).
      destruct (IH w1 rest Hw1 E2) as (Hx & t & Ht & Ho2). split; [done|]. exists t. split; [done|].
      assert (out_data w = wire1 ++ out_data w1) as -> by (rewrite Heq; exact Hoz).
      by rewrite <- !app_assoc, Ho2. }
  rewrite Ho in Heq. cbn in Heq. destruct Ht as [n Hn]. exists n. by rewrite <- Heq.
Qed.

End dispatch.

Lemma one_reply_witness :
  let req := RESP_ARRAY (RESP_BULK_STRING <$> [ #"LRANGE"; #"l"; #"0"; #"-1"]) in
  ∃ r w', command_process (H := Handlers.demo_handlers) req (CmdProps.demo_world5 CmdProps.demo_store) = Ret (r, w') ∧
    r = CMD_RESULT_DONE ∧ ∃ t, out_data w' = t ∧ replies 1 t.
Proof.
  intros req. destruct (command_process (H := Handlers.demo_handlers) req (CmdProps.demo_world5 CmdProps.demo_store))
    as [[r w']|u] eqn:E; [|by vm_compute in E].
  assert (r = CMD_RESULT_DONE) as Hr by (vm_compute in E; by injection E).
  destruct (one_reply (H := Handlers.demo_handlers) (H0 := demo_handlers_answer) (CmdProps.demo_world5 CmdProps.demo_store)
    req r w' (proj1 CmdProps.demo_store_refines) E) as (_ & t & Ht & Hone).
  exists r, w'. split; [reflexivity|]. split; [exact Hr|]. exists t. rewrite Hr in Hone. split; [exact Ht|exact Hone].
Defined.

Lemma wire_well_framed_witness : ∃ wire x,
  run_events (H := Handlers.demo_handlers) ServerOut.demo_events CommandsProps.demo_world = Ret (wire, x) ∧
  wire = #"+OK" ++ CRLF ++ #"$5" ∧ ∃ n, replies n (wire ++ out_data x).
Proof.
  destruct (run_events (H := Handlers.demo_handlers) ServerOut.demo_events CommandsProps.demo_world)
    as [[wire x]|u] eqn:E; [|by vm_compute in E].
  exists wire, x. split; [reflexivity|]. split; [vm_compute in E; by injection E as <- _|].
  exact (wire_well_framed (H := Handlers.demo_handlers) (H0 := demo_handlers_answer) ServerOut.demo_events
    CommandsProps.demo_world wire x (proj1 store_create_spec) eq_refl E).
Defined.

End OneReply.
