(* ===== verification/EventLoop.v ===== *)
(** * server.c: the clients of a server and the event loop

    A server is its store, its clients in the order in which they connected,
    and the clocks.  [server_turn] is one iteration of the loop of
    [server_run]; what the operating system answers - which sockets are ready
    and what each [read], [write] and [accept] returns - is its argument, so a
    theorem about all turns is about all behaviours of the network.  The file
    descriptors are in [Sockets]. *)

From S2P Require Import Prelude Util Reply Resp Store Txn Cmd Commands Server.
Import Util Reply Resp Store Txn Cmd Commands Server.

Module EventLoop.

Record Server := mkServer {
  sv_store : Store;
  sv_clients : list Client;
  sv_cap : nat;
  sv_now : nat → Z;
  sv_mono : nat → Z;
  sv_reads : nat;
}.

(** [server_init], without the socket. *)
Definition server_init (s : Store) (now mono : nat → Z) : Server :=
  {| sv_store := s; sv_clients := []; sv_cap := 0; sv_now := now; sv_mono := mono; sv_reads := 0 |}.

Definition with_clients (cs : list Client) (sv : Server) : Server :=
  {| sv_store := sv_store sv; sv_clients := cs; sv_cap := sv_cap sv; sv_now := sv_now sv; sv_mono := sv_mono sv;
     sv_reads := sv_reads sv |}.

(** ** Clients *)

Definition new_client : Client :=
  {| c_in := buffer_init; c_out := buffer_init; c_txn := txn_init; c_blocked_req := None; c_block_deadline := 0;
     c_close_after_reply := false; c_closed := false |}.

Definition client_add (sv : Server) : Server :=
  let cap := if length (sv_clients sv) =? sv_cap sv
             then (if 0 <? sv_cap sv then sv_cap sv * 2 else 16) else sv_cap sv in
  {| sv_store := sv_store sv; sv_clients := sv_clients sv ++ [new_client]; sv_cap := cap; sv_now := sv_now sv;
     sv_mono := sv_mono sv; sv_reads := sv_reads sv |}.

(** The results of [accept]: a connection, with whether it could be made
    non-blocking, or an error. *)
Inductive accept_result := Accept_fd (nonblocking : bool) | Accept_error.

Fixpoint accept_clients (rs : list accept_result) (sv : Server) : Server :=
  match rs with
  | Accept_fd true :: rs' => accept_clients rs' (client_add sv)
  | Accept_fd false :: rs' => accept_clients rs' sv
  | Accept_error :: _ | [] => sv
  end.

(** Run an action on the client [srv->clients[i]]. *)
Definition at_client {A} (i : nat) (m : M A) (sv : Server) : res (A * Server) :=
  match sv_clients sv !! i with
  | None => Undef UB_out_of_bounds
  | Some c =>
      r ← m {| w_store := sv_store sv; w_client := c; w_now := sv_now sv; w_mono := sv_mono sv;
               w_reads := sv_reads sv |};
      let '(a, w) := r in
      Ret (a, {| sv_store := w_store w; sv_clients := <[i := w_client w]> (sv_clients sv); sv_cap := sv_cap sv;
                 sv_now := w_now w; sv_mono := w_mono w; sv_reads := w_reads w |})
  end.

(** [for (i = lo; i < lo + n; i++) f(i);] *)
Fixpoint for_clients (n lo : nat) (f : nat → Server → res Server) (sv : Server) : res Server :=
  match n with
  | O => Ret sv
  | S n' => sv ← f lo sv; for_clients n' (S lo) f sv
  end.

Definition num_clients (sv : Server) : nat := length (sv_clients sv).

Section server.
Context `{Handlers}.

(** ** Parked clients *)

(** The body of the loop of [service_blocked]. *)
Definition service_client (now : Z) : M () :=
  c ← get_client;
  match c_blocked_req c with
  | None => mret tt
  | Some req =>
      if c_closed c then mret tt
      else
        let timed_out := negb (c_block_deadline c =? 0)%Z && (c_block_deadline c <=? now)%Z in
        r ← command_retry_blocked req timed_out;
        match r with
        | CMD_RESULT_DONE => on_client (with_blocked None);; process_input
        | _ => mret tt
        end
  end.

(** The monotonic clock is read once, before the loop. *)
Definition service_blocked (sv : Server) : res Server :=
  let now := sv_mono sv (sv_reads sv) in
  let sv := {| sv_store := sv_store sv; sv_clients := sv_clients sv; sv_cap := sv_cap sv; sv_now := sv_now sv;
               sv_mono := sv_mono sv; sv_reads := S (sv_reads sv) |} in
  for_clients (num_clients sv) 0 (λ i sv, r ← at_client i (service_client now) sv; Ret r.2) sv.

(** The loop of [remove_closed_clients], in place; [free] is the effect of
    [client_free] on the state [st]. *)
Fixpoint compact_loop {A T} (closed : A → bool) (free : A → T → T) (n i kept : nat) (cs : list A) (st : T)
    : res (list A * nat * T) :=
  match n with
  | O => Ret (cs, kept, st)
  | S n' =>
      match cs !! i with
      | None => Undef UB_out_of_bounds
      | Some c =>
          if closed c then compact_loop closed free n' (S i) kept cs (free c st)
          else compact_loop closed free n' (S i) (S kept) (<[kept := c]> cs) st
      end
  end.

(** Without the descriptors nothing is left of [client_free]. *)
Definition remove_closed_clients (sv : Server) : res Server :=
  r ← compact_loop c_closed (λ _ _, tt) (num_clients sv) 0 0 (sv_clients sv) tt;
  let '(cs, kept, _) := r in Ret (with_clients (take kept cs) sv).

(** ** The loop *)

(** What [poll] answers: for each client, the results of reading if it is
    readable; the results of [accept] if the listening socket is; and what the
    sockets will take. *)
Inductive poll_result :=
  | Poll_eintr
  | Poll_error
  | Poll_ready (readable : nat → option (list read_result)) (accepts : option (list accept_result))
      (writable : nat → list write_result).

Definition any_blocked (sv : Server) : bool :=
  existsb (λ c, bool_decide (is_Some (c_blocked_req c))) (sv_clients sv).

Definition read_turn (readable : nat → option (list read_result)) (i : nat) (sv : Server) : res Server :=
  match readable i with
  | None => Ret sv
  | Some rs => r ← at_client i (read_from_client rs) sv; Ret r.2
  end.

Definition write_turn (writable : nat → list write_result) (i : nat) (sv : Server) : res Server :=
  match sv_clients sv !! i with
  | None => Undef UB_out_of_bounds
  | Some c =>
      if negb (c_closed c) && (0 <? blen (c_out c)) then r ← at_client i (write_to_client (writable i)) sv; Ret r.2
      else Ret sv
  end.

(** One iteration: the server, and whether the loop goes on. *)
Definition server_turn (p : poll_result) (sv : Server) : res (Server * bool) :=
  match p with
  | Poll_eintr => Ret (sv, true)
  | Poll_error => Ret (sv, false)
  | Poll_ready readable accepts writable =>
      let parked := any_blocked sv in
      sv ← for_clients (num_clients sv) 0 (read_turn readable) sv;
      let sv := match accepts with Some rs => accept_clients rs sv | None => sv end in
      sv ← (if parked then service_blocked sv else Ret sv);
      sv ← for_clients (num_clients sv) 0 (write_turn writable) sv;
      sv ← remove_closed_clients sv;
      Ret (sv, true)
  end.

(** The iterations until a stop is requested, one [poll_result] each. *)
Fixpoint server_run (ps : list poll_result) (sv : Server) : res Server :=
  match ps with
  | [] => Ret sv
  | p :: ps' =>
      r ← server_turn p sv;
      let '(sv, go_on) := r in
      if go_on : bool then server_run ps' sv else Ret sv
  end.

(** [server_shutdown] *)
Definition server_shutdown (sv : Server) : Server := with_clients [] sv.

End server.

End EventLoop.
