(* ===== verification/EventLoopProps.v ===== *)
(** * What the event loop promises

    The invariant of a server between the iterations of its loop: no client is
    closed, and whatever a connection has put aside - the request it is parked
    on, the commands of its transaction - has passed validation, so that running
    it later reaches its handler.  Handlers must leave the connection state
    alone ([KeepHandlers]), which all of them do.  [remove_closed_clients] is
    shown to be a filter. *)

From S2P Require Import Prelude CLib Util Reply Resp GeoCoord Config Store Txn Cmd Actions CmdString.
From S2P Require Import Commands CommandsProps Handlers Server ServerProps EventLoop.
Import Util Reply Resp Store Txn Cmd Actions Commands CommandsProps Server ServerProps EventLoop.

Module EventLoopProps.

(** ** Actions that leave the connection state alone *)

(** Only output and deadline may differ. *)
Definition same_conn (c c' : Client) : Prop :=
  c_in c' = c_in c ∧ c_txn c' = c_txn c ∧ c_blocked_req c' = c_blocked_req c ∧
  c_close_after_reply c' = c_close_after_reply c ∧ c_closed c' = c_closed c.

#[export] Instance same_conn_preorder : PreOrder same_conn.
Proof. split; [by intros c|]. intros c1 c2 c3. unfold same_conn. intuition congruence. Qed.

Definition keeps {A} (m : M A) : Prop := ∀ w a w', m w = Ret (a, w') → same_conn (w_client w) (w_client w').

Class KeepHandlers `{Handlers} : Prop := handler_keeps p ctx : keeps (handler p ctx).

#[export] Instance keeps_pred : ActionPred (@keeps).
Proof.
  split; try (by intros; intros w x w' [= _ <-]).
  - intros A B m f Q Hm HQ Hf w b w'. unfold mbind, M_bind. destruct (m w) as [[a w1]|] eqn:E; [|done]. intros Hw.
    etrans; [by eapply Hm|]. by eapply Hf; eauto.
  - intros A r w a w'. unfold lift. destruct r; [|done]. by intros [= _ <-].
  - intros A f w a w'. unfold STORE_r, mbind, M_bind, now_ms, get_store, lift. cbn. destruct (f _ _ _); [|done].
    by intros [= _ <-].
Qed.

#[export] Instance pulse_handlers_keeps `{Fnmatch : CmdString.Fnmatch, Libm : GeoCoord.Libm} (cfg : Config.Config) :
  @KeepHandlers (Handlers.pulse_handlers cfg).
Proof. intros p ctx. apply (Handlers.handlers_pred (@keeps)). Qed.

#[export] Instance demo_handlers_keeps : @KeepHandlers Handlers.demo_handlers.
Proof. apply _. Qed.

(** ** Requests that are put aside *)

(** A request that validation has accepted: its name is that of a command with
    a handler, the number of arguments fits, and every argument is a string
    without NUL. *)
Definition runnable (req : RespValue) : Prop :=
  ∃ name spec p, arg_of req 0 = Ret name ∧ command_lookup name = Some spec ∧ cs_proc spec = Some p ∧
    arity_ok spec (length (elements req)) = true ∧ no_nul_args (elements req) = Ret true.

(** What a connection has put aside is runnable, and it is never parked inside
    a transaction. *)
Definition client_ok (c : Client) : Prop :=
  txn_wf (c_txn c) ∧ Forall runnable (txn_cmds (c_txn c)) ∧
  ∀ req, c_blocked_req c = Some req → runnable req ∧ txn_active (c_txn c) = false.

Lemma table_proc spec : spec ∈ command_table → cs_kind spec = KIND_NORMAL → is_Some (cs_proc spec).
Proof.
  assert (forallb (λ sp, negb (bool_decide (cs_kind sp = KIND_NORMAL)) || bool_decide (is_Some (cs_proc sp)))
    command_table = true) as Hall by (vm_compute; reflexivity).
  rewrite forallb_forall in Hall. intros Hin%list_elem_of_In%Hall Hk. rewrite Hk in Hin.
  by apply bool_decide_eq_true in Hin.
Qed.

Lemma command_lookup_table name spec : command_lookup name = Some spec → spec ∈ command_table.
Proof.
  rewrite command_lookup_scan. unfold scan_table. destruct (list_find _ _) as [[i sp]|] eqn:Hf; [|done].
  intros [= <-]. apply list_find_Some in Hf as (Hi & _). by eapply list_elem_of_lookup_2.
Qed.

Lemma validate_runnable req w spec w' :
  validate req w = Ret (Some spec, w') → cs_kind spec = KIND_NORMAL → runnable req.
Proof.
  unfold validate, mbind, M_bind, lift. destruct (arg_of req 0) as [name|] eqn:Hn; [|done].
  destruct (command_lookup name) as [sp|] eqn:Hl; [|done]. destruct (arity_ok sp _) eqn:Ha; [|done]. cbn [negb].
  destruct (no_nul_args (elements req)) as [[]|] eqn:Hu; [|done..]. intros [= <- _] Hk.
  destruct (table_proc sp (command_lookup_table _ _ Hl) Hk) as [p Hp]. exists name, sp, p. done.
Qed.

(** Running it again reaches its handler. *)
Lemma retry_runnable `{Handlers} req timed_out :
  runnable req → ∃ p, ∀ w, command_retry_blocked req timed_out w =
    (st ← handler p (mkCtx req true timed_out); mret (result_of st)) w.
Proof.
  intros (name & spec & p & Hn & Hl & Hp & _). exists p. intros w. unfold command_retry_blocked.
  rewrite (bind_run _ _ _ name w) by (unfold lift; by rewrite Hn). unfold run. by rewrite Hl, Hp.
Qed.

Section invariant.
Context `{KeepHandlers}.

(** [m] keeps [client_ok]. *)
Definition keeps_ok {A} (m : M A) : Prop :=
  ∀ w a w', m w = Ret (a, w') → client_ok (w_client w) → client_ok (w_client w').

Lemma same_conn_ok c c' : same_conn c c' → client_ok c → client_ok c'.
Proof. intros (_ & Ht & Hb & _). unfold client_ok. by rewrite Ht, Hb. Qed.

Lemma keeps_keeps_ok {A} (m : M A) : keeps m → keeps_ok m.
Proof. intros Hm w a w' Hw. apply same_conn_ok. by eapply Hm. Qed.

Lemma keeps_ok_bind {A B} (m : M A) (f : A → M B) : keeps_ok m → (∀ a, keeps_ok (f a)) → keeps_ok (m ≫= f).
Proof.
  intros Hm Hf w b w'. unfold mbind, M_bind. destruct (m w) as [[a w1]|] eqn:E; [|done]. intros Hw Hok.
  eapply Hf; [done|]. by eapply Hm.
Qed.

Lemma keeps_ok_on_client f : (∀ c, client_ok c → client_ok (f c)) → keeps_ok (on_client f).
Proof. intros Hf w a w' [= _ <-]. apply Hf. Qed.

(** A new transaction on a connection that is not parked. *)
Lemma client_ok_txn c t :
  c_blocked_req c = None → txn_wf t → Forall runnable (txn_cmds t) → client_ok (with_txn t c).
Proof. intros Hb Hw Hf. split; [done|]. split; [done|]. cbn. by rewrite Hb. Qed.

Lemma exec_transaction_ok w a w' :
  exec_transaction w = Ret (a, w') → client_ok (w_client w) → c_blocked_req (w_client w) = None →
  client_ok (w_client w') ∧ c_blocked_req (w_client w') = None.
Proof.
  intros Hw Hok Hb. unfold exec_transaction in Hw. rewrite (bind_run _ _ _ (c_txn (w_client w)) w) in Hw by done.
  assert (∀ w1, c_blocked_req (w_client w1) = None → client_ok (with_txn (txn_reset (c_txn (w_client w1))) (w_client w1))) as Hr
    by (intros w1 Hb1; apply client_ok_txn; [done|apply txn_reset_wf|constructor]).
  destruct (txn_error _).
  - injection Hw as _ <-. split; [|done]. cbn. eapply same_conn_ok; [|apply (Hr w Hb)]. done.
  - set (w1 := say (λ o, reply_array o (txn_count (c_txn (w_client w)))) w).
    rewrite (bind_run _ _ _ tt w1) in Hw by done. unfold mbind, M_bind in Hw.
    destruct (exec_loop (txn_cmds (c_txn (w_client w))) w1) as [[[] w2]|] eqn:He; [|done].
    apply (Handlers.exec_loop_pred (@keeps) handler_keeps) in He. destruct He as (_ & _ & Hb2 & _).
    cbn in Hw. injection Hw as _ <-. split; [|cbn; by rewrite Hb2]. apply Hr. rewrite Hb2. done.
Qed.

Lemma command_process_ok req w r w' :
  command_process req w = Ret (r, w') → client_ok (w_client w) → c_blocked_req (w_client w) = None →
  client_ok (w_client w') ∧ c_blocked_req (w_client w') = None ∧
  (r = CMD_RESULT_BLOCKED → runnable req ∧ txn_active (c_txn (w_client w')) = false).
Proof.
  intros Hw Hok Hb. unfold command_process in Hw.
  unfold mbind at 1, M_bind at 1 in Hw. destruct (validate req w) as [[spec w1]|] eqn:Hv; [|done].
  pose proof (Handlers.validate_pred (@keeps) req _ _ _ Hv) as Hk. pose proof (same_conn_ok _ _ Hk Hok) as Hok1.
  destruct Hk as (_ & Ht & Hb1 & _). rewrite Hb in Hb1.
  rewrite (bind_run _ _ _ (c_txn (w_client w1)) w1) in Hw by done. set (t := c_txn (w_client w1)) in *.
  destruct Hok1 as (Hwf & Hcmds & _). fold t in Hwf, Hcmds.
  assert (∀ t' w2, c_txn (w_client w2) = t' → c_blocked_req (w_client w2) = None → txn_wf t' → Forall runnable (txn_cmds t') →
    client_ok (w_client w2)) as Hset.
  { intros t' w2 <- Hb2 Hwf' Hc'. split; [done|]. split; [done|]. by rewrite Hb2. }
  destruct spec as [spec|].
  - destruct (cs_kind spec) eqn:Hkind.
    + destruct (txn_active t) eqn:Ha.
      * destruct (txn_queue t req) as [t'|] eqn:Hq; injection Hw as <- <-.
        { destruct (txn_queue_wf t req t' Hwf Ha Hq) as (Hwf' & _ & Hc' & _). split; [|done].
          apply (Hset t'); [done..|]. rewrite Hc'. apply Forall_app. split; [done|]. constructor; [|done].
          by eapply validate_runnable. }
        split; [|done]. apply (Hset (set_error t)); [done..| |done]. destruct Hwf as [Hl Hi]. split; [done|]. cbn. congruence.
      * unfold mbind, M_bind in Hw. destruct (run (Some spec) req true false w1) as [[st w2]|] eqn:Hr; [|done].
        apply (Handlers.run_pred (@keeps) handler_keeps) in Hr as (_ & Ht2 & Hb2 & _). injection Hw as <- <-.
        rewrite Hb1 in Hb2. split; [apply (Hset t); done|]. split; [done|]. intros _. rewrite Ht2. split; [|done].
        by eapply validate_runnable.
    + destruct (txn_active t) eqn:Ha; injection Hw as <- <-.
      * split; [|done]. by apply (Hset t).
      * split; [|done]. apply (Hset (set_active t)); [done..| |done]. destruct Hwf as [Hl Hi]. split; [done|]. cbn. done.
    + destruct (txn_active t) eqn:Ha; cbn [negb] in Hw.
      * unfold mbind at 1, M_bind at 1 in Hw. destruct (exec_transaction w1) as [[[] w2]|] eqn:He; [|done].
        injection Hw as <- <-. apply exec_transaction_ok in He as [Hok2 Hb2]; [done|by apply (Hset t)|done].
      * injection Hw as <- <-. split; [|done]. by apply (Hset t).
    + destruct (txn_active t) eqn:Ha; cbn [negb] in Hw; injection Hw as <- <-.
      * split; [|done]. apply (Hset (txn_reset t)); [done..|apply txn_reset_wf|constructor].
      * split; [|done]. by apply (Hset t).
  - destruct (txn_active t) eqn:Ha; injection Hw as <- <-.
    + split; [|done]. apply (Hset (set_error t)); [done..| |done]. destruct Hwf as [Hl Hi]. split; [done|]. cbn. congruence.
    + split; [|done]. by apply (Hset t).
Qed.

Lemma handle_ok req w a w' :
  handle req w = Ret (a, w') → client_ok (w_client w) → c_blocked_req (w_client w) = None → client_ok (w_client w').
Proof.
  unfold handle. destruct (_ =? _); [by intros [= _ <-]|]. unfold mbind, M_bind.
  destruct (command_process req w) as [[r w1]|] eqn:Hp; [|done]. intros Hw Hok Hb.
  apply command_process_ok in Hp as (Hok1 & Hb1 & Hr); [|done..].
  destruct r; injection Hw as _ <-; [done| |done]. destruct (Hr eq_refl) as [Hreq Ha].
  destruct Hok1 as (Hwf & Hc & _). split; [done|]. split; [done|]. by intros req' [= <-].
Qed.

Lemma process_loop_ok f pos : keeps_ok (process_loop f pos).
Proof.
  revert pos. induction f as [|f IH]; intros pos w a w'; [by intros [= _ <-]|]. rewrite loop_S.
  destruct (stopped (w_client w)) eqn:Hst; [by intros [= _ <-]|]. cbn [orb]. destruct (_ <=? _); [by intros [= _ <-]|].
  destruct (resp_parse_command _) as [[req used]| | |u]; [|by intros [= _ <-]..|done].
  destruct (handle req w) as [[[] w1]|] eqn:Hh; [|done]. intros Hw Hok. eapply IH; [done|].
  eapply handle_ok; [done..|]. apply orb_false_iff in Hst as [Hb _]. apply bool_decide_eq_false in Hb.
  by apply eq_None_not_Some.
Qed.

(** Changes that leave transaction and parked request alone. *)
Lemma client_ok_frame c c' : c_txn c' = c_txn c → c_blocked_req c' = c_blocked_req c → client_ok c → client_ok c'.
Proof. intros Ht Hb. unfold client_ok. by rewrite Ht, Hb. Qed.

Lemma keeps_ok_frame f :
  (∀ c, c_txn (f c) = c_txn c) → (∀ c, c_blocked_req (f c) = c_blocked_req c) → keeps_ok (on_client f).
Proof. intros Ht Hb. apply keeps_ok_on_client. intros c. by apply client_ok_frame. Qed.

Lemma keeps_ok_get_client {A} (f : Client → M A) : (∀ c, keeps_ok (f c)) → keeps_ok (c ← get_client; f c).
Proof. intros Hf w a w'. rewrite (bind_run _ _ _ (w_client w) w) by done. apply Hf. Qed.

Lemma process_input_ok : keeps_ok process_input.
Proof.
  unfold process_input. apply keeps_ok_get_client. intros c. apply keeps_ok_bind; [apply process_loop_ok|]. intros pos.
  apply keeps_ok_bind; [by apply keeps_ok_frame|]. intros _. apply keeps_ok_get_client. intros c'.
  destruct (_ <? _)%Z; [|apply keeps_keeps_ok, (pred_ret (P := @keeps))].
  apply keeps_ok_bind; [apply keeps_keeps_ok; by intros ? ? ? [= _ <-]|]. intros _. by apply keeps_ok_frame.
Qed.

Lemma read_loop_ok rs : keeps_ok (read_loop rs).
Proof.
  intros w a w' Hw. destruct (read_loop_spec rs w) as (b & _ & He). rewrite He in Hw. injection Hw as _ <-.
  apply client_ok_frame; by destruct (outcome rs).2.
Qed.

Lemma read_from_client_ok rs : keeps_ok (read_from_client rs).
Proof.
  unfold read_from_client. apply keeps_ok_bind; [apply read_loop_ok|].
  intros [eof|]; [|apply keeps_keeps_ok, (pred_ret (P := @keeps))].
  apply keeps_ok_bind; [apply process_input_ok|]. intros _.
  destruct eof; [|apply keeps_keeps_ok, (pred_ret (P := @keeps))].
  apply keeps_ok_frame; intros c; unfold at_eof; by repeat case_match.
Qed.

Lemma write_to_client_ok ws : keeps_ok (write_to_client ws).
Proof.
  intros w a w'. unfold write_to_client. rewrite (bind_run _ _ _ (w_client w) w) by done.
  destruct (write_loop _ _ _) as [sent failed]. intros [= _ <-]. cbn.
  apply client_ok_frame; destruct failed; cbn; by case_match.
Qed.

Lemma service_client_ok now : keeps_ok (service_client now).
Proof.
  intros w a w'. unfold service_client. rewrite (bind_run _ _ _ (w_client w) w) by done.
  destruct (c_blocked_req (w_client w)) as [req|] eqn:Hb; [|by intros [= _ <-]].
  destruct (c_closed _); [by intros [= _ <-]|]. unfold mbind at 1, M_bind at 1.
  destruct (command_retry_blocked req _ w) as [[r w1]|] eqn:Hr; [|done].
  apply (Handlers.command_retry_blocked_pred (@keeps) handler_keeps) in Hr. intros Hw Hok.
  apply same_conn_ok in Hr; [|done]. destruct r; [|by injection Hw as _ <-..].
  eapply process_input_ok; [exact Hw|]. destruct Hr as (Hwf & Hc & _). by split; [|split].
Qed.

(** ** The server *)

Definition clients_ok (sv : Server) : Prop := Forall client_ok (sv_clients sv).

Definition server_inv (sv : Server) : Prop := clients_ok sv ∧ Forall (λ c, c_closed c = false) (sv_clients sv).

Lemma at_client_ok {A} i (m : M A) sv a sv' :
  keeps_ok m → at_client i m sv = Ret (a, sv') → clients_ok sv → clients_ok sv'.
Proof.
  intros Hm. unfold at_client. destruct (sv_clients sv !! i) as [c|] eqn:Hi; [|done]. cbn.
  destruct (m _) as [[b w]|] eqn:Hw; [|done]. intros [= _ <-] Hok. apply Forall_insert; [done|].
  eapply Hm; [done|]. by eapply Forall_lookup_1 in Hi.
Qed.

Lemma for_clients_ok n lo f sv sv' :
  (∀ i sv sv', f i sv = Ret sv' → clients_ok sv → clients_ok sv') →
  for_clients n lo f sv = Ret sv' → clients_ok sv → clients_ok sv'.
Proof.
  intros Hf. revert lo sv. induction n as [|n IH]; intros lo sv; cbn [for_clients]; [by intros [= <-]|].
  intros (sv1 & H1 & H2)%res_bind_inv Hok. eapply IH; [done|]. by eapply Hf.
Qed.

Lemma accept_clients_ok rs sv : clients_ok sv → clients_ok (accept_clients rs sv).
Proof.
  revert sv. induction rs as [|[[]|] rs IH]; intros sv Hok; [done| |by apply IH|done]. apply IH.
  apply Forall_app. split; [done|]. constructor; [|done]. split; [|done]. split; [cbn; lia|done].
Qed.

Lemma service_blocked_ok sv sv' : service_blocked sv = Ret sv' → clients_ok sv → clients_ok sv'.
Proof.
  intros Hs Hok. eapply for_clients_ok; [|exact Hs|exact Hok]. intros i x y ([a z] & H1 & [= <-])%res_bind_inv.
  by eapply at_client_ok, H1; apply service_client_ok.
Qed.

(** ** Removing closed clients *)

(** The in-place loop: what it has kept is at the front, and what it has not
    seen yet is untouched. *)
Lemma compact_loop_spec {A T} (closed : A → bool) (free : A → T → T) n front seen rest st :
  n = length rest → (length front ≤ length seen) →
  ∃ junk, compact_loop closed free n (length seen) (length front) (front ++ drop (length front) seen ++ rest) st =
    Ret ((front ++ filter (λ c, closed c = false) rest) ++ junk,
         length (front ++ filter (λ c, closed c = false) rest),
         foldl (λ st c, free c st) st (filter (λ c, closed c = true) rest)).
Proof.
  revert front seen rest st. induction n as [|n IH]; intros front seen rest st Hn Hle.
  { destruct rest; [|done]. exists (drop (length front) seen). cbn [compact_loop].
    change (filter (λ c, closed c = false) []) with (@nil A). change (filter _ []) with (@nil A).
    by rewrite !app_nil_r. }
  destruct rest as [|c rest]; [done|]. injection Hn as Hn. cbn [compact_loop].
  assert ((front ++ drop (length front) seen ++ c :: rest) !! length seen = Some c) as ->.
  { rewrite lookup_app_r, lookup_app_r, length_drop by (rewrite ?length_drop; lia).
    by replace (length seen - length front - (length seen - length front)) with 0 by lia. }
  rewrite !filter_cons. destruct (closed c) eqn:Hc.
  - rewrite decide_False, decide_True by congruence. specialize (IH front (seen ++ [c]) rest (free c st) Hn).
    rewrite length_app, drop_app_le, <- !app_assoc, Nat.add_1_r in IH by lia. apply IH. cbn. lia.
  - rewrite decide_True, decide_False by done.
    specialize (IH (front ++ [c]) (seen ++ [c]) rest st Hn). rewrite !length_app in IH. cbn [length] in IH.
    rewrite !Nat.add_1_r in IH. rewrite <- !(app_assoc front [c]) in IH. cbn [app] in IH.
    assert (<[length front := c]> (front ++ drop (length front) seen ++ c :: rest) =
      front ++ c :: drop (S (length front)) (seen ++ [c]) ++ rest) as ->;
      [|destruct (IH ltac:(lia)) as [junk ->]; exists junk; do 3 f_equal; rewrite length_app; cbn [length]; lia].
    rewrite insert_app_r_alt, Nat.sub_diag by lia. f_equal.
    destruct (decide (length front = length seen)) as [->|Hne].
    + rewrite !drop_ge by (rewrite ?length_app; cbn; lia). done.
    + destruct (lookup_lt_is_Some_2 seen (length front)) as [d Hd]; [lia|].
      rewrite (drop_S seen d) by done. cbn. rewrite drop_app_le by lia. by rewrite <- app_assoc.
Qed.

Lemma remove_closed_filter sv :
  remove_closed_clients sv = Ret (with_clients (filter (λ c, c_closed c = false) (sv_clients sv)) sv).
Proof.
  unfold remove_closed_clients, num_clients.
  destruct (compact_loop_spec c_closed (λ _ _, tt) (length (sv_clients sv)) [] [] (sv_clients sv) tt) as [junk Hj]; [done..|].
  cbn in Hj. rewrite Hj. cbn. by rewrite take_app_length.
Qed.

(** ** Turns *)

(** The phases of a turn in which [poll] succeeded. *)
Lemma server_turn_phases readable accepts writable sv sv' b :
  server_turn (Poll_ready readable accepts writable) sv = Ret (sv', b) →
  ∃ sv1 sv2 sv3,
    for_clients (num_clients sv) 0 (read_turn readable) sv = Ret sv1 ∧
    (if any_blocked sv then service_blocked (default sv1 ((λ rs, accept_clients rs sv1) <$> accepts))
     else Ret (default sv1 ((λ rs, accept_clients rs sv1) <$> accepts))) = Ret sv2 ∧
    for_clients (num_clients sv2) 0 (write_turn writable) sv2 = Ret sv3 ∧
    sv' = with_clients (filter (λ c, c_closed c = false) (sv_clients sv3)) sv3.
Proof.
  cbn [server_turn]. intros (sv1 & H1 & (sv2 & H2 & (sv3 & H3 & H4)%res_bind_inv)%res_bind_inv)%res_bind_inv.
  rewrite remove_closed_filter in H4. injection H4 as <- _. exists sv1, sv2, sv3. by destruct accepts.
Qed.

Lemma server_turn_inv p sv sv' b : server_turn p sv = Ret (sv', b) → server_inv sv → server_inv sv'.
Proof.
  destruct p as [| |readable accepts writable]; [by intros [= <- _]..|]. intros Ht [Hok _].
  apply server_turn_phases in Ht as (sv1 & sv2 & sv3 & H1 & H2 & H3 & ->).
  assert (clients_ok sv1) as Hok1.
  { eapply for_clients_ok; [|exact H1|exact Hok]. intros i x y. unfold read_turn.
    destruct (readable i) as [rs|]; [|by intros [= <-]]. intros ([a z] & Ha & [= <-])%res_bind_inv.
    by eapply at_client_ok, Ha; apply read_from_client_ok. }
  assert (clients_ok sv2) as Hok2.
  { assert (clients_ok (default sv1 ((λ rs, accept_clients rs sv1) <$> accepts))) as Hacc
      by (destruct accepts; [by apply accept_clients_ok|done]).
    destruct (any_blocked sv); [by eapply service_blocked_ok|by injection H2 as <-]. }
  assert (clients_ok sv3) as Hok3.
  { eapply for_clients_ok; [|exact H3|exact Hok2]. intros i x y. unfold write_turn.
    destruct (sv_clients x !! i) as [c|]; [|done]. destruct (_ && _); [|by intros [= <-]].
    intros ([a z] & Ha & [= <-])%res_bind_inv. by eapply at_client_ok, Ha; apply write_to_client_ok. }
  split; apply Forall_forall; intros c [Hc Hin]%list_elem_of_filter; [|done].
  by eapply (proj1 (Forall_forall _ _) Hok3).
Qed.

(** The states of a server between the iterations of its loop. *)
Inductive reachable : Server → Prop :=
| reach_init s now mono : reachable (server_init s now mono)
| reach_turn sv p sv' go_on : reachable sv → server_turn p sv = Ret (sv', go_on) → reachable sv'.

Lemma reachable_inv sv : reachable sv → server_inv sv.
Proof. induction 1 as [|sv p sv' b _ IH Ht]; [by split; constructor|]. by eapply server_turn_inv. Qed.

(** C24: whatever the clients send and however the network behaves, between two
    iterations of the event loop no client of the list is closed; a connection
    that is parked is not inside a transaction, and retrying its request reaches
    the handler of a known command; and the queue of a transaction holds at most
    1024 requests, each of them validated.  In particular neither the retry nor
    EXEC can look up a command that does not exist. *)
Theorem parked_requests_runnable (sv : Server) (c : Client) :
  reachable sv → c ∈ sv_clients sv →
  c_closed c = false ∧
  (∀ req timed_out, c_blocked_req c = Some req →
     txn_active (c_txn c) = false ∧
     ∃ p, ∀ w, command_retry_blocked req timed_out w =
       (st ← handler p (mkCtx req true timed_out); mret (result_of st)) w) ∧
  txn_count (c_txn c) ≤ TXN_MAX_CMDS ∧ Forall runnable (txn_cmds (c_txn c)).
Proof.
  intros [Hok Hcl]%reachable_inv Hc. unfold clients_ok in Hok. rewrite Forall_forall in Hok, Hcl.
  destruct (Hok c Hc) as ([Hn _] & Hcmds & Hb). split; [by apply Hcl|]. split; [|done]. intros req timed_out Hr.
  destruct (Hb req Hr) as [Hrun Ha]. split; [done|]. by apply retry_runnable.
Qed.

(** ** Connections do not disturb each other *)

Lemma at_client_other {A} i j (m : M A) sv a sv' :
  at_client j m sv = Ret (a, sv') → i ≠ j → sv_clients sv' !! i = sv_clients sv !! i.
Proof.
  unfold at_client. destruct (sv_clients sv !! j); [|done]. cbn. destruct (m _) as [[b w]|]; [|done].
  intros [= _ <-] Hij. cbn. by rewrite list_lookup_insert_ne.
Qed.

Lemma for_clients_lookup n lo f sv sv' i c :
  (∀ j x y, f j x = Ret y → sv_clients x !! i = Some c → sv_clients y !! i = Some c) →
  for_clients n lo f sv = Ret sv' → sv_clients sv !! i = Some c → sv_clients sv' !! i = Some c.
Proof.
  intros Hf. revert lo sv. induction n as [|n IH]; intros lo sv; cbn [for_clients]; [by intros [= <-]|].
  intros (sv1 & H1 & H2)%res_bind_inv Hi. eapply IH; [done|]. by eapply Hf.
Qed.

Lemma accept_clients_lookup rs sv i c :
  sv_clients sv !! i = Some c → sv_clients (accept_clients rs sv) !! i = Some c.
Proof.
  revert sv. induction rs as [|[[]|] rs IH]; intros sv Hi; [done| |by apply IH|done]. apply IH. cbn.
  by apply lookup_app_l_Some.
Qed.

Lemma service_client_idle now w : c_blocked_req (w_client w) = None → service_client now w = Ret (tt, w).
Proof. intros Hb. unfold service_client. cbv [get_client mbind M_bind]. cbn. by rewrite Hb. Qed.

Lemma service_blocked_lookup sv sv' i c :
  service_blocked sv = Ret sv' → c_blocked_req c = None → sv_clients sv !! i = Some c → sv_clients sv' !! i = Some c.
Proof.
  intros Hs Hb Hi. unfold service_blocked in Hs. eapply for_clients_lookup; [|exact Hs|exact Hi].
  intros j x y ([a z] & Ha & [= <-])%res_bind_inv Hx. destruct (decide (i = j)) as [->|Hij].
  - unfold at_client in Ha. rewrite Hx, service_client_idle in Ha by done. cbn in Ha. injection Ha as _ <-. cbn.
    by rewrite list_insert_id.
  - cbn. by rewrite (at_client_other i j _ _ _ _ Ha Hij).
Qed.

(** A connection that is idle - nothing to read, not parked, nothing to
    send, open - is not affected by an iteration of the loop at all, whatever
    the other clients do: its buffers, transaction and flags are the same
    afterwards. *)
Lemma idle_client_untouched (readable : nat → option (list read_result)) (accepts : option (list accept_result))
    (writable : nat → list write_result) (sv sv' : Server) (go_on : bool) (i : nat) (c : Client) :
  server_turn (Poll_ready readable accepts writable) sv = Ret (sv', go_on) →
  sv_clients sv !! i = Some c → readable i = None →
  c_blocked_req c = None → c_closed c = false → data (c_out c) = [] →
  c ∈ sv_clients sv'.
Proof.
  intros Ht Hi Hr Hb Hcl Ho. apply server_turn_phases in Ht as (sv1 & sv2 & sv3 & H1 & H2 & H3 & ->). cbn.
  assert (sv_clients sv1 !! i = Some c) as Hi1.
  { eapply for_clients_lookup; [|exact H1|exact Hi]. intros j x y. unfold read_turn.
    destruct (readable j) as [rs|] eqn:Hj; [|by intros [= <-]]. intros ([a z] & Ha & [= <-])%res_bind_inv Hx. cbn.
    by rewrite (at_client_other i j _ _ _ _ Ha) by congruence. }
  assert (sv_clients sv2 !! i = Some c) as Hi2.
  { assert (sv_clients (default sv1 ((λ rs, accept_clients rs sv1) <$> accepts)) !! i = Some c) as Hacc
      by (destruct accepts; [by apply accept_clients_lookup|done]).
    destruct (any_blocked sv); [by eapply service_blocked_lookup|by injection H2 as <-]. }
  assert (sv_clients sv3 !! i = Some c) as Hi3.
  { eapply for_clients_lookup; [|exact H3|exact Hi2]. intros j x y. unfold write_turn. intros Hw Hx.
    destruct (decide (i = j)) as [->|Hij].
    - rewrite Hx in Hw. unfold blen in Hw. rewrite Ho, andb_false_r in Hw. by injection Hw as <-.
    - destruct (sv_clients x !! j); [|done]. destruct (_ && _); [|by injection Hw as <-].
      apply res_bind_inv in Hw as ([a z] & Ha & [= <-]). cbn. by rewrite (at_client_other i j _ _ _ _ Ha Hij). }
  apply list_elem_of_filter. split; [done|]. by eapply list_elem_of_lookup_2.
Qed.

End invariant.

(** ** Examples *)

(** Two clients: the first parks itself on a list, the second pushes to it. *)
Definition demo_server : Server := server_init store_create (λ n, Z.of_nat n) (λ n, Z.of_nat n).

Definition demo_polls : list poll_result :=
  [Poll_ready (λ _, None) (Some [Accept_fd true; Accept_fd true]) (λ _, []);
   Poll_ready (λ i, if i =? 0 then Some [Read_data (#"BLPOP q 0" ++ [LF])] else None) None (λ _, [])].

Definition demo_parked : Server := Eval vm_compute in
  match server_run (H := Handlers.demo_handlers) demo_polls demo_server with Ret sv => sv | Undef _ => demo_server end.

(** The second client is idle while the first one is being parked. *)
Definition demo_connected : Server := Eval vm_compute in
  match server_run (H := Handlers.demo_handlers) (take 1 demo_polls) demo_server with
  | Ret sv => sv | Undef _ => demo_server
  end.

Definition demo_read : nat → option (list read_result) :=
  λ i, if i =? 0 then Some [Read_data (#"BLPOP q 0" ++ [LF])] else None.

Lemma parked_requests_runnable_witness : ∃ sv c,
  reachable (H := Handlers.demo_handlers) sv ∧ c ∈ sv_clients sv ∧ is_Some (c_blocked_req c) ∧
  txn_active (c_txn c) = false.
Proof.
  assert (reachable (H := Handlers.demo_handlers) demo_parked) as Hr.
  { eapply reach_turn with (sv := demo_connected) (p := Poll_ready demo_read None (λ _, [])); [|vm_compute; reflexivity].
    eapply reach_turn with (p := Poll_ready (λ _, None) (Some [Accept_fd true; Accept_fd true]) (λ _, []));
      [apply (reach_init store_create (λ n, Z.of_nat n) (λ n, Z.of_nat n))|vm_compute; reflexivity]. }
  destruct (sv_clients demo_parked) as [|c cs] eqn:Hcs; [discriminate|].
  assert (c ∈ sv_clients demo_parked) as Hc by (rewrite Hcs; left).
  assert (∃ req, c_blocked_req c = Some req) as [req Hreq].
  { vm_compute in Hcs. injection Hcs as <- _. eexists. reflexivity. }
  exists demo_parked, c. split; [exact Hr|]. split; [exact Hc|]. split; [by exists req|].
  destruct (parked_requests_runnable demo_parked c Hr Hc) as (_ & Hb & _). apply (Hb req false Hreq).
Defined.

Lemma idle_client_untouched_witness : new_client ∈ sv_clients demo_parked.
Proof.
  apply (idle_client_untouched (H := Handlers.demo_handlers) demo_read None (λ _, []) demo_connected demo_parked true 1
    new_client); vm_compute; reflexivity.
Defined.

End EventLoopProps.
