(* ===== verification/Requests.v ===== *)
(** * server.c, commands.c, txn.c: who frees a request

    A request is allocated by the parser and freed by whoever has it last: by
    [process_input] once it was run, by the transaction that queued it, by
    [service_blocked] once a parked client was served, or by [client_free].
    These functions once more, with the requests in memory ([RespMem]) and the
    pointers to them: [cmds] is the used part of the array [txn.cmds], [blocked]
    is [blocked_req].  A request is read through its pointer.  What the world of
    [Cmd] has of them, their contents, is kept in step; everything else of a
    connection stays there. *)

From S2P Require Import Prelude Util Reply Resp Mem RespMem Store Txn Cmd Commands Server EventLoop.
Import Util Reply Resp Mem Store Txn Cmd Commands Server EventLoop.

Module Requests.

Abbreviation Ptr := RespMem.Ptr.
Abbreviation Heap := (gmap loc RespMem.Block).
Abbreviation Mem := (Prog RespMem.Block).

Record State := mkState { world : World; cmds : list Ptr; blocked : option Ptr }.

(** Programs on a connection and the heap. *)
Definition R (A : Type) : Type := State → Mem (A * State).

Global Instance R_ret : MRet R := λ A a s, mret (a, s).
Global Instance R_bind : MBind R := λ A B f m s, r ← m s; f r.1 r.2.

(** A step that does not touch requests, and one on the heap alone. *)
Definition on_world {A} (m : M A) : R A := λ s h,
  match m (world s) with
  | Ret (a, w) => Ret ((a, {| world := w; cmds := cmds s; blocked := blocked s |}), h)
  | Undef u => Undef u
  end.

Definition on_heap {A} (m : Mem A) : R A := λ s, a ← m; mret (a, s).

Definition get_cmds : R (list Ptr) := λ s, mret (cmds s, s).
Definition set_cmds (ps : list Ptr) : R () := λ s, mret (tt, {| world := world s; cmds := ps; blocked := blocked s |}).
Definition get_blocked : R (option Ptr) := λ s, mret (blocked s, s).
Definition set_blocked (p : option Ptr) : R () := λ s, mret (tt, {| world := world s; cmds := cmds s; blocked := p |}).

Definition read_request (p : Ptr) : R RespValue := on_heap (RespMem.read_value RespMem.CLEAR_DEPTH p).
Definition resp_free (p : option Ptr) : R () := on_heap (RespMem.resp_free p).

(** ** The transaction *)

Fixpoint free_cmds (ps : list Ptr) : R () :=
  match ps with
  | [] => mret tt
  | p :: ps' => resp_free (Some p);; free_cmds ps'
  end.

Definition txn_reset : R () :=
  ps ← get_cmds;
  free_cmds ps;;
  set_cmds [];;
  txn ← on_world get_txn;
  on_world (set_txn (Txn.txn_reset txn)).

(** [false] is the return value -1. *)
Definition txn_queue (cmd : Ptr) (req : RespValue) : R bool :=
  ps ← get_cmds;
  if TXN_MAX_CMDS <=? length ps then mret false
  else
    set_cmds (ps ++ [cmd]);;
    txn ← on_world get_txn;
    on_world (set_txn {| txn_cmds := txn_cmds txn ++ [req]; txn_active := txn_active txn; txn_error := txn_error txn |});;
    mret true.

Section dispatch.
Context `{Handlers}.

Fixpoint exec_loop (ps : list Ptr) : R () :=
  match ps with
  | [] => mret tt
  | p :: ps' =>
      req ← read_request p;
      name ← on_world (lift (arg_of req 0));
      on_world (run (command_lookup name) req false false);;
      exec_loop ps'
  end.

Definition exec_transaction : R () :=
  txn ← on_world get_txn;
  if txn_error txn then
    txn_reset;;
    on_world (OUT (λ o, reply_error o #"EXECABORT Transaction discarded because of previous errors."))
  else
    ps ← get_cmds;
    on_world (OUT (λ o, reply_array o (length ps)));;
    exec_loop ps;;
    txn_reset.

Definition command_process (p : Ptr) : R CommandResult :=
  req ← read_request p;
  spec ← on_world (validate req);
  txn ← on_world get_txn;
  match spec with
  | None =>
      (if txn_active txn then on_world (set_txn (set_error txn)) else mret tt);;
      mret CMD_RESULT_DONE
  | Some spec =>
      match cs_kind spec with
      | KIND_MULTI =>
          (if txn_active txn then on_world (OUT (λ o, reply_error o #"ERR MULTI calls can not be nested"))
           else on_world (set_txn (set_active txn));; on_world (OUT (λ o, reply_simple o #"OK")));;
          mret CMD_RESULT_DONE
      | KIND_EXEC =>
          (if negb (txn_active txn) then on_world (OUT (λ o, reply_error o #"ERR EXEC without MULTI"))
           else exec_transaction);;
          mret CMD_RESULT_DONE
      | KIND_DISCARD =>
          (if negb (txn_active txn) then on_world (OUT (λ o, reply_error o #"ERR DISCARD without MULTI"))
           else txn_reset;; on_world (OUT (λ o, reply_simple o #"OK")));;
          mret CMD_RESULT_DONE
      | KIND_NORMAL =>
          if txn_active txn then
            queued ← txn_queue p req;
            if queued : bool then
              on_world (OUT (λ o, reply_simple o #"QUEUED"));;
              mret CMD_RESULT_QUEUED
            else
              on_world (set_txn (set_error txn));;
              on_world (OUT (λ o, reply_error o #"ERR transaction queue is full"));;
              mret CMD_RESULT_DONE
          else
            st ← on_world (run (Some spec) req true false);
            mret (result_of st)
      end
  end.

Definition command_retry_blocked (p : Ptr) (timed_out : bool) : R CommandResult :=
  req ← read_request p;
  name ← on_world (lift (arg_of req 0));
  st ← on_world (run (command_lookup name) req true timed_out);
  mret (result_of st).

(** ** The connection *)

Fixpoint process_loop (fuel : nat) (pos : nat) : R nat :=
  match fuel with
  | O => mret pos
  | S f =>
      c ← on_world get_client;
      parked ← get_blocked;
      if bool_decide (is_Some parked) || c_close_after_reply c || (blen (c_in c) <=? pos)
      then mret pos
      else
        r ← on_heap (RespMem.resp_parse_command (drop pos (data (c_in c))));
        match r with
        | RespMem.Unparsed RespMem.INCOMPLETE => mret pos
        | RespMem.Unparsed _ =>
            on_world (OUT (λ o, reply_error o #"ERR Protocol error"));;
            on_world (on_client (with_close true));;
            mret pos
        | RespMem.Parsed p used =>
            req ← read_request p;
            if length (elements req) =? 0 then resp_free (Some p);; process_loop f (pos + used)
            else
              r ← command_process p;
              match r with
              | CMD_RESULT_DONE => resp_free (Some p);; process_loop f (pos + used)
              | CMD_RESULT_QUEUED => process_loop f (pos + used)
              | CMD_RESULT_BLOCKED =>
                  set_blocked (Some p);;
                  on_world (on_client (with_blocked (Some req)));;
                  process_loop f (pos + used)
              end
        end
  end.

Definition process_input : R () :=
  c ← on_world get_client;
  pos ← process_loop (S (blen (c_in c))) 0;
  on_world (on_client (λ c, with_in (buffer_consume (c_in c) pos) c));;
  c ← on_world get_client;
  if (CLIENT_MAX_QUERY_BUF <? Z.of_nat (blen (c_in c)))%Z then
    on_world (OUT (λ o, reply_error o #"ERR Protocol error: request too large"));;
    on_world (on_client (with_close true))
  else mret tt.

Definition read_from_client (rs : list read_result) : R () :=
  r ← on_world (read_loop rs);
  match r with
  | None => mret tt
  | Some eof => process_input;; if (eof : bool) then on_world (on_client at_eof) else mret tt
  end.

Definition service_client (now : Z) : R () :=
  c ← on_world get_client;
  parked ← get_blocked;
  match parked with
  | None => mret tt
  | Some p =>
      if c_closed c then mret tt
      else
        let timed_out := negb (c_block_deadline c =? 0)%Z && (c_block_deadline c <=? now)%Z in
        r ← command_retry_blocked p timed_out;
        match r with
        | CMD_RESULT_DONE =>
            resp_free (Some p);;
            set_blocked None;;
            on_world (on_client (with_blocked None));;
            process_input
        | _ => mret tt
        end
  end.

(** The requests that [client_free] gives back. *)
Definition client_free : R () :=
  txn_reset;;
  p ← get_blocked;
  resp_free p.

(** ** A connection *)

(** What happens to a connection: its socket is readable or writable, parked
    clients are served, or other connections have changed the store. *)
Inductive turn :=
  | T_read (rs : list read_result)
  | T_write (ws : list write_result)
  | T_serve (now : Z)
  | T_others (s : Store).

Definition take_turn (t : turn) : R () :=
  match t with
  | T_read rs => read_from_client rs
  | T_write ws => on_world (write_to_client ws);; mret tt
  | T_serve now => service_client now
  | T_others s => on_world (set_store s)
  end.

Fixpoint take_turns (ts : list turn) : R () :=
  match ts with
  | [] => mret tt
  | t :: ts' => take_turn t;; take_turns ts'
  end.

(** From the first turn of a connection to [client_free]: the world it leaves. *)
Definition connection (ts : list turn) (w : World) : Mem World :=
  r ← take_turns ts (mkState w [] None);
  client_free r.2;;
  mret (world r.2).

(** The same turns without memory. *)
Definition turn_of (t : turn) : M () :=
  match t with
  | T_read rs => Server.read_from_client rs
  | T_write ws => write_to_client ws;; mret tt
  | T_serve now => EventLoop.service_client now
  | T_others s => set_store s
  end.

Fixpoint turns_of (ts : list turn) : M () :=
  match ts with
  | [] => mret tt
  | t :: ts' => turn_of t;; turns_of ts'
  end.

End dispatch.

End Requests.
