(* ===== verification/RequestsProps.v ===== *)
(** * Every request is freed once

    The connection with its requests in memory does what the connection of
    [Server] and [EventLoop] does, and its pointers are exactly to the requests
    it has put aside: those queued by MULTI and the one it is parked on.  So
    after any life of a connection [client_free] leaves no request behind. *)

From iris.proofmode Require Import proofmode.
From S2P Require Import Prelude CLib Util Reply Resp Mem SepLogic RespMem RespMemProps Store Txn Cmd Actions Commands CommandsProps Handlers Server EventLoop EventLoopProps Requests.
Import Util Reply Resp Mem RespMemProps Store Txn Cmd Actions Commands Server EventLoop EventLoopProps Requests.

Module RequestsProps.

Abbreviation hProp := (heapProp RespMem.Block).

(** ** The memory of requests *)

Definition req_at (v : RespValue) (p : Ptr) : hProp := HeapProp (value_own v p).

Definition cmds_at (vs : list RespValue) (ps : list Ptr) : hProp := ([∗ list] v;p ∈ vs;ps, req_at v p)%I.

Definition parked_at (v : option RespValue) (p : option Ptr) : hProp :=
  match v, p with
  | None, None => emp
  | Some v, Some p => req_at v p
  | _, _ => False
  end%I.

(** The requests that a connection has put aside. *)
Definition owned (w : World) (ps : list Ptr) (b : option Ptr) : hProp :=
  (cmds_at (txn_cmds (c_txn (w_client w))) ps ∗ parked_at (c_blocked_req (w_client w)) b)%I.

Lemma owned_same w w' ps b :
  same_conn (w_client w) (w_client w') → owned w ps b ⊢ owned w' ps b.
Proof. intros (_ & Ht & Hb & _). unfold owned. by rw Ht Hb. Qed.

Lemma owned_none w : txn_cmds (c_txn (w_client w)) = [] → c_blocked_req (w_client w) = None → emp ⊢ owned w [] None.
Proof. intros Ht Hb. unfold owned, cmds_at. rw Ht Hb big_sepL2_nil. by iIntros "_". Qed.

(** ** Steps *)

Lemma wp_rbind {A B} (m : R A) (f : A → R B) s Φ : wp (m s) (λ r, wp (f r.1 r.2) Φ) ⊢ wp ((m ≫= f) s) Φ.
Proof. apply wp_bind. Qed.

Lemma wp_on_world {A} (m : M A) w a w' ps b Φ : m w = Ret (a, w') → Φ (a, mkState w' ps b) ⊢ wp (on_world m (mkState w ps b)) Φ.
Proof.
  intros Hm. iIntros "HΦ". iApply (wp_wand with "[HΦ]"); [|by iIntros (r) "H"; iExact "H"].
  iStopProof. apply wp_intro. intros h hf Hp Hd. exists (a, mkState w' ps b), h. unfold on_world. cbn. by rw Hm.
Qed.

Lemma wp_on_heap {A} (m : Mem A) s Φ : wp m (λ a, Φ (a, s)) ⊢ wp (on_heap m s) Φ.
Proof.
  iIntros "Hm". unfold on_heap. iApply wp_bind. iApply (wp_wand with "Hm"). iIntros (a) "Ha". by iApply wp_ret.
Qed.

Lemma wp_read_request v p s Φ : req_at v p ⊢ (req_at v p -∗ Φ (v, s)) -∗ wp (read_request p s) Φ.
Proof.
  iIntros "Hv HΦ". iApply wp_on_heap. iApply (wp_wand _ (λ a, ⌈a = v⌉ ∗ req_at v p)%I with "[Hv]").
  - iStopProof. apply wp_intro. intros hv h Hv Hd. exists v, hv. rw (value_own_read v p hv h Hv Hd).
    split; [done|]. split; [done|]. exists ∅, hv. rw (left_id_L ∅ (∪)). split; [done|]. split; [apply map_disjoint_empty_l|done].
  - iIntros (a) "[-> Hv]". by iApply "HΦ".
Qed.

Lemma wp_free_request v p s Φ : req_at v p ⊢ Φ (tt, s) -∗ wp (resp_free (Some p) s) Φ.
Proof.
  iIntros "Hv HΦ". iApply wp_on_heap. iApply (wp_wand _ (λ _, emp)%I with "[Hv]").
  - iStopProof. apply wp_intro. intros hv h Hv Hd. exists tt, ∅. rw (left_id_L ∅ (∪)).
    split; [by apply (value_own_free v p hv Hv)|]. split; [apply map_disjoint_empty_l|done].
  - iIntros ([]) "_". iExact "HΦ".
Qed.

(** The parser on the heap. *)
Definition parse_result (r : parsed (RespValue * nat)) (o : RespMem.outcome) : hProp :=
  match r with
  | RESP_PARSE_OK (v, n) => ∃ p, ⌈o = RespMem.Parsed p n⌉ ∗ req_at v p
  | RESP_PARSE_INCOMPLETE => ⌈o = RespMem.Unparsed RespMem.INCOMPLETE⌉
  | RESP_PARSE_ERROR => ⌈o = RespMem.Unparsed RespMem.ERROR⌉
  | RESP_UNDEF u => False
  end%I.

Lemma wp_parse buf s Φ :
  (∀ u, Resp.resp_parse_command buf ≠ RESP_UNDEF u) →
  (∀ o, parse_result (Resp.resp_parse_command buf) o -∗ Φ (o, s)) ⊢ wp (on_heap (RespMem.resp_parse_command buf) s) Φ.
Proof.
  iIntros (Hu) "HΦ". iApply wp_on_heap. iApply (wp_wand _ (parse_result (Resp.resp_parse_command buf)) with "[]"); [|iExact "HΦ"].
  iStopProof. apply wp_intro. intros h0 h H0 Hd. change (h0 = ∅) in H0. subst h0. rw (left_id_L ∅ (∪)). pose proof (command_allocates buf h) as Hm.
  destruct (Resp.resp_parse_command buf) as [[v n]| | |u]; [| | |by destruct (Hu u)].
  - destruct Hm as (p & own & Ho & Hdo & Hm). exists (RespMem.Parsed p n), own. split; [done|]. split; [done|].
    exists p, ∅, own. rw (left_id_L ∅ (∪)). split; [done|]. split; [apply map_disjoint_empty_l|done].
  - eexists _, ∅. rw (left_id_L ∅ (∪)). by split; [exact Hm|split; [apply map_disjoint_empty_l|]].
  - eexists _, ∅. rw (left_id_L ∅ (∪)). by split; [exact Hm|split; [apply map_disjoint_empty_l|]].
Qed.

(** The first step of a run. *)
Lemma bind_inv {A B} (m : M A) (f : A → M B) w b w' :
  (m ≫= f) w = Ret (b, w') → ∃ a w1, m w = Ret (a, w1) ∧ f a w1 = Ret (b, w').
Proof. unfold mbind, M_bind. destruct (m w) as [[a w1]|]; [|done]. eauto. Qed.

Ltac rbind := cbv beta iota; iApply wp_rbind.
Ltac rret := cbv beta iota; iApply wp_ret; cbn [fst snd world cmds blocked].
Ltac rworld H := cbv beta iota; first [iApply (wp_on_world _ _ _ _ _ _ _ H)|rbind; iApply (wp_on_world _ _ _ _ _ _ _ H)]; cbn [fst snd world cmds blocked].

Lemma wp_free_cmds vs ps s Φ : cmds_at vs ps ⊢ Φ (tt, s) -∗ wp (free_cmds ps s) Φ.
Proof.
  iIntros "Hc HΦ". iInduction vs as [|v vs] "IH" forall (ps).
  - iDestruct (big_sepL2_nil_inv_l with "Hc") as %->. by rret.
  - iDestruct (big_sepL2_cons_inv_l with "Hc") as (p ps' ->) "[Hv Hc]". cbn [free_cmds]. rbind.
    iApply (wp_free_request with "Hv"). by iApply ("IH" with "Hc").
Qed.

Definition reset (w : World) : World := upd_client (λ c, with_txn (Txn.txn_reset (c_txn c)) c) w.

Lemma wp_txn_reset vs w ps b Φ : cmds_at vs ps ⊢ Φ (tt, mkState (reset w) [] b) -∗ wp (txn_reset (mkState w ps b)) Φ.
Proof.
  iIntros "Hc HΦ". unfold txn_reset. rbind. rret. rbind. iApply (wp_free_cmds with "Hc"). rbind. rret.
  rworld (eq_refl (get_txn w)). by rworld (eq_refl (set_txn (Txn.txn_reset (c_txn (w_client w))) w)).
Qed.

Section dispatch.
Context `{Handlers, !KeepHandlers}.

Lemma wp_exec_loop vs ps w w' qs b Φ :
  Commands.exec_loop vs w = Ret (tt, w') →
  cmds_at vs ps ⊢ (cmds_at vs ps -∗ Φ (tt, mkState w' qs b)) -∗ wp (exec_loop ps (mkState w qs b)) Φ.
Proof.
  iIntros (Hw) "Hc HΦ". iInduction vs as [|v vs] "IH" forall (ps w Hw Φ).
  - iDestruct (big_sepL2_nil_inv_l with "Hc") as %->. injection Hw as <-. rret. by iApply "HΦ".
  - iDestruct (big_sepL2_cons_inv_l with "Hc") as (p ps' ->) "[Hv Hc]". cbn [exec_loop Commands.exec_loop] in *.
    apply bind_inv in Hw as (name & w1 & Hn & Hw). apply bind_inv in Hw as (st & w2 & Hr & Hw).
    rbind. iApply (wp_read_request with "Hv"). iIntros "Hv". cbn [fst snd world cmds blocked]. rworld Hn. rworld Hr.
    iApply ("IH" with "[//] Hc"). iIntros "Hc". iApply "HΦ". iFrame.
Qed.

Lemma wp_exec_transaction w w' ps b Φ :
  Commands.exec_transaction w = Ret (tt, w') →
  owned w ps b ⊢ (∀ ps', owned w' ps' b -∗ Φ (tt, mkState w' ps' b)) -∗ wp (exec_transaction (mkState w ps b)) Φ.
Proof.
  iIntros (Hw) "[Hc Hb] HΦ". unfold exec_transaction, Commands.exec_transaction in *.
  apply bind_inv in Hw as (txn & w1 & Ht & Hw). rworld Ht. injection Ht as <- <-. destruct (txn_error _).
  - apply bind_inv in Hw as ([] & w1 & Hs & Hw). injection Hs as <-. rbind. iApply (wp_txn_reset with "Hc").
    rworld Hw. iApply "HΦ". injection Hw as <-. unfold owned. cbn. by iFrame "Hb".
  - apply bind_inv in Hw as ([] & w1 & Ho & Hw). apply bind_inv in Hw as ([] & w2 & He & Hw). rbind. rret.
    iDestruct (big_sepL2_length with "Hc") as %Hlen. unfold txn_count in Ho. rw Hlen in Ho. rworld Ho. rbind.
    iApply (wp_exec_loop with "Hc"); [exact He|]. iIntros "Hc". cbn [fst snd world cmds blocked]. iApply (wp_txn_reset with "Hc").
    apply bind_inv in Hw as (txn & w3 & Ht & Hw). injection Ht as <- <-. injection Hw as <-. iApply "HΦ".
    injection Ho as <-. apply (Handlers.exec_loop_pred (@keeps) handler_keeps) in He as (_ & _ & Hb & _).
    unfold owned. cbn. rw Hb. by iFrame "Hb".
Qed.

(** The request goes to the queue, or is still the caller's. *)
Definition kept (r : CommandResult) (req : RespValue) (p : Ptr) : hProp :=
  match r with CMD_RESULT_QUEUED => emp | _ => req_at req p end%I.

(** A step that keeps the connection state. *)
Lemma wp_keeps {A} (m : M A) w a w' ps b Φ :
  keeps m → m w = Ret (a, w') → owned w ps b ⊢ (owned w' ps b -∗ Φ (a, mkState w' ps b)) -∗ wp (on_world m (mkState w ps b)) Φ.
Proof.
  iIntros (Hk Hm) "Ho HΦ". iApply (wp_on_world _ _ _ _ _ _ _ Hm). iApply "HΦ". iApply (owned_same with "Ho"). by eapply Hk.
Qed.

Lemma wp_OUT f w w' ps b Φ :
  OUT f w = Ret (tt, w') → owned w ps b ⊢ (owned w' ps b -∗ Φ (tt, mkState w' ps b)) -∗ wp (on_world (OUT f) (mkState w ps b)) Φ.
Proof. apply wp_keeps. by intros w1 a w2 [= _ <-]. Qed.

Lemma wp_set_txn t w w' ps b Φ :
  set_txn t w = Ret (tt, w') → txn_cmds t = txn_cmds (c_txn (w_client w)) →
  owned w ps b ⊢ (owned w' ps b -∗ Φ (tt, mkState w' ps b)) -∗ wp (on_world (set_txn t) (mkState w ps b)) Φ.
Proof.
  iIntros (Hs Ht) "Ho HΦ". iApply (wp_on_world _ _ _ _ _ _ _ Hs). iApply "HΦ". injection Hs as <-. unfold owned. cbn. by rw Ht.
Qed.

Ltac rOUT H := rbind; iApply (wp_OUT with "Ho"); [exact H|]; iIntros "Ho"; cbn [fst snd world cmds blocked].

Lemma wp_txn_full req p w ps b Φ :
  Txn.txn_queue (c_txn (w_client w)) req = None →
  owned w ps b ⊢ (owned w ps b -∗ Φ (false, mkState w ps b)) -∗ wp (txn_queue p req (mkState w ps b)) Φ.
Proof.
  iIntros (Hq) "[Hc Hb] HΦ". iDestruct (big_sepL2_length with "Hc") as %Hlen. unfold Txn.txn_queue, txn_count in Hq.
  unfold txn_queue. rbind. rret. rw Hlen in Hq. destruct (TXN_MAX_CMDS <=? length ps); [|done]. rret. iApply "HΦ". iFrame.
Qed.

Lemma wp_txn_queue req p w ps b t Φ :
  Txn.txn_queue (c_txn (w_client w)) req = Some t →
  req_at req p ⊢ owned w ps b -∗
  (∀ w' ps', ⌈set_txn t w = Ret (tt, w')⌉ -∗ owned w' ps' b -∗ Φ (true, mkState w' ps' b)) -∗ wp (txn_queue p req (mkState w ps b)) Φ.
Proof.
  iIntros (Hq) "Hv [Hc Hb] HΦ". iDestruct (big_sepL2_length with "Hc") as %Hlen. unfold Txn.txn_queue, txn_count in Hq.
  unfold txn_queue. rbind. rret. rw Hlen in Hq. destruct (TXN_MAX_CMDS <=? length ps); [done|]. injection Hq as <-.
  rbind. rret. rworld (eq_refl (get_txn w)). rbind. iApply wp_on_world; [reflexivity|]. rret. iApply ("HΦ" with "[//]").
  unfold owned. cbn. iFrame "Hb". unfold cmds_at. iApply (big_sepL2_app with "Hc"). by iFrame.
Qed.

Lemma wp_command_process req p w r w' ps b Φ :
  Commands.command_process req w = Ret (r, w') →
  req_at req p ⊢ owned w ps b -∗ (∀ ps', owned w' ps' b -∗ kept r req p -∗ Φ (r, mkState w' ps' b)) -∗
  wp (command_process p (mkState w ps b)) Φ.
Proof.
  iIntros (Hw) "Hv Ho HΦ". unfold command_process, Commands.command_process in *. rbind.
  iApply (wp_read_request with "Hv"). iIntros "Hv". cbn [fst snd world cmds blocked].
  apply bind_inv in Hw as (spec & w1 & Hval & Hw). rbind. iApply (wp_keeps with "Ho"); [apply (Handlers.validate_pred (@keeps))|exact Hval|].
  iIntros "Ho". cbn [fst snd world cmds blocked]. apply bind_inv in Hw as (txn & w2 & Ht & Hw). rworld Ht. injection Ht as <- <-. clear Hval w.
  destruct spec as [spec|]; [destruct (cs_kind spec)|].
  - destruct (txn_active _).
    + destruct (Txn.txn_queue (c_txn (w_client w1)) req) as [t|] eqn:Hq; apply bind_inv in Hw as ([] & w2 & Hs & Hw).
      * rbind. iApply (wp_txn_queue with "Hv Ho"); [exact Hq|].
        iIntros (w3 ps' Hs') "Ho". rw Hs in Hs'. injection Hs' as <-. cbn [fst snd world cmds blocked].
        apply bind_inv in Hw as ([] & w3 & Ho & Hw). injection Hw as <- <-. rOUT Ho. rret. by iApply ("HΦ" with "Ho").
      * rbind. iApply (wp_txn_full with "Ho"); [exact Hq|]. iIntros "Ho". cbn [fst snd world cmds blocked]. rbind.
        iApply (wp_set_txn with "Ho"); [exact Hs|done|]. iIntros "Ho". cbn [fst snd world cmds blocked].
        apply bind_inv in Hw as ([] & w3 & Ho & Hw). injection Hw as <- <-. rOUT Ho. rret. iApply ("HΦ" with "Ho Hv").
    + apply bind_inv in Hw as (st & w2 & Hr & Hw). injection Hw as <- <-. rbind.
      iApply (wp_keeps with "Ho"); [apply (Handlers.run_pred (@keeps) handler_keeps)|exact Hr|]. iIntros "Ho". rret.
      iApply ("HΦ" with "Ho"). by destruct st.
  - apply bind_inv in Hw as ([] & w2 & Hs & Hw). injection Hw as <- <-. destruct (txn_active _).
    + rOUT Hs. rret. iApply ("HΦ" with "Ho Hv").
    + apply bind_inv in Hs as ([] & w3 & Hs & Ho). rbind. rbind. iApply (wp_set_txn with "Ho"); [exact Hs|done|].
      iIntros "Ho". cbn [fst snd world cmds blocked]. iApply (wp_OUT with "Ho"); [exact Ho|]. iIntros "Ho". rret. iApply ("HΦ" with "Ho Hv").
  - apply bind_inv in Hw as ([] & w2 & Hs & Hw). injection Hw as <- <-. destruct (txn_active _).
    + rbind. iApply (wp_exec_transaction with "Ho"); [exact Hs|]. iIntros (ps') "Ho". rret. iApply ("HΦ" with "Ho Hv").
    + rOUT Hs. rret. iApply ("HΦ" with "Ho Hv").
  - apply bind_inv in Hw as ([] & w2 & Hs & Hw). injection Hw as <- <-. destruct (txn_active _).
    + apply bind_inv in Hs as ([] & w3 & Hs & Ho). injection Hs as <-. iDestruct "Ho" as "[Hc Hb]". rbind. rbind.
      iApply (wp_txn_reset with "Hc"). rworld Ho. rret. iApply ("HΦ" with "[Hb] Hv"). injection Ho as <-. unfold owned. cbn. by iFrame.
    + rOUT Hs. rret. iApply ("HΦ" with "Ho Hv").
  - apply bind_inv in Hw as ([] & w2 & Hs & Hw). injection Hw as <- <-. destruct (txn_active _).
    + rbind. iApply (wp_set_txn with "Ho"); [exact Hs|done|]. iIntros "Ho". rret. iApply ("HΦ" with "Ho Hv").
    + injection Hs as <-. rbind. rret. rret. iApply ("HΦ" with "Ho Hv").
Qed.

(** A change of the client that is not about requests. *)
Lemma wp_on_client f w w' ps b Φ :
  on_client f w = Ret (tt, w') → (∀ c, c_txn (f c) = c_txn c ∧ c_blocked_req (f c) = c_blocked_req c) →
  owned w ps b ⊢ (owned w' ps b -∗ Φ (tt, mkState w' ps b)) -∗ wp (on_world (on_client f) (mkState w ps b)) Φ.
Proof.
  iIntros (Hw Hf) "Ho HΦ". iApply (wp_on_world _ _ _ _ _ _ _ Hw). iApply "HΦ". injection Hw as <-. unfold owned. cbn.
  destruct (Hf (w_client w)) as [-> ->]. iExact "Ho".
Qed.

Lemma owned_parked w ps b : owned w ps b ⊢ ⌜is_Some b ↔ is_Some (c_blocked_req (w_client w))⌝.
Proof.
  iIntros "[_ H]". destruct (c_blocked_req (w_client w)), b; cbn; try (by iDestruct "H" as %[]); iPureIntro; [by split|].
  by split; intros [].
Qed.

(** A connection that is not parked takes the request it gets parked on. *)
Lemma owned_park w ps req p :
  owned w ps None ⊢ req_at req p -∗ owned (upd_client (with_blocked (Some req)) w) ps (Some p).
Proof. unfold owned. cbn. iIntros "[Hc Hb] Hv". destruct (c_blocked_req _); [iDestruct "Hb" as %[]|]. iFrame. Qed.

Lemma wp_process_loop fuel pos w n w' ps b Φ :
  Server.process_loop fuel pos w = Ret (n, w') →
  owned w ps b ⊢ (∀ ps' b', owned w' ps' b' -∗ Φ (n, mkState w' ps' b')) -∗ wp (process_loop fuel pos (mkState w ps b)) Φ.
Proof.
  iIntros (Hw) "Ho HΦ". iInduction fuel as [|fuel] "IH" forall (pos w ps b Hw).
  - injection Hw as <- <-. rret. by iApply "HΦ".
  - cbn [Server.process_loop process_loop] in *. apply bind_inv in Hw as (c & w1 & Hc & Hw). injection Hc as <- <-.
    rworld (eq_refl (get_client w)). rbind. rret. iDestruct (owned_parked with "Ho") as %Hblk. rw -(bool_decide_ext _ _ Hblk) in Hw.
    destruct b as [b|]; [injection Hw as <- <-; rret; by iApply "HΦ"|].
    rw (bool_decide_eq_false_2 (is_Some (@None Ptr))) in Hw |- *; [|by intros []]. cbn [orb] in *.
    destruct (c_close_after_reply _ || _); [injection Hw as <- <-; rret; by iApply "HΦ"|].
    set (buf := drop pos _) in *. rbind. iApply (wp_parse buf); [intros u Hu; by rw Hu in Hw|]. iIntros (o) "Hr".
    cbn [fst snd world cmds blocked]. destruct (Resp.resp_parse_command buf) as [[req used]| | |u]; cbn [parse_result].
    + iDestruct "Hr" as (p ->) "Hv". rbind. iApply (wp_read_request with "Hv"). iIntros "Hv". cbn [fst snd world cmds blocked].
      destruct (length (elements req) =? 0).
      { rbind. iApply (wp_free_request with "Hv"). by iApply ("IH" with "[//] Ho HΦ"). }
      apply bind_inv in Hw as (r & w1 & Hr & Hw). rbind. iApply (wp_command_process with "Hv Ho"); [exact Hr|].
      iIntros (ps') "Ho Hv". cbn [fst snd world cmds blocked]. destruct r; cbn [kept].
      * rbind. iApply (wp_free_request with "Hv"). by iApply ("IH" with "[//] Ho HΦ").
      * apply bind_inv in Hw as ([] & w2 & Hp & Hw). injection Hp as <-. rbind. rret. rbind. iApply wp_on_world; [reflexivity|].
        iApply ("IH" with "[//] [Ho Hv] HΦ"). iApply (owned_park with "Ho Hv").
      * by iApply ("IH" with "[//] Ho HΦ").
    + iDestruct "Hr" as %->. injection Hw as <- <-. rret. by iApply "HΦ".
    + iDestruct "Hr" as %->. apply bind_inv in Hw as ([] & w1 & Ho & Hw). apply bind_inv in Hw as ([] & w2 & Hc & Hw).
      injection Hw as <- <-. rOUT Ho. rbind. iApply (wp_on_client with "Ho"); [exact Hc|done|]. iIntros "Ho". rret. by iApply "HΦ".
    + done.
Qed.

Lemma wp_process_input w w' ps b Φ :
  Server.process_input w = Ret (tt, w') →
  owned w ps b ⊢ (∀ ps' b', owned w' ps' b' -∗ Φ (tt, mkState w' ps' b')) -∗ wp (process_input (mkState w ps b)) Φ.
Proof.
  iIntros (Hw) "Ho HΦ". unfold process_input, Server.process_input in *.
  apply bind_inv in Hw as (c & w1 & Hc & Hw). injection Hc as <- <-. rworld (eq_refl (get_client w)).
  apply bind_inv in Hw as (pos & w1 & Hl & Hw). rbind. iApply (wp_process_loop with "Ho"); [exact Hl|].
  iIntros (ps' b') "Ho". cbn [fst snd world cmds blocked]. apply bind_inv in Hw as ([] & w2 & Hc & Hw). rbind.
  iApply (wp_on_client with "Ho"); [exact Hc|done|]. iIntros "Ho". cbn [fst snd world cmds blocked].
  apply bind_inv in Hw as (c & w3 & Hc' & Hw). injection Hc' as <- <-. rworld (eq_refl (get_client w2)). destruct (_ <? _)%Z.
  - apply bind_inv in Hw as ([] & w3 & Hr & Hw). rOUT Hr. iApply (wp_on_client with "Ho"); [exact Hw|done|]. iIntros "Ho". by iApply "HΦ".
  - injection Hw as <-. rret. by iApply "HΦ".
Qed.

Lemma read_loop_keeps rs w r w' :
  read_loop rs w = Ret (r, w') →
  c_txn (w_client w') = c_txn (w_client w) ∧ c_blocked_req (w_client w') = c_blocked_req (w_client w).
Proof.
  revert w. induction rs as [|[chunk| | | |] rs IH]; intros w; cbn [read_loop]; try (by intros [= _ <-]); [|apply IH].
  intros ([] & w1 & Hc & Hw)%bind_inv. injection Hc as <-. destruct (_ <? _)%Z; [by injection Hw as _ <-|]. by apply IH in Hw.
Qed.

Lemma wp_read_from_client rs w w' ps b Φ :
  Server.read_from_client rs w = Ret (tt, w') →
  owned w ps b ⊢ (∀ ps' b', owned w' ps' b' -∗ Φ (tt, mkState w' ps' b')) -∗ wp (read_from_client rs (mkState w ps b)) Φ.
Proof.
  iIntros (Hw) "Ho HΦ". unfold read_from_client, Server.read_from_client in *.
  apply bind_inv in Hw as (r & w1 & Hr & Hw). rworld Hr. destruct (read_loop_keeps _ _ _ _ Hr) as [Ht Hb].
  iAssert (owned w1 ps b) with "[Ho]" as "Ho"; [unfold owned; by rw Ht Hb|]. destruct r as [eof|].
  - apply bind_inv in Hw as ([] & w2 & Hp & Hw). rbind. iApply (wp_process_input with "Ho"); [exact Hp|].
    iIntros (ps' b') "Ho". cbn [fst snd world cmds blocked]. destruct eof.
    + iApply (wp_on_client with "Ho"); [exact Hw| |iIntros "Ho"; by iApply "HΦ"].
      intros c. unfold at_eof. by case_bool_decide; destruct (_ =? 0).
    + injection Hw as <-. rret. by iApply "HΦ".
  - injection Hw as <-. rret. by iApply "HΦ".
Qed.

Lemma wp_service_client now w w' ps b Φ :
  EventLoop.service_client now w = Ret (tt, w') →
  owned w ps b ⊢ (∀ ps' b', owned w' ps' b' -∗ Φ (tt, mkState w' ps' b')) -∗ wp (service_client now (mkState w ps b)) Φ.
Proof.
  iIntros (Hw) "Ho HΦ". unfold service_client, EventLoop.service_client in *.
  apply bind_inv in Hw as (c & w1 & Hc & Hw). injection Hc as <- <-. rworld (eq_refl (get_client w)). rbind. rret.
  iDestruct (owned_parked with "Ho") as %Hd.
  destruct b as [p|], (c_blocked_req (w_client w)) as [req|] eqn:Hb; [|by destruct Hd as [[] _]|by destruct Hd as [_ []]|].
  2: { injection Hw as <-. rret. by iApply "HΦ". }
  destruct (c_closed _); [injection Hw as <-; rret; by iApply "HΦ"|]. set (timed_out := negb _ && _) in *.
  apply bind_inv in Hw as (r & w1 & Hr & Hw). rbind. unfold command_retry_blocked, Commands.command_retry_blocked in *.
  apply bind_inv in Hr as (name & w2 & Hn & Hr). apply bind_inv in Hr as (st & w3 & Hs & Hr). injection Hr as <- <-.
  iDestruct "Ho" as "[Hc Hv]". rw Hb. cbn [parked_at]. rbind. iApply (wp_read_request with "Hv"). iIntros "Hv".
  cbn [fst snd world cmds blocked]. rworld Hn. rworld Hs. rret.
  assert (same_conn (w_client w) (w_client w3)) as (_ & Ht3 & Hb3 & _).
  { etrans; [by eapply (pred_lift (P := @keeps))|]. by eapply (Handlers.run_pred (@keeps) handler_keeps). }
  destruct st; cbn [result_of] in *.
  - apply bind_inv in Hw as ([] & w4 & Hc & Hw). rbind. iApply (wp_free_request with "Hv"). rbind. rret. rworld Hc.
    iApply (wp_process_input with "[Hc]"); [exact Hw| |done]. injection Hc as <-. unfold owned. cbn. rw Ht3. by iFrame.
  - injection Hw as <-. rret. iApply "HΦ". unfold owned. rw Ht3 Hb3 Hb. iFrame.
Qed.

Lemma wp_client_free w ps b Φ :
  owned w ps b ⊢ Φ (tt, mkState (reset w) [] b) -∗ wp (client_free (mkState w ps b)) Φ.
Proof.
  iIntros "[Hc Hb] HΦ". unfold client_free. rbind. iApply (wp_txn_reset with "Hc"). rbind. rret.
  destruct (c_blocked_req _), b as [p|]; try (by iDestruct "Hb" as %[]).
  - by iApply (wp_free_request with "Hb").
  - iApply wp_on_heap. by iApply wp_ret.
Qed.

Lemma write_keeps ws w wire w' :
  write_to_client ws w = Ret (wire, w') →
  c_txn (w_client w') = c_txn (w_client w) ∧ c_blocked_req (w_client w') = c_blocked_req (w_client w).
Proof.
  intros Hw. apply bind_inv in Hw as (c & w1 & Hc & Hw). injection Hc as <- <-. destruct (write_loop _ _ _) as [sent failed].
  injection Hw as _ <-. cbn [w_client]. by destruct failed; cbn; case_match.
Qed.

Lemma wp_take_turns ts w w' ps b Φ :
  turns_of ts w = Ret (tt, w') →
  owned w ps b ⊢ (∀ ps' b', owned w' ps' b' -∗ Φ (tt, mkState w' ps' b')) -∗ wp (take_turns ts (mkState w ps b)) Φ.
Proof.
  iIntros (Hw) "Ho HΦ". iInduction ts as [|t ts] "IH" forall (w ps b Hw).
  - injection Hw as <-. rret. by iApply "HΦ".
  - cbn [turns_of take_turns] in *. apply bind_inv in Hw as ([] & w1 & Ht & Hw). rbind. destruct t; cbn [turn_of take_turn] in *.
    + iApply (wp_read_from_client with "Ho"); [exact Ht|]. iIntros (ps' b') "Ho". by iApply ("IH" with "[//] Ho HΦ").
    + apply bind_inv in Ht as (wire & w2 & Hwr & Ht). injection Ht as <-. rworld Hwr. rret.
      destruct (write_keeps _ _ _ _ Hwr) as [Ht Hb]. iApply ("IH" with "[//] [Ho] HΦ"). unfold owned. by rw Ht Hb.
    + iApply (wp_service_client with "Ho"); [exact Ht|]. iIntros (ps' b') "Ho". by iApply ("IH" with "[//] Ho HΦ").
    + rworld Ht. injection Ht as <-. by iApply ("IH" with "[//] Ho HΦ").
Qed.

(** C13: requests are freed exactly once.  On a connection that has nothing put
    aside yet, whatever it receives and sends, however often it is served and
    whatever other connections do to the store meanwhile: as long as the
    functions have no undefined behaviour on values, those on the heap have
    none either and leave the same world, every request is read through a
    pointer to memory that is still there, and after [client_free] the heap is
    exactly the one from before - whether a request was run at once, was queued
    and run or discarded, was refused by a full queue, or parked the client. *)
Theorem requests_freed (ts : list turn) (w w' : World) (h : Heap) :
  txn_cmds (c_txn (w_client w)) = [] → c_blocked_req (w_client w) = None → turns_of ts w = Ret (tt, w') →
  connection ts w h = Ret (w', h).
Proof.
  intros Ht Hb Hw.
  destruct (wp_run emp%I (connection ts w) (λ a, ⌈a = w'⌉)%I ∅ h) as (a & h' & Hr & _ & H'); [|done|apply map_disjoint_empty_l|].
  - iIntros "_". unfold connection. iApply wp_bind. iApply (wp_take_turns with "[]"); [exact Hw|by iApply owned_none|].
    iIntros (ps b) "Ho". iApply wp_bind. iApply (wp_client_free with "Ho"). by iApply wp_ret.
  - destruct H' as [-> ->]. by rw !(left_id_L ∅ (∪)) in Hr.
Qed.

End dispatch.

(** A transaction, a queued command that is never run, and a client that is
    still parked when it goes. *)
Definition demo_turns : list turn :=
  [T_read [Read_data (#"MULTI" ++ [LF] ++ #"INCR n" ++ [LF] ++ #"INCR n" ++ [LF] ++ #"EXEC" ++ [LF])];
   T_write [Write_sent 4096]; T_read [Read_data (#"BLPOP l 0" ++ [LF] ++ #"MULTI" ++ [LF])]; T_serve 7].

Definition ends_parked (r : res (() * World)) : bool :=
  match r with Ret (_, w) => bool_decide (is_Some (c_blocked_req (w_client w))) | Undef _ => false end.

Lemma requests_freed_witness :
  ∃ w', turns_of (H := Handlers.demo_handlers) demo_turns CommandsProps.demo_world = Ret (tt, w') ∧
    is_Some (c_blocked_req (w_client w')) ∧
    connection (H := Handlers.demo_handlers) demo_turns CommandsProps.demo_world {[9%positive := RespMem.Chars []]} =
      Ret (w', {[9%positive := RespMem.Chars []]}).
Proof.
  assert (ends_parked (turns_of (H := Handlers.demo_handlers) demo_turns CommandsProps.demo_world) = true) as Hp
    by (vm_compute; reflexivity).
  destruct (turns_of (H := Handlers.demo_handlers) demo_turns CommandsProps.demo_world) as [[[] w']|] eqn:Hw; [|discriminate Hp].
  exists w'. split; [reflexivity|]. split; [exact (proj1 (bool_decide_eq_true _) Hp)|].
  exact (requests_freed (H := Handlers.demo_handlers) demo_turns CommandsProps.demo_world w' {[9%positive := RespMem.Chars []]}
    eq_refl eq_refl Hw).
Defined.

End RequestsProps.
