(* ===== verification/Liveness.v ===== *)
(** * Clients are answered and closed

    The pass over the parked clients ([service_blocked] of server.c) keeps the
    store well formed and only ever appends complete replies; the ones whose
    deadline has passed get theirs in the first pass after it.  A client whose
    peer has finished sending gets what is pending and is closed. *)

From S2P Require Import Prelude Util Reply Resp Store StoreInv Txn Cmd Actions Commands CommandsProps Handlers Server ServerProps ServerOut EventLoop EventLoopProps OneReply.
Import Util Reply Resp Store StoreInv Txn Cmd Actions Commands CommandsProps Server ServerProps ServerOut EventLoop EventLoopProps OneReply.

Module Liveness.

(** ** Running requests does not close *)

(** [m] leaves the flag [closed] alone. *)
Definition same_closed {A} (m : M A) : Prop :=
  ∀ w a w', m w = Ret (a, w') → c_closed (w_client w') = c_closed (w_client w).

#[export] Instance same_closed_pred : ActionPred (@same_closed).
Proof.
  split; try (by intros; intros w x w' [= _ <-]).
  - intros A B m f Q Hm HQ Hf w b w'. unfold mbind, M_bind. destruct (m w) as [[a w1]|] eqn:E; [|done]. intros Hw.
    rewrite <- (Hm _ _ _ E). by eapply Hf; eauto.
  - intros A r w a w'. unfold lift. destruct r; [|done]. by intros [= _ <-].
  - intros A f w a w'. unfold STORE_r, mbind, M_bind, now_ms, get_store, lift. cbn. destruct (f _ _ _); [|done].
    by intros [= _ <-].
Qed.

Section closing.
Context `{!Handlers, !KeepHandlers}.

Lemma command_process_closed req : same_closed (command_process req).
Proof.
  apply (Handlers.command_process_pred (@same_closed)); try (by intros; intros w x w' [= _ <-]).
  intros p ctx w a w' Hw. apply handler_keeps in Hw. apply Hw.
Qed.

Lemma on_client_closed f : (∀ c, c_closed (f c) = c_closed c) → same_closed (on_client f).
Proof. intros Hf w a w' [= _ <-]. apply Hf. Qed.

Lemma get_client_closed {A} (f : Client → M A) : (∀ c, same_closed (f c)) → same_closed (c ← get_client; f c).
Proof. intros Hf. apply (pred_seq (@same_closed)); [by intros w a w' [= _ <-]|done]. Qed.

Lemma process_loop_closed f pos : same_closed (process_loop f pos).
Proof.
  revert pos. induction f as [|f IH]; intros pos; cbn [process_loop]; [apply (pred_ret (P := @same_closed))|].
  apply get_client_closed. intros c. destruct (_ || _); [apply (pred_ret (P := @same_closed))|].
  destruct (resp_parse_command _) as [[req used]| | |u]; [|by intros w a w' [= _ <-]..|done].
  destruct (_ =? _); [apply IH|]. apply (pred_seq (@same_closed)); [apply command_process_closed|].
  intros []; [apply IH| |apply IH]. apply (pred_seq (@same_closed)); [by apply on_client_closed|]. intros _. apply IH.
Qed.

Lemma process_input_closed : same_closed process_input.
Proof.
  unfold process_input. apply get_client_closed. intros c. apply (pred_seq (@same_closed)); [apply process_loop_closed|].
  intros pos. apply (pred_seq (@same_closed)); [by apply on_client_closed|]. intros _. apply get_client_closed. intros c'.
  destruct (_ <? _)%Z; by intros w a w' [= _ <-].
Qed.

(** The flags after reads that end the input, as [at_eof] sets them. *)
Lemma read_eof_flags rs w w1 :
  (outcome rs).2 = Some true → read_from_client rs w = Ret (tt, w1) → c_closed (w_client w) = false →
  c_close_after_reply (w_client w1) = true ∧
  c_closed (w_client w1) = bool_decide (is_Some (c_blocked_req (w_client w1))) || (blen (c_out (w_client w1)) =? 0).
Proof.
  intros Heof Hr Hc. unfold read_from_client in Hr. destruct (read_loop_spec rs w) as (b & _ & Hl). rewrite Heof in Hl.
  rewrite (bind_run _ _ _ _ _ Hl) in Hr. unfold mbind, M_bind in Hr.
  destruct (process_input _) as [[[] w2]|] eqn:Hp; [|done]. apply process_input_closed in Hp. cbn in Hp. rewrite Hc in Hp.
  injection Hr as <-. cbn. unfold at_eof. destruct (bool_decide _) eqn:E; cbn; destruct (_ =? _) eqn:E2; cbn;
    rewrite ?E, ?E2; done.
Qed.

(** C21: what happens to a client whose peer has finished sending, in the two
    steps of the event loop.  Its requests run; if it is then not parked and has
    replies pending, it stays open, and a socket that takes everything gets
    exactly these replies, after which it is flagged closed, the store
    unchanged.  If it is parked in BLPOP, or has nothing pending, it is closed
    at once and the loop writes nothing to it, so that replies that were pending
    when it was parked are dropped. *)
Theorem eof_answers_then_closes (readable : nat → option (list read_result)) (writable : nat → list write_result)
    (sv sv1 : Server) (i : nat) (c : Client) (rs : list read_result) :
  readable i = Some rs → (outcome rs).2 = Some true → sv_clients sv !! i = Some c → c_closed c = false →
  read_turn readable i sv = Ret sv1 →
  ∃ c1, sv_clients sv1 !! i = Some c1 ∧
    c_closed c1 = bool_decide (is_Some (c_blocked_req c1)) || (blen (c_out c1) =? 0) ∧
    if c_closed c1 then write_turn writable i sv1 = Ret sv1
    else takes (writable i) (blen (c_out c1)) = true →
      ∃ sv2 c2, at_client i (write_to_client (writable i)) sv1 = Ret (data (c_out c1), sv2) ∧
        write_turn writable i sv1 = Ret sv2 ∧
        sv_clients sv2 !! i = Some c2 ∧ data (c_out c2) = [] ∧ c_closed c2 = true ∧ sv_store sv2 = sv_store sv1.
Proof.
  intros Hrs Heof Hi Hc Hr. unfold read_turn in Hr. rewrite Hrs in Hr. apply res_bind_inv in Hr as ([[] x] & Ha & [= <-]).
  cbn [snd]. unfold at_client in Ha. rewrite Hi in Ha. apply res_bind_inv in Ha as ([[] w1] & Hm & [= <-]).
  apply read_eof_flags in Hm as [Hcr Hcl]; [|done..]. set (sv1 := {| sv_store := _ |}).
  assert (sv_clients sv1 !! i = Some (w_client w1)) as Hi1 by (cbn; apply list_lookup_insert_eq; by eapply lookup_lt_Some).
  exists (w_client w1). split; [done|]. split; [done|]. unfold write_turn, at_client. rewrite Hi1.
  destruct (c_closed (w_client w1)) eqn:Hcw; [done|]. intros Ht. symmetry in Hcl. apply orb_false_iff in Hcl as [_ Hb].
  apply Nat.eqb_neq in Hb. destruct (Nat.ltb_spec 0 (blen (c_out (w_client w1)))) as [_|]; [|lia]. cbn [negb andb].
  set (w2 := {| w_store := sv_store sv1 |}).
  destruct (write_to_client_takes (writable i) w2 Ht) as (y & -> & Ho & Hy & Hs).
  cbn [mbind res_bind snd]. eexists _, _. split; [reflexivity|]. split; [reflexivity|]. cbn [sv_clients sv_store].
  split; [apply list_lookup_insert_eq; by eapply lookup_lt_Some|]. split; [exact Ho|]. split; [by apply Hy|exact Hs].
Qed.

End closing.

Section service.
Context `{!Handlers, !AnsweringHandlers, !KeepHandlers}.

(** The body of the loop appends complete replies. *)
Lemma service_client_complete now : emits (service_client now) (λ _ t, complete t).
Proof.
  unfold service_client. apply complete_get_client. intros c. destruct (c_blocked_req c) as [req|]; [|apply complete_ret].
  destruct (c_closed c); [apply complete_ret|]. apply emits_complete.
  - eapply emits_weaken; [apply retry_emits|]. intros [] t Ht; cbn in Ht; [by exists 1| |done].
    destruct Ht as [-> _]. apply complete_nil.
  - intros []; try apply complete_ret. apply emits_complete; [by apply complete_on_client|]. intros _.
    apply process_input_complete.
Qed.

(** Nothing runs where nothing was sent. *)
Lemma process_input_idle w w' :
  process_input w = Ret (tt, w') → in_data w = [] → c_blocked_req (w_client w') = c_blocked_req (w_client w).
Proof.
  intros Hp Hd. assert (blen (c_in (w_client w)) = 0) as Hb by (unfold blen; fold (in_data w); by rewrite Hd).
  unfold process_input, get_client, mbind, M_bind in Hp. cbn in Hp. rewrite Hb in Hp. cbn in Hp.
  unfold get_client, mbind, M_bind in Hp. rewrite Hb, orb_true_r in Hp. cbn in Hp.
  destruct (_ <? _)%Z; injection Hp as <-; reflexivity.
Qed.

(** A client that cannot wait any longer gets the reply of its request, and
    then those of what it had sent behind it. *)
Lemma service_client_due now w w' req :
  wf w → c_blocked_req (w_client w) = Some req → c_closed (w_client w) = false →
  c_block_deadline (w_client w) ≠ 0%Z → (c_block_deadline (w_client w) ≤ now)%Z →
  service_client now w = Ret (tt, w') →
  wf w' ∧ (∃ t u, replies 1 t ∧ complete u ∧ out_data w' = out_data w ++ t ++ u) ∧
  (in_data w = [] → c_blocked_req (w_client w') = None).
Proof.
  intros Hw Hb Hc Hd Hn. unfold service_client. mstep. rewrite Hb, Hc.
  destruct (Z.eqb_spec (c_block_deadline (w_client w)) 0) as [|_]; [done|].
  destruct (Z.leb_spec (c_block_deadline (w_client w)) now) as [_|]; [|lia]. cbn [negb andb].
  unfold mbind at 1, M_bind at 1. destruct (command_retry_blocked req true w) as [[r w1]|] eqn:E; [|done].
  destruct (retry_emits req true w r w1 Hw E) as (Hw1 & t & Ht & Hr). destruct r; [|by destruct Hr|done].
  intros E2. assert (emits (on_client (with_blocked None);; process_input) (λ _ t, complete t)) as He.
  { apply emits_complete; [by apply complete_on_client|]. intros _. apply process_input_complete. }
  destruct (He w1 tt w' Hw1 E2) as (Hw' & u & Hu & Hcu). split; [done|]. split.
  { exists t, u. split; [done|]. split; [done|]. by rewrite Hu, Ht, app_assoc. }
  apply (Handlers.command_retry_blocked_pred (@keeps) handler_keeps) in E as (Hin & _). intros Hd0.
  apply process_input_idle in E2; [by rewrite E2|]. unfold in_data in *. cbn. by rewrite Hin.
Qed.

(** Serving one client: the store, and the client itself. *)
Lemma at_client_run {A} i (m : M A) sv a sv' :
  at_client i m sv = Ret (a, sv') →
  ∃ c w', sv_clients sv !! i = Some c ∧
    m {| w_store := sv_store sv; w_client := c; w_now := sv_now sv; w_mono := sv_mono sv; w_reads := sv_reads sv |}
      = Ret (a, w') ∧
    sv_store sv' = w_store w' ∧ sv_clients sv' !! i = Some (w_client w').
Proof.
  unfold at_client. destruct (sv_clients sv !! i) as [c|] eqn:Hi; [|done]. cbn. destruct (m _) as [[b w']|] eqn:Hm; [|done].
  intros [= <- <-]. exists c, w'. split_and!; [done..|]. cbn. apply list_lookup_insert_eq. by eapply lookup_lt_Some.
Qed.

Definition serve (now : Z) (i : nat) (sv : Server) : res Server := r ← at_client i (service_client now) sv; Ret r.2.

Lemma serve_wf now i sv sv' : serve now i sv = Ret sv' → store_wf (sv_store sv) → store_wf (sv_store sv').
Proof.
  intros ([[] x] & Ha & [= <-])%res_bind_inv Hs. apply at_client_run in Ha as (c & w' & _ & Hm & Hst & _).
  apply service_client_complete in Hm as [Hw _]; [|exact Hs]. cbn. by rewrite Hst.
Qed.

Lemma serve_other now i j sv sv' : serve now j sv = Ret sv' → i ≠ j → sv_clients sv' !! i = sv_clients sv !! i.
Proof. intros ([a x] & Ha & [= <-])%res_bind_inv Hij. cbn. by eapply at_client_other. Qed.

Lemma for_serve_wf n lo now sv sv' :
  for_clients n lo (serve now) sv = Ret sv' → store_wf (sv_store sv) → store_wf (sv_store sv').
Proof.
  revert lo sv. induction n as [|n IH]; intros lo sv; cbn [for_clients]; [by intros [= <-]|].
  intros (sv1 & HS1 & HS2)%res_bind_inv Hs. eapply IH; [done|]. by eapply serve_wf.
Qed.

(** The clients outside the range are not touched. *)
Lemma for_serve_out n lo now sv sv' i :
  for_clients n lo (serve now) sv = Ret sv' → i < lo ∨ lo + n ≤ i → sv_clients sv' !! i = sv_clients sv !! i.
Proof.
  revert lo sv. induction n as [|n IH]; intros lo sv; cbn [for_clients]; [by intros [= <-]|].
  intros (sv1 & HS1 & HS2)%res_bind_inv Hi. rewrite (IH _ _ HS2) by lia. eapply serve_other; [done|lia].
Qed.

Lemma for_clients_split n m lo f sv :
  for_clients (n + m) lo f sv = (sv ← for_clients n lo f sv; for_clients m (lo + n) f sv).
Proof.
  revert lo sv. induction n as [|n IH]; intros lo sv; cbn [for_clients Nat.add]; [by rewrite Nat.add_0_r|].
  unfold mbind, res_bind in *. destruct (f lo sv) as [sv1|]; [|done]. rewrite IH. by rewrite Nat.add_succ_r.
Qed.

(** C14: a parked client whose deadline has passed is answered in the next pass,
    whatever the other parked clients do in the same pass: exactly one complete
    reply is appended to its output, followed only by the complete replies to
    the requests it had pipelined behind.  If it had pipelined nothing it is no
    longer parked (what it pipelined may park it again). *)
Theorem due_clients_answered (sv sv' : Server) (i : nat) (c : Client) (req : RespValue) :
  store_wf (sv_store sv) → service_blocked sv = Ret sv' → sv_clients sv !! i = Some c →
  c_blocked_req c = Some req → c_closed c = false →
  c_block_deadline c ≠ 0%Z → (c_block_deadline c ≤ sv_mono sv (sv_reads sv))%Z →
  ∃ c' t u n, sv_clients sv' !! i = Some c' ∧ replies 1 t ∧ replies n u ∧
    data (c_out c') = data (c_out c) ++ t ++ u ∧
    (data (c_in c) = [] → c_blocked_req c' = None).
Proof.
  intros Hs Hsv Hi Hb Hc Hd Hn. pose proof (lookup_lt_Some _ _ _ Hi) as Hlt. unfold service_blocked in Hsv.
  set (now := sv_mono sv (sv_reads sv)) in *. fold (serve now) in Hsv. unfold num_clients in Hsv. cbn [sv_clients] in Hsv.
  replace (length (sv_clients sv)) with (i + (1 + (length (sv_clients sv) - i - 1))) in Hsv by lia.
  rewrite for_clients_split in Hsv. apply res_bind_inv in Hsv as (sv1 & HS1 & HS2). cbn [Nat.add for_clients] in HS2.
  apply res_bind_inv in HS2 as (sv2 & HS2 & HS3).
  pose proof (for_serve_wf _ _ _ _ _ HS1 Hs) as Hs1. apply for_serve_out with (i := i) in HS1; [|lia]. cbn in HS1.
  apply for_serve_out with (i := i) in HS3; [|lia].
  apply res_bind_inv in HS2 as ([[] x] & Ha & [= <-]). apply at_client_run in Ha as (c1 & w' & Hc1 & Hm & _ & Hx).
  assert (c1 = c) as -> by congruence.
  eapply service_client_due in Hm; [|exact Hs1|exact Hb|exact Hc|exact Hd|exact Hn].
  destruct Hm as (_ & (t & u & Ht & (n & Hu) & Ho) & Hp).
  exists (w_client w'), t, u, n. split; [by rewrite HS3|]. done.
Qed.

End service.

(** A client that waits for at most two milliseconds, and behind it a PING. *)
Definition due_polls : list poll_result :=
  [Poll_ready (λ _, None) (Some [Accept_fd true]) (λ _, []);
   Poll_ready (λ _, Some [Read_data (#"BLPOP q 0.002" ++ [LF] ++ #"PING" ++ [LF])]) None (λ _, [])].

Definition due_server : Server := Eval vm_compute in
  match server_run (H := Handlers.demo_handlers) due_polls demo_server with Ret sv => sv | Undef _ => demo_server end.

(** The same server ten milliseconds later. *)
Definition due_later : Server := {|
  sv_store := sv_store due_server; sv_clients := sv_clients due_server; sv_cap := sv_cap due_server;
  sv_now := sv_now due_server; sv_mono := (λ n, Z.of_nat n + 10)%Z; sv_reads := sv_reads due_server |}.

Lemma due_clients_answered_witness : ∃ sv' c' t u n,
  service_blocked (H := Handlers.demo_handlers) due_later = Ret sv' ∧ sv_clients sv' !! 0 = Some c' ∧
  replies 1 t ∧ replies n u ∧ data (c_out c') = t ++ u ∧ data (c_out c') = #"*-1" ++ CRLF ++ #"+PONG" ++ CRLF.
Proof.
  destruct (service_blocked (H := Handlers.demo_handlers) due_later) as [sv'|] eqn:E; [|by vm_compute in E].
  destruct (sv_clients due_later !! 0) as [c|] eqn:Hc; [|by vm_compute in Hc].
  destruct (c_blocked_req c) as [req|] eqn:Hreq; [|by vm_compute in Hc; injection Hc as <-].
  destruct (due_clients_answered (H := Handlers.demo_handlers) due_later sv' 0 c req
    (proj1 store_create_spec) E Hc Hreq) as (c' & t & u & n & Hc' & Ht & Hu & Ho & _).
  - vm_compute in Hc. by injection Hc as <-.
  - vm_compute in Hc. by injection Hc as <-.
  - vm_compute in Hc. injection Hc as <-. vm_compute. discriminate.
  - exists sv', c', t, u, n. split; [reflexivity|]. split; [exact Hc'|]. split; [exact Ht|]. split; [exact Hu|]. split.
    + rewrite Ho. vm_compute in Hc. by injection Hc as <-.
    + vm_compute in E. injection E as <-. vm_compute in Hc'. by injection Hc' as <-.
Defined.

(** Two clients whose peers have finished sending: the first has the reply to
    PING pending, the second waits in BLPOP. *)
Definition eof_polls : list poll_result :=
  [Poll_ready (λ _, None) (Some [Accept_fd true; Accept_fd true]) (λ _, []);
   Poll_ready (λ i, Some [Read_data (if i =? 0 then #"PING" ++ [LF] else #"PING" ++ [LF] ++ #"BLPOP q 0" ++ [LF])]) None (λ _, [])].

Definition eof_server : Server := Eval vm_compute in
  match server_run (H := Handlers.demo_handlers) eof_polls demo_server with Ret sv => sv | Undef _ => demo_server end.

Definition eof_readable (i : nat) : option (list read_result) := Some [Read_eof].

Definition eof_writable (i : nat) : list write_result := [Write_sent 3; Write_sent 4].

(** The server after the reads of client [i]. *)
Definition eof_read (i : nat) : Server :=
  match read_turn (H := Handlers.demo_handlers) eof_readable i eof_server with Ret sv => sv | Undef _ => eof_server end.

Lemma eof_answers_then_closes_witness :
  (∃ sv2 c2, at_client 0 (write_to_client (eof_writable 0)) (eof_read 0) = Ret ( #"+PONG" ++ CRLF, sv2) ∧
     sv_clients sv2 !! 0 = Some c2 ∧ c_closed c2 = true) ∧
  write_turn eof_writable 1 (eof_read 1) = Ret (eof_read 1).
Proof.
  split.
  - destruct (eof_answers_then_closes (H := Handlers.demo_handlers) eof_readable eof_writable eof_server (eof_read 0) 0
      (default new_client (sv_clients eof_server !! 0)) [Read_eof]) as (c1 & Hc1 & _ & Hw); [vm_compute; reflexivity..|].
    vm_compute in Hc1. injection Hc1 as <-. cbv beta iota in Hw.
    destruct Hw as (sv2 & c2 & Ha & _ & Hc2 & _ & Hcl & _); [vm_compute; reflexivity|].
    exists sv2, c2. split; [exact Ha|]. split; [exact Hc2|exact Hcl].
  - destruct (eof_answers_then_closes (H := Handlers.demo_handlers) eof_readable eof_writable eof_server (eof_read 1) 1
      (default new_client (sv_clients eof_server !! 1)) [Read_eof]) as (c1 & Hc1 & _ & Hw); [vm_compute; reflexivity..|].
    vm_compute in Hc1. injection Hc1 as <-. exact Hw.
Defined.

End Liveness.
