(* ===== verification/Sockets.v ===== *)
(** * server.c and cli.c: sockets

    The server again with its file descriptors: the listening socket, one per
    client, and the descriptor table of the process.  What the operating system
    answers to a call is an argument; a descriptor that [socket] or [accept]
    returns is one that was not open.  [close] on a descriptor that is not open
    is counted, so that closing twice would show.  [EventLoop] is what remains
    when the descriptors are forgotten. *)

From S2P Require Import Prelude CLib Util Store Config Cmd Commands Server EventLoop EventLoopProps.
Import Util Store Config Cmd Commands Server EventLoop EventLoopProps.

Module Sockets.

(** ** The descriptor table *)

Definition O_RDWR : Z := 2.
Definition NONBLOCK_BIT : Z := 11.
Definition O_NONBLOCK : Z := 2 ^ NONBLOCK_BIT.
Definition EINVAL : Z := 22.
Definition EBADF : Z := 9.

(** The open descriptors with their status flags, [errno], and how many calls
    named a descriptor that was not open. *)
Record Os := mkOs { os_files : gmap nat Z; os_errno : Z; os_ebadf : nat }.

(** The answer to a call: success, or failure with an error number. *)
Abbreviation answer := (option Z).

Definition set_errno (e : Z) (os : Os) : Os := {| os_files := os_files os; os_errno := e; os_ebadf := os_ebadf os |}.
Definition with_files (m : gmap nat Z) (os : Os) : Os := {| os_files := m; os_errno := os_errno os; os_ebadf := os_ebadf os |}.

(** [bad_descriptor]: -1 with [EBADF]. *)
Definition bad_descriptor (os : Os) : Os :=
  {| os_files := os_files os; os_errno := EBADF; os_ebadf := S (os_ebadf os) |}.

(** A call without an effect of its own on the table: whether it succeeded. *)
Definition check (a : answer) (os : Os) : bool * Os :=
  match a with None => (true, os) | Some e => (false, set_errno e os) end.

(** A new descriptor, from [socket] or [accept]. *)
Definition open_fd (os : Os) : nat * Os :=
  let fd := fresh (dom (os_files os)) in (fd, with_files (<[fd := O_RDWR]> (os_files os)) os).

(** The descriptor is gone even where [close] reports an error. *)
Definition close (a : answer) (fd : nat) (os : Os) : Os :=
  match os_files os !! fd with
  | None => bad_descriptor os
  | Some _ => (check a (with_files (delete fd (os_files os)) os)).2
  end.

(** The answers to [fcntl(fd, F_GETFL)] and [fcntl(fd, F_SETFL, ...)]. *)
Definition set_nonblocking (a : answer * answer) (fd : nat) (os : Os) : bool * Os :=
  match os_files os !! fd with
  | None => (false, bad_descriptor os)
  | Some flags =>
      match check a.1 os with
      | (false, os) => (false, os)
      | (true, os) =>
          match check a.2 os with
          | (false, os) => (false, os)
          | (true, os) => (true, with_files (<[fd := Z.lor flags O_NONBLOCK]> (os_files os)) os)
          end
      end
  end.

(** ** The server *)

(** [c->fd] for each client, [srv->listen_fd] with [None] for -1, and the
    capacity of the array [fds] of [server_run]. *)
Record Net := mkNet {
  nt_server : Server;
  nt_fds : list nat;
  nt_listen : option nat;
  nt_port : Z;
  nt_fdcap : nat;
  nt_os : Os;
}.

Definition with_server (sv : Server) (n : Net) : Net :=
  {| nt_server := sv; nt_fds := nt_fds n; nt_listen := nt_listen n; nt_port := nt_port n; nt_fdcap := nt_fdcap n; nt_os := nt_os n |}.
Definition with_os (os : Os) (n : Net) : Net :=
  {| nt_server := nt_server n; nt_fds := nt_fds n; nt_listen := nt_listen n; nt_port := nt_port n; nt_fdcap := nt_fdcap n; nt_os := os |}.

(** What the calls of [server_init] answer; [an_sockname] is the port of the
    address that [getsockname] stores, in network byte order as two bytes. *)
Record answers := mkAnswers {
  an_socket : answer;
  an_bind : Z * Z → answer;
  an_listen : answer;
  an_fcntl : answer * answer;
  an_sockname : Z * Z;
}.

(** Network byte order: the high byte first. *)
Definition htons (port : Z) : Z * Z := ((port / 256) mod 256, port mod 256)%Z.
Definition ntohs (b : Z * Z) : Z := (b.1 * 256 + b.2)%Z.

Section server.
Context `{Handlers}.
(** [inet_pton(AF_INET, ...)], and what [close] answers for each descriptor. *)
Context (inet_pton : bytes → option Z) (closing : nat → answer).

(** The status and the server. *)
Definition server_init (a : answers) (cfg : Config) (s : Store) (now mono : nat → Z) (os : Os) : Z * Net :=
  let srv := mkNet (EventLoop.server_init s now mono) [] None 0 0 in
  match inet_pton (cfg_bind cfg) with
  | None => ((-1)%Z, srv (set_errno EINVAL os))
  | Some sin_addr =>
      match an_socket a with
      | Some e => ((-1)%Z, srv (set_errno e os))
      | None =>
          let '(fd, os) := open_fd os in
          let sin_port := ntohs (htons (cfg_port cfg mod 2 ^ 16)) in
          let '(ok, os) := match check (an_bind a (sin_addr, sin_port)) os with
                           | (false, os) => (false, os)
                           | (true, os) =>
                               match check (an_listen a) os with
                               | (false, os) => (false, os)
                               | (true, os) => set_nonblocking (an_fcntl a) fd os
                               end
                           end in
          if ok : bool then
            (0%Z, {| nt_server := nt_server (srv os); nt_fds := []; nt_listen := Some fd; nt_port := ntohs (an_sockname a);
                     nt_fdcap := 0; nt_os := os |})
          else
            let saved := os_errno os in
            let os := close (closing fd) fd os in
            ((-1)%Z, srv (set_errno saved os))
      end
  end.

Definition client_add (fd : nat) (n : Net) : Net :=
  {| nt_server := EventLoop.client_add (nt_server n); nt_fds := nt_fds n ++ [fd]; nt_listen := nt_listen n;
     nt_port := nt_port n; nt_fdcap := nt_fdcap n; nt_os := nt_os n |}.

(** The descriptor of a client is never -1. *)
Definition client_free (fd : nat) (os : Os) : Os := close (closing fd) fd os.

(** [accept]: a connection, with the answers to the calls of [set_nonblocking],
    or an error. *)
Inductive accept_answer := Conn (fcntl : answer * answer) | No_conn (errno : Z).

Fixpoint accept_clients (rs : list accept_answer) (n : Net) : Net :=
  match rs with
  | [] => n
  | No_conn e :: _ => with_os (set_errno e (nt_os n)) n
  | Conn fa :: rs' =>
      let '(fd, os) := open_fd (nt_os n) in
      let '(ok, os) := set_nonblocking fa fd os in
      if ok : bool then accept_clients rs' (client_add fd (with_os os n))
      else accept_clients rs' (with_os (close (closing fd) fd os) n)
  end.

(** Each client with its descriptor. *)
Definition conns (n : Net) : list (nat * Client) := zip (nt_fds n) (sv_clients (nt_server n)).

Definition remove_closed_clients (n : Net) : res Net :=
  r ← compact_loop (λ c, c_closed c.2) (λ c, client_free c.1) (num_clients (nt_server n)) 0 0 (conns n) (nt_os n);
  let '(cs, kept, os) := r in
  Ret {| nt_server := with_clients (take kept cs).*2 (nt_server n); nt_fds := (take kept cs).*1; nt_listen := nt_listen n;
         nt_port := nt_port n; nt_fdcap := nt_fdcap n; nt_os := os |}.

(** *** The loop *)

(** [struct pollfd]: the descriptor and whether [POLLOUT] is asked for; there
    is [POLLIN] in all of them. *)
Definition poll_set (n : Net) : list (option nat * bool) :=
  (nt_listen n, false) :: ((λ c, (Some c.1, 0 <? blen (c_out c.2))) <$> conns n).

(** The capacity of the array, grown when the set does not fit. *)
Definition fds_capacity (nfds fdcap : nat) : nat := if fdcap <? nfds then nfds * 2 else fdcap.

Definition with_fdcap (fdcap : nat) (n : Net) : Net :=
  {| nt_server := nt_server n; nt_fds := nt_fds n; nt_listen := nt_listen n; nt_port := nt_port n; nt_fdcap := fdcap;
     nt_os := nt_os n |}.

(** Growing the array and writing its entries. *)
Definition poll_setup (n : Net) : res (Net * list (option nat * bool)) :=
  let nfds := num_clients (nt_server n) + 1 in
  let fdcap := fds_capacity nfds (nt_fdcap n) in
  if length (poll_set n) <=? fdcap then Ret (with_fdcap fdcap n, poll_set n) else Undef UB_out_of_bounds.

(** The timeout of [poll] in milliseconds. *)
Definition BLOCKED_POLL_MS : Z := 10.
Definition poll_timeout (n : Net) : Z := if any_blocked (nt_server n) then BLOCKED_POLL_MS else 1000.

(** What [poll] answers when it is called with the set and the timeout. *)
Inductive poll_answer :=
  | Net_eintr
  | Net_error
  | Net_ready (readable : nat → option (list read_result)) (accepts : option (list accept_answer))
      (writable : nat → list write_result).

Definition server_turn (poll : list (option nat * bool) → Z → poll_answer) (n : Net) : res (Net * bool) :=
  r ← poll_setup n;
  let '(n, fds) := r in
  match poll fds (poll_timeout n) with
  | Net_eintr => Ret (n, true)
  | Net_error => Ret (n, false)
  | Net_ready readable accepts writable =>
      let parked := any_blocked (nt_server n) in
      sv ← for_clients (num_clients (nt_server n)) 0 (read_turn readable) (nt_server n);
      let n := with_server sv n in
      let n := match accepts with Some rs => accept_clients rs n | None => n end in
      sv ← (if parked then service_blocked (nt_server n) else Ret (nt_server n));
      sv ← for_clients (num_clients sv) 0 (write_turn writable) sv;
      n ← remove_closed_clients (with_server sv n);
      Ret (n, true)
  end.

(** How the operating system answers during an iteration, and whether a signal
    or [server_request_stop] arrives before [stop_requested] is read again. *)
Record event := mkEvent { ev_poll : list (option nat * bool) → Z → poll_answer; ev_stop : bool }.

(** [on_signal] and [server_request_stop] *)
Definition on_signal (stop_requested : bool) (ev : event) : bool := stop_requested || ev_stop ev.

(** [while (!stop_requested)], from a value of the flag. *)
Fixpoint server_run (evs : list event) (stop_requested : bool) (n : Net) : res Net :=
  if stop_requested then Ret n
  else match evs with
       | [] => Ret n
       | ev :: evs' =>
           r ← server_turn (ev_poll ev) n;
           let '(n, go_on) := r in
           if go_on : bool then server_run evs' (on_signal stop_requested ev) n else Ret n
       end.

Definition server_shutdown (n : Net) : Net :=
  let os := foldl (λ os fd, client_free fd os) (nt_os n) (nt_fds n) in
  let os := match nt_listen n with Some fd => close (closing fd) fd os | None => os end in
  {| nt_server := EventLoop.server_shutdown (nt_server n); nt_fds := []; nt_listen := None; nt_port := nt_port n;
     nt_fdcap := nt_fdcap n; nt_os := os |}.

End server.

(** ** The client *)

(** [connect_to] of [cli.c]: for each address that [getaddrinfo] returns, the
    answers to [socket] and [connect]. *)
Fixpoint connect_loop (closing : nat → answer) (addresses : list (answer * answer)) (os : Os) : option nat * Os :=
  match addresses with
  | [] => (None, os)
  | (Some e, _) :: rest => connect_loop closing rest (set_errno e os)
  | (None, connected) :: rest =>
      let '(fd, os) := open_fd os in
      match connected with
      | None => (Some fd, os)
      | Some e => connect_loop closing rest (close (closing fd) fd (set_errno e os))
      end
  end.

(** The descriptor, or -1; [None] is a name that cannot be resolved. *)
Definition connect_to (closing : nat → answer) (resolved : option (list (answer * answer))) (os : Os) : option nat * Os :=
  match resolved with
  | None => (None, os)
  | Some addresses => connect_loop closing addresses os
  end.

End Sockets.
