(* ===== verification/SocketsProps.v ===== *)
(** * Sockets: no descriptor leaks, none is closed twice

    [holds os0 fds os]: since [os0] exactly the descriptors [fds] were opened
    and not closed; each is non-blocking, the others are as they were, and no
    call named a descriptor that was not open. *)

From S2P Require Import Prelude CLib Util Store Config Cmd Commands Handlers Server EventLoop EventLoopProps Sockets.
Import Util Store Config Cmd Commands Server EventLoop EventLoopProps Sockets.

Module SocketsProps.

Record holds (os0 : Os) (fds : list nat) (os : Os) : Prop := mkHolds {
  holds_distinct : NoDup fds;
  holds_new fd : fd ∈ fds → os_files os0 !! fd = None;
  holds_nonblocking fd : fd ∈ fds → ∃ flags, os_files os !! fd = Some flags ∧ Z.testbit flags NONBLOCK_BIT = true;
  holds_others fd : fd ∉ fds → os_files os !! fd = os_files os0 !! fd;
  holds_ebadf : os_ebadf os = os_ebadf os0;
}.

Lemma holds_start os : holds os [] os.
Proof. split; [constructor|by intros fd ?%not_elem_of_nil..|done|done]. Qed.

(** [errno] plays no role. *)
Lemma holds_same os0 fds os os' :
  holds os0 fds os → os_files os' = os_files os → os_ebadf os' = os_ebadf os → holds os0 fds os'.
Proof. intros [H1 H2 H3 H4 H5] Hf He. split; [done|done|by rewrite Hf|by rewrite Hf|by rewrite He]. Qed.

(** Neither does the order. *)
Lemma holds_perm os0 fds fds' os : holds os0 fds os → fds ≡ₚ fds' → holds os0 fds' os.
Proof. intros [H1 H2 H3 H4 H5] Hp. split; try done; intros *; rewrite <- Hp; auto. Qed.

#[export] Instance holds_proper os0 : Proper ((≡ₚ) ==> eq ==> iff) (holds os0).
Proof. intros fds fds' Hp os ? <-. split; intros Hh; by apply (holds_perm _ _ _ _ Hh). Qed.

(** Nothing held is the table from before. *)
Lemma holds_nothing os0 os : holds os0 [] os → os_files os = os_files os0 ∧ os_ebadf os = os_ebadf os0.
Proof. intros Hh. split; [|by apply Hh]. apply map_eq. intros fd. apply (holds_others _ _ _ Hh). apply not_elem_of_nil. Qed.

(** ** Calls *)

Lemma close_run a fd os flags : os_files os !! fd = Some flags →
  os_files (close a fd os) = delete fd (os_files os) ∧ os_ebadf (close a fd os) = os_ebadf os.
Proof. intros Hf. unfold close. rewrite Hf. by destruct a. Qed.

Lemma holds_close os0 fds a fd os : holds os0 (fd :: fds) os → holds os0 fds (close a fd os).
Proof.
  intros [[Hni Hnd]%NoDup_cons H2 H3 H4 H5]. destruct (H3 fd ltac:(left)) as (flags & Hfl & _).
  destruct (close_run a fd os flags Hfl) as [Hf He]. split; [done|by intros x Hx; apply H2; right| | |by rewrite He].
  - intros x Hx. rewrite Hf, lookup_delete_ne by (by intros ->). apply H3. by right.
  - intros x Hx. rewrite Hf. destruct (decide (x = fd)) as [->|Hne].
    + rewrite lookup_delete_eq. symmetry. apply H2. left.
    + rewrite lookup_delete_ne by done. apply H4. by rewrite not_elem_of_cons.
Qed.

Lemma holds_close_all os0 (f : nat → answer) fds rest os :
  holds os0 (fds ++ rest) os → holds os0 rest (foldl (λ os fd, close (f fd) fd os) os fds).
Proof. revert os. induction fds as [|fd fds IH]; intros os Hh; [done|]. cbn. by apply IH, holds_close. Qed.

(** The two outcomes of [set_nonblocking] on an open descriptor. *)
Definition fcntl_ok (a : answer * answer) : bool := bool_decide (a = (None, None)).

Lemma set_nonblocking_run a fd os flags : os_files os !! fd = Some flags → ∃ os',
  set_nonblocking a fd os = (fcntl_ok a, os') ∧ os_ebadf os' = os_ebadf os ∧
  os_files os' = if fcntl_ok a then <[fd := Z.lor flags O_NONBLOCK]> (os_files os) else os_files os.
Proof.
  intros Hf. unfold set_nonblocking. rewrite Hf. destruct a as [[e|] [e'|]]; cbn [check fst snd].
  all: eexists; split; [reflexivity|done].
Qed.

Lemma nonblock_set flags : Z.testbit (Z.lor flags O_NONBLOCK) NONBLOCK_BIT = true.
Proof. rewrite Z.lor_spec. apply orb_true_r. Qed.

Lemma open_fd_run os : ∃ fd, open_fd os = (fd, with_files (<[fd := O_RDWR]> (os_files os)) os) ∧ os_files os !! fd = None.
Proof. eexists. split; [reflexivity|]. apply not_elem_of_dom, is_fresh. Qed.

(** A new descriptor that could be made non-blocking is held from then on; one
    that could not is closed again. *)
Lemma holds_open os0 fds a c os fd os1 ok os2 :
  holds os0 fds os → open_fd os = (fd, os1) → set_nonblocking a fd os1 = (ok, os2) →
  ok = fcntl_ok a ∧ (if ok : bool then holds os0 (fds ++ [fd]) os2 else holds os0 fds (close c fd os2)).
Proof.
  intros Hh Ho Hs. destruct (open_fd_run os) as (fd' & Ho' & Hn). rewrite Ho in Ho'. injection Ho' as -> ->.
  destruct (set_nonblocking_run a fd' (with_files (<[fd' := O_RDWR]> (os_files os)) os) O_RDWR ltac:(apply lookup_insert_eq))
    as (os' & Hs' & He & Hf). rewrite Hs in Hs'. injection Hs' as -> ->. split; [done|].
  assert (fd' ∉ fds) as Hni by (intros Hin; destruct (holds_nonblocking _ _ _ Hh _ Hin) as (? & ? & _); congruence).
  destruct (fcntl_ok a); cbn [with_files os_files os_ebadf] in *.
  - apply (holds_perm _ (fd' :: fds)); [|by rewrite Permutation_app_comm]. destruct Hh as [H1 H2 H3 H4 H5].
    rewrite insert_insert_eq in Hf. split; [by constructor| | | |congruence].
    + intros x [->|Hx]%elem_of_cons; [by rewrite <- H4|by apply H2].
    + intros x [->|Hx]%elem_of_cons; rewrite Hf.
      * rewrite lookup_insert_eq. eexists. split; [done|apply nonblock_set].
      * rewrite lookup_insert_ne by (by intros ->). by apply H3.
    + intros x [Hne Hx]%not_elem_of_cons. rewrite Hf, lookup_insert_ne by done. by apply H4.
  - destruct (close_run c fd' os' O_RDWR) as [Hf' He']; [rewrite Hf; apply lookup_insert_eq|].
    apply (holds_same _ _ _ _ Hh); [|congruence]. by rewrite Hf', Hf, delete_insert_id.
Qed.

(** ** The server *)

(** The descriptors of a server. *)
Definition owned (n : Net) : list nat := option_list (nt_listen n) ++ nt_fds n.

(** One descriptor for each client, and those of the server are exactly what it
    holds. *)
Definition net_inv (os0 : Os) (n : Net) : Prop :=
  length (nt_fds n) = num_clients (nt_server n) ∧ holds os0 (owned n) (nt_os n).

(** The answers without the descriptors. *)
Definition erase_accept (r : accept_answer) : accept_result :=
  match r with Conn fa => Accept_fd (fcntl_ok fa) | No_conn _ => Accept_error end.
Definition erase_poll (p : poll_answer) : poll_result :=
  match p with
  | Net_eintr => Poll_eintr
  | Net_error => Poll_error
  | Net_ready readable accepts writable => Poll_ready readable (option_map (map erase_accept) accepts) writable
  end.

Lemma filter_snd {A B} (f : B → bool) (l : list (A * B)) :
  filter (λ b, f b = false) l.*2 = (filter (λ c, f c.2 = false) l).*2.
Proof. induction l as [|[a b] l IH]; [done|]. rewrite fmap_cons, !filter_cons, IH. cbn. by destruct (decide _). Qed.

(** Steps on one client keep the number of clients. *)
Lemma at_client_num {A} i (m : M A) sv a sv' : at_client i m sv = Ret (a, sv') → num_clients sv' = num_clients sv.
Proof.
  unfold at_client. destruct (sv_clients sv !! i); [|done]. cbn. destruct (m _) as [[b w]|]; [|done].
  intros [= _ <-]. apply length_insert.
Qed.

Lemma for_clients_num n lo f sv sv' :
  (∀ i x y, f i x = Ret y → num_clients y = num_clients x) → for_clients n lo f sv = Ret sv' → num_clients sv' = num_clients sv.
Proof.
  intros Hf. revert lo sv. induction n as [|n IH]; intros lo sv; cbn [for_clients]; [by intros [= <-]|].
  intros (sv1 & H1 & H2)%res_bind_inv. rewrite (IH _ _ H2). by eapply Hf.
Qed.

Section server.
Context `{Handlers}.

Lemma read_turn_num readable i x y : read_turn readable i x = Ret y → num_clients y = num_clients x.
Proof.
  unfold read_turn. destruct (readable i); [|by intros [= <-]]. intros ([a z] & Ha & [= <-])%res_bind_inv.
  by eapply at_client_num.
Qed.

Lemma write_turn_num writable i x y : write_turn writable i x = Ret y → num_clients y = num_clients x.
Proof.
  unfold write_turn. destruct (sv_clients x !! i); [|done]. destruct (_ && _); [|by intros [= <-]].
  intros ([a z] & Ha & [= <-])%res_bind_inv. by eapply at_client_num.
Qed.

Lemma service_blocked_num x y : service_blocked x = Ret y → num_clients y = num_clients x.
Proof.
  unfold service_blocked. intros Hs. eapply (for_clients_num _ _ _ _ _) in Hs; [exact Hs|].
  intros i u v ([a z] & Ha & [= <-])%res_bind_inv. by eapply at_client_num.
Qed.

Context (inet_pton : bytes → option Z) (closing : nat → answer).
Local Abbreviation server_init := (Sockets.server_init inet_pton closing).
Local Abbreviation accept_clients := (Sockets.accept_clients closing).
Local Abbreviation remove_closed_clients := (Sockets.remove_closed_clients closing).
Local Abbreviation server_turn := (Sockets.server_turn closing).
Local Abbreviation server_run := (Sockets.server_run closing).
Local Abbreviation server_shutdown := (Sockets.server_shutdown closing).

Lemma accept_clients_inv os0 rs n : net_inv os0 n →
  net_inv os0 (accept_clients rs n) ∧
  nt_server (accept_clients rs n) = EventLoop.accept_clients (map erase_accept rs) (nt_server n).
Proof.
  revert n. induction rs as [|[fa|e] rs IH]; intros n [Hlen Hh]; cbn [Sockets.accept_clients]; [done| |].
  - destruct (open_fd (nt_os n)) as [fd os1] eqn:Ho. destruct (set_nonblocking fa fd os1) as [ok os2] eqn:Hs.
    destruct (holds_open os0 _ fa (closing fd) _ _ _ _ _ Hh Ho Hs) as [-> Hh2].
    destruct (fcntl_ok fa) eqn:Hok; cbn; rewrite Hok.
    + apply IH. split; [by cbn; rewrite !length_app, Hlen|]. unfold owned. cbn. by rewrite (assoc_L (++)).
    + by apply (IH (with_os _ n)).
  - split; [split; [done|]|done]. by apply (holds_same _ _ _ _ Hh).
Qed.

(** The clients that go are closed, the others keep their descriptors. *)
Lemma remove_closed_inv os0 n : net_inv os0 n → ∃ n', remove_closed_clients n = Ret n' ∧
  net_inv os0 n' ∧ EventLoop.remove_closed_clients (nt_server n) = Ret (nt_server n').
Proof.
  intros [Hlen Hh]. unfold Sockets.remove_closed_clients. unfold num_clients in *.
  assert (length (sv_clients (nt_server n)) = length (conns n)) as -> by (unfold conns; rewrite length_zip; lia).
  destruct (compact_loop_spec (λ c : nat * Client, c_closed c.2) (λ c, client_free closing c.1) (length (conns n)) [] []
    (conns n) (nt_os n)) as [junk Hj]; [done..|]. cbn in Hj. rewrite Hj. cbn [mbind res_bind].
  rewrite take_app_length. eexists. split; [reflexivity|]. set (kept := filter _ (conns n)). set (gone := filter _ (conns n)).
  assert (kept ++ gone ≡ₚ conns n) as Hp.
  { etrans; [|apply (filter_app_complement (λ c : nat * Client, c_closed c.2 = false) (conns n))].
    unfold kept, gone. f_equiv. apply reflexive_eq. apply list_filter_iff. intros [fd c]. cbn. by destruct (c_closed c). }
  assert ((conns n).*1 = nt_fds n) as Hfds by (unfold conns; apply fst_zip; lia).
  assert ((conns n).*2 = sv_clients (nt_server n)) as Hcl by (unfold conns; apply snd_zip; lia).
  split; [split|].
  - cbn. by rewrite !length_fmap.
  - unfold owned. cbn. fold kept gone.
    replace (foldl _ (nt_os n) gone) with (foldl (λ os fd, close (closing fd) fd os) (nt_os n) gone.*1)
      by (clear; generalize (nt_os n); induction gone as [|g gone IH]; intros os; cbn; [done|apply IH]).
    apply holds_close_all. apply (holds_perm _ _ _ _ Hh). unfold owned. rewrite <- Hfds, <- Hp, fmap_app.
    rewrite (Permutation_app_comm (gone.*1)). by rewrite (assoc_L (++)).
  - rewrite remove_closed_filter. cbn [nt_server]. do 2 f_equal. rewrite <- Hcl. apply filter_snd.
Qed.

Lemma fds_capacity_enough nfds fdcap : nfds ≤ fds_capacity nfds fdcap.
Proof. unfold fds_capacity. destruct (Nat.ltb_spec fdcap nfds); lia. Qed.

(** The array is large enough for the listening socket and every client. *)
Lemma poll_setup_run os0 n : net_inv os0 n → ∃ fdcap, poll_setup n = Ret (with_fdcap fdcap n, poll_set n).
Proof.
  intros [Hlen _]. unfold poll_setup. eexists. rewrite (proj2 (Nat.leb_le _ _)); [done|].
  etrans; [|apply fds_capacity_enough]. unfold poll_set, conns, num_clients in *. cbn [length].
  rewrite length_fmap, length_zip. lia.
Qed.

(** What the kernel answered in an iteration of [n], without the descriptors. *)
Definition erase_turn (poll : list (option nat * bool) → Z → poll_answer) (n : Net) : poll_result :=
  erase_poll (poll (poll_set n) (poll_timeout n)).

(** An iteration is one of [EventLoop], defined exactly when that is. *)
Lemma server_turn_net_inv os0 poll n : net_inv os0 n →
  match server_turn poll n with
  | Ret (n', go_on) => net_inv os0 n' ∧ EventLoop.server_turn (erase_turn poll n) (nt_server n) = Ret (nt_server n', go_on)
  | Undef u => EventLoop.server_turn (erase_turn poll n) (nt_server n) = Undef u
  end.
Proof.
  intros Hn. unfold Sockets.server_turn, erase_turn. destruct (poll_setup_run os0 n Hn) as [fdcap ->]. cbn [mbind res_bind].
  assert (net_inv os0 (with_fdcap fdcap n)) as Hn0 by exact Hn.
  change (poll_timeout (with_fdcap fdcap n)) with (poll_timeout n). set (n0 := with_fdcap fdcap n) in *.
  change (nt_server n) with (nt_server n0).
  destruct (poll (poll_set n) (poll_timeout n)) as [| |readable accepts writable]; [done..|].
  cbn [erase_poll EventLoop.server_turn].
  destruct (for_clients _ 0 (read_turn readable) (nt_server n0)) as [sv1|u] eqn:H1; cbn [mbind res_bind]; [|done].
  set (n1 := with_server sv1 n0). set (n2 := match accepts with Some rs => accept_clients rs n1 | None => n1 end).
  assert (net_inv os0 n1) as Hn1.
  { destruct Hn0 as [Hlen Hh]. split; [|done]. cbn. cbn in Hlen. rewrite Hlen. symmetry. eapply for_clients_num, H1.
    intros i x y. apply read_turn_num. }
  assert (net_inv os0 n2 ∧ nt_server n2 = match option_map (map erase_accept) accepts with
    | Some rs => EventLoop.accept_clients rs sv1 | None => sv1 end) as [Hn2 Hsv2]
    by (unfold n2; destruct accepts; [by apply (accept_clients_inv os0)|done]).
  rewrite <- Hsv2. destruct (if any_blocked _ then _ else _) as [sv2|u] eqn:H2; cbn [mbind res_bind]; [|done].
  destruct (for_clients _ 0 (write_turn writable) sv2) as [sv3|u] eqn:H3; cbn [mbind res_bind]; [|done].
  assert (num_clients sv3 = num_clients (nt_server n2)) as Hnum.
  { transitivity (num_clients sv2); [eapply for_clients_num, H3; intros i x y; apply write_turn_num|].
    destruct (any_blocked _); [by apply service_blocked_num|by injection H2 as <-]. }
  destruct (remove_closed_inv os0 (with_server sv3 n2)) as (n4 & -> & Hn4 & Hr).
  { destruct Hn2 as [Hlen Hh]. split; [|done]. cbn. by rewrite Hlen, Hnum. }
  cbn [with_server nt_server] in Hr. rewrite Hr. done.
Qed.

(** The iterations that happen: up to the first one during which a stop is
    requested, or in which [poll] fails. *)
Fixpoint happening (evs : list event) (stop_requested : bool) (n : Net) : list poll_result :=
  if stop_requested then []
  else match evs with
       | [] => []
       | ev :: evs' => erase_turn (ev_poll ev) n ::
           match server_turn (ev_poll ev) n with
           | Ret (n', true) => happening evs' (on_signal stop_requested ev) n'
           | _ => []
           end
       end.

Lemma server_run_net_inv os0 evs stop n : net_inv os0 n →
  match server_run evs stop n with
  | Ret n' => net_inv os0 n' ∧ EventLoop.server_run (happening evs stop n) (nt_server n) = Ret (nt_server n')
  | Undef u => EventLoop.server_run (happening evs stop n) (nt_server n) = Undef u
  end.
Proof.
  revert stop n. induction evs as [|ev evs IH]; intros stop n Hn; cbn [Sockets.server_run happening].
  { by destruct stop. }
  destruct stop; [done|]. pose proof (server_turn_net_inv os0 (ev_poll ev) n Hn) as Ht.
  destruct (server_turn (ev_poll ev) n) as [[n1 go_on]|u]; cbn [mbind res_bind EventLoop.server_run].
  - destruct Ht as [Hn1 ->]. cbn [mbind res_bind]. destruct go_on; [by apply IH|done].
  - by rewrite Ht.
Qed.

Lemma shutdown_holds os0 n : net_inv os0 n → holds os0 [] (nt_os (server_shutdown n)).
Proof.
  intros [_ Hh]. cbn [Sockets.server_shutdown nt_os]. unfold owned in Hh.
  assert (holds os0 (option_list (nt_listen n)) (foldl (λ os fd, client_free closing fd os) (nt_os n) (nt_fds n))) as Hl.
  { apply (holds_close_all os0 closing (nt_fds n)). by rewrite Permutation_app_comm in Hh. }
  destruct (nt_listen n); [|done]. by apply holds_close.
Qed.

(** The error of the first call that fails. *)
Definition first_error (a : answers) (cfg : Config) : answer :=
  match inet_pton (cfg_bind cfg) with
  | None => Some EINVAL
  | Some ip => foldr (λ x y : answer, match x with Some e => Some e | None => y end) None
      [an_socket a; an_bind a (ip, cfg_port cfg mod 2 ^ 16)%Z; an_listen a; (an_fcntl a).1; (an_fcntl a).2]
  end.

Lemma htons_ntohs port : (0 ≤ port < 2 ^ 16)%Z → ntohs (htons port) = port.
Proof.
  intros Hp. unfold ntohs, htons. cbn [fst snd]. pose proof (Z.div_mod port 256 ltac:(done)).
  rewrite (Z.mod_small (port / 256)); [lia|]. split; [apply Z.div_pos; lia|apply Z.div_lt_upper_bound; lia].
Qed.

(** A descriptor that was just opened and is closed again. *)
Lemma open_close c e fd os os' flags :
  os_files os !! fd = None → os_files os' = <[fd := flags]> (os_files os) → os_ebadf os' = os_ebadf os →
  holds os [] (set_errno e (close c fd os')).
Proof.
  intros Hn Hf He. destruct (close_run c fd os' flags) as [Hf' He']; [rewrite Hf; apply lookup_insert_eq|].
  apply (holds_same _ _ _ _ (holds_start os)); cbn; [by rewrite Hf', Hf, delete_insert_id|congruence].
Qed.

(** Setting up the listening socket: it is held, or nothing is and [errno] is
    the error of the call that failed. *)
Lemma server_init_run a cfg s now mono os : ∃ n,
  server_init a cfg s now mono os = (if (first_error a cfg) is Some _ then (-1)%Z else 0%Z, n) ∧
  nt_server n = EventLoop.server_init s now mono ∧ net_inv os n ∧
  match first_error a cfg with
  | Some e => nt_listen n = None ∧ os_errno (nt_os n) = e
  | None => is_Some (nt_listen n) ∧ nt_port n = ntohs (an_sockname a)
  end.
Proof.
  unfold Sockets.server_init, first_error. destruct (inet_pton (cfg_bind cfg)) as [ip|].
  2: { eexists. split; [done|]. split; [done|]. split; [split; [done|]|done]. by apply (holds_same _ _ _ _ (holds_start os)). }
  cbn [foldr]. destruct (an_socket a) as [e|].
  { eexists. split; [done|]. split; [done|]. split; [split; [done|]|done]. by apply (holds_same _ _ _ _ (holds_start os)). }
  rewrite htons_ntohs by (apply Z.mod_pos_bound; lia).
  destruct (open_fd os) as [fd os1] eqn:Ho. pose proof Ho as Ho'. destruct (open_fd_run os) as (fd' & Heq & Hn).
  rewrite Heq in Ho'. injection Ho' as <- <-.
  destruct (an_bind a _) as [e|]; cbn [check].
  { eexists. split; [done|]. split; [done|]. split; [split; [done|]|done]. by eapply open_close. }
  destruct (an_listen a) as [e|]; cbn [check].
  { eexists. split; [done|]. split; [done|]. split; [split; [done|]|done]. by eapply open_close. }
  destruct (set_nonblocking _ _ _) as [ok os2] eqn:Hs.
  destruct (holds_open os [] (an_fcntl a) (closing fd') _ _ _ _ _ (holds_start os) Ho Hs) as [-> Hh].
  unfold set_nonblocking in Hs. cbn in Hs. rewrite lookup_insert_eq in Hs.
  destruct (an_fcntl a) as [[e|] [e'|]]; cbn in Hs, Hh |- *.
  all: injection Hs as <-; eexists; split; [done|]; split; [done|]; split; [split; [done|]|done].
  all: first [exact Hh|by apply (holds_same _ _ _ _ Hh)].
Qed.

End server.

(** C12: the descriptors of the server are exactly accounted for.  After any
    number of iterations of the loop, with any answers of the operating system
    and a stop requested at any time, every client has a descriptor of its own;
    these and the listening socket are all the descriptors the process has more
    than before [server_init], each is non-blocking, every other descriptor is
    untouched, and no call has named one that was not open.  [server_shutdown]
    gives back exactly the table from before.  The loop is undefined only where
    [EventLoop] is on the same answers, and computes the same otherwise; in
    particular the array of [poll] is always large enough. *)
Theorem server_descriptors `{Handlers} (inet_pton : bytes → option Z) (closing : nat → answer) (a : answers) (cfg : Config)
    (s : Store) (now mono : nat → Z) (os : Os) (evs : list event) (n0 : Net) :
  Sockets.server_init inet_pton closing a cfg s now mono os = (0%Z, n0) →
  let polls := happening closing evs false n0 in
  match Sockets.server_run closing evs false n0 with
  | Ret n => net_inv os n ∧
      EventLoop.server_run polls (EventLoop.server_init s now mono) = Ret (nt_server n) ∧
      os_files (nt_os (Sockets.server_shutdown closing n)) = os_files os ∧
      os_ebadf (nt_os (Sockets.server_shutdown closing n)) = os_ebadf os
  | Undef u => EventLoop.server_run polls (EventLoop.server_init s now mono) = Undef u
  end.
Proof.
  intros Hi polls. destruct (server_init_run inet_pton closing a cfg s now mono os) as (n1 & Hi' & Hsv & Hinv & _).
  rewrite Hi in Hi'. destruct (first_error _ _ _) as [e|]; [done|]. injection Hi' as <-.
  pose proof (server_run_net_inv closing os evs false n0 Hinv) as Hr. rewrite Hsv in Hr. fold polls in Hr.
  destruct (Sockets.server_run closing evs false n0) as [n|u]; [|done]. destruct Hr as [Hn Hrun].
  split; [done|]. split; [done|]. by apply holds_nothing, shutdown_holds.
Qed.

(** [server_init] succeeds exactly when the address is valid and every call
    that is checked succeeds.  Otherwise it returns -1, leaves no descriptor
    open, [listen_fd] is -1, and [errno] is the error of the call that failed,
    even where closing the socket fails with another one. *)
Lemma server_init_exact (inet_pton : bytes → option Z) (closing : nat → answer) (a : answers) (cfg : Config)
    (s : Store) (now mono : nat → Z) (os : Os) : ∃ n,
  Sockets.server_init inet_pton closing a cfg s now mono os =
    (if (first_error inet_pton a cfg) is Some _ then (-1)%Z else 0%Z, n) ∧
  match first_error inet_pton a cfg with
  | None => ∃ fd, nt_listen n = Some fd ∧ holds os [fd] (nt_os n)
  | Some e => nt_listen n = None ∧ os_errno (nt_os n) = e ∧ os_files (nt_os n) = os_files os ∧
      os_ebadf (nt_os n) = os_ebadf os
  end.
Proof.
  destruct (server_init_run inet_pton closing a cfg s now mono os) as (n & Hi & Hsv & [Hlen Hh] & Hl). exists n.
  split; [done|]. unfold num_clients in Hlen. rewrite Hsv in Hlen. apply nil_length_inv in Hlen. unfold owned in Hh.
  rewrite Hlen in Hh. destruct (first_error _ _ _) as [e|].
  - destruct Hl as [Hl He]. rewrite Hl in Hh. apply holds_nothing in Hh as [Hf Hb]. done.
  - destruct Hl as [[fd Hl] _]. exists fd. rewrite Hl in Hh. done.
Qed.

(** [connect_to] connects to the first address that can be reached, with one
    descriptor more than before; without such an address nothing is left open. *)
Lemma connect_loop_exact closing addresses os :
  (∀ fd, match connect_loop closing addresses os with
         | (Some fd', os') => ((None, None) ∈ addresses) ∧ os_files os !! fd' = None ∧
             os_files os' = <[fd' := O_RDWR]> (os_files os) ∧ os_ebadf os' = os_ebadf os
         | (None, os') => ((None, None) ∉ addresses) ∧ os_files os' !! fd = os_files os !! fd ∧ os_ebadf os' = os_ebadf os
         end).
Proof.
  intros fd. revert os. induction addresses as [|[[e|] [e'|]] rest IH]; intros os; cbn [connect_loop].
  - split; [apply not_elem_of_nil|done].
  - specialize (IH (set_errno e os)). destruct (connect_loop _ _ _) as [[fd'|] os'];
      (split; [|apply IH]); [right; apply IH|]. rewrite not_elem_of_cons. split; [done|apply IH].
  - specialize (IH (set_errno e os)). destruct (connect_loop _ _ _) as [[fd'|] os'];
      (split; [|apply IH]); [right; apply IH|]. rewrite not_elem_of_cons. split; [done|apply IH].
  - destruct (open_fd_run os) as (fd0 & -> & Hn). set (os1 := close _ _ _).
    assert (os_files os1 = os_files os ∧ os_ebadf os1 = os_ebadf os) as [Hf He].
    { destruct (close_run (closing fd0) fd0 (set_errno e' (with_files (<[fd0 := O_RDWR]> (os_files os)) os)) O_RDWR)
        as [Hf He]; [apply lookup_insert_eq|]. unfold os1. rewrite Hf, He. cbn. by rewrite delete_insert_id. }
    specialize (IH os1). rewrite Hf, He in IH. destruct (connect_loop _ _ _) as [[fd'|] os'];
      (split; [|apply IH]); [right; apply IH|]. rewrite not_elem_of_cons. split; [done|apply IH].
  - destruct (open_fd_run os) as (fd0 & -> & Hn). split; [left|done].
Qed.

(** Three connections, one of which cannot be made non-blocking; one of the
    others is closed by its peer, while a stop is requested. *)
Definition demo_answers : answers := mkAnswers None (λ _, None) None (None, None) (htons 6379).
Definition demo_os : Os := mkOs {[0 := 0%Z; 1 := 1%Z; 2 := 1%Z]} 0 0.
Definition demo_events : list event :=
  [ mkEvent (λ _ _, Net_ready (λ _, None) (Some [Conn (None, None); Conn (None, Some 5%Z); Conn (None, None); No_conn 11]) (λ _, [])) false;
    mkEvent (λ _ _, Net_ready (λ i, if i =? 0 then Some [Read_eof] else None) None (λ _, [])) true;
    mkEvent (λ _ _, Net_ready (λ _, None) (Some [Conn (None, None)]) (λ _, [])) false ].

Definition demo_init : Z * Net :=
  Sockets.server_init (λ _, Some 0%Z) (λ _, None) demo_answers config_create_default store_create (λ _, 5%Z) (λ _, 5%Z) demo_os.

Lemma server_descriptors_witness : ∃ n,
  Sockets.server_run (H := Handlers.demo_handlers) (λ _, None) demo_events false demo_init.2 = Ret n ∧ length (nt_fds n) = 1 ∧
  size (os_files (nt_os n)) = 5 ∧ net_inv demo_os n ∧
  os_files (nt_os (Sockets.server_shutdown (λ _, None) n)) = os_files demo_os.
Proof.
  destruct (Sockets.server_run (H := Handlers.demo_handlers) (λ _, None) demo_events false demo_init.2) as [n|u] eqn:Hr;
    [|vm_compute in Hr; discriminate].
  assert (length (nt_fds n) = 1 ∧ size (os_files (nt_os n)) = 5) as [Hl Hs].
  { enough (match Sockets.server_run (H := Handlers.demo_handlers) (λ _, None) demo_events false demo_init.2 with
      | Ret n => length (nt_fds n) = 1 ∧ size (os_files (nt_os n)) = 5 | Undef _ => False end) as He by (by rewrite Hr in He).
    vm_compute. done. }
  exists n. split; [done|]. split; [exact Hl|]. split; [exact Hs|].
  pose proof (server_descriptors (H := Handlers.demo_handlers) (λ _, Some 0%Z) (λ _, None) demo_answers config_create_default
    store_create (λ _, 5%Z) (λ _, 5%Z) demo_os demo_events demo_init.2 ltac:(vm_compute; reflexivity)) as Hd.
  rewrite Hr in Hd. destruct Hd as (Hn & _ & Hf & _). split; [exact Hn|exact Hf].
Defined.

End SocketsProps.
