(* ===== verification/Boot.v ===== *)
(** * main.c: starting and stopping the server

    The command line is read, the snapshot is loaded, the server listens and
    runs its loop.  The file system, the clocks and the result of setting up
    the listening socket are inputs; what is printed is part of the result. *)

From S2P Require Import Prelude CLib Util Store StoreInv StoreSpec Config Rdb RdbProps Cmd Commands EventLoop.
Import Util Store StoreInv StoreSpec Config Rdb RdbProps Cmd Commands EventLoop.

Module Boot.

(** What the program finds: files by path, the clocks, and the port it ends up
    listening on or the error message. *)
Record Environment := mkEnvironment {
  env_file : bytes → option bytes;
  env_now : nat → Z;
  env_mono : nat → Z;
  env_listen : Config → bytes + Z;
}.

Record Output := mkOutput { out_stdout : bytes; out_stderr : bytes }.

Definition config_usage (prog : bytes) : bytes :=
  #"usage: " ++ prog ++ #" [--port N] [--bind ADDR] [--dir PATH] [--dbfilename NAME]" ++ [LF] ++
  #"  --port N           TCP port to listen on (default 6379, 0 = any free port)" ++ [LF] ++
  #"  --bind ADDR        IPv4 address to bind (default 127.0.0.1)" ++ [LF] ++
  #"  --dir PATH         directory containing the RDB file (default .)" ++ [LF] ++
  #"  --dbfilename NAME  RDB file name (default dump.rdb)" ++ [LF].

(** [snprintf(rdb_path, 1024, "%s/%s", dir, dbfilename)] *)
Definition rdb_path (cfg : Config) : bytes := take (Z.to_nat 1023) (cfg_dir cfg ++ #"/" ++ cfg_dbfilename cfg).

Inductive start :=
| Exits (status : Z)
| Listens (cfg : Config) (sv : Server).

(** [main] up to the loop.  [None] would be a decoder that does not stop. *)
Definition main_start (env : Environment) (argv : list bytes) : option (start * Output) :=
  match config_parse_args config_create_default argv with
  | (_, ARGS_HELP) => Some (Exits 0, mkOutput [] (config_usage (default [] (head argv))))
  | (_, ARGS_ERROR msg) => Some (Exits 2, mkOutput [] (msg ++ [LF] ++ config_usage (default [] (head argv))))
  | (cfg, ARGS_OK) =>
      let path := rdb_path cfg in
      '(result, (store, n)) ← rdb_load (env_now env) (store_create, 0) (env_file env path);
      let '(store, out) :=
        match result with
        | RDB_OK => (store, mkOutput (#"loaded " ++ dec_of (Z.of_nat (store_count store)) ++ #" keys from " ++ path ++ [LF]) [])
        | RDB_NOT_FOUND => (store, mkOutput (#"no RDB file at " ++ path ++ #", starting empty" ++ [LF]) [])
        | RDB_UNSUPPORTED =>
            (store_create, mkOutput [] (#"warning: " ++ path ++ #" could not be loaded (unsupported value type), starting empty" ++ [LF]))
        | RDB_PARSE_ERROR =>
            (store_create, mkOutput [] (#"warning: " ++ path ++ #" could not be loaded (corrupt or truncated), starting empty" ++ [LF]))
        end in
      match env_listen env cfg with
      | inl error =>
          Some (Exits 1, mkOutput (out_stdout out)
            (out_stderr out ++ #"could not listen on " ++ cfg_bind cfg ++ #":" ++ fmt_d (cfg_port cfg) ++ #": " ++ error ++ [LF]))
      | inr port =>
          Some (Listens cfg (server_init store (λ i, env_now env (n + i)) (λ i, env_mono env (n + i))),
                mkOutput (out_stdout out ++ #"pulsedb listening on " ++ cfg_bind cfg ++ #":" ++ fmt_d port ++ [LF]) (out_stderr out))
      end
  end.

(** The whole program: the exit status, unless there is undefined behaviour.
    [h] are the handlers under the configuration. *)
Definition main (h : Config → Handlers) (env : Environment) (polls : list poll_result) (argv : list bytes)
    : option (res (Z * Output)) :=
  '(s, out) ← main_start env argv;
  Some match s with
       | Exits status => Ret (status, out)
       | Listens cfg sv =>
           server_run (H := h cfg) polls sv ≫= λ sv,
           let sv := server_shutdown sv in
           Ret (0%Z, mkOutput (out_stdout out ++ #"pulsedb shutting down" ++ [LF]) (out_stderr out))
       end.

(** ** What the server starts from *)


Definition demo_environment : Environment :=
  mkEnvironment (λ path, if decide (path = #"/var/x.rdb") then Some (encode_file #"0011" demo_items ++ #"crc") else None)
    (λ _, 5%Z) (λ _, 5%Z) (λ cfg, inr (cfg_port cfg)).


End Boot.
