(* ===== verification/Cli.v ===== *)
(** * tools/cli.c: the command-line client

    Lines are split into words, a command is sent as an array of bulk strings,
    the reply is read back from the socket in whatever pieces it arrives in,
    and printed.  What the socket and the terminal deliver are inputs: the
    results of the successive [write] and [read] calls, and the bytes of the
    standard input.  The socket blocks, so a run that needs more results than
    it is given is waiting ([Blocks]). *)

From S2P Require Import Prelude CLib Util Resp Server.
Import Util Resp.

Module Cli.

Definition MAX_LINE : nat := Z.to_nat 65536.
Definition MAX_ARGS : nat := 1024.

Definition DQUOTE : ascii := chr 34.
Definition SQUOTE : ascii := chr 39.
Definition BACKSLASH : ascii := chr 92.

(** ** Running against a socket *)

Inductive outcome (A : Type) :=
| Done (a : A)
| Blocks
| Broken (u : ub).
Arguments Done {A} _.
Arguments Blocks {A}.
Arguments Broken {A} _.

(** The socket, [inbuf], and what has been sent and printed so far. *)
Record Session := mkSession {
  ss_writes : list Server.write_result;
  ss_reads : list Server.read_result;
  ss_inbuf : Buffer;
  ss_sent : bytes;
  ss_stdout : bytes;
}.

Definition IO (A : Type) : Type := Session → outcome (A * Session).

Global Instance IO_ret : MRet IO := λ A a s, Done (a, s).
Global Instance IO_bind : MBind IO := λ A B f m s,
  match m s with
  | Done (a, s') => f a s'
  | Blocks => Blocks
  | Broken u => Broken u
  end.

Definition printf (text : bytes) : IO () := λ s,
  Done (tt, {| ss_writes := ss_writes s; ss_reads := ss_reads s; ss_inbuf := ss_inbuf s; ss_sent := ss_sent s;
               ss_stdout := ss_stdout s ++ text |}).

(** ** Sending a command *)

Fixpoint append_args (req : Buffer) (argv : list bytes) : Buffer :=
  match argv with
  | [] => req
  | arg :: argv' =>
      let req := buffer_append_str req (#"$" ++ dec_of (Z.of_nat (length arg)) ++ CRLF) in
      let req := buffer_append_str req arg in
      let req := buffer_append req CRLF in
      append_args req argv'
  end.

Definition request (argv : list bytes) : Buffer :=
  append_args (buffer_append_str buffer_init (#"*" ++ dec_of (Z.of_nat (length argv)) ++ CRLF)) argv.

(** The writing loop on what is left of the request: whether all of it was
    sent. *)
Fixpoint send_loop (ws : list Server.write_result) (left sent : bytes) : outcome (bool * list Server.write_result * bytes) :=
  match left with
  | [] => Done (true, ws, sent)
  | _ :: _ =>
      match ws with
      | [] => Blocks
      | Server.Write_eintr :: ws' => send_loop ws' left sent
      | Server.Write_sent (S n) :: ws' => send_loop ws' (drop (S n) left) (sent ++ take (S n) left)
      | Server.Write_sent O :: ws' | Server.Write_again :: ws' | Server.Write_error :: ws' => Done (false, ws', sent)
      end
  end.

Definition send_command (argv : list bytes) : IO bool := λ s,
  match send_loop (ss_writes s) (data (request argv)) (ss_sent s) with
  | Done (ok, ws, sent) =>
      Done (ok, {| ss_writes := ws; ss_reads := ss_reads s; ss_inbuf := ss_inbuf s; ss_sent := sent;
                   ss_stdout := ss_stdout s |})
  | Blocks => Blocks
  | Broken u => Broken u
  end.

(** ** Reading a reply *)

Fixpoint reply_loop (rs : list Server.read_result) (inbuf : Buffer)
    : outcome (option RespValue * list Server.read_result * Buffer) :=
  match (if blen inbuf =? 0 then RESP_PARSE_INCOMPLETE else resp_parse_reply (data inbuf)) with
  | RESP_PARSE_OK (v, used) => Done (Some v, rs, buffer_consume inbuf used)
  | RESP_PARSE_ERROR => Done (None, rs, inbuf)
  | RESP_UNDEF u => Broken u
  | RESP_PARSE_INCOMPLETE =>
      match rs with
      | [] => Blocks
      | Server.Read_eintr :: rs' => reply_loop rs' inbuf
      | Server.Read_data chunk :: rs' => reply_loop rs' (buffer_append inbuf chunk)
      | Server.Read_eof :: rs' | Server.Read_again :: rs' | Server.Read_error :: rs' => Done (None, rs', inbuf)
      end
  end.

(** [None] is the NULL result. *)
Definition read_reply : IO (option RespValue) := λ s,
  match reply_loop (ss_reads s) (ss_inbuf s) with
  | Done (v, rs, b) =>
      Done (v, {| ss_writes := ss_writes s; ss_reads := rs; ss_inbuf := b; ss_sent := ss_sent s;
                  ss_stdout := ss_stdout s |})
  | Blocks => Blocks
  | Broken u => Broken u
  end.

(** ** Printing a reply *)

Definition hex_digit (d : Z) : ascii := chr (if d <? 10 then 48 + d else 87 + d)%Z.

Definition print_char (c : ascii) : bytes :=
  if bool_decide (c = DQUOTE) || bool_decide (c = BACKSLASH) then [BACKSLASH; c]
  else if bool_decide (c = LF) then [BACKSLASH] ++ #"n"
  else if bool_decide (c = CR) then [BACKSLASH] ++ #"r"
  else if (code c <? 32)%Z || (126 <? code c)%Z
  then [BACKSLASH] ++ #"x" ++ [hex_digit (code c / 16); hex_digit (code c mod 16)]
  else [c].

(** The text [print_reply] prints.  [%s] stops at a NUL byte. *)
Fixpoint print_reply (v : RespValue) (indent : nat) : bytes :=
  match v with
  | RESP_SIMPLE_STRING s => cstr s ++ [LF]
  | RESP_ERROR s => #"(error) " ++ cstr s ++ [LF]
  | RESP_INTEGER z => #"(integer) " ++ fmt_d z ++ [LF]
  | RESP_NULL => #"(nil)" ++ [LF]
  | RESP_BULK_STRING s => [DQUOTE] ++ concat (print_char <$> s) ++ [DQUOTE] ++ [LF]
  | RESP_ARRAY [] => #"(empty array)" ++ [LF]
  | RESP_ARRAY vs =>
      (fix elements (i : nat) (vs : list RespValue) : bytes :=
         match vs with
         | [] => []
         | v :: vs' =>
             let label := dec_of (Z.of_nat (S i)) ++ #") " in
             (if 0 <? i then repeat SP indent else []) ++ label ++ print_reply v (indent + length label) ++
             elements (S i) vs'
         end) 0 vs
  end.

(** ** Splitting a line *)

Definition is_sep (c : ascii) : bool :=
  bool_decide (c = SP) || bool_decide (c = TAB) || bool_decide (c = CR) || bool_decide (c = LF).

Fixpoint skip_seps (p : bytes) : bytes :=
  match p with
  | c :: p' => if is_sep c then skip_seps p' else p
  | [] => []
  end.

(** [*out++ = c] where [store] has room for [room] bytes. *)
Definition put (room : nat) (out : bytes) (c : ascii) : res bytes :=
  if length out <? room then Ret (out ++ [c]) else Undef UB_out_of_bounds.

Definition unescape (c : ascii) : ascii :=
  if bool_decide (c = "n"%char) then LF
  else if bool_decide (c = "t"%char) then TAB
  else if bool_decide (c = "r"%char) then CR
  else c.

(** The loop over one word: where it stops, the quote that is still open and
    what has been written. *)
Fixpoint word_loop (room : nat) (p : bytes) (quote : option ascii) (out : bytes) : res (bytes * option ascii * bytes) :=
  match p with
  | [] => Ret (p, quote, out)
  | c :: p1 =>
      match quote with
      | Some q =>
          if bool_decide (c = q) then word_loop room p1 None out
          else
            match p1 with
            | d :: p2 =>
                if bool_decide (q = DQUOTE) && bool_decide (c = BACKSLASH)
                then out ← put room out (unescape d); word_loop room p2 quote out
                else out ← put room out c; word_loop room p1 quote out
            | [] => out ← put room out c; word_loop room p1 quote out
            end
      | None =>
          if is_sep c then Ret (p, quote, out)
          else if bool_decide (c = DQUOTE) || bool_decide (c = SQUOTE) then word_loop room p1 (Some c) out
          else out ← put room out c; word_loop room p1 quote out
      end
  end.

(** The outer loop: what has been written and the offsets in [argv]; [None] is
    the result -1.  Every word takes at least one byte of the line, so the
    length of the line is enough fuel. *)
Fixpoint split_loop (fuel room : nat) (p : bytes) (out : bytes) (argv : list nat) (max_args : nat)
    : res (option (bytes * list nat)) :=
  match skip_seps p with
  | [] => Ret (Some (out, argv))
  | (_ :: _) as p =>
      if length argv =? max_args then Ret None
      else
        match fuel with
        | O => Ret None
        | S f =>
            r ← word_loop room p None out;
            let '(p', quote, out') := r in
            match quote with
            | Some _ => Ret None
            | None => out'' ← put room out' NUL; split_loop f room p' out'' (argv ++ [length out]) max_args
            end
        end
  end.

Definition split_line (room : nat) (line : bytes) (max_args : nat) : res (option (bytes * list nat)) :=
  split_loop (length line) room line [] [] max_args.

(** The C strings that [argv] points to. *)
Definition words_at (store : bytes) (argv : list nat) : list bytes := (λ off, cstr (drop off store)) <$> argv.

(** ** The program *)

(** The result of [run_one]: 0, 1 or -1. *)
Definition run_one (argv : list bytes) : IO Z :=
  ok ← send_command argv;
  if (ok : bool) then
    r ← read_reply;
    match r with
    | None => mret (-1)%Z
    | Some v =>
        printf (print_reply v 0);;
        mret (match v with RESP_ERROR _ => 1 | _ => 0 end)%Z
    end
  else mret (-1)%Z.

(** The options: [None] if the usage was asked for, otherwise the host, the
    port and the arguments that are left. *)
Fixpoint options (args : list bytes) (host port : bytes) : option (bytes * bytes * list bytes) :=
  match args with
  | [] => Some (host, port, [])
  | a :: rest =>
      match rest with
      | b :: rest' =>
          if streq a #"-h" then options rest' b port
          else if streq a #"-p" then options rest' host b
          else if streq a #"--help" then None else Some (host, port, args)
      | [] => if streq a #"--help" then None else Some (host, port, args)
      end
  end.

(** [fgets(line, n, stdin)]: at most [n - 1] bytes, up to the end of the line. *)
Fixpoint fgets_loop (n : nat) (input : bytes) : bytes * bytes :=
  match n, input with
  | S n', c :: input' =>
      if bool_decide (c = LF) then ([c], input')
      else let '(line, rest) := fgets_loop n' input' in (c :: line, rest)
  | _, _ => ([], input)
  end.

Definition fgets (n : nat) (input : bytes) : option (bytes * bytes) :=
  match input with
  | [] => None
  | _ :: _ => Some (fgets_loop (n - 1) input)
  end.

Definition HELP_TEXT : bytes :=
  #"Type any PulseDB command, e.g. SET greeting " ++ [DQUOTE] ++ #"hello world" ++ [DQUOTE] ++
  #". Use quotes for values with spaces. 'quit' exits." ++ [LF].

Definition lift_io {A} (r : res A) : IO A := λ s,
  match r with Ret a => Done (a, s) | Undef u => Broken u end.

(** The prompt loop on what is left of the standard input.  Each turn reads at
    least one byte of it. *)
Fixpoint repl (fuel : nat) (prompt input : bytes) : IO Z :=
  match fuel with
  | O => mret 0%Z
  | S f =>
      printf prompt;;
      match fgets MAX_LINE input with
      | None => mret 0%Z
      | Some (line, input') =>
          r ← lift_io (split_line MAX_LINE (cstr line) MAX_ARGS);
          match r with
          | None => printf (#"(error) Invalid argument(s)" ++ [LF]);; repl f prompt input'
          | Some (store, argv) =>
              match words_at store argv with
              | [] => repl f prompt input'
              | (name :: rest) as args =>
                  if (strcasecmp name #"quit" =? 0)%Z || (strcasecmp name #"exit" =? 0)%Z then mret 0%Z
                  else if (strcasecmp name #"help" =? 0)%Z && (length args =? 1) then
                    printf HELP_TEXT;; repl f prompt input'
                  else
                    rc ← run_one args;
                    if (rc <? 0)%Z then mret 1%Z else repl f prompt input'
              end
          end
      end
  end.

(** [main] once it is connected: the exit status.  The prompt is printed on a
    terminal only. *)
Definition main (args : list bytes) (interactive : bool) (input : bytes) : IO Z :=
  match options args #"127.0.0.1" #"6379" with
  | None => mret 0%Z
  | Some (host, port, (_ :: _) as argv) => rc ← run_one argv; mret (if (rc =? 0)%Z then 0 else 1)%Z
  | Some (host, port, []) =>
      repl (S (length input)) (if interactive then host ++ #":" ++ port ++ #"> " else []) input
  end.

End Cli.
