(* ===== verification/CliProps.v ===== *)
(** * The command-line client: splitting lines, sending and reading

    [line_text] is the grammar of a command line.  [split_line] accepts exactly
    its lines, writes only inside the word store, and its words are the ones
    of the grammar.  What the client sends for a list of words is what the
    server parses back, and a reply is read back whole however it is cut into
    pieces. *)

From S2P Require Import Prelude CLib Util Reply Resp RespProps Server Cli.
Import Util Reply Resp RespProps Cli.

Module CliProps.

(** ** The grammar of command lines *)

(** Between double quotes: a backslash takes the next character with it. *)
Inductive quoted : bytes → bytes → Prop :=
| quoted_end : quoted [] []
| quoted_char c t w : c ≠ DQUOTE → c ≠ BACKSLASH → quoted t w → quoted (c :: t) (c :: w)
| quoted_escape d t w : quoted t w → quoted (BACKSLASH :: d :: t) (unescape d :: w).

(** A word is a sequence of plain characters and quoted parts. *)
Inductive word_text : bytes → bytes → Prop :=
| word_end : word_text [] []
| word_char c t w : is_sep c = false → c ≠ DQUOTE → c ≠ SQUOTE → word_text t w → word_text (c :: t) (c :: w)
| word_single s t w : SQUOTE ∉ s → word_text t w → word_text (SQUOTE :: s ++ SQUOTE :: t) (s ++ w)
| word_double b s t w : quoted b s → word_text t w → word_text (DQUOTE :: b ++ DQUOTE :: t) (s ++ w).

(** A word ends at the end of the line or at a separator. *)
Definition boundary (rest : bytes) : Prop :=
  match rest with [] => True | c :: _ => is_sep c = true end.

Inductive line_text : bytes → list bytes → Prop :=
| line_end b : Forall (λ c, is_sep c = true) b → line_text b []
| line_word b t w rest ws :
    Forall (λ c, is_sep c = true) b → t ≠ [] → word_text t w → boundary rest → line_text rest ws →
    line_text (b ++ t ++ rest) (w :: ws).

(** ** One word *)

Lemma put_ok room out c : length out < room → put room out c = Ret (out ++ [c]).
Proof. intros Hl. unfold put. by destruct (Nat.ltb_spec (length out) room); [|lia]. Qed.

Lemma single_reads s room rest out :
  SQUOTE ∉ s → length out + length s ≤ room →
  word_loop room (s ++ SQUOTE :: rest) (Some SQUOTE) out = word_loop room rest None (out ++ s).
Proof.
  revert out. induction s as [|c s IH]; intros out Hs Hl; [cbn [app word_loop]; by rewrite bool_decide_true, app_nil_r|].
  apply not_elem_of_cons in Hs as [Hc Hs]. cbn [length] in Hl. cbn [app word_loop]. rewrite bool_decide_false by done.
  destruct (s ++ SQUOTE :: rest) as [|d p2] eqn:Hp; [by destruct s|].
  rewrite (bool_decide_false (SQUOTE = DQUOTE)) by done. cbn [andb]. rewrite put_ok by lia.
  cbn [mbind res_bind]. rewrite IH; [by rewrite <- app_assoc|done|]. rewrite length_app. cbn. lia.
Qed.

Lemma double_reads b s room rest out :
  quoted b s → length out + length s ≤ room →
  word_loop room (b ++ DQUOTE :: rest) (Some DQUOTE) out = word_loop room rest None (out ++ s).
Proof.
  intros Hb. revert out. induction Hb as [|c t w Hc1 Hc2 _ IH|d t w _ IH]; intros out Hl; cbn [length] in Hl.
  - cbn [app word_loop]. by rewrite bool_decide_true, app_nil_r.
  - cbn [app word_loop]. rewrite bool_decide_false by done.
    destruct (t ++ DQUOTE :: rest) as [|d p2] eqn:Hp; [by destruct t|].
    rewrite (bool_decide_false (c = BACKSLASH)) by done. rewrite andb_false_r, put_ok by lia.
    cbn [mbind res_bind]. rewrite IH; [by rewrite <- app_assoc|]. rewrite length_app. cbn. lia.
  - cbn [app word_loop]. rewrite bool_decide_false by done. cbn [andb]. rewrite !bool_decide_true by done. cbn [andb].
    rewrite put_ok by lia. cbn [mbind res_bind]. rewrite IH; [by rewrite <- app_assoc|]. rewrite length_app. cbn. lia.
Qed.

Lemma word_reads t w room rest out :
  word_text t w → boundary rest → length out + length w ≤ room →
  word_loop room (t ++ rest) None out = Ret (rest, None, out ++ w).
Proof.
  intros Ht Hr. revert out. induction Ht as [|c t w Hsep Hd Hs _ IH|s t w Hs _ IH|b s t w Hb _ IH]; intros out Hl;
    rewrite ?length_app in Hl; cbn [length] in Hl.
  - rewrite app_nil_r. cbn [app]. destruct rest as [|c rest]; [done|]. cbn [word_loop]. cbn in Hr. by rewrite Hr.
  - cbn [app word_loop]. rewrite Hsep, !bool_decide_false by done. cbn [orb]. rewrite put_ok by lia.
    cbn [mbind res_bind]. rewrite IH; [by rewrite <- app_assoc|]. rewrite length_app. cbn. lia.
  - cbn [app word_loop]. rewrite <- app_assoc. cbn [app].
    change (is_sep SQUOTE) with false. rewrite (bool_decide_true (SQUOTE = SQUOTE)), orb_true_r by done.
    rewrite single_reads, IH by (done || rewrite ?length_app; lia). by rewrite <- app_assoc.
  - cbn [app word_loop]. rewrite <- app_assoc. cbn [app].
    change (is_sep DQUOTE) with false. rewrite (bool_decide_true (DQUOTE = DQUOTE)) by done. cbn [orb].
    rewrite (double_reads b s), IH by (done || rewrite ?length_app; lia). by rewrite <- app_assoc.
Qed.

(** What is left of a word when [quote] is open. *)
Definition open_text (quote : option ascii) (t w : bytes) : Prop :=
  match quote with
  | None => word_text t w
  | Some q =>
      (q = SQUOTE ∧ ∃ s t' w', (SQUOTE ∉ s) ∧ word_text t' w' ∧ t = s ++ SQUOTE :: t' ∧ w = s ++ w') ∨
      (q = DQUOTE ∧ ∃ b s t' w', quoted b s ∧ word_text t' w' ∧ t = b ++ DQUOTE :: t' ∧ w = s ++ w')
  end.

Lemma open_single t w : open_text (Some SQUOTE) t w → word_text (SQUOTE :: t) w.
Proof. intros [(_ & s & t' & w' & Hs & Ht & -> & ->)|[? _]]; [by constructor|done]. Qed.

Lemma open_double t w : open_text (Some DQUOTE) t w → word_text (DQUOTE :: t) w.
Proof. intros [[? _]|(_ & b & s & t' & w' & Hs & Ht & -> & ->)]; [done|by constructor]. Qed.

Lemma open_char q c t w :
  c ≠ q → (q = DQUOTE → c ≠ BACKSLASH) → open_text (Some q) t w → open_text (Some q) (c :: t) (c :: w).
Proof.
  intros Hc Hb [(-> & s & t' & w' & Hs & Ht & -> & ->)|(-> & b & s & t' & w' & Hs & Ht & -> & ->)]; [left|right].
  - split; [done|]. exists (c :: s), t', w'. split; [|done]. apply not_elem_of_cons. done.
  - split; [done|]. exists (c :: b), (c :: s), t', w'. split; [|done]. constructor; auto.
Qed.

Lemma open_escape d t w : open_text (Some DQUOTE) t w → open_text (Some DQUOTE) (BACKSLASH :: d :: t) (unescape d :: w).
Proof.
  intros [[? _]|(_ & b & s & t' & w' & Hs & Ht & -> & ->)]; [done|right]. split; [done|].
  exists (BACKSLASH :: d :: b), (unescape d :: s), t', w'. split; [by constructor|done].
Qed.

Lemma word_loop_sound n room p quote out :
  length p ≤ n → length out + length p ≤ room → (∀ q, quote = Some q → q = DQUOTE ∨ q = SQUOTE) →
  ∃ t p' q' w, word_loop room p quote out = Ret (p', q', out ++ w) ∧ p = t ++ p' ∧ length w ≤ length t ∧
    (q' = None → open_text quote t w ∧ boundary p').
Proof.
  revert p quote out. induction n as [|n IH]; intros p quote out Hn Hl Hq.
  { destruct p; [|cbn in Hn; lia]. exists [], [], quote, []. rewrite app_nil_r. split_and!; [done..|].
    intros ->. split; [constructor|done]. }
  destruct p as [|c p1].
  { exists [], [], quote, []. rewrite app_nil_r. split_and!; [done..|]. intros ->. split; [constructor|done]. }
  cbn [length] in Hn, Hl. cbn [word_loop].
  assert (∀ quote', (∀ q, quote' = Some q → q = DQUOTE ∨ q = SQUOTE) →
    (∀ t w, open_text quote' t w → open_text quote (c :: t) w) →
    ∃ t p' q' w, word_loop room p1 quote' out = Ret (p', q', out ++ w) ∧ c :: p1 = t ++ p' ∧ length w ≤ length t ∧
      (q' = None → open_text quote t w ∧ boundary p')) as Hskip.
  { intros quote' Hq' Hopen. destruct (IH p1 quote' out) as (t & p' & q' & w & -> & -> & Hw & Hop); [lia..|done|].
    exists (c :: t), p', q', w. split_and!; [done..|cbn; lia|]. intros H. destruct (Hop H). auto. }
  assert ((∀ t w, open_text quote t w → open_text quote (c :: t) (c :: w)) ∨ (∃ q, quote = Some q ∧ p1 = []) →
    ∃ t p' q' w, (out ← put room out c; word_loop room p1 quote out) = Ret (p', q', out ++ w) ∧ c :: p1 = t ++ p' ∧
      length w ≤ length t ∧ (q' = None → open_text quote t w ∧ boundary p')) as Hput.
  { intros Hopen. rewrite put_ok by lia. cbn [mbind res_bind].
    destruct (IH p1 quote (out ++ [c])) as (t & p' & q' & w & Heq & -> & Hw & Hop);
      [lia|rewrite length_app; cbn; lia|done|]. rewrite Heq.
    exists (c :: t), p', q', (c :: w). split_and!; [by rewrite <- app_assoc|done|cbn; lia|]. intros H.
    destruct Hopen as [Hopen|(q & -> & Hnil)]; [destruct (Hop H); auto|].
    rewrite Hnil in Heq. cbn in Heq. congruence. }
  destruct quote as [q|].
  - case_bool_decide as Hcq.
    { subst c. apply Hskip; [done|]. intros t w Hw. destruct (Hq q eq_refl) as [-> | ->]; [right|left]; (split; [done|]).
      - exists [], [], t, w. split; [constructor|done].
      - exists [], t, w. split; [apply not_elem_of_nil|done]. }
    destruct p1 as [|d p2]; [apply Hput; eauto|].
    case_bool_decide as Hqd; [case_bool_decide as Hcb|]; cbn [andb].
    + subst. rewrite put_ok by lia. cbn [mbind res_bind]. cbn [length] in Hn, Hl.
      destruct (IH p2 (Some DQUOTE) (out ++ [unescape d])) as (t & p' & q' & w & -> & -> & Hw & Hop);
        [lia|rewrite length_app; cbn; lia|done|].
      exists (BACKSLASH :: d :: t), p', q', (unescape d :: w). split_and!; [by rewrite <- app_assoc|done|cbn; lia|].
      intros H. destruct (Hop H). split; [by apply open_escape|done].
    + apply Hput. left. intros t w. by apply open_char.
    + apply Hput. left. intros t w. by apply open_char.
  - destruct (is_sep c) eqn:Hsep.
    { exists [], (c :: p1), None, []. rewrite app_nil_r. split_and!; [done..|]. intros _. split; [constructor|done]. }
    case_bool_decide as Hc1; [|case_bool_decide as Hc2]; cbn [orb].
    + subst c. apply Hskip; [intros q [= <-]; auto|]. apply open_double.
    + subst c. apply Hskip; [intros q [= <-]; auto|]. apply open_single.
    + apply Hput. left. intros t w Ht. by constructor.
Qed.

(** ** Lines *)

Lemma skip_seps_app b p : Forall (λ c, is_sep c = true) b → skip_seps (b ++ p) = skip_seps p.
Proof. induction 1 as [|c b Hc _ IH]; [done|]. cbn. by rewrite Hc. Qed.

Lemma skip_seps_split p : ∃ b, p = b ++ skip_seps p ∧ Forall (λ c, is_sep c = true) b.
Proof.
  induction p as [|c p (b & Hp & Hb)]; [by exists []|]. cbn [skip_seps]. destruct (is_sep c) eqn:Hc; [|by exists []].
  exists (c :: b). split; [cbn; by f_equal|by constructor].
Qed.

Lemma skip_seps_head p c p' : skip_seps p = c :: p' → is_sep c = false.
Proof.
  induction p as [|d p IH]; [done|]. cbn. destruct (is_sep d) eqn:Hd; [done|]. by intros [= <- _].
Qed.

Lemma skip_seps_length p : length (skip_seps p) ≤ length p.
Proof. destruct (skip_seps_split p) as (b & Hp & _). rewrite Hp at 2. rewrite length_app. lia. Qed.

Lemma word_text_start t w : word_text t w → t ≠ [] → ∃ c t', t = c :: t' ∧ is_sep c = false.
Proof. intros [] Ht; eauto. done. Qed.

(** How a line of the grammar begins. *)
Lemma line_text_skip p ws : line_text p ws →
  (skip_seps p = [] ∧ ws = []) ∨
  ∃ t w rest ws', skip_seps p = t ++ rest ∧ ws = w :: ws' ∧ t ≠ [] ∧ word_text t w ∧ boundary rest ∧ line_text rest ws'.
Proof.
  intros [b Hb|b t w rest ws' Hb Ht Hw Hr Hrest].
  - left. split; [|done]. rewrite <- (app_nil_r b). by rewrite skip_seps_app.
  - right. exists t, w, rest, ws'. rewrite skip_seps_app by done. split; [|done].
    destruct (word_text_start t w Hw Ht) as (c & t' & -> & Hc). cbn. by rewrite Hc.
Qed.

Lemma word_text_length t w : word_text t w → length w ≤ length t.
Proof.
  induction 1 as [|c t w _ _ _ _ IH|s t w _ _ IH|b s t w Hb _ IH]; cbn; rewrite ?length_app; cbn; [lia..|].
  assert (length s ≤ length b) by (clear -Hb; induction Hb; cbn; lia). lia.
Qed.

(** [argv] points to the words [ws] whatever is written behind them. *)
Definition points_to (out : bytes) (argv : list nat) (ws : list bytes) : Prop :=
  ∀ more, words_at (out ++ more) argv = ws.

Lemma cstr_stops w more : NUL ∉ w → cstr (w ++ NUL :: more) = w.
Proof.
  induction w as [|c w IH]; [done|]. intros [Hc Hw]%not_elem_of_cons. cbn. rewrite bool_decide_false by congruence.
  by rewrite IH.
Qed.

Lemma points_to_word out argv ws w :
  NUL ∉ w → points_to out argv ws → points_to (out ++ w ++ [NUL]) (argv ++ [length out]) (ws ++ [w]).
Proof.
  intros Hw Hp more. unfold points_to, words_at in *. rewrite fmap_app, <- app_assoc, Hp. cbn. do 2 f_equal.
  rewrite drop_app_length, <- app_assoc. by apply cstr_stops.
Qed.

Lemma unescape_nul d : unescape d = NUL → d = NUL.
Proof. unfold unescape. repeat case_bool_decide; done. Qed.

Lemma word_text_no_nul t w : word_text t w → NUL ∉ t → NUL ∉ w.
Proof.
  induction 1 as [|c t w _ _ _ _ IH|s t w _ _ IH|b s t w Hb _ IH]; [done|set_solver..|].
  assert (NUL ∉ b → NUL ∉ s) by (clear -Hb; induction Hb as [|c t w _ _ _ IH|d t w _ IH]; [done|set_solver|];
    rewrite !not_elem_of_cons; intros (_ & Hd & Ht); split; [intros H; by rewrite (unescape_nul d) in Hd|by apply IH]).
  set_solver.
Qed.

Lemma split_loop_exact fuel room p out argv max_args :
  length p ≤ fuel → (skip_seps p = [] ∨ length out + length (skip_seps p) < room) → length argv ≤ max_args → NUL ∉ p →
  match split_loop fuel room p out argv max_args with
  | Ret (Some (out', argv')) => ∃ ws, line_text p ws ∧ length argv' = length argv + length ws ∧ length argv' ≤ max_args ∧
      (∀ ws0, points_to out argv ws0 → points_to out' argv' (ws0 ++ ws))
  | Ret None => ∀ ws, line_text p ws → max_args < length argv + length ws
  | Undef _ => False
  end.
Proof.
  revert p out argv. induction fuel as [|fuel IH]; intros p out argv Hf Hroom Hargv Hnul; cbn [split_loop];
    destruct (skip_seps_split p) as (b & Hp & Hb); destruct (skip_seps p) as [|c p0] eqn:Hskip.
  1, 3: exists []; rewrite Hp, app_nil_r, Nat.add_0_r; split_and!; [by constructor|done|done|];
    intros ws0; by rewrite app_nil_r.
  { rewrite Hp, length_app in Hf. cbn in Hf. lia. }
  destruct Hroom as [|Hroom]; [done|]. cbv beta iota.
  assert (length (c :: p0) ≤ length p) as Hlen by (rewrite Hp, length_app; lia).
  destruct (Nat.eqb_spec (length argv) max_args) as [Hmax|Hmax].
  { intros ws [[H _]|(t & w & rest & ws' & _ & -> & _)]%line_text_skip; [congruence|cbn; lia]. }
  destruct (word_loop_sound (length (c :: p0)) room (c :: p0) None out) as (t & p' & q' & w & Hloop & Hsplit & Hw & Hopen);
    [done|lia|done|]. rewrite Hloop. cbn [mbind res_bind].
  assert (∀ t' w' rest, skip_seps p = t' ++ rest → word_text t' w' → boundary rest → p' = rest ∧ q' = None) as Hdet.
  { intros t' w' rest Hs Ht' Hr. rewrite Hs in Hskip. rewrite <- Hskip in Hloop, Hroom.
    rewrite (word_reads t' w' room rest out) in Hloop; [by injection Hloop as -> ->|done..|].
    apply word_text_length in Ht'. rewrite length_app in Hroom. lia. }
  destruct q' as [q|].
  { intros ws [[H _]|(t' & w' & rest & ws' & Hs & -> & _ & Ht' & Hr & _)]%line_text_skip; [congruence|].
    by destruct (Hdet t' w' rest Hs Ht' Hr). }
  destruct (Hopen eq_refl) as [Htw Hbd]. cbn in Htw.
  assert (length (c :: p0) = length t + length p') as Hl by (rewrite Hsplit, length_app; lia).
  assert (t ≠ []) as Ht0.
  { intros ->. cbn in Hsplit. rewrite <- Hsplit in Hbd. cbn in Hbd. by rewrite (skip_seps_head _ _ _ Hskip) in Hbd. }
  assert (0 < length t) by (destruct t; [done|cbn; lia]).
  rewrite put_ok by (rewrite length_app; lia). cbn [mbind res_bind]. rewrite <- app_assoc.
  specialize (IH p' (out ++ w ++ [NUL]) (argv ++ [length out])).
  assert ((NUL ∉ t) ∧ NUL ∉ p') as [Hnt Hnp] by (rewrite Hp, Hsplit in Hnul; set_solver).
  assert (skip_seps p' = [] ∨ length (out ++ w ++ [NUL]) + length (skip_seps p') < room) as Hroom'.
  { clear IH. destruct p' as [|c' p'']; [by left|right]. cbn in Hbd. cbn [skip_seps]. rewrite Hbd.
    pose proof (skip_seps_length p''). rewrite !length_app. cbn in *. lia. }
  assert (length (argv ++ [length out]) = S (length argv)) as Hargs by (rewrite length_app; cbn; lia).
  rewrite Hargs in IH. specialize (IH ltac:(lia) Hroom' ltac:(lia) Hnp).
  destruct (split_loop fuel room p' _ _ max_args) as [[[out' argv']|]|u]; [| |done].
  - destruct IH as (ws & Hline & Hn & Hm & Hpt).
    exists (w :: ws). rewrite Hp, Hsplit. split_and!; [by constructor|cbn; lia|done|].
    intros ws0 H0. rewrite cons_middle, app_assoc. apply Hpt. apply points_to_word; [by eapply word_text_no_nul|done].
  - intros ws [[H' _]|(t' & w' & rest & ws' & Hs & -> & _ & Ht' & Hr & Hline)]%line_text_skip; [congruence|].
    destruct (Hdet t' w' rest Hs Ht' Hr) as [-> _]. specialize (IH ws' Hline). cbn [length]. lia.
Qed.

(** A line has one reading. *)
Lemma line_text_functional p ws ws' : line_text p ws → line_text p ws' → ws = ws'.
Proof.
  intros H. revert ws'. remember p as p0 eqn:Hp0. revert p Hp0.
  induction H as [b Hb|b t w rest ws Hb Ht Hw Hr Hrest IH]; intros p Hp ws' H'; apply line_text_skip in H'.
  - rewrite <- (app_nil_r b), skip_seps_app in H' by done.
    destruct H' as [[_ ->]|(t' & w' & rest' & ws'' & H1 & _ & H2 & _)]; [done|]. by destruct t'.
  - destruct (word_text_start t w Hw Ht) as (c & t0 & Hc & Hsep). rewrite skip_seps_app in H' by done.
    assert (skip_seps (t ++ rest) = t ++ rest) as Hs by (rewrite Hc; cbn; by rewrite Hsep). rewrite Hs in H'.
    destruct H' as [[H1 _]|(t' & w' & rest' & ws'' & H1 & -> & _ & Hw' & Hr' & Hrest')]; [by rewrite Hc in H1|].
    pose proof (word_reads t w (length w + length w') rest [] Hw Hr ltac:(cbn; lia)) as E.
    rewrite H1, (word_reads t' w' _ rest' [] Hw' Hr') in E by (cbn; lia). injection E as -> ->.
    f_equal. by eapply IH.
Qed.

(** ** Printed strings can be typed in again *)

(** The characters that are printed as themselves or escaped with a backslash
    and one letter. *)
Definition printable (c : ascii) : bool :=
  (32 <=? code c)%Z && (code c <=? 126)%Z || bool_decide (c = LF) || bool_decide (c = CR).

Lemma print_char_quoted c t w :
  printable c = true → quoted t w → quoted (print_char c ++ t) (c :: w).
Proof.
  intros Hc Ht. unfold print_char. case_bool_decide as H1; [subst; by apply (quoted_escape DQUOTE)|].
  case_bool_decide as H2; [subst; by apply (quoted_escape BACKSLASH)|]. cbn [orb].
  case_bool_decide as H3; [subst; by apply (quoted_escape "n"%char)|].
  case_bool_decide as H4; [subst; by apply (quoted_escape "r"%char)|].
  unfold printable in Hc. rewrite !bool_decide_false, !orb_false_r in Hc by done. bools.
  destruct (Z.ltb_spec (code c) 32); [lia|]. destruct (Z.ltb_spec 126 (code c)); [lia|]. by constructor.
Qed.

Lemma printed_quoted s : Forall (λ c, printable c = true) s → quoted (concat (print_char <$> s)) s.
Proof. induction 1; [constructor|]. cbn. by apply print_char_quoted. Qed.

Lemma printed_line ws :
  Forall (Forall (λ c, printable c = true)) ws →
  line_text (concat ((λ w, print_reply (RESP_BULK_STRING w) 0) <$> ws)) ws.
Proof.
  intros Hws. cut (line_text (LF :: concat ((λ w, print_reply (RESP_BULK_STRING w) 0) <$> ws)) ws ∧
    line_text (concat ((λ w, print_reply (RESP_BULK_STRING w) 0) <$> ws)) ws); [tauto|].
  induction Hws as [|w ws Hw _ [IH _]]; [split; constructor; by repeat constructor|].
  assert (word_text (DQUOTE :: concat (print_char <$> w) ++ DQUOTE :: []) w) as Ht.
  { rewrite <- (app_nil_r w) at 2. apply word_double; [by apply printed_quoted|constructor]. }
  set (more := concat ((λ w, print_reply (RESP_BULK_STRING w) 0) <$> ws)) in *.
  assert (∀ b, Forall (λ c, is_sep c = true) b →
    line_text (b ++ (DQUOTE :: concat (print_char <$> w) ++ DQUOTE :: []) ++ LF :: more) (w :: ws)) as Hline
    by (intros b Hb; by apply line_word).
  assert (concat ((λ w, print_reply (RESP_BULK_STRING w) 0) <$> w :: ws) =
    (DQUOTE :: concat (print_char <$> w) ++ DQUOTE :: []) ++ LF :: more) as ->
    by (rewrite fmap_cons; cbn; by rewrite <- !app_assoc).
  split; [apply (Hline [LF])|apply (Hline [])]; by repeat constructor.
Qed.

(** ** Requests *)

Lemma append_args_data argv req : data (append_args req argv) = data req ++ concat (enc_bulk <$> argv).
Proof.
  revert req. induction argv as [|arg argv IH]; intros req; cbn [append_args]; [by rewrite app_nil_r|].
  rewrite IH, fmap_cons. unfold buffer_append_str. cbn [concat]. rewrite !buffer_append_data. unfold enc_bulk. by rewrite <- !app_assoc.
Qed.

Lemma request_data argv : data (request argv) = enc_value (RESP_ARRAY (RESP_BULK_STRING <$> argv)).
Proof.
  unfold request. rewrite append_args_data. cbn [enc_value]. rewrite length_fmap. unfold buffer_append_str.
  rewrite buffer_append_data. cbn [data buffer_init app]. f_equal. by rewrite <- list_fmap_compose.
Qed.

(** The argument lists within the limits of the server. *)
Definition within_limits (argv : list bytes) : Prop :=
  (Z.of_nat (length argv) ≤ RESP_MAX_ARRAY_LEN)%Z ∧ Forall (λ s, (Z.of_nat (length s) ≤ RESP_MAX_BULK_LEN)%Z) argv.

Lemma server_parses_request argv rest :
  within_limits argv →
  resp_parse_command (data (request argv) ++ rest) =
    RESP_PARSE_OK (RESP_ARRAY (RESP_BULK_STRING <$> argv), length (data (request argv))).
Proof.
  intros [Hn Hl]. rewrite request_data. apply parse_request_here; [by rewrite length_fmap|].
  apply Forall_fmap. eapply Forall_impl; [exact Hl|]. intros s Hs. by split.
Qed.

(** ** Replies that have not arrived completely *)

Lemma find_line_loop_cut p k buf pos i m s q :
  k = length p → drop i buf = p → i ≤ length buf → pos ≤ i →
  CR ∉ s → s ++ CRLF = p ++ q → q ≠ [] → (Z.of_nat (i - pos + length s) ≤ m)%Z →
  find_line_loop k buf pos i m = RESP_PARSE_INCOMPLETE.
Proof.
  revert k i s. induction p as [|c p IH]; intros k i s -> Hd Hi Hpos Hcr Hs Hq Hm; cbn [length find_line_loop].
  - assert (length buf = i) as -> by (apply (f_equal length) in Hd; rewrite length_drop in Hd; cbn in Hd; lia).
    by destruct (Z.ltb_spec m (Z.of_nat (i - pos))); [lia|].
  - assert (buf !! i = Some c) as ->.
    { assert (H := f_equal (lookup 0) Hd). by rewrite lookup_drop, Nat.add_0_r in H. }
    assert (drop (S i) buf = p) as Hd' by (rewrite <- Nat.add_1_r, <- drop_drop, Hd; done).
    assert (length buf = S i + length p) as Hb.
    { apply (f_equal length) in Hd. rewrite length_drop in Hd. cbn in Hd. lia. }
    destruct s as [|d s].
    + injection Hs as <- Hs. rewrite bool_decide_true by done.
      assert (p = []) as -> by (destruct p; [done|]; injection Hs as _ Hs; by destruct p, q).
      cbn in Hb. by destruct (Nat.leb_spec (length buf) (i + 1)); [|lia].
    + injection Hs as <- Hs. apply not_elem_of_cons in Hcr as [Hc Hcr]. rewrite bool_decide_false by done.
      cbn in Hm. destruct (Z.ltb_spec m (Z.of_nat (i - pos))); [lia|]. apply (IH _ _ s); [done|done|lia|lia|done..|].
      lia.
Qed.

Lemma find_line_end_cut s p q buf pos m :
  drop pos buf = p → pos ≤ length buf → CR ∉ s → s ++ CRLF = p ++ q → q ≠ [] → (Z.of_nat (length s) ≤ m)%Z →
  find_line_end buf pos m = RESP_PARSE_INCOMPLETE.
Proof.
  intros Hd Hpos Hcr Hs Hq Hm. eapply find_line_loop_cut; [|exact Hd|done|done|exact Hcr|exact Hs|done|].
  - by rewrite <- Hd, length_drop.
  - by rewrite Nat.sub_diag.
Qed.

(** [p] is at [pos] and the buffer ends there. *)
Definition ends_with (buf : bytes) (pos : nat) (p : bytes) : Prop := drop pos buf = p ∧ pos ≤ length buf.

Lemma ends_with_step buf pos x p : ends_with buf pos (x ++ p) → ends_with buf (pos + length x) p.
Proof.
  intros [Hd Hp]. split; [by eapply drop_after|]. apply (f_equal length) in Hd. rewrite length_drop, length_app in Hd. lia.
Qed.

Lemma ends_with_length buf pos p : ends_with buf pos p → length buf = pos + length p.
Proof. intros [<- Hp]. rewrite length_drop. lia. Qed.

Lemma read_number_line_cut z p q buf pos :
  (INT64_MIN ≤ z ≤ INT64_MAX)%Z → ends_with buf pos p → fmt_d z ++ CRLF = p ++ q → q ≠ [] →
  read_number_line buf pos = RESP_PARSE_INCOMPLETE.
Proof.
  intros Hz [Hd Hpos] Hs Hq. unfold read_number_line. pose proof (fmt_d_length z Hz).
  rewrite (find_line_end_cut (fmt_d z) p q) by (done || apply fmt_d_no_cr || lia). done.
Qed.

(** Cutting a text short that consists of two parts. *)
Lemma cut_app (x y p q : bytes) :
  x ++ y = p ++ q → q ≠ [] → (∃ x', x = p ++ x' ∧ x' ≠ []) ∨ (∃ p', p = x ++ p' ∧ y = p' ++ q).
Proof.
  intros H Hq. apply app_eq_inv in H as [(k & Hx & Hy)|(k & Hx & Hy)]; [|right; eauto].
  destruct k as [|c k]; [right|left; exists (c :: k); done]. exists []. rewrite app_nil_r in *. by subst.
Qed.

(** A number line is cut, or read. *)
Lemma number_line_cut z y p q buf pos :
  (INT64_MIN < z ≤ INT64_MAX)%Z → ends_with buf pos p → (fmt_d z ++ CRLF) ++ y = p ++ q → q ≠ [] →
  read_number_line buf pos = RESP_PARSE_INCOMPLETE ∨
  ∃ pos' p', read_number_line buf pos = RESP_PARSE_OK (z, pos') ∧ ends_with buf pos' p' ∧ y = p' ++ q.
Proof.
  intros Hz Hp Hy Hq. apply cut_app in Hy as [(x' & Hx & Hx')|(p' & -> & ->)]; [left|right|done].
  - eapply (read_number_line_cut z); [lia|done..].
  - eexists _, p'. split; [apply (read_number_line_here z buf pos p'); [done|]; by rewrite app_assoc; destruct Hp|].
    split; [|done]. apply ends_with_step in Hp. rewrite length_app, Nat.add_assoc in Hp. exact Hp.
Qed.

Lemma parse_bulk_cut s p q buf pos :
  (Z.of_nat (length s) ≤ RESP_MAX_BULK_LEN)%Z → ends_with buf pos p →
  (fmt_d (Z.of_nat (length s)) ++ CRLF) ++ s ++ CRLF = p ++ q → q ≠ [] →
  parse_bulk buf pos = RESP_PARSE_INCOMPLETE.
Proof.
  unfold RESP_MAX_BULK_LEN. intros Hs Hp Hy Hq. unfold parse_bulk.
  destruct (number_line_cut (Z.of_nat (length s)) _ p q buf pos ltac:(unfold INT64_MIN, INT64_MAX; lia) Hp Hy Hq)
    as [-> |(pos' & p' & -> & Hp' & Hy')]; [done|]. cbn [mbind parsed_bind].
  destruct (Z.eqb_spec (Z.of_nat (length s)) (-1)); [lia|]. destruct (Z.ltb_spec (Z.of_nat (length s)) 0); [lia|].
  unfold RESP_MAX_BULK_LEN. destruct (Z.ltb_spec (64 * 1024 * 1024) (Z.of_nat (length s))); [lia|]. cbn [orb].
  apply ends_with_length in Hp'. apply (f_equal length) in Hy'. rewrite !length_app in Hy'. cbn in Hy'.
  assert (0 < length q) by (destruct q; [done|cbn; lia]).
  by destruct (Z.ltb_spec (Z.of_nat (length buf - pos')) (Z.of_nat (length s) + 2)); [|lia].
Qed.

Lemma array_loop_cut pv vs p q buf pos :
  (∀ v pos p q, v ∈ vs → ends_with buf pos p → enc_value v = p ++ q → q ≠ [] → pv pos = RESP_PARSE_INCOMPLETE) →
  (∀ v pos r, v ∈ vs → drop pos buf = enc_value v ++ r → pv pos = RESP_PARSE_OK (v, pos + length (enc_value v))) →
  ends_with buf pos p → concat (enc_value <$> vs) = p ++ q → q ≠ [] →
  array_loop pv (length vs) pos = RESP_PARSE_INCOMPLETE.
Proof.
  revert p pos. induction vs as [|v vs IH]; intros p pos Hcut Hhere Hp Hy Hq; [by destruct p, q|].
  rewrite fmap_cons in Hy. cbn [concat] in Hy. cbn [length array_loop].
  apply cut_app in Hy as [(x' & Hx & Hx')|(p' & -> & Hy)]; [| |done].
  - rewrite (Hcut v pos p x'); [done|by left|done..].
  - rewrite (Hhere v pos p'); [|by left|by destruct Hp]. cbn [mbind parsed_bind].
    rewrite (IH p' (pos + length (enc_value v))); [done| | |by apply ends_with_step|done..].
    + intros v' pos' p0 q0 Hin. apply Hcut. by right.
    + intros v' pos' r Hin. apply Hhere. by right.
Qed.

Lemma parse_value_cut left v p q buf pos :
  sendable left v → ends_with buf pos p → enc_value v = p ++ q → q ≠ [] →
  parse_value left buf false pos = RESP_PARSE_INCOMPLETE.
Proof.
  revert v p q pos. induction left as [|left IH]; intros v p q pos Hv Hp Hy Hq; [done|].
  cbn [parse_value]. pose proof (ends_with_length _ _ _ Hp) as Hlen.
  destruct (Nat.leb_spec (length buf) pos); [done|]. destruct p as [|t p]; [cbn in Hlen; lia|].
  assert (buf !! pos = Some t) as ->.
  { destruct Hp as [Hd _]. assert (H' := f_equal (lookup 0) Hd). by rewrite lookup_drop, Nat.add_0_r in H'. }
  apply (ends_with_step _ _ [t]) in Hp. cbn [length] in Hp. rewrite Nat.add_1_r in Hp.
  destruct v; cbn -[dec_of fmt_d Z.of_nat] in Hy; injection Hy as <- Hy; cbn -[find_line_end read_number_line parse_bulk parse_array].
  - destruct Hv as [Hcr Hl], Hp as [Hd Hpos]. by rewrite (find_line_end_cut str p q).
  - destruct Hv as [Hcr Hl], Hp as [Hd Hpos]. by rewrite (find_line_end_cut str p q).
  - cbn in Hv. rewrite (read_number_line_cut integer p q); [done|lia|done..].
  - eapply parse_bulk_cut; [done..| |done]. by rewrite fmt_d_nat, <- app_assoc.
  - destruct Hv as [Hl Hvs]. unfold RESP_MAX_ARRAY_LEN in Hl. unfold parse_array.
    rewrite <- fmt_d_nat in Hy.
    destruct (number_line_cut (Z.of_nat (length elements)) _ p q buf (S pos)
      ltac:(unfold INT64_MIN, INT64_MAX; lia) Hp Hy Hq) as [-> |(pos' & p' & -> & Hp' & Hy')]; [done|].
    cbn [mbind parsed_bind]. destruct (Z.eqb_spec (Z.of_nat (length elements)) (-1)); [lia|].
    destruct (Z.ltb_spec (Z.of_nat (length elements)) 0); [lia|]. unfold RESP_MAX_ARRAY_LEN.
    destruct (Z.ltb_spec (1024 * 1024) (Z.of_nat (length elements))); [lia|]. cbn [orb].
    rewrite Nat2Z.id. rewrite Forall_forall in Hvs. erewrite array_loop_cut; [done| | |exact Hp'|exact Hy'|done].
    + intros v' pos0 p0 q0 Hin. by apply IH, Hvs.
    + intros v' pos0 r Hin. apply parse_value_here; [by apply Hvs|done].
  - unfold parse_bulk. rewrite (read_number_line_cut (-1) p q); [done|done..].
Qed.

(** ** The socket *)

(** Reads that bring data or are interrupted, and the data they bring. *)
Definition calm_read (r : Server.read_result) : Prop :=
  match r with Server.Read_data _ | Server.Read_eintr => True | _ => False end.

Definition received (rs : list Server.read_result) : bytes :=
  concat ((λ r, match r with Server.Read_data chunk => chunk | _ => [] end) <$> rs).

Lemma reply_loop_here rs inbuf v x :
  sendable (S RESP_MAX_DEPTH) v → data inbuf = enc_value v ++ x →
  ∃ b, reply_loop rs inbuf = Done (Some v, rs, b) ∧ data b = x.
Proof.
  intros Hv Hx. exists (buffer_consume inbuf (length (enc_value v))). rewrite buffer_consume_data, Hx, drop_app_length.
  split; [|done].
  assert ((blen inbuf =? 0) = false) as Hb
    by (unfold blen; rewrite Hx, length_app; apply Nat.eqb_neq; destruct v; cbn; lia).
  destruct rs; cbn [reply_loop]; rewrite Hb; unfold resp_parse_reply;
    by rewrite (parse_value_here _ v false (data inbuf) 0 x).
Qed.

Lemma reply_loop_reads rs inbuf v rest :
  sendable (S RESP_MAX_DEPTH) v → Forall calm_read rs → data inbuf ++ received rs = enc_value v ++ rest →
  ∃ rs' b, reply_loop rs inbuf = Done (Some v, rs', b) ∧ data b ++ received rs' = rest ∧ Forall calm_read rs'.
Proof.
  intros Hv. revert inbuf. induction rs as [|r rs IH]; intros inbuf Hrs Heq.
  { cbn in Heq. rewrite app_nil_r in Heq. destruct (reply_loop_here [] inbuf v rest Hv Heq) as (b & -> & Hb).
    exists [], b. by rewrite Hb, app_nil_r. }
  apply app_eq_inv in Heq as [(x & Hx & Hrest)|(q & Hq & Hrest)].
  { destruct (reply_loop_here (r :: rs) inbuf v x Hv Hx) as (b & -> & Hb). exists (r :: rs), b. by rewrite Hb. }
  destruct (decide (q = [])) as [->|Hne].
  { rewrite app_nil_r in Hq. destruct (reply_loop_here (r :: rs) inbuf v [] Hv) as (b & -> & Hb); [by rewrite app_nil_r|].
    exists (r :: rs), b. by rewrite Hb. }
  cbn [reply_loop].
  assert ((if blen inbuf =? 0 then RESP_PARSE_INCOMPLETE else resp_parse_reply (data inbuf)) = RESP_PARSE_INCOMPLETE) as ->.
  { destruct (blen inbuf =? 0); [done|]. unfold resp_parse_reply.
    apply (parse_value_cut _ v (data inbuf) q); [done|by split; [|lia]|done..]. }
  apply Forall_cons in Hrs as [Hr Hrs]. destruct r as [chunk| | | |]; try done; apply IH; try done.
  - rewrite buffer_append_data, Hq, <- !app_assoc. f_equal. exact Hrest.
  - rewrite Hq, <- app_assoc. f_equal. exact Hrest.
Qed.

(** Writes that take something or are interrupted, and how much they take. *)
Definition calm_write (w : Server.write_result) : Prop :=
  match w with Server.Write_sent n => 0 < n | Server.Write_eintr => True | _ => False end.

Definition taken (ws : list Server.write_result) : nat :=
  sum_list_with (λ w, match w with Server.Write_sent n => n | _ => 0 end) ws.

Lemma send_loop_all ws left sent :
  Forall calm_write ws → length left ≤ taken ws → ∃ ws', send_loop ws left sent = Done (true, ws', sent ++ left).
Proof.
  revert left sent. induction ws as [|w ws IH]; intros left sent Hws Hl.
  { destruct left; [|cbn in Hl; lia]. exists []. cbn. by rewrite app_nil_r. }
  destruct left as [|c left']; [eexists; cbn; by rewrite app_nil_r|]. set (left := c :: left') in *.
  apply Forall_cons in Hws as [Hw Hws]. unfold left at 1. cbn [send_loop]. fold left.
  destruct w as [[|n]| | |]; try done; [cbn in Hw; lia| |by apply IH].
  destruct (IH (drop (S n) left) (sent ++ take (S n) left) Hws) as [ws' ->].
  - rewrite length_drop. change (taken (Server.Write_sent (S n) :: ws)) with (S n + taken ws) in Hl. lia.
  - exists ws'. by rewrite <- app_assoc, take_drop.
Qed.

Lemma split_line_reads room line max_args ws :
  line_text line ws → NUL ∉ line → length line < room → length ws ≤ max_args →
  ∃ store argv, split_line room line max_args = Ret (Some (store, argv)) ∧ words_at store argv = ws.
Proof.
  intros Hws Hnul Hl Hn. unfold split_line. pose proof (skip_seps_length line).
  pose proof (split_loop_exact (length line) room line [] [] max_args ltac:(done) ltac:(right; cbn; lia) ltac:(cbn; lia) Hnul)
    as H'. destruct (split_loop _ _ _ _ _ _) as [[[store argv]|]|]; [|by apply H' in Hws; cbn in Hws; lia|done].
  destruct H' as (ws' & Hline & _ & _ & Hpt). exists store, argv. split; [done|].
  rewrite (line_text_functional _ _ _ Hws Hline).
  specialize (Hpt [] ltac:(by intros more) []). by rewrite app_nil_r in Hpt.
Qed.

Lemma line_text_length p ws : line_text p ws → Forall (λ w, length w ≤ length p) ws.
Proof.
  induction 1 as [|b t w rest ws _ _ Hw _ _ IH]; [constructor|]. apply word_text_length in Hw.
  constructor; [rewrite !length_app; lia|]. eapply Forall_impl; [exact IH|]. intros w'. cbn. rewrite !length_app. lia.
Qed.

Lemma print_char_no_nul c : printable c = true → NUL ∉ print_char c.
Proof.
  intros Hc. assert (c ≠ NUL) by (by intros ->). unfold print_char.
  repeat (case_bool_decide; [subst; apply (bool_decide_unpack _); by vm_compute|]). cbn [orb].
  unfold printable in Hc. rewrite !bool_decide_false, !orb_false_r in Hc by done. bools.
  destruct (Z.ltb_spec (code c) 32); [lia|]. destruct (Z.ltb_spec 126 (code c)); [lia|]. cbn [orb]. set_solver.
Qed.

Lemma printed_no_nul ws :
  Forall (Forall (λ c, printable c = true)) ws → NUL ∉ concat ((λ w, print_reply (RESP_BULK_STRING w) 0) <$> ws).
Proof.
  intros Hws (x & Hx & (w & -> & Hw)%list_elem_of_fmap)%elem_of_concat. rewrite Forall_forall in Hws.
  specialize (Hws w Hw). cbn [print_reply] in Hx. rewrite !elem_of_app in Hx.
  destruct Hx as [H'|[(y & Hy & (c & -> & Hc)%list_elem_of_fmap)%elem_of_concat|[H'|H']]];
    [by apply list_elem_of_singleton in H'| |by apply list_elem_of_singleton in H'..].
  rewrite Forall_forall in Hws. by eapply print_char_no_nul; [apply Hws|].
Qed.

(** ** Theorems *)

(** C38: the word splitter of the prompt accepts exactly the lines of the
    grammar (words of plain characters, single-quoted parts and double-quoted
    parts with escapes) that have no more words than allowed, and delivers
    exactly their words.  It always stops, and it never writes outside a word
    store that is as large as the line with its terminator. *)
Theorem split_line_exact (room : nat) (line : bytes) (max_args : nat) :
  NUL ∉ line → length line < room →
  match split_line room line max_args with
  | Ret (Some (store, argv)) => line_text line (words_at store argv) ∧ length argv ≤ max_args
  | Ret None => ∀ ws, line_text line ws → max_args < length ws
  | Undef _ => False
  end.
Proof.
  intros Hnul Hl. unfold split_line. pose proof (skip_seps_length line).
  pose proof (split_loop_exact (length line) room line [] [] max_args ltac:(done) ltac:(right; cbn; lia) ltac:(cbn; lia) Hnul)
    as H'. destruct (split_loop _ _ _ _ _ _) as [[[store argv]|]|]; [|exact H'|done].
  destruct H' as (ws & Hline & Hn & Hm & Hpt). split; [|done].
  specialize (Hpt [] ltac:(by intros more) []). rewrite app_nil_r in Hpt. by rewrite Hpt.
Qed.

Lemma split_line_exact_witness :
  match split_line 40 (#"set 'a b' " ++ [DQUOTE] ++ #"c
d" ++ [DQUOTE; LF]) 3 with
  | Ret (Some (store, argv)) => words_at store argv = [ #"set"; #"a b"; #"c" ++ [LF] ++ #"d"] ∧ length argv ≤ 3
  | _ => False
  end.
Proof.
  pose proof (split_line_exact 40 (#"set 'a b' " ++ [DQUOTE] ++ #"c
d" ++ [DQUOTE; LF]) 3
    ltac:(apply (bool_decide_unpack _); vm_compute; exact I) ltac:(apply Nat.ltb_lt; vm_compute; reflexivity)) as H'.
  destruct (split_line _ _ _) as [[[store argv]|]|] eqn:E; [|by vm_compute in E..].
  split; [|exact (proj2 H')]. vm_compute in E. injection E as <- <-. vm_compute. reflexivity.
Defined.



(** One exchange with the server: whatever pieces the socket takes and
    brings, the client sends exactly the request, reads exactly one reply,
    prints it, and keeps the bytes behind it for the next command. *)
Lemma run_one_exchange (s : Session) (argv : list bytes) (v : RespValue) (rest : bytes) :
  Forall calm_write (ss_writes s) → length (data (request argv)) ≤ taken (ss_writes s) →
  Forall calm_read (ss_reads s) → data (ss_inbuf s) ++ received (ss_reads s) = enc_value v ++ rest →
  sendable (S RESP_MAX_DEPTH) v →
  ∃ s', run_one argv s = Done (match v with RESP_ERROR _ => 1 | _ => 0 end, s')%Z ∧
    ss_sent s' = ss_sent s ++ enc_value (RESP_ARRAY (RESP_BULK_STRING <$> argv)) ∧
    ss_stdout s' = ss_stdout s ++ print_reply v 0 ∧
    data (ss_inbuf s') ++ received (ss_reads s') = rest.
Proof.
  intros Hw Hl Hr Heq Hv. rewrite <- request_data.
  destruct (send_loop_all (ss_writes s) (data (request argv)) (ss_sent s) Hw Hl) as [ws' Hs].
  destruct (reply_loop_reads (ss_reads s) (ss_inbuf s) v rest Hv Hr Heq) as (rs' & b & Hread & Hrest & _).
  unfold run_one, send_command, read_reply, mbind, IO_bind. rewrite Hs. cbn [ss_reads ss_inbuf]. rewrite Hread.
  eexists. split; [destruct v; reflexivity|]. done.
Qed.

Definition demo_session : Session :=
  {| ss_writes := [Server.Write_sent 5; Server.Write_eintr; Server.Write_sent 100];
     ss_reads := [Server.Read_data #"+PO"; Server.Read_eintr; Server.Read_data (#"NG" ++ CRLF ++ #":1")];
     ss_inbuf := buffer_init; ss_sent := []; ss_stdout := [] |}.

Lemma run_one_exchange_witness : ∃ s', run_one [ #"PING"] demo_session = Done (0%Z, s') ∧
  ss_sent s' = #"*1" ++ CRLF ++ #"$4" ++ CRLF ++ #"PING" ++ CRLF ∧
  ss_stdout s' = #"PONG" ++ [LF] ∧ data (ss_inbuf s') ++ received (ss_reads s') = #":1".
Proof.
  destruct (run_one_exchange demo_session [ #"PING"] (RESP_SIMPLE_STRING #"PONG") #":1") as (s' & H1 & H2 & H3 & H4).
  - repeat constructor; cbn; lia.
  - apply Nat.leb_le. vm_compute. reflexivity.
  - repeat constructor.
  - reflexivity.
  - split; [apply (bool_decide_unpack _); vm_compute; exact I|vm_compute; discriminate].
  - exists s'. split; [exact H1|]. split; [exact H2|]. split; [exact H3|exact H4].
Defined.

End CliProps.
