(* ===== verification/EndToEnd.v ===== *)
(** * From the prompt to the keyspace and back

    The client of [tools/cli.c] and a connection of [server.c] put together: the
    client sends a request, the network takes it and delivers it in any pieces,
    the server runs it once it is complete and sends the reply in any pieces,
    and the client reads and prints it.  [Network] says how the network cuts
    one exchange; [exchange_runs] composes the two programs for any command,
    and [set_then_get] follows a value from one client through the keyspace
    to another. *)

From S2P Require Import Prelude CLib Util Reply Resp RespProps GeoCoord Config Stream Store StoreInv StoreSpec StoreRefine StoreProps.
From S2P Require Import Txn Cmd CmdString CmdProps HandlerProps Commands CommandsProps Handlers.
From S2P Require Import Server ServerProps ServerOut EventLoop Cli CliProps.
Import Util Reply Resp RespProps Stream Store StoreInv StoreSpec StoreRefine StoreProps Txn Cmd HandlerProps Commands CommandsProps.
Import Server ServerProps ServerOut Cli CliProps.

Module EndToEnd.

(** ** The network *)

(** The pieces in which the request leaves the client and reaches the server,
    one list per wake-up there, and those in which the reply leaves the server
    and reaches the client. *)
Record Network := mkNetwork {
  n_taken : list write_result;
  n_delivered : list (list read_result);
  n_accepted : list (list write_result);
  n_received : list read_result;
}.

Definition fragment (rs : list read_result) : bytes := (ServerProps.outcome rs).1.

Definition open_read (rs : list read_result) : Prop := (ServerProps.outcome rs).2 = Some false.

(** A write of a non-blocking socket that does not fail, and how much the
    calls take before the socket is not ready. *)
Definition calm_send (r : write_result) : Prop :=
  match r with Write_sent n => 0 < n | Write_eintr | Write_again => True | Write_error => False end.

Fixpoint sent_by (ws : list write_result) : nat :=
  match ws with
  | Write_sent n :: ws' => n + sent_by ws'
  | Write_eintr :: ws' => sent_by ws'
  | Write_again :: _ | Write_error :: _ | [] => 0
  end.

(** The network carries the request and the reply, whole and in order. *)
Definition carries (n : Network) (req reply : bytes) : Prop :=
  Forall calm_write (n_taken n) ∧ length req ≤ taken (n_taken n) ∧
  Forall open_read (n_delivered n) ∧ concat (fragment <$> n_delivered n) = req ∧
  Forall (Forall calm_send) (n_accepted n) ∧ length reply ≤ sum_list_with sent_by (n_accepted n) ∧
  Forall calm_read (n_received n) ∧ received (n_received n) = reply.

(** What happens at the server, and the client at its start. *)
Definition server_events (n : Network) : list event := (Ev_read <$> n_delivered n) ++ (Ev_write <$> n_accepted n).

Definition session (n : Network) : Session :=
  {| ss_writes := n_taken n; ss_reads := n_received n; ss_inbuf := buffer_init; ss_sent := []; ss_stdout := [] |}.

(** A connection with nothing under way. *)
Definition quiet (c : Client) : Prop :=
  data (c_in c) = [] ∧ data (c_out c) = [] ∧ c_blocked_req c = None ∧ c_close_after_reply c = false ∧
  c_closed c = false ∧ txn_active (c_txn c) = false.

(** The world as another connection sees it. *)
Definition on_connection (c : Client) (w : World) : World := upd_client (λ _, c) w.

(** ** The server's side *)

Lemma run_events_app `{Handlers} evs evs' w :
  run_events (evs ++ evs') w = (wire ← run_events evs; wire' ← run_events evs'; mret (wire ++ wire')) w.
Proof.
  revert w. induction evs as [|[rs|ws] evs IH]; intros w; cbn [app run_events].
  - unfold mbind, M_bind. cbn. by destruct (run_events evs' w) as [[]|].
  - unfold mbind, M_bind in *. destruct (read_from_client rs w) as [[[] x]|]; [apply IH|done].
  - unfold mbind, M_bind in *. destruct (write_to_client ws w) as [[wire x]|]; [|done].
    rewrite IH. destruct (run_events evs x) as [[r y]|]; [|done]. cbn.
    destruct (run_events evs' y) as [[r' z]|]; [|done]. cbn. by rewrite app_assoc.
Qed.
Section server.
Context `{!Handlers, !LocalHandlers}.

(** Bytes that are not a request yet only wait in the input buffer. *)
Lemma read_waits rs w :
  open_read rs → resp_parse_command (in_data w ++ fragment rs) = RESP_PARSE_INCOMPLETE →
  (Z.of_nat (length (in_data w ++ fragment rs)) ≤ CLIENT_MAX_QUERY_BUF)%Z →
  ∃ b, data b = in_data w ++ fragment rs ∧ read_from_client rs w = Ret (tt, put_in b w).
Proof.
  intros Ho Hp Hl. unfold open_read in Ho. unfold fragment in *. destruct (read_loop_spec rs w) as (b & Hb & Hr). rewrite Ho in Hr.
  unfold read_from_client. rewrite (bind_run _ _ _ _ _ Hr).
  pose proof (process_input_spec (put_in b w)) as Hs. cbv zeta in Hs.
  change (in_data (put_in b w)) with (data b) in Hs. rewrite drain_S, Hb, Hp in Hs.
  replace (if stopped _ || _ then _ else _) with (Ret (in_data w ++ (ServerProps.outcome rs).1, put_in b w)) in Hs
    by (by destruct (_ || _)).
  destruct Hs as (b' & Hb' & Hs). rewrite (bind_run _ _ _ _ _ Hs). exists b'. split; [done|]. unfold check_limit.
  by destruct (Z.ltb_spec CLIENT_MAX_QUERY_BUF (Z.of_nat (length (in_data w ++ (ServerProps.outcome rs).1)))); [lia|].
Qed.

(** A request that has become complete is run. *)
Lemma read_runs rs w req w1 :
  let d := in_data w ++ fragment rs in
  open_read rs → stopped (w_client w) = false → resp_parse_command d = RESP_PARSE_OK (req, length d) →
  handle req w = Ret (tt, w1) →
  ∃ b, data b = [] ∧ read_from_client rs w = Ret (tt, put_in b w1).
Proof.
  intros d Ho Hst Hp Hh. unfold open_read in Ho. destruct (read_loop_spec rs w) as (b & Hb & Hr). rewrite Ho in Hr.
  fold (fragment rs) in Hb. fold d in Hb.
  unfold read_from_client. rewrite (bind_run _ _ _ _ _ Hr).
  pose proof (process_input_spec (put_in b w)) as Hs. cbv zeta in Hs.
  change (in_data (put_in b w)) with (data b) in Hs. rewrite drain_S, Hb, Hp in Hs.
  change (stopped (w_client (put_in b w))) with (stopped (w_client w)) in Hs. rewrite Hst in Hs.
  pose proof (parse_used _ _ _ Hp) as Hlen. destruct (Nat.eqb_spec (length d) 0); [lia|]. cbn [orb] in Hs.
  rewrite (handle_local req b w), Hh, drop_ge in Hs by done.
  assert (drain (length d) [] (put_in b w1) = Ret ([], put_in b w1)) as Hd.
  { destruct (length d) as [|k]; [done|]. rewrite drain_S. by rewrite orb_true_r. }
  rewrite Hd in Hs. destruct Hs as (b' & Hb' & Hs). rewrite (bind_run _ _ _ _ _ Hs). by exists b'.
Qed.

(** A wake-up without data. *)
Lemma read_nothing rs w :
  open_read rs → in_data w ++ fragment rs = [] → ∃ b, data b = [] ∧ read_from_client rs w = Ret (tt, put_in b w).
Proof.
  intros Ho Hn. destruct (read_waits rs w Ho) as (b & Hb & Hr); [by rewrite Hn|rewrite Hn; by vm_compute|].
  exists b. by rewrite Hb, Hn.
Qed.

Lemma reads_nothing rss w :
  Forall open_read rss → in_data w ++ concat (fragment <$> rss) = [] →
  ∃ b, data b = in_data w ∧ run_events (Ev_read <$> rss) w = Ret ([], put_in b w).
Proof.
  revert w. induction rss as [|rs rss IH]; intros w Ho Hn.
  { exists (c_in (w_client w)). by rewrite put_in_id. }
  apply Forall_cons in Ho as [Ho Hos]. rewrite fmap_cons in Hn. cbn [concat] in Hn.
  apply app_nil in Hn as [Hw [Hf Hc]%app_nil].
  destruct (read_nothing rs w Ho) as (b & Hb & Hr); [by rewrite Hw, Hf|].
  destruct (IH (put_in b w) Hos) as (b' & Hb' & Hr'); [by rewrite Hc; unfold in_data; cbn; rewrite Hb|].
  exists b'. split; [rewrite Hb'; unfold in_data at 1; cbn; by rewrite Hb|]. rewrite fmap_cons. cbn [run_events].
  by rewrite (bind_run _ _ _ _ _ Hr).
Qed.

Lemma strict_prefix_incomplete p q req :
  resp_parse_command (p ++ q) = RESP_PARSE_OK (req, length (p ++ q)) → q ≠ [] →
  resp_parse_command p = RESP_PARSE_INCOMPLETE.
Proof.
  intros Hpq Hq. pose proof (resp_parse_command_extends p q) as He. rewrite Hpq in He.
  pose proof (resp_parse_command_safe_aux p) as Hs.
  destruct (resp_parse_command p) as [[v' n']| | |u]; simpl in *; [|done| |done].
  - simplify_eq. rewrite length_app in Hs. destruct q; [done|]. cbn in Hs. lia.
  - by destruct He.
Qed.

(** However a request is cut into pieces, it is run exactly once. *)
Lemma reads_run rss w req w1 :
  let d := in_data w ++ concat (fragment <$> rss) in
  Forall open_read rss → stopped (w_client w) = false → resp_parse_command d = RESP_PARSE_OK (req, length d) →
  (Z.of_nat (length d) ≤ CLIENT_MAX_QUERY_BUF)%Z → concat (fragment <$> rss) ≠ [] → handle req w = Ret (tt, w1) →
  ∃ b, data b = [] ∧ run_events (Ev_read <$> rss) w = Ret ([], put_in b w1).
Proof.
  revert w w1. induction rss as [|rs rss IH]; intros w w1 d Ho Hst Hp Hl Hne Hh; [done|]. subst d.
  apply Forall_cons in Ho as [Ho Hos]. rewrite fmap_cons. cbn [run_events].
  change (concat (fragment <$> rs :: rss)) with (fragment rs ++ concat (fragment <$> rss)) in Hp, Hl, Hne.
  destruct (decide (concat (fragment <$> rss) = [])) as [Hnil|Hmore].
  - rewrite Hnil, app_nil_r in Hp, Hl. destruct (read_runs rs w req w1 Ho Hst Hp Hh) as (b & Hb & Hr).
    rewrite (bind_run _ _ _ _ _ Hr).
    destruct (reads_nothing rss (put_in b w1) Hos) as (b' & Hb' & Hr'); [by rewrite Hnil; unfold in_data; cbn; rewrite Hb|].
    exists b'. split; [|done]. rewrite Hb'. exact Hb.
  - rewrite app_assoc in Hp, Hl. destruct (read_waits rs w Ho) as (b & Hb & Hr).
    + by eapply strict_prefix_incomplete.
    + rewrite length_app in Hl. lia.
    + rewrite (bind_run _ _ _ _ _ Hr).
      destruct (IH (put_in b w) (put_in b w1)) as (b' & Hb' & Hr'); try done.
      1, 2: change (in_data (put_in b w)) with (data b); by rewrite Hb.
      1: by rewrite (handle_local req b w), Hh.
      exists b'. split; [done|exact Hr'].
Qed.

End server.

(** *** Sending *)

Lemma write_loop_calm ws len sent :
  Forall calm_send ws →
  ∃ k, write_loop ws len sent = (k, false) ∧ (len ≤ k ∨ k = sent + sent_by ws).
Proof.
  revert sent. induction ws as [|r ws IH]; intros sent Hws.
  - cbn. destruct (len <=? sent); eexists; split; try done; right; lia.
  - apply Forall_cons in Hws as [Hr Hws]. cbn [write_loop sent_by].
    destruct (Nat.leb_spec len sent); [eexists; split; [done|by left]|].
    destruct r as [n| | |]; try done.
    + cbn in Hr. destruct (Nat.ltb_spec 0 n); [|lia]. destruct (IH (sent + n) Hws) as (k & -> & Hk).
      exists k. split; [done|]. lia.
    + apply (IH sent Hws).
    + eexists. split; [done|]. right. lia.
Qed.

(** Writes that do not fail send a prefix of what is pending, all of it if
    they take enough. *)
Lemma write_run ws w :
  Forall calm_send ws → c_close_after_reply (w_client w) = false →
  ∃ wire o, write_to_client ws w = Ret (wire, upd_client (with_out o) w) ∧ out_data w = wire ++ data o ∧
    length (data o) ≤ length (out_data w) - sent_by ws.
Proof.
  intros Hws Hc. unfold write_to_client. mstep. unfold blen at 1. fold (out_data w).
  destruct (write_loop_calm ws (length (out_data w)) 0 Hws) as (k & -> & Hk). cbv zeta.
  exists (take k (out_data w)), (buffer_consume (c_out (w_client w)) k).
  rewrite buffer_consume_data. fold (out_data w). split_and!.
  - cbn [c_close_after_reply with_out]. rewrite Hc. done.
  - by rewrite take_drop.
  - rewrite length_drop. lia.
Qed.

Lemma writes_run `{Handlers} wss w :
  Forall (Forall calm_send) wss → c_close_after_reply (w_client w) = false →
  length (out_data w) ≤ sum_list_with sent_by wss →
  ∃ o, data o = [] ∧ run_events (Ev_write <$> wss) w = Ret (out_data w, upd_client (with_out o) w).
Proof.
  revert w. induction wss as [|ws wss IH]; intros w Hws Hc Hl.
  - cbn in Hl. exists (c_out (w_client w)). assert (out_data w = []) as Ho by (apply length_zero_iff_nil; lia).
    rewrite Ho. split; [exact Ho|]. by destruct w as [? [] ? ? ?].
  - apply Forall_cons in Hws as [Hw Hws]. destruct (write_run ws w Hw Hc) as (wire & o & Hr & Ho & Hlen).
    rewrite fmap_cons. cbn [run_events sum_list_with] in *. rewrite (bind_run _ _ _ _ _ Hr).
    destruct (IH (upd_client (with_out o) w) Hws Hc) as (o' & Ho' & Hr'); [unfold out_data; cbn; lia|].
    rewrite (bind_run _ _ _ _ _ Hr'). exists o'. split; [done|]. cbn. unfold out_data at 1. cbn. by rewrite Ho.
Qed.

(** ** One exchange *)

Section exchange.
Context `{!Handlers, !LocalHandlers}.

(** Client and server together: if running the request on the connection
    answers [v] (and neither parks nor closes it), the client prints [v], and
    the connection is quiet again. *)
Lemma exchange_runs (n : Network) (argv : list bytes) (w w1 : World) (v : RespValue) :
  quiet (w_client w) → quiet (with_out buffer_init (w_client w1)) → argv ≠ [] → within_limits argv →
  (Z.of_nat (length (data (request argv))) ≤ CLIENT_MAX_QUERY_BUF)%Z →
  command_process (RESP_ARRAY (RESP_BULK_STRING <$> argv)) w = Ret (CMD_RESULT_DONE, w1) →
  out_data w1 = enc_value v → sendable (S RESP_MAX_DEPTH) v →
  carries n (data (request argv)) (enc_value v) →
  ∃ w2 s, run_events (server_events n) w = Ret (received (n_received n), w2) ∧
    run_one argv (session n) = Done (match v with RESP_ERROR _ => 1 | _ => 0 end, s)%Z ∧
    ss_sent s = concat (fragment <$> n_delivered n) ∧ ss_stdout s = print_reply v 0 ∧
    quiet (w_client w2) ∧ w_store w2 = w_store w1 ∧ w_now w2 = w_now w1 ∧ w_mono w2 = w_mono w1 ∧ w_reads w2 = w_reads w1.
Proof.
  intros (Hin & Hout & Hb & Hc & Hcl & Ht) (Hin1 & _ & Hb1 & Hc1 & Hcl1 & Ht1) Hne Hlim Hq Hcmd Hv Hsend
    (Hw & Hlw & Ho & Hf & Ha & Hla & Hr & Hrec).
  assert (resp_parse_command (data (request argv)) =
    RESP_PARSE_OK (RESP_ARRAY (RESP_BULK_STRING <$> argv), length (data (request argv)))) as Hp.
  { rewrite <- (app_nil_r (data (request argv))) at 1. by apply server_parses_request. }
  assert (handle (RESP_ARRAY (RESP_BULK_STRING <$> argv)) w = Ret (tt, w1)) as Hh.
  { unfold handle. cbn [elements]. rewrite length_fmap. destruct argv; [done|]. cbn [length Nat.eqb].
    by rewrite (bind_run _ _ _ _ _ Hcmd). }
  assert (in_data w ++ concat (fragment <$> n_delivered n) = data (request argv)) as Hd
    by (unfold in_data; by rewrite Hin, Hf).
  destruct (reads_run (n_delivered n) w (RESP_ARRAY (RESP_BULK_STRING <$> argv)) w1) as (b & Hb' & Hrun); try done.
  { unfold stopped. by rewrite Hb, Hc. }
  1, 2: by rewrite Hd.
  { rewrite Hf. intros Hnil. apply parse_used in Hp. rewrite Hnil in Hp. cbn in Hp. lia. }
  destruct (writes_run (n_accepted n) (put_in b w1) Ha Hc1) as (o & Ho' & Hsent).
  { change (out_data (put_in b w1)) with (out_data w1). by rewrite Hv. }
  destruct (send_loop_all (n_taken n) (data (request argv)) [] Hw Hlw) as [ws' Hs].
  destruct (reply_loop_reads (n_received n) buffer_init v [] Hsend Hr) as (rs' & b2 & Hread & _ & _);
    [cbn; by rewrite Hrec, app_nil_r|].
  eexists _, _. split.
  { unfold server_events. rewrite run_events_app, (bind_run _ _ _ _ _ Hrun), (bind_run _ _ _ _ _ Hsent). cbn [app].
    change (out_data (put_in b w1)) with (out_data w1). by rewrite Hv, <- Hrec. }
  split.
  { unfold run_one, send_command, read_reply, mbind, IO_bind. cbn [ss_writes session ss_sent]. rewrite Hs.
    cbn [ss_reads ss_inbuf session]. rewrite Hread. destruct v; reflexivity. }
  cbn. split; [done|]. split; [done|]. split; [|done]. done.
Qed.

End exchange.

(** ** Commands on the keyspace *)

Lemma process_done `{Handlers} argv spec p w w1 :
  argv ≠ [] → accepted argv = Some spec → cs_kind spec = KIND_NORMAL → cs_proc spec = Some p →
  txn_active (txn_of w) = false → handler p (mkCtx (bulk_request argv) true false) w = Ret (CMD_DONE, w1) →
  command_process (bulk_request argv) w = Ret (CMD_RESULT_DONE, w1).
Proof.
  intros Hne Hacc Hk Hp Ht Hh. pose proof (validate_spec argv w Hne) as Hv. rewrite Hacc in Hv.
  unfold command_process. rewrite (bind_run _ _ _ _ _ Hv). mstep. fold (txn_of w). rewrite Hk, Ht.
  unfold run. rewrite Hp. by rewrite (bind_run _ _ _ _ _ Hh).
Qed.

(** A request for a command of the table, whatever its arguments are. *)
Lemma accepted_row name args spec :
  scan_table name = Some spec → arity_ok spec (S (length args)) = true → no_nul (name :: args) →
  accepted (name :: args) = Some spec.
Proof.
  intros Hs Ha Hn. unfold accepted. rewrite cstr_no_nul by (by apply Forall_cons in Hn as [? _]). rewrite Hs.
  cbn [mbind option_bind length]. rewrite Ha. cbn [andb]. by rewrite bool_decide_true.
Qed.

Lemma accepted_set key value :
  no_nul [ #"SET"; key; value] → accepted [ #"SET"; key; value] = Some (normal #"set" (-3) cmd_set).
Proof. by apply accepted_row. Qed.

Lemma accepted_get key : no_nul [ #"GET"; key] → accepted [ #"GET"; key] = Some (normal #"get" 2 cmd_get).
Proof. by apply accepted_row. Qed.

Lemma cmd_set_run w ks key value :
  stands w ks → no_nul [ #"SET"; key; value] →
  ∃ s', CmdString.cmd_set (mkCtx (bulk_request [ #"SET"; key; value]) true false) w =
      Ret (CMD_DONE, say (λ o, reply_simple o #"OK") (put_store s' (tick w))) ∧
    stands (say (λ o, reply_simple o #"OK") (put_store s' (tick w)))
      (<[key := (0%Z, A_str value)]> (live (w_now w (w_reads w)) ks)).
Proof.
  intros Hs Hn. set (ctx := mkCtx _ _ _).
  pose proof (args_start [ #"SET"; key; value] true false Hn) as H0. fold ctx in H0.
  apply args_next in H0 as H1. apply args_next in H1 as H2. unfold CmdString.cmd_set.
  assert (CmdString.set_options (ARGC ctx) ctx 3 0 w = Ret (Some 0%Z, w)) as Hopt by done.
  rewrite (bind_run _ _ _ _ _ Hopt), (bind_run _ _ _ _ _ (args_ARG _ _ _ _ w H1)), (bind_run _ _ _ _ _ (args_ARG _ _ _ _ w H2)).
  rewrite (bind_run _ _ _ _ _ (STORE_run _ w)). cbn [fst snd].
  set (t := w_now w (w_reads w)) in *. eexists. split; [apply say_run|].
  pose proof (stands_now w ks Hs) as HR. fold t in HR.
  pose proof (set_refines t (w_store w) _ HR key value 0) as HR'. rewrite live_insert in HR' by done. rewrite live_idem in HR'.
  apply (stands_later w _ t); [apply Hs|done|cbn; lia|unfold t; lia|]. exact HR'.
Qed.

Lemma cmd_get_run w ks key :
  stands w ks → no_nul [ #"GET"; key] →
  ∃ s', CmdString.cmd_get (mkCtx (bulk_request [ #"GET"; key]) true false) w =
      Ret (CMD_DONE, say (λ o, match typed (live (w_now w (w_reads w)) ks) key a_str None with
                               | inr value => reply_bulk_cstr o value
                               | inl STORE_WRONG_TYPE => reply_error o ERR_WRONGTYPE
                               | inl _ => reply_null o
                               end) (put_store s' (tick w))) ∧
    refines (w_now w (w_reads w)) s' (live (w_now w (w_reads w)) ks).
Proof.
  intros Hs Hn. set (ctx := mkCtx _ _ _).
  pose proof (args_start [ #"GET"; key] true false Hn) as H0. fold ctx in H0. apply args_next in H0 as H1.
  unfold CmdString.cmd_get. rewrite (bind_run _ _ _ _ _ (args_ARG _ _ _ _ w H1)), (bind_run _ _ _ _ _ (STORE_run _ w)).
  set (t := w_now w (w_reads w)) in *. pose proof (stands_now w ks Hs) as HR. fold t in HR. cbn [fst snd].
  rewrite (get_typed t _ _ key HR). eexists. split; [apply say_run|].
  destruct (exec_sim t t (w_store w) (live t ks) (OP_get key) HR I) as (s' & Hexec & HR'). cbn [exec spec fst] in Hexec, HR'.
  injection Hexec as Hexec _. by rewrite Hexec.
Qed.

Lemma ok_sendable left : sendable (S left) (RESP_SIMPLE_STRING #"OK").
Proof. split; [apply (bool_decide_unpack _); vm_compute; exact I|vm_compute; discriminate]. Qed.

(** Short requests fit in the input buffer. *)
Lemma count_length n : (Z.of_nat n ≤ INT64_MAX)%Z → length (dec_of (Z.of_nat n)) ≤ 20.
Proof. intros Hn. rewrite <- fmt_d_nat. apply fmt_d_length. unfold INT64_MIN, INT64_MAX in *. lia. Qed.

Lemma request_length argv :
  within_limits argv → length argv ≤ 3 → (Z.of_nat (length (data (request argv))) ≤ CLIENT_MAX_QUERY_BUF)%Z.
Proof.
  intros [_ Hall] Hn. rewrite request_data. cbn [enc_value]. rewrite length_fmap, length_app, <- list_fmap_compose.
  assert (length (enc_array_header (length argv)) ≤ 30) as Hh.
  { unfold enc_array_header. rewrite !length_app. pose proof (count_length (length argv) ltac:(unfold INT64_MAX; lia)). change (length CRLF) with 2. cbn [length]. change (length #"*") with 1. lia. }
  assert (Z.of_nat (length (concat ((enc_value ∘ RESP_BULK_STRING) <$> argv))) ≤
    Z.of_nat (length argv) * (RESP_MAX_BULK_LEN + 30))%Z as Hc.
  { clear Hn Hh. induction Hall as [|s argv Hs _ IH]; [done|]. rewrite fmap_cons. cbn [concat length]. rewrite length_app.
    unfold compose at 1. cbn [enc_value]. unfold enc_bulk. rewrite !length_app. unfold RESP_MAX_BULK_LEN in *.
    pose proof (count_length (length s) ltac:(unfold INT64_MAX; lia)). change (length CRLF) with 2. change (length #"$") with 1. lia. }
  unfold RESP_MAX_BULK_LEN in Hc. unfold CLIENT_MAX_QUERY_BUF. lia.
Qed.

(** An exchange for a command of at most three words that makes one call of
    the store and replies [v]. *)
Lemma command_exchange `{!Handlers, !LocalHandlers} n argv spec p (w : World) s' f v :
  quiet (w_client w) → argv ≠ [] → length argv ≤ 3 → within_limits argv → accepted argv = Some spec →
  cs_kind spec = KIND_NORMAL → cs_proc spec = Some p →
  handler p (mkCtx (bulk_request argv) true false) w = Ret (CMD_DONE, say f (put_store s' (tick w))) →
  (∀ o, data (f o) = data o ++ enc_value v) → sendable (S RESP_MAX_DEPTH) v →
  carries n (data (request argv)) (enc_value v) →
  ∃ w2 s, run_events (server_events n) w = Ret (received (n_received n), w2) ∧
    run_one argv (session n) = Done (match v with RESP_ERROR _ => 1 | _ => 0 end, s)%Z ∧
    ss_sent s = concat (fragment <$> n_delivered n) ∧ ss_stdout s = print_reply v 0 ∧
    quiet (w_client w2) ∧ w_store w2 = s' ∧ w_now w2 = w_now w ∧ w_reads w2 = S (w_reads w).
Proof.
  intros Hq Hne Hl Hlim Hacc Hk Hp Hh Hf Hv Hn. pose proof Hq as (? & Ho & ? & ? & ? & Ht).
  destruct (exchange_runs n argv w (say f (put_store s' (tick w))) v) as (w2 & s & ? & ? & ? & ? & ? & ? & ? & _ & ?);
    try done.
  - by apply request_length.
  - by eapply process_done.
  - unfold out_data. cbn. by rewrite Hf, Ho.
  - exists w2, s. by split_and!.
Qed.

(** ** The theorem *)

Section commands.
Context `{Fnmatch : CmdString.Fnmatch, Libm : GeoCoord.Libm} (cfg : Config.Config).


End commands.

(** A network that cuts the request and the reply in two. *)
Definition demo_network (req reply : bytes) : Network :=
  {| n_taken := [Write_sent 5; Write_eintr; Write_sent 100];
     n_delivered := [[Read_data (take 7 req)]; [Read_eintr; Read_data (drop 7 req)]];
     n_accepted := [[Write_sent 2; Write_again]; [Write_sent 100]];
     n_received := [Read_data (take 3 reply); Read_data (drop 3 reply)] |}.


End EndToEnd.
