(* ===== verification/Bench.v ===== *)
(** * bench/bench.c: the benchmark

    [bench_store] drives the store through its interface, [run_pipeline] a
    server over a socket; [server_port] finds the port in what the server
    prints, and [report] prints a row of the table.  What the clocks and the
    socket answer are inputs.  The server process is in [BenchProc]. *)

From S2P Require Import Prelude CLib Util Resp Dbl DblText DblArith DList Store StoreSpec Server Cli.
Import Util Resp Dbl DblText DblArith DList Store StoreSpec.

Module Bench.

(** ** Times and the table *)

(** Seconds, from what the monotonic clock reads. *)
Definition now_s (ts : timespec) : dbl := dadd (of_int (tv_sec ts)) (ddiv (of_int (tv_nsec ts)) (of_int 1000000000)).

(** [%.0f] *)
Definition fmt_f0 (v : dbl) : bytes :=
  match v with
  | S754_zero neg => sign_text neg ++ #"0"
  | S754_infinity neg => sign_text neg ++ #"inf"
  | S754_nan => #"nan"
  | S754_finite neg m e => let '(n, d) := ratio_of m e in sign_text neg ++ dec_of (round10 n d 0)
  end.

(** The row that [report] prints. *)
Definition report (layer name : bytes) (ops : Z) (secs : dbl) : bytes :=
  #"| " ++ pad_right 7 layer ++ #" | " ++ pad_right 34 name ++ #" | " ++ pad_left 10 (fmt_d ops) ++ #" | " ++
  pad_left 12 (fmt_f0 (ddiv (of_int ops) secs)) ++ #" | " ++
  pad_left 9 (fmt_f0 (ddiv (dmul secs (of_int 1000000000)) (of_int ops))) ++ #" |" ++ [LF].

Example report_row : report #"store" #"SET (insert new keys)" 20000 (constant 1 100) =
  #"| store   | SET (insert new keys)              |      20000 |      2000000 |       500 |" ++ [LF].
Proof. vm_compute. reflexivity. Qed.

(** ** Pseudo-random numbers *)

Definition RNG_SEED : Z := 0x9E3779B97F4A7C15.

(** [rng], from a state to the next one, which is also the result. *)
Definition rng_next (x : Z) : Z :=
  let x := Z.lxor x (u64 (Z.shiftl x 13)) in
  let x := Z.lxor x (Z.shiftr x 7) in
  Z.lxor x (u64 (Z.shiftl x 17)).

(** ** The store layer *)

(** The store, the state of [rng], and how many calls were made so far. *)
Record State := mkState { b_store : Store; b_rng : Z; b_calls : nat }.

Definition BM (A : Type) : Type := State → res (A * State).

#[export] Instance BM_ret : MRet BM := λ A a b, Ret (a, b).
#[export] Instance BM_bind : MBind BM := λ A A' f m b,
  match m b with Ret (a, b') => f a b' | Undef u => Undef u end.

(** A part that may be undefined and does not use the state. *)
Definition lift {A} (r : res A) : BM A := λ b, match r with Ret a => Ret (a, b) | Undef u => Undef u end.

Definition rng : BM Z := λ b,
  let x := rng_next (b_rng b) in Ret (x, {| b_store := b_store b; b_rng := x; b_calls := b_calls b |}).

(** [snprintf(buf, 32, "<prefix>%ld", i)] *)
Definition label (prefix : bytes) (i : Z) : bytes := take 31 (prefix ++ fmt_d i).

(** [for (i = 0; i < n; i++)] with [i] at [i]: [n] turns. *)
Fixpoint for_loop {A} (n : nat) (i : Z) (body : Z → A → BM A) (acc : A) : BM A :=
  match n with
  | O => mret acc
  | S n' => acc ← body i acc; for_loop n' (i + 1) body acc
  end.

(** [for (j = 0; j < 100 && node; j++, node = node->next) scanned += strlen(node->value);] *)
Fixpoint scan_nodes (n : nat) (l : List) (node : option loc) (scanned : Z) : res Z :=
  match n, node with
  | S n', Some p => nd ← deref (l_nodes l) p; scan_nodes n' l (ln_next nd) (scanned + Z.of_nat (length (ln_value nd)))
  | _, _ => Ret scanned
  end.

Section store.
(** The readings of the clock during each call. *)
Context (clock : nat → Z * Z).

(** A call of the store. *)
Definition call {A} (f : Store → Z → Z → res (Store * A)) : BM A := λ b,
  r ← f (b_store b) (clock (b_calls b)).1 (clock (b_calls b)).2;
  Ret (r.2, {| b_store := r.1; b_rng := b_rng b; b_calls := S (b_calls b) |}).

Definition set_phase (n : Z) : BM () :=
  for_loop (Z.to_nat n) 0 (λ i _,
    call (λ s now _, Ret (store_set s (label #"key:" i) (label #"value:" i) 0 now, tt))) tt.

(** The number of hits. *)
Definition get_phase (n : Z) : BM Z :=
  for_loop (Z.to_nat n) 0 (λ _ hits,
    x ← rng;
    st ← call (λ s now _, Ret (store_get s (label #"key:" (x mod n)%Z) now));
    mret (match st with inr _ => hits + 1 | inl _ => hits end)%Z) 0%Z.

Definition hset_phase (n : Z) : BM () :=
  for_loop (Z.to_nat n) 0 (λ i _,
    call (λ s now _, Ret (store_hash_set s (label #"hash:" (Z.rem i 1000)) (label #"f" i) #"v" now));; mret tt) tt.

Definition push_phase (n : Z) : BM () :=
  for_loop (Z.to_nat n) 0 (λ i _,
    call (λ s now _, store_list_push s #"list" (label #"item:" i) false now);; mret tt) tt.

Definition SCANS : nat := Z.to_nat 2000.

(** [list] has no value unless [store_get_list] sets it. *)
Definition scan_phase : BM Z :=
  for_loop SCANS 0 (λ _ scanned,
    r ← call (λ s now _, Ret (store_get_list s #"list" now));
    match r with
    | inl _ => lift (Undef UB_uninitialised)
    | inr l => lift (scan_nodes 100 l (l_head l) scanned)
    end) 0%Z.

Definition zadd_phase (zn : Z) : BM () :=
  for_loop (Z.to_nat zn) 0 (λ i _,
    x ← rng;
    call (λ s now _, store_zset_add s #"leaderboard" (of_int (x mod 1000000)%Z) (label #"player:" i) now);; mret tt) tt.

Definition zscore_phase (zn : Z) : BM () :=
  for_loop (Z.to_nat zn) 0 (λ _ _,
    x ← rng;
    call (λ s now _, Ret (store_zset_score s #"leaderboard" (label #"player:" (x mod zn)%Z) now));; mret tt) tt.

Definition xadd_phase (n : Z) : BM () :=
  for_loop (Z.to_nat n) 0 (λ _ _,
    call (λ s now now', Ret (store_stream_add s #"events" #"*"
      [( #"sensor", #"temp-1"); ( #"reading", #"21.5")] now now'));; mret tt) tt.

(** The hits, the bytes scanned, and what goes to the standard error. *)
Definition bench_store (n : Z) : BM (Z * Z * bytes) :=
  set_phase n;;
  hits ← get_phase n;
  let warning := if negb (hits =? n)%Z
                 then #"warning: " ++ fmt_d hits ++ #"/" ++ fmt_d n ++ #" hits" ++ [LF] else [] in
  hset_phase n;;
  push_phase n;;
  scanned ← scan_phase;
  let zn := Z.quot n 10 in
  zadd_phase zn;;
  zscore_phase zn;;
  xadd_phase n;;
  mret (hits, scanned, warning).

End store.

(** The state in which [bench_store] starts its calls. *)
Definition fresh_state : State := {| b_store := store_create; b_rng := RNG_SEED; b_calls := 0 |}.

(** ** The network layer *)

(** [strstr] and [strrchr] on the bytes of a string: what follows from there. *)
Fixpoint strstr (s pattern : bytes) : option bytes :=
  if decide (pattern `prefix_of` s) then Some s
  else match s with [] => None | _ :: s' => strstr s' pattern end.

Fixpoint strrchr (s : bytes) (c : ascii) : option bytes :=
  match s with
  | [] => None
  | d :: s' => match strrchr s' c with Some r => Some r | None => if bool_decide (d = c) then Some s else None end
  end.

(** [atol] *)
Definition atol (s : bytes) : Z := (strtoll s).1.1.

(** [(int)] of a [long], as [atoi] converts it. *)
Definition to_int (z : Z) : Z := ((z + 2 ^ 31) mod 2 ^ 32 - 2 ^ 31)%Z.

(** [fgets] on the pipe from the server: [out] is what was ever written to it,
    and [eof] says whether the writers have all gone.  While one of them is
    there, [fgets] waits for the rest of a line that is not complete. *)
Definition pipe_fgets (eof : bool) (n : nat) (out : bytes) : Cli.outcome (option (bytes * bytes)) :=
  let r := Cli.fgets n out in
  let line := from_option fst [] r in
  if eof || (length line =? n - 1) || bool_decide (last line = Some LF) then Cli.Done r else Cli.Blocks.

(** The loop of [start_server] over the lines of the server's standard output:
    the port, 0 if none was found.  Each line takes at least one byte. *)
Fixpoint port_loop (fuel : nat) (eof : bool) (out : bytes) : Cli.outcome Z :=
  match fuel with
  | O => Cli.Done 0%Z
  | S fuel' =>
      match pipe_fgets eof 256 out with
      | Cli.Blocks => Cli.Blocks
      | Cli.Broken u => Cli.Broken u
      | Cli.Done None => Cli.Done 0%Z
      | Cli.Done (Some (line, rest)) =>
          match strstr (cstr line) #"listening on " with
          | None => port_loop fuel' eof rest
          | Some p =>
              match strrchr p ":"%char with
              | None => Cli.Broken UB_null_deref
              | Some q => Cli.Done (to_int (atol (drop 1 q)))
              end
          end
      end
  end.

(** The arguments the server is started with, and the port [start_server] ends
    up with; [None] is that it found none. *)
Definition server_argv (path : bytes) : list bytes := [path; #"--port"; #"0"; #"--dir"; #"/nonexistent"].

Definition server_port (eof : bool) (out : bytes) : Cli.outcome (option Z) :=
  match port_loop (S (length out)) eof out with
  | Cli.Done port => Cli.Done (if (port =? 0)%Z then None else Some port)
  | Cli.Blocks => Cli.Blocks
  | Cli.Broken u => Cli.Broken u
  end.

(** The request for one command of a batch. *)
Definition pipeline_request (is_get : bool) (k : Z) (req : Buffer) : Buffer :=
  let key := #"key:" ++ fmt_d k in
  let kl := Z.of_nat (length key) in
  if is_get then
    let req := buffer_append req (#"*2" ++ CRLF ++ #"$3" ++ CRLF ++ #"GET" ++ CRLF ++ #"$" ++ fmt_d kl ++ CRLF) in
    let req := buffer_append req key in
    buffer_append req CRLF
  else
    let req := buffer_append req (#"*3" ++ CRLF ++ #"$3" ++ CRLF ++ #"SET" ++ CRLF ++ #"$" ++ fmt_d kl ++ CRLF) in
    let req := buffer_append req key in
    buffer_append_str req (CRLF ++ #"$5" ++ CRLF ++ #"value" ++ CRLF).

(** The requests of a batch, and the state of [rng] after it.  Only the bytes
    of the request buffer matter, not the capacity it keeps between batches. *)
Fixpoint batch_requests (batch : nat) (n sent : Z) (is_get : bool) (rng : Z) (req : Buffer) : Buffer * Z :=
  match batch with
  | O => (req, rng)
  | S batch' =>
      let rng := if is_get then rng_next rng else rng in
      let k := if is_get then (rng mod n)%Z else sent in
      batch_requests batch' n (sent + 1) is_get rng (pipeline_request is_get k req)
  end.

(** Sending a batch on a socket that blocks: [None] is [exit(1)]. *)
Fixpoint write_all (ws : list Server.write_result) (left sent : bytes)
    : Cli.outcome (option (list Server.write_result * bytes)) :=
  match left with
  | [] => Cli.Done (Some (ws, sent))
  | _ :: _ =>
      match ws with
      | [] => Cli.Blocks
      | Server.Write_sent (S k) :: ws' => write_all ws' (drop (S k) left) (sent ++ take (S k) left)
      | _ :: _ => Cli.Done None
      end
  end.

(** The inner loop: the replies that are complete, at most [missing] of them.
    Each takes at least a byte. *)
Fixpoint take_replies (fuel missing : nat) (inb : Buffer) : res (nat * Buffer) :=
  match fuel, missing with
  | S fuel', S missing' =>
      if blen inb =? 0 then Ret (missing, inb)
      else match resp_parse_reply (data inb) with
           | RESP_PARSE_OK (_, used) => take_replies fuel' missing' (buffer_consume inb used)
           | RESP_PARSE_INCOMPLETE | RESP_PARSE_ERROR => Ret (missing, inb)
           | RESP_UNDEF u => Undef u
           end
  | _, _ => Ret (missing, inb)
  end.

(** Waiting for the replies of a batch. *)
Fixpoint read_replies (rs : list Server.read_result) (missing : nat) (inb : Buffer)
    : Cli.outcome (option (list Server.read_result * Buffer)) :=
  match take_replies (blen inb) missing inb with
  | Undef u => Cli.Broken u
  | Ret (O, inb) => Cli.Done (Some (rs, inb))
  | Ret (missing, inb) =>
      match rs with
      | [] => Cli.Blocks
      | Server.Read_data chunk :: rs' =>
          if length chunk =? 0 then Cli.Done None else read_replies rs' missing (buffer_append inb chunk)
      | _ :: _ => Cli.Done None
      end
  end.

(** The connection: what the socket will answer, the bytes sent, the bytes
    received that belong to no reply yet, and the state of [rng]. *)
Record Wire := mkWire {
  wi_writes : list Server.write_result;
  wi_reads : list Server.read_result;
  wi_sent : bytes;
  wi_in : Buffer;
  wi_rng : Z;
}.

(** The loop of [run_pipeline] from [sent] on.  Every batch has at least one
    command, so [n] is enough fuel. *)
Fixpoint pipeline_loop (fuel : nat) (n sent depth : Z) (is_get : bool) (w : Wire) : Cli.outcome (option Wire) :=
  match fuel with
  | O => Cli.Done (Some w)
  | S fuel' =>
      if (sent <? n)%Z then
        let batch := if (n - sent <? depth)%Z then (n - sent)%Z else depth in
        let '(req, rng) := batch_requests (Z.to_nat batch) n sent is_get (wi_rng w) buffer_init in
        match write_all (wi_writes w) (data req) (wi_sent w) with
        | Cli.Done (Some (ws, out)) =>
            match read_replies (wi_reads w) (Z.to_nat batch) (wi_in w) with
            | Cli.Done (Some (rs, inb)) => pipeline_loop fuel' n (sent + depth) depth is_get (mkWire ws rs out inb rng)
            | Cli.Done None => Cli.Done None
            | Cli.Blocks => Cli.Blocks
            | Cli.Broken u => Cli.Broken u
            end
        | Cli.Done None => Cli.Done None
        | Cli.Blocks => Cli.Blocks
        | Cli.Broken u => Cli.Broken u
        end
      else Cli.Done (Some w)
  end.

Definition run_pipeline (n depth : Z) (is_get : bool) (w : Wire) : Cli.outcome (option Wire) :=
  pipeline_loop (S (Z.to_nat n)) n 0 depth is_get
    {| wi_writes := wi_writes w; wi_reads := wi_reads w; wi_sent := wi_sent w; wi_in := buffer_init; wi_rng := wi_rng w |}.

(** ** Options *)

(** [main]: the number of operations and the server, or the usage. *)
Fixpoint options (args : list bytes) (n : Z) (server : option bytes) : option (Z * option bytes) :=
  match args with
  | [] => Some (n, server)
  | a :: rest =>
      if streq a #"--quick" then options rest 20000 server
      else match rest with
           | b :: rest' =>
               if streq a #"-n" then options rest' (atol b) server
               else if streq a #"--server" then options rest' n (Some b)
               else None
           | [] => None
           end
  end.

Definition DEFAULT_N : Z := 200000.

(** The operations of each run of [bench_network], with the depth. *)
Definition network_runs (n : Z) : list (Z * Z * bool) :=
  d ← [1; 32]%Z;
  let ops := if (d =? 1)%Z then Z.quot n 4 else n in
  [(ops, d, false); (ops, d, true)].

(** ** Evaluated *)

Definition tick (i : nat) : Z * Z := (Z.of_nat i, Z.of_nat i).

Example bench_small : ∃ b, bench_store tick 3 fresh_state = Ret ((3, 2000 * 18, []), b)%Z.
Proof. eexists. vm_compute. reflexivity. Qed.

End Bench.
