(* ===== verification/BenchProps.v ===== *)
(** * The benchmark runs as intended

    With a positive number of operations every phase of [bench_store] is
    defined and every read hits; without one it reads a pointer that was never
    set.  Requests of the network layer are the commands the server parses, and
    a batch ends exactly when its replies have arrived. *)

From S2P Require Import Prelude CLib Util Reply Resp RespProps Dbl DblArith DList Stream Store StoreInv StoreSpec StoreRefine Server Cli CliProps Config Rdb EventLoop Boot Bench.
Import Util Reply Resp RespProps Dbl DblArith DList Stream Store StoreInv StoreSpec StoreRefine Config Rdb Boot Bench.

Module BenchProps.

Section store.
Context (clock : nat → Z * Z).

(** Nothing the benchmark stores expires. *)
Definition lasting (ks : keyspace) : Prop := map_Forall (λ _ v, v.1 = 0%Z) ks.

(** The store stands for [ks] at the time of the next call. *)
Definition stands_for (b : State) (ks : keyspace) : Prop :=
  refines (clock (b_calls b)).1 (b_store b) ks ∧ lasting ks.

Lemma lasting_live now ks : lasting ks → live now ks = ks.
Proof.
  intros Hl. apply map_eq. intros k. rewrite live_lookup. destruct (ks !! k) as [[x v]|] eqn:Hk; [|done].
  pose proof (Hl k _ Hk) as Hx. cbn in Hx. by subst x.
Qed.

Lemma lasting_insert ks k v : lasting ks → lasting (<[k := (0%Z, v)]> ks).
Proof. intros Hl. by apply map_Forall_insert_2. Qed.

Lemma lasting_put ks k v : lasting ks → lasting (put ks k v).
Proof.
  intros Hl. apply map_Forall_insert_2; [|done]. cbn. destruct (ks !! k) as [[x w]|] eqn:Hk; [|done]. apply (Hl k _ Hk).
Qed.

Hypothesis clock_mono : ∀ i, ((clock i).1 ≤ (clock (S i)).1)%Z.

(** A call is the operation [o] of the interface; [ans] is how its result is
    seen there. *)
Lemma call_sim {A} (f : Store → Z → Z → res (Store * A)) (ans : A → answer) o b ks :
  (∀ s now now', exec s o now now' = r ← f s now now'; Ret (r.1, ans r.2)) → op_ok o → stands_for b ks →
  let after := spec ks o (clock (b_calls b)).1 (clock (b_calls b)).2 in
  lasting after.1 →
  ∃ a b', call clock f b = Ret (a, b') ∧ ans a = after.2 ∧ stands_for b' after.1 ∧ b_rng b' = b_rng b.
Proof.
  intros Hf Hok [HR Hl] after Hl'. destruct (exec_sim (clock (b_calls b)).1 (clock (b_calls b)).2 _ _ o HR Hok)
    as (s' & He & HR'). rewrite Hf in He. apply res_bind_inv in He as ([s1 a] & He & [= <- Ha]).
  exists a. eexists. split; [unfold call; rewrite He; reflexivity|]. split; [exact Ha|]. split; [|done]. split; [|done].
  cbn [b_calls b_store]. rewrite <- (lasting_live (clock (S (b_calls b))).1) by done.
  apply (refines_tick (clock (b_calls b)).1); [apply clock_mono|exact HR'].
Qed.

(** A loop keeps an invariant of the counter, the accumulator and the keyspace. *)
Lemma for_loop_inv {A} (I : Z → A → keyspace → Prop) (body : Z → A → BM A) n i acc b ks :
  (∀ i acc b ks, I i acc ks → stands_for b ks → ∃ acc' b' ks', body i acc b = Ret (acc', b') ∧ stands_for b' ks' ∧
    I (i + 1)%Z acc' ks') →
  I i acc ks → stands_for b ks →
  ∃ acc' b' ks', for_loop n i body acc b = Ret (acc', b') ∧ stands_for b' ks' ∧ I (i + Z.of_nat n)%Z acc' ks'.
Proof.
  intros Hb. revert i acc b ks. induction n as [|n IH]; intros i acc b ks HI Hs.
  { exists acc, b, ks. by rewrite Z.add_0_r. }
  destruct (Hb i acc b ks HI Hs) as (acc1 & b1 & ks1 & H1 & Hs1 & HI1).
  destruct (IH _ _ _ _ HI1 Hs1) as (acc2 & b2 & ks2 & H2 & Hs2 & HI2). exists acc2, b2, ks2.
  cbn [for_loop]. unfold mbind, BM_bind. rewrite H1. split; [exact H2|]. split; [done|].
  by replace (i + Z.of_nat (S n))%Z with (i + 1 + Z.of_nat n)%Z by lia.
Qed.

(** Only SET with an expiry makes a key that does not last. *)
Lemma spec_lasting ks o now now' :
  lasting ks → match o with OP_set _ _ x => x = 0%Z | _ => True end → lasting (spec ks o now now').1.
Proof.
  intros Hl Ho. destruct o; cbn [spec]; try done.
  - by apply map_Forall_delete.
  - subst. rewrite lasting_live; by apply lasting_insert.
  - destruct (typed _ _ _ _); [done|]. destruct (parse_int64 _); [|done]. destruct (in_i64 _); [by apply lasting_put|done].
  - destruct (typed _ _ _ _); [done|]. by apply lasting_put.
  - destruct (typed _ _ _ _); [done|]. destruct (pop_list _ _) as [[x xs]|]; [|done]. cbn.
    destruct (decide _); [by apply map_Forall_delete|by apply lasting_put].
  - destruct (typed _ _ _ _); [done|]. by apply lasting_put.
  - destruct (typed _ _ _ _); [done|]. cbn. destruct (decide _); [by apply map_Forall_delete|by apply lasting_put].
  - destruct (typed _ _ _ _); [done|]. destruct (zadd_list _ _ _). by apply lasting_put.
  - destruct (typed _ _ _ _); [done|]. destruct (resolve_new_id _ _ _); [done|]. by apply lasting_put.
Qed.

(** A call whose result is dropped, in a loop that only keeps the store in order. *)
Lemma call_drop {A} (f : Store → Z → Z → res (Store * A)) (ans : A → answer) o b ks :
  (∀ s now now', exec s o now now' = r ← f s now now'; Ret (r.1, ans r.2)) → op_ok o →
  match o with OP_set _ _ x => x = 0%Z | _ => True end → stands_for b ks →
  ∃ b', (call clock f;; mret tt) b = Ret (tt, b') ∧
    stands_for b' (spec ks o (clock (b_calls b)).1 (clock (b_calls b)).2).1.
Proof.
  intros Hf Hok Ho Hs. destruct (call_sim f ans o b ks Hf Hok Hs) as (a & b' & Hc & _ & Hs' & _).
  { apply spec_lasting; [apply Hs|done]. }
  exists b'. split; [|done]. unfold mbind, BM_bind. by rewrite Hc.
Qed.

(** ** The phases *)

Definition LIST : bytes := #"list".

Lemma other_label c prefix i : head prefix = Some c → c ≠ "l"%char → label prefix i ≠ LIST.
Proof. intros Hh Hc Heq. destruct prefix as [|d prefix]; [done|]. injection Hh as ->. by injection Heq as -> _. Qed.

(** The keys below [i] hold strings. *)
Definition keys_below (i : Z) (ks : keyspace) : Prop :=
  ∀ j, (0 ≤ j < i)%Z → ∃ v, ks !! label #"key:" j = Some (0%Z, A_str v).

Lemma set_phase_run n b ks : stands_for b ks → ks !! LIST = None →
  ∃ b' ks', set_phase clock n b = Ret (tt, b') ∧ stands_for b' ks' ∧ keys_below n ks' ∧ ks' !! LIST = None.
Proof.
  intros Hs Hn. destruct (for_loop_inv (λ i _ ks, keys_below i ks ∧ ks !! LIST = None)
    (λ i _, call clock (λ s now _, Ret (store_set s (label #"key:" i) (label #"value:" i) 0 now, tt)))
    (Z.to_nat n) 0 tt b ks) as ([] & b' & ks' & Hr & Hs' & Hk & Hl).
  - clear -clock_mono. intros i [] b ks [Hk Hl] Hs.
    destruct (call_sim (λ s now _, Ret (store_set s (label #"key:" i) (label #"value:" i) 0 now, tt)) (λ _, R_unit)
      (OP_set (label #"key:" i) (label #"value:" i) 0) b ks) as ([] & b' & Hc & _ & Hs' & _); [done..| |].
    { apply spec_lasting; [apply Hs|done]. }
    eexists tt, b', _. split; [exact Hc|]. split; [exact Hs'|]. cbn [spec fst].
    rewrite lasting_live by (apply lasting_insert, Hs). split.
    + intros j Hj. destruct (decide (label #"key:" i = label #"key:" j)) as [<-|Hne].
      * rewrite lookup_insert_eq. eauto.
      * rewrite lookup_insert_ne by done. apply Hk. destruct (decide (j = i)) as [->|]; [done|lia].
    + rewrite lookup_insert_ne by (by eapply other_label). done.
  - split; [|done]. intros j Hj. lia.
  - done.
  - exists b', ks'. split; [exact Hr|]. split; [done|]. split; [|done].
    destruct (decide (0 ≤ n)%Z); [by rewrite Z2Nat.id in Hk by done|]. intros j Hj. lia.
Qed.

Lemma get_phase_run n b ks : (0 < n)%Z → stands_for b ks → keys_below n ks → ks !! LIST = None →
  ∃ b' ks', get_phase clock n b = Ret (n, b') ∧ stands_for b' ks' ∧ ks' !! LIST = None.
Proof.
  intros Hpos Hs Hk Hn. destruct (for_loop_inv (λ i hits ks, hits = i ∧ keys_below n ks ∧ ks !! LIST = None)
    (λ _ hits, x ← rng; st ← call clock (λ s now _, Ret (store_get s (label #"key:" (x mod n)%Z) now));
       mret (match st with inr _ => hits + 1 | inl _ => hits end)%Z)
    (Z.to_nat n) 0 0%Z b ks) as (hits & b' & ks' & Hr & Hs' & Hh & _ & Hl).
  - clear -clock_mono Hpos. intros i hits b ks (-> & Hk & Hl) Hs. set (x := rng_next (b_rng b)).
    destruct (call_sim (λ s now _, Ret (store_get s (label #"key:" (x mod n)%Z) now)) (out R_bytes)
      (OP_get (label #"key:" (x mod n)%Z)) {| b_store := b_store b; b_rng := x; b_calls := b_calls b |} ks)
      as (st & b' & Hc & Ha & Hs' & _); [done|done|exact Hs|apply Hs|].
    exists (i + 1)%Z, b', ks. split; [|by split].
    cbn [spec snd] in Ha. unfold typed in Ha. destruct (Hk (x mod n)%Z) as [v Hv]; [by apply Z.mod_pos_bound|].
    rewrite Hv in Ha. unfold mbind, BM_bind, rng. fold x. rewrite Hc. by destruct st.
  - done.
  - done.
  - rewrite Z2Nat.id in Hh by lia. exists b', ks'. cbn in Hh. subst hits. split; [exact Hr|done].
Qed.

Lemma hset_phase_run n b ks : stands_for b ks → ks !! LIST = None →
  ∃ b' ks', hset_phase clock n b = Ret (tt, b') ∧ stands_for b' ks' ∧ ks' !! LIST = None.
Proof.
  intros Hs Hn. destruct (for_loop_inv (λ _ _ ks, ks !! LIST = None)
    (λ i _, call clock (λ s now _, Ret (store_hash_set s (label #"hash:" (Z.rem i 1000)) (label #"f" i) #"v" now));; mret tt)
    (Z.to_nat n) 0 tt b ks) as ([] & b' & ks' & Hr & Hs' & Hl); [|done|done|by exists b', ks'].
  clear -clock_mono. intros i [] b ks Hl Hs.
  destruct (call_drop (λ s now _, Ret (store_hash_set s (label #"hash:" (Z.rem i 1000)) (label #"f" i) #"v" now)) (out R_int)
    (OP_hset (label #"hash:" (Z.rem i 1000)) (label #"f" i) #"v") b ks) as (b' & Hc & Hs'); [done..|].
  eexists tt, b', _. split; [exact Hc|]. split; [exact Hs'|]. cbn [spec]. destruct (typed _ _ _ _); [done|].
  cbn [fst]. unfold put. rewrite lookup_insert_ne by (by eapply other_label). done.
Qed.

(** The items below [i]. *)
Definition items (i : Z) : list bytes := (λ j, label #"item:" (Z.of_nat j)) <$> seq 0 (Z.to_nat i).

Lemma items_next i : (0 ≤ i)%Z → items (i + 1) = items i ++ [label #"item:" i].
Proof.
  intros Hi. unfold items. replace (Z.to_nat (i + 1)) with (S (Z.to_nat i)) by lia. rewrite seq_S, fmap_app. cbn.
  by rewrite Z2Nat.id.
Qed.

Lemma push_phase_run n b ks : (0 < n)%Z → stands_for b ks → ks !! LIST = None →
  ∃ b' ks', push_phase clock n b = Ret (tt, b') ∧ stands_for b' ks' ∧ ks' !! LIST = Some (0%Z, A_list (items n)).
Proof.
  intros Hpos Hs Hn. destruct (for_loop_inv (λ i _ ks, (0 ≤ i)%Z ∧
      ks !! LIST = if (i =? 0)%Z then None else Some (0%Z, A_list (items i)))
    (λ i _, call clock (λ s now _, store_list_push s #"list" (label #"item:" i) false now);; mret tt)
    (Z.to_nat n) 0 tt b ks) as ([] & b' & ks' & Hr & Hs' & _ & Hl); [|done|done|].
  - clear -clock_mono. intros i [] b ks [Hi Hl] Hs.
    destruct (call_drop (λ s now _, store_list_push s #"list" (label #"item:" i) false now) (out (λ n, R_int (Z.of_nat n)))
      (OP_push #"list" (label #"item:" i) false) b ks) as (b' & Hc & Hs'); [done..|].
    eexists tt, b', _. split; [exact Hc|]. split; [exact Hs'|]. split; [lia|]. cbn [spec]. fold LIST. unfold typed, put.
    destruct (Z.eqb_spec (i + 1) 0) as [|_]; [lia|]. rewrite items_next, Hl by done.
    destruct (Z.eqb_spec i 0) as [->|Hne]; cbn [a_list fst]; by rewrite lookup_insert_eq.
  - exists b', ks'. split; [exact Hr|]. split; [done|]. rewrite Z2Nat.id, Z.add_0_l in Hl by lia.
    destruct (Z.eqb_spec n 0); [lia|done].
Qed.

(** The bytes of the first 100 values. *)
Definition total (xs : list bytes) : Z := foldr (λ x z, (Z.of_nat (length x) + z)%Z) 0%Z xs.

Lemma total_cons x xs : total (x :: xs) = (Z.of_nat (length x) + total xs)%Z.
Proof. done. Qed.

Lemma scan_nodes_total l ps xs n i z : list_rep l ps xs →
  scan_nodes n l (ps !! i) z = Ret (z + total (take n (drop i xs)))%Z.
Proof.
  intros Hr. revert i z. induction n as [|n IH]; intros i z; cbn [scan_nodes]; [by rewrite take_0, Z.add_0_r|].
  destruct (ps !! i) as [p|] eqn:Hp.
  - destruct (rep_lookup _ _ _ _ _ Hr Hp) as [x Hx]. unfold deref. rewrite (rep_node _ _ _ Hr _ _ _ Hp Hx). cbn.
    rewrite IH, (drop_S _ _ _ Hx). cbn [take]. rewrite total_cons. f_equal. lia.
  - apply lookup_ge_None in Hp. rewrite (rep_length _ _ _ Hr) in Hp. rewrite drop_ge by done. cbn. by rewrite Z.add_0_r.
Qed.

(** Reading a list that is there. *)
Lemma get_list_run now s ks k x xs : refines now s ks → ks !! k = Some (x, A_list xs) →
  ∃ s' l ps, store_get_list s k now = (s', inr l) ∧ refines now s' ks ∧ list_rep l ps xs.
Proof.
  intros HR Hk. unfold store_get_list.
  destruct (refines_typed as_list a_list list_elems now s ks k ltac:(by intros []) HR) as (s' & r & -> & HR' & Hr).
  destruct r as [[]|l]; try done.
  - destruct Hr as [Hn _]. congruence.
  - destruct Hr as (y & v & Hv & Hn). rewrite Hk in Hv. by injection Hv as <- <-.
  - destruct Hr as (e & _ & Hpe & Hn & _ & _ & Hwf). rewrite Hk in Hn. unfold absE in Hn. injection Hn as _ Hn.
    destruct (e_v e) as [|l'| | |]; try discriminate Hpe. injection Hpe as ->. injection Hn as Hxs.
    destruct Hwf as [Hwf _]. apply list_wf_elems in Hwf as [ps Hrep]. exists s', l, ps. by rewrite Hxs.
Qed.

Lemma scan_phase_run b ks xs : stands_for b ks → ks !! LIST = Some (0%Z, A_list xs) →
  ∃ b' ks', scan_phase clock b = Ret ((2000 * total (take 100 xs))%Z, b') ∧ stands_for b' ks'.
Proof.
  intros Hs Hn. set (t := total (take 100 xs)).
  destruct (for_loop_inv (λ i scanned ks, scanned = (i * t)%Z ∧ ks !! LIST = Some (0%Z, A_list xs))
    (λ _ scanned, r ← call clock (λ s now _, Ret (store_get_list s #"list" now));
      match r with
      | inl _ => lift (Undef UB_uninitialised)
      | inr l => lift (scan_nodes 100 l (l_head l) scanned)
      end) SCANS 0 0%Z b ks) as (scanned & b' & ks' & Hr & Hs' & Hi & _); [|done|done|].
  - clear -clock_mono. intros i scanned b ks [-> Hl] [HR Hlast].
    destruct (get_list_run _ _ _ _ _ _ HR Hl) as (s' & l & ps & Hg & HR' & Hrep).
    exists ((i + 1) * t)%Z, {| b_store := s'; b_rng := b_rng b; b_calls := S (b_calls b) |}, ks.
    split; [|split; [|by split]].
    + unfold mbind, BM_bind, call. cbn [mbind res_bind]. unfold LIST in Hg. rewrite Hg. cbn [fst snd]. unfold lift.
      rewrite (rep_head _ _ _ Hrep), head_lookup, (scan_nodes_total _ _ _ _ _ _ Hrep), drop_0. fold t.
      do 2 f_equal. lia.
    + split; [|done]. cbn [b_calls b_store]. rewrite <- (lasting_live (clock (S (b_calls b))).1) by done.
      by apply (refines_tick (clock (b_calls b)).1).
  - exists b', ks'. split; [|done]. replace (2000 * t)%Z with scanned by (rewrite Hi; unfold SCANS; lia).
    exact Hr.
Qed.

(** The phases whose results are dropped. *)
Lemma dropping_phase {A} (n : nat) (ops : Z → Z → op) (f : Z → Z → Store → Z → Z → res (Store * A)) (ans : A → answer)
    (draw : bool) b ks :
  (∀ i x s now now', exec s (ops i x) now now' = r ← f i x s now now'; Ret (r.1, ans r.2)) →
  (∀ i x, op_ok (ops i x) ∧ match ops i x with OP_set _ _ y => y = 0%Z | _ => True end) →
  stands_for b ks →
  ∃ b' ks', for_loop n 0 (λ i _, x ← (if draw then rng else mret 0%Z); call clock (f i x);; mret tt) tt b = Ret (tt, b') ∧
    stands_for b' ks'.
Proof.
  intros Hf Hok Hs. destruct (for_loop_inv (λ _ _ _, True)
    (λ i (_ : ()), x ← (if draw then rng else mret 0%Z); call clock (f i x);; mret tt) n 0 tt b ks)
    as ([] & b' & ks' & Hr & Hs' & _); [|done|done|by exists b', ks'].
  clear b ks Hs. intros i [] b ks _ Hs.
  set (x := if draw then rng_next (b_rng b) else 0%Z).
  set (b1 := {| b_store := b_store b; b_rng := if draw then x else b_rng b; b_calls := b_calls b |}).
  destruct (call_drop (f i x) ans (ops i x) b1 ks) as (b' & Hc & Hs'); [apply Hf|apply Hok|apply Hok|exact Hs|].
  eexists tt, b', _. split; [|by split]. rewrite <- Hc. unfold x, b1. destruct draw; [done|]. by destruct b.
Qed.

Lemma zadd_phase_run n b ks : stands_for b ks → ∃ b' ks', zadd_phase clock n b = Ret (tt, b') ∧ stands_for b' ks'.
Proof.
  apply (dropping_phase (Z.to_nat n) (λ i x, OP_zadd #"leaderboard" (of_int (x mod 1000000)) (label #"player:" i))
    (λ i x s now _, store_zset_add s #"leaderboard" (of_int (x mod 1000000)%Z) (label #"player:" i) now) (out R_int) true);
    [done|]. intros i x. split; [|done]. apply valid_not_nan, of_int_valid.
Qed.

Lemma zscore_phase_run n b ks : stands_for b ks → ∃ b' ks', zscore_phase clock n b = Ret (tt, b') ∧ stands_for b' ks'.
Proof.
  by apply (dropping_phase (Z.to_nat n) (λ i x, OP_zscore #"leaderboard" (label #"player:" (x mod n)%Z))
    (λ i x s now _, Ret (store_zset_score s #"leaderboard" (label #"player:" (x mod n)%Z) now)) (out R_dbl) true).
Qed.

Lemma xadd_phase_run n b ks : stands_for b ks → ∃ b' ks', xadd_phase clock n b = Ret (tt, b') ∧ stands_for b' ks'.
Proof.
  by apply (dropping_phase (Z.to_nat n) (λ i x, OP_xadd #"events" #"*" [( #"sensor", #"temp-1"); ( #"reading", #"21.5")])
    (λ i x s now now', Ret (store_stream_add s #"events" #"*" [( #"sensor", #"temp-1"); ( #"reading", #"21.5")] now now'))
    (out R_id) false).
Qed.

Lemma bench_store_run n : (0 < n)%Z →
  ∃ b, bench_store clock n fresh_state = Ret ((n, 2000 * total (take 100 (items n)), [])%Z, b).
Proof.
  intros Hpos. assert (stands_for fresh_state ∅) as H0 by (split; [apply refines_create_store|apply map_Forall_empty]).
  destruct (set_phase_run n _ _ H0 (lookup_empty _)) as (b1 & ks1 & Hr1 & H1 & Hk & Hl1).
  destruct (get_phase_run n _ _ Hpos H1 Hk Hl1) as (b2 & ks2 & Hr2 & H2 & Hl2).
  destruct (hset_phase_run n _ _ H2 Hl2) as (b3 & ks3 & Hr3 & H3 & Hl3).
  destruct (push_phase_run n _ _ Hpos H3 Hl3) as (b4 & ks4 & Hr4 & H4 & Hl4).
  destruct (scan_phase_run _ _ _ H4 Hl4) as (b5 & ks5 & Hr5 & H5).
  destruct (zadd_phase_run (Z.quot n 10) _ _ H5) as (b6 & ks6 & Hr6 & H6).
  destruct (zscore_phase_run (Z.quot n 10) _ _ H6) as (b7 & ks7 & Hr7 & H7).
  destruct (xadd_phase_run n _ _ H7) as (b8 & ks8 & Hr8 & _). exists b8.
  unfold bench_store, mbind, BM_bind. rewrite Hr1, Hr2, Z.eqb_refl. cbv zeta.
  by rewrite Hr3, Hr4, Hr5, Hr6, Hr7, Hr8.
Qed.

End store.

Lemma bench_store_idle (clock : nat → Z * Z) (n : Z) :
  (n ≤ 0)%Z → bench_store clock n fresh_state = Undef UB_uninitialised.
Proof.
  intros Hn. unfold bench_store, set_phase, get_phase, hset_phase, push_phase, scan_phase.
  replace (Z.to_nat n) with 0 by lia. replace SCANS with (S (Z.to_nat 1999)) by (unfold SCANS; lia).
  unfold mbind, BM_bind. cbn [for_loop]. reflexivity.
Qed.

(** C35: with a positive number of operations the store benchmark runs to its end
    without undefined behaviour, on any readings of a clock that does not go
    back; every random read finds its key, so no warning is printed, and each of
    the 2000 scans adds up the lengths of the first 100 items of the list.
    Without operations - [-n 0], or a number that [atol] does not understand -
    it uses the pointer [list], which nothing has set. *)
Theorem bench_store_outcome (clock : nat → Z * Z) (n : Z) :
  (∀ i, ((clock i).1 ≤ (clock (S i)).1)%Z) →
  if (0 <? n)%Z then ∃ b, bench_store clock n fresh_state = Ret ((n, 2000 * total (take 100 (items n)), [])%Z, b)
  else bench_store clock n fresh_state = Undef UB_uninitialised.
Proof.
  intros Hc. destruct (Z.ltb_spec 0 n); [by apply bench_store_run|by apply bench_store_idle].
Qed.

Lemma bench_store_outcome_witness :
  (∃ b, bench_store tick 3 fresh_state = Ret ((3, 2000 * 18, [])%Z, b)) ∧
  options [ #"-n"; #"many"] DEFAULT_N None = Some (0%Z, None) ∧ bench_store tick 0 fresh_state = Undef UB_uninitialised.
Proof.
  assert (∀ i, ((tick i).1 ≤ (tick (S i)).1)%Z) as Hc by (intros i; cbn; lia).
  split; [exact (bench_store_outcome tick 3 Hc)|]. split; [vm_compute; reflexivity|exact (bench_store_outcome tick 0 Hc)].
Defined.

(** ** The network layer *)

(** A request is the array of words. *)
Definition request_words (is_get : bool) (k : Z) : list bytes :=
  let key := #"key:" ++ fmt_d k in if is_get then [ #"GET"; key] else [ #"SET"; key; #"value"].

Definition key_at (n sent : Z) (is_get : bool) (rng : Z) : Z := if is_get then (rng mod n)%Z else sent.

(** The words of a batch. *)
Fixpoint batch_words (batch : nat) (n sent : Z) (is_get : bool) (rng : Z) : list (list bytes) :=
  match batch with
  | O => []
  | S batch' =>
      let rng := if is_get then rng_next rng else rng in
      request_words is_get (key_at n sent is_get rng) :: batch_words batch' n (sent + 1) is_get rng
  end.

Definition enc_words (ws : list bytes) : bytes := enc_value (RESP_ARRAY (RESP_BULK_STRING <$> ws)).

Lemma pipeline_request_data is_get k req :
  data (pipeline_request is_get k req) = data req ++ enc_words (request_words is_get k).
Proof.
  unfold pipeline_request. destruct is_get; cbv zeta; unfold buffer_append_str; rewrite !buffer_append_data, <- !app_assoc.
  all: rewrite fmt_d_nat; unfold enc_words, request_words; cbn [fmap list_fmap enc_value concat]; unfold enc_bulk.
  all: generalize (dec_of (Z.of_nat (length ( #"key:" ++ fmt_d k)))) as kl; generalize (fmt_d k) as ds; intros ds kl.
  all: f_equal; rewrite app_nil_r, <- !app_assoc; reflexivity.
Qed.

(** The state of [rng] after a batch. *)
Definition rng_after (batch : nat) (is_get : bool) (rng : Z) : Z := if is_get then Nat.iter batch rng_next rng else rng.

Lemma iter_next batch x : Nat.iter batch rng_next (rng_next x) = Nat.iter (S batch) rng_next x.
Proof. induction batch as [|batch IH]; [done|]. cbn. by f_equal. Qed.

Lemma batch_requests_data batch n sent is_get rng req :
  data (batch_requests batch n sent is_get rng req).1 = data req ++ concat (enc_words <$> batch_words batch n sent is_get rng) ∧
  (batch_requests batch n sent is_get rng req).2 = rng_after batch is_get rng.
Proof.
  revert sent rng req. induction batch as [|batch IH]; intros sent rng req; cbn [batch_requests batch_words].
  { rewrite app_nil_r. by destruct is_get. }
  destruct (IH (sent + 1)%Z (if is_get then rng_next rng else rng)
    (pipeline_request is_get (key_at n sent is_get (if is_get then rng_next rng else rng)) req)) as [H1 H2].
  unfold key_at in H1, H2. destruct is_get; rewrite H1, H2, pipeline_request_data, fmap_cons; cbn [concat];
    (split; [by rewrite <- app_assoc|]); [|done]. apply iter_next.
Qed.

Lemma batch_words_split a b n sent is_get rng :
  batch_words (a + b) n sent is_get rng =
  batch_words a n sent is_get rng ++ batch_words b n (sent + Z.of_nat a) is_get (rng_after a is_get rng).
Proof.
  revert sent rng. induction a as [|a IH]; intros sent rng.
  { cbn. rewrite Z.add_0_r. by destruct is_get. }
  cbn [Nat.add batch_words app]. rewrite IH. f_equal. f_equal.
  f_equal; [lia|]. destruct is_get; [|done]. apply iter_next.
Qed.

(** *** Sockets that work *)

Definition good_write (w : Server.write_result) : Prop := match w with Server.Write_sent (S _) => True | _ => False end.
Definition good_read (r : Server.read_result) : Prop := match r with Server.Read_data (_ :: _) => True | _ => False end.

Lemma write_all_run ws left sent :
  Forall good_write ws → length left ≤ length ws →
  ∃ ws', write_all ws left sent = Cli.Done (Some (ws', sent ++ left)) ∧ Forall good_write ws' ∧ length ws ≤ length ws' + length left.
Proof.
  revert left sent. induction ws as [|w ws IH]; intros left sent Hws Hl.
  { destruct left; [|cbn in Hl; lia]. exists []. cbn. by rewrite app_nil_r. }
  destruct left as [|c left']; [exists (w :: ws); cbn; rewrite app_nil_r; split; [done|]; split; [done|lia]|].
  set (left := c :: left') in *. pose proof Hws as [Hw Hws']%Forall_cons. unfold left at 1. cbn [write_all]. fold left.
  destruct w as [[|n]| | |]; try done.
  destruct (IH (drop (S n) left) (sent ++ take (S n) left) Hws') as (ws' & -> & Hg & Hlen).
  - rewrite length_drop. cbn in Hl |- *. lia.
  - exists ws'. rewrite <- app_assoc, take_drop. split; [done|]. split; [done|].
    rewrite length_drop in Hlen. cbn in Hl, Hlen |- *. lia.
Qed.

Local Abbreviation sendable := (RespProps.sendable (S RESP_MAX_DEPTH)).

Lemma enc_value_nonempty v : enc_value v ≠ [].
Proof. by destruct v. Qed.

Lemma parse_here v (b : bytes) x : sendable v → b = enc_value v ++ x →
  resp_parse_reply b = RESP_PARSE_OK (v, length (enc_value v)).
Proof. intros Hv ->. unfold resp_parse_reply. by rewrite (parse_value_here _ v false _ 0 x). Qed.

(** The next value is complete, or more has to come. *)
Lemma next_value v (b more tail : bytes) : sendable v → b ++ more = enc_value v ++ tail →
  (∃ x, b = enc_value v ++ x ∧ x ++ more = tail) ∨ (resp_parse_reply b = RESP_PARSE_INCOMPLETE ∧ more ≠ []).
Proof.
  intros Hv Heq. apply app_eq_inv in Heq as [(x & Hx & Hrest)|(q & Hq & Hrest)]; [left; eauto|].
  destruct (decide (q = [])) as [->|Hne].
  - left. exists []. rewrite app_nil_r in *. split; [congruence|]. done.
  - right. split; [|by intros ->; destruct q]. unfold resp_parse_reply.
    apply (CliProps.parse_value_cut _ v b q); [done|by split; [|lia]|done..].
Qed.

(** What the inner loop takes: all the values that are complete, but not more
    than are missing; if some are missing then more has to come. *)
Lemma take_replies_run fuel missing inb vs rest more :
  Forall sendable vs → missing ≤ length vs → length (data inb) ≤ fuel →
  data inb ++ more = concat (enc_value <$> vs) ++ rest →
  ∃ k inb', take_replies fuel missing inb = Ret (missing - k, inb') ∧ k ≤ missing ∧
    data inb' ++ more = concat (enc_value <$> drop k vs) ++ rest ∧ (k = missing ∨ more ≠ []).
Proof.
  revert missing inb vs. induction fuel as [|fuel IH]; intros missing inb vs Hvs Hm Hf Heq.
  all: destruct missing as [|m]; [exists 0, inb; cbn; split_and!; [done|done|done|by left]|].
  all: destruct vs as [|v vs]; [cbn in Hm; lia|]; pose proof Hvs as [Hv Hvs']%Forall_cons.
  all: pose proof Heq as Heq'; rewrite fmap_cons in Heq'; cbn [concat] in Heq'; rewrite <- app_assoc in Heq'.
  all: destruct (next_value v (data inb) more _ Hv Heq') as [(x & Hx & Hrest)|[Hinc Hmore]].
  - apply (f_equal length) in Hx. rewrite length_app in Hx. pose proof (enc_value_nonempty v).
    destruct (enc_value v); [done|cbn in Hx; lia].
  - exists 0, inb. cbn. split_and!; [done|lia|done|by right].
  - cbn [take_replies]. assert (length (data inb) = length (enc_value v) + length x) as Hlen by (by rewrite Hx, length_app).
    pose proof (enc_value_nonempty v) as Hne. destruct (Nat.eqb_spec (blen inb) 0) as [H0|_].
    { unfold blen in H0. destruct (enc_value v); [done|cbn in Hlen; lia]. }
    rewrite (parse_here v _ x Hv Hx).
    destruct (IH m (buffer_consume inb (length (enc_value v))) vs Hvs') as (k & inb' & Hr & Hk & Hd & Hor).
    + cbn in Hm. lia.
    + rewrite buffer_consume_data, length_drop. destruct (enc_value v); [done|cbn in Hlen |- *; lia].
    + by rewrite buffer_consume_data, Hx, drop_app_length.
    + exists (S k), inb'. split_and!; [done|lia|done|]. destruct Hor as [->|]; [by left|by right].
  - exists 0, inb. cbn [take_replies Nat.sub]. destruct (blen inb =? 0); [|rewrite Hinc].
    all: split_and!; [done|lia|done|by right].
Qed.

Lemma read_replies_run rs missing inb vs rest :
  Forall good_read rs → Forall sendable vs → missing ≤ length vs →
  data inb ++ CliProps.received rs = concat (enc_value <$> vs) ++ rest →
  ∃ rs' inb', read_replies rs missing inb = Cli.Done (Some (rs', inb')) ∧ Forall good_read rs' ∧
    data inb' ++ CliProps.received rs' = concat (enc_value <$> drop missing vs) ++ rest.
Proof.
  revert missing inb vs. induction rs as [|r rs IH]; intros missing inb vs Hrs Hvs Hm Heq.
  all: destruct (take_replies_run (blen inb) missing inb vs rest _ Hvs Hm ltac:(unfold blen; lia) Heq)
    as (k & inb' & Ht & Hk & Hd & Hor); cbn [read_replies]; rewrite Ht.
  all: destruct (missing - k) as [|m'] eqn:Hleft.
  - exists [], inb'. split_and!; [done|done|]. by replace missing with k by lia.
  - exfalso. destruct Hor as [->|Hne]; [lia|done].
  - exists (r :: rs), inb'. split_and!; [done|done|]. by replace missing with k by lia.
  - apply Forall_cons in Hrs as [Hr Hrs]. destruct r as [[|c chunk]| | | |]; try done. cbn [length Nat.eqb].
    destruct (IH (S m') (buffer_append inb' (c :: chunk)) (drop k vs) Hrs) as (rs' & inb2 & Hr2 & Hg & Hd2).
    + by apply Forall_drop.
    + rewrite length_drop. lia.
    + rewrite buffer_append_data, <- app_assoc. exact Hd.
    + exists rs', inb2. split_and!; [exact Hr2|done|]. rewrite drop_drop in Hd2.
      by replace (k + S m') with missing in Hd2 by lia.
Qed.

(** *** The whole run *)

Lemma pipeline_loop_run fuel n sent depth is_get w vs rest :
  let m := Z.to_nat (n - sent) in let words := batch_words m n sent is_get (wi_rng w) in
  (0 < depth)%Z → m < fuel → length vs = m → Forall sendable vs → Forall good_write (wi_writes w) →
  length (concat (enc_words <$> words)) ≤ length (wi_writes w) → Forall good_read (wi_reads w) →
  data (wi_in w) ++ CliProps.received (wi_reads w) = concat (enc_value <$> vs) ++ rest →
  ∃ w', pipeline_loop fuel n sent depth is_get w = Cli.Done (Some w') ∧
    wi_sent w' = wi_sent w ++ concat (enc_words <$> words) ∧ data (wi_in w') ++ CliProps.received (wi_reads w') = rest ∧
    wi_rng w' = rng_after m is_get (wi_rng w).
Proof.
  revert sent w vs. induction fuel as [|fuel IH]; intros sent w vs m words Hdepth Hfuel Hvs Hsend Hw Hlen Hr Heq; [lia|].
  cbn [pipeline_loop]. destruct (Z.ltb_spec sent n) as [Hlt|Hge].
  2: { assert (m = 0) as Hm0 by lia. exists w. unfold words. rewrite Hm0 in *. destruct vs; [|done].
       cbn. rewrite app_nil_r. split_and!; [done|done|done|by destruct is_get]. }
  set (batch := if (n - sent <? depth)%Z then (n - sent)%Z else depth).
  assert (0 < batch ≤ n - sent ∧ (batch = depth ∨ (batch = n - sent ∧ n - sent < depth)))%Z as [Hb Hbd]
    by (unfold batch; destruct (Z.ltb_spec (n - sent) depth); lia).
  destruct (batch_requests_data (Z.to_nat batch) n sent is_get (wi_rng w) buffer_init) as [Hreq Hrng].
  destruct (batch_requests _ _ _ _ _ _) as [req rng1]. cbn [fst snd] in Hreq, Hrng. cbn [data buffer_init app] in Hreq.
  assert (m = Z.to_nat batch + Z.to_nat (n - (sent + batch))) as Hm by lia.
  assert (words = batch_words (Z.to_nat batch) n sent is_get (wi_rng w) ++
    batch_words (Z.to_nat (n - (sent + batch))) n (sent + batch) is_get rng1) as Hwords.
  { unfold words. rewrite Hm, batch_words_split, Hrng. by rewrite Z2Nat.id by lia. }
  rewrite Hwords, fmap_app, concat_app, length_app in Hlen. rewrite <- Hreq in Hlen.
  destruct (write_all_run (wi_writes w) (data req) (wi_sent w) Hw ltac:(lia)) as (ws' & -> & Hw' & Hlen').
  destruct (read_replies_run (wi_reads w) (Z.to_nat batch) (wi_in w) vs rest Hr Hsend ltac:(lia) Heq)
    as (rs' & inb' & -> & Hr' & Hd').
  set (m2 := Z.to_nat (n - (sent + batch))) in *.
  assert (Z.to_nat (n - (sent + depth)) = m2) as Hm2 by lia.
  assert (batch_words m2 n (sent + depth) is_get rng1 = batch_words m2 n (sent + batch) is_get rng1) as Hw2
    by (destruct Hbd as [->|[Hbn Hnd]]; [done|]; assert (m2 = 0) as -> by lia; done).
  destruct (IH (sent + depth)%Z (mkWire ws' rs' (wi_sent w ++ data req) inb' rng1) (drop (Z.to_nat batch) vs))
    as (w' & Hrun & Hsent & Hdata & Hrng'); cbn [wi_writes wi_reads wi_sent wi_in wi_rng] in *; rewrite ?Hm2, ?Hw2 in *;
    [done|lia|rewrite length_drop; lia|by apply Forall_drop|done|lia|done|done|].
  exists w'. split; [exact Hrun|]. split; [|split; [done|]].
  - by rewrite Hsent, Hwords, fmap_app, concat_app, <- Hreq, <- app_assoc.
  - rewrite Hrng', Hrng, Hm. unfold rng_after. destruct is_get; [|done]. by rewrite Nat.add_comm, Nat.iter_add.
Qed.

Lemma batch_words_length batch n sent is_get rng : length (batch_words batch n sent is_get rng) = batch.
Proof. revert sent rng. induction batch as [|batch IH]; intros sent rng; [done|]. cbn. by rewrite IH. Qed.

Lemma batch_words_keys batch n sent is_get rng ws :
  (0 ≤ sent ∧ sent + Z.of_nat batch ≤ n)%Z → ws ∈ batch_words batch n sent is_get rng →
  ∃ k, ws = request_words is_get k ∧ (0 ≤ k < n)%Z.
Proof.
  revert sent rng. induction batch as [|batch IH]; intros sent rng Hs; cbn [batch_words]; [by intros ?%not_elem_of_nil|].
  intros [->|Hin]%elem_of_cons; [|eapply IH, Hin; lia]. eexists. split; [done|]. unfold key_at.
  destruct is_get; [apply Z.mod_pos_bound; lia|lia].
Qed.

Lemma request_words_parsed is_get k more : (0 ≤ k ≤ INT64_MAX)%Z →
  let ws := request_words is_get k in
  resp_parse_command (enc_words ws ++ more) = RESP_PARSE_OK (RESP_ARRAY (RESP_BULK_STRING <$> ws), length (enc_words ws)).
Proof.
  intros Hk ws. unfold enc_words. rewrite <- CliProps.request_data. apply CliProps.server_parses_request.
  assert (length ( #"key:" ++ fmt_d k) ≤ 24) as Hkey
    by (rewrite length_app; pose proof (fmt_d_length k ltac:(unfold INT64_MIN; lia)); cbn; lia).
  unfold CliProps.within_limits, ws, request_words, RESP_MAX_ARRAY_LEN, RESP_MAX_BULK_LEN.
  destruct is_get; (split; [cbn; lia|]); repeat constructor; cbn [length lit]; try lia; cbn; lia.
Qed.

(** C32: a run of the pipeline against a socket that works sends exactly the
    requests of its [n] commands, in order and in batches of [depth], and takes
    exactly [n] replies off what the socket delivers, however it is cut into
    pieces; anything after them is left.  Every request is one that the server
    parses as the command: SET of key [i] to [value], or GET of a random one of
    the [n] keys. *)
Theorem run_pipeline_exact (n depth : Z) (is_get : bool) (w : Wire) (replies : list RespValue) (rest : bytes) :
  let words := batch_words (Z.to_nat n) n 0 is_get (wi_rng w) in
  (0 < depth)%Z → length replies = Z.to_nat n → Forall (RespProps.sendable (S RESP_MAX_DEPTH)) replies →
  Forall good_write (wi_writes w) → length (concat (enc_words <$> words)) ≤ length (wi_writes w) →
  Forall good_read (wi_reads w) → CliProps.received (wi_reads w) = concat (enc_value <$> replies) ++ rest →
  (∃ w', run_pipeline n depth is_get w = Cli.Done (Some w') ∧
    wi_sent w' = wi_sent w ++ concat (enc_words <$> words) ∧ data (wi_in w') ++ CliProps.received (wi_reads w') = rest) ∧
  length words = Z.to_nat n ∧
  ∀ ws, ws ∈ words → (∃ k, ws = request_words is_get k ∧ (0 ≤ k < n)%Z) ∧
    ((n ≤ INT64_MAX)%Z → ∀ more,
      resp_parse_command (enc_words ws ++ more) = RESP_PARSE_OK (RESP_ARRAY (RESP_BULK_STRING <$> ws), length (enc_words ws))).
Proof.
  intros words Hdepth Hlen Hsend Hw Hroom Hr Heq. split; [|split; [apply batch_words_length|]].
  - destruct (pipeline_loop_run (S (Z.to_nat n)) n 0 depth is_get
      {| wi_writes := wi_writes w; wi_reads := wi_reads w; wi_sent := wi_sent w; wi_in := buffer_init; wi_rng := wi_rng w |}
      replies rest) as (w' & Hrun & Hsent & Hdata & _); cbn [wi_writes wi_reads wi_sent wi_in wi_rng]; rewrite ?Z.sub_0_r;
      [done|lia|done..|].
    exists w'. rewrite Z.sub_0_r in Hsent. done.
  - intros ws Hin. unfold words in Hin. destruct (decide (0 ≤ n)%Z) as [Hn|Hn].
    + apply batch_words_keys in Hin as (k & -> & Hk); [|lia]. split; [eauto|]. intros Hmax more.
      apply request_words_parsed. lia.
    + replace (Z.to_nat n) with 0 in Hin by lia. by apply not_elem_of_nil in Hin.
Qed.

(** Three SETs in batches of two, with the replies in two pieces. *)
Definition demo_wire : Wire :=
  {| wi_writes := replicate 200 (Server.Write_sent 7);
     wi_reads := [Server.Read_data (#"+OK" ++ CRLF ++ #"+O"); Server.Read_data (#"K" ++ CRLF ++ #"+OK" ++ CRLF)];
     wi_sent := []; wi_in := buffer_init; wi_rng := RNG_SEED |}.

Lemma run_pipeline_exact_witness : ∃ w', run_pipeline 3 2 false demo_wire = Cli.Done (Some w') ∧
  wi_sent w' = concat (enc_words <$> [[ #"SET"; #"key:0"; #"value"]; [ #"SET"; #"key:1"; #"value"]; [ #"SET"; #"key:2"; #"value"]]).
Proof.
  destruct (run_pipeline_exact 3 2 false demo_wire (replicate 3 (RESP_SIMPLE_STRING #"OK")) []) as [(w' & Hr & Hs & _) _].
  - lia.
  - reflexivity.
  - apply Forall_replicate. split; [|vm_compute; discriminate]. apply (bool_decide_unpack _). vm_compute. exact I.
  - apply Forall_replicate. done.
  - vm_compute. lia.
  - repeat constructor.
  - vm_compute. reflexivity.
  - exists w'. split; [exact Hr|]. rewrite Hs. vm_compute. reflexivity.
Defined.

(** ** Finding the port *)

Lemma fgets_line n s rest : LF ∉ s → length s < n → Cli.fgets_loop n (s ++ LF :: rest) = (s ++ [LF], rest).
Proof.
  revert n. induction s as [|c s IH]; intros n Hs Hn; destruct n as [|n]; try (cbn in Hn; lia); cbn [app Cli.fgets_loop].
  { by rewrite bool_decide_true. }
  apply not_elem_of_cons in Hs as [Hc Hs]. rewrite bool_decide_false by congruence.
  rewrite IH by (try done; cbn in Hn; lia). done.
Qed.

Lemma digits_without d ds : Forall (λ c, is_digit c = true) ds → is_digit d = false → d ∉ ds.
Proof. intros Hds Hd Hin. rewrite Forall_forall in Hds. apply Hds in Hin. congruence. Qed.

Lemma strrchr_last s c more : c ∉ more → strrchr (s ++ c :: more) c = Some (c :: more).
Proof.
  intros Hc. assert (∀ l, c ∉ l → strrchr l c = None) as Hnone.
  { induction l as [|d l IH]; [done|]. intros [Hd Hl]%not_elem_of_cons. cbn. rewrite IH by done.
    by rewrite bool_decide_false by congruence. }
  induction s as [|d s IH]; cbn; [rewrite Hnone by done; by rewrite bool_decide_true|]. by rewrite IH.
Qed.

Lemma take_digits_more ds c more : Forall (λ c, is_digit c = true) ds → is_digit c = false → take_digits (ds ++ c :: more) = ds.
Proof. intros Hds Hc. induction Hds as [|d ds Hd _ IH]; cbn; [by rewrite Hc|]. by rewrite Hd, IH. Qed.

(** A number with something after it. *)
Lemma atol_digits n c more : (0 ≤ n ≤ INT64_MAX)%Z → is_digit c = false → atol (dec_of n ++ c :: more) = n.
Proof.
  intros Hn Hc. unfold atol, strtoll. pose proof (dec_of_digits n ltac:(lia)) as Hds.
  pose proof (take_digits_more _ _ more Hds Hc) as Htake.
  assert (skip_space (dec_of n ++ c :: more) = dec_of n ++ c :: more ∧
    take_sign (dec_of n ++ c :: more) = (false, dec_of n ++ c :: more)) as [-> ->].
  { pose proof (dec_of_length_pos n). destruct (dec_of n) as [|d ds]; [cbn in *; lia|]. apply Forall_inv in Hds. cbn.
    rewrite (digit_not_space d Hds). by destruct (digit_not_sign d Hds) as [-> ->]. }
  rewrite Htake. pose proof (dec_of_length_pos n). destruct (dec_of n) as [|d ds] eqn:E; [cbn in *; lia|]. rewrite <- E.
  rewrite dec_of_value by lia. destruct (Z.ltb_spec n INT64_MIN); [unfold INT64_MIN in *; lia|].
  by destruct (Z.ltb_spec INT64_MAX n); [lia|].
Qed.

Definition LISTENING : bytes := #"pulsedb listening on 127.0.0.1:".

Lemma strstr_listening more : strstr (LISTENING ++ more) #"listening on " = Some ( #"listening on 127.0.0.1:" ++ more).
Proof. reflexivity. Qed.

(** A complete line is read at once, whether or not the server is still there. *)
Lemma pipe_fgets_line eof n s rest :
  LF ∉ s → S (length s) < n → pipe_fgets eof n (s ++ LF :: rest) = Cli.Done (Some (s ++ [LF], rest)).
Proof.
  intros Hs Hn. unfold pipe_fgets, Cli.fgets. rewrite fgets_line by (done || lia).
  replace (match s ++ LF :: rest with [] => None | _ :: _ => Some (s ++ [LF], rest) end)
    with (Some (s ++ [LF], rest)) by (by destruct s).
  cbn [from_option fst]. by rewrite last_snoc, bool_decide_eq_true_2, orb_true_r by done.
Qed.

Lemma server_port_found (eof : bool) (first : bytes) (port : Z) :
  LF ∉ first → NUL ∉ first → length first < 255 → strstr (first ++ [LF]) #"listening on " = None → (0 < port < 65536)%Z →
  server_port eof (first ++ [LF] ++ LISTENING ++ fmt_d port ++ [LF]) = Cli.Done (Some port).
Proof.
  intros Hlf Hnul Hlen Hno Hport. unfold server_port.
  assert (fmt_d port = dec_of port) as -> by (unfold fmt_d; destruct (Z.ltb_spec port 0); [lia|done]).
  pose proof (dec_of_digits port ltac:(lia)) as Hds. pose proof (dec_of_length port 5 ltac:(lia) ltac:(lia)) as Hdl.
  set (second := LISTENING ++ dec_of port). cbn [app].
  assert (first ++ LF :: LISTENING ++ dec_of port ++ [LF] = first ++ LF :: second ++ [LF]) as Heq
    by (unfold second; by rewrite <- app_assoc).
  rewrite Heq. set (out := first ++ LF :: second ++ [LF]).
  assert (∃ k, length out = S k) as [k ->] by (exists (length first + length second + 1); unfold out; rewrite !length_app; cbn; rewrite length_app; cbn; lia).
  cbn [port_loop]. unfold out. rewrite pipe_fgets_line by (try done; lia).
  assert ((LF ∉ second) ∧ NUL ∉ second) as [Hlf2 Hnul2].
  { unfold second. rewrite !not_elem_of_app. split; (split; [|by apply digits_without]); apply (bool_decide_unpack _); vm_compute; exact I. }
  rewrite cstr_no_nul by (rewrite not_elem_of_app; split; [done|by rewrite list_elem_of_singleton]). rewrite Hno.
  assert (length second ≤ 50) as Hls by (unfold second; rewrite length_app; change (length LISTENING) with 31; lia).
  rewrite pipe_fgets_line by (try done; lia).
  rewrite cstr_no_nul by (rewrite not_elem_of_app; split; [done|by rewrite list_elem_of_singleton]).
  unfold second. rewrite <- app_assoc, strstr_listening.
  change ( #"listening on 127.0.0.1:" ++ dec_of port ++ [LF]) with ( #"listening on 127.0.0.1" ++ ":"%char :: dec_of port ++ [LF]).
  rewrite strrchr_last.
  2: { rewrite not_elem_of_app. split; [by apply digits_without|by rewrite list_elem_of_singleton]. }
  change (drop 1 (":"%char :: dec_of port ++ [LF])) with (dec_of port ++ [LF]). rewrite atol_digits by (unfold INT64_MAX; first [lia|done]).
  unfold to_int. rewrite Z.mod_small by lia. replace (port + 2 ^ 31 - 2 ^ 31)%Z with port by lia.
  by destruct (Z.eqb_spec port 0); [lia|].
Qed.

(** The benchmark and the server agree on the port: started with the
    arguments of [start_server], and without a snapshot in the directory that
    does not exist, the server listens and prints what [start_server] reads, line
    by line, as exactly the port it listens on. *)
Lemma bench_finds_port (env : Environment) (path : bytes) (port : Z) :
  env_file env #"/nonexistent/dump.rdb" = None → (∀ cfg, env_listen env cfg = inr port) → (0 < port < 65536)%Z →
  ∃ cfg sv out, main_start env (server_argv path) = Some (Listens cfg sv, out) ∧ ∀ eof, server_port eof (out_stdout out) = Cli.Done (Some port).
Proof.
  intros Hfile Hlisten Hport. unfold main_start.
  assert (config_parse_args config_create_default (server_argv path) =
    (with_dir #"/nonexistent" (with_port 0 config_create_default), ARGS_OK)) as -> by (vm_compute; reflexivity).
  set (cfg := with_dir _ _). assert (rdb_path cfg = #"/nonexistent/dump.rdb") as Hpath by (vm_compute; reflexivity).
  rewrite Hpath, Hfile. cbn [rdb_load mbind option_bind]. rewrite Hlisten. eexists cfg, _, _. split; [reflexivity|].
  cbn [out_stdout]. intros eof. rewrite <- server_port_found with (eof := eof) (first := #"no RDB file at /nonexistent/dump.rdb, starting empty").
  - reflexivity.
  - apply (bool_decide_unpack _). vm_compute. exact I.
  - apply (bool_decide_unpack _). vm_compute. exact I.
  - vm_compute. lia.
  - reflexivity.
  - done.
Qed.

Lemma bench_finds_port_witness : ∃ cfg sv out,
  main_start (mkEnvironment (λ _, None) (λ _, 5%Z) (λ _, 5%Z) (λ _, inr 40123%Z)) (server_argv #"./pulsedb") =
    Some (Listens cfg sv, out) ∧ ∀ eof, server_port eof (out_stdout out) = Cli.Done (Some 40123%Z).
Proof.
  apply (bench_finds_port (mkEnvironment (λ _, None) (λ _, 5%Z) (λ _, 5%Z) (λ _, inr 40123%Z)) #"./pulsedb" 40123).
  - reflexivity.
  - reflexivity.
  - lia.
Defined.

End BenchProps.
