(* ===== verification/BenchProc.v ===== *)
(** * bench/bench.c: the server process and the whole program

    [start_server] makes a pipe and a child process that becomes the server,
    and reads the port from the pipe; [bench_network] connects, runs the four
    pipelined runs, closes the connection and ends the server; [main] reads the
    options and prints the table.  The descriptor table is the one of [Sockets];
    next to it the host keeps a record of the calls the benchmark makes on
    processes.  Everything the operating system and the server decide is an
    input: what each call answers, what the server prints and whether it goes
    after that, what it replies, whether it ends on the signal. *)

From S2P Require Import Prelude CLib Util Dbl DblText DblArith Store Server Sockets SocketsProps Cli Bench BenchProps.
Import Util Dbl DblArith Sockets SocketsProps Bench BenchProps.

Module BenchProc.

(** ** Processes *)

Definition SIGTERM : Z := 15.
Definition STDOUT_FILENO : nat := 1.

(** What the child does between [fork] and the end of its part of this program:
    it becomes another program, with the descriptors it then has, or it exits. *)
Inductive child_end :=
| Execs (argv : list bytes) (files : gmap nat Z)
| Exits (code : Z).

(** The calls on processes, in the order in which they were made: a child was
    made, a signal was sent, a child was waited for and gave its status. *)
Inductive proc_call :=
| Forked (pid : positive) (child : child_end)
| Killed (pid : positive) (sig : Z)
| Waited (pid : positive) (status : Z).

Record Host := mkHost { ho_os : Os; ho_calls : list proc_call }.

Definition on_os (f : Os → Os) (ho : Host) : Host := {| ho_os := f (ho_os ho); ho_calls := ho_calls ho |}.
Definition log_call (c : proc_call) (ho : Host) : Host := {| ho_os := ho_os ho; ho_calls := ho_calls ho ++ [c] |}.

(** [kill]: its result is not looked at. *)
Definition kill (pid : positive) (sig : Z) (ho : Host) : Host := log_call (Killed pid sig) ho.

(** [waitpid] waits for as long as the child runs: [None] is that it never
    ends. *)
Definition waitpid (status : option Z) (pid : positive) (ho : Host) : Cli.outcome Host :=
  match status with
  | None => Cli.Blocks
  | Some status => Cli.Done (log_call (Waited pid status) ho)
  end.

(** ** Starting the server *)

(** What the calls answer, [fork] with the pid; [sp_out] is what the server ever
    writes to the pipe, and [sp_eof] whether it goes, or closes its standard
    output, after that. *)
Record spawn_answers := mkSpawn {
  sp_pipe : answer;
  sp_fork : Z + positive;
  sp_exec : answer;
  sp_fdopen : answer;
  sp_out : bytes;
  sp_eof : bool;
}.

(** [dup2(old, new)] *)
Definition dup2 (old new : nat) (files : gmap nat Z) : gmap nat Z :=
  match files !! old with Some flags => <[new := flags]> files | None => files end.

(** The child, from [fork] to [execl] or [_exit], with a copy of the
    descriptors. *)
Definition child_side (exec : answer) (path : bytes) (rd wr : nat) (files : gmap nat Z) : child_end :=
  let files := dup2 wr STDOUT_FILENO files in
  let files := delete rd files in
  match exec with
  | None => Execs (server_argv path) files
  | Some _ => Exits 127
  end.

Definition fork (a : Z + positive) (child : gmap nat Z → child_end) (ho : Host) : option positive * Host :=
  match a with
  | inl e => (None, on_os (set_errno e) ho)
  | inr pid => (Some pid, log_call (Forked pid (child (os_files (ho_os ho)))) ho)
  end.

(** What comes out of the pipe, and whether it comes to an end: where there is
    no child, or the child has exited, nobody holds the writing end. *)
Definition pipe_output (a : spawn_answers) (pid : option positive) : bytes * bool :=
  match pid, sp_exec a with
  | Some _, None => (sp_out a, sp_eof a)
  | _, _ => ([], true)
  end.

(** The pid, [None] for -1, with the port.  The result of [fork] is not tested:
    without a child the pipe is at its end. *)
Definition start_server (closing : nat → answer) (a : spawn_answers) (path : bytes) (ho : Host)
    : Cli.outcome (option (positive * Z) * Host) :=
  match sp_pipe a with
  | Some e => Cli.Done (None, on_os (set_errno e) ho)
  | None =>
      let '(rd, os) := open_fd (ho_os ho) in
      let '(wr, os) := open_fd os in
      let '(pid, ho) := fork (sp_fork a) (child_side (sp_exec a) path rd wr) (on_os (λ _, os) ho) in
      let ho := on_os (close (closing wr) wr) ho in
      match sp_fdopen a with
      | Some _ => Cli.Broken UB_null_deref
      | None =>
          let '(out, eof) := pipe_output a pid in
          match server_port eof out with
          | Cli.Blocks => Cli.Blocks
          | Cli.Broken u => Cli.Broken u
          | Cli.Done port =>
              let ho := on_os (close (closing rd) rd) ho in
              Cli.Done (port ← port; pid ← pid; Some (pid, port), ho)
          end
      end
  end.

(** ** The connection *)

(** The address is 127.0.0.1 with the port as 16 bits in network byte order;
    [None] is [exit(1)].  The result of [socket] is not tested: [connect] fails
    on -1. *)
Definition connect_to (socket : answer) (connect : Z * Z → answer) (port : Z) (os : Os) : option nat * Os :=
  match socket with
  | Some e => (None, set_errno EBADF (set_errno e os))
  | None =>
      let '(fd, os) := open_fd os in
      match check (connect (htons (port mod 2 ^ 16))) os with
      | (true, os) => (Some fd, os)
      | (false, os) => (None, os)
      end
  end.

(** ** The runs *)

(** Seconds between two readings of the clock. *)
Definition elapsed (times : nat → timespec) (i j : nat) : dbl := dsub (now_s (times j)) (now_s (times i)).

(** [snprintf(name, 64, ...)] *)
Definition run_name (is_get : bool) (depth : Z) : bytes :=
  take 63 ((if is_get then #"GET" else #"SET") ++ #" over TCP, pipeline " ++ fmt_d depth).

(** The runs with the rows they print; the clock is read before and after each. *)
Fixpoint network_loop (times : nat → timespec) (t : nat) (runs : list (Z * Z * bool)) (w : Wire) (out : bytes)
    : Cli.outcome (option Wire * bytes) :=
  match runs with
  | [] => Cli.Done (Some w, out)
  | (ops, depth, is_get) :: runs' =>
      match run_pipeline ops depth is_get w with
      | Cli.Done (Some w) =>
          network_loop times (t + 2) runs' w
            (out ++ report #"network" (run_name is_get depth) ops (elapsed times t (S t)))
      | Cli.Done None => Cli.Done (None, out)
      | Cli.Blocks => Cli.Blocks
      | Cli.Broken u => Cli.Broken u
      end
  end.

(** How the benchmark ends: the exit status if it does not return, and what was
    printed. *)
Record ending := mkEnding { end_exit : option Z; end_host : Host; end_stdout : bytes; end_stderr : bytes }.

Section network.
Context (closing : nat → answer) (a : spawn_answers) (socket : answer) (connect : Z * Z → answer).
Context (status : option Z) (times : nat → timespec).

(** [perror] is left out: what it prints depends on the language. *)
Definition bench_network (server : bytes) (n : Z) (t : nat) (w : Wire) (ho : Host) : Cli.outcome ending :=
  match start_server closing a server ho with
  | Cli.Blocks => Cli.Blocks
  | Cli.Broken u => Cli.Broken u
  | Cli.Done (None, ho) => Cli.Done (mkEnding None ho [] (#"could not start " ++ server ++ [LF]))
  | Cli.Done (Some (pid, port), ho) =>
      match connect_to socket connect port (ho_os ho) with
      | (None, os) => Cli.Done (mkEnding (Some 1%Z) (on_os (λ _, os) ho) [] [])
      | (Some fd, os) =>
          let ho := on_os (λ _, os) ho in
          match network_loop times t (network_runs n) w [] with
          | Cli.Blocks => Cli.Blocks
          | Cli.Broken u => Cli.Broken u
          | Cli.Done (None, out) => Cli.Done (mkEnding (Some 1%Z) ho out [])
          | Cli.Done (Some _, out) =>
              let ho := on_os (close (closing fd) fd) ho in
              let ho := kill pid SIGTERM ho in
              match waitpid status pid ho with
              | Cli.Done ho => Cli.Done (mkEnding None ho out [])
              | Cli.Blocks => Cli.Blocks
              | Cli.Broken u => Cli.Broken u
              end
          end
      end
  end.

(** ** The program *)

(** The rows of [bench_store], in order; the clock is read twice for each. *)
Definition store_rows (n : Z) : bytes :=
  let zn := Z.quot n 10 in
  let rows := [( #"SET (insert new keys)", n); ( #"GET (random point reads)", n); ( #"HSET (1k hashes)", n);
               ( #"List scan, first 100 items", 2000); ( #"ZADD (one set, growing)", zn);
               ( #"ZSCORE (random members)", zn); ( #"XADD (auto IDs)", n)]%Z in
  concat (imap (λ i row, report #"store" row.1 row.2 (elapsed times (2 * i) (2 * i + 1))) rows).

Definition TABLE_HEAD : bytes :=
  #"| Layer   | Operation                          |        Ops |      Ops/sec |   ns/op |" ++ [LF] ++
  #"|---------|------------------------------------|-----------:|-------------:|--------:|" ++ [LF].

(** [main]: [clock] is read by the store, [times] by the benchmark, and the
    socket answers with [ws] and [rs]. *)
Definition main (clock : nat → Z * Z) (ws : list Server.write_result) (rs : list Server.read_result)
    (argv : list bytes) (ho : Host) : Cli.outcome ending :=
  match options (tail argv) DEFAULT_N None with
  | None =>
      Cli.Done (mkEnding (Some 2%Z) ho [] (#"usage: " ++ default [] (head argv) ++ #" [--quick] [-n N] [--server PATH]" ++ [LF]))
  | Some (n, server) =>
      match bench_store clock n fresh_state with
      | Undef u => Cli.Broken u
      | Ret (_, _, warning, b) =>
          let out := TABLE_HEAD ++ store_rows n in
          match server with
          | None => Cli.Done (mkEnding (Some 0%Z) ho out warning)
          | Some path =>
              match bench_network path n 14 (mkWire ws rs [] buffer_init (b_rng b)) ho with
              | Cli.Done e =>
                  Cli.Done (mkEnding (Some (default 0%Z (end_exit e))) (end_host e) (out ++ end_stdout e) (warning ++ end_stderr e))
              | Cli.Blocks => Cli.Blocks
              | Cli.Broken u => Cli.Broken u
              end
          end
      end
  end.

End network.

(** The program without a server: the table with the rows of the store layer,
    no warning, exit status 0. *)
Lemma main_table closing a socket connect status times clock ws rs argv n ho :
  (∀ i, ((clock i).1 ≤ (clock (S i)).1)%Z) → options (tail argv) DEFAULT_N None = Some (n, None) → (0 < n)%Z →
  main closing a socket connect status times clock ws rs argv ho =
    Cli.Done (mkEnding (Some 0%Z) ho (TABLE_HEAD ++ store_rows times n) []).
Proof.
  intros Hc Ho Hn. unfold main. rewrite Ho. by destruct (bench_store_run clock Hc n Hn) as [b ->].
Qed.

(** ** What is left behind *)

(** The row that a run prints when the clock was read [t] times before. *)
Definition network_row (times : nat → timespec) (t : nat) (run : Z * Z * bool) : bytes :=
  let '(ops, depth, is_get) := run in report #"network" (run_name is_get depth) ops (elapsed times t (S t)).

Lemma network_loop_rows times runs t w w' out out' :
  network_loop times t runs w out = Cli.Done (Some w', out') →
  out' = out ++ concat (imap (λ i, network_row times (t + 2 * i)) runs).
Proof.
  revert t w out. induction runs as [|[[ops depth] is_get] runs IH]; intros t w out; cbn [network_loop].
  - intros [= _ ->]. by rewrite app_nil_r.
  - destruct (run_pipeline ops depth is_get w) as [[w1|]| |]; [|done..]. intros ->%IH.
    rewrite imap_cons, <- app_assoc. cbn [concat network_row]. rewrite Nat.mul_0_r, Nat.add_0_r. do 3 f_equal.
    apply imap_ext. intros i run _. cbn. f_equal. lia.
Qed.

(** A table with the same descriptors, and no call on one that is not open. *)
Definition same_files (os0 os : Os) : Prop := os_files os = os_files os0 ∧ os_ebadf os = os_ebadf os0.

(** A descriptor that is opened and closed again, other calls in between. *)
Lemma close_opened a fd os0 os flags :
  os_files os0 !! fd = None → os_files os = <[fd := flags]> (os_files os0) → os_ebadf os = os_ebadf os0 →
  same_files os0 (close a fd os).
Proof.
  intros Hn Hf He. destruct (close_run a fd os flags) as [H1 H2]; [rewrite Hf; apply lookup_insert_eq|].
  split; [|congruence]. by rewrite H1, Hf, delete_insert_id.
Qed.

(** The child that was made, as the record of calls has it. *)
Definition forks (a : spawn_answers) (calls : list proc_call) : Prop :=
  match sp_pipe a, sp_fork a with
  | None, inr pid => ∃ child, calls = [Forked pid child]
  | _, _ => calls = []
  end.

(** [start_server] closes both ends of the pipe; the only call on a process it
    makes is [fork], also where it found no port. *)
Lemma start_server_exact closing a path ho r ho' :
  start_server closing a path ho = Cli.Done (r, ho') →
  same_files (ho_os ho) (ho_os ho') ∧
  ∃ calls, ho_calls ho' = ho_calls ho ++ calls ∧ forks a calls ∧
    ∀ pid port, r = Some (pid, port) → ∃ child, calls = [Forked pid child].
Proof.
  unfold start_server, forks. destruct (sp_pipe a) as [e|].
  { intros [= <- <-]. split; [done|]. exists []. by rewrite app_nil_r. }
  destruct (open_fd_run (ho_os ho)) as (rd & -> & Hrd). cbv beta iota.
  set (os1 := with_files _ _). destruct (open_fd_run os1) as (wr & -> & Hwr). cbv beta iota.
  set (os2 := with_files _ _).
  assert (∀ os, os_files os = os_files os2 → os_ebadf os = os_ebadf os2 →
    same_files (ho_os ho) (close (closing rd) rd (close (closing wr) wr os))) as Hs.
  { intros os Hf He. destruct (close_opened (closing wr) wr os1 os O_RDWR Hwr Hf He) as [Hf' He'].
    by apply (close_opened _ _ _ _ O_RDWR). }
  unfold fork. destruct (sp_fork a) as [e|pid], (sp_fdopen a); try done; destruct (pipe_output a _) as [out eof];
    destruct (server_port eof out) as [port| |]; try done; cbn [on_os log_call ho_os ho_calls]; intros [= <- <-];
    (split; [by apply Hs|]).
  - exists []. rewrite app_nil_r. split; [done|]. split; [done|]. by destruct port.
  - eexists. split; [reflexivity|]. split; [by eexists|]. destruct port; intros ?? [= <- <-]; by eexists.
Qed.

(** What was done when [bench_network] ends. *)
Lemma network_ending closing a socket connect status times path n t w ho e :
  bench_network closing a socket connect status times path n t w ho = Cli.Done e →
  (end_exit e = None → same_files (ho_os ho) (ho_os (end_host e))) ∧
  if bool_decide (end_exit e = None ∧ end_stderr e = []) then
    end_stdout e = concat (imap (λ i, network_row times (t + 2 * i)) (network_runs n)) ∧
    ∃ pid child st, forks a [Forked pid child] ∧
      ho_calls (end_host e) = ho_calls ho ++ [Forked pid child; Killed pid SIGTERM; Waited pid st]
  else ∃ calls, forks a calls ∧ ho_calls (end_host e) = ho_calls ho ++ calls.
Proof.
  unfold bench_network. destruct (start_server closing a path ho) as [[r ho1]| |] eqn:Hst; [|done..].
  apply start_server_exact in Hst as (Hs & calls & Hc & Hk & Hr). destruct r as [[pid port]|].
  2: { intros [= <-]. split; [done|]. cbn. by exists calls. }
  destruct (Hr _ _ eq_refl) as (child & ->). clear Hr.
  destruct (connect_to socket connect port (ho_os ho1)) as [[fd|] os] eqn:Hco.
  2: { intros [= <-]. split; [done|]. cbn. by eexists. }
  assert (os_files (ho_os ho1) !! fd = None ∧ os_files os = <[fd := O_RDWR]> (os_files (ho_os ho1)) ∧
    os_ebadf os = os_ebadf (ho_os ho1)) as (Hfd & Hfs & Heb).
  { revert Hco. unfold connect_to. destruct socket; [done|]. destruct (open_fd_run (ho_os ho1)) as (fd' & -> & Hfd).
    unfold check. destruct (connect _); [done|]. intros [= <- <-]. done. }
  destruct (network_loop times t (network_runs n) w []) as [[[w'|] out]| |] eqn:Hl; [| |done..].
  2: { intros [= <-]. split; [done|]. cbn. by eexists. }
  unfold waitpid. destruct status as [st|]; [|done]. intros [= <-]. cbn [end_exit end_stderr end_host end_stdout].
  rewrite bool_decide_eq_true_2 by done. split.
  - intros _. destruct Hs as [H1 H2].
    destruct (close_opened (closing fd) fd (ho_os ho1) os O_RDWR Hfd Hfs Heb) as [H3 H4]. cbn. split; congruence.
  - split; [by apply network_loop_rows in Hl|]. exists pid, child, st. split; [done|]. cbn. by rewrite Hc, <- !app_assoc.
Qed.

(** The next call of [open_fd]. *)
Ltac opens fd := match goal with |- context [open_fd ?os] => destruct (open_fd_run os) as (fd & -> & _); cbv beta iota end.

(** It returns where the server prints its port, the runs end and the server
    ends on the signal. *)
Lemma network_returns closing a socket connect status times path n t w ho pid port w' out :
  sp_pipe a = None → sp_fork a = inr pid → sp_exec a = None → sp_fdopen a = None →
  server_port (sp_eof a) (sp_out a) = Cli.Done (Some port) →
  socket = None → connect (htons (port mod 2 ^ 16)) = None →
  network_loop times t (network_runs n) w [] = Cli.Done (Some w', out) → status ≠ None →
  ∃ ho', bench_network closing a socket connect status times path n t w ho = Cli.Done (mkEnding None ho' out []).
Proof.
  intros Hp Hf Hx Hd Hport -> Hc Hl Hst. unfold bench_network, start_server, pipe_output. rewrite Hp, Hx.
  opens rd. opens wr. unfold fork. rewrite Hf, Hd. cbv beta iota. rewrite Hport. cbn [mbind option_bind].
  unfold connect_to. opens fd. unfold check. rewrite Hc. cbv beta iota. rewrite Hl.
  destruct status; [|done]. cbn. by eexists.
Qed.

(** C34: the descriptors of the network benchmark and the calls it makes on
    processes.  [bench_network] returns where the server prints its port, the
    connection is made, the runs end and the server ends on the signal.
    Whatever the operating system answers and the server does, when it returns
    it has closed every descriptor it opened, each once.  After complete runs it
    has printed the row of each run, and it has made one child, sent SIGTERM to
    that child while it had not been waited for, and waited for it.  In all
    other endings, that is where it finds no port, cannot connect or a run
    fails, a child that was made got no signal from the benchmark and was not
    waited for. *)
Theorem bench_network_leaves (closing : nat → answer) (a : spawn_answers) (socket : answer) (connect : Z * Z → answer)
    (status : option Z) (times : nat → timespec) (path : bytes) (n : Z) (t : nat) (w : Wire) (ho : Host) :
  (∀ pid port w' out, sp_pipe a = None → sp_fork a = inr pid → sp_exec a = None → sp_fdopen a = None →
     server_port (sp_eof a) (sp_out a) = Cli.Done (Some port) →
     socket = None → connect (htons (port mod 2 ^ 16)) = None →
     network_loop times t (network_runs n) w [] = Cli.Done (Some w', out) → status ≠ None →
     ∃ ho', bench_network closing a socket connect status times path n t w ho = Cli.Done (mkEnding None ho' out [])) ∧
  ∀ e, bench_network closing a socket connect status times path n t w ho = Cli.Done e →
    (end_exit e = None → same_files (ho_os ho) (ho_os (end_host e))) ∧
    if bool_decide (end_exit e = None ∧ end_stderr e = []) then
      end_stdout e = concat (imap (λ i, network_row times (t + 2 * i)) (network_runs n)) ∧
      ∃ pid child st, forks a [Forked pid child] ∧
        ho_calls (end_host e) = ho_calls ho ++ [Forked pid child; Killed pid SIGTERM; Waited pid st]
    else ∃ calls, forks a calls ∧ ho_calls (end_host e) = ho_calls ho ++ calls.
Proof. split; [intros; by eapply network_returns|intros e; apply network_ending]. Qed.

(** Four operations: two runs of one request, then two of four, each answered at once. *)
Definition demo_spawn : spawn_answers :=
  mkSpawn None (inr 77%positive) None None (#"pulsedb listening on 127.0.0.1:40123" ++ [LF]) false.
Definition demo_host : Host := mkHost demo_os [].
Definition demo_times (i : nat) : timespec := mkTimespec (Z.of_nat i) 0.
Definition demo_replies : list Server.read_result :=
  Server.Read_data <$> [ #"+OK" ++ CRLF; #"$5" ++ CRLF ++ #"value" ++ CRLF;
    concat (replicate 4 (#"+OK" ++ CRLF)); concat (replicate 4 (#"$5" ++ CRLF ++ #"value" ++ CRLF))].

Definition demo_run (connect : answer) : Cli.outcome ending :=
  bench_network (λ _, None) demo_spawn None (λ _, connect) (Some 0%Z) demo_times #"./pulsedb" 4 0
    (mkWire (replicate 4 (Server.Write_sent 4096)) demo_replies [] buffer_init RNG_SEED) demo_host.

Definition completes (o : Cli.outcome ending) : bool :=
  match o with Cli.Done e => bool_decide (end_exit e = None ∧ end_stderr e = []) | _ => false end.

Lemma bench_network_leaves_witness :
  (∃ e child st, demo_run None = Cli.Done e ∧
     ho_calls (end_host e) = [Forked 77 child; Killed 77 SIGTERM; Waited 77 st]) ∧
  ∃ e child, demo_run (Some 111%Z) = Cli.Done e ∧ end_exit e = Some 1%Z ∧ ho_calls (end_host e) = [Forked 77 child].
Proof.
  split.
  - assert (completes (demo_run None) = true) as Hc by (vm_compute; reflexivity).
    destruct (demo_run None) as [e| |] eqn:He; [|discriminate Hc..]. apply bool_decide_eq_true in Hc.
    destruct (proj2 (bench_network_leaves _ _ _ _ _ _ _ _ _ _ _) e He) as [_ Hl].
    rewrite bool_decide_eq_true_2 in Hl by exact Hc. destruct Hl as (_ & pid & child & st & (child' & [= -> _]) & Hl).
    exists e, child, st. split; [reflexivity|exact Hl].
  - assert (completes (demo_run (Some 111%Z)) = false) as Hc by (vm_compute; reflexivity).
    assert (match demo_run (Some 111%Z) with Cli.Done e => end_exit e | _ => None end = Some 1%Z) as Hx by (vm_compute; reflexivity).
    destruct (demo_run (Some 111%Z)) as [e| |] eqn:He; [|discriminate Hx..]. apply bool_decide_eq_false in Hc.
    destruct (proj2 (bench_network_leaves _ _ _ _ _ _ _ _ _ _ _) e He) as [_ Hl].
    rewrite bool_decide_eq_false_2 in Hl by exact Hc. destruct Hl as (calls & (child & ->) & Hl).
    exists e, child. split; [reflexivity|]. split; [exact Hx|exact Hl].
Defined.

End BenchProc.
